(* ===== verification/_CoqProject ===== *)
-Q . S2P
Prelude.v
Machine.v
BinaryIO.v
Crc.v
WalFormat.v
WalReplay.v
WalLog.v
WalDurability.v
WalMaintenance.v
GroupCommit.v
CommitSignals.v
SnapshotFile.v
ReadFailures.v
Journal.v
WalReopen.v
KVStore.v
StoreSharding.v
StoreLocks.v
StoreCalls.v
StoreAssignment.v
AssignmentEffect.v
Linearizability.v
StoreAtomicity.v
StorePersistence.v
StoreDurability.v
Restart.v
RecoveryHazards.v
Checkpointing.v
CheckpointDurability.v
CheckpointLocks.v
CheckpointSignals.v
StringUtils.v
CommandParser.v
Server.v
MainProgram.v
TornLog.v
Witnesses.v
