(* ===== verification/Prelude.v ===== *)
(** * A verified model of the concurrent key-value store

    The program is a command-line key-value store in C++: a sharded map in memory,
    a write-ahead log, snapshots, and a background thread that writes them. This
    library translates its source into executable definitions and proves what makes
    it correct. Paths below are relative to the root of the repository's sources.

    ** How the program works

    [main] opens the log, loads the snapshot, replays the log from the offset the
    snapshot stores, and serves commands read from standard input. A [KVStore]
    keeps 64 shards, each with a lock. [Set] and [Delete] lock the shard of the
    key, append a record to the log and wait for its acknowledgement, and only then
    change memory. The thousandth write since the last snapshot asks the
    checkpoint thread for another; it captures the shards and the end of the log under all locks and
    writes the file without them. [WriteAheadLog] acknowledges a record when it was
    flushed ([Buffered]), when it was synchronized ([Sync]), or when the batch that
    an ordered writer thread made of it was synchronized ([GroupCommit]).

    ** The files of the library

    - [Prelude] (this file): bytes, machine integers, exceptions, the monad of
      functions that may throw, its weakest preconditions and their tactics.
    - [Machine]: files, streams, [fdatasync], renaming. A file has its contents and
      the part that a power failure cannot take. Every call that can fail takes its
      outcome from a script in the state, so a theorem about all worlds is about
      all patterns of failures. A [view] is what a reader gets to see of a file.
    - [BinaryIO]: [include/persistence/binary_io.h] and the little-endian helpers
      of [src/persistence/wal.cpp]. Both byte orders of the host are covered: it is
      a parameter.
    - [Crc]: the table and the loop of [crc32], a bit-serial reference, their
      equivalence, and the errors that are always detected.
    - [WalFormat], [WalReplay]: headers, records and frames of versions 2 and 3,
      and [ReplayFromDetailed]. The declarative description of a log is
      [log_image]; replay accepts exactly the longest prefix that is one.
    - [WalLog]: the class [WriteAheadLog] of [include/persistence/wal.h], a record
      with the fields of the class grouped ([wal_config], [wal_format],
      [wal_queue]), and its member functions one by one. [wal_ready] says that the
      object stands for a log; [wal_torn], that a failed append left part of one.
    - [WalDurability]: crashes and power failures against appends.
    - [WalMaintenance]: constructor, [CurrentOffset], [Clear], [TruncateTo],
      [ReplayFromAndTruncate].
    - [GroupCommit]: submitters and [WriterLoop] as a step relation on the object.
      [CommitSignals]: their condition variables, and the destructor.
    - [SnapshotFile]: [include/persistence/snapshot.h] and
      [src/persistence/snapshot.cpp]. The order in which an unordered map is
      iterated is a parameter.
    - [ReadFailures]: replay, loading, the constructor of the log and its recovery
      when a file cannot be opened for reading or reading stops. The verification
      of a snapshot, in [SaveVerified], draws its view from the script; elsewhere
      readers see the whole file.
    - [Journal]: the class of what the store asks of a log, with its laws
      ([JournalLaws]), and the instance that [WalLog] gives. [WalReopen]: the
      constructor on the file of an earlier object, and the repair of one whose last
      write was interrupted.
    - [KVStore]: the class of [include/store/kv_store.h] and
      [src/store/kv_store.cpp], one member function at a time, over any [Journal].
      The hash function is a parameter. [StoreSharding]: the shards refine one map.
      [StorePersistence]: what a restart would recover, after every call and every
      failure inside it. [StoreDurability]: what a power failure leaves of it; the
      log promises its part by the class [JournalDurableLaws]. [Restart]: lives of
      the process that end in power failures, also in the middle of a failing call,
      and the starts between them. [RecoveryHazards]:
      snapshots that outlive their log, and snapshots that cannot be opened.
    - [StoreLocks], [StoreCalls]: the member functions and the checkpoint thread
      lock by lock and shard by shard, run by any number of threads.
      [StoreAssignment]: any number of stores, with the constructors and the
      assignments that take another store and lock both; [AssignmentEffect]: what
      these do when they run alone. [Linearizability]: all
      these calls take effect one at a time. [StoreAtomicity]: the case of one
      store.
    - [Checkpointing]: the checkpoint thread among foreground calls, with log,
      memory and files; a step is what runs under one set of locks.
      [CheckpointDurability]: power failures among them. [CheckpointLocks]: the
      threads that take and release those locks one by one and act on the files in
      between; each of their moves is a few steps of [Checkpointing], or none.
      [CheckpointSignals]: the condition variable.
    - [StringUtils], [CommandParser], [Server], [MainProgram]:
      [src/common/string_utils.cpp], [src/parser/cli_parser.cpp],
      [src/server/cli_server.cpp], [src/main.cpp]. [TornLog]: the program on a log
      whose last record a crash cut short.
    - [Witnesses]: the theorems at concrete inputs.

    ** What is shown

    - The whole program: [main_serves_what_the_files_hold], and
      [run_is_a_dialogue] about its command loop.
    - Concurrency: the calls of all threads are linearizable to one atomic map for
      each store ([calls_are_atomic], and with assignments [stores_are_atomic]); no
      deadlock, everything returns ([every_call_returns],
      [assignments_never_deadlock], [submitters_return], [waiters_return],
      [group_commit_serves_everyone]); no data race ([no_data_race],
      [assignments_never_race]); lost wake-ups after a cancellation
      ([cancellation_loses_wakeups]).
    - Durability: the store survives power failures
      ([store_survives_power_failure], and among concurrent calls
      [interleavings_survive_power_failure], and over any number of restarts
      [sessions_add_up], [failed_sessions_add_up]), and so do acknowledged records
      ([acknowledged_records_survive], [group_commit_acknowledges]); appends are
      atomic ([append_crash_atomic]); a failure is final ([group_commit_failure]);
      memory and disk agree after every call, every failure and in every
      interleaving with the checkpoint thread ([writes_stay_recoverable],
      [save_snapshot_recoverable], [compaction_recoverable],
      [clear_persistence_empties], [checkpoint_interleavings],
      [interleaved_failures]), which carries over to threads with their locks
      ([locked_calls_stay_recoverable], [locked_calls_survive_power_failure]).
    - File formats: replay is sound and complete ([replay_sound],
      [replay_complete], [replay_torn_tail], [replay_detects_damage],
      [recovery_repairs]); snapshots round trip and are published atomically
      ([snapshot_roundtrip], [snapshot_truncation_detected],
      [save_publishes_atomically]); reading a part of a file yields nothing that
      the file does not hold ([partial_reads_invent_nothing]); the checksum is CRC-32
      ([crc32_reference_and_burst]).
    - Functions of a single call: [writes_refine_map], [reads_refine_map],
      [assignments_run_alone], [constructors_run_alone],
      [append_outcome], [checkpoint_trigger], [destroy_drains], [parse_render],
      [parse_well_formed], [split_is_words].
    - Limits of the program, as theorems: [torn_log_refuses_writes],
      [stale_snapshot_hides_writes], [oversized_value_unloadable]; and when
      reading fails, [unread_log_loses_writes], [recovery_trusts_its_reading],
      [unread_snapshot_forgets].

    ** Bounds and fuel

    Loops that are not structural take fuel, and theorems show that it is enough:
    the replay loop takes one turn more than there are bytes left
    ([replay_loop_terminates]); the command loop one turn more than the input has
    bytes; [CheckpointLoop] at destruction two turns. 32-bit and 64-bit fields wrap
    where the program wraps them and are bounded where it checks them. A file
    offset is bounded by the largest signed 64-bit integer.

    ** What is not modelled

    - The time at which names reach the disk: a file that was created, removed or
      renamed is taken to keep its name over a power failure.
    - Memory exhaustion ([std::bad_alloc]) and failures of standard output.
    - Failures while reading an existing file, outside [SaveVerified] and
      [ReadFailures]: elsewhere a restart is taken to see the whole of its files. A
      [view] ends as the file would; that a replay reports a partial record when an
      error comes between two frames is not distinguished.
    - The memory model below data races: programs without races are taken to be
      sequentially consistent. In [StoreCalls] an append under [GroupCommit] touches
      the log on behalf of the submitter that waits for the writer.
    - In [StoreAssignment], data other than the shards, and the backing off by which
      [std::lock] takes two mutexes: it takes both or waits with neither.
    - Time: [wait_for] only decides when a batch is formed, and it may be formed at
      any moment.
    - Waiting for a condition among locks: [StoreCalls] has every member function but
      [WaitForCheckpoints], which is in [CheckpointSignals].
    - Streams accept every [write] and report a failure at the flush after it, and
      what a failed flush did not write is dropped, not tried again at [close].
    - [destroy] finds the checkpoint thread waiting: a round in progress is finished
      first, as in [Checkpointing].
    - [MainProgram] runs the checkpoint thread when the store is destroyed; its
      other interleavings are in [Checkpointing], [CheckpointLocks] and
      [StoreAtomicity].
    - In [CheckpointLocks], [ClearPersistence], [LoadSnapshot] and [ReplayFromWal]
      among other threads, and what follows a call that throws at the log, in an
      administrative call or in a capture: such a state is shown to be recoverable
      and not continued. All locks of these calls are in [StoreCalls].
    - [kProjectVersion], which the build defines, and the text of a
      [std::system_error], which the library composes, are parameters.
    - Tests, benchmarks and scripts. *)

From Stdlib Require Export ZArith Lia.
From Stdlib Require Strings.Byte.
From stdpp Require Export base tactics list strings gmap fin_maps.

#[global] Open Scope Z_scope.

(** ** Bytes and byte strings

    [std::string] is modelled as the list of its bytes. *)

Abbreviation byte := Byte.byte.
Abbreviation bytes := (list Byte.byte).

(** The unsigned value of a byte, [static_cast<unsigned char>]. *)
Definition byte_val (b : byte) : Z := Z.of_N (Byte.to_N b).

(** [static_cast<char>(z)]: the low eight bits. *)
Definition byte_of_Z (z : Z) : byte :=
  match Byte.of_N (Z.to_N (z mod 256)) with
  | Some b => b
  | None => Byte.x00
  end.

(** A string literal of the source. *)
Definition str (s : string) : bytes := String.list_byte_of_string s.

#[global] Instance byte_eq_dec : EqDecision byte := Byte.byte_eq_dec.

#[global] Instance byte_countable : Countable byte :=
  inj_countable Byte.to_N Byte.of_N Byte.of_to_N.

(** [s.size()]. *)
Definition size_of (l : bytes) : Z := Z.of_nat (length l).

(** [l.substr(off, n)] when it is in range. *)
Definition slice {A} (off n : Z) (l : list A) : list A :=
  take (Z.to_nat n) (drop (Z.to_nat off) l).

(** ** Machine integers

    Values of unsigned integer types are integers; the operations that may wrap
    write the reduction out. *)

Definition u32 (z : Z) : Z := z mod 2 ^ 32.
Definition u64 (z : Z) : Z := z mod 2 ^ 64.
Definition u32_max : Z := 2 ^ 32 - 1.
Definition u64_max : Z := 2 ^ 64 - 1.
(** [std::numeric_limits<std::streamoff>::max()], a signed 64-bit type. *)
Definition streamoff_max : Z := 2 ^ 63 - 1.

(** ** Exceptions and the state-and-exception monad

    A C++ member function that may throw is a state transformer which returns
    either a value or an exception; the state reached when the exception was
    thrown is kept, because nothing rolls it back. *)

Inductive exn :=
| runtime_error (what : bytes)
| invalid_argument (what : bytes)
| logic_error (what : bytes)
| system_error (code : Z) (what : bytes)
| hook_exception.

#[global] Instance exn_eq_dec : EqDecision exn.
Proof. solve_decision. Defined.

Inductive res (A : Type) :=
| Ok (a : A)
| Exn (e : exn).
Arguments Ok {A} a.
Arguments Exn {A} e.

Definition M (S A : Type) : Type := S → res A * S.

Definition ret {S A} (a : A) : M S A := λ s, (Ok a, s).
Definition throw {S A} (e : exn) : M S A := λ s, (Exn e, s).
Definition bind {S A B} (m : M S A) (k : A → M S B) : M S B :=
  λ s, match m s with
       | (Ok a, s') => k a s'
       | (Exn e, s') => (Exn e, s')
       end.
(** [try { m } catch (...) { h }]. *)
Definition catch {S A} (m : M S A) (h : exn → M S A) : M S A :=
  λ s, match m s with
       | (Ok a, s') => (Ok a, s')
       | (Exn e, s') => h e s'
       end.
Definition gets {S A} (f : S → A) : M S A := λ s, (Ok (f s), s).
Definition modify {S} (f : S → S) : M S unit := λ s, (Ok tt, f s).
Definition when {S} (b : bool) (m : M S unit) : M S unit :=
  if b then m else ret tt.
(** Runs an operation of a part of the state on the whole of it. *)
Definition zoom {S T A} (view : S → T) (update : T → S → S) (m : M T A) : M S A :=
  λ s, let (r, t) := m (view s) in (r, update t s).

(** Runs an operation on an object made here, and returns the object. *)
Definition inside {S T A B} (enter : S → T) (leave : T → S) (result : T → B) (m : M T A) : M S B :=
  λ s, let (r, t) := m (enter s) in (match r with Ok _ => Ok (result t) | Exn e => Exn e end, leave t).

Declare Scope prog_scope.
Delimit Scope prog_scope with prog.
Notation "'let!' x := m 'in' k" := (bind m (λ x, k))
  (at level 10, x name, m at level 100, k at level 200) : prog_scope.
Notation "m ;;; k" := (bind m (λ _, k))
  (at level 199, k at level 200, right associativity) : prog_scope.
#[global] Open Scope prog_scope.

(** [wp m Q E s]: running [m] from [s] ends either normally in a state of [Q]
    or by an exception in a state of [E]. *)
Definition wp {S A} (m : M S A) (Q : A → S → Prop) (E : exn → S → Prop) (s : S) : Prop :=
  match m s with
  | (Ok a, s') => Q a s'
  | (Exn e, s') => E e s'
  end.

Section wp_rules.
  Context {S : Type}.
  Implicit Types (s : S).

Lemma wp_ret {A} (a : A) Q E s : Q a s → wp (ret a) Q E s.
Proof. done. Qed.

Lemma wp_throw {A} e (Q : A → S → Prop) (E : exn → S → Prop) s : E e s → wp (throw e) Q E s.
Proof. done. Qed.

Lemma wp_gets {A} (f : S → A) (Q : A → S → Prop) E s : Q (f s) s → wp (gets f) Q E s.
Proof. done. Qed.

Lemma wp_modify (f : S → S) (Q : unit → S → Prop) E s : Q tt (f s) → wp (modify f) Q E s.
Proof. done. Qed.

Lemma wp_bind {A B} (m : M S A) (k : A → M S B) Q E s :
  wp m (λ a, wp (k a) Q E) E s → wp (bind m k) Q E s.
Proof. unfold wp, bind. by destruct (m s) as [[] ?]. Qed.

Lemma wp_catch {A} (m : M S A) (h : exn → M S A) Q E s :
  wp m Q (λ e, wp (h e) Q E) s → wp (catch m h) Q E s.
Proof. unfold wp, catch. by destruct (m s) as [[] ?]. Qed.

Lemma wp_when b (m : M S unit) Q E s :
  (b = true → wp m Q E s) → (b = false → Q tt s) → wp (when b m) Q E s.
Proof. destruct b; cbn; auto. Qed.

Lemma wp_mono {A} (m : M S A) (Q Q' : A → S → Prop) (E E' : exn → S → Prop) s :
  wp m Q E s → (∀ a s', Q a s' → Q' a s') → (∀ e s', E e s' → E' e s') →
  wp m Q' E' s.
Proof. unfold wp. destruct (m s) as [[] ?]; auto. Qed.

Lemma wp_zoom {T A} (view : S → T) (update : T → S → S) (m : M T A) Q E s :
  wp m (λ a t, Q a (update t s)) (λ e t, E e (update t s)) (view s) →
  wp (zoom view update m) Q E s.
Proof. unfold wp, zoom. by destruct (m (view s)) as [[] ?]. Qed.

Lemma wp_inside {T A B} (enter : S → T) (leave : T → S) (result : T → B) (m : M T A) (Q : B → S → Prop) E s :
  wp m (λ _ t, Q (result t) (leave t)) (λ e t, E e (leave t)) (enter s) →
  wp (inside enter leave result m) Q E s.
Proof. unfold wp, inside. by destruct (m (enter s)) as [[] ?]. Qed.

Lemma wp_ok {A} (m : M S A) Q E s a s' : wp m Q E s → m s = (Ok a, s') → Q a s'.
Proof. unfold wp. intros H Heq. by rewrite Heq in H. Qed.

Lemma wp_exn {A} (m : M S A) Q E s e s' : wp m Q E s → m s = (Exn e, s') → E e s'.
Proof. unfold wp. intros H Heq. by rewrite Heq in H. Qed.

End wp_rules.

(** One step of symbolic execution of a [wp] goal. *)
Ltac wp_step :=
  lazymatch goal with
  | |- wp (ret _) _ _ _ => apply wp_ret
  | |- wp (throw _) _ _ _ => apply wp_throw
  | |- wp (gets _) _ _ _ => apply wp_gets
  | |- wp (modify _) _ _ _ => apply wp_modify
  | |- wp (bind _ _) _ _ _ => apply wp_bind
  | |- wp (catch _ _) _ _ _ => apply wp_catch
  | |- wp (when _ _) _ _ _ => apply wp_when; intros ?
  | |- wp (zoom _ _ _) _ _ _ => apply wp_zoom
  | |- wp (inside _ _ _ _) _ _ _ => apply wp_inside
  | |- wp (if ?b then _ else _) _ _ _ => destruct b eqn:?
  end; cbn beta.
Ltac wp_steps := repeat wp_step.

Lemma wp_and {S A} (m : M S A) (Q Q' : A → S → Prop) (E E' : exn → S → Prop) s :
  wp m Q E s → wp m Q' E' s → wp m (λ a s', Q a s' ∧ Q' a s') (λ e s', E e s' ∧ E' e s') s.
Proof. unfold wp. destruct (m s) as [[] ?]; auto. Qed.

(** A call whose result is not used. *)
Lemma wp_ignore {S A} (m : M S A) (Q : S → Prop) (E : exn → S → Prop) s :
  wp (m ;;; ret tt) (λ _, Q) E s → wp m (λ _, Q) E s.
Proof. unfold wp, bind. by destruct (m s) as [[] ?]. Qed.

(** [keeps P m]: [m] preserves [P], whether it returns or throws. *)
Definition keeps {S A} (P : S → Prop) (m : M S A) : Prop :=
  ∀ s, P s → wp m (λ _, P) (λ _, P) s.

Section keeps_rules.
  Context {S : Type} (P : S → Prop).

Lemma keeps_ret {A} (a : A) : keeps P (ret a).
Proof. by intros s. Qed.

Lemma keeps_throw {A} e : keeps P (throw (A := A) e).
Proof. by intros s. Qed.

Lemma keeps_gets {A} (f : S → A) : keeps P (gets f).
Proof. by intros s. Qed.

Lemma keeps_modify f : (∀ s, P s → P (f s)) → keeps P (modify f).
Proof. intros H s. apply H. Qed.

Lemma keeps_bind {A B} (m : M S A) (k : A → M S B) :
  keeps P m → (∀ a, keeps P (k a)) → keeps P (bind m k).
Proof. intros Hm Hk s Hs. apply wp_bind. eapply wp_mono; [by apply Hm|..]; [|done]. intros a s' Hs'. by apply Hk. Qed.

Lemma keeps_catch {A} (m : M S A) h :
  keeps P m → (∀ e, keeps P (h e)) → keeps P (catch m h).
Proof. intros Hm Hh s Hs. apply wp_catch. eapply wp_mono; [by apply Hm|done|]. intros e s' Hs'. by apply Hh. Qed.

Lemma keeps_when b (m : M S unit) : keeps P m → keeps P (when b m).
Proof. destruct b; [done|intros _; apply keeps_ret]. Qed.

Lemma wp_keeps {A} (m : M S A) Q E s :
  keeps P m → P s → wp m Q E s → wp m (λ a s', Q a s' ∧ P s') (λ e s', E e s' ∧ P s') s.
Proof. intros Hm Hs. specialize (Hm s Hs). unfold wp in *. destruct (m s) as [[] ?]; auto. Qed.

(** Runs the first part of a computation that keeps [P]. *)
Lemma wp_keeps_bind {A B} (m : M S A) (k : A → M S B) s :
  keeps P m → P s → (∀ a s', P s' → wp (k a) (λ _, P) (λ _, P) s') → wp (bind m k) (λ _, P) (λ _, P) s.
Proof. intros Hm Hs Hk. apply wp_bind. eapply wp_mono; [by apply Hm|exact Hk|done]. Qed.

End keeps_rules.

(** One step of a [keeps] goal. *)
Ltac keeps_step :=
  lazymatch goal with
  | |- keeps _ (ret _) => apply keeps_ret
  | |- keeps _ (throw _) => apply keeps_throw
  | |- keeps _ (gets _) => apply keeps_gets
  | |- keeps _ (bind _ _) => apply keeps_bind; [|intros ?]
  | |- keeps _ (catch _ _) => apply keeps_catch; [|intros ?]
  | |- keeps _ (when _ _) => apply keeps_when
  | |- keeps _ (if ?b then _ else _) => destruct b
  | |- keeps _ (match ?x with _ => _ end) => destruct x
  end.

(** ** Lemmas on bytes *)

Create HintDb kv discriminated.
Create Rewrite HintDb kv.

Lemma byte_val_range b : 0 ≤ byte_val b < 256.
Proof.
  unfold byte_val. pose proof (Byte.to_N_bounded b). lia.
Qed.

Lemma byte_of_Z_val b : byte_of_Z (byte_val b) = b.
Proof.
  unfold byte_of_Z. rewrite Z.mod_small by apply byte_val_range.
  unfold byte_val. rewrite N2Z.id, Byte.of_to_N. done.
Qed.

Lemma byte_val_of_Z z : byte_val (byte_of_Z z) = z mod 256.
Proof.
  unfold byte_of_Z, byte_val.
  pose proof (Z.mod_pos_bound z 256 ltac:(lia)) as Hz.
  destruct (Byte.of_N (Z.to_N (z mod 256))) as [b|] eqn:E.
  - apply Byte.to_of_N in E. rewrite E. lia.
  - apply Byte.of_N_None_iff in E. lia.
Qed.

Lemma byte_val_inj b1 b2 : byte_val b1 = byte_val b2 → b1 = b2.
Proof. intros H. rewrite <-(byte_of_Z_val b1), <-(byte_of_Z_val b2). by rewrite H. Qed.

(** ** Lemmas on slices *)

Section slices.
  Context {A : Type}.
  Implicit Types (l : list A).

Lemma length_slice off n l :
  0 ≤ off → 0 ≤ n → off + n ≤ Z.of_nat (length l) →
  length (slice off n l) = Z.to_nat n.
Proof. intros. unfold slice. rewrite length_take, length_drop. lia. Qed.

Lemma slice_app_mid l1 l2 l3 off n :
  off = Z.of_nat (length l1) → n = Z.of_nat (length l2) →
  slice off n (l1 ++ l2 ++ l3) = l2.
Proof.
  intros -> ->. unfold slice. rewrite !Nat2Z.id, drop_app_length, take_app_length. done.
Qed.

Lemma slice_split off n l :
  0 ≤ off → 0 ≤ n →
  l = take (Z.to_nat off) l ++ slice off n l ++ drop (Z.to_nat (off + n)) l.
Proof.
  intros. unfold slice. rewrite Z2Nat.inj_add, <-drop_drop by lia.
  by rewrite !take_drop.
Qed.

End slices.

Lemma size_of_app (l1 l2 : bytes) : size_of (l1 ++ l2) = size_of l1 + size_of l2.
Proof. unfold size_of. rewrite length_app. lia. Qed.

Lemma size_of_nil : size_of [] = 0.
Proof. done. Qed.

Lemma size_of_nonneg (l : bytes) : 0 ≤ size_of l.
Proof. unfold size_of. lia. Qed.

#[export] Hint Resolve size_of_nonneg : kv.
#[export] Hint Rewrite size_of_app size_of_nil : kv.

Ltac size_simpl := autorewrite with kv in *; unfold size_of in *.

(** Splits on every boolean comparison of integers in the goal. *)
Ltac zbool :=
  repeat match goal with
         | |- context [?a =? ?b] => destruct (Z.eqb_spec a b)
         | |- context [?a <? ?b] => destruct (Z.ltb_spec a b)
         | |- context [?a <=? ?b] => destruct (Z.leb_spec a b)
         end; cbn [negb andb orb]; try (done || lia).

(** ** Maps whose entries are removed or made smaller *)

Section shrinking.
  Context {A : Type} (R : A → A → Prop).
  Implicit Types (m : gmap nat A).

Definition map_shrinks m' m : Prop :=
  ∃ k x, m !! k = Some x ∧ (m' = delete k m ∨ ∃ x', R x' x ∧ m' = <[k := x']> m).

Lemma map_shrinks_insert k m :
  well_founded R → m !! k = None → Acc map_shrinks m → ∀ x, Acc map_shrinks (<[k := x]> m).
Proof.
  intros Hwf Hn Hacc. revert Hn. induction Hacc as [m Hacc IH]. intros Hn x.
  induction (Hwf x) as [x _ IHx]. constructor. intros m' (k' & y & Hy & Hm').
  apply lookup_insert_Some in Hy as [[<- <-]|[Hne Hy]].
  - destruct Hm' as [->|(x' & Hx' & ->)].
    + rewrite delete_insert_id by done. by constructor.
    + rewrite insert_insert_eq. by apply IHx.
  - destruct Hm' as [->|(y' & Hy' & ->)].
    + rewrite delete_insert_ne by done. apply IH; [|by rewrite lookup_delete_ne]. exists k', y. auto.
    + rewrite insert_insert_ne by done. apply IH; [|by rewrite lookup_insert_ne]. exists k', y. eauto.
Qed.

Lemma map_shrinks_wf : well_founded R → well_founded map_shrinks.
Proof.
  intros Hwf m. induction m as [|k x m Hn IH] using map_ind.
  - constructor. intros m' (k & x & Hx & _). by rewrite lookup_empty in Hx.
  - by apply map_shrinks_insert.
Qed.

End shrinking.
