(* ===== verification/Machine.v ===== *)
(** * The machine the program runs on

    What the program uses of the C++ standard library and of POSIX: files,
    output streams with a buffer, input streams, synchronization and renaming.
    Every action that can fail takes its outcome from the script of the world,
    so a theorem that quantifies over worlds covers every pattern of failures.
    Most readers are functions of what they see of the file; [fs_read] is what a
    reader may see when the system refuses to open the file or stops reading. *)

From S2P Require Import Prelude.

(** [contents]: what a reader of the file sees (the kernel's page cache);
    [synced]: the contents at the last completed synchronization. *)
Record file := File { contents : bytes; synced : bytes }.

(** The outcome of one input/output action. A failing write lands a prefix of
    [landed] bytes in the file. *)
Inductive io_outcome :=
| IoOk
| IoFail (landed : nat) (errno : Z).

(** When the script is used up, every later action succeeds. *)
Record world := World { files : gmap bytes file; script : list io_outcome }.

Definition with_files (f : gmap bytes file → gmap bytes file) (w : world) : world :=
  {| files := f (files w); script := script w |}.
Definition with_script (s : list io_outcome) (w : world) : world :=
  {| files := files w; script := s |}.

Definition empty_file : file := {| contents := []; synced := [] |}.

(** The contents of [path], when there is such a file. *)
Definition file_contents (path : bytes) (w : world) : option bytes :=
  contents <$> files w !! path.

Definition update_contents (f : bytes → bytes) (x : file) : file :=
  {| contents := f (contents x); synced := synced x |}.
Definition mark_synced (x : file) : file :=
  {| contents := contents x; synced := contents x |}.

(** The next outcome. *)
Definition draw : M world io_outcome :=
  λ w, match script w with
       | [] => (Ok IoOk, w)
       | o :: rest => (Ok o, with_script rest w)
       end.

(** An action that succeeds and has its effect, or fails and has none. *)
Definition attempt (effect : world → world) : M world bool :=
  let! o := draw in
  match o with
  | IoOk => modify effect ;;; ret true
  | IoFail _ _ => ret false
  end.

(** A fault hook given by the user is called at a fault point and may throw. *)
Definition call_hook (present : bool) : M world unit :=
  when present
    (let! o := draw in
     match o with
     | IoOk => ret tt
     | IoFail _ _ => throw hook_exception
     end).

(** ** Output streams ([std::ofstream]) *)

Record ofstream := Ofstream {
  ofs_path : bytes;
  ofs_is_open : bool;
  ofs_good : bool;
  ofs_buffer : bytes
}.

Definition ofs_closed (path : bytes) : ofstream :=
  {| ofs_path := path; ofs_is_open := false; ofs_good := false; ofs_buffer := [] |}.
Definition ofs_opened (path : bytes) : ofstream :=
  {| ofs_path := path; ofs_is_open := true; ofs_good := true; ofs_buffer := [] |}.

Definition create_if_missing (path : bytes) (w : world) : world :=
  with_files (λ fs, <[path := default empty_file (fs !! path)]> fs) w.
Definition create_truncated (path : bytes) (w : world) : world :=
  with_files
    (λ fs, <[path := update_contents (λ _, []) (default empty_file (fs !! path))]> fs) w.

(** Opening with [std::ios::app], and with [std::ios::trunc]. *)
Definition ofs_open_app (path : bytes) : M world ofstream :=
  let! ok := attempt (create_if_missing path) in
  ret (if ok then ofs_opened path else ofs_closed path).
Definition ofs_open_trunc (path : bytes) : M world ofstream :=
  let! ok := attempt (create_truncated path) in
  ret (if ok then ofs_opened path else ofs_closed path).

Definition ofs_set_good (g : bool) (o : ofstream) : ofstream :=
  {| ofs_path := ofs_path o; ofs_is_open := ofs_is_open o; ofs_good := g;
     ofs_buffer := ofs_buffer o |}.

(** [write]: into the buffer; a closed or failed stream stays failed. *)
Definition ofs_write (data : bytes) (o : ofstream) : ofstream :=
  if ofs_is_open o && ofs_good o
  then {| ofs_path := ofs_path o; ofs_is_open := true; ofs_good := true;
          ofs_buffer := ofs_buffer o ++ data |}
  else ofs_set_good false o.

Definition append_to_file (path data : bytes) (w : world) : world :=
  with_files (alter (update_contents (λ c, c ++ data)) path) w.

(** [flush]: the buffer reaches the file. When the system fails, a prefix of it
    did, the rest is lost and the stream has failed. *)
Definition ofs_flush (o : ofstream) : M world ofstream :=
  if ofs_is_open o && ofs_good o && negb (bool_decide (ofs_buffer o = []))
  then
    let! out := draw in
    match out with
    | IoOk =>
        modify (append_to_file (ofs_path o) (ofs_buffer o)) ;;;
        ret (ofs_opened (ofs_path o))
    | IoFail n _ =>
        modify (append_to_file (ofs_path o) (take n (ofs_buffer o))) ;;;
        ret (ofs_set_good false (ofs_opened (ofs_path o)))
    end
  else ret o.

(** [close] flushes what is left; [clear] resets the error state. *)
Definition ofs_close (o : ofstream) : M world ofstream :=
  let! o := ofs_flush o in
  ret {| ofs_path := ofs_path o; ofs_is_open := false; ofs_good := ofs_good o;
         ofs_buffer := [] |}.
Definition ofs_clear : ofstream → ofstream := ofs_set_good true.

(** [seekp(0, end)], whether the stream is still good after it, and [tellp()]
    then: the size of the file, if it is a stream offset. *)
Definition ofs_seek_end (o : ofstream) : M world bool :=
  let! ok := attempt id in ret (ok && ofs_is_open o && ofs_good o).
Definition ofs_tellp (o : ofstream) : M world (option Z) :=
  gets (λ w,
    match file_contents (ofs_path o) w with
    | Some c => if size_of c <=? streamoff_max then Some (size_of c) else None
    | None => None
    end).

(** ** Input streams ([std::ifstream])

    The bytes not read yet. [input.read] returns the bytes it obtained; fewer
    than asked for means that the end of the file was met and the stream failed. *)

Definition istream : Type := bytes.

Definition input_read (n : Z) (input : istream) : bytes * istream :=
  if size_of input <? n then (input, [])
  else (take (Z.to_nat n) input, drop (Z.to_nat n) input).

(** [input.seekg(offset, beg)] on a file with these contents; a position past
    the end is allowed and leaves nothing to read. *)
Definition input_seekg (offset : Z) (whole : bytes) : istream :=
  if size_of whole <? offset then [] else drop (Z.to_nat offset) whole.

(** What a reader gets to see: all of the file; nothing, when the file is not
    opened; or its first bytes, when an error ends the reading. *)
Inductive view := Whole | Unopened | Short (n : nat).

Definition seen (v : view) (file : option bytes) : option bytes :=
  match v with
  | Whole => file
  | Unopened => None
  | Short n => take n <$> file
  end.

Definition view_of (o : io_outcome) : view :=
  match o with
  | IoOk => Whole
  | IoFail O _ => Unopened
  | IoFail (S n) _ => Short n
  end.

(** [std::ifstream input(path)] and the reading of it. *)
Definition fs_read (path : bytes) : M world (option bytes) :=
  let! o := draw in gets (λ w, seen (view_of o) (file_contents path w)).

(** ** File system calls *)

Definition fs_file_size (path : bytes) : M world (option Z) :=
  let! ok := attempt id in
  gets (λ w, if ok then size_of <$> file_contents path w else None).

(** [exists(path, error) ? file_size(path, error) : 0]. *)
Definition fs_exists_size (path : bytes) : M world (option Z) :=
  let! ok := attempt id in
  gets (λ w, if ok then Some (default 0 (size_of <$> file_contents path w)) else None).

(** Cutting a file off at [offset]; a file that does not exist is an error. *)
Definition fs_resize_file (path : bytes) (offset : Z) : M world bool :=
  let! found := gets (λ w, bool_decide (is_Some (file_contents path w))) in
  if negb found then ret false
  else attempt (with_files (alter (update_contents (take (Z.to_nat offset))) path)).

Definition EINTR : Z := 4.

(** [do { result = fdatasync(fd); } while (result < 0 && errno == EINTR)]: the
    error of the last call, if it failed, and the outcomes left. *)
Fixpoint fdatasync_retry (outs : list io_outcome) : option Z * list io_outcome :=
  match outs with
  | [] => (None, [])
  | IoOk :: rest => (None, rest)
  | IoFail _ e :: rest => if e =? EINTR then fdatasync_retry rest else (Some e, rest)
  end.

(** The loop above on the descriptor of [path]; [Some errno] on failure. *)
Definition fs_fdatasync_loop (path : bytes) : M world (option Z) :=
  λ w, let (err, rest) := fdatasync_retry (script w) in
       let w := with_script rest w in
       match err with
       | None => (Ok None, with_files (alter mark_synced path) w)
       | Some e => (Ok (Some e), w)
       end.

(** One call that may fail with an [errno]: the effect, or the error. *)
Definition fs_call (effect : world → world) : M world (option Z) :=
  let! o := draw in
  match o with
  | IoOk => modify effect ;;; ret None
  | IoFail _ e => ret (Some e)
  end.

(** One [fdatasync], without a retry. *)
Definition fs_fdatasync (path : bytes) : M world (option Z) :=
  fs_call (with_files (alter mark_synced path)).

Definition ENOENT : Z := 2.
Definition EIO : Z := 5.

(** [std::remove]; [ENOENT] is reported for a missing file only. *)
Definition fs_remove (path : bytes) : M world (option Z) :=
  let! o := draw in
  match o with
  | IoOk =>
      let! present := gets (λ w, files w !! path) in
      match present with
      | Some _ => modify (with_files (delete path)) ;;; ret None
      | None => ret (Some ENOENT)
      end
  | IoFail _ e => ret (Some (if e =? ENOENT then EIO else e))
  end.

Definition fs_rename (from to : bytes) : M world (option Z) :=
  fs_call (with_files (λ fs, match fs !! from with
                             | Some x => <[to := x]> (delete from fs)
                             | None => fs
                             end)).

(** [sync_parent_directory]. *)
Definition sync_parent_directory (what_open what_sync : bytes) : M world unit :=
  let! opened := fs_call id in
  match opened with
  | Some errno => throw (system_error errno what_open)
  | None =>
      let! synced := fs_call id in
      match synced with
      | Some errno => throw (system_error errno what_sync)
      | None => ret tt
      end
  end.

(** ** Lemmas *)

Lemma input_read_full n input :
  0 ≤ n → n ≤ size_of input →
  input_read n input = (take (Z.to_nat n) input, drop (Z.to_nat n) input).
Proof. intros. unfold input_read. by destruct (Z.ltb_spec (size_of input) n); [lia|]. Qed.

Lemma input_read_app n a b :
  size_of a = n → input_read n (a ++ b) = (a, b).
Proof.
  intros <-. rewrite input_read_full; size_simpl; rewrite ?Nat2Z.id; [|lia|lia].
  by rewrite take_app_length, drop_app_length.
Qed.

Lemma input_read_short n input :
  size_of input < n → input_read n input = (input, []).
Proof. intros. unfold input_read. by destruct (Z.ltb_spec (size_of input) n); [|lia]. Qed.

Lemma input_read_inv n input got rest :
  0 ≤ n → input_read n input = (got, rest) →
  input = got ++ rest ∧ (size_of got = n ∨ size_of got < n ∧ rest = []).
Proof.
  intros Hn. unfold input_read. destruct (Z.ltb_spec (size_of input) n) as [H|H].
  - intros [= <- <-]. rewrite app_nil_r. auto.
  - intros [= <- <-]. rewrite take_drop. split; [done|left].
    size_simpl. rewrite length_take. lia.
Qed.

Lemma input_seekg_drop offset whole :
  input_seekg offset whole = drop (Z.to_nat offset) whole.
Proof.
  unfold input_seekg. destruct (Z.ltb_spec (size_of whole) offset); [|done].
  rewrite drop_ge; [done|]. size_simpl. lia.
Qed.

Lemma input_seekg_app a b : input_seekg (size_of a) (a ++ b) = b.
Proof. rewrite input_seekg_drop. unfold size_of. by rewrite Nat2Z.id, drop_app_length. Qed.

(** ** The effect of stream and file operations on one file *)

Lemma wp_draw (Q : io_outcome → world → Prop) E w :
  (∀ o rest, Q o (with_script rest w)) → wp draw Q E w.
Proof.
  intros H. unfold wp, draw. destruct w as [fs [|o rest]]; cbn; [|apply H].
  by apply (H IoOk []).
Qed.

(** Without failures. *)
Lemma wp_draw_ok w (Q : io_outcome → world → Prop) E : script w = [] → Q IoOk w → wp draw Q E w.
Proof. intros Hs HQ. unfold wp, draw. by rewrite Hs. Qed.

Lemma wp_hook_ok b w (Q : unit → world → Prop) E : script w = [] → Q tt w → wp (call_hook b) Q E w.
Proof.
  intros Hs HQ. unfold call_hook. wp_step; [|done]. wp_step. apply wp_draw_ok; [done|]. by wp_step.
Qed.

Lemma wp_attempt_ok f w (Q : bool → world → Prop) E : script w = [] → Q true (f w) → wp (attempt f) Q E w.
Proof. intros Hs HQ. unfold attempt. wp_step. apply wp_draw_ok; [done|]. by wp_steps. Qed.

Lemma wp_fs_read path w (Q : option bytes → world → Prop) E :
  (∀ v rest, Q (seen v (file_contents path w)) (with_script rest w)) → wp (fs_read path) Q E w.
Proof.
  intros HQ. unfold fs_read. wp_step. apply wp_draw. intros o rest. apply wp_gets, (HQ (view_of o)).
Qed.

Lemma wp_fs_read_ok path w (Q : option bytes → world → Prop) E :
  script w = [] → Q (file_contents path w) w → wp (fs_read path) Q E w.
Proof. intros Hs HQ. unfold fs_read. wp_step. apply wp_draw_ok; [done|]. by apply wp_gets. Qed.

Lemma wp_fs_call_ok f w (Q : option Z → world → Prop) E :
  script w = [] → Q None (f w) → wp (fs_call f) Q E w.
Proof. intros Hs HQ. unfold fs_call. wp_step. apply wp_draw_ok; [done|]. by wp_steps. Qed.

Lemma file_contents_script path rest w : file_contents path (with_script rest w) = file_contents path w.
Proof. done. Qed.

Lemma file_contents_append path data w c :
  file_contents path w = Some c → file_contents path (append_to_file path data w) = Some (c ++ data).
Proof.
  unfold file_contents, append_to_file, with_files. cbn [files].
  rewrite lookup_alter_eq. destruct (files w !! path); cbn; by intros [= <-].
Qed.

Lemma file_contents_create path w :
  file_contents path (create_if_missing path w) = Some (default [] (file_contents path w)).
Proof.
  unfold file_contents, create_if_missing, with_files. cbn [files].
  rewrite lookup_insert_eq. by destruct (files w !! path).
Qed.

Lemma file_contents_truncate path w : file_contents path (create_truncated path w) = Some [].
Proof.
  unfold file_contents, create_truncated, with_files. cbn [files]. by rewrite lookup_insert_eq.
Qed.

(** A write that is flushed: all of it reaches the file, or a prefix does and the
    stream has failed. *)
Lemma wp_write_flush path data c w (Q : ofstream → world → Prop) E :
  file_contents path w = Some c → data ≠ [] →
  (∀ w', file_contents path w' = Some (c ++ data) → Q (ofs_opened path) w') →
  (∀ w' n, file_contents path w' = Some (c ++ take n data) →
     Q (ofs_set_good false (ofs_opened path)) w') →
  wp (ofs_flush (ofs_write data (ofs_opened path))) Q E w.
Proof.
  intros Hc Hd HQ HF. unfold ofs_flush, ofs_write. cbn [ofs_is_open ofs_good ofs_opened andb ofs_buffer app].
  rewrite bool_decide_false by done. cbn [negb].
  wp_step. apply wp_draw. intros [|n e] rest; wp_steps; cbn [ofs_path ofs_buffer].
  - apply HQ. apply file_contents_append. by rewrite file_contents_script.
  - apply (HF _ n). apply file_contents_append. by rewrite file_contents_script.
Qed.

Lemma wp_call_hook b (Q : unit → world → Prop) (E : exn → world → Prop) w :
  (∀ rest, Q tt (with_script rest w)) → (∀ rest, E hook_exception (with_script rest w)) →
  wp (call_hook b) Q E w.
Proof.
  intros HQ HE. unfold call_hook. wp_step.
  - wp_step. apply wp_draw. intros [|n e] rest; wp_step; [apply HQ|apply HE].
  - specialize (HQ (script w)). by destruct w.
Qed.

(** [path] is synchronized up to its end. *)
Definition file_durable (path : bytes) (w : world) : Prop :=
  ∃ x, files w !! path = Some x ∧ synced x = contents x.

Lemma wp_fdatasync path c w (Q : option Z → world → Prop) E :
  file_contents path w = Some c →
  (∀ w', file_contents path w' = Some c → file_durable path w' → Q None w') →
  (∀ w' e, file_contents path w' = Some c → Q (Some e) w') →
  wp (fs_fdatasync_loop path) Q E w.
Proof.
  intros Hc HQ HF. unfold wp, fs_fdatasync_loop.
  destruct (fdatasync_retry (script w)) as [[e|] rest].
  - apply HF. by rewrite file_contents_script.
  - unfold file_contents in Hc. destruct (files w !! path) as [x|] eqn:Ex; [|done].
    apply HQ.
    + unfold file_contents. cbn. rewrite lookup_alter_eq, Ex. done.
    + exists (mark_synced x). cbn. by rewrite lookup_alter_eq, Ex.
Qed.

(** Every file but those at [ps] is as before. *)
Definition untouched (ps : list bytes) (w w' : world) : Prop :=
  ∀ p, p ∉ ps → files w' !! p = files w !! p.

#[export] Instance untouched_preorder ps : PreOrder (untouched ps).
Proof. split; [done|]. intros w1 w2 w3 H1 H2 p Hp. by rewrite H2, H1. Qed.
