(* ===== verification/BinaryIO.v ===== *)
(** * Binary serialization: [include/persistence/binary_io.h] and the byte
    helpers at the top of [src/persistence/wal.cpp]

    Explicit little-endian integers (WAL v3), integers in the byte order of the
    host (WAL v2, snapshots), and bounded parsing from a buffer at an offset. *)

From S2P Require Import Prelude Machine.

(** The byte order of the host, which decides how [memcpy] of an integer reads. *)
Inductive endianness := LittleEndian | BigEndian.

(** The [n] bytes of [value], least significant first: the loop that pushes
    [static_cast<char>(value >> shift)]. *)
Definition le_bytes (n : nat) (value : Z) : bytes :=
  (λ i : nat, byte_of_Z (Z.shiftr value (8 * Z.of_nat i))) <$> seq 0 n.

(** The loop [value |= static_cast<T>(byte) << (8 * i)], from byte [i] on. *)
Fixpoint le_accumulate (i value : Z) (l : bytes) : Z :=
  match l with
  | [] => value
  | b :: l => le_accumulate (i + 1) (Z.lor value (Z.shiftl (byte_val b) (8 * i))) l
  end.
Definition le_value (l : bytes) : Z := le_accumulate 0 0 l.

(** The object representation of an integer on the host. *)
Definition host_bytes (host : endianness) (n : nat) (value : Z) : bytes :=
  match host with
  | LittleEndian => le_bytes n value
  | BigEndian => rev (le_bytes n value)
  end.
Definition host_value (host : endianness) (l : bytes) : Z :=
  match host with
  | LittleEndian => le_value l
  | BigEndian => le_value (rev l)
  end.

Definition append_le32 (bs : bytes) (value : Z) : bytes := bs ++ le_bytes 4 value.
Definition append_le64 (bs : bytes) (value : Z) : bytes := bs ++ le_bytes 8 value.
Definition append_primitive (host : endianness) (n : nat) (bs : bytes) (value : Z) : bytes :=
  bs ++ host_bytes host n value.

(** [consume_le<T>], [sizeof(T) = n]: the value and the new offset. *)
Definition consume_le (n : nat) (bs : bytes) (offset : Z) : option (Z * Z) :=
  if (size_of bs <? offset) || (size_of bs - offset <? Z.of_nat n) then None
  else Some (le_value (slice offset (Z.of_nat n) bs), offset + Z.of_nat n).

Definition ConsumePrimitive (host : endianness) (n : nat) (buffer : bytes) (offset : Z)
    : option (Z * Z) :=
  if (size_of buffer <? offset) || (size_of buffer - offset <? Z.of_nat n) then None
  else Some (host_value host (slice offset (Z.of_nat n) buffer), offset + Z.of_nat n).

Definition ConsumeBytes (buffer : bytes) (offset size : Z) : option (bytes * Z) :=
  if (size_of buffer <? offset) || (size_of buffer - offset <? size) then None
  else Some (slice offset size buffer, offset + size).

(** [CheckedSize]: the length as a [uint32_t], or [runtime_error]. *)
Definition CheckedSize (s : bytes) (field_name : bytes) : res Z :=
  if u32_max <? size_of s then Exn (runtime_error (field_name ++ str " is too large"))
  else Ok (u32 (size_of s)).

(** Writing to a stream reports the failure of the stream. *)
Definition WriteBytes (out : ofstream) (data description : bytes) : res ofstream :=
  let out := ofs_write data out in
  if ofs_good out then Ok out
  else Exn (runtime_error (str "failed to write " ++ description)).
Definition WritePrimitive (host : endianness) (n : nat) (out : ofstream) (value : Z)
    (description : bytes) : res ofstream :=
  let out := ofs_write (host_bytes host n value) out in
  if ofs_good out then Ok out
  else Exn (runtime_error (str "failed to write " ++ description)).

(** [ReadPrimitive]: the value and the rest of the stream, or a short read. *)
Definition ReadPrimitive (host : endianness) (n : nat) (input : istream) : option (Z * istream) :=
  let (got, rest) := input_read (Z.of_nat n) input in
  if size_of got =? Z.of_nat n then Some (host_value host got, rest) else None.

#[global] Arguments le_bytes : simpl never.
#[global] Arguments le_value : simpl never.
#[global] Arguments host_bytes : simpl never.
#[global] Arguments host_value : simpl never.

(** ** Little-endian round trips *)

(** The mathematical value: the sum of the bytes weighted by powers of 256. *)
Fixpoint le_sum (l : bytes) : Z :=
  match l with
  | [] => 0
  | b :: l => byte_val b + 256 * le_sum l
  end.

Lemma le_sum_range l : 0 ≤ le_sum l < 256 ^ size_of l.
Proof.
  induction l as [|b l IH]; cbn [le_sum]; [done|].
  pose proof (byte_val_range b). unfold size_of in *. cbn [length].
  rewrite Nat2Z.inj_succ, Z.pow_succ_r by lia. lia.
Qed.

(** Bits above the width of a number are zero. *)
Lemma testbit_above a k i : 0 ≤ a < 2 ^ k → k ≤ i → Z.testbit a i = false.
Proof.
  intros Ha Hi. destruct (decide (a = 0)) as [->|]; [apply Z.bits_0|].
  destruct (decide (0 ≤ k)).
  - apply Z.bits_above_log2; [lia|]. apply Z.log2_lt_pow2; [lia|].
    apply Z.lt_le_trans with (2 ^ k); [lia|]. apply Z.pow_le_mono_r; lia.
  - rewrite Z.pow_neg_r in Ha by lia. lia.
Qed.

Lemma lor_shifted_add a b k : 0 ≤ k → 0 ≤ a < 2 ^ k → Z.lor a (Z.shiftl b k) = a + b * 2 ^ k.
Proof.
  intros Hk Ha. rewrite <-Z.shiftl_mul_pow2 by lia.
  assert (Z.land a (Z.shiftl b k) = 0) as Hland.
  { apply Z.bits_inj'. intros i Hi. rewrite Z.land_spec, Z.bits_0.
    destruct (decide (i < k)) as [Hlt|Hge].
    - by rewrite (Z.shiftl_spec_low b k i Hlt), andb_false_r.
    - by rewrite (testbit_above a k i) by lia. }
  rewrite Z.add_nocarry_lxor by done. by rewrite Z.lxor_lor.
Qed.

Lemma le_accumulate_sum l i value :
  0 ≤ i → 0 ≤ value < 2 ^ (8 * i) →
  le_accumulate i value l = value + 2 ^ (8 * i) * le_sum l.
Proof.
  revert i value. induction l as [|b l IH]; intros i value Hi Hv; cbn [le_accumulate le_sum].
  { lia. }
  pose proof (byte_val_range b).
  assert (2 ^ (8 * (i + 1)) = 256 * 2 ^ (8 * i)) as Hp.
  { rewrite Z.mul_add_distr_l, Z.pow_add_r by lia. lia. }
  rewrite lor_shifted_add by lia. rewrite IH by (rewrite ?Hp; nia).
  rewrite Hp. lia.
Qed.

Lemma le_value_sum l : le_value l = le_sum l.
Proof. unfold le_value. rewrite le_accumulate_sum; cbn; lia. Qed.

Lemma length_le_bytes n v : length (le_bytes n v) = n.
Proof. unfold le_bytes. by rewrite length_fmap, length_seq. Qed.

Lemma le_bytes_S n v : le_bytes (S n) v = byte_of_Z v :: le_bytes n (Z.shiftr v 8).
Proof.
  unfold le_bytes. cbn [seq fmap list_fmap]. f_equal.
  rewrite <-seq_shift, <-list_fmap_compose. apply list_fmap_ext. intros ? i _. cbn.
  rewrite Z.shiftr_shiftr by lia. do 2 f_equal. lia.
Qed.

Lemma le_sum_bytes n v : le_sum (le_bytes n v) = v mod 256 ^ Z.of_nat n.
Proof.
  revert v. induction n as [|n IH]; intros v.
  { cbn. by rewrite Z.mod_1_r. }
  rewrite le_bytes_S. cbn [le_sum]. rewrite IH, byte_val_of_Z, Z.shiftr_div_pow2 by lia.
  rewrite Nat2Z.inj_succ, Z.pow_succ_r by lia.
  rewrite Z.rem_mul_r by lia. done.
Qed.

Lemma le_bytes_sum l : le_bytes (length l) (le_sum l) = l.
Proof.
  induction l as [|b l IH]; [done|]. cbn [length]. rewrite le_bytes_S. cbn [le_sum].
  pose proof (byte_val_range b). f_equal.
  - apply byte_val_inj. rewrite byte_val_of_Z, Z.mul_comm, Z.mod_add, Z.mod_small; lia.
  - rewrite Z.shiftr_div_pow2 by lia. change (2 ^ 8) with 256.
    rewrite Z.mul_comm, Z.div_add, (Z.div_small (byte_val b)) by lia. apply IH.
Qed.

Lemma le_value_bytes n v : 0 ≤ v < 256 ^ Z.of_nat n → le_value (le_bytes n v) = v.
Proof. intros. rewrite le_value_sum, le_sum_bytes. by apply Z.mod_small. Qed.

Lemma le_bytes_value n l : length l = n → le_bytes n (le_value l) = l.
Proof. intros <-. rewrite le_value_sum. apply le_bytes_sum. Qed.

Lemma le_value_range l : 0 ≤ le_value l < 256 ^ size_of l.
Proof. rewrite le_value_sum. apply le_sum_range. Qed.

Lemma length_host_bytes host n v : length (host_bytes host n v) = n.
Proof. destruct host; unfold host_bytes; rewrite ?length_rev; apply length_le_bytes. Qed.

Lemma host_value_bytes host n v :
  0 ≤ v < 256 ^ Z.of_nat n → host_value host (host_bytes host n v) = v.
Proof. destruct host; unfold host_bytes, host_value; rewrite ?rev_involutive; apply le_value_bytes. Qed.

Lemma host_bytes_value host n l : length l = n → host_bytes host n (host_value host l) = l.
Proof.
  intros <-. destruct host; unfold host_bytes, host_value; [by apply le_bytes_value|].
  rewrite le_bytes_value by apply length_rev. apply rev_involutive.
Qed.

Lemma host_value_range host l : 0 ≤ host_value host l < 256 ^ size_of l.
Proof.
  destruct host; unfold host_value; [apply le_value_range|].
  replace (size_of l) with (size_of (rev l)); [apply le_value_range|].
  unfold size_of. by rewrite length_rev.
Qed.

Lemma size_of_le_bytes n v : size_of (le_bytes n v) = Z.of_nat n.
Proof. unfold size_of. by rewrite length_le_bytes. Qed.

Lemma size_of_host_bytes host n v : size_of (host_bytes host n v) = Z.of_nat n.
Proof. unfold size_of. by rewrite length_host_bytes. Qed.

#[export] Hint Rewrite size_of_le_bytes size_of_host_bytes : kv.

(** ** Bounded parsing

    One general reader of [n] bytes at an offset; the three consumers of the
    source are instances. *)

Definition fits (bs : bytes) (offset n : Z) : bool :=
  negb ((size_of bs <? offset) || (size_of bs - offset <? n)).

Lemma fits_spec bs offset n : fits bs offset n = true ↔ offset ≤ size_of bs ∧ offset + n ≤ size_of bs.
Proof. unfold fits. rewrite negb_true_iff, orb_false_iff, !Z.ltb_ge. lia. Qed.

Lemma consume_le_fits n bs offset :
  consume_le n bs offset =
  if fits bs offset (Z.of_nat n)
  then Some (le_value (slice offset (Z.of_nat n) bs), offset + Z.of_nat n) else None.
Proof. unfold consume_le, fits. by destruct (_ || _). Qed.

Lemma ConsumePrimitive_fits host n bs offset :
  ConsumePrimitive host n bs offset =
  if fits bs offset (Z.of_nat n)
  then Some (host_value host (slice offset (Z.of_nat n) bs), offset + Z.of_nat n) else None.
Proof. unfold ConsumePrimitive, fits. by destruct (_ || _). Qed.

Lemma ConsumeBytes_fits bs offset n :
  ConsumeBytes bs offset n =
  if fits bs offset n then Some (slice offset n bs, offset + n) else None.
Proof. unfold ConsumeBytes, fits. by destruct (_ || _). Qed.

(** A field that stands at the offset is consumed, and the offset moves past it. *)
Lemma consume_le_field n v pre post :
  0 ≤ v < 256 ^ Z.of_nat n →
  consume_le n (pre ++ le_bytes n v ++ post) (size_of pre) = Some (v, size_of pre + Z.of_nat n).
Proof.
  intros Hv. rewrite consume_le_fits.
  rewrite (proj2 (fits_spec _ _ _)) by (size_simpl; lia).
  rewrite slice_app_mid by (unfold size_of; rewrite ?length_le_bytes; done).
  by rewrite le_value_bytes.
Qed.

Lemma ConsumePrimitive_field host n v pre post :
  0 ≤ v < 256 ^ Z.of_nat n →
  ConsumePrimitive host n (pre ++ host_bytes host n v ++ post) (size_of pre)
  = Some (v, size_of pre + Z.of_nat n).
Proof.
  intros Hv. rewrite ConsumePrimitive_fits.
  rewrite (proj2 (fits_spec _ _ _)) by (size_simpl; lia).
  rewrite slice_app_mid by (unfold size_of; rewrite ?length_host_bytes; done).
  by rewrite host_value_bytes.
Qed.

Lemma ConsumeBytes_field s pre post :
  ConsumeBytes (pre ++ s ++ post) (size_of pre) (size_of s) = Some (s, size_of pre + size_of s).
Proof.
  rewrite ConsumeBytes_fits.
  rewrite (proj2 (fits_spec _ _ _)) by (size_simpl; lia).
  by rewrite slice_app_mid.
Qed.

(** What a consumer returns did stand at the offset. *)
Lemma consume_field_inv offset n bs :
  0 ≤ offset → 0 ≤ n → fits bs offset n = true →
  drop (Z.to_nat offset) bs = slice offset n bs ++ drop (Z.to_nat (offset + n)) bs
  ∧ size_of (slice offset n bs) = n.
Proof.
  intros Ho Hn H. apply fits_spec in H. split.
  - unfold slice. rewrite Z2Nat.inj_add, <-drop_drop by lia. by rewrite take_drop.
  - unfold size_of in *. rewrite length_slice; lia.
Qed.

Lemma consume_le_inv n bs offset v offset' :
  0 ≤ offset → consume_le n bs offset = Some (v, offset') →
  offset' = offset + Z.of_nat n ∧ 0 ≤ v < 256 ^ Z.of_nat n ∧ offset' ≤ size_of bs ∧
  drop (Z.to_nat offset) bs = le_bytes n v ++ drop (Z.to_nat offset') bs.
Proof.
  intros Ho. rewrite consume_le_fits. destruct (fits _ _ _) eqn:Hf; [|done].
  intros [= <- <-]. destruct (consume_field_inv offset (Z.of_nat n) bs) as [Hd Hs]; [lia..|done|].
  apply fits_spec in Hf. rewrite Hd.
  rewrite le_bytes_value by (unfold size_of in Hs; lia).
  pose proof (le_value_range (slice offset (Z.of_nat n) bs)) as Hr. rewrite Hs in Hr.
  split_and!; (done || lia).
Qed.

Lemma ConsumePrimitive_inv host n bs offset v offset' :
  0 ≤ offset → ConsumePrimitive host n bs offset = Some (v, offset') →
  offset' = offset + Z.of_nat n ∧ 0 ≤ v < 256 ^ Z.of_nat n ∧ offset' ≤ size_of bs ∧
  drop (Z.to_nat offset) bs = host_bytes host n v ++ drop (Z.to_nat offset') bs.
Proof.
  intros Ho. rewrite ConsumePrimitive_fits. destruct (fits _ _ _) eqn:Hf; [|done].
  intros [= <- <-]. destruct (consume_field_inv offset (Z.of_nat n) bs) as [Hd Hs]; [lia..|done|].
  apply fits_spec in Hf. rewrite Hd.
  rewrite host_bytes_value by (unfold size_of in Hs; lia).
  pose proof (host_value_range host (slice offset (Z.of_nat n) bs)) as Hr. rewrite Hs in Hr.
  split_and!; (done || lia).
Qed.

Lemma ConsumeBytes_inv bs offset n s offset' :
  0 ≤ offset → 0 ≤ n → ConsumeBytes bs offset n = Some (s, offset') →
  offset' = offset + n ∧ size_of s = n ∧ offset' ≤ size_of bs ∧
  drop (Z.to_nat offset) bs = s ++ drop (Z.to_nat offset') bs.
Proof.
  intros Ho Hn. rewrite ConsumeBytes_fits. destruct (fits _ _ _) eqn:Hf; [|done].
  intros [= <- <-]. destruct (consume_field_inv offset n bs) as [Hd Hs]; [lia..|done|].
  apply fits_spec in Hf. split_and!; (done || lia).
Qed.

Lemma CheckedSize_ok s name v : CheckedSize s name = Ok v → v = size_of s ∧ size_of s < 2 ^ 32.
Proof.
  unfold CheckedSize, u32_max, u32. destruct (Z.ltb_spec (2 ^ 32 - 1) (size_of s)); [done|].
  intros [= <-]. split; [|lia]. apply Z.mod_small. pose proof (size_of_nonneg s). lia.
Qed.

Lemma CheckedSize_small s name : size_of s < 2 ^ 32 → CheckedSize s name = Ok (size_of s).
Proof.
  intros H. unfold CheckedSize, u32_max, u32.
  destruct (Z.ltb_spec (2 ^ 32 - 1) (size_of s)); [lia|].
  f_equal. apply Z.mod_small. pose proof (size_of_nonneg s). lia.
Qed.

Lemma ReadPrimitive_field host n v rest :
  0 ≤ v < 256 ^ Z.of_nat n →
  ReadPrimitive host n (host_bytes host n v ++ rest) = Some (v, rest).
Proof.
  intros Hv. unfold ReadPrimitive. rewrite input_read_app by apply size_of_host_bytes.
  rewrite size_of_host_bytes, Z.eqb_refl. by rewrite host_value_bytes.
Qed.
