(* ===== verification/Crc.v ===== *)
(** * CRC32: the table-driven checksum of [src/persistence/wal.cpp]

    The table, the byte-at-a-time loop, a bit-serial reference definition, their
    equivalence, and the class of errors the checksum is certain to detect. *)

From S2P Require Import Prelude BinaryIO.

(** ** The code *)

Definition kCrcPolynomial : Z := 0xEDB88320.

(** One turn of the inner loop of [make_crc32_table]. *)
Definition crc32_table_bit (entry : Z) : Z :=
  let mask := u32 (0 - Z.land entry 1) in
  Z.lxor (Z.shiftr entry 1) (Z.land kCrcPolynomial mask).

(** The table: entry [i] is [i] after eight turns. *)
Definition make_crc32_table : list Z :=
  (λ i : nat, Nat.iter 8 crc32_table_bit (Z.of_nat i)) <$> seq 0 256.

Definition kCrc32Table : list Z := Eval vm_compute in make_crc32_table.

(** One turn of the loop of [crc32]. *)
Definition crc32_step (crc : Z) (b : byte) : Z :=
  Z.lxor (Z.shiftr crc 8)
    (kCrc32Table !!! Z.to_nat (Z.land (Z.lxor crc (byte_val b)) 0xFF)).

Definition crc32 (bs : bytes) : Z :=
  u32 (Z.lnot (foldl crc32_step 0xFFFFFFFF bs)).

(** ** The reference definition

    Shift one bit at a time; when the bit shifted out is one, subtract the
    polynomial: reflected, initial state all ones, final complement. *)

Definition crc_shift (x : Z) : Z :=
  Z.lxor (Z.shiftr x 1) (if Z.odd x then kCrcPolynomial else 0).

Definition crc_shifts (n : nat) (x : Z) : Z := Nat.iter n crc_shift x.

Definition crc32_reference_state (state : Z) (bs : bytes) : Z :=
  foldl (λ s b, crc_shifts 8 (Z.lxor s (byte_val b))) state bs.

Definition crc32_reference (bs : bytes) : Z :=
  0xFFFFFFFF - crc32_reference_state 0xFFFFFFFF bs.

(** ** The shift is linear and injective *)

Lemma crc32_table_bit_shift x : 0 ≤ x → crc32_table_bit x = crc_shift x.
Proof.
  intros Hx. unfold crc32_table_bit, crc_shift. f_equal.
  change 1 with (Z.ones 1) at 1. rewrite Z.land_ones by lia. change (2 ^ 1) with 2.
  rewrite Zmod_odd. by destruct (Z.odd x).
Qed.

Lemma crc_shift_lxor x y : crc_shift (Z.lxor x y) = Z.lxor (crc_shift x) (crc_shift y).
Proof.
  unfold crc_shift. rewrite Z.shiftr_lxor.
  assert (Z.odd (Z.lxor x y) = xorb (Z.odd x) (Z.odd y)) as ->.
  { rewrite <-!Z.bit0_odd. apply Z.lxor_spec. }
  destruct (Z.odd x), (Z.odd y); cbn [xorb];
    rewrite ?Z.lxor_0_r, ?Z.lxor_assoc; try done.
  - rewrite (Z.lxor_comm kCrcPolynomial), Z.lxor_assoc, Z.lxor_nilpotent, Z.lxor_0_r. done.
  - by rewrite (Z.lxor_comm kCrcPolynomial).
Qed.

#[local] Arguments crc_shifts : simpl never.

Lemma crc_shifts_S n x : crc_shifts (S n) x = crc_shift (crc_shifts n x).
Proof. done. Qed.

Lemma crc_shifts_lxor n x y :
  crc_shifts n (Z.lxor x y) = Z.lxor (crc_shifts n x) (crc_shifts n y).
Proof.
  induction n as [|n IH]; [done|]. rewrite !crc_shifts_S, IH. apply crc_shift_lxor.
Qed.

Lemma crc_shifts_add m n x : crc_shifts (m + n) x = crc_shifts m (crc_shifts n x).
Proof. apply Nat.iter_add. Qed.

(** Zero bits below are shifted out unchanged. *)
Lemma crc_shifts_shiftl n x : crc_shifts n (Z.shiftl x (Z.of_nat n)) = x.
Proof.
  induction n as [|n IH]; [by rewrite Z.shiftl_0_r|].
  replace (S n) with (n + 1)%nat by lia. rewrite crc_shifts_add.
  replace (Z.of_nat (n + 1)) with (Z.of_nat n + 1) by lia.
  rewrite <-Z.shiftl_shiftl by lia. rewrite <-IH at 2. f_equal.
  rewrite crc_shifts_S. unfold crc_shifts, Nat.iter, nat_rect, crc_shift. rewrite Z.shiftr_shiftl_l by lia. cbn [Z.sub].
  rewrite <-Z.bit0_odd, Z.shiftl_spec_low by lia. by rewrite Z.lxor_0_r, Z.shiftl_0_r.
Qed.

Lemma crc_shifts_byte x : crc_shifts 8 (Z.shiftl x 8) = x.
Proof. exact (crc_shifts_shiftl 8 x). Qed.

(** ** Ranges *)

Lemma lxor_range a b n : 0 ≤ n → 0 ≤ a < 2 ^ n → 0 ≤ b < 2 ^ n → 0 ≤ Z.lxor a b < 2 ^ n.
Proof.
  intros Hn Ha Hb.
  assert (Z.lxor a b = Z.lxor a b mod 2 ^ n) as ->.
  { rewrite <-Z.land_ones by lia. apply Z.bits_inj'. intros i Hi.
    rewrite Z.land_spec, Z.lxor_spec. destruct (decide (i < n)).
    - rewrite Z.ones_spec_low by lia. by rewrite andb_true_r.
    - by rewrite !(testbit_above _ n) by lia. }
  apply Z.mod_pos_bound. lia.
Qed.

Lemma crc_shift_range x : 0 ≤ x < 2 ^ 32 → 0 ≤ crc_shift x < 2 ^ 32.
Proof.
  intros. apply lxor_range; [lia| |].
  - rewrite Z.shiftr_div_pow2 by lia. change (2 ^ 1) with 2. Z.div_mod_to_equations; lia.
  - destruct (Z.odd x); unfold kCrcPolynomial; lia.
Qed.

Lemma crc_shifts_range n x : 0 ≤ x < 2 ^ 32 → 0 ≤ crc_shifts n x < 2 ^ 32.
Proof. intros. induction n; [done|]. rewrite crc_shifts_S. by apply crc_shift_range. Qed.

Lemma crc_byte_range s b :
  0 ≤ s < 2 ^ 32 → 0 ≤ crc_shifts 8 (Z.lxor s (byte_val b)) < 2 ^ 32.
Proof.
  intros. apply crc_shifts_range, lxor_range; [lia..|]. pose proof (byte_val_range b). lia.
Qed.

(** The polynomial has its top bit set, so only zero is shifted to zero. *)
Lemma crc_shift_zero x : 0 ≤ x < 2 ^ 32 → crc_shift x = 0 → x = 0.
Proof.
  intros Hx H. unfold crc_shift in H. apply Z.lxor_eq in H.
  rewrite Z.shiftr_div_pow2 in H by lia. change (2 ^ 1) with 2 in H.
  pose proof (Z.div_mod x 2 ltac:(lia)) as Hd. rewrite Zmod_odd in Hd.
  destruct (Z.odd x); unfold kCrcPolynomial in H; lia.
Qed.

Lemma crc_shifts_inj n x y :
  0 ≤ x < 2 ^ 32 → 0 ≤ y < 2 ^ 32 → crc_shifts n x = crc_shifts n y → x = y.
Proof.
  intros Hx Hy H. apply Z.lxor_eq.
  assert (0 ≤ Z.lxor x y < 2 ^ 32) as Hr by (apply lxor_range; lia).
  assert (crc_shifts n (Z.lxor x y) = 0) as Hz
    by (rewrite crc_shifts_lxor, H; apply Z.lxor_nilpotent).
  clear H. induction n as [|n IH]; [done|]. rewrite crc_shifts_S in Hz.
  apply crc_shift_zero in Hz; [auto|by apply crc_shifts_range].
Qed.

(** ** The table computes eight shifts *)

Lemma kCrc32Table_eq : kCrc32Table = make_crc32_table.
Proof. vm_compute. reflexivity. Qed.

Lemma crc32_table_bits n i :
  0 ≤ i < 2 ^ 32 → Nat.iter n crc32_table_bit i = crc_shifts n i.
Proof.
  intros Hi. induction n as [|n IH]; [done|].
  change (crc32_table_bit (Nat.iter n crc32_table_bit i) = crc_shifts (S n) i).
  rewrite IH. apply crc32_table_bit_shift. by apply crc_shifts_range.
Qed.

Lemma crc32_table_entry i : 0 ≤ i < 256 → kCrc32Table !!! Z.to_nat i = crc_shifts 8 i.
Proof.
  intros Hi. rewrite kCrc32Table_eq. unfold make_crc32_table.
  rewrite (list_lookup_total_fmap _ _ _) by (rewrite length_seq; lia).
  rewrite lookup_total_seq_lt by lia. cbn [Nat.add]. rewrite Z2Nat.id by lia.
  apply crc32_table_bits. lia.
Qed.

Lemma crc_split_low x : 0 ≤ x → x = Z.lxor (Z.land x 0xFF) (Z.shiftl (Z.shiftr x 8) 8).
Proof.
  intros Hx. apply Z.bits_inj'. intros i Hi.
  change 0xFF with (Z.ones 8). rewrite Z.lxor_spec, Z.land_spec.
  destruct (decide (i < 8)).
  - by rewrite Z.ones_spec_low, Z.shiftl_spec_low, andb_true_r, xorb_false_r by lia.
  - rewrite Z.ones_spec_high, Z.shiftl_spec_high, Z.shiftr_spec by lia.
    rewrite andb_false_r, xorb_false_l. f_equal. lia.
Qed.

Lemma crc32_step_reference crc b :
  0 ≤ crc < 2 ^ 32 → crc32_step crc b = crc_shifts 8 (Z.lxor crc (byte_val b)).
Proof.
  intros Hc. pose proof (byte_val_range b) as Hb. unfold crc32_step.
  set (x := Z.lxor crc (byte_val b)).
  assert (0 ≤ x < 2 ^ 32) as Hx by (apply lxor_range; lia).
  assert (0 ≤ Z.land x 0xFF < 256) as Hl.
  { change 0xFF with (Z.ones 8). rewrite Z.land_ones by lia. apply Z.mod_pos_bound. lia. }
  rewrite crc32_table_entry by done.
  rewrite (crc_split_low x) at 2 by lia.
  rewrite crc_shifts_lxor, crc_shifts_byte, Z.lxor_comm. f_equal.
  unfold x. rewrite Z.shiftr_lxor.
  rewrite (Z.shiftr_div_pow2 (byte_val b)), (Z.div_small (byte_val b)) by lia.
  by rewrite Z.lxor_0_r.
Qed.

Lemma crc32_reference_state_range s bs :
  0 ≤ s < 2 ^ 32 → 0 ≤ crc32_reference_state s bs < 2 ^ 32.
Proof.
  unfold crc32_reference_state. revert s. induction bs as [|b bs IH]; intros s Hs; cbn [foldl]; [done|].
  by apply IH, crc_byte_range.
Qed.

Lemma crc32_state s bs :
  0 ≤ s < 2 ^ 32 → foldl crc32_step s bs = crc32_reference_state s bs.
Proof.
  revert s. induction bs as [|b bs IH]; intros s Hs; [done|]. cbn.
  rewrite crc32_step_reference by done. by apply IH, crc_byte_range.
Qed.

(** C: [crc32] with its table equals the bit-serial definition of the checksum. *)
Lemma crc32_correct bs : crc32 bs = crc32_reference bs.
Proof.
  unfold crc32, crc32_reference. rewrite crc32_state by lia.
  pose proof (crc32_reference_state_range 0xFFFFFFFF bs ltac:(lia)) as Hr.
  unfold u32, Z.lnot. symmetry. apply Z.mod_unique with (-1); lia.
Qed.

Lemma crc32_range bs : 0 ≤ crc32 bs < 2 ^ 32.
Proof. unfold crc32, u32. apply Z.mod_pos_bound. lia. Qed.

(** ** Detected errors *)

Lemma crc32_reference_state_app s l1 l2 :
  crc32_reference_state s (l1 ++ l2) = crc32_reference_state (crc32_reference_state s l1) l2.
Proof. apply foldl_app. Qed.

(** Up to four bytes enter the state like one little-endian word. *)
Lemma crc32_reference_state_word s w :
  crc32_reference_state s w = crc_shifts (8 * length w) (Z.lxor s (le_sum w)).
Proof.
  revert s. induction w as [|b w IH]; intros s; cbn [le_sum length].
  { rewrite Z.lxor_0_r. done. }
  change (crc32_reference_state s (b :: w))
    with (crc32_reference_state (crc_shifts 8 (Z.lxor s (byte_val b))) w).
  rewrite IH. replace (8 * S (length w))%nat with (8 * length w + 8)%nat by lia.
  rewrite crc_shifts_add. f_equal.
  pose proof (byte_val_range b). pose proof (le_sum_range w).
  assert (byte_val b + 256 * le_sum w = Z.lxor (byte_val b) (Z.shiftl (le_sum w) 8)) as ->.
  { assert (Z.land (byte_val b) (Z.shiftl (le_sum w) 8) = 0) as Hl.
    { apply Z.bits_inj'. intros i Hi. rewrite Z.land_spec, Z.bits_0.
      destruct (decide (i < 8)).
      - by rewrite Z.shiftl_spec_low, andb_false_r by lia.
      - by rewrite (testbit_above _ 8) by lia. }
    rewrite <-Z.add_nocarry_lxor, Z.shiftl_mul_pow2 by (done || lia). lia. }
  by rewrite <-(Z.lxor_assoc s), (crc_shifts_lxor 8 _ (Z.shiftl _ _)), crc_shifts_byte.
Qed.

Lemma crc32_reference_state_inj s1 s2 l :
  0 ≤ s1 < 2 ^ 32 → 0 ≤ s2 < 2 ^ 32 →
  crc32_reference_state s1 l = crc32_reference_state s2 l → s1 = s2.
Proof.
  unfold crc32_reference_state. revert s1 s2. induction l as [|b l IH]; intros s1 s2 H1 H2; cbn [foldl]; [done|].
  pose proof (byte_val_range b) as Hb. intros H.
  assert (∀ s, 0 ≤ s < 2 ^ 32 → 0 ≤ Z.lxor s (byte_val b) < 2 ^ 32) as Hr
    by (intros; apply lxor_range; lia).
  apply IH in H; [|by apply crc_byte_range..].
  apply crc_shifts_inj in H; [|apply Hr; lia..].
  apply (f_equal (λ x, Z.lxor x (byte_val b))) in H.
  by rewrite !Z.lxor_assoc, Z.lxor_nilpotent, !Z.lxor_0_r in H.
Qed.

Lemma le_sum_inj w1 w2 : length w1 = length w2 → le_sum w1 = le_sum w2 → w1 = w2.
Proof. intros Hl H. rewrite <-(le_bytes_sum w1), <-(le_bytes_sum w2). by rewrite H, Hl. Qed.

Lemma crc32_burst pre w1 w2 post :
  length w1 = length w2 → (length w1 ≤ 4)%nat →
  crc32 (pre ++ w1 ++ post) = crc32 (pre ++ w2 ++ post) → w1 = w2.
Proof.
  intros Hlen H4. rewrite !crc32_correct. unfold crc32_reference.
  rewrite !crc32_reference_state_app. intros H.
  set (s := crc32_reference_state 0xFFFFFFFF pre) in *.
  assert (0 ≤ s < 2 ^ 32) as Hs by (apply crc32_reference_state_range; lia).
  assert (crc32_reference_state (crc32_reference_state s w1) post
          = crc32_reference_state (crc32_reference_state s w2) post) as Heq by lia.
  apply crc32_reference_state_inj in Heq; [|by apply crc32_reference_state_range..].
  rewrite !crc32_reference_state_word, Hlen in Heq.
  assert (∀ w : bytes, (length w ≤ 4)%nat → 0 ≤ Z.lxor s (le_sum w) < 2 ^ 32) as Hw.
  { intros w Hw. apply lxor_range; [lia|lia|]. pose proof (le_sum_range w) as Hr.
    assert (256 ^ size_of w ≤ 256 ^ 4) by (apply Z.pow_le_mono_r; unfold size_of; lia). lia. }
  apply crc_shifts_inj in Heq; [|apply Hw; lia..].
  apply (f_equal (Z.lxor s)) in Heq.
  rewrite <-!Z.lxor_assoc, Z.lxor_nilpotent, !Z.lxor_0_l in Heq.
  by apply le_sum_inj.
Qed.

(** C18: the table-driven [crc32] of the code is the bit-serial CRC-32 over
    every byte string, and it tells apart any two strings that differ in at most
    four consecutive bytes. *)
Theorem crc32_reference_and_burst (bs pre w1 w2 post : bytes) :
  crc32 bs = crc32_reference bs ∧
  (length w1 = length w2 → (length w1 ≤ 4)%nat → w1 ≠ w2 →
   crc32 (pre ++ w1 ++ post) ≠ crc32 (pre ++ w2 ++ post)).
Proof. split; [apply crc32_correct|]. intros ? ? Hne H. by apply crc32_burst in H. Qed.
