(* ===== verification/WalFormat.v ===== *)
(** * The WAL file format: [src/persistence/wal.cpp], lines 25-279 and the
    frame builders

    Headers, record payloads, frames, the parser of one record and its effect on
    a map. The v3 format is little-endian and carries a header, a generation and
    sequence numbers; the legacy v2 format is in host order and has none. *)

From S2P Require Import Prelude Machine BinaryIO Crc.

(** ** Data *)

Definition kMaxRecordLength : Z := 64 * 1024 * 1024.
Definition kMaxBatchBytes : Z := kMaxRecordLength + 8.
Definition kWalMagic : bytes := str "KVW3".
Definition kWalVersion : Z := 3.
Definition kEndianMarker : Z := 0x01020304.
Definition kHeaderLength : Z := 24.

Inductive WalOp := WalOp_Set | WalOp_Delete.

Record ParsedRecord := {
  rec_op : WalOp;
  rec_key : bytes;
  rec_value : bytes
}.

Inductive WalReplayStatus :=
| CleanEof
| InvalidHeader
| PartialRecord
| InvalidLength
| InvalidSequence
| InvalidOpcode
| ChecksumMismatch
| PartialPayload
| InvalidPayload.

#[global] Instance WalOp_eq_dec : EqDecision WalOp.
Proof. solve_decision. Defined.
#[global] Instance ParsedRecord_eq_dec : EqDecision ParsedRecord.
Proof. solve_decision. Defined.
#[global] Instance WalReplayStatus_eq_dec : EqDecision WalReplayStatus.
Proof. solve_decision. Defined.

(** The underlying value of the enumeration. *)
Definition op_code (op : WalOp) : Z :=
  match op with WalOp_Set => 1 | WalOp_Delete => 2 end.

(** ** Header *)

Definition make_header (generation : Z) : bytes :=
  let header := kWalMagic in
  let header := append_le32 header kWalVersion in
  let header := append_le32 header kEndianMarker in
  let header := append_le64 header generation in
  append_le32 header (crc32 header).

(** [parse_header(input, generation)] on a file with these contents: the answer
    and the value the reference [generation] has afterwards. *)
Definition parse_header (content : bytes) (generation : Z) : bool * Z :=
  let (header, _) := input_read kHeaderLength content in
  if negb (size_of header =? kHeaderLength)
     || negb (bool_decide (take 4 header = kWalMagic))
  then (false, generation)
  else
    match consume_le 4 header (size_of kWalMagic) with
    | None => (false, generation)
    | Some (version, offset) =>
    match consume_le 4 header offset with
    | None => (false, generation)
    | Some (marker, offset) =>
    match consume_le 8 header offset with
    | None => (false, generation)
    | Some (generation, offset) =>
    match consume_le 4 header offset with
    | None => (false, generation)
    | Some (checksum, _) =>
      ((version =? kWalVersion) && (marker =? kEndianMarker)
       && negb (generation =? 0)
       && (checksum =? crc32 (slice 0 (kHeaderLength - 4) header)),
       generation)
    end end end end.

(** ** Records *)

Definition checked_record_length (record_length : Z) : res Z :=
  if kMaxRecordLength <? record_length
  then Exn (runtime_error (str "WAL record is too large"))
  else Ok (u32 record_length).

(** A four-byte integer of a payload or of the framing. *)
Definition u32_bytes (host : endianness) (portable : bool) (value : Z) : bytes :=
  if portable then le_bytes 4 value else host_bytes host 4 value.
Definition consume_size (host : endianness) (portable : bool) (bs : bytes) (offset : Z)
    : option (Z * Z) :=
  if portable then consume_le 4 bs offset else ConsumePrimitive host 4 bs offset.

(** The payloads built by [AppendSet] and [AppendDelete]. *)
Definition set_payload (host : endianness) (legacy_v2 : bool) (key value : bytes) : bytes :=
  let payload := append_primitive host 1 [] (op_code WalOp_Set) in
  let payload := payload ++ u32_bytes host (negb legacy_v2) (size_of key) in
  let payload := payload ++ key in
  let payload := payload ++ u32_bytes host (negb legacy_v2) (size_of value) in
  payload ++ value.
Definition delete_payload (host : endianness) (legacy_v2 : bool) (key : bytes) : bytes :=
  let payload := append_primitive host 1 [] (op_code WalOp_Delete) in
  let payload := payload ++ u32_bytes host (negb legacy_v2) (size_of key) in
  payload ++ key.

(** [parse_record]: the failure, or the record and its sequence number. *)
Definition parse_record (host : endianness) (record : bytes) (portable : bool)
    : WalReplayStatus + (ParsedRecord * Z) :=
  match (if portable then consume_le 8 record 0 else Some (0, 0)) with
  | None => inl PartialPayload
  | Some (sequence, offset) =>
  match ConsumePrimitive host 1 record offset with
  | None => inl PartialPayload
  | Some (op, offset) =>
  if negb (op =? op_code WalOp_Set) && negb (op =? op_code WalOp_Delete)
  then inl InvalidOpcode else
  match consume_size host portable record offset with
  | None => inl PartialPayload
  | Some (key_size, offset) =>
  match ConsumeBytes record offset key_size with
  | None => inl PartialPayload
  | Some (key, offset) =>
  if op =? op_code WalOp_Set then
    match consume_size host portable record offset with
    | None => inl PartialPayload
    | Some (value_size, offset) =>
    match ConsumeBytes record offset value_size with
    | None => inl PartialPayload
    | Some (value, offset) =>
      if negb (offset =? size_of record) then inl InvalidPayload
      else inr ({| rec_op := WalOp_Set; rec_key := key; rec_value := value |}, sequence)
    end end
  else
    if negb (offset =? size_of record) then inl InvalidPayload
    else inr ({| rec_op := WalOp_Delete; rec_key := key; rec_value := [] |}, sequence)
  end end end end.

Definition apply_record (record : ParsedRecord) (store : gmap bytes bytes) : gmap bytes bytes :=
  match rec_op record with
  | WalOp_Set => <[rec_key record := rec_value record]> store
  | WalOp_Delete => delete (rec_key record) store
  end.

(** ** Frames *)

(** [PrepareFrame]: length, checksum and sequence, the last two left zero in v3. *)
Definition PrepareFrame (host : endianness) (legacy_v2 : bool) (payload : bytes) : res bytes :=
  match checked_record_length (size_of payload + (if legacy_v2 then 0 else 8)) with
  | Exn e => Exn e
  | Ok length =>
      let frame :=
        if legacy_v2
        then append_primitive host 4 (append_primitive host 4 [] length) (crc32 payload)
        else append_le64 (append_le32 (append_le32 [] length) 0) 0 in
      Ok (frame ++ payload)
  end.

(** The loop [frame[pos + i] = static_cast<char>(value >> (8 * i))]. *)
Definition store_le (n pos : nat) (value : Z) (frame : bytes) : bytes :=
  foldl (λ (f : bytes) (i : nat),
           <[(pos + i)%nat := byte_of_Z (Z.shiftr value (8 * Z.of_nat i))]> f)
        frame (seq 0 n).

(** The writes of [FinalizeFrameLocked] into a v3 frame. *)
Definition finalize_frame (sequence : Z) (frame : bytes) : bytes :=
  let frame := store_le 8 8 sequence frame in
  store_le 4 4 (crc32 (drop 8 frame)) frame.

(** [read_framing_u32]: the status and stop offset it leaves in the result when
    it returns false; otherwise the value, the cursor and the stream. *)
Definition read_framing_u32 (host : endianness) (input : istream) (cursor : Z)
    (little_endian : bool) : (WalReplayStatus * Z) + (Z * Z * istream) :=
  let (got, rest) := input_read 4 input in
  if size_of got =? 0 then inl (CleanEof, cursor)
  else if negb (size_of got =? 4) then inl (PartialRecord, cursor)
  else inr (if little_endian then le_value got else host_value host got, cursor + 4, rest).

(** ** The format, declaratively *)

Definition payload_of (host : endianness) (portable : bool) (r : ParsedRecord) : bytes :=
  match rec_op r with
  | WalOp_Set => set_payload host (negb portable) (rec_key r) (rec_value r)
  | WalOp_Delete => delete_payload host (negb portable) (rec_key r)
  end.

(** What the checksum covers: the sequence number (v3 only) and the payload. *)
Definition record_bytes (host : endianness) (portable : bool) (seq : Z) (r : ParsedRecord) : bytes :=
  (if portable then le_bytes 8 seq else []) ++ payload_of host portable r.

Definition frame_of (host : endianness) (portable : bool) (record : bytes) : bytes :=
  u32_bytes host portable (size_of record) ++ u32_bytes host portable (crc32 record) ++ record.

Definition record_frame (host : endianness) (portable : bool) (seq : Z) (r : ParsedRecord) : bytes :=
  frame_of host portable (record_bytes host portable seq r).

(** Consecutive frames, the first one numbered [seq]. *)
Fixpoint log_frames (host : endianness) (portable : bool) (seq : Z) (rs : list ParsedRecord) : bytes :=
  match rs with
  | [] => []
  | r :: rs => record_frame host portable seq r ++ log_frames host portable (seq + 1) rs
  end.

(** A record the writer accepts: the lengths fit, a deletion has no value. *)
Record record_fits (host : endianness) (portable : bool) (r : ParsedRecord) : Prop := {
  fits_length : size_of (record_bytes host portable 0 r) ≤ kMaxRecordLength;
  fits_delete : rec_op r = WalOp_Delete → rec_value r = []
}.

Definition apply_records (rs : list ParsedRecord) (store : gmap bytes bytes) : gmap bytes bytes :=
  foldl (λ m r, apply_record r m) store rs.

(** ** Shape and size of records *)

(** The sequence field: eight bytes in v3, none in v2. *)
Definition seq_bytes (portable : bool) (seq : Z) : bytes :=
  if portable then le_bytes 8 seq else [].
Definition seq_size (portable : bool) : Z := if portable then 8 else 0.

Lemma size_of_u32_bytes host portable v : size_of (u32_bytes host portable v) = 4.
Proof. destruct portable; cbn [u32_bytes]; by size_simpl. Qed.

Lemma size_of_seq_bytes portable seq : size_of (seq_bytes portable seq) = seq_size portable.
Proof. by destruct portable. Qed.

#[export] Hint Rewrite size_of_u32_bytes size_of_seq_bytes : kv.

Lemma record_bytes_set host portable seq k v :
  record_bytes host portable seq {| rec_op := WalOp_Set; rec_key := k; rec_value := v |}
  = seq_bytes portable seq ++ host_bytes host 1 1 ++ u32_bytes host portable (size_of k) ++ k
    ++ u32_bytes host portable (size_of v) ++ v.
Proof.
  unfold record_bytes, payload_of, set_payload, append_primitive. cbn [rec_op rec_key rec_value op_code].
  rewrite negb_involutive, <-!app_assoc. done.
Qed.

Lemma record_bytes_delete host portable seq k v :
  record_bytes host portable seq {| rec_op := WalOp_Delete; rec_key := k; rec_value := v |}
  = seq_bytes portable seq ++ host_bytes host 1 2 ++ u32_bytes host portable (size_of k) ++ k.
Proof.
  unfold record_bytes, payload_of, delete_payload, append_primitive. cbn [rec_op rec_key rec_value op_code].
  rewrite negb_involutive, <-!app_assoc. done.
Qed.

(** The size does not depend on the sequence number. *)
Definition record_size (portable : bool) (r : ParsedRecord) : Z :=
  seq_size portable + 5 + size_of (rec_key r) +
  match rec_op r with WalOp_Set => 4 + size_of (rec_value r) | WalOp_Delete => 0 end.

Lemma size_of_record_bytes host portable seq r :
  size_of (record_bytes host portable seq r) = record_size portable r.
Proof.
  destruct r as [[] k v]; [rewrite record_bytes_set|rewrite record_bytes_delete];
    unfold record_size; autorewrite with kv; cbn [rec_op rec_key rec_value]; lia.
Qed.

#[export] Hint Rewrite size_of_record_bytes : kv.

Lemma record_size_ge portable r : 5 ≤ record_size portable r.
Proof.
  unfold record_size. pose proof (size_of_nonneg (rec_key r)).
  pose proof (size_of_nonneg (rec_value r)). destruct portable, (rec_op r); cbn; lia.
Qed.

Lemma record_fits_size host portable r :
  record_fits host portable r → record_size portable r ≤ kMaxRecordLength.
Proof. intros [H _]. by rewrite size_of_record_bytes in H. Qed.

Lemma size_of_frame host portable seq r :
  size_of (record_frame host portable seq r) = 8 + record_size portable r.
Proof. unfold record_frame, frame_of. autorewrite with kv. lia. Qed.

#[export] Hint Rewrite size_of_frame : kv.

(** ** Parsing a record: the inverse of encoding, and nothing else *)

Lemma consume_le_at n v bs pre post off :
  bs = pre ++ le_bytes n v ++ post → off = size_of pre → 0 ≤ v < 256 ^ Z.of_nat n →
  consume_le n bs off = Some (v, off + Z.of_nat n).
Proof. intros -> ->. apply consume_le_field. Qed.

Lemma ConsumePrimitive_at host n v bs pre post off :
  bs = pre ++ host_bytes host n v ++ post → off = size_of pre → 0 ≤ v < 256 ^ Z.of_nat n →
  ConsumePrimitive host n bs off = Some (v, off + Z.of_nat n).
Proof. intros -> ->. apply ConsumePrimitive_field. Qed.

Lemma consume_size_at host portable v bs pre post off :
  bs = pre ++ u32_bytes host portable v ++ post → off = size_of pre → 0 ≤ v < 2 ^ 32 →
  consume_size host portable bs off = Some (v, off + 4).
Proof.
  intros -> -> Hv. destruct portable; cbn [consume_size u32_bytes].
  - by apply (consume_le_field 4).
  - by apply (ConsumePrimitive_field host 4).
Qed.

Lemma ConsumeBytes_at s bs pre post off n :
  bs = pre ++ s ++ post → off = size_of pre → n = size_of s →
  ConsumeBytes bs off n = Some (s, off + n).
Proof. intros -> -> ->. apply ConsumeBytes_field. Qed.

Lemma consume_size_inv host portable bs offset v offset' :
  0 ≤ offset → consume_size host portable bs offset = Some (v, offset') →
  offset' = offset + 4 ∧ 0 ≤ v < 2 ^ 32 ∧ offset' ≤ size_of bs ∧
  drop (Z.to_nat offset) bs = u32_bytes host portable v ++ drop (Z.to_nat offset') bs.
Proof.
  intros Ho H. destruct portable; cbn [consume_size] in H.
  - by apply consume_le_inv in H.
  - by apply ConsumePrimitive_inv in H.
Qed.

Lemma parse_record_encode host portable seq r :
  record_fits host portable r → 0 ≤ seq < 2 ^ 64 →
  parse_record host (record_bytes host portable seq r) portable
  = inr (r, if portable then seq else 0).
Proof.
  intros Hfit Hseq. pose proof (record_fits_size _ _ _ Hfit) as Hsz.
  destruct Hfit as [_ Hdel]. unfold kMaxRecordLength, record_size in Hsz.
  pose proof (size_of_nonneg (rec_key r)). pose proof (size_of_nonneg (rec_value r)).
  assert (∀ rest, (if portable then consume_le 8 (seq_bytes portable seq ++ rest) 0 else Some (0, 0))
                  = Some (if portable then seq else 0, seq_size portable)) as Hs.
  { intros rest. destruct portable; [|done]. by apply (consume_le_field 8 seq []). }
  unfold parse_record.
  destruct r as [[] k v]; cbn [rec_op rec_key rec_value] in *.
  - rewrite record_bytes_set, Hs.
    erewrite (ConsumePrimitive_at host 1 1 _ (seq_bytes portable seq)); [|done|by autorewrite with kv|lia].
    cbn [Z.eqb negb andb op_code Pos.eqb].
    erewrite (consume_size_at host portable (size_of k) _ (seq_bytes portable seq ++ host_bytes host 1 1));
      [|by rewrite <-!app_assoc|by autorewrite with kv|destruct portable; cbn in Hsz; lia].
    erewrite (ConsumeBytes_at k _ (seq_bytes portable seq ++ host_bytes host 1 1
        ++ u32_bytes host portable (size_of k)));
      [|by rewrite <-!app_assoc|autorewrite with kv; lia|done].
    erewrite (consume_size_at host portable (size_of v) _ (seq_bytes portable seq ++ host_bytes host 1 1
        ++ u32_bytes host portable (size_of k) ++ k));
      [|by rewrite <-!app_assoc|autorewrite with kv; lia|destruct portable; cbn in Hsz; lia].
    erewrite (ConsumeBytes_at v _ (seq_bytes portable seq ++ host_bytes host 1 1
        ++ u32_bytes host portable (size_of k) ++ k ++ u32_bytes host portable (size_of v)) []);
      [|by rewrite <-!app_assoc, app_nil_r|autorewrite with kv; lia|done].
    autorewrite with kv.
    match goal with |- context [negb (?a =? ?b)] => replace (a =? b) with true by lia end.
    done.
  - rewrite record_bytes_delete, Hs.
    erewrite (ConsumePrimitive_at host 1 2 _ (seq_bytes portable seq)); [|done|by autorewrite with kv|lia].
    cbn [Z.eqb negb andb op_code Pos.eqb].
    erewrite (consume_size_at host portable (size_of k) _ (seq_bytes portable seq ++ host_bytes host 1 2));
      [|by rewrite <-!app_assoc|by autorewrite with kv|destruct portable; cbn in Hsz; lia].
    erewrite (ConsumeBytes_at k _ (seq_bytes portable seq ++ host_bytes host 1 2
        ++ u32_bytes host portable (size_of k)) []);
      [|by rewrite <-!app_assoc, app_nil_r|autorewrite with kv; lia|done].
    autorewrite with kv.
    match goal with |- context [negb (?a =? ?b)] => replace (a =? b) with true by lia end.
    by rewrite (Hdel eq_refl).
Qed.

Lemma parse_record_inv host portable record r seq :
  parse_record host record portable = inr (r, seq) →
  record = record_bytes host portable seq r
  ∧ (rec_op r = WalOp_Delete → rec_value r = []) ∧ 0 ≤ seq < 2 ^ 64.
Proof.
  unfold parse_record.
  destruct (if portable then consume_le 8 record 0 else Some (0, 0)) as [[sq o0]|] eqn:E0; [|done].
  assert (o0 = seq_size portable ∧ 0 ≤ sq < 2 ^ 64
          ∧ record = seq_bytes portable sq ++ drop (Z.to_nat o0) record) as (Ho0 & Hsq & Hrec).
  { destruct portable; cbn [seq_bytes seq_size].
    - by apply consume_le_inv in E0 as (-> & ? & ? & ?).
    - injection E0 as <- <-. cbn. rewrite drop_0. split_and!; [done|lia..|done]. }
  assert (0 ≤ o0) by (rewrite Ho0; by destruct portable). clear E0.
  destruct (ConsumePrimitive host 1 record o0) as [[op o1]|] eqn:E1; [|done].
  apply ConsumePrimitive_inv in E1 as (Ho1 & Hop & _ & Hd1); [|done]. rewrite Hd1 in Hrec.
  destruct (negb _ && negb _) eqn:Eop; [done|].
  destruct (consume_size host portable record o1) as [[ks o2]|] eqn:E2; [|done].
  apply consume_size_inv in E2 as (Ho2 & Hks & _ & Hd2); [|lia]. rewrite Hd2 in Hrec.
  destruct (ConsumeBytes record o2 ks) as [[k o3]|] eqn:E3; [|done].
  apply ConsumeBytes_inv in E3 as (Ho3 & Hk & _ & Hd3); [|lia..]. rewrite Hd3 in Hrec.
  destruct (Z.eqb_spec op (op_code WalOp_Set)) as [->|Hne].
  - destruct (consume_size host portable record o3) as [[vs o4]|] eqn:E4; [|done].
    apply consume_size_inv in E4 as (Ho4 & Hvs & _ & Hd4); [|lia]. rewrite Hd4 in Hrec.
    destruct (ConsumeBytes record o4 vs) as [[v o5]|] eqn:E5; [|done].
    apply ConsumeBytes_inv in E5 as (Ho5 & Hv & _ & Hd5); [|lia..]. rewrite Hd5 in Hrec.
    destruct (Z.eqb_spec o5 (size_of record)) as [Heq|]; [|done].
    intros [= <- <-]. cbn [rec_op rec_value]. split_and!; [|done|lia..].
    rewrite record_bytes_set, Hk, Hv, Hrec at 1. rewrite drop_ge by (unfold size_of in Heq; lia).
    by rewrite app_nil_r.
  - destruct (Z.eqb_spec o3 (size_of record)) as [Heq|]; [|done].
    intros [= <- <-]. cbn [rec_op rec_value]. split_and!; [|done|lia..].
    assert (op = 2) as -> by (cbn in Hne, Eop; lia).
    rewrite record_bytes_delete, Hk, Hrec at 1. rewrite drop_ge by (unfold size_of in Heq; lia).
    by rewrite app_nil_r.
Qed.

(** ** Headers *)

Definition header_prefix (generation : Z) : bytes :=
  kWalMagic ++ le_bytes 4 kWalVersion ++ le_bytes 4 kEndianMarker ++ le_bytes 8 generation.

Lemma make_header_shape generation :
  make_header generation = header_prefix generation ++ le_bytes 4 (crc32 (header_prefix generation)).
Proof.
  unfold make_header, append_le32, append_le64, header_prefix. by rewrite <-!app_assoc.
Qed.

Lemma size_of_header_prefix generation : size_of (header_prefix generation) = 20.
Proof. unfold header_prefix. by autorewrite with kv. Qed.

Lemma size_of_make_header generation : size_of (make_header generation) = kHeaderLength.
Proof.
  rewrite make_header_shape, size_of_app, size_of_header_prefix. by autorewrite with kv.
Qed.

Lemma length_make_header generation : length (make_header generation) = 24%nat.
Proof. pose proof (size_of_make_header generation). unfold size_of, kHeaderLength in *. lia. Qed.

(** The answer of [parse_header] on 24 bytes that begin with the magic. *)
Lemma parse_header_fields version marker generation checksum rest g :
  0 ≤ version < 2 ^ 32 → 0 ≤ marker < 2 ^ 32 → 0 ≤ generation < 2 ^ 64 → 0 ≤ checksum < 2 ^ 32 →
  let prefix := kWalMagic ++ le_bytes 4 version ++ le_bytes 4 marker ++ le_bytes 8 generation in
  parse_header (prefix ++ le_bytes 4 checksum ++ rest) g
  = ((version =? kWalVersion) && (marker =? kEndianMarker) && negb (generation =? 0)
     && (checksum =? crc32 prefix), generation).
Proof.
  intros Hv Hm Hg Hc prefix. unfold parse_header.
  assert (size_of prefix = 20) as Hp by (unfold prefix; by autorewrite with kv).
  rewrite app_assoc, input_read_app
    by (autorewrite with kv; rewrite Hp; done).
  set (header := prefix ++ le_bytes 4 checksum).
  assert (header = kWalMagic ++ le_bytes 4 version ++ le_bytes 4 marker ++ le_bytes 8 generation
                   ++ le_bytes 4 checksum) as Hh by (unfold header, prefix; by rewrite <-!app_assoc).
  replace (size_of header) with kHeaderLength
    by (unfold header; autorewrite with kv; rewrite Hp; done).
  assert (take 4 header = kWalMagic) as Ht by (rewrite Hh; done).
  rewrite Z.eqb_refl, bool_decide_true by done. cbn [negb orb].
  erewrite (consume_le_at 4 version header kWalMagic); [|done..].
  erewrite (consume_le_at 4 marker header (kWalMagic ++ le_bytes 4 version));
    [|by rewrite Hh, <-!app_assoc|by autorewrite with kv|done].
  erewrite (consume_le_at 8 generation header (kWalMagic ++ le_bytes 4 version ++ le_bytes 4 marker));
    [|by rewrite Hh, <-!app_assoc|by autorewrite with kv|done].
  erewrite (consume_le_at 4 checksum header prefix [] _);
    [|unfold header; by rewrite app_nil_r|by rewrite Hp|done].
  assert (slice 0 (kHeaderLength - 4) header = prefix) as Hs.
  { apply (slice_app_mid [] prefix (le_bytes 4 checksum)); [done|].
    change (Z.of_nat (length prefix)) with (size_of prefix). by rewrite Hp. }
  by rewrite Hs.
Qed.

Lemma parse_make_header generation rest g :
  0 < generation < 2 ^ 64 → parse_header (make_header generation ++ rest) g = (true, generation).
Proof.
  intros Hg. rewrite make_header_shape, <-app_assoc. unfold header_prefix at 1.
  rewrite parse_header_fields; [|unfold kWalVersion, kEndianMarker; lia..|apply crc32_range].
  fold (header_prefix generation). rewrite !Z.eqb_refl.
  by replace (generation =? 0) with false by lia.
Qed.

Lemma parse_header_inv content g generation :
  parse_header content g = (true, generation) →
  0 < generation < 2 ^ 64 ∧ ∃ rest, content = make_header generation ++ rest.
Proof.
  unfold parse_header. destruct (input_read kHeaderLength content) as [header rest] eqn:Er.
  apply input_read_inv in Er as [-> Hlen]; [|done].
  destruct (Z.eqb_spec (size_of header) kHeaderLength) as [Hsz|]; [|done].
  case_bool_decide as Hmagic; [|done]. cbn [negb orb].
  assert (header = kWalMagic ++ drop (Z.to_nat 4) header) as Hh
    by (rewrite <-Hmagic; symmetry; apply (take_drop 4)).
  change (size_of kWalMagic) with 4.
  destruct (consume_le 4 header 4) as [[v o1]|] eqn:E1; [|done].
  apply consume_le_inv in E1 as (-> & Hv & _ & Hd); [|lia]. rewrite Hd in Hh.
  destruct (consume_le 4 header _) as [[m o2]|] eqn:E2; [|done].
  apply consume_le_inv in E2 as (-> & Hm & _ & Hd2); [|lia]. rewrite Hd2 in Hh.
  destruct (consume_le 8 header _) as [[gen o3]|] eqn:E3; [|done].
  apply consume_le_inv in E3 as (-> & Hgen & _ & Hd3); [|lia]. rewrite Hd3 in Hh.
  destruct (consume_le 4 header _) as [[c o4]|] eqn:E4; [|done].
  apply consume_le_inv in E4 as (-> & Hc & _ & Hd4); [|lia]. rewrite Hd4 in Hh.
  rewrite drop_ge, app_nil_r in Hh by (unfold size_of, kHeaderLength in Hsz; lia).
  clear Hd Hd2 Hd3 Hd4. intros [= Hok <-]. rewrite !andb_true_iff, negb_true_iff in Hok.
  destruct Hok as [[[Hv3 Hm3] Hg0] Hcrc].
  assert (slice 0 (kHeaderLength - 4) header
          = kWalMagic ++ le_bytes 4 v ++ le_bytes 4 m ++ le_bytes 8 gen) as Hs.
  { rewrite Hh at 1. rewrite !app_assoc. rewrite <-(app_nil_r (_ ++ le_bytes 4 c)), <-app_assoc.
    by apply (slice_app_mid []). }
  rewrite Hs in Hcrc.
  assert (v = kWalVersion ∧ m = kEndianMarker) as [-> ->] by lia.
  fold (header_prefix gen) in Hcrc. split; [lia|]. exists rest. f_equal.
  rewrite make_header_shape. apply Z.eqb_eq in Hcrc. rewrite <-Hcrc.
  unfold header_prefix. rewrite <-!app_assoc. done.
Qed.

Lemma kWalMagic_header generation rest : take 4 (make_header generation ++ rest) = kWalMagic.
Proof. done. Qed.

(** ** Frames: the two-step construction builds the frame *)

Lemma store_le_field n pre old value post :
  length old = n →
  store_le n (length pre) value (pre ++ old ++ post) = pre ++ le_bytes n value ++ post.
Proof.
  intros Hlen. unfold store_le.
  assert (∀ k, (k ≤ n)%nat →
    foldl (λ (f : bytes) (i : nat),
             <[(length pre + i)%nat := byte_of_Z (Z.shiftr value (8 * Z.of_nat i))]> f)
          (pre ++ old ++ post) (seq 0 k) = pre ++ le_bytes k value ++ drop k old ++ post) as H.
  { induction k as [|k IH]; intros Hk; [by rewrite drop_0|].
    rewrite seq_S, foldl_app, IH by lia. cbn [foldl Nat.add].
    rewrite insert_app_r.
    replace k with (length (le_bytes k value) + 0)%nat at 1 by (rewrite length_le_bytes; lia).
    rewrite insert_app_r.
    destruct (drop k old) as [|b rest] eqn:Ed.
    { apply (f_equal length) in Ed. rewrite length_drop in Ed. cbn in Ed. lia. }
    replace (S k) with (k + 1)%nat by lia. rewrite <-drop_drop, Ed. cbn.
    unfold le_bytes. rewrite Nat.add_1_r, seq_S, fmap_app, <-app_assoc. done. }
  rewrite (H n) by lia. by rewrite (drop_ge old) by lia.
Qed.

Lemma checked_record_length_ok n :
  0 ≤ n ≤ kMaxRecordLength → checked_record_length n = Ok n.
Proof.
  intros Hn. unfold checked_record_length, kMaxRecordLength, u32 in *.
  destruct (Z.ltb_spec (64 * 1024 * 1024) n); [lia|]. f_equal. apply Z.mod_small. lia.
Qed.

Lemma checked_record_length_err n :
  kMaxRecordLength < n → checked_record_length n = Exn (runtime_error (str "WAL record is too large")).
Proof. intros Hn. unfold checked_record_length. by destruct (Z.ltb_spec kMaxRecordLength n); [|lia]. Qed.

Lemma PrepareFrame_v2 host payload :
  size_of payload ≤ kMaxRecordLength →
  PrepareFrame host true payload = Ok (frame_of host false payload).
Proof.
  intros H. unfold PrepareFrame. rewrite Z.add_0_r, checked_record_length_ok
    by (pose proof (size_of_nonneg payload); lia).
  unfold frame_of, append_primitive, u32_bytes. cbn [app]. by rewrite <-app_assoc.
Qed.

Lemma PrepareFrame_v3 host payload :
  size_of payload + 8 ≤ kMaxRecordLength →
  PrepareFrame host false payload
  = Ok (le_bytes 4 (size_of payload + 8) ++ le_bytes 4 0 ++ le_bytes 8 0 ++ payload).
Proof.
  intros H. unfold PrepareFrame. rewrite checked_record_length_ok
    by (pose proof (size_of_nonneg payload); lia).
  unfold append_le32, append_le64. cbn [app]. by rewrite <-!app_assoc.
Qed.

(** The bytes written by the finalization of a prepared v3 frame are the frame
    of the record: length, checksum of sequence and payload, sequence, payload. *)
Lemma finalize_prepared_frame host payload seq frame :
  PrepareFrame host false payload = Ok frame →
  finalize_frame seq frame = frame_of host true (le_bytes 8 seq ++ payload)
  ∧ 16 ≤ size_of frame.
Proof.
  intros Hp.
  assert (size_of payload + 8 ≤ kMaxRecordLength) as Hsz.
  { destruct (decide (size_of payload + 8 ≤ kMaxRecordLength)); [done|].
    unfold PrepareFrame in Hp. rewrite checked_record_length_err in Hp by lia. done. }
  rewrite PrepareFrame_v3 in Hp by done.
  assert (frame = le_bytes 4 (size_of payload + 8) ++ le_bytes 4 0 ++ le_bytes 8 0 ++ payload)
    as -> by congruence.
  clear Hp. split.
  - unfold finalize_frame. cbv zeta.
    pose proof (store_le_field 8 (le_bytes 4 (size_of payload + 8) ++ le_bytes 4 0)
                  (le_bytes 8 0) seq payload) as H1.
    rewrite length_app, !length_le_bytes, <-!app_assoc in H1. cbn [Nat.add] in H1.
    rewrite H1 by done. clear H1.
    assert (∀ a b : bytes, length a = 4%nat → length b = 4%nat →
      ∀ c, drop 8 (a ++ b ++ c) = c) as Hdrop.
    { intros a b Ha Hb c. rewrite app_assoc. apply drop_app_length'. rewrite length_app; lia. }
    rewrite Hdrop by apply length_le_bytes.
    pose proof (store_le_field 4 (le_bytes 4 (size_of payload + 8)) (le_bytes 4 0)
                  (crc32 (le_bytes 8 seq ++ payload)) (le_bytes 8 seq ++ payload)) as H2.
    rewrite !length_le_bytes in H2. rewrite H2 by done.
    unfold frame_of, u32_bytes. autorewrite with kv.
    by rewrite (Z.add_comm (size_of payload)).
  - autorewrite with kv. pose proof (size_of_nonneg payload). lia.
Qed.

(** ** The effect of a list of records on a map *)

(** What the last record about [k] leaves there: a value, nothing, or no record. *)
Definition last_write (k : bytes) (rs : list ParsedRecord) : option (option bytes) :=
  foldl (λ acc r, if decide (rec_key r = k)
                  then Some (match rec_op r with
                             | WalOp_Set => Some (rec_value r)
                             | WalOp_Delete => None
                             end)
                  else acc) None rs.

Lemma apply_records_app rs1 rs2 m :
  apply_records (rs1 ++ rs2) m = apply_records rs2 (apply_records rs1 m).
Proof. apply foldl_app. Qed.

Lemma apply_records_snoc rs r m : apply_records (rs ++ [r]) m = apply_record r (apply_records rs m).
Proof. by rewrite apply_records_app. Qed.

Lemma apply_record_lookup r m k :
  apply_record r m !! k = if decide (rec_key r = k)
                          then match rec_op r with
                               | WalOp_Set => Some (rec_value r)
                               | WalOp_Delete => None
                               end
                          else m !! k.
Proof.
  unfold apply_record. destruct (rec_op r); case_decide; subst.
  - by rewrite lookup_insert_eq.
  - by rewrite lookup_insert_ne.
  - by rewrite lookup_delete_eq.
  - by rewrite lookup_delete_ne.
Qed.

(** The last record about a key decides what the map holds there. *)
Lemma apply_records_lookup rs m k :
  apply_records rs m !! k = from_option id (m !! k) (last_write k rs).
Proof.
  induction rs as [|r rs IH] using rev_ind; [done|].
  rewrite apply_records_snoc, apply_record_lookup. unfold last_write. rewrite foldl_app. cbn [foldl].
  fold (last_write k rs). case_decide; [done|]. apply IH.
Qed.

Lemma apply_records_idemp rs m : apply_records rs (apply_records rs m) = apply_records rs m.
Proof.
  apply map_eq. intros k. rewrite !apply_records_lookup. by destruct (last_write k rs).
Qed.
