(* ===== verification/WalReplay.v ===== *)
(** * Replay: [WriteAheadLog::ReplayFromDetailed] of [src/persistence/wal.cpp]

    The loop that validates one frame at a time, its termination, and its
    characterization by the declarative format: replay accepts exactly the
    longest prefix of the file that is a log. *)

From S2P Require Import Prelude Machine BinaryIO Crc WalFormat.

(** ** The code *)

Record WalReplayResult := {
  applied_operations : Z;
  replay_status : WalReplayStatus;
  start_offset : Z;
  last_good_offset : Z;
  stop_offset : Z;
  replay_generation : Z;
  last_sequence : Z;
  truncated : bool
}.

(** The variables of the loop: the map, the result, the cursor, the stream. *)
Record replay_state := {
  rs_store : gmap bytes bytes;
  rs_result : WalReplayResult;
  rs_cursor : Z;
  rs_input : istream
}.

(** [result.status = ...; result.stop_offset = ...]. *)
Definition stop_result (status : WalReplayStatus) (stop : Z) (r : WalReplayResult) : WalReplayResult :=
  {| applied_operations := applied_operations r; replay_status := status;
     start_offset := start_offset r; last_good_offset := last_good_offset r;
     stop_offset := stop; replay_generation := replay_generation r;
     last_sequence := last_sequence r; truncated := truncated r |}.
Definition stop_at (status : WalReplayStatus) (stop : Z) (s : replay_state) : replay_state :=
  {| rs_store := rs_store s; rs_result := stop_result status stop (rs_result s);
     rs_cursor := rs_cursor s; rs_input := rs_input s |}.

(** The test on the sequence number of a v3 record; [offset] is where the replay
    started. *)
Definition bad_sequence (portable : bool) (offset applied last sequence : Z) : bool :=
  portable &&
  ((sequence =? 0)
   || ((applied =? 0) && (offset =? kHeaderLength) && negb (sequence =? 1))
   || (negb (applied =? 0) && negb (sequence =? u64 (last + 1)))).

(** The effect of one valid record. *)
Definition advance (portable : bool) (parsed : ParsedRecord) (sequence cursor : Z) (input : istream)
    (s : replay_state) : replay_state :=
  let r := rs_result s in
  {| rs_store := apply_record parsed (rs_store s);
     rs_result :=
       {| applied_operations := applied_operations r + 1;
          replay_status := replay_status r; start_offset := start_offset r;
          last_good_offset := cursor; stop_offset := cursor;
          replay_generation := replay_generation r;
          last_sequence := if portable then sequence else last_sequence r;
          truncated := truncated r |};
     rs_cursor := cursor; rs_input := input |}.

(** One turn of the loop: [inl] when it breaks, [inr] when it goes on. *)
Definition replay_frame (host : endianness) (portable : bool) (offset : Z) (s : replay_state)
    : replay_state + replay_state :=
  let record_start := rs_cursor s in
  match read_framing_u32 host (rs_input s) (rs_cursor s) portable with
  | inl (status, stop) => inl (stop_at status stop s)
  | inr (record_length, cursor, input) =>
  if (record_length =? 0) || (kMaxRecordLength <? record_length)
  then inl (stop_at InvalidLength record_start s) else
  match read_framing_u32 host input cursor portable with
  | inl _ => inl (stop_at PartialRecord record_start s)
  | inr (expected_checksum, cursor, input) =>
  let (record, input) := input_read record_length input in
  if negb (size_of record =? record_length)
  then inl (stop_at PartialRecord record_start s) else
  let cursor := cursor + size_of record in
  if negb (crc32 record =? expected_checksum)
  then inl (stop_at ChecksumMismatch record_start s) else
  match parse_record host record portable with
  | inl parse_status => inl (stop_at parse_status record_start s)
  | inr (parsed, sequence) =>
  if bad_sequence portable offset (applied_operations (rs_result s))
       (last_sequence (rs_result s)) sequence
  then inl (stop_at InvalidSequence record_start s)
  else inr (advance portable parsed sequence cursor input s)
  end end end.

(** [while (true)], with a bound on the number of turns. *)
Fixpoint replay_loop (fuel : nat) (host : endianness) (portable : bool) (offset : Z)
    (s : replay_state) : option replay_state :=
  match fuel with
  | O => None
  | S fuel =>
      match replay_frame host portable offset s with
      | inl s' => Some s'
      | inr s' => replay_loop fuel host portable offset s'
      end
  end.

Definition initial_result (offset : Z) : WalReplayResult :=
  {| applied_operations := 0; replay_status := CleanEof; start_offset := offset;
     last_good_offset := offset; stop_offset := offset; replay_generation := 0;
     last_sequence := 0; truncated := false |}.

Definition set_generation (g : Z) (r : WalReplayResult) : WalReplayResult :=
  {| applied_operations := applied_operations r; replay_status := replay_status r;
     start_offset := start_offset r; last_good_offset := last_good_offset r;
     stop_offset := stop_offset r; replay_generation := g;
     last_sequence := last_sequence r; truncated := truncated r |}.
Definition set_offsets (offset : Z) (r : WalReplayResult) : WalReplayResult :=
  {| applied_operations := applied_operations r; replay_status := replay_status r;
     start_offset := start_offset r; last_good_offset := offset; stop_offset := offset;
     replay_generation := replay_generation r;
     last_sequence := last_sequence r; truncated := truncated r |}.
Definition set_truncated (r : WalReplayResult) : WalReplayResult :=
  {| applied_operations := applied_operations r; replay_status := replay_status r;
     start_offset := start_offset r; last_good_offset := last_good_offset r;
     stop_offset := stop_offset r; replay_generation := replay_generation r;
     last_sequence := last_sequence r; truncated := true |}.

(** Seeks to [offset] and runs the loop until it breaks; each turn that goes on
    reads at least eight bytes, so as many turns as there are bytes are enough. *)
Definition replay_from (host : endianness) (portable : bool) (offset : Z) (result : WalReplayResult)
    (content : bytes) (store : gmap bytes bytes) : WalReplayResult * gmap bytes bytes :=
  let input := input_seekg offset content in
  let s := {| rs_store := store; rs_result := result; rs_cursor := offset; rs_input := input |} in
  match replay_loop (S (length input)) host portable offset s with
  | Some s' => (rs_result s', rs_store s')
  | None => (result, store)
  end.

(** [file] is what opening [path_] gives: its contents, or nothing. *)
Definition ReplayFromDetailed (host : endianness) (file : option bytes) (offset : Z)
    (store : gmap bytes bytes) : res (WalReplayResult * gmap bytes bytes) :=
  if streamoff_max <? offset
  then Exn (runtime_error (str "WAL replay offset is too large"))
  else
    let result := initial_result offset in
    match file with
    | None => Ok (result, store)
    | Some content =>
        let (prefix, _) := input_read 4 content in
        let prefix_size := size_of prefix in
        if prefix_size =? 0 then Ok (result, store) else
        let portable := bool_decide (prefix = take (length prefix) kWalMagic) in
        if portable then
          let (valid, generation) :=
            if prefix_size =? 4 then parse_header content 0 else (false, 0) in
          let result := set_generation generation result in
          if negb valid || (negb (offset =? 0) && (offset <? kHeaderLength))
          then Ok (stop_result InvalidHeader 0 (set_offsets 0 result), store)
          else if offset =? 0
          then Ok (replay_from host true kHeaderLength (set_offsets kHeaderLength result)
                     content store)
          else Ok (replay_from host true offset result content store)
        else Ok (replay_from host false offset result content store)
    end.

Definition ReplayDetailed (host : endianness) (file : option bytes) (store : gmap bytes bytes)
    : res (WalReplayResult * gmap bytes bytes) :=
  ReplayFromDetailed host file 0 store.

Definition ReplayFrom (host : endianness) (file : option bytes) (offset : Z)
    (store : gmap bytes bytes) : res (Z * gmap bytes bytes) :=
  match ReplayFromDetailed host file offset store with
  | Ok (result, store) => Ok (applied_operations result, store)
  | Exn e => Exn e
  end.

Definition Replay (host : endianness) (file : option bytes) (store : gmap bytes bytes)
    : res (Z * gmap bytes bytes) :=
  ReplayFrom host file 0 store.

(** ** The log a file holds *)

Inductive log_format := V2 | V3 (generation : Z).

Definition is_v3 (fmt : log_format) : bool :=
  match fmt with V2 => false | V3 _ => true end.
Definition format_header (fmt : log_format) : bytes :=
  match fmt with V2 => [] | V3 generation => make_header generation end.
Definition format_generation (fmt : log_format) : Z :=
  match fmt with V2 => 0 | V3 generation => generation end.

(** The bytes of a log with these records. *)
Definition log_image (host : endianness) (fmt : log_format) (rs : list ParsedRecord) : bytes :=
  format_header fmt ++ log_frames host (is_v3 fmt) 1 rs.

Definition format_ok (fmt : log_format) : Prop :=
  match fmt with V2 => True | V3 generation => 0 < generation < 2 ^ 64 end.

Definition records_fit (host : endianness) (fmt : log_format) (rs : list ParsedRecord) : Prop :=
  Forall (record_fits host (is_v3 fmt)) rs ∧ (is_v3 fmt = true → Z.of_nat (length rs) < 2 ^ 64).

(** What replaying [rs] from [offset] reports when it ends at [stop]. *)
Definition replay_report (fmt : log_format) (offset : Z) (rs : list ParsedRecord)
    (last : Z) (status : WalReplayStatus) (stop : Z) : WalReplayResult :=
  {| applied_operations := Z.of_nat (length rs); replay_status := status;
     start_offset := offset; last_good_offset := stop; stop_offset := stop;
     replay_generation := format_generation fmt; last_sequence := last; truncated := false |}.

(** ** One frame *)

(** A state of the loop: everything before [cursor] was accepted. *)
Definition loop_state (start generation : Z) (store : gmap bytes bytes) (applied last cursor : Z)
    (input : istream) : replay_state :=
  {| rs_store := store;
     rs_result :=
       {| applied_operations := applied; replay_status := CleanEof; start_offset := start;
          last_good_offset := cursor; stop_offset := cursor; replay_generation := generation;
          last_sequence := last; truncated := false |};
     rs_cursor := cursor; rs_input := input |}.

Lemma read_framing_u32_field host portable v rest cursor :
  0 ≤ v < 2 ^ 32 →
  read_framing_u32 host (u32_bytes host portable v ++ rest) cursor portable
  = inr (v, cursor + 4, rest).
Proof.
  intros Hv. unfold read_framing_u32. rewrite input_read_app by apply size_of_u32_bytes.
  rewrite size_of_u32_bytes. cbn [Z.eqb Pos.eqb negb]. do 3 f_equal.
  destruct portable; cbn [u32_bytes]; [by apply le_value_bytes|by apply host_value_bytes].
Qed.

Lemma read_framing_u32_inr host portable input cursor v cursor' rest :
  read_framing_u32 host input cursor portable = inr (v, cursor', rest) →
  input = u32_bytes host portable v ++ rest ∧ 0 ≤ v < 2 ^ 32 ∧ cursor' = cursor + 4.
Proof.
  unfold read_framing_u32. destruct (input_read 4 input) as [got r] eqn:Er.
  apply input_read_inv in Er as [-> Hsz]; [|done].
  destruct (Z.eqb_spec (size_of got) 0); [done|].
  destruct (Z.eqb_spec (size_of got) 4) as [H4|]; [|done]. cbn [negb].
  assert (length got = 4%nat) as Hl by (unfold size_of in H4; lia).
  intros [= <- <- <-]. split; [|split; [|done]].
  - destruct portable; cbn [u32_bytes]; by rewrite ?le_bytes_value, ?host_bytes_value.
  - destruct portable; [pose proof (le_value_range got) as Hr|pose proof (host_value_range host got) as Hr];
      by rewrite H4 in Hr.
Qed.

(** It fails only when fewer than four bytes are left. *)
Lemma read_framing_u32_inl host portable input cursor status stop :
  read_framing_u32 host input cursor portable = inl (status, stop) →
  stop = cursor ∧ size_of input < 4 ∧ status = (if decide (input = []) then CleanEof else PartialRecord).
Proof.
  unfold read_framing_u32. destruct (input_read 4 input) as [got r] eqn:Er.
  apply input_read_inv in Er as [-> Hsz]; [|done].
  destruct (Z.eqb_spec (size_of got) 0) as [H0|H0].
  - intros [= <- <-]. destruct Hsz as [|[_ ->]]; [lia|].
    assert (got = []) as -> by (apply nil_length_inv; unfold size_of in H0; lia). done.
  - destruct (Z.eqb_spec (size_of got) 4); [done|]. intros [= <- <-].
    destruct Hsz as [|[? ->]]; [lia|]. rewrite app_nil_r. split_and!; [done|lia|].
    case_decide as Hg; [by subst got|done].
Qed.

Lemma read_framing_u32_short host portable input cursor :
  size_of input < 4 →
  read_framing_u32 host input cursor portable
  = inl (if decide (input = []) then CleanEof else PartialRecord, cursor).
Proof.
  intros H. destruct (read_framing_u32 host input cursor portable) as [[st stop]|[[v c] rest]] eqn:E.
  - apply read_framing_u32_inl in E as (-> & _ & ->). done.
  - apply read_framing_u32_inr in E as (-> & _ & _). exfalso.
    autorewrite with kv in H. pose proof (size_of_nonneg rest). lia.
Qed.

Lemma parse_record_inl host record portable status :
  parse_record host record portable = inl status → status ≠ CleanEof ∧ status ≠ InvalidHeader.
Proof. unfold parse_record. intros H. repeat case_match; by simplify_eq. Qed.

(** The frame of an acceptable record with an acceptable sequence number is
    accepted: one operation is applied and the cursor moves past the frame. *)
Lemma replay_frame_ok host portable offset start gen store n last cur seq r rest :
  record_fits host portable r → 0 ≤ seq < 2 ^ 64 →
  bad_sequence portable offset n last (if portable then seq else 0) = false →
  replay_frame host portable offset
    (loop_state start gen store n last cur (record_frame host portable seq r ++ rest))
  = inr (loop_state start gen (apply_record r store) (n + 1) (if portable then seq else last)
           (cur + size_of (record_frame host portable seq r)) rest).
Proof.
  intros Hfit Hseq Hbad. unfold replay_frame, loop_state.
  cbn [rs_input rs_cursor rs_result applied_operations last_sequence rs_store].
  pose proof (record_fits_size _ _ _ Hfit) as Hsz. pose proof (record_size_ge portable r) as Hge.
  unfold kMaxRecordLength in Hsz.
  unfold record_frame, frame_of. rewrite <-!app_assoc, size_of_record_bytes.
  rewrite read_framing_u32_field by lia.
  replace ((record_size portable r =? 0) || (kMaxRecordLength <? record_size portable r)) with false
    by (unfold kMaxRecordLength; lia).
  rewrite read_framing_u32_field by apply crc32_range.
  rewrite input_read_app by apply size_of_record_bytes.
  rewrite size_of_record_bytes, !Z.eqb_refl. cbn [negb].
  rewrite parse_record_encode by done. rewrite Hbad.
  unfold advance. cbn. autorewrite with kv.
  replace (cur + (4 + (4 + record_size portable r))) with (cur + 4 + 4 + record_size portable r) by lia.
  by destruct portable.
Qed.

(** Conversely the loop goes on only past the frame of an acceptable record. *)
Lemma replay_frame_inr host portable offset start gen store n last cur input s' :
  replay_frame host portable offset (loop_state start gen store n last cur input) = inr s' →
  ∃ r seq rest,
    input = record_frame host portable seq r ++ rest ∧ record_fits host portable r ∧
    0 ≤ seq < 2 ^ 64 ∧ bad_sequence portable offset n last (if portable then seq else 0) = false ∧
    s' = loop_state start gen (apply_record r store) (n + 1) (if portable then seq else last)
           (cur + size_of (record_frame host portable seq r)) rest.
Proof.
  unfold replay_frame. cbn [rs_input rs_cursor rs_result loop_state applied_operations last_sequence].
  destruct (read_framing_u32 host input cur portable) as [[]|[[len c1] in1]] eqn:E1; [done|].
  apply read_framing_u32_inr in E1 as (-> & Hlen & ->).
  destruct ((len =? 0) || (kMaxRecordLength <? len)) eqn:Elen; [done|].
  destruct (read_framing_u32 host in1 _ portable) as [[]|[[crc c2] in2]] eqn:E2; [done|].
  apply read_framing_u32_inr in E2 as (-> & Hcrc & ->).
  destruct (input_read len in2) as [record rest] eqn:E3.
  apply input_read_inv in E3 as [-> Hrec]; [|lia].
  destruct (Z.eqb_spec (size_of record) len) as [<-|]; [|done]. cbn [negb].
  destruct (Z.eqb_spec (crc32 record) crc) as [<-|]; [|done]. cbn [negb].
  destruct (parse_record host record portable) as [|[r seq]] eqn:E4; [done|].
  apply parse_record_inv in E4 as (Hr & Hdel & Hseq).
  destruct (bad_sequence _ _ _ _ _) eqn:Eb; [done|]. intros [= <-].
  assert (record_frame host portable seq r = frame_of host portable record) as Hf
    by (unfold record_frame; by rewrite Hr).
  exists r, seq, rest. rewrite Hf. unfold frame_of. split_and!.
  - by rewrite <-!app_assoc.
  - split; [|done]. rewrite size_of_record_bytes.
    rewrite Hr, size_of_record_bytes in Elen. lia.
  - lia.
  - lia.
  - by destruct portable.
  - unfold advance, loop_state. cbn. autorewrite with kv.
    replace (cur + (4 + (4 + size_of record))) with (cur + 4 + 4 + size_of record) by lia.
    by destruct portable.
Qed.

(** When the loop breaks it reports the start of the frame it could not accept. *)
Lemma replay_frame_inl host portable offset s s' :
  replay_frame host portable offset s = inl s' →
  ∃ status, s' = stop_at status (rs_cursor s) s ∧ (status = CleanEof ↔ rs_input s = [])
            ∧ status ≠ InvalidHeader.
Proof.
  unfold replay_frame. destruct (read_framing_u32 host (rs_input s) _ portable)
    as [[st stop]|[[len c1] in1]] eqn:E1.
  { apply read_framing_u32_inl in E1 as (-> & _ & ->). intros [= <-].
    eexists. split; [done|]. by case_decide. }
  apply read_framing_u32_inr in E1 as (Hin & _).
  assert (rs_input s ≠ []) as Hne.
  { rewrite Hin. intros H%(f_equal size_of). autorewrite with kv in H.
    pose proof (size_of_nonneg in1). lia. }
  intros H. repeat case_match; simplify_eq; eexists; (split; [done|]); try done.
  match goal with H : parse_record _ _ _ = inl _ |- _ => apply parse_record_inl in H as [??] end.
  done.
Qed.

(** ** The loop *)

Lemma log_frames_v2_seq host seq seq' rs :
  log_frames host false seq rs = log_frames host false seq' rs.
Proof. revert seq seq'. induction rs as [|r rs IH]; intros; cbn; [done|]. f_equal. apply IH. Qed.

Lemma log_frames_app host portable seq rs1 rs2 :
  log_frames host portable seq (rs1 ++ rs2)
  = log_frames host portable seq rs1 ++ log_frames host portable (seq + Z.of_nat (length rs1)) rs2.
Proof.
  revert seq. induction rs1 as [|r rs1 IH]; intros seq; cbn [app log_frames length].
  - cbn. by rewrite Z.add_0_r.
  - rewrite IH, <-app_assoc. do 3 f_equal. lia.
Qed.

(** The sequence number reported after [rs], numbered from [seq]. *)
Definition last_after (portable : bool) (seq last : Z) (rs : list ParsedRecord) : Z :=
  if portable && bool_decide (rs ≠ []) then seq + Z.of_nat (length rs) - 1 else last.

Lemma last_after_nil portable seq last : last_after portable seq last [] = last.
Proof. unfold last_after. by rewrite bool_decide_false, andb_false_r by auto. Qed.

Lemma last_after_cons portable seq last r rs :
  last_after portable seq last (r :: rs) = if portable then seq + Z.of_nat (length rs) else last.
Proof. unfold last_after. destruct portable; cbn; lia. Qed.

Lemma last_after_full portable rs :
  last_after portable (1 + Z.of_nat 0) 0 rs = if portable then Z.of_nat (length rs) else 0.
Proof.
  destruct rs as [|r rs]; [rewrite last_after_nil; by destruct portable|].
  rewrite last_after_cons. destruct portable; cbn [length]; lia.
Qed.

(** Numbering goes on by one. *)
Lemma last_after_step portable seq seq2 last r rs :
  (portable = true → rs ≠ [] → seq2 = seq + 1) →
  last_after portable seq2 (if portable then seq else last) rs
  = last_after portable seq last (r :: rs).
Proof.
  intros Hs. rewrite last_after_cons. destruct rs as [|r' rs].
  - rewrite last_after_nil. destruct portable; cbn; lia.
  - rewrite last_after_cons. destruct portable; [|done]. rewrite Hs by done. cbn [length]. lia.
Qed.

(** After one accepted frame the next number is the only acceptable one. *)
Lemma bad_sequence_next portable offset n last seq :
  0 ≤ n → 0 ≤ seq → seq + 1 < 2 ^ 64 →
  bad_sequence portable offset (n + 1) (if portable then seq else last)
    (if portable then seq + 1 else 0) = false.
Proof.
  intros Hn Hs Hs1. destruct portable; [|done]. unfold bad_sequence, u64.
  rewrite Z.mod_small by lia. lia.
Qed.

(** Replaying consecutive acceptable frames applies them in order. *)
Lemma replay_loop_frames host portable offset start gen rs fuel store n last cur seq rest :
  Forall (record_fits host portable) rs → 0 ≤ n → 0 ≤ seq →
  (portable = true → seq + Z.of_nat (length rs) ≤ 2 ^ 64) →
  (rs ≠ [] → bad_sequence portable offset n last (if portable then seq else 0) = false) →
  replay_loop (length rs + fuel) host portable offset
    (loop_state start gen store n last cur (log_frames host portable seq rs ++ rest))
  = replay_loop fuel host portable offset
      (loop_state start gen (apply_records rs store) (n + Z.of_nat (length rs))
         (last_after portable seq last rs)
         (cur + size_of (log_frames host portable seq rs)) rest).
Proof.
  intros Hfit. revert store n last cur seq. induction Hfit as [|r rs Hr Hfit IH];
    intros store n last cur seq Hn Hseq Hbound Hbad; cbn [length log_frames app Nat.add].
  { rewrite last_after_nil, size_of_nil. cbn [apply_records foldl]. by rewrite !Z.add_0_r. }
  set (seq' := if portable then seq else 0).
  assert (record_frame host portable seq r ++ log_frames host portable (seq + 1) rs
          = record_frame host portable seq' r ++ log_frames host portable (seq' + 1) rs) as Heq.
  { subst seq'. destruct portable; [done|]. f_equal. apply log_frames_v2_seq. }
  rewrite Heq, <-app_assoc. cbn [replay_loop].
  rewrite (replay_frame_ok _ _ _ _ _ _ _ _ _ seq'); [|done| |].
  2: { subst seq'. destruct portable; [|lia]. cbn [length] in Hbound. specialize (Hbound eq_refl). lia. }
  2: { subst seq'. destruct portable; by apply Hbad. }
  rewrite IH; [|lia| | |].
  - f_equal. unfold loop_state. cbn [apply_records foldl]. autorewrite with kv.
    assert (last_after portable (seq' + 1) (if portable then seq' else last) rs
            = last_after portable seq last (r :: rs)) as ->.
    { subst seq'. destruct portable; [by apply (last_after_step true seq)|].
      rewrite last_after_cons. unfold last_after. done. }
    replace (n + 1 + Z.of_nat (length rs)) with (n + Z.of_nat (S (length rs))) by lia.
    by rewrite !Z.add_assoc.
  - subst seq'. destruct portable; lia.
  - intros ->. subst seq'. cbn [length] in Hbound. specialize (Hbound eq_refl). cbn. lia.
  - intros Hne. subst seq'. destruct portable; [|done].
    specialize (Hbound eq_refl). destruct rs; [done|]. cbn [length] in Hbound.
    apply (bad_sequence_next true offset n 0 seq); lia.
Qed.

(** More fuel does not change a result. *)
Lemma replay_loop_mono fuel fuel' host portable offset s s' :
  replay_loop fuel host portable offset s = Some s' → (fuel ≤ fuel')%nat →
  replay_loop fuel' host portable offset s = Some s'.
Proof.
  revert fuel' s. induction fuel as [|fuel IH]; intros fuel' s H Hle; [done|].
  destruct fuel' as [|fuel']; [lia|]. cbn [replay_loop] in *.
  destruct (replay_frame _ _ _ _); [done|]. apply IH; [done|lia].
Qed.

(** A tail at which no acceptable next frame begins. *)
Definition no_next_frame (host : endianness) (portable : bool) (offset n last : Z) (tail : bytes) : Prop :=
  ∀ r seq rest, record_fits host portable r → 0 ≤ seq < 2 ^ 64 →
    bad_sequence portable offset n last (if portable then seq else 0) = false →
    tail ≠ record_frame host portable seq r ++ rest.

(** The loop terminates within as many turns as there are bytes, having accepted
    a sequence of frames that cannot be extended, and reports where it ended. *)
Lemma replay_loop_decompose host portable offset start gen store n last cur input :
  0 ≤ n → 0 ≤ last < 2 ^ 64 →
  ∃ seq rs tail status,
    input = log_frames host portable seq rs ++ tail ∧ Forall (record_fits host portable) rs ∧
    0 ≤ seq ∧ (portable = true → seq + Z.of_nat (length rs) ≤ 2 ^ 64) ∧
    (rs ≠ [] → bad_sequence portable offset n last (if portable then seq else 0) = false) ∧
    no_next_frame host portable offset (n + Z.of_nat (length rs)) (last_after portable seq last rs) tail ∧
    (status = CleanEof ↔ tail = []) ∧ status ≠ InvalidHeader ∧
    let s := loop_state start gen (apply_records rs store) (n + Z.of_nat (length rs))
               (last_after portable seq last rs)
               (cur + size_of (log_frames host portable seq rs)) tail in
    replay_loop (S (length input)) host portable offset
      (loop_state start gen store n last cur input) = Some (stop_at status (rs_cursor s) s).
Proof.
  remember (length input) as k eqn:Hk. revert store n last cur input Hk.
  induction k as [k IH] using lt_wf_ind. intros store n last cur input Hk Hn Hlast.
  cbn [replay_loop].
  destruct (replay_frame host portable offset (loop_state start gen store n last cur input))
    as [s'|s'] eqn:E.
  - pose proof E as E'. apply replay_frame_inl in E' as (status & -> & Hst & Hst').
    exists 1, [], input, status. cbn [log_frames app length apply_records foldl].
    rewrite last_after_nil, size_of_nil, !Z.add_0_r. split_and!; try done.
    intros r seq rest Hr Hseq Hb ->. by rewrite replay_frame_ok in E.
  - apply replay_frame_inr in E as (r & seq & rest & -> & Hr & Hseq & Hb & ->).
    assert (length rest < k)%nat as Hlt.
    { rewrite Hk, length_app. pose proof (size_of_frame host portable seq r) as Hf.
      pose proof (record_size_ge portable r). unfold size_of in Hf. lia. }
    destruct (IH _ Hlt (apply_record r store) (n + 1) (if portable then seq else last)
                (cur + size_of (record_frame host portable seq r)) rest eq_refl)
      as (seq2 & rs & tail & status & -> & Hfit & Hs2 & Hbd & Hb2 & Hno & Hst & Hst' & Hrun);
      [lia|destruct portable; lia|].
    assert (portable = true → rs ≠ [] → seq2 = seq + 1) as Hnext.
    { intros -> Hne. specialize (Hb2 Hne). unfold bad_sequence, u64 in Hb2. cbn [andb] in Hb2.
      rewrite !orb_false_iff in Hb2. destruct (decide (seq + 1 = 2 ^ 64)) as [Hw|Hw].
      - rewrite Hw, Z.mod_same in Hb2 by lia. lia.
      - rewrite Z.mod_small in Hb2 by lia. lia. }
    assert (log_frames host portable seq2 rs = log_frames host portable (seq + 1) rs) as Hlf.
    { destruct portable; [|apply log_frames_v2_seq]. destruct rs; [done|]. by rewrite Hnext. }
    assert (last_after portable seq2 (if portable then seq else last) rs
            = last_after portable seq last (r :: rs)) as Hla.
    { by apply last_after_step. }
    exists seq, (r :: rs), tail, status. cbn [log_frames app length apply_records foldl].
    rewrite Hlf in Hrun, Hlt |- *. rewrite Hla in Hno, Hrun.
    replace (n + 1 + Z.of_nat (length rs)) with (n + Z.of_nat (S (length rs))) in Hno, Hrun by lia.
    split_and!; try done; [by rewrite <-app_assoc|by constructor|lia| |].
    + intros ->. specialize (Hbd eq_refl). destruct rs; [cbn; lia|].
      rewrite Hnext in Hbd by done. cbn [length] in *. lia.
    + rewrite size_of_app, Z.add_assoc. eapply replay_loop_mono; [exact Hrun|]. lia.
Qed.

(** ** Opening a file *)

(** The test on the first bytes: the whole magic, or as much of it as there is. *)
Definition looks_portable (content : bytes) : bool :=
  bool_decide (take 4 content = take (length (take 4 content)) kWalMagic).

(** The file is read as a log of format [fmt]. *)
Definition opens_as (fmt : log_format) (content : bytes) : Prop :=
  match fmt with
  | V2 => content = [] ∨ looks_portable content = false
  | V3 generation => 0 < generation < 2 ^ 64 ∧ ∃ body, content = make_header generation ++ body
  end.

(** Where the records begin when a replay is asked from [offset]. *)
Definition begin_offset (fmt : log_format) (offset : Z) : Z :=
  if is_v3 fmt && (offset =? 0) then kHeaderLength else offset.

Lemma input_read_4 content : (input_read 4 content).1 = take 4 content.
Proof.
  unfold input_read. destruct (Z.ltb_spec (size_of content) 4); cbn; [|done].
  by rewrite take_ge by (unfold size_of in *; lia).
Qed.

Lemma take_4_zero content : size_of (take 4 content) = 0 ↔ content = [].
Proof. destruct content as [|b content]; [done|]. unfold size_of. cbn. split; [lia|done]. Qed.

Lemma looks_portable_header generation body : looks_portable (make_header generation ++ body) = true.
Proof. done. Qed.

(** Reading a file of either format is running the loop on what follows. *)
Lemma ReplayFromDetailed_opens host fmt content offset store :
  opens_as fmt content → 0 ≤ offset ≤ streamoff_max →
  (is_v3 fmt = true → offset = 0 ∨ kHeaderLength ≤ offset) →
  let input := drop (Z.to_nat (begin_offset fmt offset)) content in
  ∀ s', replay_loop (S (length input)) host (is_v3 fmt) (begin_offset fmt offset)
          (loop_state offset (format_generation fmt) store 0 0 (begin_offset fmt offset) input)
        = Some s' →
  ReplayFromDetailed host (Some content) offset store = Ok (rs_result s', rs_store s').
Proof.
  intros Hopen Hoff Hv3 input s' Hrun. unfold ReplayFromDetailed.
  destruct (Z.ltb_spec streamoff_max offset); [lia|].
  pose proof (input_read_4 content) as Hr. destruct (input_read 4 content) as [prefix rest].
  cbn in Hr. subst prefix.
  destruct (Z.eqb_spec (size_of (take 4 content)) 0) as [H0|H0].
  { apply take_4_zero in H0 as ->. destruct fmt as [|g].
    - subst input. cbn in Hrun. rewrite drop_nil in Hrun. injection Hrun as <-. done.
    - destruct Hopen as (_ & body & Hc). by apply (f_equal length) in Hc. }
  fold (looks_portable content). destruct fmt as [|g].
  - destruct Hopen as [->|Hp]; [done|]. rewrite Hp. unfold replay_from.
    rewrite input_seekg_drop. unfold input, loop_state in Hrun. cbn in Hrun.
    unfold begin_offset in Hrun. cbn in Hrun.
    change (initial_result offset) with
      (rs_result (loop_state offset 0 store 0 0 offset (drop (Z.to_nat offset) content))).
    unfold loop_state. cbn [rs_result]. cbn [replay_loop]. rewrite Hrun. done.
  - destruct Hopen as (Hg & body & ->). rewrite looks_portable_header.
    replace (size_of (take 4 (make_header g ++ body))) with 4 by done.
    cbn [Z.eqb Pos.eqb]. rewrite parse_make_header by done. cbn [negb orb].
    specialize (Hv3 eq_refl). unfold begin_offset in Hrun, input. cbn [is_v3 andb] in Hrun, input.
    destruct (Z.eqb_spec offset 0) as [->|Hne]; cbn [negb andb].
    + unfold replay_from. rewrite input_seekg_drop. fold input.
      cbn [replay_loop] in Hrun |- *.
      unfold loop_state in Hrun. unfold set_offsets, set_generation, initial_result. cbn in Hrun |- *.
      rewrite Hrun. done.
    + destruct (Z.ltb_spec offset kHeaderLength); [lia|]. unfold replay_from.
      rewrite input_seekg_drop. fold input. unfold loop_state in Hrun.
      unfold set_generation, initial_result. cbn in Hrun |- *. rewrite Hrun. done.
Qed.

(** Every file that is not reported as having a bad header is of one format. *)
Lemma ReplayFromDetailed_cases host content store :
  (∃ fmt, opens_as fmt content) ∨
  (∃ result, ReplayFromDetailed host (Some content) 0 store = Ok (result, store) ∧
             replay_status result = InvalidHeader).
Proof.
  unfold ReplayFromDetailed.
  pose proof (input_read_4 content) as Hr. destruct (input_read 4 content) as [prefix rest].
  cbn in Hr. subst prefix. change (streamoff_max <? 0) with false. cbv iota.
  destruct (Z.eqb_spec (size_of (take 4 content)) 0) as [H0|H0].
  { apply take_4_zero in H0 as ->. left. exists V2. by left. }
  fold (looks_portable content). destruct (looks_portable content) eqn:Hp.
  - destruct (if _ =? 4 then _ else _) as [valid g] eqn:Eh. destruct valid; cbn [negb orb].
    + left. exists (V3 g). destruct (_ =? 4); [|done]. by apply parse_header_inv in Eh.
    + right. by eexists.
  - left. exists V2. by right.
Qed.

Lemma ReplayFromDetailed_classify host content store result store' :
  ReplayFromDetailed host (Some content) 0 store = Ok (result, store') →
  replay_status result ≠ InvalidHeader → ∃ fmt, opens_as fmt content.
Proof.
  intros H Hst. destruct (ReplayFromDetailed_cases host content store) as [?|(r & Hr & Hi)]; [done|].
  rewrite Hr in H. injection H as <- <-. done.
Qed.

(** Any bytes can be replayed; they amount to some records. *)
Lemma replay_any host content store :
  ∃ result more, ReplayDetailed host (Some content) store = Ok (result, apply_records more store).
Proof.
  unfold ReplayDetailed.
  destruct (ReplayFromDetailed_cases host content store) as [[fmt Hopen]|(r & Hr & _)];
    [|by exists r, []].
  pose proof (ReplayFromDetailed_opens host fmt content 0 store Hopen) as Hrun. cbv zeta in Hrun.
  set (start := begin_offset fmt 0) in *. set (input := drop (Z.to_nat start) content) in *.
  destruct (replay_loop_decompose host (is_v3 fmt) start 0 (format_generation fmt) store 0 0 start input)
    as (seq & rs & tail & status & _ & _ & _ & _ & _ & _ & _ & _ & Hloop); [lia..|].
  eexists _, rs. rewrite (Hrun ltac:(unfold streamoff_max; lia) ltac:(by left) _ Hloop). done.
Qed.

(** ** Replaying the image of a log *)

(** A v2 file that holds a record is never taken for a v3 file: its first four
    bytes are a length of at most 64 MiB, and the magic reads as a larger one. *)
Lemma v2_frame_not_portable host seq r rest :
  record_fits host false r → looks_portable (record_frame host false seq r ++ rest) = false.
Proof.
  intros Hfit%record_fits_size. pose proof (record_size_ge false r).
  unfold kMaxRecordLength in Hfit. unfold looks_portable. apply bool_decide_eq_false.
  unfold record_frame, frame_of. rewrite size_of_record_bytes. cbn [u32_bytes].
  rewrite <-!app_assoc.
  rewrite take_app_length' by (by rewrite length_host_bytes).
  rewrite length_host_bytes. change (take 4 kWalMagic) with kWalMagic. intros Heq.
  apply (f_equal (host_value host)) in Heq. rewrite host_value_bytes in Heq by lia.
  assert (kMaxRecordLength < host_value host kWalMagic) as Hm by (by destruct host).
  unfold kMaxRecordLength in Hm. lia.
Qed.

Lemma opens_as_image host fmt rs tail :
  format_ok fmt → records_fit host fmt rs → (is_v3 fmt = true ∨ rs ≠ [] ∨ tail = []) →
  opens_as fmt (log_image host fmt rs ++ tail).
Proof.
  intros Hok [Hfit _] Hne. destruct fmt as [|g]; cbn.
  - destruct rs as [|r rs].
    + left. by destruct Hne as [?|[?| -> ]].
    + right. unfold log_image. cbn [format_header app is_v3 log_frames]. rewrite <-app_assoc.
      apply v2_frame_not_portable. by inversion Hfit.
  - split; [done|]. unfold log_image. cbn [format_header]. rewrite <-app_assoc. eauto.
Qed.

Lemma log_image_app host fmt rs1 rs2 :
  log_image host fmt (rs1 ++ rs2)
  = log_image host fmt rs1 ++ log_frames host (is_v3 fmt) (1 + Z.of_nat (length rs1)) rs2.
Proof. unfold log_image. by rewrite log_frames_app, app_assoc. Qed.

Lemma size_of_header fmt : size_of (format_header fmt) = if is_v3 fmt then kHeaderLength else 0.
Proof. destruct fmt; [done|]. apply size_of_make_header. Qed.

Lemma size_of_frames_pos host portable seq r rs :
  0 < size_of (log_frames host portable seq (r :: rs)).
Proof.
  cbn [log_frames]. autorewrite with kv. pose proof (record_size_ge portable r).
  pose proof (size_of_nonneg (log_frames host portable (seq + 1) rs)). lia.
Qed.

(** The start of a replay that skips the records [rs1]. *)
Definition covers (host : endianness) (fmt : log_format) (offset : Z) (rs1 : list ParsedRecord) : Prop :=
  offset = size_of (log_image host fmt rs1) ∨ (offset = 0 ∧ rs1 = []).

Lemma covers_begin host fmt offset rs1 :
  covers host fmt offset rs1 → begin_offset fmt offset = size_of (log_image host fmt rs1).
Proof.
  unfold begin_offset. intros [->|[-> ->]]; unfold log_image;
    rewrite !size_of_app, size_of_header; destruct fmt as [|g]; cbn [is_v3 andb]; try done.
  pose proof (size_of_nonneg (log_frames host true 1 rs1)). unfold kHeaderLength.
  destruct (Z.eqb_spec (24 + size_of (log_frames host true 1 rs1)) 0); lia.
Qed.

(** The stop on the bytes after the records. *)
Definition stops_with (host : endianness) (fmt : log_format) (offset : Z) (rs2 : list ParsedRecord)
    (last : Z) (tail : bytes) (status : WalReplayStatus) : Prop :=
  ∀ start gen store cur,
    replay_frame host (is_v3 fmt) (begin_offset fmt offset)
      (loop_state start gen store (Z.of_nat (length rs2)) last cur tail)
    = inl (stop_at status cur (loop_state start gen store (Z.of_nat (length rs2)) last cur tail)).

Lemma stops_with_nil host fmt offset rs2 last : stops_with host fmt offset rs2 last [] CleanEof.
Proof. done. Qed.

Lemma first_sequence_ok host fmt offset rs1 :
  covers host fmt offset rs1 → (is_v3 fmt = true → Z.of_nat (length rs1) < 2 ^ 64) →
  bad_sequence (is_v3 fmt) (begin_offset fmt offset) 0 0
    (if is_v3 fmt then 1 + Z.of_nat (length rs1) else 0) = false.
Proof.
  intros Hc Hlen. rewrite (covers_begin host fmt offset rs1) by done.
  destruct fmt as [|g]; [done|]. cbn [is_v3] in *. unfold bad_sequence. cbn [andb].
  unfold log_image. rewrite size_of_app, size_of_header. cbn [is_v3].
  destruct rs1 as [|r rs1].
  - cbn. done.
  - pose proof (size_of_frames_pos host true 1 r rs1). unfold kHeaderLength in *.
    cbn [length]. zbool.
Qed.

Lemma ReplayFromDetailed_opened host fmt rs1 rs2 tail status store offset :
  records_fit host fmt (rs1 ++ rs2) →
  opens_as fmt (log_image host fmt (rs1 ++ rs2) ++ tail) →
  covers host fmt offset rs1 → offset ≤ streamoff_max →
  let last := last_after (is_v3 fmt) (1 + Z.of_nat (length rs1)) 0 rs2 in
  stops_with host fmt offset rs2 last tail status →
  ReplayFromDetailed host (Some (log_image host fmt (rs1 ++ rs2) ++ tail)) offset store
  = Ok (replay_report fmt offset rs2 last status (size_of (log_image host fmt (rs1 ++ rs2))),
        apply_records rs2 store).
Proof.
  intros Hfit Hopen Hcov Hmax last Hstop.
  pose proof (covers_begin _ _ _ _ Hcov) as Hbegin.
  destruct Hfit as [Hfit Hlen]. pose proof (proj1 (Forall_app _ _ _) Hfit) as [_ Hfit2].
  rewrite length_app in Hlen.
  assert (drop (Z.to_nat (begin_offset fmt offset)) (log_image host fmt (rs1 ++ rs2) ++ tail)
          = log_frames host (is_v3 fmt) (1 + Z.of_nat (length rs1)) rs2 ++ tail) as Hinput.
  { rewrite Hbegin, log_image_app, <-app_assoc. unfold size_of. by rewrite Nat2Z.id, drop_app_length. }
  set (s := loop_state offset (format_generation fmt) (apply_records rs2 store)
              (Z.of_nat (length rs2)) last (size_of (log_image host fmt (rs1 ++ rs2))) tail).
  rewrite (ReplayFromDetailed_opens host fmt _ offset store)
    with (s' := stop_at status (size_of (log_image host fmt (rs1 ++ rs2))) s).
  - done.
  - done.
  - split; [|done]. destruct Hcov as [->|[-> _]]; [apply size_of_nonneg|done].
  - intros Hv3. destruct Hcov as [->|[-> _]]; [right|by left].
    unfold log_image. rewrite size_of_app, size_of_header, Hv3.
    pose proof (size_of_nonneg (log_frames host (is_v3 fmt) 1 rs1)). rewrite Hv3 in *. lia.
  - rewrite Hinput.
    apply (replay_loop_mono (length rs2 + 1)).
    + rewrite replay_loop_frames; [|done|lia|lia| |].
      * cbn [replay_loop]. rewrite Z.add_0_l, Hbegin, log_image_app, size_of_app. fold last.
        rewrite <-size_of_app, <-log_image_app, <-Hbegin. by rewrite Hstop.
      * intros Hv3. specialize (Hlen Hv3). lia.
      * intros _. apply (first_sequence_ok host); [done|]. intros Hv3. specialize (Hlen Hv3). lia.
    + rewrite length_app. cut (length rs2 ≤ length (log_frames host (is_v3 fmt) (1 + Z.of_nat (length rs1)) rs2))%nat; [lia|].
      generalize (1 + Z.of_nat (length rs1)). clear. induction rs2 as [|r rs2 IH]; intros q; cbn [log_frames length]; [lia|].
      rewrite length_app. specialize (IH (q + 1)). pose proof (size_of_frame host (is_v3 fmt) q r) as Hs.
      pose proof (record_size_ge (is_v3 fmt) r). unfold size_of in Hs. lia.
Qed.

Lemma ReplayFromDetailed_image host fmt rs1 rs2 tail status store offset :
  format_ok fmt → records_fit host fmt (rs1 ++ rs2) →
  (is_v3 fmt = true ∨ rs1 ++ rs2 ≠ [] ∨ tail = []) →
  covers host fmt offset rs1 → offset ≤ streamoff_max →
  let last := last_after (is_v3 fmt) (1 + Z.of_nat (length rs1)) 0 rs2 in
  stops_with host fmt offset rs2 last tail status →
  ReplayFromDetailed host (Some (log_image host fmt (rs1 ++ rs2) ++ tail)) offset store
  = Ok (replay_report fmt offset rs2 last status (size_of (log_image host fmt (rs1 ++ rs2))),
        apply_records rs2 store).
Proof. intros. by apply ReplayFromDetailed_opened; try apply opens_as_image. Qed.

(** ** What replay computes *)

Lemma ReplayFromDetailed_log host fmt rs store :
  format_ok fmt → records_fit host fmt rs →
  ReplayFromDetailed host (Some (log_image host fmt rs)) 0 store
  = Ok (replay_report fmt 0 rs (if is_v3 fmt then Z.of_nat (length rs) else 0) CleanEof
          (size_of (log_image host fmt rs)),
        apply_records rs store).
Proof.
  intros Hok Hfit.
  pose proof (ReplayFromDetailed_image host fmt [] rs [] CleanEof store 0) as H.
  cbn [app length] in H. rewrite app_nil_r, last_after_full in H.
  apply H; [done..|by auto|by right|done|done].
Qed.

(** C16: replaying the file of a log from its beginning applies every record
    in order, ends at the end of the file with a clean status and reports the
    number of records, the generation and the last sequence number. *)
Theorem replay_complete host fmt rs store :
  format_ok fmt → records_fit host fmt rs →
  ReplayFromDetailed host (Some (log_image host fmt rs)) 0 store
  = Ok (replay_report fmt 0 rs (if is_v3 fmt then Z.of_nat (length rs) else 0) CleanEof
          (size_of (log_image host fmt rs)),
        apply_records rs store).
Proof. apply ReplayFromDetailed_log. Qed.

(** A replay that starts at the offset where the records [rs1] end, as a
    snapshot records it, applies exactly the records after them. *)
Theorem replay_from_covered_offset host fmt rs1 rs2 store :
  format_ok fmt → records_fit host fmt (rs1 ++ rs2) →
  size_of (log_image host fmt rs1) ≤ streamoff_max →
  ReplayFromDetailed host (Some (log_image host fmt (rs1 ++ rs2)))
    (size_of (log_image host fmt rs1)) store
  = Ok (replay_report fmt (size_of (log_image host fmt rs1)) rs2
          (last_after (is_v3 fmt) (1 + Z.of_nat (length rs1)) 0 rs2) CleanEof
          (size_of (log_image host fmt (rs1 ++ rs2))),
        apply_records rs2 store).
Proof.
  intros Hok Hfit Hmax.
  pose proof (ReplayFromDetailed_image host fmt rs1 rs2 [] CleanEof store
                (size_of (log_image host fmt rs1))) as H.
  rewrite app_nil_r in H. apply H; try done; [by auto|by left].
Qed.

(** The tails at which replay stops, and with which status. *)
Lemma stops_with_torn host fmt offset rs2 last seq r k :
  record_fits host (is_v3 fmt) r → (0 < k < length (record_frame host (is_v3 fmt) seq r))%nat →
  stops_with host fmt offset rs2 last (take k (record_frame host (is_v3 fmt) seq r)) PartialRecord.
Proof.
  intros Hfit%record_fits_size [Hk0 Hk] start gen store cur.
  set (portable := is_v3 fmt) in *. set (rec := record_bytes host portable seq r).
  pose proof (record_size_ge portable r) as Hge. unfold kMaxRecordLength in Hfit.
  assert (size_of rec = record_size portable r) as Hrec by apply size_of_record_bytes.
  unfold replay_frame. cbn [loop_state rs_input rs_cursor].
  unfold record_frame, frame_of in *. fold rec in Hk |- *. rewrite Hrec in *.
  set (l4 := u32_bytes host portable (record_size portable r)) in *.
  set (c4 := u32_bytes host portable (crc32 rec)) in *.
  assert (length l4 = 4%nat ∧ length c4 = 4%nat) as [Hl4 Hc4].
  { pose proof (size_of_u32_bytes host portable (record_size portable r)).
    pose proof (size_of_u32_bytes host portable (crc32 rec)). unfold size_of, l4, c4 in *. lia. }
  destruct (decide (k < 4)%nat) as [Hlt|Hk4].
  { rewrite read_framing_u32_short; [|unfold size_of; rewrite length_take; lia].
    rewrite decide_False; [done|]. intros H%(f_equal length). cbn in H.
    rewrite length_take, !length_app in H. lia. }
  rewrite take_app, Hl4, take_ge by lia. unfold l4 at 1.
  rewrite read_framing_u32_field by lia.
  replace ((record_size portable r =? 0) || (kMaxRecordLength <? record_size portable r)) with false
    by (unfold kMaxRecordLength; zbool).
  destruct (decide (k - 4 < 4)%nat) as [Hlt|Hk8].
  { by rewrite read_framing_u32_short by (unfold size_of; rewrite length_take; lia). }
  rewrite take_app, Hc4, (take_ge c4) by lia. unfold c4 at 1.
  rewrite read_framing_u32_field by apply crc32_range.
  assert (size_of (take (k - 4 - 4) rec) < record_size portable r) as Hshort.
  { unfold size_of in *. rewrite length_take. rewrite !length_app, Hl4, Hc4 in Hk. lia. }
  rewrite input_read_short by done. destruct (Z.eqb_spec (size_of (take (k - 4 - 4) rec)) (record_size portable r)); [lia|].
  done.
Qed.

(** When the last frame was torn by a crash at any byte, replay applies
    every complete record, reports a partial record and the offset where the
    complete records end. *)
Theorem replay_torn_tail host fmt rs r k store :
  format_ok fmt → records_fit host fmt (rs ++ [r]) → (is_v3 fmt = true ∨ rs ≠ []) →
  let frame := record_frame host (is_v3 fmt) (1 + Z.of_nat (length rs)) r in
  (0 < k < length frame)%nat →
  ReplayFromDetailed host (Some (log_image host fmt rs ++ take k frame)) 0 store
  = Ok (replay_report fmt 0 rs (if is_v3 fmt then Z.of_nat (length rs) else 0) PartialRecord
          (size_of (log_image host fmt rs)),
        apply_records rs store).
Proof.
  intros Hok [Hfit Hlen] Hne frame Hk. rewrite Forall_app, Forall_singleton in Hfit.
  destruct Hfit as [Hfit Hr]. rewrite length_app in Hlen. cbn in Hlen.
  pose proof (ReplayFromDetailed_image host fmt [] rs (take k frame) PartialRecord store 0) as H.
  cbn [app length] in H. rewrite last_after_full in H. apply H; try done.
  - split; [done|]. intros Hv. specialize (Hlen Hv). lia.
  - destruct Hne; auto.
  - by right.
  - by apply stops_with_torn.
Qed.

(** A record frame in which some bytes were changed. *)
Definition damaged_frame (host : endianness) (portable : bool) (seq : Z) (r : ParsedRecord)
    (damaged : bytes) : bytes :=
  u32_bytes host portable (record_size portable r)
  ++ u32_bytes host portable (crc32 (record_bytes host portable seq r)) ++ damaged.

Lemma stops_with_damaged host fmt offset rs2 last seq r damaged rest :
  record_fits host (is_v3 fmt) r → length damaged = length (record_bytes host (is_v3 fmt) seq r) →
  crc32 damaged ≠ crc32 (record_bytes host (is_v3 fmt) seq r) →
  stops_with host fmt offset rs2 last
    (damaged_frame host (is_v3 fmt) seq r damaged ++ rest) ChecksumMismatch.
Proof.
  intros Hfit%record_fits_size Hlen Hcrc start gen store cur.
  set (portable := is_v3 fmt) in *. unfold replay_frame, damaged_frame.
  cbn [loop_state rs_input rs_cursor]. unfold kMaxRecordLength in Hfit.
  pose proof (record_size_ge portable r) as Hge.
  pose proof (size_of_record_bytes host portable seq r) as Hrec.
  assert (size_of damaged = record_size portable r) as Hd by (unfold size_of in *; lia).
  rewrite <-!app_assoc, read_framing_u32_field by lia.
  replace ((record_size portable r =? 0) || (kMaxRecordLength <? record_size portable r)) with false
    by (unfold kMaxRecordLength; zbool).
  rewrite read_framing_u32_field by apply crc32_range.
  rewrite input_read_app by done. rewrite Hd, Z.eqb_refl. cbn [negb].
  by destruct (Z.eqb_spec (crc32 damaged) (crc32 (record_bytes host portable seq r))).
Qed.

(** C17: damage to at most four consecutive bytes of a record (sequence,
    opcode, lengths, key or value) anywhere in a log of version 3, and behind the
    first record in a log of version 2, is always detected:
    replay applies exactly the records before it and reports a checksum
    mismatch at its frame, whatever follows. *)
Theorem replay_detects_damage host fmt rs r pre w w' post rest store :
  format_ok fmt → records_fit host fmt (rs ++ [r]) → (is_v3 fmt = true ∨ rs ≠ []) →
  let seq := 1 + Z.of_nat (length rs) in
  record_bytes host (is_v3 fmt) seq r = pre ++ w ++ post →
  length w' = length w → (length w ≤ 4)%nat → w' ≠ w →
  ReplayFromDetailed host
    (Some (log_image host fmt rs
           ++ damaged_frame host (is_v3 fmt) seq r (pre ++ w' ++ post) ++ rest)) 0 store
  = Ok (replay_report fmt 0 rs (if is_v3 fmt then Z.of_nat (length rs) else 0) ChecksumMismatch
          (size_of (log_image host fmt rs)),
        apply_records rs store).
Proof.
  intros Hok [Hfit Hlen] Hne seq Hrec Hw H4 Hneq. rewrite Forall_app, Forall_singleton in Hfit.
  destruct Hfit as [Hfit Hr]. rewrite length_app in Hlen. cbn in Hlen.
  pose proof (ReplayFromDetailed_image host fmt [] rs
    (damaged_frame host (is_v3 fmt) seq r (pre ++ w' ++ post) ++ rest) ChecksumMismatch store 0) as H.
  cbn [app length] in H. rewrite last_after_full in H. apply H; try done.
  - split; [done|]. intros Hv. specialize (Hlen Hv). lia.
  - destruct Hne; auto.
  - by right.
  - apply stops_with_damaged; [done| |]; rewrite Hrec.
    + rewrite !length_app. rewrite Hw; lia.
    + intros Hc. apply crc32_burst in Hc; [done|lia|lia].
Qed.

(** A file that opens as a log is the image of one followed by a tail. *)
Lemma ReplayFromDetailed_decompose host fmt content store :
  opens_as fmt content →
  ∃ rs tail status,
    content = log_image host fmt rs ++ tail ∧ format_ok fmt ∧ records_fit host fmt rs ∧
    ReplayFromDetailed host (Some content) 0 store
    = Ok (replay_report fmt 0 rs (if is_v3 fmt then Z.of_nat (length rs) else 0) status
            (size_of (log_image host fmt rs)), apply_records rs store) ∧
    status ≠ InvalidHeader ∧ (status = CleanEof ↔ tail = []) ∧
    (∀ r rest, record_fits host (is_v3 fmt) r →
       (is_v3 fmt = true → Z.of_nat (length rs) + 1 < 2 ^ 64) →
       tail ≠ record_frame host (is_v3 fmt) (1 + Z.of_nat (length rs)) r ++ rest).
Proof.
  intros Hopen.
  pose proof (ReplayFromDetailed_opens host fmt content 0 store Hopen) as Hrun. cbv zeta in Hrun.
  set (start := begin_offset fmt 0) in *. set (input := drop (Z.to_nat start) content) in *.
  assert (content = format_header fmt ++ input ∧ format_ok fmt ∧ start = size_of (format_header fmt))
    as (Hcontent & Hok & Hstart).
  { destruct fmt as [|g]; [done|]. destruct Hopen as (Hg & body & ->). split_and!; [|done|].
    - done.
    - symmetry. apply size_of_make_header. }
  destruct (replay_loop_decompose host (is_v3 fmt) start 0 (format_generation fmt) store 0 0 start input)
    as (seq & rs & tail & status & Hin & Hfit & Hseq & Hbd & Hb & Hno & Hclean & Hninv & Hloop); [lia..|].
  pose proof (Hrun ltac:(unfold streamoff_max; lia) ltac:(by left) _ Hloop) as Hrep.
  cbn [stop_at rs_result stop_result replay_status loop_state] in *.
  assert (is_v3 fmt = true → rs ≠ [] → seq = 1) as Hs1.
  { intros Hv Hne. specialize (Hb Hne). destruct fmt as [|g]; [done|]. rewrite Hstart in Hb. cbn [format_header] in Hb.
    rewrite size_of_make_header in Hb. unfold bad_sequence in Hb. cbn [andb is_v3] in Hb.
    revert Hb. zbool. }
  assert (log_frames host (is_v3 fmt) seq rs = log_frames host (is_v3 fmt) 1 rs) as Hlf.
  { destruct (is_v3 fmt); [|apply log_frames_v2_seq]. destruct rs; [done|]. by rewrite Hs1. }
  assert (last_after (is_v3 fmt) seq 0 rs = if is_v3 fmt then Z.of_nat (length rs) else 0) as Hla.
  { destruct rs as [|r rs]; [rewrite last_after_nil; by destruct (is_v3 fmt)|].
    rewrite last_after_cons. destruct (is_v3 fmt); [rewrite Hs1 by done; cbn [length]; lia|done]. }
  rewrite Hlf in *. rewrite Hla in Hno. rewrite Hla in Hrep.
  exists rs, tail, status. split_and!.
  - rewrite Hcontent, Hin. unfold log_image. by rewrite <-app_assoc.
  - done.
  - split; [done|]. intros Hv. specialize (Hbd Hv).
    destruct rs as [|r rs]; [cbn; lia|]. rewrite Hs1 in Hbd by done. lia.
  - rewrite Hrep. unfold replay_report, log_image. rewrite size_of_app, <-Hstart. done.
  - done.
  - done.
  - intros r rest Hr Hlen.
    assert (record_frame host (is_v3 fmt) (1 + Z.of_nat (length rs)) r
            = record_frame host (is_v3 fmt) (if is_v3 fmt then 1 + Z.of_nat (length rs) else 0) r)
      as -> by (by destruct (is_v3 fmt)).
    apply Hno; [done| |].
    + destruct (is_v3 fmt); [|lia]. specialize (Hlen eq_refl). lia.
    + destruct fmt as [|g]; [done|]. cbn [is_v3] in *. specialize (Hlen eq_refl).
      unfold bad_sequence, u64. rewrite Hstart. cbn [format_header]. rewrite size_of_make_header.
      rewrite Z.mod_small by lia. cbn [andb]. zbool.
Qed.

(** Whether a frame is accepted depends on the sequence numbers and the bytes
    only. *)
Lemma read_framing_u32_cursor host input c c' portable :
  read_framing_u32 host input c' portable
  = match read_framing_u32 host input c portable with
    | inl (status, _) => inl (status, c')
    | inr (v, _, rest) => inr (v, c' + 4, rest)
    end.
Proof. unfold read_framing_u32. destruct (input_read 4 input). by repeat case_match; simplify_eq. Qed.

Lemma replay_frame_stops host portable offset n last tail :
  (∀ r seq rest, record_fits host portable r → 0 ≤ seq < 2 ^ 64 →
     bad_sequence portable offset n last (if portable then seq else 0) = false →
     tail ≠ record_frame host portable seq r ++ rest) →
  ∃ status, (status = CleanEof ↔ tail = []) ∧ status ≠ InvalidHeader ∧
    ∀ start gen store cur,
      replay_frame host portable offset (loop_state start gen store n last cur tail)
      = inl (stop_at status cur (loop_state start gen store n last cur tail)).
Proof.
  intros Hno.
  destruct (replay_frame host portable offset (loop_state 0 0 ∅ n last 0 tail)) as [s'|s'] eqn:E.
  2: { apply replay_frame_inr in E as (r & seq & rest & -> & Hr & Hs & Hb & _).
       exfalso. by eapply Hno. }
  pose proof E as E'. apply replay_frame_inl in E' as (status & -> & Hcl & Hni).
  exists status. split_and!; [done..|]. intros start gen store cur.
  assert (∀ A B : Type, ∀ a b : A, @inl A B a = inl b → a = b) as Hinj by (intros; by simplify_eq).
  unfold replay_frame in *. cbn [loop_state rs_input rs_cursor rs_result applied_operations last_sequence] in *.
  rewrite (read_framing_u32_cursor host tail 0 cur).
  destruct (read_framing_u32 host tail 0 portable) as [[st stop]|[[len c1] in1]] eqn:E1.
  { apply Hinj, (f_equal (λ s, replay_status (rs_result s))) in E. cbn in E. by subst st. }
  destruct ((len =? 0) || _).
  { apply Hinj, (f_equal (λ s, replay_status (rs_result s))) in E. cbn in E. by subst status. }
  rewrite (read_framing_u32_cursor host in1 c1 (cur + 4)).
  destruct (read_framing_u32 host in1 c1 portable) as [[st stop]|[[crc c2] in2]].
  { apply Hinj, (f_equal (λ s, replay_status (rs_result s))) in E. cbn in E. by subst status. }
  destruct (input_read len in2) as [record rest].
  repeat (match goal with |- context [if ?b then _ else _] => destruct b
          | |- context [match parse_record ?a ?b ?c with _ => _ end] => destruct (parse_record a b c) as [|[]]
          end; [apply Hinj, (f_equal (λ s, replay_status (rs_result s))) in E; cbn in E; by subst status|]).
  done.
Qed.

Lemma ReplayFromDetailed_sound host fmt content :
  opens_as fmt content →
  ∃ rs tail status,
    content = log_image host fmt rs ++ tail ∧ format_ok fmt ∧ records_fit host fmt rs ∧
    status ≠ InvalidHeader ∧ (status = CleanEof ↔ tail = []) ∧
    (∀ r rest, record_fits host (is_v3 fmt) r →
       (is_v3 fmt = true → Z.of_nat (length rs) + 1 < 2 ^ 64) →
       tail ≠ record_frame host (is_v3 fmt) (1 + Z.of_nat (length rs)) r ++ rest) ∧
    ∀ store, ReplayFromDetailed host (Some content) 0 store
    = Ok (replay_report fmt 0 rs (if is_v3 fmt then Z.of_nat (length rs) else 0) status
            (size_of (log_image host fmt rs)), apply_records rs store).
Proof.
  intros Hopen. destruct (ReplayFromDetailed_decompose host fmt content ∅ Hopen)
    as (rs & tail & _ & Hc & Hok & Hfit & _ & _ & _ & Hno).
  destruct (replay_frame_stops host (is_v3 fmt) (begin_offset fmt 0) (Z.of_nat (length rs))
              (if is_v3 fmt then Z.of_nat (length rs) else 0) tail) as (status & Hcl & Hni & Hstop).
  { intros r seq rest Hr Hseq Hb. destruct fmt as [|g]; cbn [is_v3] in *.
    - intros ->. apply (Hno r rest Hr); [done|]. reflexivity.
    - destruct Hfit as [_ Hlen]. cbn [is_v3] in Hlen. specialize (Hlen eq_refl).
      unfold bad_sequence, begin_offset, u64 in Hb. cbn [is_v3 andb Z.eqb] in Hb.
      assert (Z.of_nat (length rs) + 1 < 2 ^ 64 ∧ seq = 1 + Z.of_nat (length rs)) as [Hlt ->].
      { destruct (decide (Z.of_nat (length rs) + 1 < 2 ^ 64)).
        - rewrite Z.mod_small in Hb by lia. revert Hb. zbool.
        - replace (Z.of_nat (length rs) + 1) with (2 ^ 64) in Hb by lia.
          rewrite Z.mod_same in Hb by lia. revert Hb. zbool. }
      by apply Hno. }
  exists rs, tail, status. split_and!; [done..|]. intros store. subst content.
  pose proof (ReplayFromDetailed_opened host fmt [] rs tail status store 0) as H.
  cbn [app length] in H. rewrite last_after_full in H. apply H; try done. by right.
Qed.

(** C15: whatever bytes the file holds, when the header is not rejected it is
    the image of a log followed by a tail; replay applies that log, its status
    is clean exactly when there is no tail, the offsets it reports are the end
    of the log, and no acceptable further record begins in the tail: replay
    accepts the longest prefix of the file that is a log. *)
Theorem replay_sound host content store result store' :
  ReplayFromDetailed host (Some content) 0 store = Ok (result, store') →
  replay_status result ≠ InvalidHeader →
  ∃ fmt rs tail,
    content = log_image host fmt rs ++ tail ∧ format_ok fmt ∧ records_fit host fmt rs ∧
    store' = apply_records rs store ∧
    result = replay_report fmt 0 rs (if is_v3 fmt then Z.of_nat (length rs) else 0)
               (replay_status result) (size_of (log_image host fmt rs)) ∧
    (replay_status result = CleanEof ↔ tail = []) ∧
    (∀ r rest, record_fits host (is_v3 fmt) r →
       (is_v3 fmt = true → Z.of_nat (length rs) + 1 < 2 ^ 64) →
       tail ≠ record_frame host (is_v3 fmt) (1 + Z.of_nat (length rs)) r ++ rest).
Proof.
  intros Hrep Hst. destruct (ReplayFromDetailed_classify _ _ _ _ _ Hrep Hst) as [fmt Hopen].
  destruct (ReplayFromDetailed_sound host fmt content Hopen)
    as (rs & tail & status & Hc & Hok & Hfit & _ & Hclean & Hno & H).
  rewrite H in Hrep. injection Hrep as <- <-. by exists fmt, rs, tail.
Qed.

Lemma replay_loop_total host portable offset s :
  ∃ s', replay_loop (S (length (rs_input s))) host portable offset s = Some s'.
Proof.
  remember (length (rs_input s)) as k eqn:Hk. revert s Hk.
  induction k as [k IH] using lt_wf_ind. intros s Hk. cbn [replay_loop].
  destruct (replay_frame host portable offset s) as [s'|s'] eqn:E; [by eauto|].
  assert (length (rs_input s') < k)%nat as Hlt.
  { unfold replay_frame in E.
    destruct (read_framing_u32 host (rs_input s) _ portable) as [[]|[[len c1] in1]] eqn:E1; [done|].
    apply read_framing_u32_inr in E1 as (Hin & Hlen & ->).
    destruct ((len =? 0) || _) eqn:El; [done|].
    destruct (read_framing_u32 host in1 _ portable) as [[]|[[crc c2] in2]] eqn:E2; [done|].
    apply read_framing_u32_inr in E2 as (-> & _ & ->).
    destruct (input_read len in2) as [record rest] eqn:E3.
    apply input_read_inv in E3 as [-> _]; [|lia].
    rewrite Hk, Hin, !length_app.
    pose proof (size_of_u32_bytes host portable len) as H4. unfold size_of in H4.
    repeat case_match; simplify_eq. cbn [advance rs_input]. lia. }
  destruct (IH _ Hlt s' eq_refl) as [s'' Hs]. exists s''.
  eapply replay_loop_mono; [exact Hs|]. lia.
Qed.

(** The replay loop terminates: from any state it breaks within one turn
    more than there are bytes left in the file, so the bound on the number of
    turns in [replay_from] is never reached. *)
Theorem replay_loop_terminates host portable offset s :
  ∃ s', replay_loop (S (length (rs_input s))) host portable offset s = Some s'.
Proof. apply replay_loop_total. Qed.

(** Any fuel that is enough gives the result of the fuel the code is given. *)
Lemma replay_loop_fuel fuel host portable offset s s' :
  replay_loop fuel host portable offset s = Some s' →
  replay_loop (S (length (rs_input s))) host portable offset s = Some s'.
Proof.
  intros Hrun. destruct (replay_loop_total host portable offset s) as [s'' Hfull].
  destruct (Nat.le_ge_cases fuel (S (length (rs_input s)))) as [Hle|Hle].
  - by apply (replay_loop_mono _ _ _ _ _ _ _ Hrun).
  - apply (replay_loop_mono _ _ _ _ _ _ _ Hfull) in Hle. congruence.
Qed.

Lemma replay_keeps_records host fmt rs garbage store :
  format_ok fmt → records_fit host fmt rs → (is_v3 fmt = true ∨ rs ≠ []) →
  ∃ result more,
    ReplayFromDetailed host (Some (log_image host fmt rs ++ garbage)) 0 store
      = Ok (result, apply_records (rs ++ more) store) ∧
    applied_operations result = Z.of_nat (length (rs ++ more)) ∧
    size_of (log_image host fmt rs) ≤ last_good_offset result ∧
    replay_status result ≠ InvalidHeader.
Proof.
  intros Hok Hfit Hne. set (content := log_image host fmt rs ++ garbage).
  assert (opens_as fmt content) as Hopen
    by (apply opens_as_image; [done..|]; destruct Hne; auto).
  pose proof (covers_begin host fmt 0 [] (or_intror (conj eq_refl eq_refl))) as Hbegin.
  assert (drop (Z.to_nat (begin_offset fmt 0)) content
          = log_frames host (is_v3 fmt) 1 rs ++ garbage) as Hinput.
  { rewrite Hbegin. unfold content, log_image. rewrite app_nil_r, <-app_assoc.
    unfold size_of. by rewrite Nat2Z.id, drop_app_length. }
  destruct Hfit as [Hfit Hlen].
  set (last := last_after (is_v3 fmt) 1 0 rs). set (start := begin_offset fmt 0) in *.
  set (stop := start + size_of (log_frames host (is_v3 fmt) 1 rs)).
  destruct (replay_loop_decompose host (is_v3 fmt) start 0 (format_generation fmt)
              (apply_records rs store) (Z.of_nat (length rs)) last stop garbage)
    as (seq & more & tail & status & Hin & _ & _ & _ & _ & _ & _ & Hst & Hloop); [lia| |].
  { unfold last. pose proof (last_after_full (is_v3 fmt) rs) as Hl. change (1 + Z.of_nat 0) with 1 in Hl.
    rewrite Hl. destruct (is_v3 fmt); [|lia]. specialize (Hlen eq_refl). lia. }
  cbv zeta in Hloop. set (s' := stop_at _ _ _) in Hloop.
  assert (replay_loop (length rs + S (length garbage)) host (is_v3 fmt) start
            (loop_state 0 (format_generation fmt) store 0 0 start
               (log_frames host (is_v3 fmt) 1 rs ++ garbage)) = Some s') as Hrun.
  { rewrite replay_loop_frames; [by rewrite Z.add_0_l|done|lia|lia| |].
    - intros Hv. specialize (Hlen Hv). lia.
    - intros _. apply (first_sequence_ok host fmt 0 []); [by right|done]. }
  pose proof (replay_loop_fuel _ _ _ _ _ _ Hrun) as Hfull.
  exists (rs_result s'), more. cbn [loop_state rs_input] in Hfull.
  rewrite <-Hinput in Hfull. split_and!.
  - rewrite (ReplayFromDetailed_opens host fmt content 0 store Hopen)
      with (s' := s'); [|unfold streamoff_max; lia|by left|done].
    do 2 f_equal. unfold s'. cbn. unfold apply_records. by rewrite foldl_app.
  - unfold s'. cbn. rewrite length_app. lia.
  - unfold s'. cbn. unfold stop, log_image. rewrite size_of_app, Hbegin.
    unfold log_image. cbn [log_frames]. rewrite app_nil_r.
    pose proof (size_of_nonneg (log_frames host (is_v3 fmt) seq more)). lia.
  - done.
Qed.

(** Bytes written after the records of a log, whatever they are, never
    make replay lose one of them: it applies them all, in order, possibly
    followed by further records, and the good offset covers them. *)
Theorem replay_never_loses host fmt rs garbage store :
  format_ok fmt → records_fit host fmt rs → (is_v3 fmt = true ∨ rs ≠ []) →
  ∃ result more,
    ReplayFromDetailed host (Some (log_image host fmt rs ++ garbage)) 0 store
      = Ok (result, apply_records (rs ++ more) store) ∧
    applied_operations result = Z.of_nat (length (rs ++ more)) ∧
    size_of (log_image host fmt rs) ≤ last_good_offset result ∧
    replay_status result ≠ InvalidHeader.
Proof. apply replay_keeps_records. Qed.

(** Replaying a log twice is replaying it once; in particular a log
    replayed on top of a snapshot that already contains all of its effects
    changes nothing. *)
Theorem replay_idempotent host fmt rs store :
  format_ok fmt → records_fit host fmt rs →
  ∃ result result' store',
    ReplayDetailed host (Some (log_image host fmt rs)) store = Ok (result, store') ∧
    ReplayDetailed host (Some (log_image host fmt rs)) store' = Ok (result', store').
Proof.
  intros Hok Hfit. unfold ReplayDetailed.
  eexists _, _, (apply_records rs store). split; [by apply ReplayFromDetailed_log|].
  rewrite ReplayFromDetailed_log by done. by rewrite apply_records_idemp.
Qed.

(** Past the end of the file there is nothing. *)
Lemma replay_past_end host content offset store fmt :
  opens_as fmt content → kHeaderLength ≤ offset ≤ streamoff_max → size_of content ≤ offset →
  ReplayFromDetailed host (Some content) offset store
  = Ok (replay_report fmt offset [] 0 CleanEof offset, store).
Proof.
  intros Hopen [Hlo Hhi] Hpast. unfold kHeaderLength in Hlo.
  assert (begin_offset fmt offset = offset) as Hb
    by (unfold begin_offset; destruct (is_v3 fmt); cbn [andb]; zbool).
  erewrite ReplayFromDetailed_opens; [|done|lia|by right|].
  2: { rewrite Hb. rewrite drop_ge by (unfold size_of in Hpast; lia).
       cbn [length replay_loop]. reflexivity. }
  done.
Qed.

(** The offsets replay refuses or cannot use: one beyond the range of
    stream offsets is an exception; one inside the v3 header is reported as an
    invalid header with nothing to keep; one past the end of the file applies
    nothing, reports a clean end and takes the offset itself as good. *)
Theorem replay_offset_bounds host content offset store :
  (streamoff_max < offset →
     ReplayFromDetailed host (Some content) offset store
     = Exn (runtime_error (str "WAL replay offset is too large"))) ∧
  (looks_portable content = true → content ≠ [] → 0 < offset < kHeaderLength →
     ∃ generation,
     ReplayFromDetailed host (Some content) offset store
     = Ok (stop_result InvalidHeader 0
             (set_offsets 0 (set_generation generation (initial_result offset))), store)) ∧
  (∀ fmt, opens_as fmt content → kHeaderLength ≤ offset ≤ streamoff_max →
     size_of content ≤ offset →
     ReplayFromDetailed host (Some content) offset store
     = Ok (replay_report fmt offset [] 0 CleanEof offset, store)).
Proof.
  split_and!.
  - intros H. unfold ReplayFromDetailed. by destruct (Z.ltb_spec streamoff_max offset); [|lia].
  - intros Hp Hne [Hlo Hhi]. unfold kHeaderLength in Hhi. unfold ReplayFromDetailed.
    destruct (Z.ltb_spec streamoff_max offset) as [Hm|_]; [unfold streamoff_max in Hm; lia|].
    pose proof (input_read_4 content) as Hr. destruct (input_read 4 content) as [prefix rest].
    cbn in Hr. subst prefix.
    destruct (Z.eqb_spec (size_of (take 4 content)) 0) as [H0|_]; [by apply take_4_zero in H0|].
    fold (looks_portable content). rewrite Hp.
    destruct (if _ =? 4 then _ else _) as [valid g]. exists g.
    replace (negb (offset =? 0) && (offset <? kHeaderLength)) with true
      by (unfold kHeaderLength; zbool).
    by rewrite orb_true_r.
  - intros fmt. apply replay_past_end.
Qed.

(** ** Replaying a log whose last write was interrupted *)

(** A prefix of consecutive frames: some whole frames and a proper part of the
    next one. *)
Lemma log_frames_take host portable rs : ∀ n seq,
  ∃ k tail, take n (log_frames host portable seq rs)
            = log_frames host portable seq (take k rs) ++ tail ∧
    (tail = [] ∨ ∃ (r : ParsedRecord) (j : nat), rs !! k = Some r ∧
       tail = take j (record_frame host portable (seq + Z.of_nat k) r) ∧
       (0 < j < length (record_frame host portable (seq + Z.of_nat k) r))%nat).
Proof.
  induction rs as [|r rs IH]; intros n seq.
  { exists O, []. cbn [log_frames take app]. rewrite take_nil. auto. }
  cbn [log_frames]. set (fr := record_frame host portable seq r).
  destruct (decide (length fr ≤ n)%nat) as [Hle|Hlt].
  - destruct (IH (n - length fr)%nat (seq + 1)) as (k & tail & Htake & Htail).
    exists (S k), tail. cbn [take log_frames lookup list_lookup]. fold fr.
    rewrite take_app, (take_ge fr), Htake, <-app_assoc by lia. split; [done|].
    replace (seq + Z.of_nat (S k)) with (seq + 1 + Z.of_nat k) by lia. done.
  - rewrite take_app_le by lia. exists O, (take n fr). cbn [take log_frames app]. split; [done|].
    destruct n as [|n]; [by left|right]. exists r, (S n). rewrite Z.add_0_r. fold fr.
    split_and!; [done..|lia|lia].
Qed.

Lemma looks_portable_take n content :
  looks_portable content = true → looks_portable (take n content) = true.
Proof.
  unfold looks_portable. rewrite !bool_decide_eq_true. intros H.
  rewrite take_take, Nat.min_comm, <-take_take, H, take_take. f_equal.
  rewrite !length_take. change (length kWalMagic) with 4%nat. lia.
Qed.

(** A file shorter than the header that begins like one. *)
Lemma short_no_header content g :
  size_of content < kHeaderLength →
  (if size_of (take 4 content) =? 4 then parse_header content g else (false, g)).1 = false.
Proof.
  intros Hsz. destruct (_ =? 4); [|done]. destruct (parse_header content g) as [[] g'] eqn:E; [exfalso|done].
  apply parse_header_inv in E as (_ & body & ->).
  rewrite size_of_app, size_of_make_header in Hsz. pose proof (size_of_nonneg body). lia.
Qed.

Lemma replay_short_header host content offset store :
  looks_portable content = true → content ≠ [] → size_of content < kHeaderLength →
  offset ≤ streamoff_max →
  ∃ result, ReplayFromDetailed host (Some content) offset store = Ok (result, store) ∧
            applied_operations result = 0 ∧ replay_status result = InvalidHeader ∧
            last_good_offset result = 0.
Proof.
  intros Hp Hne Hsz Hoff. unfold ReplayFromDetailed. destruct (Z.ltb_spec streamoff_max offset); [lia|].
  pose proof (input_read_4 content) as Hr. destruct (input_read 4 content) as [prefix rest].
  cbn in Hr. subst prefix.
  destruct (Z.eqb_spec (size_of (take 4 content)) 0) as [H0|_]; [by apply take_4_zero in H0|].
  fold (looks_portable content). rewrite Hp.
  match goal with |- context [if _ =? 4 then parse_header _ ?g0 else _] => pose proof (short_no_header content g0 Hsz) as Hs end.
  destruct (if _ =? 4 then _ else _) as [valid g]. cbn in Hs. subst valid. by eexists.
Qed.

Lemma records_fit_prefix host fmt rs new k :
  records_fit host fmt (rs ++ new) → records_fit host fmt (rs ++ take k new).
Proof.
  intros [Hf Hl]. rewrite Forall_app, length_app in *. split.
  - rewrite Forall_app. split; [apply Hf|apply Forall_take, Hf].
  - intros Hv. specialize (Hl Hv). rewrite length_app, length_take. lia.
Qed.

Lemma opens_as_torn_v2 host seq r j :
  record_fits host false r → (0 < j)%nat →
  let torn := take j (record_frame host false seq r) in
  opens_as V2 torn ∨ (looks_portable torn = true ∧ torn ≠ [] ∧ size_of torn < kHeaderLength).
Proof.
  intros Hfit Hj torn. unfold opens_as. destruct (looks_portable torn) eqn:Hp; [right|by auto].
  pose proof (size_of_frame host false seq r) as Hsz. pose proof (record_size_ge false r).
  destruct (decide (4 ≤ j)%nat) as [H4|H4].
  - exfalso. pose proof (v2_frame_not_portable host seq r [] Hfit) as Hn.
    rewrite app_nil_r in Hn. unfold looks_portable, torn in *.
    rewrite take_take, Nat.min_l in Hp by lia. congruence.
  - split_and!; [done| |]; unfold torn.
    + intros H0%(f_equal length). rewrite length_take in H0. unfold size_of in Hsz. cbn [length] in H0. lia.
    + unfold size_of, kHeaderLength. rewrite length_take. lia.
Qed.

(** The file of the log [rs] whose last write was interrupted: replays stop at the
    end of [rs]. Too few bytes for a header are a log without records. *)
Definition torn_image (host : endianness) (fmt : log_format) (rs : list ParsedRecord) (content : bytes) : Prop :=
  (∃ tail status, content = log_image host fmt rs ++ tail ∧ opens_as fmt content ∧
     (status = CleanEof ↔ tail = []) ∧ ∀ offset rs2 last, stops_with host fmt offset rs2 last tail status) ∨
  (rs = [] ∧ looks_portable content = true ∧ size_of content < kHeaderLength).

Lemma torn_image_log host fmt rs :
  format_ok fmt → records_fit host fmt rs → torn_image host fmt rs (log_image host fmt rs).
Proof.
  intros Hok Hfit. left. exists [], CleanEof. rewrite app_nil_r. split; [done|]. split; [|done].
  rewrite <-(app_nil_r (log_image _ _ _)). apply opens_as_image; auto.
Qed.

(** Too short to be a log at all. *)
Lemma torn_image_nil host fmt : torn_image host fmt [] [].
Proof. by right. Qed.

(** A replay from the end of [rs1] finds the records after it. *)
Lemma torn_image_replays host fmt rs1 rs2 content offset store :
  torn_image host fmt (rs1 ++ rs2) content → records_fit host fmt (rs1 ++ rs2) →
  covers host fmt offset rs1 → offset ≤ streamoff_max →
  ∃ result, ReplayFromDetailed host (Some content) offset store = Ok (result, apply_records rs2 store) ∧
            applied_operations result = Z.of_nat (length rs2).
Proof.
  intros [(tail & status & -> & Hopen & _ & Hstop)|(Hnil & Hp & Hs)] Hfit Hcov Hoff.
  - eexists. rewrite (ReplayFromDetailed_opened host fmt rs1 rs2 tail status); done.
  - apply app_eq_nil in Hnil as [-> ->]. destruct (decide (content = [])) as [->|Hne].
    + unfold ReplayFromDetailed. destruct (Z.ltb_spec streamoff_max offset); [lia|]. by eexists.
    + destruct (replay_short_header host content offset store) as (result & Hr & Hn & _); [done..|].
      by exists result.
Qed.

(** Whatever prefix of the frames of [new] reached the file, it has the old records
    and some of the new ones. *)
Lemma torn_image_take host fmt rs new n :
  format_ok fmt → records_fit host fmt (rs ++ new) →
  ∃ k, torn_image host fmt (rs ++ take k new)
         (log_image host fmt rs ++ take n (log_frames host (is_v3 fmt) (1 + Z.of_nat (length rs)) new)).
Proof.
  intros Hok Hfit.
  destruct (log_frames_take host (is_v3 fmt) new n (1 + Z.of_nat (length rs)))
    as (k & tail & -> & Htail).
  exists k. pose proof (records_fit_prefix _ _ _ _ k Hfit) as Hfit'. rewrite app_assoc, <-log_image_app.
  destruct Htail as [->|(r & j & Hr & -> & Hj)]; [rewrite app_nil_r; by apply torn_image_log|].
  assert (record_fits host (is_v3 fmt) r) as Hrf.
  { destruct Hfit as [Hf _]. rewrite Forall_app in Hf. destruct Hf as [_ Hf].
    rewrite Forall_forall in Hf. apply Hf. by eapply list_elem_of_lookup_2. }
  set (seq := 1 + Z.of_nat (length rs) + Z.of_nat k) in *. set (rs' := rs ++ take k new) in *.
  set (tail := take j (record_frame host (is_v3 fmt) seq r)).
  assert (opens_as fmt (log_image host fmt rs' ++ tail) ∨
          (looks_portable tail = true ∧ size_of tail < kHeaderLength ∧ log_image host fmt rs' = [] ∧ rs' = []))
    as [Hopen|(Hp & Hs & Himg & Hnil)].
  { destruct fmt as [|g]; [|left; by apply opens_as_image; auto].
    destruct (decide (rs' = [])) as [Hnil|Hne]; [|left; by apply opens_as_image; auto].
    rewrite Hnil. destruct (opens_as_torn_v2 host seq r j) as [?|(? & ? & ?)]; [done|lia|by left|by right]. }
  - left. exists tail, PartialRecord. split; [done|]. split; [done|]. split.
    + split; [done|]. intros H0%(f_equal length). unfold tail in H0. rewrite length_take in H0. cbn in H0. lia.
    + intros offset rs2 last. by apply stops_with_torn.
  - right. by rewrite Himg.
Qed.
