(* ===== verification/WalLog.v ===== *)
(** * The write-ahead log object: class [WriteAheadLog] of
    [include/persistence/wal.h] and [src/persistence/wal.cpp]

    The state of the object and every member function: construction, append
    under the three durability policies, the current offset, clearing, rotation,
    truncation and recovery. *)

From S2P Require Import Prelude Machine BinaryIO Crc WalFormat WalReplay.

(** ** State *)

Inductive DurabilityPolicy := Buffered | Sync | GroupCommit.

Inductive WalFaultPoint := AfterWriteBeforeSync | AfterSync | BeforeTruncate.

#[global] Instance DurabilityPolicy_eq_dec : EqDecision DurabilityPolicy.
Proof. solve_decision. Defined.

Record WalStats := {
  records : Z;
  sync_calls : Z;
  batch_histogram : list Z
}.

(** A queued request: the frame, and the identity of the shared object its
    submitter waits on. *)
Record Pending := {
  pending_id : nat;
  pending_frame : bytes
}.

(** The fields set at construction and never changed. *)
Record wal_config := {
  path_ : bytes;
  policy_ : DurabilityPolicy;
  max_batch_ : Z;
  max_delay_us_ : Z;
  fault_hook_ : bool
}.

(** The fields that describe the file. *)
Record wal_format := {
  legacy_v2_ : bool;
  header_pending_ : bool;
  format_valid_ : bool;
  needs_recovery_ : bool;
  generation_ : Z;
  next_sequence_ : Z
}.

(** The fields guarded by [queue_mutex_], and for every submitted request that
    is complete the error its submitter finds. *)
Record wal_queue := {
  queue_ : list Pending;
  stopping_ : bool;
  next_id : nat;
  completed : gmap nat (option exn)
}.

Record WriteAheadLog := {
  config : wal_config;
  output_ : ofstream;
  sync_fd_ : bool;
  format : wal_format;
  stats_ : WalStats;
  queue : wal_queue;
  failure_ : option exn
}.

Record wal_state := WalState { wal : WriteAheadLog; os : world }.

Definition default_format : wal_format :=
  {| legacy_v2_ := false; header_pending_ := false; format_valid_ := true;
     needs_recovery_ := false; generation_ := 1; next_sequence_ := 1 |}.

Definition set_output (o : ofstream) (w : WriteAheadLog) : WriteAheadLog :=
  {| config := config w; output_ := o; sync_fd_ := sync_fd_ w; format := format w;
     stats_ := stats_ w; queue := queue w; failure_ := failure_ w |}.
Definition set_format (f : wal_format) (w : WriteAheadLog) : WriteAheadLog :=
  {| config := config w; output_ := output_ w; sync_fd_ := sync_fd_ w; format := f;
     stats_ := stats_ w; queue := queue w; failure_ := failure_ w |}.
Definition set_stats (st : WalStats) (w : WriteAheadLog) : WriteAheadLog :=
  {| config := config w; output_ := output_ w; sync_fd_ := sync_fd_ w; format := format w;
     stats_ := st; queue := queue w; failure_ := failure_ w |}.
Definition set_queue (q : wal_queue) (w : WriteAheadLog) : WriteAheadLog :=
  {| config := config w; output_ := output_ w; sync_fd_ := sync_fd_ w; format := format w;
     stats_ := stats_ w; queue := q; failure_ := failure_ w |}.
Definition set_failure (e : option exn) (w : WriteAheadLog) : WriteAheadLog :=
  {| config := config w; output_ := output_ w; sync_fd_ := sync_fd_ w; format := format w;
     stats_ := stats_ w; queue := queue w; failure_ := e |}.
Definition set_sync_fd (b : bool) (w : WriteAheadLog) : WriteAheadLog :=
  {| config := config w; output_ := output_ w; sync_fd_ := b; format := format w;
     stats_ := stats_ w; queue := queue w; failure_ := failure_ w |}.

Definition set_header_pending (b : bool) (f : wal_format) : wal_format :=
  {| legacy_v2_ := legacy_v2_ f; header_pending_ := b; format_valid_ := format_valid_ f;
     needs_recovery_ := needs_recovery_ f; generation_ := generation_ f;
     next_sequence_ := next_sequence_ f |}.
Definition set_next_sequence (n : Z) (f : wal_format) : wal_format :=
  {| legacy_v2_ := legacy_v2_ f; header_pending_ := header_pending_ f;
     format_valid_ := format_valid_ f; needs_recovery_ := needs_recovery_ f;
     generation_ := generation_ f; next_sequence_ := n |}.
Definition set_recovered (f : wal_format) : wal_format :=
  {| legacy_v2_ := legacy_v2_ f; header_pending_ := header_pending_ f;
     format_valid_ := format_valid_ f; needs_recovery_ := false;
     generation_ := generation_ f; next_sequence_ := next_sequence_ f |}.
(** What [Clear] leaves: an empty file of the next generation. *)
Definition next_generation (f : wal_format) : wal_format :=
  {| legacy_v2_ := false; header_pending_ := true; format_valid_ := true;
     needs_recovery_ := false; generation_ := u64 (generation_ f + 1); next_sequence_ := 1 |}.

Definition on_wal (f : WriteAheadLog → WriteAheadLog) : M wal_state unit :=
  modify (λ s, {| wal := f (wal s); os := os s |}).
Definition on_os {A} (m : M world A) : M wal_state A :=
  zoom os (λ w s, {| wal := wal s; os := w |}) m.
Definition of_res {S A} (r : res A) : M S A :=
  match r with Ok a => ret a | Exn e => throw e end.
Definition the_path : M wal_state bytes := gets (λ s, path_ (config (wal s))).

(** ** Writing to the file *)

Definition call_fault_hook (point : WalFaultPoint) : M wal_state unit :=
  let! hook := gets (λ s, fault_hook_ (config (wal s))) in
  on_os (call_hook hook).

(** [output_.write(data); output_.flush(); if (!output_) throw]. *)
Definition write_and_flush (data what : bytes) : M wal_state unit :=
  let! o := gets (λ s, output_ (wal s)) in
  let! o := on_os (ofs_flush (ofs_write data o)) in
  on_wal (set_output o) ;;;
  if ofs_good o then ret tt else throw (runtime_error what).

Definition count_sync (st : WalStats) : WalStats :=
  {| records := records st; sync_calls := sync_calls st + 1;
     batch_histogram := batch_histogram st |}.
Definition count_records (n : Z) (st : WalStats) : WalStats :=
  {| records := records st + n; sync_calls := sync_calls st;
     batch_histogram := batch_histogram st |}.
Definition count_batch (n : nat) (st : WalStats) : WalStats :=
  {| records := records st; sync_calls := sync_calls st;
     batch_histogram := alter (Z.add 1) n (batch_histogram st) |}.
Definition on_stats (f : WalStats → WalStats) : M wal_state unit :=
  on_wal (λ w, set_stats (f (stats_ w)) w).

Definition SyncLocked : M wal_state unit :=
  let! fd := gets (λ s, sync_fd_ (wal s)) in
  if negb fd then ret tt
  else
    let! path := the_path in
    let! err := on_os (fs_fdatasync_loop path) in
    match err with
    | Some errno => throw (system_error errno (str "fdatasync WAL"))
    | None => on_stats count_sync
    end.

Definition EnsureHeaderLocked : M wal_state unit :=
  let! f := gets (λ s, format (wal s)) in
  if legacy_v2_ f || negb (header_pending_ f) then ret tt
  else
    write_and_flush (make_header (generation_ f)) (str "failed to write WAL header") ;;;
    on_wal (λ w, set_format (set_header_pending false (format w)) w).

Definition FinalizeFrameLocked (frame : bytes) : M wal_state bytes :=
  let! f := gets (λ s, format (wal s)) in
  if legacy_v2_ f then ret frame
  else if next_sequence_ f =? u64_max
  then throw (runtime_error (str "WAL sequence is exhausted"))
  else
    on_wal (set_format (set_next_sequence (u64 (next_sequence_ f + 1)) f)) ;;;
    ret (finalize_frame (next_sequence_ f) frame).

Definition WriteFrameLocked (frame : bytes) : M wal_state unit :=
  EnsureHeaderLocked ;;;
  let! frame := FinalizeFrameLocked frame in
  write_and_flush frame (str "failed to write WAL frame") ;;;
  call_fault_hook AfterWriteBeforeSync ;;;
  on_stats (count_records 1).

(** ** Group commit: the queue and the ordered writer *)

Definition set_pendings (q : list Pending) (wq : wal_queue) : wal_queue :=
  {| queue_ := q; stopping_ := stopping_ wq; next_id := next_id wq; completed := completed wq |}.
Definition push_pending (frame : bytes) (wq : wal_queue) : wal_queue :=
  {| queue_ := queue_ wq ++ [{| pending_id := next_id wq; pending_frame := frame |}];
     stopping_ := stopping_ wq; next_id := S (next_id wq); completed := completed wq |}.
Definition set_stopping (wq : wal_queue) : wal_queue :=
  {| queue_ := queue_ wq; stopping_ := true; next_id := next_id wq; completed := completed wq |}.
(** [request->error = error; request->complete = true]. *)
Definition complete_all (batch : list Pending) (error : option exn) (wq : wal_queue) : wal_queue :=
  {| queue_ := queue_ wq; stopping_ := stopping_ wq; next_id := next_id wq;
     completed := foldl (λ m p, <[pending_id p := error]> m) (completed wq) batch |}.

(** The checks of every append, under the lock. *)
Definition check_appendable : M wal_state unit :=
  let! w := gets wal in
  match failure_ w with
  | Some e => throw e
  | None =>
      if negb (format_valid_ (format w)) || needs_recovery_ (format w)
      then throw (runtime_error (str "WAL requires recovery before append"))
      else ret tt
  end.

(** [queue_.push_back(pending)]: the identity of the request. *)
Definition enqueue (frame : bytes) : M wal_state nat :=
  check_appendable ;;;
  let! id := gets (λ s, next_id (queue (wal s))) in
  on_wal (λ w, set_queue (push_pending frame (queue w)) w) ;;;
  ret id.

(** The loop that moves requests from the queue to the batch. *)
Fixpoint take_batch (max_batch batch_bytes : Z) (batch q : list Pending)
    : list Pending * list Pending :=
  match q with
  | [] => (batch, [])
  | p :: q' =>
      if Z.of_nat (length batch) <? max_batch then
        let next_bytes := size_of (pending_frame p) in
        if negb (bool_decide (batch = [])) && (kMaxBatchBytes <? batch_bytes + next_bytes)
        then (batch, q)
        else take_batch max_batch (batch_bytes + next_bytes) (batch ++ [p]) q'
      else (batch, q)
  end.

(** Finalizes the frames in order and joins them. *)
Fixpoint finalize_batch (frames : bytes) (batch : list Pending) : M wal_state bytes :=
  match batch with
  | [] => ret frames
  | p :: batch =>
      let! frame := FinalizeFrameLocked (pending_frame p) in
      finalize_batch (frames ++ frame) batch
  end.

(** The [try] block of [WriterLoop]. *)
Definition write_batch (batch : list Pending) : M wal_state unit :=
  EnsureHeaderLocked ;;;
  let! frames := finalize_batch [] batch in
  write_and_flush frames (str "failed to write WAL batch") ;;;
  call_fault_hook AfterWriteBeforeSync ;;;
  on_stats (count_records (Z.of_nat (length batch))) ;;;
  SyncLocked ;;;
  call_fault_hook AfterSync ;;;
  on_stats (count_batch (length batch)).

(** Its handler: the failure is recorded and the whole queue joins the batch. *)
Definition fail_queue (e : exn) : M wal_state (list Pending) :=
  let! q := gets (λ s, queue_ (queue (wal s))) in
  on_wal (set_failure (Some e)) ;;;
  on_wal (λ w, set_queue (set_pendings [] (queue w)) w) ;;;
  ret q.

(** From the batch to the waiters: whether the writer goes on. *)
Definition commit_batch (batch : list Pending) : M wal_state bool :=
  let! outcome :=
    catch (write_batch batch ;;; ret (None, batch))
          (λ e, let! q := fail_queue e in ret (Some e, batch ++ q)) in
  on_wal (λ w, set_queue (complete_all outcome.2 outcome.1 (queue w)) w) ;;;
  ret (negb (bool_decide (is_Some outcome.1))).

(** Takes a batch off the queue. *)
Definition form_batch : M wal_state (list Pending) :=
  let! w := gets wal in
  let (batch, rest) := take_batch (max_batch_ (config w)) 0 [] (queue_ (queue w)) in
  on_wal (λ w, set_queue (set_pendings rest (queue w)) w) ;;;
  ret batch.

(** One turn of [WriterLoop] with requests in the queue. *)
Definition writer_turn : M wal_state bool :=
  let! batch := form_batch in commit_batch batch.

(** The submitter's wait, once its request is complete. *)
Definition await (id : nat) : M wal_state unit :=
  let! c := gets (λ s, completed (queue (wal s))) in
  match c !! id with
  | Some (Some e) => throw e
  | _ => ret tt
  end.

(** ** Appending *)

(** [AppendPayload]. Under [GroupCommit] this is the schedule in which the writer
    serves the request before another one is submitted. *)
Definition AppendPayload (host : endianness) (payload : bytes) : M wal_state unit :=
  let! w := gets wal in
  let! frame := of_res (PrepareFrame host (legacy_v2_ (format w)) payload) in
  if bool_decide (policy_ (config w) ≠ GroupCommit) then
    check_appendable ;;;
    catch
      (WriteFrameLocked frame ;;;
       when (bool_decide (policy_ (config w) = Sync))
         (SyncLocked ;;;
          call_fault_hook AfterSync ;;;
          on_stats (count_batch 1)))
      (λ e, on_wal (set_failure (Some e)) ;;; throw e)
  else
    let! id := enqueue frame in
    writer_turn ;;;
    await id.

Definition AppendSet (host : endianness) (key value : bytes) : M wal_state unit :=
  let! legacy := gets (λ s, legacy_v2_ (format (wal s))) in
  let! key_size := of_res (CheckedSize key (str "WAL key")) in
  let! value_size := of_res (CheckedSize value (str "WAL value")) in
  of_res (checked_record_length
            (1 + 4 + key_size + 4 + value_size + (if legacy then 0 else 8))) ;;;
  AppendPayload host (set_payload host legacy key value).

Definition AppendDelete (host : endianness) (key : bytes) : M wal_state unit :=
  let! legacy := gets (λ s, legacy_v2_ (format (wal s))) in
  let! key_size := of_res (CheckedSize key (str "WAL key")) in
  of_res (checked_record_length (1 + 4 + key_size + (if legacy then 0 else 8))) ;;;
  AppendPayload host (delete_payload host legacy key).

(** ** Offsets, clearing, truncation *)

Definition CurrentOffset : M wal_state Z :=
  let! o := gets (λ s, output_ (wal s)) in
  let! o := on_os (ofs_flush o) in
  on_wal (set_output o) ;;;
  if negb (ofs_good o)
  then throw (runtime_error (str "failed to flush WAL before reading offset")) else
  let! ok := on_os (ofs_seek_end o) in
  if negb ok then
    on_wal (set_output (ofs_set_good false o)) ;;;
    throw (runtime_error (str "failed to seek WAL output stream"))
  else
    let! position := on_os (ofs_tellp o) in
    match position with
    | None => throw (runtime_error (str "failed to read WAL offset"))
    | Some n => ret n
    end.

(** [output_.close(); output_.clear()]. *)
Definition close_output : M wal_state unit :=
  let! o := gets (λ s, output_ (wal s)) in
  let! o := on_os (ofs_close o) in
  on_wal (set_output (ofs_clear o)).

(** [output_.open(path_, app)], with its check. *)
Definition reopen_output : M wal_state unit :=
  let! path := the_path in
  let! o := on_os (ofs_open_app path) in
  on_wal (set_output o) ;;;
  if negb (ofs_is_open o)
  then throw (runtime_error (str "failed to reopen WAL file: " ++ path)) else ret tt.

Definition sync_unless_buffered : M wal_state unit :=
  let! policy := gets (λ s, policy_ (config (wal s))) in
  when (bool_decide (policy ≠ Buffered)) SyncLocked.

Definition Clear : M wal_state unit :=
  call_fault_hook BeforeTruncate ;;;
  let! generation := gets (λ s, generation_ (format (wal s))) in
  (if generation =? u64_max
   then throw (runtime_error (str "WAL generation is exhausted")) else ret tt) ;;;
  close_output ;;;
  let! path := the_path in
  let! truncated := on_os (ofs_open_trunc path) in
  (if negb (ofs_is_open truncated)
   then throw (runtime_error (str "failed to truncate WAL file: " ++ path)) else ret tt) ;;;
  let! truncated := on_os (ofs_flush truncated) in
  (if negb (ofs_good truncated)
   then throw (runtime_error (str "failed to clear WAL file: " ++ path)) else ret tt) ;;;
  reopen_output ;;;
  on_wal (λ w, set_format (next_generation (format w)) w) ;;;
  sync_unless_buffered.

Definition Rotate : M wal_state unit := Clear.

(** The update of the format fields after a truncation of a v3 file. *)
Definition truncated_format (host : endianness) (offset : Z) : M wal_state unit :=
  let! f := gets (λ s, format (wal s)) in
  if legacy_v2_ f then ret tt
  else if offset =? 0 then
    on_wal (set_format
      {| legacy_v2_ := false; header_pending_ := true; format_valid_ := true;
         needs_recovery_ := needs_recovery_ f;
         generation_ := u64 (generation_ f + 1); next_sequence_ := 1 |})
  else
    let! path := the_path in
    let! file := gets (λ s, file_contents path (os s)) in
    let! replay := of_res (ReplayFromDetailed host file 0 ∅) in
    if negb (bool_decide (replay_status replay.1 = CleanEof))
       || (last_sequence replay.1 =? u64_max)
    then throw (runtime_error (str "WAL truncation did not leave a valid prefix"))
    else on_wal (λ w, set_format
                        (set_next_sequence (u64 (last_sequence replay.1 + 1)) (format w)) w).

Definition TruncateTo (host : endianness) (offset : Z) : M wal_state unit :=
  call_fault_hook BeforeTruncate ;;;
  let! f := gets (λ s, format (wal s)) in
  (if negb (legacy_v2_ f) && (offset =? 0) && (generation_ f =? u64_max)
   then throw (runtime_error (str "WAL generation is exhausted")) else ret tt) ;;;
  close_output ;;;
  let! path := the_path in
  let! file_size := on_os (fs_exists_size path) in
  match file_size with
  | None =>
      throw (runtime_error (str "failed to inspect WAL file before truncation: " ++ path))
  | Some file_size =>
      (if file_size <? offset
       then throw (runtime_error (str "WAL truncation offset is past EOF")) else ret tt) ;;;
      let! ok := on_os (fs_resize_file path offset) in
      (if negb ok
       then throw (runtime_error (str "failed to truncate WAL file: " ++ path)) else ret tt) ;;;
      reopen_output ;;;
      truncated_format host offset ;;;
      on_wal (λ w, set_format (set_recovered (format w)) w) ;;;
      sync_unless_buffered
  end.

(** [v] is what the replay gets to see; the one of [TruncateTo] sees the whole file. *)
Definition ReplayFromAndTruncate_seeing (v : view) (host : endianness) (offset : Z) (store : gmap bytes bytes)
    : M wal_state (WalReplayResult * gmap bytes bytes) :=
  let! path := the_path in
  let! file := gets (λ s, seen v (file_contents path (os s))) in
  let! replay := of_res (ReplayFromDetailed host file offset store) in
  if negb (bool_decide (replay_status replay.1 = CleanEof)) then
    TruncateTo host (last_good_offset replay.1) ;;;
    ret (set_truncated replay.1, replay.2)
  else ret replay.

Definition ReplayFromAndTruncate : endianness → Z → gmap bytes bytes →
    M wal_state (WalReplayResult * gmap bytes bytes) := ReplayFromAndTruncate_seeing Whole.

(** ** Statistics, construction, destruction *)

Definition GetStats : M wal_state WalStats := gets (λ s, stats_ (wal s)).

Definition zero_stats (max_batch : Z) : WalStats :=
  {| records := 0; sync_calls := 0;
     batch_histogram := replicate (Z.to_nat (max_batch + 1)) 0 |}.

Definition ResetStats : M wal_state unit :=
  on_wal (λ w, set_stats (zero_stats (max_batch_ (config w))) w).

(** The scheduler is asked; the call sets nothing in the object. *)
Definition PinWriterToCpu (cpu : Z) : M wal_state unit :=
  let! c := gets (λ s, config (wal s)) in
  match policy_ c with
  | GroupCommit =>
      let! error := on_os (fs_call id) in
      match error with
      | Some errno => throw (system_error errno (str "pin WAL writer"))
      | None => ret tt
      end
  | _ => ret tt
  end.

Definition sync_wal_directory : M world unit :=
  sync_parent_directory (str "open WAL directory") (str "sync WAL directory").

(** The format fields the constructor computes from the size of the file, from what
    its own stream sees of it and from what the replay sees. *)
Definition inspect_seen (host : endianness) (file_size : Z) (input replayed : option bytes) : res wal_format :=
  if file_size =? 0 then
    Ok (set_header_pending true default_format)
  else
  let content := default [] input in
  let prefix_size := size_of (take 4 content) in
  if negb (prefix_size =? 0) && looks_portable content then
    let (valid, generation) :=
      if prefix_size =? 4 then parse_header content 1 else (false, 1) in
    if valid then
      match ReplayFromDetailed host replayed 0 ∅ with
      | Exn e => Exn e
      | Ok (replay, _) =>
          if last_sequence replay =? u64_max
          then Exn (runtime_error (str "WAL sequence is exhausted"))
          else Ok {| legacy_v2_ := false; header_pending_ := false; format_valid_ := true;
                     needs_recovery_ := negb (bool_decide (replay_status replay = CleanEof));
                     generation_ := generation;
                     next_sequence_ := u64 (last_sequence replay + 1) |}
      end
    else Ok {| legacy_v2_ := false; header_pending_ := false; format_valid_ := false;
               needs_recovery_ := false; generation_ := 0; next_sequence_ := 1 |}
  else
    match ReplayFromDetailed host replayed 0 ∅ with
    | Exn e => Exn e
    | Ok (replay, _) =>
        Ok {| legacy_v2_ := true; header_pending_ := false; format_valid_ := true;
              needs_recovery_ := negb (bool_decide (replay_status replay = CleanEof));
              generation_ := 0; next_sequence_ := 1 |}
    end.

(** When both see the whole file. *)
Definition inspect_file (host : endianness) (content : bytes) : res wal_format :=
  inspect_seen host (size_of content) (Some content) (Some content).

(** The constructor; [v1] and [v2] are what its stream and the replay get to see. *)
Definition open_wal_seeing (v1 v2 : view) (host : endianness) (c : wal_config) : M world WriteAheadLog :=
  let path := path_ c in
  let! output := ofs_open_app path in
  (if negb (ofs_is_open output)
   then throw (runtime_error (str "failed to open WAL file: " ++ path)) else ret tt) ;;;
  (if (max_batch_ c =? 0) || (4096 <? max_batch_ c)
   then throw (invalid_argument (str "WAL max_batch must be in [1, 4096]")) else ret tt) ;;;
  let! file_size := fs_file_size path in
  match file_size with
  | None => throw (runtime_error (str "failed to inspect WAL file: " ++ path))
  | Some _ =>
      let! content := gets (λ w, default [] (file_contents path w)) in
      let! f := of_res (inspect_seen host (size_of content) (seen v1 (Some content)) (seen v2 (Some content))) in
      (if bool_decide (policy_ c ≠ Buffered) then
         let! opened := fs_call id in
         match opened with
         | Some errno => throw (system_error errno (str "open WAL sync fd"))
         | None =>
             sync_wal_directory
         end
       else ret tt) ;;;
      ret {| config := c; output_ := output; sync_fd_ := bool_decide (policy_ c ≠ Buffered);
             format := f; stats_ := zero_stats (max_batch_ c);
             queue := {| queue_ := []; stopping_ := false; next_id := 0; completed := ∅ |};
             failure_ := None |}
  end.

Definition open_wal : endianness → wal_config → M world WriteAheadLog := open_wal_seeing Whole Whole.

(** The destructor: the writer drains the queue, the descriptor and the stream
    are closed. *)
Fixpoint drain_queue (turns : nat) : M wal_state unit :=
  match turns with
  | O => ret tt
  | S turns =>
      let! q := gets (λ s, queue_ (queue (wal s))) in
      match q with
      | [] => ret tt
      | _ =>
          let! go_on := writer_turn in
          if go_on then drain_queue turns else ret tt
      end
  end.

Definition close_wal : M wal_state unit :=
  on_wal (λ w, set_queue (set_stopping (queue w)) w) ;;;
  let! q := gets (λ s, queue_ (queue (wal s))) in
  drain_queue (length q) ;;;
  on_wal (set_sync_fd false) ;;;
  let! o := gets (λ s, output_ (wal s)) in
  let! o := on_os (ofs_close o) in
  on_wal (set_output o).

(** ** Symbolic execution of members *)

Section wp_members.
  Context {A : Type}.
  Implicit Types (Q : A → wal_state → Prop) (E : exn → wal_state → Prop).

Lemma wp_on_os (m : M world A) Q E s :
  wp m (λ a w, Q a (WalState (wal s) w)) (λ e w, E e (WalState (wal s) w)) (os s) →
  wp (on_os m) Q E s.
Proof. intros H. apply wp_zoom. exact H. Qed.

Lemma wp_of_res (r : res A) Q E (s : wal_state) :
  (∀ a, r = Ok a → Q a s) → (∀ e, r = Exn e → E e s) → wp (of_res r) Q E s.
Proof. destruct r; cbn; unfold wp, ret, throw; auto. Qed.

End wp_members.

Lemma wp_on_wal f (Q : unit → wal_state → Prop) E s :
  Q tt (WalState (f (wal s)) (os s)) → wp (on_wal f) Q E s.
Proof. done. Qed.

Lemma set_output_id w : set_output (output_ w) w = w.
Proof. by destruct w. Qed.

(** Runs the administrative prefix of a member. *)
Ltac wal_step :=
  lazymatch goal with
  | |- wp (on_os _) _ _ _ => apply wp_on_os
  | |- wp (on_wal _) _ _ _ => apply wp_on_wal
  | |- wp the_path _ _ _ => apply wp_gets
  | |- wp (on_stats _) _ _ _ => apply wp_on_wal
  | |- wp (call_fault_hook _) _ _ _ => apply wp_bind, wp_gets
  | _ => wp_step
  end; cbn beta.
Ltac wal_steps := repeat wal_step; cbn [wal os] in *.

(** ** The object and its file *)

Definition wal_fmt (f : wal_format) : log_format :=
  if legacy_v2_ f then V2 else V3 (generation_ f).

(** The header that the next append writes first. *)
Definition pending_header (f : wal_format) : bytes :=
  if negb (legacy_v2_ f) && header_pending_ f then make_header (generation_ f) else [].

(** The bytes of the file when the log holds [rs]: a header that is pending is
    not there yet. *)
Definition wal_image (host : endianness) (f : wal_format) (rs : list ParsedRecord) : bytes :=
  if negb (legacy_v2_ f) && header_pending_ f then [] else log_image host (wal_fmt f) rs.

(** The object is ready for appends and its file holds the log [rs]. *)
Record wal_ready (host : endianness) (s : wal_state) (rs : list ParsedRecord) : Prop := {
  ready_stream : output_ (wal s) = ofs_opened (path_ (config (wal s)));
  ready_failure : failure_ (wal s) = None;
  ready_batch : 0 < max_batch_ (config (wal s)) ≤ 4096;
  ready_valid : format_valid_ (format (wal s)) = true;
  ready_recovered : needs_recovery_ (format (wal s)) = false;
  ready_fit : records_fit host (wal_fmt (format (wal s))) rs;
  ready_generation : legacy_v2_ (format (wal s)) = false → 0 < generation_ (format (wal s)) < 2 ^ 64;
  ready_sequence : legacy_v2_ (format (wal s)) = false →
    next_sequence_ (format (wal s)) = Z.of_nat (length rs) + 1 ∧ Z.of_nat (length rs) + 1 < 2 ^ 64;
  ready_pending : legacy_v2_ (format (wal s)) = false → header_pending_ (format (wal s)) = true → rs = [];
  ready_file : file_contents (path_ (config (wal s))) (os s)
               = Some (wal_image host (format (wal s)) rs);
  ready_legacy : legacy_v2_ (format (wal s)) = true → generation_ (format (wal s)) = 0
}.

(** The parts of the object that appends leave alone. *)
Record wal_same (s s' : wal_state) : Prop := {
  same_config : config (wal s') = config (wal s);
  same_queue : queue (wal s') = queue (wal s);
  same_sync_fd : sync_fd_ (wal s') = sync_fd_ (wal s);
  same_legacy : legacy_v2_ (format (wal s')) = legacy_v2_ (format (wal s));
  same_generation : generation_ (format (wal s')) = generation_ (format (wal s));
  same_failure : failure_ (wal s') = failure_ (wal s)
}.

#[export] Instance wal_same_preorder : PreOrder wal_same.
Proof. split; [by intros s; split|]. intros s1 s2 s3 [] []. split; congruence. Qed.

(** The file holds [image] and a prefix of the bytes being appended. *)
Definition file_torn (path : bytes) (image extra : bytes) (w : world) : Prop :=
  ∃ n, file_contents path w = Some (image ++ take n extra).

Lemma file_torn_none path image extra w :
  file_contents path w = Some image → file_torn path image extra w.
Proof. exists O. by rewrite take_0, app_nil_r. Qed.

Lemma file_torn_all path image extra w :
  file_contents path w = Some (image ++ extra) → file_torn path image extra w.
Proof. exists (length extra). by rewrite take_ge by lia. Qed.

Lemma file_torn_app_l path image extra more w :
  file_torn path image extra w → file_torn path image (extra ++ more) w.
Proof.
  intros [n Hn]. exists (n `min` length extra)%nat. rewrite take_app_le by lia.
  destruct (Nat.le_ge_cases n (length extra)).
  - by rewrite Nat.min_l.
  - rewrite Nat.min_r, take_ge by lia. by rewrite take_ge in Hn.
Qed.

Lemma file_torn_app_r path image extra more w :
  file_torn path (image ++ extra) more w → file_torn path image (extra ++ more) w.
Proof.
  intros [n Hn]. exists (length extra + n)%nat. by rewrite take_app_add, app_assoc.
Qed.

(** ** Writing frames *)

Lemma wp_write_and_flush data what path c s (Q : unit → wal_state → Prop) E :
  output_ (wal s) = ofs_opened path → file_contents path (os s) = Some c → data ≠ [] →
  (∀ w', file_contents path w' = Some (c ++ data) → Q tt (WalState (wal s) w')) →
  (∀ w' n, file_contents path w' = Some (c ++ take n data) →
     E (runtime_error what)
       (WalState (set_output (ofs_set_good false (ofs_opened path)) (wal s)) w')) →
  wp (write_and_flush data what) Q E s.
Proof.
  intros Ho Hc Hd HQ HE. unfold write_and_flush. wal_steps. rewrite Ho.
  eapply wp_write_flush; [done..| |].
  - intros w' Hw'. wal_steps; [|done]. cbn. rewrite <-Ho, set_output_id. by apply HQ.
  - intros w' n Hw'. wal_steps; [done|]. cbn. by eapply HE.
Qed.

Lemma wp_SyncLocked path c s (Q : unit → wal_state → Prop) E :
  path_ (config (wal s)) = path → file_contents path (os s) = Some c →
  (∀ w' st, file_contents path w' = Some c → (sync_fd_ (wal s) = true → file_durable path w') →
     Q tt (WalState (set_stats st (wal s)) w')) →
  (∀ w' e, file_contents path w' = Some c → E e (WalState (wal s) w')) →
  wp SyncLocked Q E s.
Proof.
  intros Hp Hc HQ HE. unfold SyncLocked. wal_step. wal_step. destruct (sync_fd_ (wal s)) eqn:Hfd; cbn [negb].
  - wal_steps. rewrite Hp. eapply wp_fdatasync; [done| |].
    + intros w' Hw' Hdur. wal_steps. by apply HQ.
    + intros w' e Hw'. wal_steps. by eapply HE.
  - wal_steps. destruct s as [w os']. cbn in *.
    replace w with (set_stats (stats_ w) w) by (by destruct w). by apply HQ.
Qed.

Lemma make_header_nonempty g : make_header g ≠ [].
Proof. intros H%(f_equal length). by rewrite length_make_header in H. Qed.

Lemma log_image_snoc host fmt rs r :
  log_image host fmt (rs ++ [r])
  = log_image host fmt rs ++ record_frame host (is_v3 fmt) (1 + Z.of_nat (length rs)) r.
Proof. rewrite log_image_app. cbn [log_frames]. by rewrite app_nil_r. Qed.

Lemma is_v3_wal_fmt f : is_v3 (wal_fmt f) = negb (legacy_v2_ f).
Proof. unfold wal_fmt. by destruct (legacy_v2_ f). Qed.

(** With its pending header the image is the log's. *)
Lemma wal_image_header host f rs :
  (legacy_v2_ f = false → header_pending_ f = true → rs = []) →
  wal_image host f rs ++ pending_header f = log_image host (wal_fmt f) rs.
Proof.
  intros Hp. unfold wal_image, pending_header, wal_fmt, log_image.
  destruct (legacy_v2_ f); cbn [negb andb]; [by rewrite app_nil_r|].
  destruct (header_pending_ f); [|by rewrite app_nil_r].
  rewrite Hp by done. cbn. by rewrite app_nil_r.
Qed.

(** [EnsureHeaderLocked] leaves a ready object whose header is in the file. *)
Lemma wp_EnsureHeaderLocked host s rs (Q : unit → wal_state → Prop) E :
  wal_ready host s rs →
  (∀ s', wal_ready host s' rs → wal_same s s' →
     negb (legacy_v2_ (format (wal s'))) && header_pending_ (format (wal s')) = false →
     Q tt s') →
  (∀ e s', wal_same s s' →
     file_torn (path_ (config (wal s))) (wal_image host (format (wal s)) rs)
       (pending_header (format (wal s))) (os s') → E e s') →
  wp EnsureHeaderLocked Q E s.
Proof.
  intros Hr HQ HE. pose proof Hr as [Hs Hf Hmb Hv Hn Hfit Hg Hseq Hp Hfile].
  unfold EnsureHeaderLocked. wal_step. wal_step.
  destruct (legacy_v2_ (format (wal s)) || negb (header_pending_ (format (wal s)))) eqn:Hb.
  { wal_step. apply HQ; [done|done|]. by destruct (legacy_v2_ _), (header_pending_ _). }
  apply orb_false_iff in Hb as [Hleg Hpend%negb_false_iff].
  pose proof (Hp Hleg Hpend) as ->. specialize (Hg Hleg). specialize (Hseq Hleg).
  assert (wal_image host (format (wal s)) [] = []) as Himg
    by (unfold wal_image; by rewrite Hleg, Hpend).
  assert (pending_header (format (wal s)) = make_header (generation_ (format (wal s)))) as Hph
    by (unfold pending_header; by rewrite Hleg, Hpend).
  rewrite Himg in *. wal_step.
  eapply wp_write_and_flush; [done..|apply make_header_nonempty| |].
  - intros w' Hw'. wal_steps. apply HQ; cbn [wal os].
    + split; cbn; try done. unfold wal_image. cbn. rewrite Hleg. cbn [negb andb].
      rewrite Hw'. unfold log_image, wal_fmt. cbn. rewrite Hleg. cbn. by rewrite app_nil_r.
    + by split.
    + cbn. by rewrite Hleg.
  - intros w' n Hw'. apply HE; cbn [wal os]; [by split|]. rewrite Hph. by exists n.
Qed.

(** A prepared frame for the record [r]. *)
Definition prepared (host : endianness) (portable : bool) (r : ParsedRecord) (frame : bytes) : Prop :=
  record_fits host portable r ∧
  PrepareFrame host (negb portable) (payload_of host portable r) = Ok frame.

Lemma prepare_record host portable r :
  record_fits host portable r →
  ∃ frame, PrepareFrame host (negb portable) (payload_of host portable r) = Ok frame.
Proof.
  intros [Hfit _]. unfold record_bytes in Hfit. rewrite size_of_app in Hfit. destruct portable.
  - eexists. apply PrepareFrame_v3. rewrite size_of_le_bytes in Hfit. lia.
  - eexists. apply PrepareFrame_v2. rewrite size_of_nil in Hfit. lia.
Qed.

Lemma prepared_final host portable r frame seq :
  prepared host portable r frame →
  (if portable then finalize_frame seq frame else frame) = record_frame host portable seq r.
Proof.
  intros [[Hfit _] Hp]. destruct portable; cbn [negb] in Hp.
  - apply finalize_prepared_frame with (seq := seq) in Hp as [-> _]. done.
  - unfold record_bytes in Hfit. rewrite size_of_app, size_of_nil in Hfit.
    rewrite PrepareFrame_v2 in Hp by lia. by injection Hp as <-.
Qed.

(** The object with another next sequence number. *)
Definition set_seq (n : Z) (w : WriteAheadLog) : WriteAheadLog :=
  set_format (set_next_sequence n (format w)) w.

Lemma set_seq_id w : set_seq (next_sequence_ (format w)) w = w.
Proof. by destruct w as [? ? ? [] ? ? ?]. Qed.

Lemma wp_FinalizeFrameLocked host s r frame n (Q : bytes → wal_state → Prop) E :
  let portable := negb (legacy_v2_ (format (wal s))) in
  prepared host portable r frame →
  (portable = true → next_sequence_ (format (wal s)) = n ∧ 0 ≤ n < 2 ^ 64) →
  (∀ m, (portable = true → m = n + 1 ∧ m < 2 ^ 64) →
     Q (record_frame host portable n r) (WalState (set_seq m (wal s)) (os s))) →
  E (runtime_error (str "WAL sequence is exhausted")) s →
  wp (FinalizeFrameLocked frame) Q E s.
Proof.
  intros portable Hp Hn HQ HE. unfold FinalizeFrameLocked. wal_step. wal_step.
  rewrite <-(prepared_final host portable r frame n Hp) in HQ.
  unfold portable in *. destruct (legacy_v2_ (format (wal s))); cbn [negb] in *.
  - wal_step. destruct s as [w o]. cbn in *. rewrite <-(set_seq_id w) at 1. by apply HQ.
  - destruct (Hn eq_refl) as [-> Hn2]. unfold u64_max. destruct (Z.eqb_spec n (2 ^ 64 - 1)).
    + by wal_step.
    + wal_steps. unfold u64. rewrite Z.mod_small by lia. apply HQ. lia.
Qed.

(** The batch holds the prepared frames of the records. *)
Definition batch_of (host : endianness) (portable : bool) (batch : list Pending)
    (rs : list ParsedRecord) : Prop :=
  Forall2 (λ p r, prepared host portable r (pending_frame p)) batch rs.

(** Finalizing a batch numbers its records consecutively, in the order of the
    batch, and touches no file. *)
Lemma wp_finalize_batch host batch rs acc s n (Q : bytes → wal_state → Prop) E :
  let portable := negb (legacy_v2_ (format (wal s))) in
  batch_of host portable batch rs →
  (portable = true → next_sequence_ (format (wal s)) = n ∧ 0 ≤ n < 2 ^ 64) →
  (∀ m, (portable = true → m = n + Z.of_nat (length rs) ∧ m < 2 ^ 64) →
     Q (acc ++ log_frames host portable n rs) (WalState (set_seq m (wal s)) (os s))) →
  (∀ m, E (runtime_error (str "WAL sequence is exhausted")) (WalState (set_seq m (wal s)) (os s))) →
  wp (finalize_batch acc batch) Q E s.
Proof.
  intros portable Hb. revert rs acc s n Q E portable Hb.
  induction batch as [|p batch IH]; intros rs acc s n Q E portable Hb Hn HQ HE;
    inversion Hb as [|? r ? rs' Hp Hb']; subst.
  - cbn [finalize_batch]. wal_step. cbn [log_frames] in HQ. rewrite app_nil_r in HQ.
    destruct s as [w o]. cbn in *. rewrite <-(set_seq_id w) at 1. apply HQ. cbn.
    intros Hpt. destruct (Hn Hpt) as [-> ?]. lia.
  - cbn [finalize_batch]. wal_step. eapply wp_FinalizeFrameLocked; [exact Hp|exact Hn| |].
    + intros m Hm. cbn beta.
      apply (IH rs' _ _ (n + 1)); cbn [wal os]; fold portable.
      * exact Hb'.
      * intros Hpt. destruct (Hm Hpt), (Hn Hpt). split; [done|lia].
      * intros m' Hm'. specialize (HQ m'). cbn [log_frames] in HQ. rewrite app_assoc in HQ.
        apply HQ. intros Hpt. destruct (Hm' Hpt). cbn [length]. lia.
      * intros m'. apply HE.
    + destruct s as [w o]. cbn in *. rewrite <-(set_seq_id w). apply HE.
Qed.

(** An interrupted append of [new]: nothing but a prefix of what it writes has
    been added to the file. *)
Record wal_torn (host : endianness) (s : wal_state) (rs new : list ParsedRecord)
    (s' : wal_state) : Prop := {
  torn_config : config (wal s') = config (wal s);
  torn_sync_fd : sync_fd_ (wal s') = sync_fd_ (wal s);
  torn_legacy : legacy_v2_ (format (wal s')) = legacy_v2_ (format (wal s));
  torn_queue : queue (wal s') = queue (wal s);
  torn_file : file_torn (path_ (config (wal s))) (wal_image host (format (wal s)) rs)
    (pending_header (format (wal s))
     ++ log_frames host (negb (legacy_v2_ (format (wal s)))) (1 + Z.of_nat (length rs)) new)
    (os s')
}.

Lemma wal_ready_world host s rs st q w' :
  wal_ready host s rs →
  file_contents (path_ (config (wal s))) w' = file_contents (path_ (config (wal s))) (os s) →
  wal_ready host (WalState (set_queue q (set_stats st (wal s))) w') rs.
Proof. intros [] Hw. split; cbn; first [assumption|congruence]. Qed.

Lemma wal_ready_stats host s rs st w' :
  wal_ready host s rs →
  file_contents (path_ (config (wal s))) w' = file_contents (path_ (config (wal s))) (os s) →
  wal_ready host (WalState (set_stats st (wal s)) w') rs.
Proof. intros [] Hw. split; cbn; first [assumption|congruence]. Qed.

Lemma wal_same_stats s st w' : wal_same s (WalState (set_stats st (wal s)) w').
Proof. by split. Qed.

(** The log of a ready object whose header is in the file. *)
Lemma ready_log host s rs :
  wal_ready host s rs → wal_image host (format (wal s)) rs ++ pending_header (format (wal s))
                        = log_image host (wal_fmt (format (wal s))) rs.
Proof. intros Hr. apply wal_image_header, Hr. Qed.

Lemma torn_ready host s rs new s' :
  wal_ready host s rs → wal_ready host s' (rs ++ new) → wal_same s s' →
  negb (legacy_v2_ (format (wal s'))) && header_pending_ (format (wal s')) = false →
  wal_torn host s rs new s'.
Proof.
  intros Hr Hr' [] Hp. split; try done. apply file_torn_app_r, file_torn_all.
  rewrite (ready_log _ _ _ Hr). pose proof (ready_file _ _ _ Hr') as Hf.
  rewrite same_config0 in Hf. rewrite Hf. unfold wal_image. rewrite Hp.
  rewrite log_image_app. unfold wal_fmt. rewrite same_legacy0, same_generation0.
  by destruct (legacy_v2_ (format (wal s))).
Qed.

(** Writing the finalized frames of [new]. *)
Lemma wp_write_frames host s rs new m what (Q : unit → wal_state → Prop) E :
  wal_ready host s rs →
  negb (legacy_v2_ (format (wal s))) && header_pending_ (format (wal s)) = false →
  let portable := negb (legacy_v2_ (format (wal s))) in
  Forall (record_fits host portable) new → new ≠ [] →
  (portable = true → m = 1 + Z.of_nat (length rs) + Z.of_nat (length new) ∧ m < 2 ^ 64) →
  (∀ s', wal_ready host s' (rs ++ new) → wal_same s s' → 
     negb (legacy_v2_ (format (wal s'))) && header_pending_ (format (wal s')) = false → Q tt s') →
  (∀ e s', wal_torn host s rs new s' → E e s') →
  wp (write_and_flush (log_frames host portable (1 + Z.of_nat (length rs)) new) what) Q E
    (WalState (set_seq m (wal s)) (os s)).
Proof.
  intros Hr Hpend portable Hnew Hne Hm HQ HE.
  pose proof Hr as [Hs Hf Hmb Hv Hn [Hfit Hlen] Hg Hseq Hp Hfile].
  assert (wal_image host (format (wal s)) rs = log_image host (wal_fmt (format (wal s))) rs) as Himg
    by (unfold wal_image; by rewrite Hpend).
  eapply wp_write_and_flush; [done..| | |].
  - destruct new; [done|]. intros H0%(f_equal size_of).
    pose proof (size_of_frames_pos host portable (1 + Z.of_nat (length rs)) p new).
    rewrite H0, size_of_nil in *. lia.
  - intros w' Hw'. apply HQ; [|by split|done].
    assert (wal_fmt (format (set_seq m (wal s))) = wal_fmt (format (wal s))) as Hfmt by done.
    split; cbn [wal os]; try done.
    + rewrite Hfmt. unfold records_fit. rewrite is_v3_wal_fmt in *.
      split; [by apply Forall_app|]. intros Hv3. destruct (Hm Hv3). rewrite length_app. lia.
    + intros Hv3. cbn in Hv3 |- *. unfold portable in Hm. rewrite Hv3 in Hm.
      destruct (Hm eq_refl). rewrite length_app. lia.
    + cbn. intros Hl Hpe. by rewrite Hl, Hpe in Hpend.
    + change (path_ (config (set_seq m (wal s)))) with (path_ (config (wal s))).
      rewrite Hw', Himg. unfold wal_image. cbn [format set_seq set_format legacy_v2_ header_pending_ set_next_sequence].
      rewrite Hpend. change (wal_fmt _) with (wal_fmt (format (wal s))).
      rewrite log_image_app. unfold portable. by rewrite <-is_v3_wal_fmt.
  - intros w' n Hw'. apply HE. split; try done. cbn [os].
    apply file_torn_app_r. rewrite (ready_log _ _ _ Hr). exists n. by rewrite <-Himg.
Qed.

Lemma wal_fmt_same s s' : wal_same s s' → wal_fmt (format (wal s')) = wal_fmt (format (wal s)).
Proof. intros []. unfold wal_fmt. by rewrite same_legacy0, same_generation0. Qed.

(** Once the header is in the file, what is torn is what was torn before it. *)
Lemma torn_after_header host s s1 rs new s' :
  wal_ready host s rs → wal_same s s1 →
  negb (legacy_v2_ (format (wal s1))) && header_pending_ (format (wal s1)) = false →
  wal_torn host s1 rs new s' → wal_torn host s rs new s'.
Proof.
  intros Hr Hs Hp [Hc Hfd Hl Hq Hf]. pose proof (wal_fmt_same _ _ Hs) as Hfmt. pose proof Hs as [].
  split; [congruence..|].
  unfold pending_header, wal_image in Hf. rewrite Hp, same_config0, same_legacy0, Hfmt in Hf.
  apply file_torn_app_r. by rewrite (ready_log _ _ _ Hr).
Qed.

Lemma torn_header_only host s s' rs new :
  wal_same s s' →
  file_torn (path_ (config (wal s))) (wal_image host (format (wal s)) rs)
    (pending_header (format (wal s))) (os s') → wal_torn host s rs new s'.
Proof. intros [] Hf. split; try done. by apply file_torn_app_l. Qed.

Lemma torn_unwritten host s s' rs new :
  wal_ready host s rs → wal_ready host s' rs → wal_same s s' →
  negb (legacy_v2_ (format (wal s'))) && header_pending_ (format (wal s')) = false →
  wal_torn host s rs new s'.
Proof.
  intros Hr Hr' Hs Hp. apply torn_header_only; [done|].
  destruct (torn_ready host s rs [] s' Hr) as [_ _ _ _ Hf]; [by rewrite app_nil_r|done..|].
  cbn [log_frames] in Hf. by rewrite app_nil_r in Hf.
Qed.

Lemma ready_next_sequence host s rs portable :
  wal_ready host s rs → portable = negb (legacy_v2_ (format (wal s))) →
  portable = true →
  next_sequence_ (format (wal s)) = 1 + Z.of_nat (length rs) ∧ 0 ≤ 1 + Z.of_nat (length rs) < 2 ^ 64 .
Proof.
  intros [] -> Hl%negb_true_iff. destruct (ready_sequence0 Hl) as [-> ?]. lia.
Qed.

Lemma wp_call_fault_hook p s (Q : unit → wal_state → Prop) (E : exn → wal_state → Prop) :
  (∀ rest, Q tt (WalState (wal s) (with_script rest (os s)))) →
  (∀ rest, E hook_exception (WalState (wal s) (with_script rest (os s)))) →
  wp (call_fault_hook p) Q E s.
Proof. intros HQ HE. do 2 wal_step. by apply wp_call_hook. Qed.

(** [WriteFrameLocked] on the prepared frame of [r]. *)
Lemma wp_WriteFrameLocked host s rs r frame (Q : unit → wal_state → Prop) E :
  wal_ready host s rs → prepared host (negb (legacy_v2_ (format (wal s)))) r frame →
  (∀ s', wal_ready host s' (rs ++ [r]) → wal_same s s' →
     negb (legacy_v2_ (format (wal s'))) && header_pending_ (format (wal s')) = false → Q tt s') →
  (∀ e s', wal_torn host s rs [r] s' → E e s') →
  wp (WriteFrameLocked frame) Q E s.
Proof.
  intros Hr Hprep HQ HE. unfold WriteFrameLocked. wal_step.
  eapply wp_EnsureHeaderLocked; [done| |].
  2: { intros e s' Hs Hf. by apply HE, torn_header_only. }
  intros s1 Hr1 Hs1 Hp1. pose proof (same_legacy _ _ Hs1) as Hl. rewrite <-Hl in Hprep.
  wal_step. eapply wp_FinalizeFrameLocked; [exact Hprep| | |].
  - by eapply ready_next_sequence.
  - intros m Hm. wal_step. rewrite <-(app_nil_r (record_frame _ _ _ _)).
    apply (wp_write_frames host s1 rs [r]); [done..| |done| | |].
    + apply Forall_singleton, Hprep.
    + intros Hpt. destruct (Hm Hpt). cbn [length]. lia.
    + intros s2 Hr2 Hs2 Hp2. wal_step.
      assert (wal_torn host s rs [r] s2) as Ht
        by (eapply torn_after_header; [done..|by eapply torn_ready]).
      apply wp_call_fault_hook; intros rest.
      * wal_step. apply HQ; cbn [wal os]; [|by destruct Hs1, Hs2; split; cbn; congruence|done].
        by apply (wal_ready_stats _ s2).
      * apply HE. by destruct Ht.
    + intros e s' Ht. by eapply HE, torn_after_header.
  - by eapply HE, torn_unwritten.
Qed.

(** The acknowledged file is durable when the object has a descriptor to
    synchronize. *)
Definition wal_durable (s : wal_state) : Prop :=
  sync_fd_ (wal s) = true → file_durable (path_ (config (wal s))) (os s).

(** Synchronization, the hook after it and the statistics change no byte. *)
Lemma wp_sync_and_count host s rs f (Q : unit → wal_state → Prop) E :
  wal_ready host s rs →
  (∀ st w', let s' := WalState (set_stats st (wal s)) w' in
     wal_ready host s' rs → wal_durable s' → Q tt s') →
  (∀ e st w', let s' := WalState (set_stats st (wal s)) w' in
     wal_ready host s' rs → E e s') →
  wp (SyncLocked ;;; call_fault_hook AfterSync ;;; on_stats f) Q E s.
Proof.
  intros Hr HQ HE. pose proof (ready_file _ _ _ Hr) as Hf. wal_step.
  eapply wp_SyncLocked; [done|exact Hf| |].
  - intros w' st Hw Hd. wal_step. apply wp_call_fault_hook; intros rest.
    + wal_step. apply HQ; [|done]. apply (wal_ready_stats _ s); [done|by rewrite Hf].
    + apply HE. apply (wal_ready_stats _ s); [done|by rewrite Hf].
  - intros w' e Hw. replace (wal s) with (set_stats (stats_ (wal s)) (wal s)) by (by destruct (wal s)).
    apply HE. apply (wal_ready_stats _ s); [done|]. by rewrite Hf.
Qed.

Lemma torn_stats host s rs new s1 st w' :
  wal_ready host s rs → wal_ready host s1 (rs ++ new) → wal_same s s1 →
  negb (legacy_v2_ (format (wal s1))) && header_pending_ (format (wal s1)) = false →
  wal_ready host (WalState (set_stats st (wal s1)) w') (rs ++ new) →
  wal_torn host s rs new (WalState (set_stats st (wal s1)) w').
Proof. intros ? ? Hs ? ?. apply torn_ready; try done. by destruct Hs; split. Qed.

(** The [try] block of the writer on the prepared frames of [new]. *)
Lemma wp_write_batch host s rs new batch (Q : unit → wal_state → Prop) E :
  wal_ready host s rs → batch_of host (negb (legacy_v2_ (format (wal s)))) batch new → batch ≠ [] →
  (∀ s', wal_ready host s' (rs ++ new) → wal_same s s' → wal_durable s' → Q tt s') →
  (∀ e s', wal_torn host s rs new s' → E e s') →
  wp (write_batch batch) Q E s.
Proof.
  intros Hr Hb Hne HQ HE. unfold write_batch. wal_step.
  eapply wp_EnsureHeaderLocked; [done| |].
  2: { intros e s' Hs Hf. by apply HE, torn_header_only. }
  intros s1 Hr1 Hs1 Hp1. pose proof (same_legacy _ _ Hs1) as Hl. rewrite <-Hl in Hb.
  wal_step. eapply wp_finalize_batch; [exact Hb| | |].
  - by eapply ready_next_sequence.
  - intros m Hm. rewrite app_nil_l. wal_step. apply (wp_write_frames host s1 rs new); try done.
    + clear -Hb. induction Hb as [|? ? ? ? [? ?]]; auto.
    + intros ->. by inversion Hb; subst.
    + intros s2 Hr2 Hs2 Hp2. wal_step.
      assert (wal_same s s2) as Hs12 by (by etrans).
      apply wp_call_fault_hook; intros rest.
      2: { apply HE. by destruct (torn_ready host s rs new s2 Hr Hr2 Hs12 Hp2). }
      wal_step. wal_step.
      eapply (wp_sync_and_count host); [by apply (wal_ready_stats _ s2)| |]; cbn [wal os].
      * intros st w' Hr' Hd. apply HQ; [done|by destruct Hs12; split|done].
      * intros e st w' Hr'. apply HE. by apply torn_stats.
    + intros e s' Ht. by eapply HE, torn_after_header.
  - intros m. apply HE.
    by destruct (torn_unwritten host s s1 rs new Hr Hr1 Hs1 Hp1).
Qed.

(** After an append: the log has the new records, and they are durable unless
    the policy is [Buffered]. *)
Record appended (host : endianness) (s : wal_state) (rs new : list ParsedRecord)
    (s' : wal_state) : Prop := {
  appended_ready : wal_ready host s' (rs ++ new);
  appended_config : config (wal s') = config (wal s);
  appended_sync_fd : sync_fd_ (wal s') = sync_fd_ (wal s);
  appended_legacy : legacy_v2_ (format (wal s')) = legacy_v2_ (format (wal s));
  appended_durable : policy_ (config (wal s)) ≠ Buffered → wal_durable s'
}.

(** After a failed append: the object refuses further appends with the same
    error, and at most a prefix of the bytes is in the file. *)
Record append_failed (host : endianness) (s : wal_state) (rs new : list ParsedRecord)
    (e : exn) (s' : wal_state) : Prop := {
  failed_error : failure_ (wal s') = Some e;
  failed_config : config (wal s') = config (wal s);
  failed_legacy : legacy_v2_ (format (wal s')) = legacy_v2_ (format (wal s));
  failed_file : file_torn (path_ (config (wal s))) (wal_image host (format (wal s)) rs)
    (pending_header (format (wal s))
     ++ log_frames host (negb (legacy_v2_ (format (wal s)))) (1 + Z.of_nat (length rs)) new)
    (os s')
}.

Lemma torn_append_failed host s rs new e s' w' :
  wal_torn host s rs new s' → failure_ w' = Some e → config w' = config (wal s') →
  format w' = format (wal s') → append_failed host s rs new e (WalState w' (os s')).
Proof. intros [] Hf Hc Hfm. split; cbn; [done|congruence|by rewrite Hfm|done]. Qed.

(** One batch from the queue to its waiters. *)
Lemma wp_commit_batch host s rs new batch (Q : bool → wal_state → Prop) E :
  wal_ready host s rs → batch_of host (negb (legacy_v2_ (format (wal s)))) batch new → batch ≠ [] →
  (∀ s', appended host s rs new s' →
     queue (wal s') = complete_all batch None (queue (wal s)) → Q true s') →
  (∀ e s', append_failed host s rs new e s' →
     queue (wal s') = complete_all (batch ++ queue_ (queue (wal s))) (Some e)
                        (set_pendings [] (queue (wal s))) → Q false s') →
  wp (commit_batch batch) Q E s.
Proof.
  intros Hr Hb Hne HQ HE. unfold commit_batch. wal_step. wal_step. wal_step.
  eapply wp_write_batch; [done..| |].
  - intros s' Hr' [] Hd. wal_steps. cbn [fst snd negb]. rewrite bool_decide_false by (by intros [? ?]).
    cbn [negb]. apply HQ; cbn [wal os].
    + split; cbn; [by destruct Hr'|done..].
    + cbn. by rewrite same_queue0.
  - intros e s' Ht. unfold fail_queue. wal_steps. cbn [fst snd].
    rewrite bool_decide_true by eauto. cbn [negb]. eapply (HE e).
    + by eapply torn_append_failed.
    + cbn. by rewrite (torn_queue _ _ _ _ _ Ht).
Qed.

Lemma wal_ready_queue host s rs q :
  wal_ready host s rs → wal_ready host (WalState (set_queue q (wal s)) (os s)) rs.
Proof. intros []. by split. Qed.

Lemma take_batch_single max_batch p :
  0 < max_batch → take_batch max_batch 0 [] [p] = ([p], []).
Proof. intros H. cbn [take_batch length]. by destruct (Z.ltb_spec (Z.of_nat 0) max_batch); [|lia]. Qed.

Lemma wp_check_appendable host s rs (Q : unit → wal_state → Prop) E :
  wal_ready host s rs → Q tt s → wp check_appendable Q E s.
Proof.
  intros [] HQ. unfold check_appendable. do 2 wal_step.
  by rewrite ready_failure0, ready_valid0, ready_recovered0.
Qed.

(** [AppendPayload] of a record that fits, in a log without queued requests. *)
Lemma wp_AppendPayload host s rs r (Q : unit → wal_state → Prop) E :
  wal_ready host s rs → queue_ (queue (wal s)) = [] →
  let portable := negb (legacy_v2_ (format (wal s))) in
  record_fits host portable r →
  (∀ s', appended host s rs [r] s' → queue_ (queue (wal s')) = [] → Q tt s') →
  (∀ e s', append_failed host s rs [r] e s' → E e s') →
  wp (AppendPayload host (payload_of host portable r)) Q E s.
Proof.
  intros Hr Hidle portable Hfit HQ HE. unfold AppendPayload. do 2 wal_step. wal_step.
  destruct (prepare_record host portable r Hfit) as [frame Hframe].
  apply wp_of_res; rewrite <-(negb_involutive (legacy_v2_ _)); fold portable; rewrite Hframe;
    [intros ? [= <-]|done].
  assert (prepared host portable r frame) as Hprep by done.
  case_bool_decide as Hpol.
  - wal_step. eapply wp_check_appendable; [done|]. do 2 wal_step.
    eapply wp_WriteFrameLocked; [done..| |].
    + intros s1 Hr1 Hs1 Hp1.
      assert (∀ st w', wal_ready host (WalState (set_stats st (wal s1)) w') (rs ++ [r]) →
                (policy_ (config (wal s)) ≠ Buffered →
                 wal_durable (WalState (set_stats st (wal s1)) w')) →
                Q tt (WalState (set_stats st (wal s1)) w')) as HQ'.
      { intros st w' Hr' Hd. pose proof Hs1 as []. apply HQ; [split; first [assumption|cbn; congruence]|cbn; congruence]. }
      wal_step.
      * eapply (wp_sync_and_count host); [done|intros; by apply HQ'|].
        intros e st w' s' Hr'. wal_steps. apply (HE e).
        by eapply (torn_append_failed host s rs [r] e s'); [apply torn_stats|..].
      * replace s1 with (WalState (set_stats (stats_ (wal s1)) (wal s1)) (os s1))
          by (by destruct s1 as [[] ?]).
        apply HQ'; [by apply (wal_ready_stats _ s1)|]. intros Hb.
        apply bool_decide_eq_false in H. by destruct (policy_ (config (wal s))).
    + intros e s' Ht. wal_steps. apply (HE e).
      by eapply (torn_append_failed host s rs [r] e s').
  - wal_step. unfold enqueue. wal_step. eapply wp_check_appendable; [done|].
    unfold writer_turn, form_batch. do 10 try wal_step. cbn [wal os config queue set_queue].
    cbn [push_pending queue_ app]. rewrite Hidle. cbn [app].
    rewrite take_batch_single by apply Hr. do 3 wal_step.
    match goal with |- wp (commit_batch _) _ _ ?t => set (s1 := t) end.
    eapply (wp_commit_batch host s1 rs [r]).
    + unfold s1. by destruct Hr.
    + by constructor.
    + done.
    + intros s' Ha Hq. unfold await. do 2 wal_step. rewrite Hq. cbn.
      rewrite lookup_insert_eq. apply HQ; [by destruct Ha; split|]. by rewrite Hq.
    + intros e s' Hf Hq. unfold await. do 2 wal_step. rewrite Hq. cbn.
      rewrite lookup_insert_eq. apply HE. by destruct Hf; split.
Qed.

(** ** Appending a record *)

(** The call that logs a record. *)
Definition append_record (host : endianness) (r : ParsedRecord) : M wal_state unit :=
  match rec_op r with
  | WalOp_Set => AppendSet host (rec_key r) (rec_value r)
  | WalOp_Delete => AppendDelete host (rec_key r)
  end.

(** [AppendSet] and [AppendDelete] pass on the payload of a record that fits and
    refuse every other one before touching anything. *)
Lemma wp_append_record_payload host r s (Q : unit → wal_state → Prop) E :
  let portable := negb (legacy_v2_ (format (wal s))) in
  (rec_op r = WalOp_Delete → rec_value r = []) →
  (record_fits host portable r → wp (AppendPayload host (payload_of host portable r)) Q E s) →
  (∀ e, kMaxRecordLength < record_size portable r → E e s) →
  wp (append_record host r) Q E s.
Proof.
  intros portable Hdel HQ HE. pose proof (size_of_nonneg (rec_key r)).
  pose proof (size_of_nonneg (rec_value r)).
  assert (∀ (x name : bytes) e, size_of x ≤ record_size portable r →
            CheckedSize x name = Exn e → E e s) as Hbig.
  { intros x name e Hx He. apply HE. unfold CheckedSize, u32_max in He.
    destruct (Z.ltb_spec (2 ^ 32 - 1) (size_of x)); [|done]. unfold kMaxRecordLength. lia. }
  assert (∀ n (k : M wal_state unit), n = record_size portable r →
            (record_fits host portable r → wp k Q E s) →
            wp (of_res (checked_record_length n) ;;; k) Q E s) as Hlen.
  { intros n k -> Hk. wal_step. unfold checked_record_length.
    destruct (Z.ltb_spec kMaxRecordLength (record_size portable r)) as [Hgt|Hle]; cbn [of_res].
    - by apply wp_throw, HE.
    - wal_step. apply Hk. split; [by rewrite size_of_record_bytes|done]. }
  pose proof (record_size_ge portable r) as Hge.
  unfold append_record, payload_of in *. unfold record_size, seq_size in Hbig, Hlen, HE, Hge.
  unfold portable in *. destruct (rec_op r); unfold AppendSet, AppendDelete.
  - do 2 wal_step. wal_step. apply wp_of_res; [intros ? [-> _]%CheckedSize_ok|].
    2: { intros e He. eapply Hbig, He. destruct (legacy_v2_ _); cbn [negb]; lia. }
    wal_step. apply wp_of_res; [intros ? [-> _]%CheckedSize_ok|].
    2: { intros e He. eapply Hbig, He. destruct (legacy_v2_ _); cbn [negb]; lia. }
    apply Hlen; [destruct (legacy_v2_ _); cbn [negb]; lia|].
    by rewrite negb_involutive in HQ.
  - do 2 wal_step. wal_step. apply wp_of_res; [intros ? [-> _]%CheckedSize_ok|].
    2: { intros e He. eapply Hbig, He. destruct (legacy_v2_ _); cbn [negb]; lia. }
    apply Hlen; [destruct (legacy_v2_ _); cbn [negb]; lia|].
    by rewrite negb_involutive in HQ.
Qed.

Lemma wp_append_record host s rs r (Q : unit → wal_state → Prop) E :
  wal_ready host s rs → queue_ (queue (wal s)) = [] →
  (rec_op r = WalOp_Delete → rec_value r = []) →
  (∀ s', record_fits host (negb (legacy_v2_ (format (wal s)))) r →
     appended host s rs [r] s' → queue_ (queue (wal s')) = [] → Q tt s') →
  (∀ e, kMaxRecordLength < record_size (negb (legacy_v2_ (format (wal s)))) r → E e s) →
  (∀ e s', record_fits host (negb (legacy_v2_ (format (wal s)))) r →
     append_failed host s rs [r] e s' → E e s') →
  wp (append_record host r) Q E s.
Proof.
  intros Hr Hidle Hdel HQ HB HE. apply wp_append_record_payload; [done|intros Hfit|done].
  eapply wp_AppendPayload; [done..| |]; intros; [by apply HQ|by eapply HE].
Qed.

Lemma append_result host s rs r :
  wal_ready host s rs → queue_ (queue (wal s)) = [] →
  (rec_op r = WalOp_Delete → rec_value r = []) →
  wp (append_record host r)
    (λ _ s', appended host s rs [r] s' ∧ queue_ (queue (wal s')) = [])
    (λ e s', (s' = s ∧ kMaxRecordLength < record_size (negb (legacy_v2_ (format (wal s)))) r)
             ∨ append_failed host s rs [r] e s')
    s.
Proof. intros. eapply wp_append_record; [done..|auto|auto|auto]. Qed.

(** C19: [AppendSet] and [AppendDelete], under each of the three durability
    policies and every pattern of input/output failures: on success the log is
    the old one followed by the record, and synchronized unless the policy is
    [Buffered]; a record above the 64 MiB limit is refused with nothing changed;
    any other failure is recorded in the object, and the file has gained at most
    a prefix of the header and the frame. *)
Theorem append_outcome host s rs r :
  wal_ready host s rs → queue_ (queue (wal s)) = [] →
  (rec_op r = WalOp_Delete → rec_value r = []) →
  wp (append_record host r)
    (λ _ s', appended host s rs [r] s' ∧ queue_ (queue (wal s')) = [])
    (λ e s', (s' = s ∧ kMaxRecordLength < record_size (negb (legacy_v2_ (format (wal s)))) r)
             ∨ append_failed host s rs [r] e s')
    s.
Proof. apply append_result. Qed.

(** ** What a replay of the object's file finds *)

Definition replay_file (host : endianness) (s : wal_state) (store : gmap bytes bytes)
    : res (WalReplayResult * gmap bytes bytes) :=
  ReplayDetailed host (file_contents (path_ (config (wal s))) (os s)) store.

Lemma ready_format_ok host s rs : wal_ready host s rs → format_ok (wal_fmt (format (wal s))).
Proof.
  intros []. unfold wal_fmt. destruct (legacy_v2_ (format (wal s))); [done|]. by apply ready_generation0.
Qed.

(** From the end of a prefix [rs1] of the log, as a snapshot records it. *)
Lemma replay_ready_from host s rs1 rs2 offset store :
  wal_ready host s (rs1 ++ rs2) → covers host (wal_fmt (format (wal s))) offset rs1 →
  offset ≤ streamoff_max →
  ∃ result, ReplayFromDetailed host (file_contents (path_ (config (wal s))) (os s)) offset store
            = Ok (result, apply_records rs2 store) ∧
            replay_status result = CleanEof ∧ applied_operations result = Z.of_nat (length rs2) ∧
            truncated result = false.
Proof.
  intros Hr Hcov Hoff. pose proof (ready_format_ok _ _ _ Hr) as Hok. destruct Hr.
  rewrite ready_file0. unfold wal_image. destruct (negb _ && _) eqn:Hb.
  - apply andb_true_iff in Hb as [Hl%negb_true_iff Hp].
    destruct (app_eq_nil _ _ (ready_pending0 Hl Hp)) as [-> ->].
    unfold ReplayFromDetailed. destruct (Z.ltb_spec streamoff_max offset); [lia|]. by eexists.
  - pose proof (ReplayFromDetailed_image host (wal_fmt (format (wal s))) rs1 rs2 [] CleanEof store offset) as H.
    rewrite app_nil_r in H. rewrite H; try done; [by eexists|by right; right].
Qed.

Lemma replay_ready host s rs store :
  wal_ready host s rs →
  ∃ result, replay_file host s store = Ok (result, apply_records rs store) ∧
            replay_status result = CleanEof ∧ applied_operations result = Z.of_nat (length rs) ∧
            truncated result = false.
Proof. intros Hr. apply (replay_ready_from host s [] rs 0 store Hr); [by right|done]. Qed.

(** The file of an object that is ready. *)
Lemma ready_torn host s rs :
  wal_ready host s rs →
  torn_image host (wal_fmt (format (wal s))) rs (wal_image host (format (wal s)) rs).
Proof.
  intros Hr. unfold wal_image. destruct (negb _ && _) eqn:Hb.
  - apply andb_true_iff in Hb as [Hl%negb_true_iff Hp]. rewrite (ready_pending _ _ _ Hr Hl Hp).
    apply torn_image_nil.
  - apply torn_image_log; [by apply (ready_format_ok _ _ _ Hr)|by apply (ready_fit _ _ _ Hr)].
Qed.

Lemma torn_image_file host path f rs new w :
  (legacy_v2_ f = false → header_pending_ f = true → rs = []) →
  format_ok (wal_fmt f) → records_fit host (wal_fmt f) (rs ++ new) →
  file_torn path (wal_image host f rs)
    (pending_header f ++ log_frames host (negb (legacy_v2_ f)) (1 + Z.of_nat (length rs)) new) w →
  ∃ k content, file_contents path w = Some content ∧ torn_image host (wal_fmt f) (rs ++ take k new) content.
Proof.
  intros Hp Hok Hfit [n Hn]. rewrite Hn.
  pose proof (wal_image_header host f rs Hp) as Himg.
  destruct (decide (length (pending_header f) ≤ n)%nat) as [Hle|Hlt].
  - rewrite take_app, (take_ge (pending_header f)), app_assoc, Himg, <-is_v3_wal_fmt by done.
    destruct (torn_image_take host (wal_fmt f) rs new (n - length (pending_header f))) as [k Hk]; [done..|].
    eexists k, _. split; [reflexivity|exact Hk].
  - rewrite take_app_le by lia. eexists O, _. split; [done|]. right.
    unfold pending_header, wal_image in *. destruct (negb _ && _) eqn:Hb; [|cbn in Hlt; lia].
    apply andb_true_iff in Hb as [Hl%negb_true_iff Hpe]. rewrite (Hp Hl Hpe).
    rewrite length_make_header in Hlt. cbn [app take]. split; [done|]. split.
    + apply looks_portable_take. rewrite <-(app_nil_r (make_header _)). apply looks_portable_header.
    + unfold size_of, kHeaderLength. rewrite length_take, length_make_header. lia.
Qed.

Lemma replay_torn_from host path f rs new w :
  (legacy_v2_ f = false → header_pending_ f = true → rs = []) →
  format_ok (wal_fmt f) → records_fit host (wal_fmt f) (rs ++ new) →
  file_torn path (wal_image host f rs)
    (pending_header f ++ log_frames host (negb (legacy_v2_ f)) (1 + Z.of_nat (length rs)) new) w →
  ∃ k, ∀ rs1 rs2 offset store,
    rs = rs1 ++ rs2 → covers host (wal_fmt f) offset rs1 → offset ≤ streamoff_max →
    ∃ result, ReplayFromDetailed host (file_contents path w) offset store
              = Ok (result, apply_records (rs2 ++ take k new) store) ∧
              applied_operations result = Z.of_nat (length (rs2 ++ take k new)).
Proof.
  intros Hp Hok Hfit Hf. destruct (torn_image_file host path f rs new w) as (k & content & -> & Ht); [done..|].
  exists k. intros rs1 rs2 offset store -> Hcov Hoff. rewrite <-app_assoc in Ht.
  apply (torn_image_replays host (wal_fmt f) rs1); [done| |done..]. rewrite app_assoc. by apply records_fit_prefix.
Qed.

Lemma replay_torn host path f rs new w store :
  (legacy_v2_ f = false → header_pending_ f = true → rs = []) →
  format_ok (wal_fmt f) → records_fit host (wal_fmt f) (rs ++ new) →
  file_torn path (wal_image host f rs)
    (pending_header f ++ log_frames host (negb (legacy_v2_ f)) (1 + Z.of_nat (length rs)) new) w →
  ∃ k result, ReplayDetailed host (file_contents path w) store
              = Ok (result, apply_records (rs ++ take k new) store).
Proof.
  intros Hp Hok Hfit Ht. destruct (replay_torn_from host path f rs new w) as [k H]; [done..|].
  exists k. destruct (H [] rs 0 store) as (result & Hr & _); [done|by right|done|]. by exists result.
Qed.
