(* ===== verification/WalDurability.v ===== *)
(** * What an acknowledged append guarantees

    Process crashes and power failures against the log object of [WalLog]: an
    append is all or nothing for a later replay, acknowledged records survive,
    a failed log stays failed. *)

From S2P Require Import Prelude Machine BinaryIO Crc WalFormat WalReplay WalLog.

(** ** The synchronized part of the file only grows *)

(** [d] is synchronized, and the rest of the file follows what is. *)
Definition durable_prefix (path d : bytes) (w : world) : Prop :=
  ∃ x, files w !! path = Some x ∧ d `prefix_of` synced x ∧ synced x `prefix_of` contents x.

(** A power failure keeps what is synchronized; anything may follow it. *)
Definition after_power_loss (path : bytes) (w : world) (content : bytes) : Prop :=
  ∃ x garbage, files w !! path = Some x ∧ content = synced x ++ garbage.

Lemma durable_append path d path' data w :
  durable_prefix path d w → durable_prefix path d (append_to_file path' data w).
Proof.
  intros (x & Hx & Hd & Hs). unfold durable_prefix. cbn.
  destruct (decide (path = path')) as [<-|Hne].
  - rewrite lookup_alter_eq, Hx. eexists. split; [done|]. split; [done|]. by apply prefix_app_r.
  - rewrite lookup_alter_ne by done. eauto.
Qed.

Lemma durable_sync path d path' w :
  durable_prefix path d w → durable_prefix path d (with_files (alter mark_synced path') w).
Proof.
  intros (x & Hx & Hd & Hs). unfold durable_prefix. cbn.
  destruct (decide (path = path')) as [<-|Hne].
  - rewrite lookup_alter_eq, Hx. eexists. split; [done|]. cbn. split; [by etrans|done].
  - rewrite lookup_alter_ne by done. eauto.
Qed.

Create HintDb keeps discriminated.

Lemma keeps_draw (P : world → Prop) :
  (∀ rest w, P w → P (with_script rest w)) → keeps P draw.
Proof. intros H w Hw. apply wp_draw. auto. Qed.

(** ** What the members that append keep *)

(** A property of the object and its file that the steps of an append keep is
    kept by every append, whatever its outcome. *)
Section members_keep.
  Context (P : wal_state → Prop).
  Hypothesis keeps_write_and_flush : ∀ data what, keeps P (write_and_flush data what).
  Hypothesis keeps_call_fault_hook : ∀ p, keeps P (call_fault_hook p).
  Hypothesis keeps_SyncLocked : keeps P SyncLocked.
  Hypothesis keeps_fields : ∀ f s,
    (∀ w, config (f w) = config w ∧ output_ (f w) = output_ w) → P s → P (WalState (f (wal s)) (os s)).

Lemma keeps_on_wal f : (∀ w, config (f w) = config w ∧ output_ (f w) = output_ w) → keeps P (on_wal f).
Proof. intros Hf s Hs. apply wp_on_wal. by apply keeps_fields. Qed.

Lemma keeps_of_res {A} (r : res A) : keeps P (of_res r).
Proof. by destruct r; intros s. Qed.

Ltac keeps_run := repeat first [keeps_step | apply keeps_on_wal; by intros | done | by eauto with keeps].

Lemma keeps_FinalizeFrameLocked f : keeps P (FinalizeFrameLocked f).
Proof. unfold FinalizeFrameLocked. keeps_run. Qed.

Lemma keeps_EnsureHeaderLocked : keeps P EnsureHeaderLocked.
Proof. unfold EnsureHeaderLocked. keeps_run. Qed.

Lemma keeps_WriteFrameLocked f : keeps P (WriteFrameLocked f).
Proof.
  unfold WriteFrameLocked, on_stats.
  repeat first [apply keeps_EnsureHeaderLocked|apply keeps_FinalizeFrameLocked|progress keeps_run].
Qed.

Lemma keeps_finalize_batch batch acc : keeps P (finalize_batch acc batch).
Proof.
  revert acc. induction batch as [|p batch IH]; intros acc; cbn [finalize_batch]; keeps_run.
  apply keeps_FinalizeFrameLocked.
Qed.

Lemma write_batch_keeps batch : keeps P (write_batch batch).
Proof.
  unfold write_batch, on_stats.
  repeat first [apply keeps_EnsureHeaderLocked|apply keeps_finalize_batch|progress keeps_run].
Qed.

Lemma append_keeps host r : keeps P (append_record host r).
Proof.
  assert (keeps P check_appendable) as Hc by (unfold check_appendable; keeps_run).
  assert (∀ batch, keeps P (commit_batch batch)) as Hcb.
  { intros. unfold commit_batch, fail_queue. repeat first [apply write_batch_keeps|progress keeps_run]. }
  assert (∀ payload, keeps P (AppendPayload host payload)) as Ha.
  { intros. unfold AppendPayload, enqueue, writer_turn, form_batch, await, on_stats.
    repeat first [apply Hc|apply Hcb|apply keeps_WriteFrameLocked|apply keeps_of_res|progress keeps_run]. }
  unfold append_record, AppendSet, AppendDelete.
  repeat first [apply Ha|apply keeps_of_res|progress keeps_run].
Qed.

End members_keep.

(** ** The synchronized bytes *)

Section durable_keeps.
  Context (path d : bytes).

Definition wal_keeps_prefix (s : wal_state) : Prop := durable_prefix path d (os s).

Lemma durable_on_os {A} (m : M world A) :
  keeps (durable_prefix path d) m → keeps wal_keeps_prefix (on_os m).
Proof. intros H s Hs. apply wp_on_os. by apply H. Qed.

Lemma durable_hook b : keeps (durable_prefix path d) (call_hook b).
Proof. unfold call_hook. repeat first [keeps_step|apply keeps_draw]; done. Qed.

Lemma durable_flush o : keeps (durable_prefix path d) (ofs_flush o).
Proof.
  unfold ofs_flush. repeat first [keeps_step|apply keeps_draw; done|
    apply keeps_modify; intros ?; apply durable_append].
Qed.

Lemma durable_fdatasync path' : keeps (durable_prefix path d) (fs_fdatasync_loop path').
Proof.
  intros w H. unfold wp, fs_fdatasync_loop. destruct (fdatasync_retry (script w)) as [[e|] rest]; [done|].
  by apply durable_sync.
Qed.

Lemma durable_members :
  (∀ data what, keeps wal_keeps_prefix (write_and_flush data what)) ∧
  (∀ p, keeps wal_keeps_prefix (call_fault_hook p)) ∧ keeps wal_keeps_prefix SyncLocked.
Proof.
  split_and!; intros; unfold write_and_flush, call_fault_hook, SyncLocked, on_stats, the_path;
    repeat first [keeps_step|apply durable_on_os|apply durable_hook|apply durable_flush|
                  apply durable_fdatasync|by intros ?].
Qed.

(** Neither the writer's batch nor any append, whatever its outcome, touches a
    byte that is synchronized. *)
Lemma write_batch_keeps_prefix batch : keeps wal_keeps_prefix (write_batch batch).
Proof. destruct durable_members as (? & ? & ?). by apply write_batch_keeps. Qed.

Lemma append_keeps_prefix host r : keeps wal_keeps_prefix (append_record host r).
Proof. destruct durable_members as (? & ? & ?). by apply append_keeps. Qed.

End durable_keeps.

(** ** A process crash *)

Lemma replay_append_failed host s rs new e s' store :
  wal_ready host s rs → records_fit host (wal_fmt (format (wal s))) (rs ++ new) →
  append_failed host s rs new e s' →
  ∃ k result, replay_file host s' store = Ok (result, apply_records (rs ++ take k new) store).
Proof.
  intros Hr Hfit [_ Hc _ Hf]. unfold replay_file. rewrite Hc.
  eapply replay_torn; [apply Hr|by eapply ready_format_ok|done|done].
Qed.

Lemma ready_snoc_fit host s rs r :
  wal_ready host s rs → record_fits host (negb (legacy_v2_ (format (wal s)))) r →
  records_fit host (wal_fmt (format (wal s))) (rs ++ [r]).
Proof.
  intros Hs Hr. pose proof (ready_fit _ _ _ Hs) as Hfit. unfold records_fit in *.
  rewrite is_v3_wal_fmt in *. split.
  - apply Forall_app. split; [apply Hfit|]. by apply Forall_singleton.
  - intros Hv%negb_true_iff. destruct (ready_sequence _ _ _ Hs Hv) as [_ ?]. rewrite length_app. cbn. lia.
Qed.

(** An append is atomic with respect to a crash of the process and a
    later recovery: replaying the file after a successful append gives the old
    records and the new one; after a failed append, at whatever point it failed,
    it gives the old records, or the old records and the new one. *)
Theorem append_crash_atomic host s rs r store :
  wal_ready host s rs → queue_ (queue (wal s)) = [] →
  (rec_op r = WalOp_Delete → rec_value r = []) →
  wp (append_record host r)
    (λ _ s', ∃ result, replay_file host s' store = Ok (result, apply_records (rs ++ [r]) store))
    (λ _ s', ∃ result seen, replay_file host s' store = Ok (result, apply_records (rs ++ seen) store)
                            ∧ (seen = [] ∨ seen = [r]))
    s.
Proof.
  intros Hr Hq Hdel. apply (wp_append_record host s rs); [done..| | |].
  - intros s' _ Ha _. destruct (replay_ready host s' (rs ++ [r]) store) as (result & H & _);
      [apply Ha|by exists result].
  - intros e _. destruct (replay_ready host s rs store) as (result & H & _); [done|].
    exists result, []. rewrite app_nil_r. auto.
  - intros e s' Hfit Hf.
    destruct (replay_append_failed host s rs [r] e s' store) as (k & result & H);
      [done|by apply ready_snoc_fit|done|].
    exists result, (take k [r]). split; [done|]. destruct k as [|k]; [by left|right]. by destruct k.
Qed.

(** ** Power failures *)

(** Appends that go on after failures; the records that were acknowledged. *)
Fixpoint append_all (host : endianness) (rs : list ParsedRecord) : M wal_state (list ParsedRecord) :=
  match rs with
  | [] => ret []
  | r :: rs =>
      let! ok := catch (append_record host r ;;; ret true) (λ _, ret false) in
      let! acked := append_all host rs in
      ret (if ok then r :: acked else acked)
  end.

(** An object that failed refuses every append and changes nothing. *)
Lemma wp_append_after_failure host r s e (Q : unit → wal_state → Prop) (E : exn → wal_state → Prop) :
  failure_ (wal s) = Some e → (∀ e', E e' s) → wp (append_record host r) Q E s.
Proof.
  intros Hf HE.
  assert (∀ k : M wal_state unit, wp (check_appendable ;;; k) Q E s) as Hc.
  { intros k. unfold check_appendable. do 3 wal_step. rewrite Hf. by wal_step. }
  assert (∀ payload, wp (AppendPayload host payload) Q E s) as Hp.
  { intros payload. unfold AppendPayload. do 3 wal_step.
    apply wp_of_res; [intros frame _|intros; apply HE]. case_bool_decide; [apply Hc|].
    wal_step. unfold enqueue. unfold check_appendable. do 3 wal_step. rewrite Hf. by wal_step. }
  unfold append_record, AppendSet, AppendDelete.
  destruct (rec_op r); do 3 wal_step; (apply wp_of_res; [intros ? _|intros; apply HE]).
  - wal_step. apply wp_of_res; [intros ? _|intros; apply HE].
    wal_step. apply wp_of_res; [intros ? _|intros; apply HE]. apply Hp.
  - wal_step. apply wp_of_res; [intros ? _|intros; apply HE]. apply Hp.
Qed.


Lemma is_image_nil host f rs :
  (legacy_v2_ f = false → header_pending_ f = true → rs = []) →
  wal_image host f rs = [] ∨ wal_image host f rs = log_image host (wal_fmt f) rs.
Proof. intros Hp. unfold wal_image. destruct (negb _ && _); auto. Qed.

(** Whatever follows the image of a log, its records are replayed. *)
Lemma replay_image_garbage host f rs garbage store :
  (legacy_v2_ f = false → header_pending_ f = true → rs = []) →
  format_ok (wal_fmt f) → records_fit host (wal_fmt f) rs →
  ∃ result more, ReplayDetailed host (Some (wal_image host f rs ++ garbage)) store
                 = Ok (result, apply_records (rs ++ more) store).
Proof.
  intros Hp Hok Hfit.
  destruct (decide (rs = [])) as [->|Hne]; [apply replay_any|].
  unfold wal_image. destruct (negb _ && _) eqn:Hb.
  { apply andb_true_iff in Hb as [Hl%negb_true_iff ?]. by destruct Hne; apply Hp. }
  destruct (replay_keeps_records host (wal_fmt f) rs garbage store)
    as (result & more & H & _); [done..|by right|]. by exists result, more.
Qed.

(** The records [rs] are a log whose bytes are synchronized. *)
Definition log_durable (host : endianness) (path : bytes) (rs : list ParsedRecord) (w : world)
  : Prop :=
  ∃ f, (legacy_v2_ f = false → header_pending_ f = true → rs = []) ∧ format_ok (wal_fmt f) ∧
    records_fit host (wal_fmt f) rs ∧ durable_prefix path (wal_image host f rs) w.

Lemma log_durable_replay host path rs w content store :
  log_durable host path rs w → after_power_loss path w content →
  ∃ result more, ReplayDetailed host (Some content) store
                 = Ok (result, apply_records (rs ++ more) store).
Proof.
  intros (f & Hp & Hok & Hfit & x & Hx & [garbage1 Hsync] & _) (x' & garbage2 & Hx' & ->).
  rewrite Hx in Hx'. injection Hx' as <-. rewrite Hsync, <-app_assoc. by apply replay_image_garbage.
Qed.

(** The state of a run of appends: the acknowledged records are synchronized,
    and the object is ready or has failed. *)
Record run_state (host : endianness) (s0 : wal_state) (rs : list ParsedRecord) (s : wal_state)
  : Prop := {
  run_config : config (wal s) = config (wal s0);
  run_durable : log_durable host (path_ (config (wal s0))) rs (os s);
  run_goes_on : (wal_ready host s rs ∧ queue_ (queue (wal s)) = [] ∧ sync_fd_ (wal s) = true)
                ∨ is_Some (failure_ (wal s))
}.

Lemma file_durable_prefix path c w :
  file_contents path w = Some c → file_durable path w → durable_prefix path c w.
Proof.
  intros Hc (x & Hx & Hs). unfold file_contents in Hc. rewrite Hx in Hc. injection Hc as <-.
  exists x. rewrite Hs. done.
Qed.

Lemma ready_log_durable host s rs :
  wal_ready host s rs → wal_durable s → sync_fd_ (wal s) = true →
  log_durable host (path_ (config (wal s))) rs (os s).
Proof.
  intros Hr Hd Hfd. pose proof (ready_format_ok _ _ _ Hr). exists (format (wal s)).
  split_and!; [apply Hr|done|apply Hr|]. apply file_durable_prefix; [apply Hr|by apply Hd].
Qed.

Lemma run_append host s0 rs s r (Q : unit → wal_state → Prop) E :
  run_state host s0 rs s → policy_ (config (wal s0)) ≠ Buffered →
  (rec_op r = WalOp_Delete → rec_value r = []) →
  (∀ s', run_state host s0 (rs ++ [r]) s' → Q tt s') →
  (∀ e s', run_state host s0 rs s' → E e s') →
  wp (append_record host r) Q E s.
Proof.
  intros [Hc (f & Hp & Hok & Hfit & Hd) [(Hr & Hq & Hfd)|[e Hf]]] Hpol Hdel HQ HE.
  - set (path := path_ (config (wal s0))) in *.
    eapply wp_mono.
    + eapply wp_keeps; [apply append_keeps_prefix|exact Hd|by apply (append_result host s rs r)].
    + cbn beta. intros [] s' [[[Hr' Hc' Hfd' Hl' Hd'] Hq'] _]. apply HQ. split; [congruence| |left].
      * rewrite <-Hc, <-Hc'. apply ready_log_durable; [done|apply Hd'; congruence|congruence].
      * split_and!; [done..|congruence].
    + cbn beta. intros e s' [[[-> _]|[He Hce _ Hfile]] Hk]; apply HE.
      * split; [done|by exists f|by left].
      * split; [congruence|by exists f|right; eauto].
  - eapply wp_append_after_failure; [done|]. intros e'. apply HE.
    split; [done|by exists f|right; eauto].
Qed.

Lemma run_append_all host s0 todo : ∀ rs s (Q : list ParsedRecord → wal_state → Prop) E,
  run_state host s0 rs s → policy_ (config (wal s0)) ≠ Buffered →
  Forall (λ r, rec_op r = WalOp_Delete → rec_value r = []) todo →
  (∀ acked s', run_state host s0 (rs ++ acked) s' → acked `sublist_of` todo → Q acked s') →
  wp (append_all host todo) Q E s.
Proof.
  induction todo as [|r todo IH]; intros rs s Q E Hs Hpol Hdel HQ; cbn [append_all].
  - wal_step. apply HQ; [by rewrite app_nil_r|done].
  - inversion Hdel as [|? ? Hr Hdel']; subst. do 3 wal_step.
    eapply run_append; [done..| |].
    + intros s' Hs'. do 2 wal_step. eapply IH; [done..|]. intros acked s2 Hs2 Hsub. wal_step.
      apply HQ; [by rewrite <-app_assoc in Hs2|by apply sublist_skip].
    + intros e s' Hs'. do 2 wal_step. eapply IH; [done..|]. intros acked s2 Hs2 Hsub. wal_step.
      apply HQ; [done|by apply sublist_cons].
Qed.

(** C10: acknowledged records survive a power failure. Under [Sync] and
    [GroupCommit], after any sequence of appends, whatever fails in it and
    whatever a power failure leaves behind the synchronized bytes, replaying the
    file gives the records that were there before, then every acknowledged
    record, in the order of the calls. *)
Theorem acknowledged_records_survive host s rs todo store :
  wal_ready host s rs → queue_ (queue (wal s)) = [] → sync_fd_ (wal s) = true →
  policy_ (config (wal s)) ≠ Buffered →
  durable_prefix (path_ (config (wal s))) (wal_image host (format (wal s)) rs) (os s) →
  Forall (λ r, rec_op r = WalOp_Delete → rec_value r = []) todo →
  wp (append_all host todo)
    (λ acked s', acked `sublist_of` todo ∧
       ∀ content, after_power_loss (path_ (config (wal s'))) (os s') content →
       ∃ result more, ReplayDetailed host (Some content) store
                      = Ok (result, apply_records (rs ++ acked ++ more) store))
    (λ _ _, False) s.
Proof.
  intros Hr Hq Hfd Hpol Hd Hdel. eapply (run_append_all host s todo rs); [|done..|].
  - split; [done| |by left]. exists (format (wal s)). pose proof (ready_format_ok _ _ _ Hr).
    destruct Hr. done.
  - intros acked s' [Hc Hd' _] Hsub. split; [done|]. intros content Hloss. rewrite Hc in Hloss.
    destruct (log_durable_replay host _ _ _ content store Hd' Hloss) as (result & more & H).
    exists result, more. by rewrite <-app_assoc in H.
Qed.

(** A log object that failed refuses every later append and then touches
    neither itself nor the file; clearing the log does not lift the refusal. *)
Theorem failure_is_sticky host r s e :
  failure_ (wal s) = Some e →
  wp (append_record host r) (λ _ _, False) (λ _ s', s' = s) s ∧
  keeps (λ s', failure_ (wal s') = Some e) Clear.
Proof.
  intros Hf. split; [by eapply wp_append_after_failure|].
  unfold Clear, call_fault_hook, close_output, reopen_output, sync_unless_buffered, SyncLocked,
    on_stats, the_path.
  assert (∀ A (m : M world A), keeps (λ s', failure_ (wal s') = Some e) (on_os m)) as Ho.
  { intros A m s' Hs'. apply wp_on_os. unfold wp. by destruct (m (os s')) as [[] ?]. }
  assert (∀ f, (∀ w, failure_ (f w) = failure_ w) → keeps (λ s', failure_ (wal s') = Some e) (on_wal f)) as Hw.
  { intros f Hff s' Hs'. apply wp_on_wal. cbn. by rewrite Hff. }
  repeat first [keeps_step|apply Ho|by apply Hw].
Qed.
