(* ===== verification/WalMaintenance.v ===== *)
(** * Opening, measuring, clearing and repairing the log

    The constructor of [WriteAheadLog], [CurrentOffset], [Clear], [TruncateTo]
    and [ReplayFromAndTruncate] against the logs that files hold. *)

From S2P Require Import Prelude Machine BinaryIO Crc WalFormat WalReplay WalLog WalDurability.

(** ** The object of a file that may end in an unreadable tail *)

(** The format fields describe a file that holds [rs] and then [tail]. *)
Record format_describes (host : endianness) (f : wal_format) (content : bytes)
    (rs : list ParsedRecord) (tail : bytes) : Prop := {
  describes_valid : format_valid_ f = true;
  describes_recovery : needs_recovery_ f = negb (bool_decide (tail = []));
  describes_fit : records_fit host (wal_fmt f) rs;
  describes_generation : legacy_v2_ f = false → 0 < generation_ f < 2 ^ 64;
  describes_sequence : legacy_v2_ f = false →
    next_sequence_ f = Z.of_nat (length rs) + 1 ∧ Z.of_nat (length rs) + 1 < 2 ^ 64;
  describes_pending : legacy_v2_ f = false → header_pending_ f = true → rs = [] ∧ tail = [];
  describes_content : content = wal_image host f rs ++ tail;
  describes_legacy : legacy_v2_ f = true → generation_ f = 0;
  describes_replay : ∀ store, ∃ result,
    ReplayFromDetailed host (Some content) 0 store = Ok (result, apply_records rs store) ∧
    (replay_status result = CleanEof ↔ tail = []) ∧
    (tail ≠ [] → last_good_offset result = size_of (log_image host (wal_fmt f) rs)) ∧
    applied_operations result = Z.of_nat (length rs) ∧ truncated result = false
}.

(** A fresh object on that file. *)
Record wal_holds (host : endianness) (s : wal_state) (rs : list ParsedRecord) (tail : bytes)
  : Prop := {
  holds_stream : output_ (wal s) = ofs_opened (path_ (config (wal s)));
  holds_failure : failure_ (wal s) = None;
  holds_batch : 0 < max_batch_ (config (wal s)) ≤ 4096;
  holds_file : ∃ content, file_contents (path_ (config (wal s))) (os s) = Some content ∧
    format_describes host (format (wal s)) content rs tail
}.

(** Without a tail it is ready for appends. *)
Lemma wal_holds_ready host s rs : wal_holds host s rs [] ↔ wal_ready host s rs.
Proof.
  split.
  - intros [Hs Hf Hb (content & Hfile & Hd)]. destruct Hd as [Hv Hr Hfit Hg Hseq Hp -> Hleg _].
    rewrite app_nil_r in Hfile. split; try done. intros Hl Hpe. by destruct (Hp Hl Hpe).
  - intros Hr. pose proof (λ store, replay_ready host s rs store Hr) as Hrep.
    destruct Hr. split; try done. eexists. split; [done|]. split; try done.
    + intros Hl Hpe. split; [by apply ready_pending|done].
    + by rewrite app_nil_r.
    + intros store. destruct (Hrep store) as (result & H & Hst & Hn & Ht).
      unfold replay_file, ReplayDetailed in H. rewrite ready_file in H. by exists result.
Qed.

Lemma format_describes_empty host : format_describes host (set_header_pending true default_format) [] [] [].
Proof. split; try done. intros store. by eexists. Qed.

(** The format fields that the constructor computes for a file that is not empty. *)
Definition inspected (fmt : log_format) (rs : list ParsedRecord) (tail : bytes) : wal_format :=
  {| legacy_v2_ := negb (is_v3 fmt); header_pending_ := false; format_valid_ := true;
     needs_recovery_ := negb (bool_decide (tail = [])); generation_ := format_generation fmt;
     next_sequence_ := if is_v3 fmt then Z.of_nat (length rs) + 1 else 1 |}.

Lemma wal_fmt_inspected fmt rs tail : wal_fmt (inspected fmt rs tail) = fmt.
Proof. by destruct fmt. Qed.

Lemma wal_image_inspected host fmt rs tail rs' :
  wal_image host (inspected fmt rs tail) rs' = log_image host fmt rs'.
Proof. unfold wal_image. by rewrite andb_false_r, wal_fmt_inspected. Qed.

(** The file of a log and an unreadable tail, at a replay from its beginning. *)
Definition reads_as (host : endianness) (fmt : log_format) (content : bytes) (rs : list ParsedRecord)
    (tail : bytes) (status : WalReplayStatus) : Prop :=
  content = log_image host fmt rs ++ tail ∧ opens_as fmt content ∧ records_fit host fmt rs ∧
  (status = CleanEof ↔ tail = []) ∧
  ∀ store, ReplayFromDetailed host (Some content) 0 store
    = Ok (replay_report fmt 0 rs (if is_v3 fmt then Z.of_nat (length rs) else 0) status
            (size_of (log_image host fmt rs)), apply_records rs store).

Lemma inspected_describes host fmt content rs tail status :
  reads_as host fmt content rs tail status → format_ok fmt →
  (is_v3 fmt = true → Z.of_nat (length rs) + 1 < 2 ^ 64) →
  format_describes host (inspected fmt rs tail) content rs tail.
Proof.
  intros (Hc & _ & Hfit & Hcl & Hrep) Hok Hlen. split; rewrite ?wal_image_inspected, ?wal_fmt_inspected; try done.
  - intros Hl. by destruct fmt.
  - intros Hl. destruct fmt; [done|]. split; [done|]. by apply Hlen.
  - by destruct fmt.
  - intros store. rewrite Hrep. by eexists.
Qed.

(** A file that is not empty has a prefix. *)
Lemma prefix_there (content : bytes) :
  content ≠ [] → (size_of content =? 0) = false ∧ (size_of (take 4 content) =? 0) = false.
Proof. destruct content; [done|]. intros _. by split. Qed.

(** The constructor reads such a file; the one log it refuses has no number left for
    the next record. *)
Lemma inspect_reads host fmt content rs tail status :
  reads_as host fmt content rs tail status → content ≠ [] →
  inspect_file host content
  = if is_v3 fmt && (Z.of_nat (length rs) =? u64_max)
    then Exn (runtime_error (str "WAL sequence is exhausted")) else Ok (inspected fmt rs tail).
Proof.
  intros (Hc & Hopen & [_ Hlen] & Hcl & Hrep) Hne. unfold inspect_file, inspect_seen.
  cbn [default from_option id]; cbv zeta; destruct (prefix_there content Hne) as [-> ->]. cbn [negb andb].
  unfold inspected. rewrite <-(bool_decide_ext _ _ Hcl). destruct fmt as [|g].
  - destruct Hopen as [?| ->]; [done|]. by rewrite Hrep.
  - destruct Hopen as (Hg & body & Hb). rewrite Hrep, Hb, looks_portable_header.
    change (size_of (take 4 _) =? 4) with true. cbv iota. rewrite parse_make_header by done.
    cbn [replay_report last_sequence replay_status is_v3 andb format_generation negb] in *.
    destruct (Z.eqb_spec (Z.of_nat (length rs)) u64_max) as [|Hmax]; [done|].
    unfold u64_max in Hmax. specialize (Hlen eq_refl). unfold u64. by rewrite Z.mod_small by lia.
Qed.

Lemma fit_sequence host fmt rs :
  records_fit host fmt rs → is_v3 fmt && (Z.of_nat (length rs) =? u64_max) = false →
  is_v3 fmt = true → Z.of_nat (length rs) + 1 < 2 ^ 64.
Proof.
  intros [_ Hlen] Hb Hv. rewrite Hv in Hb. cbn in Hb. specialize (Hlen Hv). unfold u64_max in Hb. lia.
Qed.

(** What the constructor finds in a file. *)
Lemma inspect_file_spec host content :
  match inspect_file host content with
  | Ok f =>
      (∃ rs tail, format_describes host f content rs tail) ∨
      (format_valid_ f = false ∧ legacy_v2_ f = false ∧ generation_ f = 0 ∧
       ∃ result, ReplayFromDetailed host (Some content) 0 ∅ = Ok (result, ∅) ∧
                 replay_status result = InvalidHeader)
  | Exn e => e = runtime_error (str "WAL sequence is exhausted")
  end.
Proof.
  destruct (decide (content = [])) as [->|Hne].
  { left. exists [], []. apply format_describes_empty. }
  assert (∀ fmt, opens_as fmt content →
    match inspect_file host content with
    | Ok f => ∃ rs tail, format_describes host f content rs tail
    | Exn e => e = runtime_error (str "WAL sequence is exhausted")
    end) as Hreads.
  { intros fmt Hopen. destruct (ReplayFromDetailed_sound host fmt content Hopen)
      as (rs & tail & status & Hc & Hok & Hfit & _ & Hcl & _ & Hrep).
    assert (reads_as host fmt content rs tail status) as Hr by done.
    rewrite (inspect_reads _ _ _ _ _ _ Hr Hne). destruct (_ && _) eqn:Hx; [done|].
    exists rs, tail. eapply inspected_describes; [done..|]. by eapply fit_sequence. }
  destruct (ReplayFromDetailed_cases host content ∅) as [[fmt Hopen]|Hbad].
  { specialize (Hreads fmt Hopen). destruct (inspect_file host content); auto. }
  destruct (looks_portable content) eqn:Hp.
  2: { specialize (Hreads V2 (or_intror Hp)). destruct (inspect_file host content); auto. }
  destruct (if size_of (take 4 content) =? 4 then parse_header content 1 else (false, 1)) as [[] g] eqn:Eh.
  - destruct (size_of (take 4 content) =? 4); [|done]. apply parse_header_inv in Eh.
    specialize (Hreads (V3 g) Eh). destruct (inspect_file host content); auto.
  - unfold inspect_file, inspect_seen. cbn [default from_option id]; cbv zeta; destruct (prefix_there content Hne) as [-> ->]. cbn [negb andb].
    rewrite Hp, Eh. by right.
Qed.

(** ** Construction *)

Lemma wp_ofs_open_app path w (Q : ofstream → world → Prop) E :
  (∀ w', file_contents path w' = Some (default [] (file_contents path w)) → Q (ofs_opened path) w') →
  (∀ w', file_contents path w' = file_contents path w → Q (ofs_closed path) w') →
  wp (ofs_open_app path) Q E w.
Proof.
  intros HQ HF. unfold ofs_open_app, attempt. do 2 wp_step. apply wp_draw. intros [|n e] rest; wp_steps.
  - apply HQ. rewrite file_contents_create. by rewrite file_contents_script.
  - by apply HF.
Qed.

Lemma wp_fs_call_id w (Q : option Z → world → Prop) E :
  (∀ o rest, Q o (with_script rest w)) → wp (fs_call id) Q E w.
Proof. intros HQ. unfold fs_call. wp_step. apply wp_draw. intros [|n e] rest; wp_steps; apply HQ. Qed.

Lemma wp_sync_parent_directory a b w (Q : unit → world → Prop) E :
  (∀ rest, Q tt (with_script rest w)) → (∀ e rest, E e (with_script rest w)) →
  wp (sync_parent_directory a b) Q E w.
Proof.
  intros HQ HE. unfold sync_parent_directory. wp_step. apply wp_fs_call_id. intros [e|] rest.
  - wp_steps. apply HE.
  - wp_step. apply wp_fs_call_id. intros [e|] rest'; wp_steps; [apply (HE _ rest')|apply (HQ rest')].
Qed.

Lemma wp_res {S A} (r : res A) (Q : A → S → Prop) E s :
  (∀ a, r = Ok a → Q a s) → (∀ e, r = Exn e → E e s) → wp (of_res r) Q E s.
Proof. destruct r; cbn; unfold wp, ret, throw; auto. Qed.

(** The object that the constructor makes for a file with the fields [f]. *)
Definition opened_wal (c : wal_config) (f : wal_format) : WriteAheadLog :=
  {| config := c; output_ := ofs_opened (path_ c);
     sync_fd_ := bool_decide (policy_ c ≠ Buffered); format := f;
     stats_ := zero_stats (max_batch_ c);
     queue := {| queue_ := []; stopping_ := false; next_id := 0; completed := ∅ |};
     failure_ := None |}.

Lemma wp_open_wal_seeing v1 v2 host c w (Q : WriteAheadLog → world → Prop) E :
  let content := default [] (file_contents (path_ c) w) in
  (∀ f w', inspect_seen host (size_of content) (seen v1 (Some content)) (seen v2 (Some content)) = Ok f →
     0 < max_batch_ c ≤ 4096 → file_contents (path_ c) w' = Some content →
     Q (opened_wal c f) w') →
  (∀ e w', file_contents (path_ c) w' = file_contents (path_ c) w ∨
           file_contents (path_ c) w' = Some content → E e w') →
  0 ≤ max_batch_ c →
  wp (open_wal_seeing v1 v2 host c) Q E w.
Proof.
  intros content HQ HE Hmb. unfold open_wal_seeing. wp_step. apply wp_ofs_open_app.
  2: { intros w' Hw'. cbn. apply HE. by left. }
  intros w1 Hw1. cbn [ofs_is_open ofs_opened negb]. do 2 wp_step.
  wp_step. wp_step; [wp_step; by apply HE; right|]. wp_step.
  wp_step. unfold fs_file_size, attempt. do 2 wp_step. apply wp_draw. intros [|n e0] rest; wp_steps.
  all: try (apply HE; by right).
  assert (file_contents (path_ c) (id (with_script rest w1)) = Some content) as Hc by done.
  rewrite Hc. apply wp_res; [intros f Hf|intros e He; apply HE; by right].
  assert (0 < max_batch_ c ≤ 4096) as Hb by lia.
  wp_step. specialize (HQ f). unfold opened_wal in HQ. case_bool_decide as Hpol.
  - wp_step. apply wp_fs_call_id. intros [e|] rest1; [wp_step; apply HE; by right|].
    apply wp_sync_parent_directory; intros.
    + wp_step. by apply HQ.
    + apply HE. by right.
  - do 2 wp_step. by apply HQ.
Qed.

Lemma wp_open_wal host c w (Q : WriteAheadLog → world → Prop) E :
  let content := default [] (file_contents (path_ c) w) in
  (∀ f w', inspect_file host content = Ok f → 0 < max_batch_ c ≤ 4096 →
     file_contents (path_ c) w' = Some content →
     Q (opened_wal c f) w') →
  (∀ e w', file_contents (path_ c) w' = file_contents (path_ c) w ∨
           file_contents (path_ c) w' = Some content → E e w') →
  0 ≤ max_batch_ c →
  wp (open_wal host c) Q E w.
Proof. intros. by apply (wp_open_wal_seeing Whole Whole). Qed.

(** The constructor never changes the bytes of the log, under every
    pattern of failures. The object it returns describes the file exactly: some
    records and a tail, appends being refused until recovery when there is a
    tail; or the header is unreadable, appends are refused, and a replay reports
    an invalid header. *)
Theorem open_describes_file host c w :
  0 ≤ max_batch_ c →
  let path := path_ c in
  let content := default [] (file_contents path w) in
  wp (open_wal host c)
    (λ o w', file_contents path w' = Some content ∧ config o = c ∧
       queue_ (queue o) = [] ∧ sync_fd_ o = bool_decide (policy_ c ≠ Buffered) ∧
       ((∃ rs tail, wal_holds host (WalState o w') rs tail ∧
           needs_recovery_ (format o) = negb (bool_decide (tail = [])))
        ∨ (format_valid_ (format o) = false ∧
           ∃ result, replay_file host (WalState o w') ∅ = Ok (result, ∅) ∧
                     replay_status result = InvalidHeader)))
    (λ _ w', default [] (file_contents path w') = content)
    w.
Proof.
  intros Hmb path content. 
  apply wp_open_wal; [|intros e w' [Hw'|Hw']; unfold path, content; by rewrite Hw'|done].
  intros f w' Hf Hb Hw'. split_and!; [done..|].
  pose proof (inspect_file_spec host content) as Hspec. fold path content in Hf. rewrite Hf in Hspec.
  destruct Hspec as [(rs & tail & Hd)|(Hv & _ & _ & result & Hr & Hi)].
  - left. exists rs, tail. split; [|apply Hd]. split; cbn; try done. by exists content.
  - right. split; [done|]. exists result. split; [|done].
    change (ReplayFromDetailed host (file_contents (path_ c) w') 0 ∅ = Ok (result, ∅)).
    by rewrite Hw'.
Qed.

(** ** Measuring *)

(** [PinWriterToCpu] changes nothing but the outcome of the scheduler call, and
    can only fail when there is a writer. *)
Lemma wp_PinWriterToCpu cpu s :
  wp (PinWriterToCpu cpu)
    (λ _ s', wal s' = wal s ∧ files (os s') = files (os s))
    (λ _ s', wal s' = wal s ∧ files (os s') = files (os s) ∧ policy_ (config (wal s)) = GroupCommit) s.
Proof.
  unfold PinWriterToCpu. do 2 wp_step. destruct (policy_ (config (wal s))); [by wp_step..|].
  wp_step. apply wp_on_os, wp_fs_call_id. intros [e|] rest; by wp_step.
Qed.

Lemma wp_CurrentOffset host s rs (Q : Z → wal_state → Prop) E :
  wal_ready host s rs →
  (∀ w', files w' = files (os s) →
     size_of (wal_image host (format (wal s)) rs) ≤ streamoff_max →
     Q (size_of (wal_image host (format (wal s)) rs)) (WalState (wal s) w')) →
  (∀ e o w', files w' = files (os s) →
     E e (WalState (set_output o (wal s)) w')) →
  wp CurrentOffset Q E s.
Proof.
  intros [] HQ HE. unfold CurrentOffset. do 2 wal_step. rewrite ready_stream.
  unfold ofs_flush, ofs_seek_end, ofs_tellp, attempt.
  cbn [ofs_is_open ofs_good ofs_opened ofs_buffer andb]. rewrite bool_decide_true by done.
  cbn [negb]. do 2 wal_step. wal_step. do 2 wal_step. cbn [negb ofs_opened ofs_good].
  do 4 wal_step. apply wp_draw. intros [|n e] rest; wal_steps; try done.
  - replace (file_contents _ _) with (Some (wal_image host (format (wal s)) rs)) by done.
    destruct (Z.leb_spec (size_of (wal_image host (format (wal s)) rs)) streamoff_max); wal_step.
    + rewrite <-ready_stream, set_output_id. by apply HQ.
    + by apply HE.
  - by apply HE.
Qed.

(** ** Clearing *)

Section file_steps.
  Context (s : wal_state).
  Implicit Types (Q : unit → wal_state → Prop) (E : exn → wal_state → Prop).
  Local Abbreviation path := (path_ (config (wal s))).

Lemma wp_close_output Q E :
  ofs_buffer (output_ (wal s)) = [] →
  (∀ o, ofs_buffer o = [] → Q tt (WalState (set_output o (wal s)) (os s))) → wp close_output Q E s.
Proof.
  intros Hb HQ. unfold close_output, ofs_close, ofs_flush. do 4 wal_step. rewrite Hb.
  rewrite bool_decide_true by done. rewrite andb_false_r. wal_steps. by apply HQ.
Qed.

Lemma wp_reopen_output Q E :
  (∀ w', file_contents path w' = Some (default [] (file_contents path (os s))) →
     Q tt (WalState (set_output (ofs_opened path) (wal s)) w')) →
  (∀ e o w', ofs_buffer o = [] → file_contents path w' = file_contents path (os s) →
     E e (WalState (set_output o (wal s)) w')) →
  wp reopen_output Q E s.
Proof.
  intros HQ HE. unfold reopen_output. do 4 wal_step.
  apply wp_ofs_open_app; intros w' Hw'; wal_steps; try done; [by apply HQ|by apply HE].
Qed.

Lemma wp_sync_unless_buffered c Q E :
  file_contents path (os s) = Some c →
  (∀ st w', file_contents path w' = Some c →
     (policy_ (config (wal s)) ≠ Buffered → sync_fd_ (wal s) = true → file_durable path w') →
     Q tt (WalState (set_stats st (wal s)) w')) →
  (∀ e w', file_contents path w' = Some c → E e (WalState (wal s) w')) →
  wp sync_unless_buffered Q E s.
Proof.
  intros Hc HQ HE. unfold sync_unless_buffered. do 2 wal_step. wal_step.
  - eapply wp_SyncLocked; [done..| |]; intros; [by apply HQ|by apply HE].
  - apply bool_decide_eq_false in H. destruct s as [w os']. cbn in *.
    replace w with (set_stats (stats_ w) w) by (by destruct w). by apply HQ.
Qed.

End file_steps.

(** An empty log of a new generation. *)
Record wal_cleared (host : endianness) (s s' : wal_state) : Prop := {
  cleared_ready : wal_ready host s' [];
  cleared_config : config (wal s') = config (wal s);
  cleared_queue : queue (wal s') = queue (wal s);
  cleared_sync_fd : sync_fd_ (wal s') = sync_fd_ (wal s);
  cleared_legacy : legacy_v2_ (format (wal s')) = false;
  cleared_generation : generation_ (format (wal s')) = generation_ (format (wal s)) + 1;
  cleared_durable : policy_ (config (wal s)) ≠ Buffered → wal_durable s'
}.

Lemma wp_Clear host s (Q : unit → wal_state → Prop) E :
  let path := path_ (config (wal s)) in
  ofs_buffer (output_ (wal s)) = [] → failure_ (wal s) = None →
  0 < max_batch_ (config (wal s)) ≤ 4096 → 0 ≤ generation_ (format (wal s)) < 2 ^ 64 →
  (∀ s', wal_cleared host s s' → Q tt s') →
  (∀ e s', config (wal s') = config (wal s) → ofs_buffer (output_ (wal s')) = [] →
     (file_contents path (os s') = file_contents path (os s) ∧ format (wal s') = format (wal s))
     ∨ file_contents path (os s') = Some [] → E e s') →
  wp Clear Q E s.
Proof.
  intros path Hbuf Hf Hb Hg HQ HE. unfold Clear. wal_step.
  apply wp_call_fault_hook; intros rest; [|by apply HE; auto].
  do 3 wal_step. cbn [wal]. unfold u64_max.
  destruct (Z.eqb_spec (generation_ (format (wal s))) (2 ^ 64 - 1)); [by wal_step; apply HE; auto|].
  do 2 wal_step. apply wp_close_output; [done|]. intros o Ho. cbn [wal os].
  do 3 wal_step. unfold ofs_open_trunc, attempt. do 3 wal_step. apply wp_draw.
  intros [|landed e] rest2; wal_steps; cbn [ofs_is_open ofs_opened ofs_closed negb] in *; try done;
    [|by apply HE; auto].
  unfold ofs_flush. cbn [ofs_is_open ofs_good ofs_opened ofs_buffer andb].
  rewrite bool_decide_true by done. cbn [negb]. wal_steps; try done.
  apply wp_reopen_output; cbn [wal os].
  - intros w1 Hw1. change (path_ _) with path in Hw1. rewrite file_contents_truncate in Hw1. cbn in Hw1.
    do 2 wal_step. apply wp_sync_unless_buffered with (c := []); [done| |].
    + intros st w2 Hw2 Hd. apply HQ. split; cbn; try done; [|unfold u64; apply Z.mod_small; lia].
      split; cbn; try done. intros _. unfold u64. rewrite Z.mod_small by lia. lia.
    + intros e w2 Hw2. apply HE; [done..|by right].
  - intros e o1 w1 Ho1 Hw1. apply HE; [done..|right]. change (path_ _) with path in Hw1.
    by rewrite file_contents_truncate in Hw1.
Qed.

(** [Clear] (and [Rotate], which is the same) from any object that has
    not failed, also one that awaits recovery or holds a v2 log: on success the
    object is ready with an empty v3 log of the next generation, synchronized
    unless the policy is [Buffered]; on failure the file is as before or empty. *)
Theorem clear_starts_generation host s :
  let path := path_ (config (wal s)) in
  ofs_buffer (output_ (wal s)) = [] → failure_ (wal s) = None →
  0 < max_batch_ (config (wal s)) ≤ 4096 → 0 ≤ generation_ (format (wal s)) < 2 ^ 64 →
  wp Rotate (λ _ s', wal_cleared host s s')
    (λ _ s', file_contents path (os s') = file_contents path (os s) ∨
             file_contents path (os s') = Some []) s.
Proof. intros. unfold Rotate. apply (wp_Clear host); auto. intros e s' _ _ [[? _]|?]; auto. Qed.

(** ** Repair *)

Lemma file_contents_resize path n w c :
  file_contents path w = Some c →
  file_contents path (with_files (alter (update_contents (take n)) path) w) = Some (take n c).
Proof.
  unfold file_contents. cbn. rewrite lookup_alter_eq. destruct (files w !! path); cbn; by intros [= ->].
Qed.

Lemma holds_image host s rs tail :
  wal_holds host s rs tail → tail ≠ [] →
  file_contents (path_ (config (wal s))) (os s)
    = Some (log_image host (wal_fmt (format (wal s))) rs ++ tail) ∧
  negb (legacy_v2_ (format (wal s))) && header_pending_ (format (wal s)) = false.
Proof.
  intros [_ _ _ (content & Hfile & Hd)] Hne. destruct Hd as [_ _ _ _ _ Hp -> Hleg _].
  assert (negb (legacy_v2_ (format (wal s))) && header_pending_ (format (wal s)) = false) as Hpend.
  { destruct (legacy_v2_ _), (header_pending_ _); try done. by destruct Hp. }
  split; [|done]. unfold wal_image in Hfile. by rewrite Hpend in Hfile.
Qed.

Lemma replay_log_clean host f rs :
  format_ok (wal_fmt f) → records_fit host (wal_fmt f) rs →
  ReplayFromDetailed host (Some (log_image host (wal_fmt f) rs)) 0 ∅
  = Ok (replay_report (wal_fmt f) 0 rs (if is_v3 (wal_fmt f) then Z.of_nat (length rs) else 0)
          CleanEof (size_of (log_image host (wal_fmt f) rs)), apply_records rs ∅).
Proof. intros. by apply ReplayFromDetailed_log. Qed.

Lemma wp_truncated_format host s rs (Q : unit → wal_state → Prop) E :
  let f := format (wal s) in
  file_contents (path_ (config (wal s))) (os s) = Some (log_image host (wal_fmt f) rs) →
  format_ok (wal_fmt f) → records_fit host (wal_fmt f) rs →
  (legacy_v2_ f = false → Z.of_nat (length rs) + 1 < 2 ^ 64) →
  (∀ n, (legacy_v2_ f = false → n = Z.of_nat (length rs) + 1) → Q tt (WalState (set_seq n (wal s)) (os s))) →
  wp (truncated_format host (size_of (log_image host (wal_fmt f) rs))) Q E s.
Proof.
  intros f Hfile Hok Hfit Hlt HQ. unfold truncated_format. do 2 wal_step. fold f.
  destruct (legacy_v2_ f) eqn:Hl.
  { wal_step. destruct s as [w os']. rewrite <-(set_seq_id w). by apply HQ. }
  specialize (Hlt eq_refl).
  assert (is_v3 (wal_fmt f) = true) as Hv3 by (by rewrite is_v3_wal_fmt, Hl).
  destruct (Z.eqb_spec (size_of (log_image host (wal_fmt f) rs)) 0) as [H0|_].
  { exfalso. unfold log_image in H0. rewrite size_of_app, size_of_header, Hv3 in H0.
    pose proof (size_of_nonneg (log_frames host true 1 rs)). unfold kHeaderLength in H0. lia. }
  do 5 wal_step. rewrite Hfile, replay_log_clean by done. apply wp_res; [|done]. intros ? [= <-].
  rewrite Hv3. cbn [fst replay_report replay_status last_sequence]. rewrite bool_decide_true by done.
  unfold u64_max. destruct (Z.eqb_spec (Z.of_nat (length rs)) (2 ^ 64 - 1)); [lia|]. cbn [negb orb].
  wal_step. unfold u64. rewrite Z.mod_small by lia. by apply HQ.
Qed.

Lemma wp_fs_exists_size path c w (Q : option Z → world → Prop) E :
  file_contents path w = Some c →
  (∀ rest, Q (Some (size_of c)) (with_script rest w)) → (∀ rest, Q None (with_script rest w)) →
  wp (fs_exists_size path) Q E w.
Proof.
  intros Hc HQ HF. unfold fs_exists_size, attempt. do 2 wp_step. apply wp_draw.
  intros [|n e] rest; wp_steps; [|apply HF].
  change (file_contents path (id (with_script rest w))) with (file_contents path w).
  rewrite Hc. apply HQ.
Qed.

(** The file is cut to its first [n] bytes and opened again; the fields follow. *)
Lemma wp_TruncateTo host s content n (Q : unit → wal_state → Prop) E :
  let path := path_ (config (wal s)) in
  let cut := take (Z.to_nat n) content in
  ofs_buffer (output_ (wal s)) = [] → file_contents path (os s) = Some content → n ≤ size_of content →
  (∀ w', file_contents path w' = Some cut →
     wp (truncated_format host n ;;; on_wal (λ w, set_format (set_recovered (format w)) w) ;;;
         sync_unless_buffered) Q E (WalState (set_output (ofs_opened path) (wal s)) w')) →
  (∀ e s', config (wal s') = config (wal s) →
     file_contents path (os s') = Some content ∨ file_contents path (os s') = Some cut → E e s') →
  wp (TruncateTo host n) Q E s.
Proof.
  intros path cut Ho Hfile Hn HQ HE.
  unfold TruncateTo. wal_step. apply wp_call_fault_hook; intros rest; [|by apply HE; auto].
  do 3 wal_step. cbn [wal]. wal_step.
  { wal_step. apply HE; auto. }
  do 2 wal_step. apply wp_close_output; [done|]. intros o _. cbn [wal os].
  do 4 wal_step. eapply wp_fs_exists_size; [exact Hfile| |].
  2: { intros rest2. wal_step. by apply HE; auto. }
  intros rest2. cbn [wal os].
  do 2 wal_step; [exfalso; lia|]. do 3 wal_step. unfold fs_resize_file, attempt. do 2 wp_step.
  rewrite bool_decide_true by (rewrite ?Hfile; by eexists). cbn [negb]. wal_step. apply wp_draw.
  intros [|m e] rest3; wal_steps; try done; [|by apply HE; auto].
  match goal with |- wp _ _ _ (WalState _ ?w) =>
    assert (file_contents path w = Some cut) as Hcut by (by rewrite (file_contents_resize _ _ _ content));
    revert Hcut; generalize w
  end. intros wc Hcut.
  apply wp_reopen_output; cbn [wal os].
  2: { intros e o1 w1 _ Hw1. apply HE; [done|right]. rewrite <-Hcut. exact Hw1. }
  intros w1 Hw1. apply HQ. trans (Some (default [] (file_contents path wc))); [exact Hw1|by rewrite Hcut].
Qed.

(** A repaired object: ready for appends after [rs], of the same kind of file. *)
Record wal_repaired (host : endianness) (s : wal_state) (rs : list ParsedRecord) (s' : wal_state) : Prop := {
  repaired_ready : wal_ready host s' rs;
  repaired_config : config (wal s') = config (wal s);
  repaired_queue : queue (wal s') = queue (wal s);
  repaired_sync_fd : sync_fd_ (wal s') = sync_fd_ (wal s);
  repaired_legacy : legacy_v2_ (format (wal s')) = legacy_v2_ (format (wal s));
  repaired_durable : policy_ (config (wal s)) ≠ Buffered → sync_fd_ (wal s) = true →
    file_durable (path_ (config (wal s))) (os s')
}.

(** Cutting the file to the log of [rs], whatever follows and whichever number the
    object would give to the next record. *)
Lemma wp_TruncateTo_prefix host s rs tail (Q : unit → wal_state → Prop) E :
  let path := path_ (config (wal s)) in
  let f := format (wal s) in
  let image := log_image host (wal_fmt f) rs in
  output_ (wal s) = ofs_opened path → failure_ (wal s) = None → 0 < max_batch_ (config (wal s)) ≤ 4096 →
  format_valid_ f = true → format_ok (wal_fmt f) → records_fit host (wal_fmt f) rs →
  (legacy_v2_ f = false → Z.of_nat (length rs) + 1 < 2 ^ 64) →
  negb (legacy_v2_ f) && header_pending_ f = false → (legacy_v2_ f = true → generation_ f = 0) →
  file_contents path (os s) = Some (image ++ tail) →
  (∀ s', wal_repaired host s rs s' → file_contents path (os s') = Some image → Q tt s') →
  (∀ e s', config (wal s') = config (wal s) →
     file_contents path (os s') = Some (image ++ tail) ∨ file_contents path (os s') = Some image →
     E e s') →
  wp (TruncateTo host (size_of image)) Q E s.
Proof.
  intros path f image Ho Hf Hb Hv Hok Hfit Hlt Hpend Hleg Hfile HQ HE.
  assert (take (Z.to_nat (size_of image)) (image ++ tail) = image) as Hcut
    by (unfold size_of; by rewrite Nat2Z.id, take_app_length).
  apply (wp_TruncateTo host s (image ++ tail)); rewrite ?Hcut; [by rewrite Ho|done| | |done].
  { rewrite size_of_app. pose proof (size_of_nonneg tail). lia. }
  intros w1 Hw1. wal_step.
  match goal with |- wp _ _ _ ?t => apply (wp_truncated_format host t rs) end; [done..|].
  intros n Hn. do 2 wal_step. apply wp_sync_unless_buffered with (c := image); [done| |].
  - intros st w2 Hw2 Hd2. apply HQ; [|done]. split; try done. split; cbn; try done.
    + intros Hl. unfold format_ok, wal_fmt in Hok. fold f in Hl |- *. by rewrite Hl in Hok.
    + intros Hl. split; [by apply Hn|by apply Hlt].
    + fold f. intros Hl Hp. by rewrite Hl, Hp in Hpend.
    + trans (Some image); [exact Hw2|]. unfold wal_image. cbn. fold f. by rewrite Hpend.
  - intros e w2 Hw2. apply HE; [done|by right].
Qed.

Lemma wp_TruncateTo_log host s rs tail (Q : unit → wal_state → Prop) E :
  let path := path_ (config (wal s)) in
  let image := log_image host (wal_fmt (format (wal s))) rs in
  wal_holds host s rs tail → tail ≠ [] →
  (∀ s', wal_repaired host s rs s' → file_contents path (os s') = Some image → Q tt s') →
  (∀ e s', config (wal s') = config (wal s) →
     file_contents path (os s') = Some (image ++ tail) ∨ file_contents path (os s') = Some image →
     E e s') →
  wp (TruncateTo host (size_of image)) Q E s.
Proof.
  intros path image Hh Hne HQ HE. destruct (holds_image _ _ _ _ Hh Hne) as [Hfile Hpend].
  destruct Hh as [Ho Hf Hb (content & _ & [Hv _ Hfit Hg Hseq _ _ Hleg _])].
  apply (wp_TruncateTo_prefix host s rs tail); try done; [|by apply Hseq].
  unfold wal_fmt. destruct (legacy_v2_ (format (wal s))); [done|]. by apply Hg.
Qed.

(** Cutting everything off, as the recovery of a file without a readable header
    does, starts the next generation. *)
Lemma wp_TruncateTo_start host s content (Q : unit → wal_state → Prop) E :
  let path := path_ (config (wal s)) in
  let f := format (wal s) in
  output_ (wal s) = ofs_opened path → failure_ (wal s) = None →
  0 < max_batch_ (config (wal s)) ≤ 4096 → file_contents path (os s) = Some content →
  legacy_v2_ f = false → 0 ≤ generation_ f < 2 ^ 64 - 1 →
  (∀ s', wal_repaired host s [] s' → file_contents path (os s') = Some [] → Q tt s') →
  (∀ e s', config (wal s') = config (wal s) →
     file_contents path (os s') = Some content ∨ file_contents path (os s') = Some [] → E e s') →
  wp (TruncateTo host 0) Q E s.
Proof.
  intros path f Ho Hf Hb Hfile Hl Hg HQ HE.
  apply (wp_TruncateTo host s content); [by rewrite Ho|done|apply size_of_nonneg| |done].
  intros w1 Hw1. unfold truncated_format. do 3 wal_step. cbn [wal set_output format]. fold f. rewrite Hl.
  change (0 =? 0) with true. cbv iota.
  do 3 wal_step. apply wp_sync_unless_buffered with (c := []); [done| |].
  - intros st w2 Hw2 Hd2. apply HQ; [|done]. split; try done.
    split; cbn; try done. intros _. fold f. unfold u64. rewrite Z.mod_small by lia. lia.
  - intros e w2 Hw2. apply HE; [done|by right].
Qed.

(** [ReplayFromAndTruncate] from the beginning. Without a tail it changes nothing. *)
Lemma wp_recovery (host : endianness) (s : wal_state) (rs : list ParsedRecord) (tail : bytes) (store : gmap bytes bytes)
    (Q : WalReplayResult * gmap bytes bytes → wal_state → Prop) (E : exn → wal_state → Prop) :
  let path := path_ (config (wal s)) in
  let image := wal_image host (format (wal s)) rs in
  wal_holds host s rs tail →
  (∀ r s', r.2 = apply_records rs store → applied_operations r.1 = Z.of_nat (length rs) →
     truncated r.1 = negb (bool_decide (tail = [])) →
     tail = [] ∧ s' = s ∨ wal_repaired host s rs s' →
     file_contents path (os s') = Some image → Q r s') →
  (∀ e s', file_contents path (os s') = Some (image ++ tail) ∨ file_contents path (os s') = Some image →
     E e s') →
  wp (ReplayFromAndTruncate host 0 store) Q E s.
Proof.
  intros path image Hh HQ HE. pose proof Hh as [_ _ _ (content & Hfile & Hd)].
  unfold ReplayFromAndTruncate, ReplayFromAndTruncate_seeing; cbn [seen]. wal_step. wal_step. do 2 wal_step. wal_step. rewrite Hfile.
  destruct (describes_replay _ _ _ _ _ Hd store) as (result & Hr & Hcl & Hgood & Hn & Ht).
  apply wp_res; [|intros e He; congruence]. intros [r m] Hrm. rewrite Hr in Hrm.
  injection Hrm as <- <-. cbn [fst snd].
  destruct (decide (tail = [])) as [->|Hne].
  - rewrite bool_decide_true by tauto. cbn [negb]. wal_step. apply HQ; cbn; try done; [by left|].
    fold path in Hfile. rewrite Hfile. by rewrite (describes_content _ _ _ _ _ Hd), app_nil_r.
  - rewrite bool_decide_false by tauto. cbn [negb]. wal_step. rewrite Hgood by done.
    destruct (holds_image _ _ _ _ Hh Hne) as [_ Hpend].
    assert (image = log_image host (wal_fmt (format (wal s))) rs) as Himg
      by (unfold image, wal_image; by rewrite Hpend).
    rewrite Himg in *. eapply wp_TruncateTo_log; [done..| |by auto].
    intros s' Hr' Hf'. wal_step. apply HQ; cbn; try done; [by rewrite bool_decide_false|by right].
Qed.

(** C24: [ReplayFromAndTruncate] from the beginning recovers a log with an
    unreadable tail: the caller gets exactly the records of the log; on success
    the object is ready for appends and the tail is gone from the file, whose
    records are untouched; on any failure the file still holds every record. A
    log without a tail is left as it is. *)
Theorem recovery_repairs host s rs tail store :
  let path := path_ (config (wal s)) in
  let image := wal_image host (format (wal s)) rs in
  wal_holds host s rs tail →
  wp (ReplayFromAndTruncate host 0 store)
    (λ r s', r.2 = apply_records rs store ∧ applied_operations r.1 = Z.of_nat (length rs) ∧
       truncated r.1 = negb (bool_decide (tail = [])) ∧
       wal_ready host s' rs ∧ file_contents path (os s') = Some image)
    (λ _ s', file_contents path (os s') = Some (image ++ tail) ∨
             file_contents path (os s') = Some image)
    s.
Proof.
  intros path image Hh. apply (wp_recovery host s rs tail); [done| |done].
  intros r s' Hm Hn Ht Hs Hf. split_and!; [done..| |done].
  destruct Hs as [[-> ->]|[Hr _]]; [by apply wal_holds_ready|done].
Qed.
