(* ===== verification/GroupCommit.v ===== *)
(** * Group commit: submitters and the ordered writer

    The concurrent part of [WriteAheadLog]: [AppendPayload] under [GroupCommit]
    submits a request and sleeps; [WriterLoop] forms a batch, writes and
    synchronizes it, and wakes the submitters. A step of the relation is what
    happens under one lock, so every interleaving of the submitters with the
    writer is a run. The waits for time only decide when a batch is formed. *)

From S2P Require Import Prelude Machine BinaryIO Crc WalFormat WalReplay WalLog WalDurability.

(** ** Forming a batch *)

Definition frames_size (ps : list Pending) : Z := foldr (λ p n, size_of (pending_frame p) + n) 0 ps.

Lemma frames_size_app ps qs : frames_size (ps ++ qs) = frames_size ps + frames_size qs.
Proof. unfold frames_size. induction ps; cbn; lia. Qed.

Lemma take_batch_general max q : ∀ n batch,
  n = frames_size batch → Z.of_nat (length batch) ≤ max →
  (n ≤ kMaxBatchBytes ∨ length batch = 1%nat) →
  let r := take_batch max n batch q in
  r.1 ++ r.2 = batch ++ q ∧ Z.of_nat (length r.1) ≤ max ∧
  (frames_size r.1 ≤ kMaxBatchBytes ∨ length r.1 = 1%nat) ∧ (batch ≠ [] → r.1 ≠ []).
Proof.
  induction q as [|p q IH]; intros n batch Hn Hlen Hsz; cbn [take_batch].
  { cbn. subst n. rewrite app_nil_r. done. }
  destruct (Z.ltb_spec (Z.of_nat (length batch)) max) as [Hlt|Hge]; [|cbn; by subst n].
  destruct (negb (bool_decide (batch = [])) && (kMaxBatchBytes <? n + size_of (pending_frame p))) eqn:Hb;
    [cbn; by subst n|].
  destruct (IH (n + size_of (pending_frame p)) (batch ++ [p])) as (H1 & H2 & H3 & H4).
  - rewrite frames_size_app, Hn. cbn. lia.
  - rewrite length_app. cbn. lia.
  - apply andb_false_iff in Hb as [Hb%negb_false_iff%bool_decide_eq_true|Hb]; [right|left; lia].
    by rewrite Hb.
  - split_and!; [by rewrite H1, <-app_assoc|done|done|].
    intros _. apply H4. by destruct batch.
Qed.

Lemma take_batch_spec max q :
  0 < max → q ≠ [] →
  let r := take_batch max 0 [] q in
  r.1 ++ r.2 = q ∧ r.1 ≠ [] ∧ Z.of_nat (length r.1) ≤ max ∧
  (frames_size r.1 ≤ kMaxBatchBytes ∨ length r.1 = 1%nat).
Proof.
  intros Hmax Hq. destruct q as [|p q]; [done|]. cbn [take_batch length].
  destruct (Z.ltb_spec (Z.of_nat 0) max); [|lia]. rewrite bool_decide_true by done. cbn [negb andb app].
  destruct (take_batch_general max q (0 + size_of (pending_frame p)) [p]) as (H1 & H2 & H3 & H4);
    [cbn; lia|cbn; lia|by right|].
  split_and!; [done|by apply H4|done|done].
Qed.

(** The batch the writer forms is a non-empty prefix of the queue, in
    order, of at most [max_batch_] requests, and its frames stay within
    [kMaxBatchBytes] unless it is a single request; the rest stays queued. *)
Theorem batch_is_bounded_prefix max q :
  0 < max → q ≠ [] →
  let r := take_batch max 0 [] q in
  r.1 ++ r.2 = q ∧ r.1 ≠ [] ∧ Z.of_nat (length r.1) ≤ max ∧
  (frames_size r.1 ≤ kMaxBatchBytes ∨ length r.1 = 1%nat).
Proof. apply take_batch_spec. Qed.

(** ** The step relation *)

(** Where [WriterLoop] is. *)
Inductive writer_phase :=
| Waiting
| Formed (batch : list Pending)
| Failing (batch : list Pending) (error : exn)
| Completing (batch : list Pending) (error : option exn)
| Returned.

(** The object, the writer, and the records submitted so far in the order of
    their identities. *)
Record gc_state := GcState {
  gc_wal : wal_state;
  gc_writer : writer_phase;
  gc_sent : list ParsedRecord
}.

Definition complete_one (p : Pending) (error : option exn) (s : wal_state) : wal_state :=
  WalState (set_queue (complete_all [p] error (queue (wal s))) (wal s)) (os s).

Definition is_legacy (s : wal_state) : bool := legacy_v2_ (format (wal s)).

Inductive gc_step (host : endianness) : gc_state → gc_state → Prop :=
| gc_submit s ph sent r frame id s' :
    prepared host (negb (is_legacy s)) r frame →
    enqueue frame s = (Ok id, s') →
    gc_step host (GcState s ph sent) (GcState s' ph (sent ++ [r]))
| gc_form s sent batch s' :
    queue_ (queue (wal s)) ≠ [] → form_batch s = (Ok batch, s') →
    gc_step host (GcState s Waiting sent) (GcState s' (Formed batch) sent)
| gc_write s sent batch s' :
    write_batch batch s = (Ok tt, s') →
    gc_step host (GcState s (Formed batch) sent) (GcState s' (Completing batch None) sent)
| gc_write_fails s sent batch e s' :
    write_batch batch s = (Exn e, s') →
    gc_step host (GcState s (Formed batch) sent) (GcState s' (Failing batch e) sent)
| gc_fail s sent batch e q s' :
    fail_queue e s = (Ok q, s') →
    gc_step host (GcState s (Failing batch e) sent) (GcState s' (Completing (batch ++ q) (Some e)) sent)
| gc_complete s sent p batch error :
    gc_step host (GcState s (Completing (p :: batch) error) sent)
      (GcState (complete_one p error s) (Completing batch error) sent)
| gc_next s sent :
    gc_step host (GcState s (Completing [] None) sent) (GcState s Waiting sent)
| gc_return s sent e :
    gc_step host (GcState s (Completing [] (Some e)) sent) (GcState s Returned sent).

(** A fresh object in front of which nobody waits. *)
Definition gc_start (host : endianness) (rs : list ParsedRecord) (g : gc_state) : Prop :=
  wal_ready host (gc_wal g) rs ∧ sync_fd_ (wal (gc_wal g)) = true ∧
  queue (wal (gc_wal g)) = {| queue_ := []; stopping_ := false; next_id := 0; completed := ∅ |} ∧
  log_durable host (path_ (config (wal (gc_wal g)))) rs (os (gc_wal g)) ∧
  gc_writer g = Waiting ∧ gc_sent g = [].

Definition gc_reachable (host : endianness) (rs : list ParsedRecord) (g : gc_state) : Prop :=
  ∃ g0, gc_start host rs g0 ∧ rtc (gc_step host) g0 g.

(** ** The invariant *)

(** The requests of [rs], with identities from [k] on. *)
Definition requests (host : endianness) (portable : bool) (k : nat) (ps : list Pending)
    (rs : list ParsedRecord) : Prop :=
  batch_of host portable ps rs ∧ pending_id <$> ps = seq k (length rs).

(** The answers given so far: the first [ok] requests succeeded, those up to
    [upto] got [e], the others sleep. *)
Definition answers (c : gmap nat (option exn)) (ok upto : nat) (e : option exn) : Prop :=
  ∀ id, c !! id = if decide (id < ok)%nat then Some None
                  else if decide (id < upto)%nat then Some e else None.

Definition phase_inv (host : endianness) (rs0 logged pend queued : list ParsedRecord)
    (s : wal_state) (ph : writer_phase) : Prop :=
  let c := completed (queue (wal s)) in
  let ok := length logged in
  match ph with
  | Waiting => pend = [] ∧ wal_ready host s (rs0 ++ logged) ∧ answers c ok ok None
  | Formed b =>
      requests host (negb (is_legacy s)) ok b pend ∧ b ≠ [] ∧
      wal_ready host s (rs0 ++ logged) ∧ answers c ok ok None
  | Failing b e =>
      requests host (negb (is_legacy s)) ok b pend ∧ answers c ok ok None
  | Completing b None =>
      pend = [] ∧ wal_ready host s (rs0 ++ logged) ∧
      ∃ k, pending_id <$> b = seq k (length b) ∧ (k + length b)%nat = ok ∧ answers c k k None
  | Completing b (Some e) =>
      queued = [] ∧ failure_ (wal s) = Some e ∧
      ∃ k, pending_id <$> b = seq k (length b) ∧ (k + length b)%nat = length (logged ++ pend) ∧
           (ok ≤ k)%nat ∧ answers c ok k (Some e)
  | Returned =>
      queued = [] ∧ ∃ e, failure_ (wal s) = Some e ∧ answers c ok (length (logged ++ pend)) (Some e)
  end.

(** [logged] is in the log, [pend] is in the hands of the writer or was refused,
    [queued] waits. *)
Record gc_inv (host : endianness) (rs0 : list ParsedRecord) (path : bytes)
    (logged pend queued : list ParsedRecord) (g : gc_state) : Prop := {
  inv_sent : gc_sent g = logged ++ pend ++ queued;
  inv_next : next_id (queue (wal (gc_wal g))) = length (gc_sent g);
  inv_queue : requests host (negb (is_legacy (gc_wal g))) (length (logged ++ pend))
                (queue_ (queue (wal (gc_wal g)))) queued;
  inv_path : path_ (config (wal (gc_wal g))) = path;
  inv_sync_fd : sync_fd_ (wal (gc_wal g)) = true;
  inv_durable : log_durable host path (rs0 ++ logged) (os (gc_wal g));
  inv_phase : phase_inv host rs0 logged pend queued (gc_wal g) (gc_writer g)
}.

Lemma requests_app host portable k ps qs rs rs' :
  requests host portable k ps rs → requests host portable (k + length rs) qs rs' →
  requests host portable k (ps ++ qs) (rs ++ rs').
Proof.
  intros [H1 H2] [H3 H4]. split; [by apply Forall2_app|].
  by rewrite fmap_app, H2, H4, length_app, seq_app.
Qed.

Lemma requests_app_inv host portable k ps qs rs :
  requests host portable k (ps ++ qs) rs →
  ∃ rs1 rs2, rs = rs1 ++ rs2 ∧ requests host portable k ps rs1 ∧
             requests host portable (k + length rs1) qs rs2.
Proof.
  intros [H1 H2]. apply Forall2_app_inv_l in H1 as (rs1 & rs2 & H1 & H3 & ->).
  exists rs1, rs2. rewrite fmap_app, length_app, seq_app in H2.
  apply app_inj_1 in H2 as [H2 H4]; [done|].
  rewrite length_fmap, length_seq. by eapply Forall2_length.
Qed.

Lemma requests_length host portable k ps rs : requests host portable k ps rs → length ps = length rs.
Proof. intros [H _]. by eapply Forall2_length. Qed.

Lemma requests_ids host portable k ps rs :
  requests host portable k ps rs → pending_id <$> ps = seq k (length ps).
Proof. intros H. rewrite (requests_length _ _ _ _ _ H). apply H. Qed.

Lemma answers_complete c ok k e :
  (ok ≤ k)%nat → answers c ok k e → answers (<[k := e]> c) ok (S k) e.
Proof.
  intros Hle H id. destruct (decide (id = k)) as [->|Hne].
  - rewrite lookup_insert_eq. repeat case_decide; (done || lia).
  - rewrite lookup_insert_ne, H by done. repeat case_decide; (done || lia).
Qed.

Lemma answers_none c k : answers c k k None → answers (<[k := None]> c) (S k) (S k) None.
Proof.
  intros H id. destruct (decide (id = k)) as [->|Hne].
  - rewrite lookup_insert_eq. repeat case_decide; (done || lia).
  - rewrite lookup_insert_ne, H by done. repeat case_decide; (done || lia).
Qed.

Lemma answers_start c ok e : answers c ok ok None → answers c ok ok e.
Proof. intros H id. rewrite H. repeat case_decide; (done || lia). Qed.

(** ** Every step keeps the invariant *)

Lemma enqueue_ok frame s id s' :
  enqueue frame s = (Ok id, s') →
  failure_ (wal s) = None ∧
  s' = WalState (set_queue (push_pending frame (queue (wal s))) (wal s)) (os s).
Proof.
  unfold enqueue, check_appendable, bind, gets, on_wal, modify, ret, throw.
  destruct (failure_ (wal s)); [done|]. destruct (_ || _); [done|]. by intros [= _ <-].
Qed.

Lemma form_batch_ok s batch s' :
  form_batch s = (Ok batch, s') →
  let r := take_batch (max_batch_ (config (wal s))) 0 [] (queue_ (queue (wal s))) in
  batch = r.1 ∧ s' = WalState (set_queue (set_pendings r.2 (queue (wal s))) (wal s)) (os s).
Proof.
  unfold form_batch, bind, gets, on_wal, modify, ret. destruct (take_batch _ _ _ _). by intros [= <- <-].
Qed.

Section steps.
  Context (host : endianness) (rs0 : list ParsedRecord) (path : bytes).
  Local Abbreviation inv := (gc_inv host rs0 path).

Lemma inv_submit logged pend queued s ph sent r frame id s' :
  inv logged pend queued (GcState s ph sent) →
  prepared host (negb (is_legacy s)) r frame → enqueue frame s = (Ok id, s') →
  inv logged pend (queued ++ [r]) (GcState s' ph (sent ++ [r])).
Proof.
  intros [Hsent Hnext Hq Hpath Hfd Hd Hph] Hprep [Hf ->]%enqueue_ok. cbn in *. split; cbn; try done.
  - by rewrite Hsent, <-!app_assoc.
  - rewrite Hnext, length_app. cbn. lia.
  - apply requests_app; [done|]. split; [by constructor|]. cbn.
    rewrite Hnext, Hsent, app_assoc, !length_app. done.
  - destruct ph as [|b|b e|b [e|]|]; cbn in *.
    + destruct Hph as (? & ? & ?). split_and!; [done|by apply wal_ready_queue|done].
    + destruct Hph as (? & ? & ? & ?). split_and!; [done..|by apply wal_ready_queue|done].
    + done.
    + destruct Hph as (_ & ? & _). congruence.
    + destruct Hph as (? & ? & ?). split_and!; [done|by apply wal_ready_queue|done].
    + destruct Hph as (_ & e & ? & _). congruence.
Qed.

Lemma inv_form logged pend queued s sent batch s' :
  inv logged pend queued (GcState s Waiting sent) → queue_ (queue (wal s)) ≠ [] →
  form_batch s = (Ok batch, s') →
  ∃ pend' queued', inv logged pend' queued' (GcState s' (Formed batch) sent).
Proof.
  intros [Hsent Hnext Hq Hpath Hfd Hd Hph] Hne [-> ->]%form_batch_ok. cbn in *.
  destruct Hph as (-> & Hr & Hans). cbn [app] in *. rewrite app_nil_r in Hq.
  pose proof (ready_batch _ _ _ Hr) as Hmb.
  destruct (take_batch_spec (max_batch_ (config (wal s))) (queue_ (queue (wal s))))
    as (Happ & Hne' & _); [lia|done|].
  rewrite <-Happ in Hq. apply requests_app_inv in Hq as (rs1 & rs2 & -> & H1 & H2).
  exists rs1, rs2. split; cbn; try done.
  - by rewrite length_app.
  - split_and!; [done..|by apply wal_ready_queue|done].
Qed.

Lemma inv_write logged pend queued s sent batch s' :
  inv logged pend queued (GcState s (Formed batch) sent) → write_batch batch s = (Ok tt, s') →
  inv (logged ++ pend) [] queued (GcState s' (Completing batch None) sent).
Proof.
  intros [Hsent Hnext Hq Hpath Hfd Hd Hph] Hw. cbn in *. destruct Hph as ([Hb Hids] & Hne & Hr & Hans).
  assert (wp (write_batch batch)
            (λ _ s', wal_ready host s' ((rs0 ++ logged) ++ pend) ∧ wal_same s s' ∧ wal_durable s')
            (λ _ _, True) s) as Hwp by (eapply wp_write_batch; [done..|auto|auto]).
  apply (wp_ok _ _ _ _ _ _ Hwp) in Hw as (Hr' & Hs & Hdur). pose proof Hs as [Hc Hqq Hfd' Hl _ _].
  rewrite <-app_assoc in Hr'.
  split; cbn; rewrite ?Hqq, ?app_nil_r, ?Hc, ?Hfd'; try done.
  - by rewrite <-app_assoc.
  - unfold is_legacy in *. by rewrite Hl.
  - rewrite <-Hpath, <-Hc. apply ready_log_durable; [done..|congruence].
  - split_and!; [done..|]. exists (length logged). rewrite Hids.
    apply Forall2_length in Hb. rewrite length_app, Hb. done.
Qed.

Lemma inv_write_fails logged pend queued s sent batch e s' :
  inv logged pend queued (GcState s (Formed batch) sent) → write_batch batch s = (Exn e, s') →
  inv logged pend queued (GcState s' (Failing batch e) sent).
Proof.
  intros [Hsent Hnext Hq Hpath Hfd Hd Hph] Hw. cbn in *. destruct Hph as ([Hb Hids] & Hne & Hr & Hans).
  assert (wp (write_batch batch) (λ _ _, True) (λ _ s', wal_torn host s (rs0 ++ logged) pend s') s)
    as Hwp by (eapply wp_write_batch; [done..|auto|auto]).
  apply (wp_exn _ _ _ _ _ _ Hwp) in Hw as Ht.
  destruct Ht as [Hc Hfd' Hl Hqq _]. destruct Hd as (f & Hp & Hok & Hfit & Hd).
  pose proof (wp_exn _ _ _ _ _ _ (write_batch_keeps_prefix _ _ batch s Hd) Hw) as Hd'.
  split; cbn; rewrite ?Hqq, ?Hc, ?Hfd'; unfold is_legacy; rewrite ?Hl; try done. by exists f.
Qed.

Lemma inv_fail logged pend queued s sent batch e q s' :
  inv logged pend queued (GcState s (Failing batch e) sent) → fail_queue e s = (Ok q, s') →
  inv logged (pend ++ queued) [] (GcState s' (Completing (batch ++ q) (Some e)) sent).
Proof.
  intros [Hsent Hnext Hq Hpath Hfd Hd [Hb Hans]] [= <- <-]. cbn in *.
  rewrite length_app in Hq. pose proof (requests_app _ _ _ _ _ _ _ Hb Hq) as Hall.
  split; cbn; rewrite ?app_nil_r; try done.
  { split; [constructor|done]. }
  split_and!; [done..|]. exists (length logged). rewrite (requests_ids _ _ _ _ _ Hall).
  rewrite (requests_length _ _ _ _ _ Hall). split_and!; [done|rewrite !length_app; lia|done|].
  by apply answers_start.
Qed.

Lemma inv_complete logged pend queued s sent p batch error :
  inv logged pend queued (GcState s (Completing (p :: batch) error) sent) →
  inv logged pend queued (GcState (complete_one p error s) (Completing batch error) sent).
Proof.
  intros [Hsent Hnext Hq Hpath Hfd Hd Hph]. cbn in *. split; cbn; try done.
  destruct error as [e|]; cbn in *.
  - destruct Hph as (? & ? & k & Hids & Hk & Hok & Hans). split_and!; [done..|].
    injection Hids as Hid Hids. exists (S k). split_and!; [done|lia|lia|].
    rewrite Hid. by apply answers_complete.
  - destruct Hph as (? & Hr & k & Hids & Hk & Hans).
    split_and!; [done|by apply (wal_ready_queue _ s)|]. injection Hids as Hid Hids. exists (S k).
    split_and!; [done|lia|]. rewrite Hid. by apply answers_none.
Qed.

End steps.

(** The writer met a failure. *)
Definition writer_failed (ph : writer_phase) : Prop :=
  match ph with
  | Failing _ _ | Completing _ (Some _) | Returned => True
  | _ => False
  end.

Lemma inv_step host rs0 path logged pend queued g g' :
  gc_inv host rs0 path logged pend queued g → gc_step host g g' →
  ∃ logged' pend' queued', gc_inv host rs0 path logged' pend' queued' g' ∧
    (writer_failed (gc_writer g) → writer_failed (gc_writer g') ∧ logged' = logged).
Proof.
  intros Hi Hs. inversion Hs; subst.
  - eapply inv_submit in Hi; [|done..]. eauto 6.
  - eapply inv_form in Hi as (? & ? & ?); [|done..]. eexists _, _, _. by split.
  - eapply inv_write in Hi; [|done..]. eexists _, _, _. by split.
  - eapply inv_write_fails in Hi; [|done..]. eexists _, _, _. by split.
  - eapply inv_fail in Hi; [|done..]. eauto 6.
  - apply inv_complete in Hi. eauto 6.
  - destruct Hi as [Hsent Hnext Hq Hpath Hfd Hd (-> & Hr & k & _ & Hk & Hans)].
    cbn in Hk. assert (k = length logged) as -> by lia.
    exists logged, [], queued. split; [by split|done].
  - destruct Hi as [Hsent Hnext Hq Hpath Hfd Hd (-> & Hf & k & _ & Hk & _ & Hans)].
    cbn in Hk. assert (k = length (logged ++ pend)) as -> by (cbn in *; lia).
    exists logged, pend, []. split; [|done]. split; try done. split; [done|]. by exists e.
Qed.

Lemma inv_start host rs0 g :
  gc_start host rs0 g → gc_inv host rs0 (path_ (config (wal (gc_wal g)))) [] [] [] g.
Proof.
  intros (Hr & Hfd & Hq & Hd & Hph & Hsent).
  split; rewrite ?Hq, ?Hsent, ?Hph; cbn [app]; rewrite ?app_nil_r; try done.
  - split; [constructor|done].
  - cbn. rewrite app_nil_r, Hq. done.
Qed.

Lemma inv_run host rs0 path g g' :
  rtc (gc_step host) g g' →
  ∀ logged pend queued, gc_inv host rs0 path logged pend queued g →
  ∃ logged' pend' queued', gc_inv host rs0 path logged' pend' queued' g' ∧
    (writer_failed (gc_writer g) → writer_failed (gc_writer g') ∧ logged' = logged).
Proof.
  induction 1 as [g|g1 g2 g3 Hs _ IH]; intros logged pend queued Hi; [eauto 7|].
  destruct (inv_step _ _ _ _ _ _ _ _ Hi Hs) as (l2 & ? & ? & Hi2 & Hl2).
  destruct (IH _ _ _ Hi2) as (l3 & ? & ? & Hi3 & Hl3). eexists l3, _, _. split; [done|].
  intros Hf. destruct (Hl2 Hf) as [Hf2 ->]. by apply Hl3.
Qed.

Lemma inv_reachable host rs0 g :
  gc_reachable host rs0 g →
  ∃ path logged pend queued, gc_inv host rs0 path logged pend queued g.
Proof.
  intros (g0 & Hstart%inv_start & Hrun).
  destruct (inv_run _ _ _ _ _ Hrun _ _ _ Hstart) as (? & ? & ? & ? & _). eauto.
Qed.

(** The answers of any state, whatever the phase. *)
Lemma inv_answers host rs0 path logged pend queued g :
  gc_inv host rs0 path logged pend queued g →
  ∃ ok upto e, answers (completed (queue (wal (gc_wal g)))) ok upto e ∧
    (ok ≤ length logged)%nat ∧ (ok ≤ upto)%nat ∧
    (upto = ok ∨ ok = length logged ∧ is_Some e ∧ e = failure_ (wal (gc_wal g)) ∧
                 writer_failed (gc_writer g)).
Proof.
  intros [_ _ _ _ _ _ Hph]. destruct (gc_writer g) as [|b|b e|b [e|]|]; cbn in Hph.
  - destruct Hph as (_ & _ & H). exists (length logged), (length logged), None. auto.
  - destruct Hph as (_ & _ & _ & H). exists (length logged), (length logged), None. auto.
  - destruct Hph as (_ & H). exists (length logged), (length logged), None. auto.
  - destruct Hph as (_ & Hf & k & _ & _ & Hk & H). exists (length logged), k, (Some e).
    rewrite Hf. split_and!; [done|lia|lia|right; by eauto].
  - destruct Hph as (_ & _ & k & _ & Hk & H). exists k, k, None. split_and!; [done|lia|lia|by left].
  - destruct Hph as (_ & e & Hf & H). exists (length logged), (length (logged ++ pend)), (Some e).
    rewrite Hf. split_and!; [done|lia|rewrite length_app; lia|right; by eauto].
Qed.

(** C11: acknowledgements under group commit, in every interleaving of
    submitters and writer and every pattern of failures: a request answered with
    success is in the synchronized part of the file together with every request
    submitted before it, in the order of submission, so a replay after a power
    failure finds them all; and every request submitted before it was answered
    with success too. *)
Theorem group_commit_acknowledges host rs0 g id content store :
  gc_reachable host rs0 g →
  completed (queue (wal (gc_wal g))) !! id = Some None →
  after_power_loss (path_ (config (wal (gc_wal g)))) (os (gc_wal g)) content →
  (id < length (gc_sent g))%nat ∧
  (∀ j, (j ≤ id)%nat → completed (queue (wal (gc_wal g))) !! j = Some None) ∧
  ∃ result more, ReplayDetailed host (Some content) store
                 = Ok (result, apply_records (rs0 ++ take (S id) (gc_sent g) ++ more) store).
Proof.
  intros (path & logged & pend & queued & Hi)%inv_reachable Hid Hloss.
  destruct (inv_answers _ _ _ _ _ _ _ Hi) as (ok & upto & e & Hans & Hok & Hupto & He).
  assert (id < ok)%nat as Hlt.
  { rewrite Hans in Hid. repeat case_decide; try done.
    destruct He as [->|(_ & [x Hx] & _)]; [lia|]. congruence. }
  destruct Hi as [Hsent Hnext _ Hpath _ Hd _]. split_and!.
  - rewrite Hsent, length_app. lia.
  - intros j Hj. rewrite Hans. by rewrite decide_True by lia.
  - rewrite Hpath in Hloss.
    destruct (log_durable_replay host path _ _ content store Hd Hloss) as (result & more & H).
    exists result, (drop (S id) logged ++ more). rewrite H. do 2 f_equal.
    rewrite Hsent, take_app_le by lia. rewrite <-app_assoc, (app_assoc (take _ _)), take_drop. done.
Qed.

(** A request answered with an error got the
    error recorded in the object, and in every continuation neither it nor any
    request submitted after it is answered with success. *)
Theorem refused_for_good host rs0 g g' id e j :
  gc_reachable host rs0 g →
  completed (queue (wal (gc_wal g))) !! id = Some (Some e) →
  rtc (gc_step host) g g' → (id ≤ j)%nat →
  failure_ (wal (gc_wal g)) = Some e ∧ completed (queue (wal (gc_wal g'))) !! j ≠ Some None.
Proof.
  intros (path & logged & pend & queued & Hi)%inv_reachable Hid Hrun Hj.
  destruct (inv_answers _ _ _ _ _ _ _ Hi) as (ok & upto & er & Hans & Hok & Hupto & He).
  assert (ok ≤ id < upto ∧ er = Some e)%nat as [Hr ->]
    by (rewrite Hans in Hid; repeat case_decide; simplify_eq; split; [lia|done]).
  destruct He as [->|(-> & _ & Hf & Hfailed)]; [lia|]. split; [done|].
  destruct (inv_run _ _ _ _ _ Hrun _ _ _ Hi) as (logged' & pend' & queued' & Hi' & Hsame).
  destruct (Hsame Hfailed) as [_ ->].
  destruct (inv_answers _ _ _ _ _ _ _ Hi') as (ok' & upto' & er' & Hans' & Hok' & _ & He').
  rewrite Hans', decide_False by lia. case_decide; [|done].
  destruct He' as [->|(_ & [x ->] & _)]; [lia|done].
Qed.

(** ** Nobody waits for ever *)

(** What is left for the writer to do. *)
Definition gc_work (g : gc_state) : nat :=
  6 * length (queue_ (queue (wal (gc_wal g)))) +
  match gc_writer g with
  | Waiting | Returned => 0
  | Formed b => 4 * length b
  | Failing b _ => length b + 2
  | Completing b _ => length b + 1
  end.

Lemma inv_work host rs0 path logged pend queued g g' :
  gc_inv host rs0 path logged pend queued g → gc_step host g g' → gc_sent g' = gc_sent g →
  (gc_work g' < gc_work g)%nat.
Proof.
  intros Hi Hs Hsent. destruct Hi as [_ _ _ _ _ _ Hph].
  inversion Hs; subst; cbn in *; unfold gc_work; cbn [gc_wal gc_writer].
  - apply (f_equal length) in Hsent. rewrite length_app in Hsent. cbn in Hsent. lia.
  - destruct (form_batch_ok _ _ _ H0) as [-> ->]. destruct Hph as (_ & Hr & _).
    destruct (take_batch_spec (max_batch_ (config (wal s))) (queue_ (queue (wal s))))
      as (Happ & Hne & _); [apply Hr|done|]. cbn.
    apply (f_equal length) in Happ. rewrite length_app in Happ.
    destruct (take_batch _ _ _ _) as [b q]; cbn in *. destruct b; [done|]. cbn in *. lia.
  - destruct Hph as (Hb & Hne & Hr & _).
    assert (wp (write_batch batch) (λ _ s', queue (wal s') = queue (wal s)) (λ _ _, True) s) as Hwp.
    { eapply wp_write_batch; [done|apply Hb|done| |done]. by intros s2 _ []. }
    apply (wp_ok _ _ _ _ _ _ Hwp) in H as ->. destruct batch; [done|]. cbn. lia.
  - destruct Hph as (Hb & Hne & Hr & _).
    assert (wp (write_batch batch) (λ _ _, True) (λ _ s', queue (wal s') = queue (wal s)) s) as Hwp.
    { eapply wp_write_batch; [done|apply Hb|done|done|]. by intros ? s2 []. }
    apply (wp_exn _ _ _ _ _ _ Hwp) in H as ->. destruct batch; [done|]. cbn. lia.
  - injection H as <- <-. cbn. rewrite length_app. lia.
  - lia.
  - lia.
  - lia.
Qed.

(** C22: no submitter is forgotten. In every reachable state every step of the
    writer consumes work, and unless all requests submitted so far are answered
    the writer can take a step; so without further submissions all of them are
    answered, successfully or not, within [gc_work] steps. *)
Theorem group_commit_serves_everyone host rs0 g :
  gc_reachable host rs0 g →
  (∀ g', gc_step host g g' → gc_sent g' = gc_sent g → (gc_work g' < gc_work g)%nat) ∧
  ((∃ g', gc_step host g g' ∧ gc_sent g' = gc_sent g) ∨
   (∀ id, (id < length (gc_sent g))%nat → is_Some (completed (queue (wal (gc_wal g))) !! id))).
Proof.
  intros (path & logged & pend & queued & Hi)%inv_reachable.
  split; [intros; by eapply inv_work|].
  destruct g as [s ph sent]. destruct Hi as [Hsent Hnext Hq Hpath Hfd Hd Hph]. cbn in *.
  destruct ph as [|b|b e|[|p b] [e|]|]; cbn in Hph.
  - destruct (decide (queue_ (queue (wal s)) = [])) as [Hnil|Hne].
    + right. intros id Hid. destruct Hph as (-> & _ & Hans). rewrite Hnil in Hq.
      apply requests_length in Hq. destruct queued; [|done]. rewrite Hsent, app_nil_r in Hid.
      rewrite Hans, decide_True by done. eauto.
    + left. destruct (form_batch s) as [[batch|e] s'] eqn:Hf.
      * eexists. split; [by eapply gc_form|done].
      * unfold form_batch, bind, gets, on_wal, modify, ret in Hf. by destruct (take_batch _ _ _ _).
  - left. destruct (write_batch b s) as [[[]|e] s'] eqn:Hw.
    + eexists. split; [by apply gc_write|done].
    + eexists. split; [by eapply gc_write_fails|done].
  - left. eexists. split; [by eapply gc_fail|done].
  - left. eexists. split; [by apply gc_return|done].
  - left. eexists. split; [by apply gc_next|done].
  - left. eexists. split; [by apply gc_complete|done].
  - left. eexists. split; [by apply gc_complete|done].
  - right. intros id Hid. destruct Hph as (-> & e & _ & Hans). rewrite app_nil_r in Hsent.
    rewrite Hans, Hsent in *. case_decide; [eauto|]. rewrite decide_True by done. eauto.
Qed.

(** ** After a failure *)

(** The writer has failed with [e]. *)
Definition failed_with (e : exn) (g : gc_state) : Prop :=
  match gc_writer g with
  | Failing _ e' | Completing _ (Some e') => e' = e
  | Returned => failure_ (wal (gc_wal g)) = Some e
  | _ => False
  end.

Lemma failed_step host rs0 path logged pend queued e g g' :
  gc_inv host rs0 path logged pend queued g → failed_with e g → gc_step host g g' →
  failed_with e g' ∧ ∃ pend' queued', gc_inv host rs0 path logged pend' queued' g'.
Proof.
  intros Hi He Hs. destruct (inv_step _ _ _ _ _ _ _ _ Hi Hs) as (logged' & pend' & queued' & Hi' & Hf).
  assert (writer_failed (gc_writer g)) as Hw by (unfold failed_with in He; by destruct (gc_writer g) as [| | |? []|]).
  destruct (Hf Hw) as [_ ->]. split; [|eauto].
  unfold failed_with in *. inversion Hs; subst; cbn in *; try done.
  - destruct (enqueue_ok _ _ _ _ H0) as [_ ->]. by destruct ph as [| | |? []|].
  - destruct Hi as [_ _ _ _ _ _ (_ & Hf' & _)]. cbn in Hf'. by subst.
Qed.

Lemma failed_run host rs0 path e g g' :
  rtc (gc_step host) g g' → ∀ logged pend queued,
  gc_inv host rs0 path logged pend queued g → failed_with e g →
  failed_with e g' ∧ ∃ pend' queued', gc_inv host rs0 path logged pend' queued' g'.
Proof.
  induction 1 as [g|g1 g2 g3 Hs _ IH]; intros logged pend queued Hi He; [eauto|].
  destruct (failed_step _ _ _ _ _ _ _ _ _ Hi He Hs) as (He' & ? & ? & Hi'). by eapply IH.
Qed.

(** The answers while the failure spreads, and once it has. *)
Lemma failed_answers host rs0 path logged pend queued e g :
  gc_inv host rs0 path logged pend queued g → failed_with e g →
  let answer id := completed (queue (wal (gc_wal g))) !! id in
  (∀ id, (id < length logged)%nat → answer id = Some None) ∧
  (∀ id a, (length logged ≤ id)%nat → answer id = Some a → a = Some e) ∧
  (gc_writer g = Returned → queue_ (queue (wal (gc_wal g))) = [] ∧
     ∀ id, (length logged ≤ id < length (gc_sent g))%nat → answer id = Some (Some e)).
Proof.
  intros [Hsent _ Hq _ _ _ Hph] He. unfold failed_with in He.
  assert (∀ upto a, answers (completed (queue (wal (gc_wal g)))) (length logged) upto a →
    (a = Some e ∨ upto = length logged) →
    (∀ id, (id < length logged)%nat → completed (queue (wal (gc_wal g))) !! id = Some None) ∧
    (∀ id b, (length logged ≤ id)%nat → completed (queue (wal (gc_wal g))) !! id = Some b → b = Some e)) as Hall.
  { intros upto a Ha Hor. split; intros id; rewrite Ha.
    - intros Hid. by rewrite decide_True.
    - intros b Hid. rewrite decide_False by lia. case_decide; [|done]. destruct Hor as [->| ->]; [congruence|lia]. }
  destruct (gc_writer g) as [|b|b e'|b [e'|]|]; try done; cbn in Hph; subst.
  - destruct Hph as [_ Ha]. destruct (Hall _ _ Ha) as [H1 H2]; [by right|]. done.
  - destruct Hph as (_ & _ & k & _ & _ & _ & Ha). destruct (Hall _ _ Ha) as [H1 H2]; [by left|]. done.
  - destruct Hph as (-> & e' & Hf & Ha). rewrite He in Hf. injection Hf as <-.
    destruct (Hall _ _ Ha) as [H1 H2]; [by left|]. split_and!; [done..|]. intros _. split.
    + apply requests_length in Hq. by destruct (queue_ _).
    + intros id Hid. rewrite Hsent, app_nil_r in Hid. rewrite Ha, decide_False by lia. by rewrite decide_True by lia.
Qed.

(** The writer always goes on until it returns. *)
Lemma failed_progress host e g :
  failed_with e g → gc_writer g = Returned ∨ ∃ g', gc_step host g g' ∧ gc_sent g' = gc_sent g.
Proof.
  destruct g as [s ph sent]. unfold failed_with. cbn. destruct ph as [|b|b e'|[|p b] [e'|]|]; try done; intros He.
  - right. eexists. split; [by eapply gc_fail|done].
  - right. eexists. split; [by apply gc_return|done].
  - right. eexists. split; [by apply gc_complete|done].
  - by left.
Qed.

(** Once the queue was emptied nothing more is taken. *)
Lemma failed_refuses host rs0 path logged pend queued e g frame :
  gc_inv host rs0 path logged pend queued g → failed_with e g → (∀ b, gc_writer g ≠ Failing b e) →
  enqueue frame (gc_wal g) = (Exn e, gc_wal g).
Proof.
  intros [_ _ _ _ _ _ Hph] He Hb.
  assert (failure_ (wal (gc_wal g)) = Some e) as Hf.
  { unfold failed_with in He. destruct (gc_writer g) as [|b|b e'|b [e'|]|]; try done; cbn in Hph; subst.
    - by destruct (Hb b).
    - apply Hph. }
  unfold enqueue, check_appendable, bind, gets, throw. by rewrite Hf.
Qed.

(** C23: a failed batch fails everybody. When the write or the synchronization of
    a batch throws [e], then in every continuation: the requests before the batch
    have been answered with success; no request of the batch, of the queue or
    submitted later is ever answered otherwise than with [e]; the writer always has a
    step left, each bringing it closer to its return, until it returns; and when it
    has returned, the queue is empty and every request from the first of the batch on
    has been answered with [e]. As soon as the writer has emptied the queue every
    submission throws [e] and changes nothing. *)
Theorem group_commit_failure host rs0 s batch sent e s' :
  gc_reachable host rs0 (GcState s (Formed batch) sent) → write_batch batch s = (Exn e, s') →
  ∃ first, pending_id <$> batch = seq first (length batch) ∧ (first < length sent)%nat ∧
  ∀ g, rtc (gc_step host) (GcState s' (Failing batch e) sent) g →
    let answer id := completed (queue (wal (gc_wal g))) !! id in
    (∀ id, (id < first)%nat → answer id = Some None) ∧
    (∀ id a, (first ≤ id)%nat → answer id = Some a → a = Some e) ∧
    (gc_writer g = Returned ∨
       ∃ g', gc_step host g g' ∧ gc_sent g' = gc_sent g ∧ (gc_work g' < gc_work g)%nat) ∧
    (gc_writer g = Returned → queue_ (queue (wal (gc_wal g))) = [] ∧
       ∀ id, (first ≤ id < length (gc_sent g))%nat → answer id = Some (Some e)) ∧
    ((∀ b, gc_writer g ≠ Failing b e) → ∀ frame, enqueue frame (gc_wal g) = (Exn e, gc_wal g)).
Proof.
  intros (path & logged & pend & queued & Hi)%inv_reachable Hw.
  exists (length logged). pose proof Hi as [Hsent _ _ _ _ _ (Hb & Hne & _)]. cbn in Hsent, Hb, Hne.
  pose proof (requests_length _ _ _ _ _ Hb) as Hlen. split; [by eapply requests_ids|]. split.
  { rewrite Hsent, !length_app. destruct batch; [done|]. cbn in Hlen. lia. }
  intros g Hrun. apply (inv_write_fails _ _ _ _ _ _ _ _ _ _ _ Hi) in Hw as Hi1.
  destruct (failed_run _ _ _ e _ _ Hrun _ _ _ Hi1 eq_refl) as (He & pend' & queued' & Hg).
  destruct (failed_answers _ _ _ _ _ _ _ _ Hg He) as (H1 & H2 & H3). split_and!; [done..| |done|].
  - destruct (failed_progress host _ _ He) as [|(g' & Hs & Hsame)]; [by left|right].
    exists g'. split_and!; [done..|]. by eapply inv_work.
  - intros Hnf frame. by eapply failed_refuses.
Qed.
