(* ===== verification/CommitSignals.v ===== *)
(** * Submitters, the writer and their condition variables

    The signalling of group commit in [src/persistence/wal.cpp]: [AppendPayload]
    queues a request, notifies [queue_ready_] and waits on the [done] of its
    request; [WriterLoop] waits for the queue, delays to gather a batch, answers
    the requests one by one and notifies each; the destructor stops the writer and
    joins it. A step is what runs under one mutex, or the notification that follows
    it. What is written is in [GroupCommit]. *)

From S2P Require Import Prelude.

(** ** States *)

(** A submitter: about to call [queue_ready_.notify_one]; about to test [complete];
    in the wait set of its [done]; returned. *)
Inductive submitter_at := Notifies | Tests | Sleeps | Left.

Record request := Request { complete : bool; submitter : submitter_at }.

(** The writer: about to test the first predicate; in the wait set of
    [queue_ready_]; in [wait_for]; with a batch to write; answering; between
    [complete = true] and [notify_one]; returned. *)
Inductive writer_at :=
| WriterTests | WriterSleeps | WriterDelays
| WriterWrites (batch : list nat)
| WriterAnswers (batch : list nat) (failed : bool)
| WriterWakes (id : nat) (batch : list nat) (failed : bool)
| WriterGone.

(** Requests are numbered in the order of their submission. [stop_pending]: the
    destructor is about to notify. *)
Record commit_signals := CommitSignals {
  sig_requests : list request;
  sig_queue : list nat;
  sig_writer : writer_at;
  sig_failure : bool;
  sig_stopping : bool;
  sig_stop_pending : bool
}.

Definition commit_init : commit_signals := CommitSignals [] [] WriterTests false false false.

Definition set_submitter (x : submitter_at) (r : request) : request := Request (complete r) x.
Definition set_complete (r : request) : request := Request true (submitter r).

(** [queue_ready_.notify_one]: only the writer waits for it. *)
Definition wake_writer (w : writer_at) : writer_at :=
  match w with WriterSleeps => WriterTests | _ => w end.
(** [request->done.notify_one]. *)
Definition wake_submitter (r : request) : request :=
  match submitter r with Sleeps => set_submitter Tests r | _ => r end.

(** ** Steps *)

(** The threads that are already inside. *)
Inductive commit_internal : commit_signals → commit_signals → Prop :=
| submitter_notifies rs q w f st sp id b :
    rs !! id = Some (Request b Notifies) →
    commit_internal (CommitSignals rs q w f st sp)
      (CommitSignals (<[id := Request b Tests]> rs) q (wake_writer w) f st sp)
| submitter_returns rs q w f st sp id :
    rs !! id = Some (Request true Tests) →
    commit_internal (CommitSignals rs q w f st sp)
      (CommitSignals (<[id := Request true Left]> rs) q w f st sp)
| submitter_sleeps rs q w f st sp id :
    rs !! id = Some (Request false Tests) →
    commit_internal (CommitSignals rs q w f st sp)
      (CommitSignals (<[id := Request false Sleeps]> rs) q w f st sp)
| writer_stops rs f sp :
    commit_internal (CommitSignals rs [] WriterTests f true sp) (CommitSignals rs [] WriterGone f true sp)
| writer_sleeps rs f sp :
    commit_internal (CommitSignals rs [] WriterTests f false sp) (CommitSignals rs [] WriterSleeps f false sp)
| writer_delays rs q f sp :
    q ≠ [] →
    commit_internal (CommitSignals rs q WriterTests f false sp) (CommitSignals rs q WriterDelays f false sp)
| writer_forms rs batch q w f st sp :
    w = WriterTests ∨ w = WriterDelays → batch ≠ [] →
    commit_internal (CommitSignals rs (batch ++ q) w f st sp) (CommitSignals rs q (WriterWrites batch) f st sp)
| writer_commits rs q batch f st sp :
    commit_internal (CommitSignals rs q (WriterWrites batch) f st sp)
      (CommitSignals rs q (WriterAnswers batch false) f st sp)
| writer_fails rs q batch f st sp :
    commit_internal (CommitSignals rs q (WriterWrites batch) f st sp)
      (CommitSignals rs [] (WriterAnswers (batch ++ q) true) true st sp)
| writer_answers rs q id batch e f st sp :
    commit_internal (CommitSignals rs q (WriterAnswers (id :: batch) e) f st sp)
      (CommitSignals (alter set_complete id rs) q (WriterWakes id batch e) f st sp)
| writer_wakes rs q id batch e f st sp :
    commit_internal (CommitSignals rs q (WriterWakes id batch e) f st sp)
      (CommitSignals (alter wake_submitter id rs) q (WriterAnswers batch e) f st sp)
| writer_continues rs q f st sp :
    commit_internal (CommitSignals rs q (WriterAnswers [] false) f st sp)
      (CommitSignals rs q WriterTests f st sp)
| writer_returns rs q f st sp :
    commit_internal (CommitSignals rs q (WriterAnswers [] true) f st sp)
      (CommitSignals rs q WriterGone f st sp)
| destructor_notifies rs q w f st :
    commit_internal (CommitSignals rs q w f st true) (CommitSignals rs q (wake_writer w) f st false).

(** What calls bring, and spurious wake-ups. A submission that finds [failure_]
    throws at once. The object is destroyed when no call is in progress. *)
Inductive commit_outside : commit_signals → commit_signals → Prop :=
| submit rs q w sp :
    commit_outside (CommitSignals rs q w false false sp)
      (CommitSignals (rs ++ [Request false Notifies]) (q ++ [length rs]) w false false sp)
| destroy_log rs q w f :
    Forall (λ r, submitter r = Left) rs →
    commit_outside (CommitSignals rs q w f false false) (CommitSignals rs q w f true true)
| submitter_spurious rs q w f st sp id b :
    rs !! id = Some (Request b Sleeps) →
    commit_outside (CommitSignals rs q w f st sp)
      (CommitSignals (<[id := Request b Tests]> rs) q w f st sp)
| writer_spurious rs q f st sp :
    commit_outside (CommitSignals rs q WriterSleeps f st sp) (CommitSignals rs q WriterTests f st sp).

Definition commit_step (s s' : commit_signals) : Prop := commit_internal s s' ∨ commit_outside s s'.

(** ** The invariant *)

(** The requests in the hands of the writer. *)
Definition in_hand (w : writer_at) : list nat :=
  match w with WriterWrites b | WriterAnswers b _ | WriterWakes _ b _ => b | _ => [] end.

Record commit_ok (s : commit_signals) : Prop := {
  ok_unanswered : ∀ id r, sig_requests s !! id = Some r → complete r = false →
    id ∈ sig_queue s ++ in_hand (sig_writer s);
  ok_sleeping : ∀ id, sig_requests s !! id = Some (Request true Sleeps) →
    ∃ b e, sig_writer s = WriterWakes id b e;
  ok_writer_sleeps : sig_writer s = WriterSleeps →
    (sig_queue s = [] ∨ ∃ id b, sig_requests s !! id = Some (Request b Notifies)) ∧
    (sig_stopping s = true → sig_stop_pending s = true);
  ok_failed : sig_failure s = true → sig_queue s = [] ∧ match sig_writer s with
    | WriterAnswers _ e | WriterWakes _ _ e => e = true | WriterGone => True | _ => False end;
  ok_failing : match sig_writer s with
    | WriterAnswers _ true | WriterWakes _ _ true => sig_failure s = true | _ => True end;
  ok_gone : sig_writer s = WriterGone → sig_failure s = true ∨ sig_stopping s = true ∧ sig_queue s = [];
  ok_pending : sig_stop_pending s = true → sig_stopping s = true;
  ok_delays : sig_writer s = WriterDelays → sig_queue s ≠ []
}.

(** A step of the submitter of an unanswered or awake request. *)
Lemma ok_set_submitter rs q w f st sp id b x y w' :
  rs !! id = Some (Request b x) → commit_ok (CommitSignals rs q w f st sp) →
  (b = true → y ≠ Sleeps) → in_hand w' = in_hand w → w' = w ∨ w = WriterSleeps ∧ w' = WriterTests →
  (w' = WriterSleeps → x ≠ Notifies) →
  commit_ok (CommitSignals (<[id := Request b y]> rs) q w' f st sp).
Proof.
  intros Hid [H1 H2 H3 H4 H5 H6 H7 H8] Hy Hhand Hw Hx; cbn in *. split; cbn.
  - intros id' r' [(-> & <- & _)|[_ Hr]]%list_lookup_insert_Some Hc; rewrite Hhand; [|by eapply H1].
    cbn in Hc. subst b. by apply (H1 id' (Request false x)).
  - intros id' [(-> & [= -> ->] & _)|[_ Hr]]%list_lookup_insert_Some; [by destruct (Hy eq_refl)|].
    destruct (H2 id' Hr) as (b' & e & ->). destruct Hw as [->|[? _]]; [eauto|done].
  - intros ->. destruct Hw as [<-|[_ ?]]; [|done]. destruct (H3 eq_refl) as [Hq Hs]. split; [|done].
    destruct Hq as [?|(id' & b' & Hn)]; [by left|right]. exists id', b'.
    rewrite list_lookup_insert_ne; [done|]. intros <-. rewrite Hid in Hn. injection Hn as -> ->. by apply Hx.
  - intros Hf. destruct (H4 Hf) as [? Hm]. split; [done|]. by destruct Hw as [->|[-> ->]].
  - by destruct Hw as [->|[-> ->]].
  - intros ->. destruct Hw as [<-|[_ ?]]; [by apply H6|done].
  - done.
  - intros ->. destruct Hw as [<-|[_ ?]]; [by apply H8|done].
Qed.

Lemma alter_lookup_cases (g : request → request) (id : nat) (rs : list request) (id' : nat) (r' : request) :
  alter g id rs !! id' = Some r' →
  (id' = id ∧ ∃ r, rs !! id = Some r ∧ r' = g r) ∨ (id' ≠ id ∧ rs !! id' = Some r').
Proof.
  rewrite list_lookup_alter. case_decide as Hd; [|auto]. subst id'. intros H. left. split; [done|].
  destruct (rs !! id) as [r|]; [|done]. injection H as <-. eauto.
Qed.

(** The invariant of a step of the writer, field by field. *)
Ltac ok_cases Hok :=
  destruct Hok as [Hun Hsl Hws Hfd Hfg Hgo Hpe Hde]; cbn in *; split; cbn;
  [ let Hr := fresh in intros id' r' Hr Hc; try specialize (Hun id' r' Hr Hc)
  | let Hr := fresh in intros id' Hr; try destruct (Hsl id' Hr) as (? & ? & ?)
  | intros Hn
  | intros Hn; try specialize (Hfd Hn)
  |
  | intros Hn
  | intros Hn; try specialize (Hpe Hn)
  | intros Hn; try specialize (Hde Hn) ]; simplify_eq; auto.

Lemma commit_ok_internal s s' : commit_ok s → commit_internal s s' → commit_ok s'.
Proof.
  intros Hok Hs. destruct Hs as [rs q w f st sp id b Hid|rs q w f st sp id Hid|rs q w f st sp id Hid
    |rs f sp|rs f sp|rs q f sp Hne|rs batch q w f st sp Hw Hne|rs q batch f st sp|rs q batch f st sp
    |rs q id batch e f st sp|rs q id batch e f st sp|rs q f st sp|rs q f st sp|rs q w f st].
  - apply (ok_set_submitter rs q w f st sp id b Notifies); [done..| | |]; destruct w; cbn; auto; done.
  - apply (ok_set_submitter rs q w f st sp id true Tests); auto.
  - apply (ok_set_submitter rs q w f st sp id false Tests); auto; done.
  - ok_cases Hok; naive_solver.
  - ok_cases Hok; naive_solver.
  - ok_cases Hok; naive_solver.
  - ok_cases Hok; try (destruct Hw; subst w; cbn in *); try set_solver; naive_solver.
  - ok_cases Hok; try done. naive_solver.
  - ok_cases Hok; try done. set_solver.
  - ok_cases Hok; try done.
    + apply alter_lookup_cases in H as [(-> & r & Hr & ->)|[Hne Hr]]; [done|].
      specialize (Hun id' r' Hr Hc). set_solver.
    + apply alter_lookup_cases in H as [(-> & r & Hr & Heq)|[Hne Hr]]; [eauto|].
      by destruct (Hsl id' Hr) as (? & ? & ?).
  - ok_cases Hok; try done.
    + apply alter_lookup_cases in H as [(-> & r & Hr & ->)|[Hne Hr]]; [|by apply (Hun id' r')].
      apply (Hun id r Hr). destruct r as [c []]; done.
    + apply alter_lookup_cases in H as [(-> & [c []] & Hr & Heq)|[Hne Hr]]; try done.
      destruct (Hsl id' Hr) as (? & ? & [= -> _ _]). done.
  - ok_cases Hok; try done. naive_solver.
  - ok_cases Hok; try done. naive_solver.
  - ok_cases Hok; destruct w; cbn in *; try done; naive_solver.
Qed.

Lemma commit_ok_outside s s' : commit_ok s → commit_outside s s' → commit_ok s'.
Proof.
  intros Hok Hs. destruct Hs as [rs q w sp|rs q w f Hleft|rs q w f st sp id b Hid|rs q f st sp].
  - ok_cases Hok; try done.
    + apply lookup_app_Some in H as [H|[Hlen H]].
      * specialize (Hun id' r' H Hc). set_solver.
      * apply list_lookup_singleton_Some in H as [Hz <-].
        assert (id' = length rs) as -> by lia. set_solver.
    + apply lookup_app_Some in H as [H|[_ H]]; [by apply Hsl|].
      by apply list_lookup_singleton_Some in H as [_ ?].
    + split; [right|by apply Hws]. exists (length rs), false.
      by rewrite lookup_app_r, Nat.sub_diag.
    + destruct (Hgo eq_refl) as [?|[? _]]; done.
    + by destruct q.
  - ok_cases Hok; try done.
    + split; [|done]. by apply Hws.
    + destruct (Hgo eq_refl) as [?|[? _]]; [by left|done].
  - apply (ok_set_submitter rs q w f st sp id b Sleeps); auto; done.
  - ok_cases Hok; try done.
Qed.

Lemma commit_reachable_ok s : rtc commit_step commit_init s → commit_ok s.
Proof.
  intros Hr. assert (∀ s0, commit_ok s0 → rtc commit_step s0 s → commit_ok s) as Hgen.
  { intros s0 H0 H1. induction H1 as [|s0 s1 s2 [Hs|Hs] _ IH]; [done| |];
      eauto using commit_ok_internal, commit_ok_outside. }
  eapply Hgen, Hr. split; cbn; try done; by intros id r.
Qed.

(** ** Everybody returns *)

Definition submitter_work (r : request) : nat :=
  match submitter r with Notifies => 4 | Tests => 1 | Sleeps | Left => 0 end.
Definition writer_work (w : writer_at) : nat :=
  match w with
  | WriterSleeps | WriterGone => 0
  | WriterDelays => 1
  | WriterTests => 2
  | WriterWrites b => 9 * length b + 4
  | WriterAnswers b _ => 4 * length b + 3
  | WriterWakes _ b _ => 4 * length b + 5
  end.
Definition commit_work (s : commit_signals) : nat :=
  sum_list_with submitter_work (sig_requests s) + 14 * length (sig_queue s) + writer_work (sig_writer s)
  + (if sig_stop_pending s then 3 else 0).

Lemma sum_alter (g : request → request) (id : nat) : ∀ (rs : list request) n,
  (∀ r, rs !! id = Some r → submitter_work (g r) ≤ submitter_work r + n)%nat →
  (sum_list_with submitter_work (alter g id rs) ≤ sum_list_with submitter_work rs + n)%nat.
Proof.
  induction id as [|id IH]; intros [|r rs] n Hg; cbn; [lia| |lia|].
  - specialize (Hg r eq_refl). lia.
  - specialize (IH rs n Hg). cbv [alter list_alter] in *. lia.
Qed.

Lemma sum_insert (id : nat) (r' : request) : ∀ (rs : list request) r,
  rs !! id = Some r →
  (sum_list_with submitter_work (<[id := r']> rs) + submitter_work r
   = sum_list_with submitter_work rs + submitter_work r')%nat.
Proof.
  induction id as [|id IH]; intros [|r0 rs] r Hr; try done; cbn in *.
  - injection Hr as ->. lia.
  - specialize (IH rs r Hr). cbv [insert list_insert] in *. lia.
Qed.

Lemma wake_writer_work w : (writer_work (wake_writer w) ≤ writer_work w + 2)%nat.
Proof. destruct w; cbn; lia. Qed.

Lemma commit_work_decreases s s' : commit_internal s s' → (commit_work s' < commit_work s)%nat.
Proof.
  intros Hs. destruct Hs as [rs q w f st sp id b Hid|rs q w f st sp id Hid|rs q w f st sp id Hid
    |rs f sp|rs f sp|rs q f sp Hne|rs batch q w f st sp Hw Hne|rs q batch f st sp|rs q batch f st sp
    |rs q id batch e f st sp|rs q id batch e f st sp|rs q f st sp|rs q f st sp|rs q w f st];
    unfold commit_work; cbn [sig_requests sig_queue sig_writer sig_stop_pending writer_work length].
  - pose proof (sum_insert id (Request b Tests) rs _ Hid). pose proof (wake_writer_work w). cbn in *. lia.
  - pose proof (sum_insert id (Request true Left) rs _ Hid). cbn in *. lia.
  - pose proof (sum_insert id (Request false Sleeps) rs _ Hid). cbn in *. lia.
  - lia.
  - lia.
  - lia.
  - rewrite length_app. destruct batch; [done|]. destruct Hw; subst w; cbn; lia.
  - lia.
  - rewrite length_app. lia.
  - pose proof (sum_alter set_complete id rs 0). specialize (H ltac:(intros [? []] _; cbn; lia)). lia.
  - pose proof (sum_alter wake_submitter id rs 1). specialize (H ltac:(intros [? []] _; cbn; lia)). lia.
  - lia.
  - lia.
  - pose proof (wake_writer_work w). lia.
Qed.

Lemma commit_quiet s :
  commit_ok s → (∀ s', ¬ commit_internal s s') →
  Forall (λ r, submitter r = Left ∧ complete r = true) (sig_requests s) ∧
  (sig_stopping s = true → sig_writer s = WriterGone).
Proof.
  destruct s as [rs q w f st sp]. intros [H1 H2 H3 H4 H5 H6 H7 H8] Hq. cbn in *.
  assert (sp = false) as -> by (destruct sp; [|done]; destruct (Hq _ (destructor_notifies rs q w f st))).
  assert (∀ id b x, rs !! id = Some (Request b x) → x = Sleeps ∨ x = Left) as Hat.
  { intros id b x Hid. destruct x; auto; exfalso; [|destruct b];
      eapply Hq; by econstructor. }
  assert (w = WriterSleeps ∨ w = WriterGone) as Hw.
  { destruct w as [| | |b|[|id b] []|id b e|]; auto; exfalso; try (by eapply Hq; econstructor).
    - destruct q as [|id q]; [destruct st; eapply Hq; by constructor|].
      eapply Hq. apply (writer_forms rs [id] q); auto.
    - destruct q as [|id q]; [|eapply Hq; apply (writer_forms rs [id] q); auto].
      by specialize (H8 eq_refl). }
  assert (q = [] ∧ in_hand w = []) as [-> Hhand].
  { destruct Hw as [->| ->]; (split; [|done]).
    - destruct (H3 eq_refl) as [[?|(id & b & Hid)] _]; [done|]. by destruct (Hat _ _ _ Hid).
    - destruct (H6 eq_refl) as [Hf|[_ ?]]; [by apply H4|done]. }
  split.
  - apply Forall_lookup_2. intros id [[] x] Hid; [|specialize (H1 id _ Hid eq_refl); rewrite Hhand in H1; by apply not_elem_of_nil in H1].
    destruct (Hat _ _ _ Hid) as [-> | ->]; [|done]. destruct (H2 id Hid) as (b & e & ->). by destruct Hw.
  - intros ->. destruct Hw as [->|?]; [|done]. destruct (H3 eq_refl) as [_ Hs]. by specialize (Hs eq_refl).
Qed.

(** C21: Nobody waits forever for group commit. In every reachable state, whatever
    notification came when and however often threads woke spuriously, the threads
    inside can take only finitely many more steps by themselves; when none of them
    has a step left, every submitter has returned with its request answered, and a
    writer that was told to stop has returned, so that the destructor can join it. *)
Theorem submitters_return s :
  rtc commit_step commit_init s →
  sn commit_internal s ∧
  (∀ s', rtc commit_internal s s' → (∀ s'', ¬ commit_internal s' s'') →
     Forall (λ r, submitter r = Left ∧ complete r = true) (sig_requests s') ∧
     (sig_stopping s' = true → sig_writer s' = WriterGone)).
Proof.
  intros Hok%commit_reachable_ok. split.
  - clear Hok. remember (commit_work s) as n eqn:Hn. revert s Hn.
    induction n as [n IH] using lt_wf_ind. intros s ->. constructor. intros s' Hs.
    by eapply IH; [by apply commit_work_decreases|].
  - intros s' Hr. apply commit_quiet. induction Hr as [|s1 s2 s3 Hs _ IH]; [done|].
    apply IH. by eapply commit_ok_internal.
Qed.
