(* ===== verification/SnapshotFile.v ===== *)
(** * Snapshots: [include/persistence/snapshot.h] and
    [src/persistence/snapshot.cpp]

    The file format, writing with its publication by rename, loading, and
    verification. A [std::unordered_map] that is written is the list of its
    entries in the order of its iteration, which the program does not choose. *)

From S2P Require Import Prelude Machine BinaryIO.

(** ** Definitions *)

Record SnapshotLoadResult := {
  loaded : bool;
  entry_count : Z;
  wal_offset : Z
}.

Definition not_loaded : SnapshotLoadResult := {| loaded := false; entry_count := 0; wal_offset := 0 |}.

Inductive SnapshotFaultPoint := AfterTempWrite | AfterTempSync | AfterRename | AfterDirectorySync.

Record Snapshot := { snapshot_path : bytes; snapshot_fault_hook : bool }.

Definition kSnapshotMagic : Z := 0x3153564B.
Definition kSnapshotVersion : Z := 1.
Definition kMaxSnapshotFieldLength : Z := 64 * 1024 * 1024.

Definition temp_path (s : Snapshot) : bytes := snapshot_path s ++ str ".tmp".

Definition sync_file (path : bytes) : M world unit :=
  let! opened := fs_call id in
  match opened with
  | Some errno => throw (system_error errno (str "open snapshot for sync"))
  | None =>
      let! synced := fs_fdatasync path in
      match synced with
      | Some errno => throw (system_error errno (str "sync snapshot"))
      | None => ret tt
      end
  end.

Definition sync_snapshot_directory : M world unit :=
  sync_parent_directory (str "open snapshot directory") (str "sync snapshot directory").

Definition remove_if_exists (path description : bytes) : M world unit :=
  let! failed := fs_remove path in
  match failed with
  | Some errno =>
      if negb (errno =? ENOENT)
      then throw (runtime_error (str "failed to remove " ++ description ++ str ": " ++ path))
      else ret tt
  | None => ret tt
  end.

Definition checked_entry_count (count : Z) : res Z :=
  if u32_max <? count then Exn (runtime_error (str "too many snapshot entries"))
  else Ok (u32 count).

(** Writing to the stream [output]; a failed write throws and leaves the stream
    failed. *)
Definition put_bytes (data description : bytes) : M ofstream unit :=
  λ o, match WriteBytes o data description with
       | Ok o' => (Ok tt, o')
       | Exn e => (Exn e, ofs_write data o)
       end.
Definition put_primitive (host : endianness) (n : nat) (value : Z) (description : bytes)
    : M ofstream unit :=
  λ o, match WritePrimitive host n o value description with
       | Ok o' => (Ok tt, o')
       | Exn e => (Exn e, ofs_write (host_bytes host n value) o)
       end.
Definition put_res {A} (r : res A) : M ofstream A :=
  match r with Ok a => ret a | Exn e => throw e end.

Definition write_entry (host : endianness) (key value : bytes) : M ofstream unit :=
  let! key_size := put_res (CheckedSize key (str "Snapshot key")) in
  let! value_size := put_res (CheckedSize value (str "Snapshot value")) in
  put_primitive host 4 key_size (str "Snapshot key size") ;;;
  put_bytes key (str "Snapshot key") ;;;
  put_primitive host 4 value_size (str "Snapshot value size") ;;;
  put_bytes value (str "Snapshot value").

Fixpoint write_entries (host : endianness) (entries : list (bytes * bytes)) : M ofstream unit :=
  match entries with
  | [] => ret tt
  | (key, value) :: entries => write_entry host key value ;;; write_entries host entries
  end.

(** What is written between opening and flushing the temporary file. *)
Definition write_snapshot (host : endianness) (entries : list (bytes * bytes))
    (wal_offset entry_count : Z) : M ofstream unit :=
  put_primitive host 4 kSnapshotMagic (str "Snapshot magic") ;;;
  put_primitive host 4 kSnapshotVersion (str "Snapshot version") ;;;
  put_primitive host 8 wal_offset (str "Snapshot WAL offset") ;;;
  put_primitive host 4 entry_count (str "Snapshot entry count") ;;;
  write_entries host entries.

(** The scope of the stream: when an exception leaves it, the stream is closed,
    which flushes what is in its buffer. *)
Definition write_temp (host : endianness) (temp : bytes) (entries : list (bytes * bytes))
    (wal_offset entry_count : Z) : M world unit :=
  let! output := ofs_open_trunc temp in
  if negb (ofs_is_open output)
  then throw (runtime_error (str "failed to open temp snapshot file for write: " ++ temp))
  else
    match write_snapshot host entries wal_offset entry_count output with
    | (Exn e, output) => ofs_close output ;;; throw e
    | (Ok _, output) =>
        let! output := ofs_flush output in
        ofs_close output ;;;
        if negb (ofs_good output)
        then throw (runtime_error (str "failed to write temp snapshot file")) else ret tt
    end.

Definition snapshot_hook (s : Snapshot) (point : SnapshotFaultPoint) : M world unit :=
  call_hook (snapshot_fault_hook s).

Definition Save (host : endianness) (s : Snapshot) (entries : list (bytes * bytes))
    (wal_offset : Z) : M world unit :=
  match checked_entry_count (Z.of_nat (length entries)) with
  | Exn e => throw e
  | Ok entry_count =>
      write_temp host (temp_path s) entries wal_offset entry_count ;;;
      snapshot_hook s AfterTempWrite ;;;
      sync_file (temp_path s) ;;;
      snapshot_hook s AfterTempSync ;;;
      let! renamed := fs_rename (temp_path s) (snapshot_path s) in
      (if bool_decide (is_Some renamed)
       then throw (runtime_error (str "failed to replace snapshot file: " ++ snapshot_path s))
       else ret tt) ;;;
      snapshot_hook s AfterRename ;;;
      sync_snapshot_directory ;;;
      snapshot_hook s AfterDirectorySync
  end.

(** [read_entry]: the entry and the rest, or a short read. *)
Definition read_entry (host : endianness) (input : istream)
    : res (option (bytes * bytes * istream)) :=
  match ReadPrimitive host 4 input with
  | None => Ok None
  | Some (key_size, input) =>
  if kMaxSnapshotFieldLength <? key_size
  then Exn (runtime_error (str "snapshot key is too large")) else
  let (loaded_key, input) := input_read key_size input in
  if negb (size_of loaded_key =? key_size) then Ok None else
  match ReadPrimitive host 4 input with
  | None => Ok None
  | Some (value_size, input) =>
  if kMaxSnapshotFieldLength <? value_size
  then Exn (runtime_error (str "snapshot value is too large")) else
  let (loaded_value, input) := input_read value_size input in
  if negb (size_of loaded_value =? value_size) then Ok None
  else Ok (Some (loaded_key, loaded_value, input))
  end end.

(** The loop over [counter], with a bound on the number of turns. *)
Fixpoint load_entries (fuel : nat) (host : endianness) (counter entry_count : Z)
    (input : istream) (loaded : gmap bytes bytes) : option (res (gmap bytes bytes)) :=
  if counter <? entry_count then
    match fuel with
    | O => None
    | S fuel =>
        match read_entry host input with
        | Exn e => Some (Exn e)
        | Ok None => Some (Exn (runtime_error (str "failed to load snapshot")))
        | Ok (Some (key, value, input)) =>
            load_entries fuel host (counter + 1) entry_count input (<[key := value]> loaded)
        end
    end
  else Some (Ok loaded).

(** The fields before the entries: offset, count and the rest of the file; [None]
    when there is not even a first field. *)
Definition read_metadata (host : endianness) (input : istream) : res (option (Z * Z * istream)) :=
  match ReadPrimitive host 4 input with
  | None => Ok None
  | Some (first_field, input) =>
      if first_field =? kSnapshotMagic then
        let failure := Exn (runtime_error (str "failed to load snapshot metadata")) in
        match ReadPrimitive host 4 input with
        | None => failure
        | Some (version, input) =>
        if negb (version =? kSnapshotVersion) then failure else
        match ReadPrimitive host 8 input with
        | None => failure
        | Some (wal_offset, input) =>
        match ReadPrimitive host 4 input with
        | None => failure
        | Some (entry_count, input) => Ok (Some (wal_offset, entry_count, input))
        end end end
      else Ok (Some (0, first_field, input))
  end.

(** [Load]: [file] is what opening the path gives; the state is the target map. *)
Definition Load (host : endianness) (file : option bytes) : M (gmap bytes bytes) SnapshotLoadResult :=
  match file with
  | None => ret not_loaded
  | Some input =>
      match read_metadata host input with
      | Exn e => throw e
      | Ok None => ret not_loaded
      | Ok (Some (wal_offset, entry_count, input)) =>
          match load_entries (S (length input)) host 0 entry_count input ∅ with
          | Some (Ok m) =>
              modify (λ _, m) ;;;
              ret {| loaded := true; entry_count := entry_count; wal_offset := wal_offset |}
          | Some (Exn e) => throw e
          | None => ret not_loaded
          end
      end
  end.

Definition Verify (host : endianness) (file : option bytes) (expected : gmap bytes bytes)
    (expected_count expected_wal_offset : Z) : res bool :=
  match Load host file ∅ with
  | (Exn e, _) => Exn e
  | (Ok r, m) =>
      Ok (loaded r && (entry_count r =? expected_count)
          && (wal_offset r =? expected_wal_offset) && bool_decide (m = expected))
  end.

Definition SaveVerified (host : endianness) (s : Snapshot) (entries : list (bytes * bytes))
    (wal_offset : Z) : M world unit :=
  Save host s entries wal_offset ;;;
  let! file := fs_read (snapshot_path s) in
  match Verify host file (list_to_map entries) (Z.of_nat (length entries)) wal_offset with
  | Exn e => throw e
  | Ok true => ret tt
  | Ok false => throw (runtime_error (str "snapshot verification failed: " ++ snapshot_path s))
  end.

Definition ClearSnapshot (s : Snapshot) : M world unit :=
  remove_if_exists (snapshot_path s) (str "snapshot file") ;;;
  remove_if_exists (temp_path s) (str "temp snapshot file") ;;;
  sync_snapshot_directory.

(** ** The format *)

Definition entry_bytes (host : endianness) (e : bytes * bytes) : bytes :=
  host_bytes host 4 (size_of e.1) ++ e.1 ++ host_bytes host 4 (size_of e.2) ++ e.2.

Definition entries_bytes (host : endianness) (es : list (bytes * bytes)) : bytes :=
  concat (entry_bytes host <$> es).

Definition snapshot_image (host : endianness) (es : list (bytes * bytes)) (wal_offset : Z) : bytes :=
  host_bytes host 4 kSnapshotMagic ++ host_bytes host 4 kSnapshotVersion
  ++ host_bytes host 8 wal_offset ++ host_bytes host 4 (Z.of_nat (length es))
  ++ entries_bytes host es.

(** The files written before there was a header. *)
Definition legacy_image (host : endianness) (es : list (bytes * bytes)) : bytes :=
  host_bytes host 4 (Z.of_nat (length es)) ++ entries_bytes host es.

(** What the writer accepts, and what the reader accepts. *)
Definition entry_writable (e : bytes * bytes) : Prop := size_of e.1 ≤ u32_max ∧ size_of e.2 ≤ u32_max.
Definition entry_readable (e : bytes * bytes) : Prop :=
  size_of e.1 ≤ kMaxSnapshotFieldLength ∧ size_of e.2 ≤ kMaxSnapshotFieldLength.

Lemma readable_writable e : entry_readable e → entry_writable e.
Proof. unfold entry_readable, entry_writable, kMaxSnapshotFieldLength, u32_max. lia. Qed.

(** ** Reading *)

Lemma ReadPrimitive_short host n input :
  size_of input < Z.of_nat n → ReadPrimitive host n input = None.
Proof.
  intros H. unfold ReadPrimitive. rewrite input_read_short by done.
  by destruct (Z.eqb_spec (size_of input) (Z.of_nat n)); [lia|].
Qed.

Lemma read_entry_field host e rest :
  entry_readable e → read_entry host (entry_bytes host e ++ rest) = Ok (Some (e.1, e.2, rest)).
Proof.
  destruct e as [k v]. intros [Hk Hv]. unfold kMaxSnapshotFieldLength in *. cbn [fst snd] in *.
  pose proof (size_of_nonneg k). pose proof (size_of_nonneg v).
  unfold read_entry, entry_bytes, kMaxSnapshotFieldLength. cbn [fst snd].
  rewrite <-!app_assoc, ReadPrimitive_field by lia.
  destruct (Z.ltb_spec (64 * 1024 * 1024) (size_of k)); [lia|].
  rewrite input_read_app, Z.eqb_refl by done. cbn [negb]. rewrite ReadPrimitive_field by lia.
  destruct (Z.ltb_spec (64 * 1024 * 1024) (size_of v)); [lia|].
  by rewrite input_read_app, Z.eqb_refl by done.
Qed.

(** A proper part of an entry is a short read or a length that is refused. *)
Lemma read_entry_torn host e k :
  entry_readable e → (k < length (entry_bytes host e))%nat →
  read_entry host (take k (entry_bytes host e)) = Ok None.
Proof.
  destruct e as [key v]. intros [Hk Hv] Hlt. unfold kMaxSnapshotFieldLength in *. cbn [fst snd] in *.
  pose proof (size_of_nonneg key). pose proof (size_of_nonneg v).
  unfold read_entry, kMaxSnapshotFieldLength. unfold entry_bytes in *. cbn [fst snd] in *.
  set (l4 := host_bytes host 4 (size_of key)) in *. set (m4 := host_bytes host 4 (size_of v)) in *.
  assert (length l4 = 4%nat ∧ length m4 = 4%nat) as [Hl Hm] by (split; apply length_host_bytes).
  rewrite !length_app in Hlt.
  destruct (decide (k < 4)%nat).
  { rewrite ReadPrimitive_short; [done|]. unfold size_of. rewrite length_take. lia. }
  rewrite take_app, (take_ge l4) by lia. unfold l4 at 1. rewrite ReadPrimitive_field by lia.
  destruct (Z.ltb_spec (64 * 1024 * 1024) (size_of key)); [lia|]. rewrite Hl.
  destruct (decide (k - 4 < length key)%nat).
  { rewrite input_read_short by (unfold size_of; rewrite length_take; lia).
    destruct (Z.eqb_spec (size_of (take (k - 4) (key ++ m4 ++ v))) (size_of key)) as [Heq|]; [|done].
    unfold size_of in Heq. rewrite length_take in Heq. lia. }
  rewrite take_app, (take_ge key) by lia. rewrite input_read_app, Z.eqb_refl by done. cbn [negb].
  destruct (decide (k - 4 - length key < 4)%nat).
  { rewrite ReadPrimitive_short; [done|]. unfold size_of. rewrite length_take. lia. }
  rewrite take_app, (take_ge m4) by lia. unfold m4 at 1. rewrite ReadPrimitive_field by lia.
  destruct (Z.ltb_spec (64 * 1024 * 1024) (size_of v)); [lia|]. rewrite Hm.
  rewrite input_read_short by (unfold size_of; rewrite length_take; lia).
  destruct (Z.eqb_spec (size_of (take (k - 4 - length key - 4) v)) (size_of v)) as [Heq|]; [|done].
  unfold size_of in Heq. rewrite length_take in Heq. lia.
Qed.

Definition insert_entry (m : gmap bytes bytes) (e : bytes * bytes) : gmap bytes bytes := <[e.1 := e.2]> m.

Lemma length_entry_bytes host e : (8 ≤ length (entry_bytes host e))%nat.
Proof. unfold entry_bytes. rewrite !length_app, !length_host_bytes. lia. Qed.

Lemma length_entries_bytes host es : (length es ≤ length (entries_bytes host es))%nat.
Proof.
  unfold entries_bytes. induction es as [|e es IH]; cbn; [lia|].
  rewrite length_app. pose proof (length_entry_bytes host e). lia.
Qed.

(** Entries that are there are loaded, in order. *)
Lemma load_entries_fields host es more rest : ∀ fuel counter m,
  Forall entry_readable es → (length es ≤ fuel)%nat → 0 ≤ more →
  load_entries fuel host counter (counter + Z.of_nat (length es) + more)
    (entries_bytes host es ++ rest) m
  = load_entries (fuel - length es) host (counter + Z.of_nat (length es))
      (counter + Z.of_nat (length es) + more) rest (foldl insert_entry m es).
Proof.
  induction es as [|[k v] es IH]; intros fuel counter m Hes Hf Hmore.
  { cbn [length foldl]. by rewrite !Z.add_0_r, Nat.sub_0_r. }
  inversion Hes as [|? ? He Hes']; subst. destruct fuel as [|fuel]; [cbn in Hf; lia|].
  cbn [length] in Hf |- *. cbn [load_entries foldl].
  destruct (Z.ltb_spec counter (counter + Z.of_nat (S (length es)) + more)); [|lia].
  unfold entries_bytes. cbn [fmap list_fmap concat]. rewrite <-app_assoc, read_entry_field by done.
  cbn [fst snd]. rewrite Nat2Z.inj_succ, <-Z.add_1_l, !Z.add_assoc.
  fold (entries_bytes host es). rewrite IH by (done || lia).
  replace (S fuel - S (length es))%nat with (fuel - length es)%nat by lia. done.
Qed.

Lemma read_entry_rest host input k v rest :
  read_entry host input = Ok (Some (k, v, rest)) → (length rest < length input)%nat.
Proof.
  unfold read_entry, ReadPrimitive. intros H.
  destruct (input_read (Z.of_nat 4) input) as [g1 i1] eqn:E1. apply input_read_inv in E1 as [-> Hs1]; [|lia].
  destruct (Z.eqb_spec (size_of g1) (Z.of_nat 4)) as [H1|]; [|done].
  pose proof (host_value_range host g1). destruct (_ <? _); [done|].
  destruct (input_read (host_value host g1) i1) as [g2 i2] eqn:E2. apply input_read_inv in E2 as [-> _]; [|lia].
  destruct (negb _); [done|].
  destruct (input_read (Z.of_nat 4) i2) as [g3 i3] eqn:E3. apply input_read_inv in E3 as [-> _]; [|lia].
  destruct (size_of g3 =? Z.of_nat 4); [|done].
  pose proof (host_value_range host g3). destruct (_ <? _); [done|].
  destruct (input_read (host_value host g3) i3) as [g4 i4] eqn:E4. apply input_read_inv in E4 as [-> _]; [|lia].
  destruct (negb _); [done|]. injection H as <- <- <-.
  rewrite !length_app. unfold size_of in H1. lia.
Qed.

(** The bound on the turns is never reached. *)
Lemma load_entries_total fuel host counter count input m :
  (length input < fuel)%nat → ∃ r, load_entries fuel host counter count input m = Some r.
Proof.
  revert counter input m. induction fuel as [|fuel IH]; intros counter input m Hf; [lia|].
  cbn [load_entries]. destruct (counter <? count); [|by eexists].
  destruct (read_entry host input) as [[[[k v] rest]|]|e] eqn:E; [|by eexists..].
  apply IH. apply read_entry_rest in E. lia.
Qed.

(** A reader that found what it wanted does not look at what follows. *)
Lemma input_read_more n input got rest more :
  0 ≤ n → input_read n input = (got, rest) → size_of got = n → input_read n (input ++ more) = (got, rest ++ more).
Proof. intros Hn H Hg. apply input_read_inv in H as [-> _]; [|done]. by rewrite <-app_assoc, input_read_app. Qed.

Lemma ReadPrimitive_more host n input v rest more :
  ReadPrimitive host n input = Some (v, rest) → ReadPrimitive host n (input ++ more) = Some (v, rest ++ more).
Proof.
  unfold ReadPrimitive. destruct (input_read (Z.of_nat n) input) as [got r] eqn:E.
  destruct (Z.eqb_spec (size_of got) (Z.of_nat n)) as [Hg|]; [|done]. intros [= <- <-].
  rewrite (input_read_more _ _ _ _ more (Nat2Z.is_nonneg n) E Hg). by rewrite Hg, Z.eqb_refl.
Qed.

Lemma ReadPrimitive_range host n input v rest : ReadPrimitive host n input = Some (v, rest) → 0 ≤ v.
Proof.
  unfold ReadPrimitive. destruct (input_read _ _) as [got r]. destruct (_ =? _); [|done]. intros [= <- _].
  apply host_value_range.
Qed.

Lemma read_entry_more host input k v rest more :
  read_entry host input = Ok (Some (k, v, rest)) →
  read_entry host (input ++ more) = Ok (Some (k, v, rest ++ more)).
Proof.
  unfold read_entry.
  destruct (ReadPrimitive host 4 input) as [[n1 i1]|] eqn:E1; [|done].
  rewrite (ReadPrimitive_more _ _ _ _ _ more E1). apply ReadPrimitive_range in E1. destruct (_ <? n1); [done|].
  destruct (input_read n1 i1) as [g1 i2] eqn:E2. destruct (Z.eqb_spec (size_of g1) n1) as [H1|]; [|done].
  rewrite (input_read_more _ _ _ _ more E1 E2 H1), (proj2 (Z.eqb_eq _ _) H1). cbn [negb].
  destruct (ReadPrimitive host 4 i2) as [[n2 i3]|] eqn:E3; [|done].
  rewrite (ReadPrimitive_more _ _ _ _ _ more E3). apply ReadPrimitive_range in E3. destruct (_ <? n2); [done|].
  destruct (input_read n2 i3) as [g2 i4] eqn:E4. destruct (Z.eqb_spec (size_of g2) n2) as [H2|]; [|done].
  rewrite (input_read_more _ _ _ _ more E3 E4 H2), (proj2 (Z.eqb_eq _ _) H2). cbn [negb].
  by intros [= <- <- <-].
Qed.

Lemma load_entries_more fuel fuel' host counter count input m m' more :
  load_entries fuel host counter count input m = Some (Ok m') → (fuel ≤ fuel')%nat →
  load_entries fuel' host counter count (input ++ more) m = Some (Ok m').
Proof.
  revert fuel' counter input m. induction fuel as [|fuel IH]; intros fuel' counter input m; cbn [load_entries].
  { destruct (counter <? count) eqn:Hc; [done|]. intros [= <-] _. destruct fuel'; cbn [load_entries]; by rewrite Hc. }
  destruct (counter <? count) eqn:Hc; [|intros [= <-] _; destruct fuel'; cbn [load_entries]; by rewrite Hc].
  destruct (read_entry host input) as [[[[k v] rest]|]|e] eqn:E; [|done..]. intros H Hf.
  destruct fuel' as [|fuel']; [lia|]. cbn [load_entries]. rewrite Hc, (read_entry_more _ _ _ _ _ more E).
  apply IH; [done|lia].
Qed.

Lemma read_metadata_more host input off count rest more :
  read_metadata host input = Ok (Some (off, count, rest)) →
  read_metadata host (input ++ more) = Ok (Some (off, count, rest ++ more)).
Proof.
  unfold read_metadata.
  destruct (ReadPrimitive host 4 input) as [[n1 i1]|] eqn:E1; [|done].
  rewrite (ReadPrimitive_more _ _ _ _ _ more E1). destruct (n1 =? kSnapshotMagic); [|by intros [= <- <- <-]].
  destruct (ReadPrimitive host 4 i1) as [[n2 i2]|] eqn:E2; [|done].
  rewrite (ReadPrimitive_more _ _ _ _ _ more E2). destruct (negb _); [done|].
  destruct (ReadPrimitive host 8 i2) as [[n3 i3]|] eqn:E3; [|done].
  rewrite (ReadPrimitive_more _ _ _ _ _ more E3).
  destruct (ReadPrimitive host 4 i3) as [[n4 i4]|] eqn:E4; [|done].
  rewrite (ReadPrimitive_more _ _ _ _ _ more E4). by intros [= <- <- <-].
Qed.

(** What is loaded from the first bytes of a file is what the file holds. *)
Lemma Load_more host input more m r m' :
  Load host (Some input) m = (Ok r, m') → loaded r = true → Load host (Some (input ++ more)) m = (Ok r, m').
Proof.
  unfold Load. destruct (read_metadata host input) as [[[[off count] rest]|]|e] eqn:E;
    [|by intros [= <- <-]|done].
  rewrite (read_metadata_more _ _ _ _ _ more E).
  destruct (load_entries _ _ _ _ _ _) as [[m1|e]|] eqn:El; [|done|by intros [= <- <-]].
  intros H _. rewrite (load_entries_more _ (S (length (rest ++ more))) _ _ _ _ _ _ more El); [done|].
  rewrite length_app. lia.
Qed.

(** So whatever the system lets a reader see: what [Load] loads is what the file
    holds, and otherwise the target is as it was. *)
Lemma Load_seen host v file m :
  (∃ r, Load host (seen v file) m = (r, m) ∧ ∀ found, r = Ok found → loaded found = false) ∨
  (∃ r m', Load host (seen v file) m = (Ok r, m') ∧ loaded r = true ∧ Load host file m = (Ok r, m')).
Proof.
  assert (∀ file, (∃ r, Load host file m = (r, m) ∧ ∀ found, r = Ok found → loaded found = false) ∨
            ∃ r m', Load host file m = (Ok r, m') ∧ loaded r = true) as Hcases.
  { intros [input|]; [|left; exists (Ok not_loaded); split; [done|by intros ? [= <-]]]. unfold Load.
    destruct (read_metadata host input) as [[[[off count] rest]|]|e].
    - destruct (load_entries _ _ _ _ _ _) as [[m1|e]|]; [right; by do 2 eexists|left..].
      + exists (Exn e). by split.
      + exists (Ok not_loaded). split; [done|by intros ? [= <-]].
    - left. exists (Ok not_loaded). split; [done|by intros ? [= <-]].
    - left. exists (Exn e). by split. }
  destruct (Hcases (seen v file)) as [|(r & m' & Hl & Hr)]; [by left|]. right. exists r, m'. split_and!; [done..|].
  destruct v as [| |n], file as [input|]; try done; [by injection Hl as <- _|idtac..].
  cbn in Hl. apply (Load_more _ _ (drop n input)) in Hl; [|done]. by rewrite take_drop in Hl.
Qed.

Lemma foldl_insert_map es m :
  NoDup es.*1 → foldl insert_entry m es = list_to_map es ∪ m.
Proof.
  revert m. induction es as [|[k v] es IH]; intros m Hnd; cbn [foldl fmap list_fmap] in *.
  { cbn. by rewrite (left_id_L ∅ (∪)). }
  inversion Hnd as [|? ? Hk Hnd']; subst. rewrite IH by done. unfold insert_entry. cbn [fst snd].
  cbn [list_to_map]. rewrite <-insert_union_r; [by rewrite insert_union_l|].
  by apply not_elem_of_list_to_map_1.
Qed.

(** ** Loading what was written *)

Lemma read_metadata_image host es off :
  0 ≤ off < 2 ^ 64 → Z.of_nat (length es) ≤ u32_max →
  read_metadata host (snapshot_image host es off)
  = Ok (Some (off, Z.of_nat (length es), entries_bytes host es)).
Proof.
  intros Hoff Hlen. unfold u32_max in Hlen. unfold read_metadata, snapshot_image.
  rewrite ReadPrimitive_field by (unfold kSnapshotMagic; lia). rewrite Z.eqb_refl.
  rewrite ReadPrimitive_field by (unfold kSnapshotVersion; lia). rewrite Z.eqb_refl. cbn [negb].
  rewrite ReadPrimitive_field by lia. rewrite ReadPrimitive_field by lia. done.
Qed.

Lemma Load_image host es off m :
  NoDup es.*1 → Forall entry_readable es → 0 ≤ off < 2 ^ 64 → Z.of_nat (length es) ≤ u32_max →
  Load host (Some (snapshot_image host es off)) m
  = (Ok {| loaded := true; entry_count := Z.of_nat (length es); wal_offset := off |}, list_to_map es).
Proof.
  intros Hnd Hes Hoff Hlen. unfold Load. rewrite read_metadata_image by done.
  pose proof (load_entries_fields host es 0 [] (S (length (entries_bytes host es))) 0 ∅ Hes) as H.
  rewrite app_nil_r, Z.add_0_l, Z.add_0_r in H.
  pose proof (length_entries_bytes host es). rewrite H by lia.
  destruct (S (length (entries_bytes host es)) - length es)%nat; cbn [load_entries];
    rewrite Z.ltb_irrefl; rewrite foldl_insert_map, (right_id_L ∅ (∪)) by done; done.
Qed.

(** C26: loading a snapshot gives back exactly the map, the number of entries
    and the WAL offset that were written, for every map whose keys and values
    are at most 64 MiB, in whatever order the entries were iterated; it replaces
    the target map. The files of the format without a header load with offset
    zero, unless their number of entries is the magic number. *)
Theorem snapshot_roundtrip host es off m :
  NoDup es.*1 → Forall entry_readable es → 0 ≤ off < 2 ^ 64 → Z.of_nat (length es) ≤ u32_max →
  Load host (Some (snapshot_image host es off)) m
  = (Ok {| loaded := true; entry_count := Z.of_nat (length es); wal_offset := off |},
     list_to_map es) ∧
  (Z.of_nat (length es) ≠ kSnapshotMagic →
   Load host (Some (legacy_image host es)) m
   = (Ok {| loaded := true; entry_count := Z.of_nat (length es); wal_offset := 0 |},
      list_to_map es)).
Proof.
  intros Hnd Hes Hoff Hlen. split; [by apply Load_image|]. intros Hm. unfold u32_max in Hlen.
  unfold Load, read_metadata, legacy_image. rewrite ReadPrimitive_field by lia.
  destruct (Z.eqb_spec (Z.of_nat (length es)) kSnapshotMagic) as [|_]; [done|].
  pose proof (load_entries_fields host es 0 [] (S (length (entries_bytes host es))) 0 ∅ Hes) as H.
  rewrite app_nil_r, Z.add_0_l, Z.add_0_r in H.
  pose proof (length_entries_bytes host es). rewrite H by lia.
  destruct (S (length (entries_bytes host es)) - length es)%nat; cbn [load_entries];
    rewrite Z.ltb_irrefl; rewrite foldl_insert_map, (right_id_L ∅ (∪)) by done; done.
Qed.

Lemma entries_take host es : ∀ n, (n < length (entries_bytes host es))%nat →
  ∃ (k j : nat) e, es !! k = Some e ∧ (j < length (entry_bytes host e))%nat ∧
    take n (entries_bytes host es) = entries_bytes host (take k es) ++ take j (entry_bytes host e).
Proof.
  unfold entries_bytes. induction es as [|e es IH]; intros n Hn; cbn in Hn; [lia|].
  rewrite length_app in Hn. cbn [fmap list_fmap concat].
  destruct (decide (n < length (entry_bytes host e))%nat) as [Hlt|Hge].
  - exists O, n, e. split_and!; [done..|]. by rewrite take_app_le by lia.
  - destruct (IH (n - length (entry_bytes host e))%nat) as (k & j & e' & Hk & Hj & Ht).
    { unfold fmap in *. lia. }
    exists (S k), j, e'. split_and!; [done..|]. rewrite take_app, take_ge, Ht by lia.
    cbn [take fmap list_fmap concat]. by rewrite <-app_assoc.
Qed.

(** A snapshot of which any part at the end is missing is never loaded: the load
    throws, or reports that there is no snapshot when not even four bytes are left,
    and the target map is as it was. *)
Theorem snapshot_truncation_detected host es off n m :
  Forall entry_readable es → 0 ≤ off < 2 ^ 64 → Z.of_nat (length es) ≤ u32_max →
  (n < length (snapshot_image host es off))%nat →
  ∃ r, Load host (Some (take n (snapshot_image host es off))) m = (r, m) ∧
       if decide (n < 4)%nat then r = Ok not_loaded else ∃ e, r = Exn e.
Proof.
  intros Hes Hoff Hlen Hn. unfold u32_max in Hlen.
  unfold Load, read_metadata, snapshot_image in *. rewrite !length_app, !length_host_bytes in Hn.
  destruct (decide (n < 4)%nat) as [H4|H4].
  { rewrite ReadPrimitive_short by (unfold size_of; rewrite length_take; lia). by eexists. }
  rewrite take_app, (take_ge (host_bytes host 4 kSnapshotMagic)) by (rewrite length_host_bytes; lia).
  rewrite ReadPrimitive_field by (unfold kSnapshotMagic; lia). rewrite Z.eqb_refl.
  rewrite length_host_bytes. destruct (decide (n - 4 < 4)%nat).
  { rewrite ReadPrimitive_short by (unfold size_of; rewrite length_take; lia). eauto. }
  rewrite take_app, (take_ge (host_bytes host 4 kSnapshotVersion)) by (rewrite length_host_bytes; lia).
  rewrite ReadPrimitive_field by (unfold kSnapshotVersion; lia). rewrite Z.eqb_refl. cbn [negb].
  rewrite length_host_bytes. destruct (decide (n - 4 - 4 < 8)%nat).
  { rewrite ReadPrimitive_short by (unfold size_of; rewrite length_take; lia). eauto. }
  rewrite take_app, (take_ge (host_bytes host 8 off)) by (rewrite length_host_bytes; lia).
  rewrite ReadPrimitive_field by lia. rewrite length_host_bytes.
  destruct (decide (n - 4 - 4 - 8 < 4)%nat).
  { rewrite ReadPrimitive_short by (unfold size_of; rewrite length_take; lia). eauto. }
  rewrite take_app, (take_ge (host_bytes host 4 _)) by (rewrite length_host_bytes; lia).
  rewrite ReadPrimitive_field by lia. rewrite length_host_bytes.
  destruct (entries_take host es (n - 4 - 4 - 8 - 4)) as (k & j & e & Hk & Hj & ->); [lia|].
  pose proof (lookup_lt_Some _ _ _ Hk) as Hlt.
  assert (Forall entry_readable (take k es)) as Hpre by (by apply Forall_take).
  assert (entry_readable e) as He by (eapply Forall_lookup_1; [exact Hes|exact Hk]).
  set (rest := take j (entry_bytes host e)). set (fuel := S (length (entries_bytes host (take k es) ++ rest))).
  pose proof (load_entries_fields host (take k es) (Z.of_nat (length es - k)) rest fuel 0 ∅ Hpre) as H.
  rewrite length_take, Nat.min_l, !Z.add_0_l in H by lia.
  replace (Z.of_nat k + Z.of_nat (length es - k)) with (Z.of_nat (length es)) in H by lia.
  assert (k < fuel)%nat as Hf.
  { unfold fuel. rewrite length_app. pose proof (length_entries_bytes host (take k es)) as Hl.
    rewrite length_take in Hl. lia. }
  rewrite H by lia. destruct (fuel - k)%nat as [|f] eqn:Ef; [lia|]. cbn [load_entries].
  destruct (Z.ltb_spec (Z.of_nat k) (Z.of_nat (length es))); [|lia].
  unfold rest. rewrite read_entry_torn by done. eauto.
Qed.

(** ** Writing *)

Definition pushed (data : bytes) (o : ofstream) : ofstream :=
  {| ofs_path := ofs_path o; ofs_is_open := true; ofs_good := true; ofs_buffer := ofs_buffer o ++ data |}.

Definition stream_ready (o : ofstream) : Prop := ofs_is_open o = true ∧ ofs_good o = true.

Lemma wp_put_bytes data desc o (Q : unit → ofstream → Prop) E :
  stream_ready o → (stream_ready (pushed data o) → Q tt (pushed data o)) → wp (put_bytes data desc) Q E o.
Proof. intros [Ho Hg] HQ. unfold wp, put_bytes, WriteBytes, ofs_write. rewrite Ho, Hg. by apply HQ. Qed.

Lemma wp_put_primitive host n v desc o (Q : unit → ofstream → Prop) E :
  stream_ready o → (stream_ready (pushed (host_bytes host n v) o) → Q tt (pushed (host_bytes host n v) o)) →
  wp (put_primitive host n v desc) Q E o.
Proof. intros [Ho Hg] HQ. unfold wp, put_primitive, WritePrimitive, ofs_write. rewrite Ho, Hg. by apply HQ. Qed.

Lemma pushed_pushed a b o : pushed b (pushed a o) = pushed (a ++ b) o.
Proof. unfold pushed. cbn. by rewrite app_assoc. Qed.

Lemma CheckedSize_cases (x name : bytes) :
  (size_of x ≤ u32_max ∧ CheckedSize x name = Ok (size_of x)) ∨
  (u32_max < size_of x ∧ ∃ e, CheckedSize x name = Exn e).
Proof.
  destruct (decide (size_of x ≤ u32_max)); [left|right].
  - split; [done|]. apply CheckedSize_small. unfold u32_max in *. lia.
  - split; [lia|]. unfold CheckedSize. destruct (Z.ltb_spec u32_max (size_of x)); [eauto|lia].
Qed.

(** Entries that the writer accepts go to the buffer; one that it does not stops
    it, and the stream stays good. *)
Lemma wp_write_entries host es : ∀ o (Q : unit → ofstream → Prop) E,
  stream_ready o →
  (Forall entry_writable es → Q tt (pushed (entries_bytes host es) o)) →
  (∀ e data, ¬ Forall entry_writable es → E e (pushed data o)) →
  wp (write_entries host es) Q E o.
Proof.
  induction es as [|[k v] es IH]; intros o Q E Ho HQ HE; cbn [write_entries].
  { wp_step. destruct Ho, o; cbn in *; subst. specialize (HQ (List.Forall_nil _)).
    unfold pushed in HQ. cbn in HQ. by rewrite app_nil_r in HQ. }
  assert (o = pushed [] o) as Ho0 by (destruct Ho, o; cbn in *; subst; unfold pushed; cbn; by rewrite app_nil_r).
  unfold write_entry, put_res. do 2 wp_step.
  destruct (CheckedSize_cases k (str "Snapshot key")) as [[Hk ->]|[Hk [e ->]]].
  2: { wp_step. rewrite Ho0. apply HE. intros Hf. inversion Hf as [|? ? [Hw _] _]; subst. cbn in Hw. lia. }
  do 2 wp_step.
  destruct (CheckedSize_cases v (str "Snapshot value")) as [[Hv ->]|[Hv [e ->]]].
  2: { wp_step. rewrite Ho0. apply HE. intros Hf. inversion Hf as [|? ? [_ Hw] _]; subst. cbn in Hw. lia. }
  do 2 wp_step. apply wp_put_primitive; [done|intros _].
  wp_step. apply wp_put_bytes; [done|intros _].
  wp_step. apply wp_put_primitive; [done|intros _]. apply wp_put_bytes; [done|intros _].
  rewrite !pushed_pushed. apply (IH (pushed (entry_bytes host (k, v)) o)); [done| |].
  - intros Hes. rewrite pushed_pushed. apply HQ. by constructor.
  - intros e data Hes. rewrite pushed_pushed. apply HE. intros Hf. by inversion Hf.
Qed.

Lemma wp_write_snapshot host es off o (Q : unit → ofstream → Prop) E :
  stream_ready o →
  (Forall entry_writable es → Q tt (pushed (snapshot_image host es off) o)) →
  (∀ e data, ¬ Forall entry_writable es → E e (pushed data o)) →
  wp (write_snapshot host es off (Z.of_nat (length es))) Q E o.
Proof.
  intros Ho HQ HE. unfold write_snapshot.
  do 4 (wp_step; apply wp_put_primitive; [done|intros _]). rewrite !pushed_pushed.
  apply wp_write_entries; [done| |].
  - intros Hes. rewrite pushed_pushed, <-!app_assoc. by apply HQ.
  - intros e data Hes. rewrite pushed_pushed. by apply HE.
Qed.

(** ** Publication *)

Lemma untouched_weaken ps qs w w' : ps ⊆ qs → untouched ps w w' → untouched qs w w'.
Proof. intros Hs H p Hp. apply H. intros Hin. by apply Hp, Hs. Qed.

Lemma untouched_ne (p q : bytes) : p ∉ [q] → q ≠ p.
Proof. rewrite list_elem_of_singleton. congruence. Qed.

Lemma wp_flush_any o w (Q : ofstream → world → Prop) E :
  (∀ o' w', untouched [ofs_path o] w w' → Q o' w') → wp (ofs_flush o) Q E w.
Proof.
  intros HQ. unfold ofs_flush. destruct (_ && _); [|by apply wp_ret, HQ].
  wp_step. apply wp_draw. intros [|n e] rest; wp_steps; apply HQ; intros p Hp; cbn;
    rewrite lookup_alter_ne by (by apply untouched_ne); done.
Qed.

Lemma wp_ofs_close_any o w (Q : ofstream → world → Prop) E :
  (∀ o' w', untouched [ofs_path o] w w' → Q o' w') → wp (ofs_close o) Q E w.
Proof. intros HQ. unfold ofs_close. wp_step. apply wp_flush_any. intros. wp_step. by apply HQ. Qed.

(** The temporary file is written, or something is left at its path. *)
Lemma wp_write_temp host temp es off w (Q : unit → world → Prop) E :
  snapshot_image host es off ≠ [] →
  (∀ w', Forall entry_writable es → untouched [temp] w w' →
     file_contents temp w' = Some (snapshot_image host es off) → Q tt w') →
  (∀ e w', untouched [temp] w w' → E e w') →
  wp (write_temp host temp es off (Z.of_nat (length es))) Q E w.
Proof.
  intros Hne HQ HE. unfold write_temp, ofs_open_trunc, attempt. do 3 wp_step. apply wp_draw.
  intros [|n e] rest; wp_steps; cbn [ofs_is_open ofs_opened ofs_closed negb] in *; try done.
  2: { by apply HE. }
  set (w1 := create_truncated temp (with_script rest w)).
  assert (untouched [temp] w w1) as Hw1.
  { intros p Hp. cbn. rewrite lookup_insert_ne by (by apply untouched_ne). done. }
  assert (wp (write_snapshot host es off (Z.of_nat (length es)))
            (λ _ o, Forall entry_writable es ∧ o = pushed (snapshot_image host es off) (ofs_opened temp))
            (λ _ o, ∃ data, o = pushed data (ofs_opened temp)) (ofs_opened temp)) as Hwrite.
  { apply wp_write_snapshot; [done|by auto|eauto]. }
  unfold wp in Hwrite. destruct (write_snapshot _ _ _ _ _) as [[[]|e] o].
  - destruct Hwrite as [Hes ->]. wp_step.
    unfold pushed, ofs_flush. cbn [ofs_is_open ofs_good ofs_opened ofs_buffer andb app ofs_path].
    rewrite bool_decide_false by done. cbn [negb]. wp_step. apply wp_draw.
    intros [|m e] rest2; wp_steps.
    + unfold ofs_close, ofs_flush. cbn [ofs_is_open ofs_good ofs_opened ofs_buffer andb].
      rewrite bool_decide_true by done. cbn [negb]. wp_steps; try done. apply HQ; [done| |].
      * etrans; [exact Hw1|]. intros p Hp. cbn. rewrite lookup_alter_ne by (by apply untouched_ne). done.
      * rewrite (file_contents_append _ _ _ []); [done|]. apply file_contents_truncate.
    + apply wp_ofs_close_any. intros o2 w2 Hw2. wp_steps; try done. apply HE.
      etrans; [exact Hw1|]. etrans; [|exact Hw2]. intros p Hp. cbn. rewrite lookup_alter_ne by (by apply untouched_ne). done.
  - destruct Hwrite as [data ->]. wp_step. apply wp_ofs_close_any. intros o2 w2 Hw2. wp_steps.
    apply HE. by etrans.
Qed.

(** The snapshot file is complete and synchronized. *)
Definition published (host : endianness) (s : Snapshot) (es : list (bytes * bytes)) (off : Z)
    (w : world) : Prop :=
  files w !! snapshot_path s =
    Some {| contents := snapshot_image host es off; synced := snapshot_image host es off |}.

Definition snapshot_files (s : Snapshot) : list bytes := [snapshot_path s; temp_path s].

Lemma temp_path_ne s : temp_path s ≠ snapshot_path s.
Proof. unfold temp_path. intros H%(f_equal length). rewrite length_app in H. cbn in H. lia. Qed.

Lemma snapshot_image_nonempty host es off : snapshot_image host es off ≠ [].
Proof.
  intros H%(f_equal length). unfold snapshot_image in H. rewrite length_app, length_host_bytes in H.
  cbn [length] in H. lia.
Qed.

Lemma untouched_script ps rest w : untouched ps w (with_script rest w).
Proof. by intros p. Qed.

Lemma wp_sync_file temp c w (Q : unit → world → Prop) E :
  file_contents temp w = Some c →
  (∀ w', untouched [temp] w w' → files w' !! temp = Some {| contents := c; synced := c |} → Q tt w') →
  (∀ e w', untouched [temp] w w' → E e w') →
  wp (sync_file temp) Q E w.
Proof.
  intros Hc HQ HE. unfold sync_file, fs_fdatasync, fs_call. do 2 wp_step. apply wp_draw.
  intros [|n e] rest; wp_steps; [|by apply HE]. apply wp_draw.
  intros [|n e] rest2; wp_steps; [|by apply HE]. apply HQ.
  - intros p Hp. cbn. rewrite lookup_alter_ne by (by apply untouched_ne). done.
  - cbn. rewrite lookup_alter_eq. unfold file_contents in Hc.
    destruct (files w !! temp); [|done]. cbn in *. by injection Hc as <-.
Qed.

Lemma wp_Save host s es off w (Q : unit → world → Prop) E :
  let kept w' := untouched (snapshot_files s) w w' in
  (∀ w', kept w' → Forall entry_writable es → Z.of_nat (length es) ≤ u32_max →
     published host s es off w' → files w' !! temp_path s = None → Q tt w') →
  (∀ e w', kept w' → files w' !! snapshot_path s = files w !! snapshot_path s → E e w') →
  (∀ e w', kept w' → Forall entry_writable es → Z.of_nat (length es) ≤ u32_max →
     published host s es off w' → E e w') →
  wp (Save host s es off) Q E w.
Proof.
  intros kept HQ HE HP. pose proof (temp_path_ne s) as Hne.
  assert (∀ w', untouched [temp_path s] w w' → kept w' ∧
            files w' !! snapshot_path s = files w !! snapshot_path s) as Hweak.
  { intros w' H. split; [|apply H; by rewrite list_elem_of_singleton].
    eapply untouched_weaken; [|exact H]. intros p ->%list_elem_of_singleton. right. left. }
  unfold Save. unfold checked_entry_count.
  destruct (Z.ltb_spec u32_max (Z.of_nat (length es))) as [|Hcount].
  { wp_step. by apply HE. }
  replace (u32 (Z.of_nat (length es))) with (Z.of_nat (length es))
    by (unfold u32, u32_max in *; rewrite Z.mod_small; lia).
  wp_step. apply wp_write_temp; [apply snapshot_image_nonempty| |].
  2: { intros e w1 H1. apply HE; by apply Hweak. }
  intros w1 Hes H1 Hc1. wp_step. apply wp_call_hook; intros rest1.
  2: { apply HE; by apply Hweak. }
  wp_step. eapply wp_sync_file; [exact Hc1| |].
  2: { intros e w2 H2. apply HE; apply Hweak; by etrans. }
  intros w2 H2 Hc2. assert (untouched [temp_path s] w w2) as Hw2 by (by etrans).
  wp_step. apply wp_call_hook; intros rest2; [|apply HE; by apply Hweak].
  wp_step. unfold fs_rename, fs_call. wp_step. apply wp_draw. intros [|n e] rest3; wp_steps; try done.
  2: { apply HE; by apply Hweak. }
  set (w3 := with_files _ _).
  assert (kept w3 ∧ published host s es off w3 ∧ files w3 !! temp_path s = None) as (Hk & Hp & Ht).
  { assert (files w3 = <[snapshot_path s := {| contents := snapshot_image host es off;
                         synced := snapshot_image host es off |}]> (delete (temp_path s) (files w2)))
      as Hf3 by (unfold w3; cbn; by rewrite Hc2).
    unfold published. rewrite Hf3. split_and!.
    - intros p [Hp1 Hp2]%not_elem_of_cons. apply not_elem_of_cons in Hp2 as [Hp2 _].
      rewrite Hf3, lookup_insert_ne, lookup_delete_ne by done. apply Hw2. by rewrite list_elem_of_singleton.
    - by rewrite lookup_insert_eq.
    - by rewrite lookup_insert_ne, lookup_delete_eq. }
  clearbody w3. apply wp_call_hook; intros rest4; [|by apply HP].
  wp_step. unfold sync_snapshot_directory, sync_parent_directory, fs_call. do 2 wp_step. apply wp_draw.
  intros [|n e] rest5; wp_steps; [|by apply HP]. apply wp_draw.
  intros [|n e] rest6; wp_steps; [|by apply HP].
  apply wp_call_hook; intros rest7; [by apply HQ|by apply HP].
Qed.

(** C25: publication is atomic under every pattern of failures: after [Save]
    the snapshot file is the complete new snapshot, already synchronized, or the
    file that was there before; on success it is the new one and no temporary
    file is left; no file but these two is ever touched. *)
Theorem save_publishes_atomically host s es off w :
  wp (Save host s es off)
    (λ _ w', published host s es off w' ∧ files w' !! temp_path s = None ∧
             untouched (snapshot_files s) w w')
    (λ _ w', (published host s es off w' ∨ files w' !! snapshot_path s = files w !! snapshot_path s)
             ∧ untouched (snapshot_files s) w w')
    w.
Proof. apply wp_Save; auto. Qed.

(** Loading does not depend on the map it replaces. *)
Lemma Load_any_target host file m m0 r m' :
  Load host file m = (Ok r, m') → loaded r = true → Load host file m0 = (Ok r, m').
Proof.
  unfold Load. destruct file as [input|]; [|by intros [= <- <-]].
  destruct (read_metadata host input) as [[[[off count] rest]|]|e]; [|by intros [= <- <-]|done].
  destruct (load_entries _ _ _ _ _ _) as [[m1|e]|]; [|done|by intros [= <- <-]].
  cbn. by intros [= <- <-].
Qed.

Lemma Verify_true host file m count off :
  Verify host file m count off = Ok true →
  ∀ m0, Load host file m0 = (Ok {| loaded := true; entry_count := count; wal_offset := off |}, m).
Proof.
  unfold Verify. destruct (Load host file ∅) as [[r|e] m1] eqn:E; [|done].
  intros [= H] m0. apply andb_true_iff in H as [H Hm%bool_decide_eq_true].
  apply andb_true_iff in H as [H Ho%Z.eqb_eq]. apply andb_true_iff in H as [Hl Hc%Z.eqb_eq].
  subst. rewrite (Load_any_target _ _ _ m0 _ _ E Hl). by destruct r; cbn in *; subst.
Qed.

(** Also when it saw only a part of the file. *)
Lemma Verify_seen host v file m count off :
  Verify host (seen v file) m count off = Ok true →
  ∀ m0, Load host file m0 = (Ok {| loaded := true; entry_count := count; wal_offset := off |}, m).
Proof.
  intros Hv m0. pose proof (Verify_true _ _ _ _ _ Hv m0) as Hl.
  destruct (Load_seen host v file m0) as [(r & Hr & Hno)|(r & m' & Hr & _ & Hfile)]; rewrite Hl in Hr.
  - injection Hr as <- _. by specialize (Hno _ eq_refl).
  - by injection Hr as <- <-.
Qed.

Lemma published_contents host s es off w :
  published host s es off w → file_contents (snapshot_path s) w = Some (snapshot_image host es off).
Proof. unfold published, file_contents. by intros ->. Qed.

Lemma wp_SaveVerified host s es off w (Q : unit → world → Prop) E :
  (∀ w', untouched (snapshot_files s) w w' → published host s es off w' →
     (∀ m0, Load host (Some (snapshot_image host es off)) m0
            = (Ok {| loaded := true; entry_count := Z.of_nat (length es); wal_offset := off |},
               list_to_map es)) → Q tt w') →
  (∀ e w', untouched (snapshot_files s) w w' →
     published host s es off w' ∨ files w' !! snapshot_path s = files w !! snapshot_path s → E e w') →
  wp (SaveVerified host s es off) Q E w.
Proof.
  intros HQ HE. unfold SaveVerified. wp_step. apply wp_Save; [|by auto|by auto].
  intros w' Hk _ _ Hp _. wp_step. apply wp_fs_read. intros v rest. rewrite (published_contents _ _ _ _ _ Hp).
  assert (untouched (snapshot_files s) w (with_script rest w')) as Hk' by (by etrans; [|apply untouched_script]).
  destruct (Verify host _ _ _ _) as [[]|e] eqn:Hv; wp_steps; [|by auto|by auto].
  apply HQ; [done..|]. by eapply Verify_seen.
Qed.

(** Without failures nothing is thrown. *)
Lemma wp_write_temp_ok host temp es off w (Q : unit → world → Prop) E :
  script w = [] → Forall entry_writable es →
  (∀ w', script w' = [] → file_contents temp w' = Some (snapshot_image host es off) → Q tt w') →
  wp (write_temp host temp es off (Z.of_nat (length es))) Q E w.
Proof.
  intros Hs Hes HQ. unfold write_temp, ofs_open_trunc, attempt. do 3 wp_step.
  apply wp_draw_ok; [done|]. wp_steps; cbn [ofs_is_open ofs_opened negb] in *; try done.
  assert (wp (write_snapshot host es off (Z.of_nat (length es)))
            (λ _ o, o = pushed (snapshot_image host es off) (ofs_opened temp))
            (λ _ o, False) (ofs_opened temp)) as Hwrite by (by apply wp_write_snapshot; auto).
  unfold wp in Hwrite. destruct (write_snapshot _ _ _ _ _) as [[[]|e] o]; [subst o|done]. wp_step.
  unfold pushed, ofs_flush at 1. cbn [ofs_is_open ofs_good ofs_opened ofs_buffer andb app ofs_path].
  rewrite bool_decide_false by apply snapshot_image_nonempty. cbn [negb]. wp_step.
  apply wp_draw_ok; [done|]. wp_steps.
  unfold ofs_close, ofs_flush. cbn [ofs_is_open ofs_good ofs_opened ofs_buffer andb].
  rewrite bool_decide_true by done. cbn [negb]. wp_steps; try done. apply HQ; [done|].
  rewrite (file_contents_append _ _ _ []); [done|]. apply file_contents_truncate.
Qed.

Lemma wp_Save_ok host s es off w (Q : unit → world → Prop) E :
  script w = [] → Forall entry_writable es → Z.of_nat (length es) ≤ u32_max →
  (∀ w', script w' = [] → file_contents (snapshot_path s) w' = Some (snapshot_image host es off) → Q tt w') →
  wp (Save host s es off) Q E w.
Proof.
  intros Hs Hes Hcount HQ. unfold Save, checked_entry_count.
  destruct (Z.ltb_spec u32_max (Z.of_nat (length es))); [lia|].
  replace (u32 (Z.of_nat (length es))) with (Z.of_nat (length es))
    by (unfold u32, u32_max in *; rewrite Z.mod_small; lia).
  wp_step. apply wp_write_temp_ok; [done..|]. intros w1 Hs1 Hc1.
  wp_step. apply wp_hook_ok; [done|]. wp_step. unfold sync_file, fs_fdatasync.
  wp_step. apply wp_fs_call_ok; [done|]. wp_step. apply wp_fs_call_ok; [done|]. wp_step.
  wp_step. apply wp_hook_ok; [done|]. wp_step. unfold fs_rename. apply wp_fs_call_ok; [done|].
  do 2 wp_step; [done|]. wp_step. wp_step. apply wp_hook_ok; [done|]. wp_step.
  unfold sync_snapshot_directory, sync_parent_directory. wp_step. apply wp_fs_call_ok; [done|].
  wp_step. apply wp_fs_call_ok; [done|]. wp_step. apply wp_hook_ok; [done|]. apply HQ; [done|].
  unfold file_contents in *. cbn. rewrite lookup_alter_eq.
  destruct (files w1 !! temp_path s) as [x|]; [|done]. cbn. rewrite lookup_insert_eq. cbn. exact Hc1.
Qed.

(** [SaveVerified] returns only when the file can be loaded back: a later
    load gives the same map, count and offset. Without input/output failures it
    does return, for every map with keys and values of at most 64 MiB. *)
Theorem save_verified_loads host s es off w :
  wp (SaveVerified host s es off)
    (λ _ w', published host s es off w' ∧
       ∀ m0, Load host (file_contents (snapshot_path s) w') m0
             = (Ok {| loaded := true; entry_count := Z.of_nat (length es); wal_offset := off |},
                list_to_map es))
    (λ _ w', published host s es off w' ∨ files w' !! snapshot_path s = files w !! snapshot_path s)
    w ∧
  (script w = [] → NoDup es.*1 → Forall entry_readable es → 0 ≤ off < 2 ^ 64 →
   Z.of_nat (length es) ≤ u32_max → wp (SaveVerified host s es off) (λ _ _, True) (λ _ _, False) w).
Proof.
  split.
  { apply wp_SaveVerified; [|by auto]. intros w' _ Hp Hl. split; [done|].
    by rewrite (published_contents _ _ _ _ _ Hp). }
  intros Hs Hnd Hes Hoff Hlen.
  unfold SaveVerified. wp_step. apply wp_Save_ok; [done| |done|].
  { eapply Forall_impl; [exact Hes|]. intros. by apply readable_writable. }
  intros w' Hs' Hc. wp_step. apply wp_fs_read_ok; [done|]. rewrite Hc. unfold Verify. rewrite Load_image by done.
  cbn [loaded entry_count wal_offset andb]. rewrite !Z.eqb_refl, bool_decide_true by done. done.
Qed.

(** A key or value between the two limits: written, published, never loaded. *)
Lemma read_entry_oversized host k v rest :
  size_of k ≤ kMaxSnapshotFieldLength → kMaxSnapshotFieldLength < size_of v ≤ u32_max →
  read_entry host (entry_bytes host (k, v) ++ rest) = Exn (runtime_error (str "snapshot value is too large")).
Proof.
  intros Hk Hv. unfold u32_max, kMaxSnapshotFieldLength in *. pose proof (size_of_nonneg k).
  unfold read_entry, entry_bytes, kMaxSnapshotFieldLength. cbn [fst snd].
  rewrite <-!app_assoc, ReadPrimitive_field by lia.
  destruct (Z.ltb_spec (64 * 1024 * 1024) (size_of k)); [lia|].
  rewrite input_read_app, Z.eqb_refl by done. cbn [negb]. rewrite ReadPrimitive_field by lia.
  by destruct (Z.ltb_spec (64 * 1024 * 1024) (size_of v)); [|lia].
Qed.

(** C40: the writer and the reader disagree on the longest value. For an entry
    whose value is longer than 64 MiB and shorter than 4 GiB, [SaveVerified]
    without any input/output failure throws, but the file it verifies has
    already replaced the snapshot, and every later load of it throws. *)
Theorem oversized_value_unloadable host s es1 k v es2 off w :
  let es := es1 ++ (k, v) :: es2 in
  script w = [] → Forall entry_readable es1 → Forall entry_writable es2 →
  size_of k ≤ kMaxSnapshotFieldLength → kMaxSnapshotFieldLength < size_of v ≤ u32_max →
  0 ≤ off < 2 ^ 64 → Z.of_nat (length es) ≤ u32_max →
  wp (SaveVerified host s es off) (λ _ _, False)
    (λ e w', e = runtime_error (str "snapshot value is too large") ∧
       file_contents (snapshot_path s) w' = Some (snapshot_image host es off) ∧
       ∀ m, Load host (file_contents (snapshot_path s) w') m = (Exn e, m)) w.
Proof.
  intros es Hs H1 H2 Hk Hv Hoff Hlen.
  assert (∀ m, Load host (Some (snapshot_image host es off)) m
               = (Exn (runtime_error (str "snapshot value is too large")), m)) as Hload.
  { intros m. unfold Load. rewrite read_metadata_image by done.
    unfold es. rewrite length_app. cbn [length].
    set (fuel := S (length (entries_bytes host (es1 ++ (k, v) :: es2)))).
    pose proof (load_entries_fields host es1 (Z.of_nat (S (length es2)))
      (entries_bytes host ((k, v) :: es2)) fuel 0 ∅ H1) as H.
    pose proof (length_entries_bytes host (es1 ++ (k, v) :: es2)) as Hl. rewrite length_app in Hl. cbn in Hl.
    unfold entries_bytes in H |- *. rewrite fmap_app, concat_app. rewrite Z.add_0_l, <-Nat2Z.inj_add in H.
    rewrite H by (unfold fuel; lia).
    destruct (fuel - length es1)%nat as [|f] eqn:Ef; [unfold fuel in Ef; lia|]. cbn [load_entries].
    destruct (Z.ltb_spec (Z.of_nat (length es1)) (Z.of_nat (length es1 + S (length es2)))); [|lia].
    cbn [fmap list_fmap concat]. by rewrite read_entry_oversized. }
  unfold SaveVerified. wp_step. apply wp_Save_ok; [done| |done|].
  { apply Forall_app. split; [eapply Forall_impl; [exact H1|apply readable_writable]|].
    constructor; [|done]. unfold entry_writable, kMaxSnapshotFieldLength, u32_max in *. cbn. lia. }
  intros w' Hs' Hc. wp_step. apply wp_fs_read_ok; [done|]. rewrite Hc. unfold Verify. rewrite Hload. wp_step. rewrite Hc. auto.
Qed.

(** ** Removal *)

Lemma wp_remove_if_exists path desc w (Q : unit → world → Prop) E :
  (∀ w', untouched [path] w w' → files w' !! path = None → Q tt w') →
  (∀ e w', files w' = files w → E e w') →
  wp (remove_if_exists path desc) Q E w.
Proof.
  intros HQ HE. unfold remove_if_exists, fs_remove. do 2 wp_step. apply wp_draw.
  intros [|n e] rest.
  - wp_steps. destruct (files (with_script rest w) !! path) eqn:Hp; wp_steps; try done.
    + apply HQ; cbn; [|by rewrite lookup_delete_eq].
      intros p Hpp. cbn. by rewrite lookup_delete_ne by (by apply untouched_ne).
    + by apply HE.
    + by apply HQ.
  - wp_steps; [by apply HE|]. exfalso. revert Heqb.
    destruct (Z.eqb_spec e ENOENT) as [|Hne]; [done|]. by destruct (Z.eqb_spec e ENOENT).
Qed.

Lemma wp_ClearSnapshot s w (Q : unit → world → Prop) E :
  (∀ w', untouched (snapshot_files s) w w' → files w' !! snapshot_path s = None → Q tt w') →
  (∀ e w', untouched (snapshot_files s) w w' →
     files w' !! snapshot_path s = None ∨ files w' !! snapshot_path s = files w !! snapshot_path s →
     E e w') →
  wp (ClearSnapshot s) Q E w.
Proof.
  intros HQ HE. unfold ClearSnapshot. wp_step. apply wp_remove_if_exists.
  2: { intros e w' Hw. apply HE; [intros p _|right]; by rewrite Hw. }
  intros w1 H1 Hp1. assert (untouched (snapshot_files s) w w1) as Hk1.
  { eapply untouched_weaken; [|exact H1]. intros p ->%list_elem_of_singleton. left. }
  wp_step. apply wp_remove_if_exists.
  2: { intros e w' Hw. apply HE; [intros p Hp|left]; rewrite Hw; [by apply Hk1|done]. }
  intros w2 H2 Hp2. assert (untouched (snapshot_files s) w w2) as Hk2.
  { etrans; [exact Hk1|]. eapply untouched_weaken; [|exact H2].
    intros p ->%list_elem_of_singleton. right. left. }
  assert (files w2 !! snapshot_path s = None) as Hnone.
  { rewrite H2; [done|]. rewrite list_elem_of_singleton. intros H. by apply (temp_path_ne s). }
  unfold sync_snapshot_directory, sync_parent_directory, fs_call. do 2 wp_step. apply wp_draw.
  intros [|n e] rest; wp_steps; [|by apply HE; [|left]]. apply wp_draw.
  intros [|n e] rest2; wp_steps; [by apply HQ|by apply HE; [|left]].
Qed.
