(* ===== verification/ReadFailures.v ===== *)
(** * Files that cannot be read

    The constructor of [WriteAheadLog], [ReplayFromDetailed] and [Snapshot::Load]
    when the system does not open a file that is there, or stops reading it: what
    they make of the part they see, and what the program does to the log after
    that. A reader takes a file it cannot open for one that does not exist, and an
    error while reading for the end of the file. *)

From S2P Require Import Prelude Machine BinaryIO Crc WalFormat WalReplay WalLog WalDurability.
From S2P Require Import WalMaintenance SnapshotFile.

(** ** What is read is a part of what is there *)

(** A replay that sees the first bytes of a file. *)
Lemma replay_take host content n store :
  ∃ rs more result result',
    ReplayFromDetailed host (Some (take n content)) 0 store = Ok (result, apply_records rs store) ∧
    ReplayFromDetailed host (Some content) 0 store = Ok (result', apply_records (rs ++ more) store).
Proof.
  destruct (replay_any host content store) as (result' & more' & Hany).
  destruct (ReplayFromDetailed_cases host (take n content) store) as [[fmt Hopen]|(result & Hr & _)].
  2: { by exists [], more', result, result'. }
  destruct (ReplayFromDetailed_sound host fmt (take n content) Hopen)
    as (rs & tail & status & Hc & Hok & Hfit & _ & _ & _ & Hrep).
  destruct (decide (is_v3 fmt = true ∨ rs ≠ [])) as [Hne|Hnil].
  - destruct (replay_keeps_records host fmt rs (tail ++ drop n content) store Hok Hfit Hne)
      as (result & more & Hwhole & _).
    rewrite app_assoc, <-Hc, take_drop in Hwhole. do 4 eexists. split; [apply Hrep|exact Hwhole].
  - assert (rs = []) as -> by (destruct rs; [done|exfalso; apply Hnil; by right]).
    do 4 eexists. split; [apply Hrep|exact Hany].
Qed.

Lemma replay_seen host v file store :
  ∃ rs more result result',
    ReplayFromDetailed host (seen v file) 0 store = Ok (result, apply_records rs store) ∧
    ReplayFromDetailed host file 0 store = Ok (result', apply_records (rs ++ more) store).
Proof.
  destruct file as [content|]; [|by exists [], [], (initial_result 0), (initial_result 0); destruct v].
  destruct (replay_any host content store) as (result & rs & Hany). destruct v as [| |n].
  - exists rs, [], result, result. by rewrite app_nil_r.
  - by exists [], rs, (initial_result 0), result.
  - apply replay_take.
Qed.

(** C37: Reading less than a file holds never yields anything the file does not
    hold. Whatever the bytes of the files and whatever part of them a reader gets to
    see: a replay applies the first of the records that a replay of the whole file
    applies, in their order; and a snapshot is loaded exactly as the file holds it,
    or not at all, the target map staying as it was. A snapshot of which any part at
    the end is missing is never loaded: the load throws, or reports that there is no
    snapshot when not even four bytes are left. *)
Theorem partial_reads_invent_nothing host v file store es off n :
  (∃ rs more result result',
     ReplayFromDetailed host (seen v file) 0 store = Ok (result, apply_records rs store) ∧
     ReplayFromDetailed host file 0 store = Ok (result', apply_records (rs ++ more) store)) ∧
  ((∃ r, Load host (seen v file) store = (r, store) ∧ ∀ found, r = Ok found → loaded found = false) ∨
   (∃ r m, Load host (seen v file) store = (Ok r, m) ∧ loaded r = true ∧ Load host file store = (Ok r, m))) ∧
  (Forall entry_readable es → 0 ≤ off < 2 ^ 64 → Z.of_nat (length es) ≤ u32_max →
   (n < length (snapshot_image host es off))%nat →
   ∃ r, Load host (Some (take n (snapshot_image host es off))) store = (r, store) ∧
        if decide (n < 4)%nat then r = Ok not_loaded else ∃ e, r = Exn e).
Proof. split; [apply replay_seen|]. split; [apply Load_seen|]. intros. by apply snapshot_truncation_detected. Qed.

(** ** Recovery from a part of the log *)

(** When reading ends within the frame after [rs1], the replay takes it for a torn
    frame. *)
Lemma replay_short_frame host fmt rs1 r rs2 n store :
  format_ok fmt → records_fit host fmt (rs1 ++ r :: rs2) → (is_v3 fmt = true ∨ rs1 ≠ []) →
  size_of (log_image host fmt rs1) < Z.of_nat n < size_of (log_image host fmt (rs1 ++ [r])) →
  ReplayFromDetailed host (Some (take n (log_image host fmt (rs1 ++ r :: rs2)))) 0 store
  = Ok (replay_report fmt 0 rs1 (if is_v3 fmt then Z.of_nat (length rs1) else 0) PartialRecord
          (size_of (log_image host fmt rs1)), apply_records rs1 store).
Proof.
  intros Hok Hfit Hne Hn. set (seq := 1 + Z.of_nat (length rs1)). set (j := (n - length (log_image host fmt rs1))%nat).
  rewrite log_image_snoc, size_of_app in Hn. fold seq in Hn. unfold size_of in Hn.
  assert (take n (log_image host fmt (rs1 ++ r :: rs2))
          = log_image host fmt rs1 ++ take j (record_frame host (is_v3 fmt) seq r)) as ->.
  { rewrite log_image_app. cbn [log_frames]. fold seq. rewrite take_app, take_ge by lia. f_equal.
    rewrite take_app_le by (unfold j; lia). done. }
  assert (records_fit host fmt rs1 ∧ record_fits host (is_v3 fmt) r) as [Hfit1 Hr].
  { destruct Hfit as [Hf Hl]. apply Forall_app in Hf as [Hf1 Hf2]. inversion Hf2; subst. split; [|done].
    split; [done|]. intros Hv. specialize (Hl Hv). rewrite length_app in Hl. lia. }
  set (tail := take j _).
  pose proof (ReplayFromDetailed_opened host fmt [] rs1 tail PartialRecord store 0) as H.
  cbn [app length] in H. rewrite last_after_full in H. apply H; try done; [|by right|].
  - apply opens_as_image; [done..|]. destruct Hne; auto.
  - apply stops_with_torn; [done|]. unfold j. lia.
Qed.

(** The recovery that repairs a torn log destroys a good one when reading it fails:
    if the error comes within a frame, that frame and all after it are cut off,
    although they were acknowledged and are intact in the file. *)
Theorem recovery_trusts_its_reading host s rs1 r rs2 n store :
  let fmt := wal_fmt (format (wal s)) in
  wal_ready host s (rs1 ++ r :: rs2) → (is_v3 fmt = true ∨ rs1 ≠ []) →
  size_of (log_image host fmt rs1) < Z.of_nat n < size_of (log_image host fmt (rs1 ++ [r])) →
  wp (ReplayFromAndTruncate_seeing (Short n) host 0 store)
    (λ out s', out.2 = apply_records rs1 store ∧ wal_ready host s' rs1 ∧
       file_contents (path_ (config (wal s))) (os s') = Some (log_image host fmt rs1))
    (λ _ _, True) s.
Proof.
  intros fmt Hr Hne Hn. pose proof (ready_format_ok _ _ _ Hr) as Hok. pose proof (ready_fit _ _ _ Hr) as Hfit.
  assert (negb (legacy_v2_ (format (wal s))) && header_pending_ (format (wal s)) = false) as Hpend.
  { destruct (negb _ && _) eqn:Hb; [|done]. apply andb_true_iff in Hb as [Hl%negb_true_iff Hp].
    by destruct (app_eq_nil _ _ (ready_pending _ _ _ Hr Hl Hp)). }
  pose proof (ready_file _ _ _ Hr) as Hfile. unfold wal_image in Hfile. rewrite Hpend in Hfile. fold fmt in Hfile, Hok, Hfit.
  unfold ReplayFromAndTruncate_seeing. do 5 wal_step. rewrite Hfile. cbn [seen fmap option_fmap option_map].
  rewrite replay_short_frame by done. cbn [of_res]. wal_step. cbn [fst snd replay_report replay_status last_good_offset].
  rewrite bool_decide_false by done. cbn [negb]. wal_step.
  apply (wp_TruncateTo_prefix host s rs1 (log_frames host (is_v3 fmt) (1 + Z.of_nat (length rs1)) (r :: rs2)));
    try apply Hr; try done.
  - pose proof (records_fit_prefix host fmt [] (rs1 ++ r :: rs2) (length rs1) Hfit) as H. by rewrite take_app_length in H.
  - intros Hl. destruct (ready_sequence _ _ _ Hr Hl) as [_ Hlt]. rewrite length_app in Hlt. lia.
  - by rewrite Hfile, log_image_app.
  - intros s' Hrep Hf'. wal_step. split_and!; [done|by apply Hrep|done].
Qed.

(** ** A log that could not be opened for reading *)

Lemma drop_frame host portable record rest : drop 8 (frame_of host portable record ++ rest) = record ++ rest.
Proof.
  assert (∀ v, length (u32_bytes host portable v) = 4%nat) as Hl
    by (intros v; pose proof (size_of_u32_bytes host portable v); unfold size_of in *; lia).
  unfold frame_of. rewrite !app_assoc, <-(app_assoc _ record), drop_app_le, drop_ge;
    rewrite ?length_app, ?Hl; done || lia.
Qed.

Lemma record_head host r : length (take 5 (record_bytes host false 0 r)) = 5%nat.
Proof.
  pose proof (size_of_record_bytes host false 0 r) as Hs. pose proof (record_size_ge false r) as Hge.
  unfold size_of in Hs. cbn in Hge. rewrite length_take. lia.
Qed.

(** A record of the old format begins with its kind and the length of its key.
    Whether these five bytes are those the number [n] begins with. *)
Definition misread (host : endianness) (n : Z) (r : ParsedRecord) : bool :=
  bool_decide (take 5 (record_bytes host false 0 r) = take 5 (le_bytes 8 n)).

(** On a little-endian host this takes an empty key or a log of 255 records. *)
Lemma not_misread n r :
  0 ≤ n < 256 → rec_key r ≠ [] → size_of (rec_key r) < 2 ^ 32 → misread LittleEndian n r = false.
Proof.
  intros Hn Hk Hlt. apply bool_decide_eq_false_2. intros Heq.
  assert (0 < size_of (rec_key r)) as Hpos by (unfold size_of; destruct (rec_key r); [done|cbn; lia]).
  assert (le_value (drop 1 (take 5 (le_bytes 8 n))) = 0) as H0.
  { rewrite !le_bytes_S. cbn [take drop]. rewrite (Z.shiftr_div_pow2 n 8), Z.div_small by lia. by vm_compute. }
  rewrite <-Heq in H0. destruct r as [op k v]; cbn [rec_key] in *.
  enough (drop 1 (take 5 (record_bytes LittleEndian false 0 {| rec_op := op; rec_key := k; rec_value := v |}))
          = le_bytes 4 (size_of k)) as Hd.
  { rewrite Hd, le_value_bytes in H0 by lia. lia. }
  destruct op; [rewrite record_bytes_set|rewrite record_bytes_delete];
    cbn [seq_bytes app u32_bytes]; unfold host_bytes; by rewrite !le_bytes_S.
Qed.

(** So a frame of the old format is not the next frame of a numbered log. *)
Lemma foreign_frame host r r' seq more rest :
  misread host seq r = false → record_frame host false 0 r ++ more ≠ record_frame host true seq r' ++ rest.
Proof.
  intros Hm%bool_decide_eq_false_1 H. apply Hm. apply (f_equal (λ l, take 5 (drop 8 l))) in H.
  unfold record_frame in H. rewrite !drop_frame in H. pose proof (record_head host r) as Hl.
  rewrite take_app_le in H by (rewrite length_take in Hl; lia). rewrite H.
  assert (record_bytes host true seq r' = le_bytes 8 seq ++ drop 8 (record_bytes host true seq r')) as ->.
  { destruct r' as [[] k v]; [rewrite record_bytes_set|rewrite record_bytes_delete]; cbn [seq_bytes];
      by rewrite drop_app_ge, length_le_bytes by (rewrite length_le_bytes; lia). }
  rewrite <-app_assoc, take_app_le by (rewrite length_le_bytes; lia). done.
Qed.

Lemma replay_foreign_frame host g rs r more store :
  0 < g < 2 ^ 64 → records_fit host (V3 g) rs → Z.of_nat (length rs) + 1 < 2 ^ 64 →
  misread host (Z.of_nat (length rs) + 1) r = false →
  ∃ result, ReplayDetailed host (Some (log_image host (V3 g) rs ++ record_frame host false 0 r ++ more)) store
            = Ok (result, apply_records rs store) ∧ replay_status result ≠ CleanEof.
Proof.
  intros Hg Hfit Hlen Hop. set (tail := record_frame host false 0 r ++ more).
  assert (tail ≠ []) as Hne.
  { intros [H _]%app_eq_nil. apply (f_equal size_of) in H. rewrite size_of_frame in H.
    pose proof (record_size_ge false r). change (size_of []) with 0 in H. lia. }
  destruct (replay_frame_stops host true (begin_offset (V3 g) 0) (Z.of_nat (length rs)) (Z.of_nat (length rs)) tail)
    as (status & Hcl & _ & Hstop).
  { intros r' seq rest _ Hseq Hb. apply foreign_frame. rewrite <-Hop. f_equal.
    unfold bad_sequence, begin_offset, u64 in Hb. cbn [is_v3 andb Z.eqb] in Hb.
    rewrite Z.mod_small in Hb by lia. revert Hb. zbool. }
  pose proof (ReplayFromDetailed_opened host (V3 g) [] rs tail status store 0) as H.
  cbn [app length] in H. rewrite last_after_full in H. eexists. split.
  - apply H; [done|by apply opens_as_image; auto|by right|done|]. intros start gen store' cur. apply Hstop.
  - cbn [replay_report replay_status]. tauto.
Qed.

(** The format fields of a log whose file is there and could not be opened. *)
Definition unread_format : wal_format :=
  {| legacy_v2_ := true; header_pending_ := false; format_valid_ := true;
     needs_recovery_ := false; generation_ := 0; next_sequence_ := 1 |}.

Lemma inspect_unread host content :
  content ≠ [] → inspect_seen host (size_of content) None None = Ok unread_format.
Proof. intros Hne. unfold inspect_seen. by destruct (prefix_there content Hne) as [-> _]. Qed.

(** What an append to it writes, under the policies without a writer thread. *)
Lemma wp_write_unread s content frame (Q : unit → wal_state → Prop) E :
  let path := path_ (config (wal s)) in
  format (wal s) = unread_format → output_ (wal s) = ofs_opened path → file_contents path (os s) = Some content →
  frame ≠ [] →
  (∀ s', wal_same s s' → file_contents path (os s') = Some (content ++ frame) → Q tt s') →
  (∀ e s', E e s') → wp (WriteFrameLocked frame) Q E s.
Proof.
  intros path Hf Ho Hc Hne HQ HE. unfold WriteFrameLocked, EnsureHeaderLocked, FinalizeFrameLocked. do 3 wal_step.
  rewrite Hf. cbn [unread_format legacy_v2_ orb]. do 4 wal_step. rewrite Hf. cbn [unread_format legacy_v2_].
  do 2 wal_step. eapply wp_write_and_flush; [exact Ho|exact Hc|done| |by auto].
  intros w' Hw'. wal_step. apply wp_call_fault_hook; intros rest; [|by apply HE].
  wal_steps. by apply HQ; [split|].
Qed.

(** The synchronization after it changes no byte. *)
Lemma wp_sync_unread s content (rest : M wal_state unit) (Q : unit → wal_state → Prop) E :
  let path := path_ (config (wal s)) in
  file_contents path (os s) = Some content →
  (∀ s', wal_same s s' → file_contents path (os s') = Some content → wp rest Q E s') → (∀ e s', E e s') →
  wp (SyncLocked ;;; call_fault_hook AfterSync ;;; rest) Q E s.
Proof.
  intros path Hc HQ HE. wal_step. eapply wp_SyncLocked; [done|exact Hc| |by auto].
  intros w' st Hw' _. wal_step. apply wp_call_fault_hook; intros script; [|by apply HE].
  by apply HQ; [split|].
Qed.

(** What the writer thread does with a batch of one. *)
Lemma wp_batch_unread s content p (Q : unit → wal_state → Prop) E :
  let path := path_ (config (wal s)) in
  format (wal s) = unread_format → output_ (wal s) = ofs_opened path → file_contents path (os s) = Some content →
  pending_frame p ≠ [] →
  (∀ s', wal_same s s' → file_contents path (os s') = Some (content ++ pending_frame p) → Q tt s') →
  (∀ e s', E e s') → wp (write_batch [p]) Q E s.
Proof.
  intros path Hf Ho Hc Hne HQ HE. unfold write_batch, EnsureHeaderLocked. do 3 wal_step.
  rewrite Hf. cbn [unread_format legacy_v2_ orb finalize_batch]. unfold FinalizeFrameLocked. do 5 wal_step.
  rewrite Hf. cbn [unread_format legacy_v2_ app]. do 3 wal_step.
  eapply wp_write_and_flush; [exact Ho|exact Hc|done| |by auto].
  intros w' Hw'. wal_step. apply wp_call_fault_hook; intros script; [|by apply HE]. do 2 wal_step.
  eapply wp_sync_unread; [exact Hw'| |done]. intros s' Hs' Hw. wal_step. apply HQ; [|done].
  destruct Hs'. by split.
Qed.

Lemma lookup_complete_all (id : nat) (l : list Pending) error (c : gmap nat (option exn)) :
  foldl (λ m p, <[pending_id p := error]> m) (<[id := error]> c) l !! id = Some error.
Proof.
  pose proof (lookup_insert_eq c id error) as Hc. revert Hc. generalize (<[id := error]> c) as c'.
  induction l as [|p l IH]; intros c' Hc'; [done|]. cbn [foldl]. apply IH.
  destruct (decide (pending_id p = id)) as [->|Hne]; [apply lookup_insert_eq|by rewrite lookup_insert_ne].
Qed.

(** A record appended to it. *)
Lemma wp_append_unread host s content r (Q : unit → wal_state → Prop) E :
  let path := path_ (config (wal s)) in
  format (wal s) = unread_format → failure_ (wal s) = None → queue_ (queue (wal s)) = [] →
  0 < max_batch_ (config (wal s)) →
  output_ (wal s) = ofs_opened path → file_contents path (os s) = Some content →
  (rec_op r = WalOp_Delete → rec_value r = []) →
  (∀ s', config (wal s') = config (wal s) →
     file_contents path (os s') = Some (content ++ record_frame host false 0 r) → Q tt s') →
  (∀ e s', E e s') → wp (append_record host r) Q E s.
Proof.
  intros path Hf Hfail Hq Hmb Ho Hc Hdel HQ HE.
  apply wp_append_record_payload; [done| |by auto]. rewrite Hf. cbn [unread_format legacy_v2_ negb]. intros Hfit.
  destruct (prepare_record host false r Hfit) as [frame Hframe].
  pose proof (prepared_final host false r frame 0 (conj Hfit Hframe)) as Hfinal. cbv iota in Hfinal. subst frame.
  assert (record_frame host false 0 r ≠ []) as Hne.
  { intros H%(f_equal size_of). rewrite size_of_frame in H. pose proof (record_size_ge false r).
    change (size_of []) with 0 in H. lia. }
  assert (∀ A (k : M wal_state A) Q' E', wp k Q' E' s → wp (check_appendable ;;; k) Q' E' s) as Hcheck.
  { intros A k Q' E' Hk. unfold check_appendable. do 3 wal_step. rewrite Hfail, Hf. exact Hk. }
  unfold AppendPayload. do 2 wal_step. rewrite Hf. cbn [unread_format legacy_v2_]. cbn [negb] in Hframe. rewrite Hframe.
  cbn [of_res]. do 2 wal_step. case_bool_decide.
  - apply Hcheck. do 2 wal_step. eapply wp_write_unread; [exact Hf|exact Ho|exact Hc|exact Hne| |by intros; wal_steps; apply HE].
    intros s' Hs' Hw'. pose proof (same_config _ _ Hs') as Hcfg. wal_step; [|by apply HQ].
    eapply wp_sync_unread; [rewrite Hcfg; exact Hw'| |by intros; wal_steps; apply HE].
    intros s2 Hs2 Hw2. pose proof (same_config _ _ Hs2) as Hcfg2. wal_step. apply HQ; [cbn; congruence|].
    cbn [os]. by rewrite Hcfg in Hw2.
  - unfold enqueue. wal_step. apply Hcheck. unfold writer_turn, form_batch. do 10 try wal_step.
    cbn [wal os config queue set_queue push_pending queue_]. rewrite Hq. cbn [app].
    rewrite take_batch_single by done. do 3 wal_step. unfold commit_batch. do 3 wal_step.
    eapply wp_batch_unread; [exact Hf|exact Ho|exact Hc|exact Hne| |].
    + intros s' Hs' Hw'. do 3 wal_step. unfold await. do 3 wal_step. cbn. rewrite lookup_insert_eq. wal_step.
      apply HQ; [by destruct Hs'|done].
    + intros e s'. unfold fail_queue. do 8 wal_step. unfold await.
      repeat wal_step. cbn. rewrite lookup_complete_all. apply HE.
Qed.

(** C36: A log of the current format that the constructor cannot open for reading, as
    when the process has no descriptor left after opening it for writing, is taken for
    one of the old format that needs no recovery. Under every policy the next record,
    if it is acknowledged, is written in the old format behind the others, and no later
    replay finds it, whatever is appended after it: every replay stops at it and
    reports damage. The record is one that does not by accident begin like the next
    record of the current format: its first five bytes, its kind and the length of its
    key, are not those of the number that is expected next. On a little-endian host
    with fewer than 255 records in the log that is so for every record with a key
    ([not_misread]). *)
Theorem unread_log_loses_writes host c w g rs r :
  0 ≤ max_batch_ c →
  file_contents (path_ c) w = Some (log_image host (V3 g) rs) → 0 < g < 2 ^ 64 → records_fit host (V3 g) rs →
  Z.of_nat (length rs) + 1 < 2 ^ 64 → misread host (Z.of_nat (length rs) + 1) r = false →
  (rec_op r = WalOp_Delete → rec_value r = []) →
  wp (open_wal_seeing Unopened Unopened host c)
    (λ o w1,
       needs_recovery_ (format o) = false ∧
       wp (append_record host r)
         (λ _ s', ∃ frame,
            file_contents (path_ c) (os s') = Some (log_image host (V3 g) rs ++ frame) ∧
            ∀ more store, ∃ result,
              ReplayDetailed host (Some (log_image host (V3 g) rs ++ frame ++ more)) store
              = Ok (result, apply_records rs store) ∧ replay_status result ≠ CleanEof)
         (λ _ _, True) (WalState o w1))
    (λ _ _, True) w.
Proof.
  intros Hmb Hc Hg Hfit Hlen Hop Hdel.
  apply wp_open_wal_seeing; [|done..]. rewrite Hc. cbn [default from_option id seen]. intros f w1 Hf Hmb1 Hc1.
  rewrite inspect_unread in Hf by (intros [Hh _]%app_eq_nil; by apply make_header_nonempty in Hh). injection Hf as <-.
  split; [done|]. eapply wp_append_unread; [done|done|done|cbn; lia|done|exact Hc1|done| |done]. intros s' _ Hfile.
  exists (record_frame host false 0 r). split; [exact Hfile|]. intros more store. by apply replay_foreign_frame.
Qed.
