(* ===== verification/Journal.v ===== *)
(** * What the store asks of its write-ahead log

    The interface between [KVStore] and [WriteAheadLog]: the calls the store
    makes, and the promises its correctness rests on. The theorems about the
    store are proved against this interface; the last section discharges it with
    the log of [WalLog]. *)

From S2P Require Import Prelude Machine BinaryIO Crc WalFormat WalReplay WalLog WalDurability.
From S2P Require Import WalMaintenance.

(** ** The interface *)

(** The calls. The state is the object and the machine it runs on. *)
Class Journal (W : Type) := {
  journal_set : bytes → bytes → M (W * world) unit;
  journal_delete : bytes → M (W * world) unit;
  journal_offset : M (W * world) Z;
  journal_clear : M (W * world) unit;
  journal_rotate : M (W * world) unit;
  journal_replay_from : W → world → Z → gmap bytes bytes → res (Z * gmap bytes bytes)
}.

Definition journal_write {W} `{Journal W} (r : ParsedRecord) : M (W * world) unit :=
  match rec_op r with
  | WalOp_Set => journal_set (rec_key r) (rec_value r)
  | WalOp_Delete => journal_delete (rec_key r)
  end.

(** A record that the store writes. *)
Definition record_ok (r : ParsedRecord) : Prop := rec_op r = WalOp_Delete → rec_value r = [].

(** The vocabulary of the promises. [journal_log j w rs]: the log holds [rs] and
    takes appends. [journal_end j rs off]: the records [rs], when the log begins
    with them, end at [off]. *)
Class JournalSpec (W : Type) := {
  journal_path : W → bytes;
  journal_log : W → world → list ParsedRecord → Prop;
  journal_end : W → list ParsedRecord → Z → Prop
}.

(** Replays from the end of any prefix of [rs] find the rest of it and then
    [seen], whatever became of the object. *)
Definition journal_replays {W} `{Journal W, JournalSpec W} (j : W) (w : world)
    (rs seen : list ParsedRecord) : Prop :=
  ∀ off rs1 rs2 m, rs = rs1 ++ rs2 → journal_end j rs1 off →
  journal_replay_from j w off m
  = Ok (Z.of_nat (length (rs2 ++ seen)), apply_records (rs2 ++ seen) m).

(** A call left the path and the ends of records alone, and no other file was
    touched. *)
Record journal_kept {W} `{JournalSpec W} (j j' : W) (w w' : world) : Prop := {
  kept_path : journal_path j' = journal_path j;
  kept_files : untouched [journal_path j] w w'
}.

Definition ends_kept {W} `{JournalSpec W} (j j' : W) : Prop :=
  ∀ rs off, journal_end j rs off → journal_end j' rs off.

Class JournalLaws (W : Type) `{Journal W, JournalSpec W} := {
  journal_frame j w w' rs :
    journal_log j w rs → files w' !! journal_path j = files w !! journal_path j → journal_log j w' rs;
  journal_replay_frame j w w' off m :
    files w' !! journal_path j = files w !! journal_path j →
    journal_replay_from j w' off m = journal_replay_from j w off m;
  journal_log_replays j w rs : journal_log j w rs → journal_replays j w rs [];
  journal_start j : journal_end j [] 0;
  journal_end_range j rs off : journal_end j rs off → 0 ≤ off < 2 ^ 64;
  journal_write_law j w rs r :
    journal_log j w rs → record_ok r →
    wp (journal_write r)
      (λ _ s', journal_kept j s'.1 w s'.2 ∧ ends_kept j s'.1 ∧ journal_log s'.1 s'.2 (rs ++ [r]))
      (λ _ s', journal_kept j s'.1 w s'.2 ∧ ends_kept j s'.1 ∧
               (journal_log s'.1 s'.2 rs ∨
                ∃ seen, (seen = [] ∨ seen = [r]) ∧ journal_replays s'.1 s'.2 rs seen))
      (j, w);
  journal_offset_law j w rs :
    journal_log j w rs →
    wp journal_offset
      (λ n s', journal_kept j s'.1 w s'.2 ∧ ends_kept j s'.1 ∧ journal_log s'.1 s'.2 rs ∧
               journal_end s'.1 rs n)
      (λ _ s', journal_kept j s'.1 w s'.2 ∧ ends_kept j s'.1 ∧ journal_replays s'.1 s'.2 rs [])
      (j, w);
  journal_rotate_law j w rs :
    journal_log j w rs →
    wp journal_rotate
      (λ _ s', journal_kept j s'.1 w s'.2 ∧ journal_log s'.1 s'.2 [])
      (λ _ s', journal_kept j s'.1 w s'.2 ∧
               (ends_kept j s'.1 ∧ journal_replays s'.1 s'.2 rs [] ∨ journal_replays s'.1 s'.2 [] []))
      (j, w);
  journal_clear_law j w rs :
    journal_log j w rs →
    wp journal_clear
      (λ _ s', journal_kept j s'.1 w s'.2 ∧ journal_log s'.1 s'.2 [])
      (λ _ s', journal_kept j s'.1 w s'.2)
      (j, w)
}.

(** ** The write-ahead log is one *)

Section implementation.
  Context (host : endianness).

(** Runs a member of the class on the pair. *)
Definition member {A} (m : M wal_state A) : M (WriteAheadLog * world) A :=
  zoom (λ s, WalState s.1 s.2) (λ s _, (wal s, os s)) m.

Definition wal_replay_from (j : WriteAheadLog) (w : world) (offset : Z) (store : gmap bytes bytes)
    : res (Z * gmap bytes bytes) :=
  ReplayFrom host (file_contents (path_ (config j)) w) offset store.

#[global] Instance wal_journal : Journal WriteAheadLog := {|
  journal_set key value := member (AppendSet host key value);
  journal_delete key := member (AppendDelete host key);
  journal_offset := member CurrentOffset;
  journal_clear := member Clear;
  journal_rotate := member Rotate;
  journal_replay_from := wal_replay_from
|}.

(** Ready, and nobody waits in its queue. *)
#[global] Instance wal_journal_spec : JournalSpec WriteAheadLog := {|
  journal_path j := path_ (config j);
  journal_log j w rs := wal_ready host (WalState j w) rs ∧ queue_ (queue j) = [];
  journal_end j rs off := covers host (wal_fmt (format j)) off rs ∧ off ≤ streamoff_max
|}.

Lemma wp_member {A} (m : M wal_state A) j w (Q : A → WriteAheadLog * world → Prop) E :
  wp m (λ a s', Q a (wal s', os s')) (λ e s', E e (wal s', os s')) (WalState j w) →
  wp (member m) Q E (j, w).
Proof. intros H. apply wp_zoom. exact H. Qed.

(** No member touches another file. *)
Definition wal_confined (path : bytes) (w0 : world) (s : wal_state) : Prop :=
  untouched [path] w0 (os s) ∧ path_ (config (wal s)) = path ∧ ofs_path (output_ (wal s)) = path.

Lemma untouched_alter path f w : untouched [path] w (with_files (alter f path) w).
Proof. intros p Hp. cbn. rewrite lookup_alter_ne; [done|]. intros ->. apply Hp. left. Qed.

Lemma untouched_insert path x w : untouched [path] w (with_files (<[path := x]>) w).
Proof. intros p Hp. cbn. rewrite lookup_insert_ne; [done|]. intros ->. apply Hp. left. Qed.

Lemma wp_flush_confined o w (Q : ofstream → world → Prop) E :
  (∀ o' w', ofs_path o' = ofs_path o → untouched [ofs_path o] w w' → Q o' w') →
  wp (ofs_flush o) Q E w.
Proof.
  intros HQ. unfold ofs_flush. destruct (_ && _); [|by apply wp_ret, HQ].
  wp_step. apply wp_draw. intros [|n e] rest; wp_steps; apply HQ; try done;
    apply (untouched_alter _ _ (with_script rest w)).
Qed.

Section confined.
  Context (path : bytes) (w0 : world).
  Local Abbreviation C := (wal_confined path w0).

Lemma confined_write_and_flush data what : keeps C (write_and_flush data what).
Proof.
  intros s (Hu & Hp & Ho). unfold write_and_flush. do 2 wal_step. wal_step. wal_step.
  assert (ofs_path (ofs_write data (output_ (wal s))) = path) as Hw
    by (unfold ofs_write; by destruct (_ && _)).
  apply wp_flush_confined. intros o' w' Ho' Hu'. rewrite Hw in *.
  assert (C (WalState (set_output o' (wal s)) w')) as HC by (split; [by etrans|done]).
  wal_steps; exact HC.
Qed.

Lemma confined_hook p : keeps C (call_fault_hook p).
Proof. intros s (Hu & Hp & Ho). by apply wp_call_fault_hook; intros rest. Qed.

Lemma confined_sync : keeps C SyncLocked.
Proof.
  intros s (Hu & Hp & Ho). unfold SyncLocked. do 2 wal_step. destruct (sync_fd_ (wal s)); [|by wal_step].
  cbn [negb]. do 4 wal_step. unfold fs_fdatasync_loop, wp. rewrite Hp.
  destruct (fdatasync_retry (script (os s))) as [[e|] rest]; [done|].
  split; [|done]. cbn. etrans; [exact Hu|]. apply (untouched_alter path mark_synced (with_script rest (os s))).
Qed.

Lemma confined_fields f s :
  (∀ w, config (f w) = config w ∧ output_ (f w) = output_ w) → C s → C (WalState (f (wal s)) (os s)).
Proof. intros Hf (Hu & Hp & Ho). destruct (Hf (wal s)) as [Hc Hoo]. split; cbn; [done|]. by rewrite Hc, Hoo. Qed.

Lemma confined_append r : keeps C (append_record host r).
Proof.
  apply append_keeps;
    [apply confined_write_and_flush|apply confined_hook|apply confined_sync|apply confined_fields].
Qed.

Lemma confined_offset : keeps C CurrentOffset.
Proof.
  intros s (Hu & Hp & Ho). unfold CurrentOffset. do 2 wal_step. do 2 wal_step.
  apply wp_flush_confined. intros o' w' Ho' Hu'. rewrite Ho in *.
  assert (untouched [path] w0 w') as Hw' by (by etrans). do 2 wal_step.
  wal_step; [by wal_step|]. unfold ofs_seek_end, ofs_tellp, attempt. do 4 wal_step. apply wp_draw.
  intros [|n e] rest; wal_steps; try done; by repeat case_match.
Qed.

Lemma confined_close : keeps C close_output.
Proof.
  intros s (Hu & Hp & Ho). unfold close_output, ofs_close. do 4 wal_step. wal_step.
  apply wp_flush_confined. intros o' w' Ho' Hu'. rewrite Ho in *. wal_steps. split; [by etrans|done].
Qed.

Lemma wp_open_trunc_confined p w (Q : ofstream → world → Prop) E :
  (∀ o' w', ofs_path o' = p → ofs_buffer o' = [] → untouched [p] w w' → Q o' w') →
  wp (ofs_open_trunc p) Q E w.
Proof.
  intros HQ. unfold ofs_open_trunc, attempt. do 2 wp_step. apply wp_draw.
  intros [|n e] rest; wp_steps; apply HQ; try done;
    apply (untouched_insert _ _ (with_script rest w)).
Qed.

Lemma confined_reopen : keeps C reopen_output.
Proof.
  intros s (Hu & Hp & Ho). unfold reopen_output. do 3 wal_step. wal_step. rewrite Hp.
  unfold ofs_open_app, attempt. do 2 wal_step. apply wp_draw.
  intros [|n e] rest; wal_steps; (split; [|done]); cbn; etrans; try exact Hu; try done;
    apply (untouched_insert path _ (with_script rest (os s))).
Qed.

Lemma confined_clear : keeps C Clear.
Proof.
  intros s Hs. unfold Clear. apply wp_keeps_bind; [apply confined_hook|done|clear s Hs; intros [] s Hs].
  do 2 wal_step. apply wp_keeps_bind; [destruct (_ =? _); by intros ?|done|clear s Hs; intros [] s Hs].
  apply wp_keeps_bind; [apply confined_close|done|clear s Hs; intros [] s (Hu & Hp & Ho)].
  do 2 wal_step. wal_step. wal_step. rewrite Hp. apply wp_open_trunc_confined. intros o w1 Hoo _ Hu1.
  assert (C (WalState (wal s) w1)) as Hs1 by (split; [by etrans|done]).
  apply wp_keeps_bind; [destruct (negb _); by intros ?|done|clear Hs1; intros [] s1 Hs1].
  wal_step. wal_step. apply wp_flush_confined. intros o2 w2 _ Hu2. rewrite Hoo in Hu2.
  destruct Hs1 as (Hu1' & Hp1 & Ho1).
  assert (C (WalState (wal s1) w2)) as Hs2 by (split; [by etrans|done]).
  apply wp_keeps_bind; [destruct (negb _); by intros ?|done|clear Hs2; intros [] s2 Hs2].
  apply wp_keeps_bind; [apply confined_reopen|done|intros [] s3 Hs3].
  wal_step. wal_step. unfold sync_unless_buffered. do 2 wal_step. cbn [wal].
  assert (C (WalState (set_format (next_generation (format (wal s3))) (wal s3)) (os s3))) as Hs4 by done.
  destruct (bool_decide _); [by apply confined_sync|exact Hs4].
Qed.

End confined.

Lemma member_kept {A} (m : M wal_state A) j w rs (Q : A → WriteAheadLog → world → Prop) E :
  (∀ w0, keeps (wal_confined (path_ (config j)) w0) m) → wal_ready host (WalState j w) rs →
  wp m (λ a s', Q a (wal s') (os s')) (λ e s', E e (wal s') (os s')) (WalState j w) →
  wp (member m) (λ a s', journal_kept j s'.1 w s'.2 ∧ Q a s'.1 s'.2)
    (λ e s', journal_kept j s'.1 w s'.2 ∧ E e s'.1 s'.2) (j, w).
Proof.
  intros Hm Hr H. apply wp_member.
  assert (wal_confined (path_ (config j)) w (WalState j w)) as HC.
  { pose proof (ready_stream _ _ _ Hr) as Ho. cbn in Ho. split; [done|]. split; [done|]. cbn. by rewrite Ho. }
  pose proof (wp_keeps _ _ _ _ _ (Hm w) HC H) as Hk.
  eapply wp_mono; [exact Hk| |]; cbn; intros ? s' [? (Hu & Hp & _)]; (split; [|done]); by split.
Qed.

(** ** The laws hold *)

Lemma covers_same_kind off rs f f' :
  is_v3 (wal_fmt f') = is_v3 (wal_fmt f) → covers host (wal_fmt f) off rs → covers host (wal_fmt f') off rs.
Proof.
  intros Hk [->| ?]; [left|by right]. unfold log_image. by rewrite !size_of_app, !size_of_header, Hk.
Qed.

Lemma legacy_ends_kept j j' :
  legacy_v2_ (format j') = legacy_v2_ (format j) → ends_kept j j'.
Proof.
  intros Hl rs off [Hc Ho]. split; [|done]. eapply covers_same_kind; [|exact Hc].
  by rewrite !is_v3_wal_fmt, Hl.
Qed.

Lemma wal_log_replays j w rs :
  wal_ready host (WalState j w) rs → journal_replays j w rs [].
Proof.
  intros Hr off rs1 rs2 m -> [Hc Ho]. cbn. unfold wal_replay_from, ReplayFrom.
  destruct (replay_ready_from host (WalState j w) rs1 rs2 off m) as (result & H & _ & Hn & _);
    [done..|]. cbn [wal os] in H. rewrite H, app_nil_r. by rewrite Hn.
Qed.

(** At most a prefix of the bytes of one more record reached the file. *)
Lemma torn_replays j w0 j' w rs r :
  wal_ready host (WalState j w0) rs → records_fit host (wal_fmt (format j)) (rs ++ [r]) →
  config j' = config j → legacy_v2_ (format j') = legacy_v2_ (format j) →
  file_torn (path_ (config j)) (wal_image host (format j) rs)
    (pending_header (format j)
     ++ log_frames host (negb (legacy_v2_ (format j))) (1 + Z.of_nat (length rs)) [r]) w →
  ∃ seen, (seen = [] ∨ seen = [r]) ∧ journal_replays j' w rs seen.
Proof.
  intros Hr Hfit Hc Hl Hf.
  destruct (replay_torn_from host (path_ (config j)) (format j) rs [r] w) as [k Hk];
    [apply Hr|by apply (ready_format_ok _ _ _ Hr)|done|done|].
  exists (take k [r]). split; [destruct k as [|k]; [by left|right; by destruct k]|].
  intros off rs1 rs2 m Heq [Hcov Hoff]. cbn. unfold wal_replay_from, ReplayFrom. rewrite Hc.
  assert (covers host (wal_fmt (format j)) off rs1) as Hcov'.
  { eapply covers_same_kind; [|exact Hcov]. rewrite !is_v3_wal_fmt. by rewrite Hl. }
  destruct (Hk rs1 rs2 off m) as (result & H & Hn); [done..|]. cbn in *. rewrite H. by rewrite Hn.
Qed.

Lemma wal_write_law j w rs r :
  wal_ready host (WalState j w) rs → queue_ (queue j) = [] → record_ok r →
  wp (append_record host r)
    (λ _ s', ends_kept j (wal s') ∧ wal_ready host s' (rs ++ [r]) ∧ queue_ (queue (wal s')) = [])
    (λ _ s', ends_kept j (wal s') ∧
             ((wal_ready host s' rs ∧ queue_ (queue (wal s')) = []) ∨
              ∃ seen, (seen = [] ∨ seen = [r]) ∧ journal_replays (wal s') (os s') rs seen))
    (WalState j w).
Proof.
  intros Hr Hq Hok. apply (wp_append_record host _ rs); [done..| | |].
  - intros s' _ [Hr' _ _ Hl _] Hq'. split; [by apply legacy_ends_kept|done].
  - intros e _. split; [by apply legacy_ends_kept|by left].
  - intros e s' Hfit [_ Hc Hl Hf]. split; [by apply legacy_ends_kept|]. right.
    apply (torn_replays j w); [done|by apply (ready_snoc_fit _ _ _ _ Hr)|done..].
Qed.

Lemma wal_offset_law j w rs :
  wal_ready host (WalState j w) rs → queue_ (queue j) = [] →
  wp CurrentOffset
    (λ n s', ends_kept j (wal s') ∧ (wal_ready host s' rs ∧ queue_ (queue (wal s')) = []) ∧
             journal_end (wal s') rs n)
    (λ _ s', ends_kept j (wal s') ∧ journal_replays (wal s') (os s') rs [])
    (WalState j w).
Proof.
  intros Hr Hq. apply (wp_CurrentOffset host _ rs); [done| |].
  - intros w' Hw' Hoff. cbn in *. split; [by intros ? ?|]. split; [split; [|done]|split; [|done]].
    + destruct Hr. split; try done. cbn. unfold file_contents. by rewrite Hw'.
    + destruct (is_image_nil host (format j) rs) as [Hi|Hi]; [apply Hr| |rewrite Hi; by left].
      unfold wal_image in *. destruct (negb _ && _) eqn:Hb; [|left; by rewrite Hi].
      apply andb_true_iff in Hb as [Hl%negb_true_iff Hp]. right. split; [done|].
      by apply (ready_pending _ _ _ Hr).
  - intros e o w' Hw'. cbn in *. split; [by intros ? ?|].
    pose proof (wal_log_replays j w rs Hr) as Hrep. intros off rs1 rs2 m Heq He.
    rewrite <-(Hrep off rs1 rs2 m Heq He). cbn. unfold wal_replay_from, file_contents. cbn. by rewrite Hw'.
Qed.

Lemma wal_clear_law j w rs :
  wal_ready host (WalState j w) rs → queue_ (queue j) = [] →
  wp Clear
    (λ _ s', wal_ready host s' [] ∧ queue_ (queue (wal s')) = [])
    (λ _ s', ends_kept j (wal s') ∧ journal_replays (wal s') (os s') rs [] ∨
             journal_replays (wal s') (os s') [] [])
    (WalState j w).
Proof.
  intros Hr Hq. pose proof Hr as [Ho Hf Hb _ _ _ Hg _ _ _ Hleg]. apply (wp_Clear host).
  - cbn in *. by rewrite Ho.
  - done.
  - done.
  - cbn in *. destruct (legacy_v2_ (format j)); [rewrite Hleg by done; lia|].
    specialize (Hg eq_refl). lia.
  - intros s' []. split; [done|]. cbn in *. congruence.
  - intros e s' Hc _ [[Hw Hfmt]|Hw]; cbn in *.
    + left. split; [apply legacy_ends_kept; by rewrite Hfmt|].
      pose proof (wal_log_replays j w rs Hr) as Hrep. intros off rs1 rs2 m Heq [Hcov Hoff].
      cbn in Hcov. rewrite Hfmt in Hcov. rewrite <-(Hrep off rs1 rs2 m Heq (conj Hcov Hoff)).
      cbn. unfold wal_replay_from. by rewrite Hc, Hw.
    + right. intros off rs1 rs2 m Heq [_ Hoff]. cbn. unfold wal_replay_from. rewrite Hc, Hw.
      destruct (app_eq_nil _ _ (eq_sym Heq)) as [-> ->]. unfold ReplayFrom, ReplayFromDetailed.
      destruct (Z.ltb_spec streamoff_max off); [lia|done].
Qed.

#[global] Instance wal_journal_laws : JournalLaws WriteAheadLog.
Proof.
  split.
  - intros j w w' rs [Hr Hq] Hw. cbn in *. split; [|done]. destruct Hr. split; try done.
    cbn in *. unfold file_contents in *. by rewrite Hw.
  - intros j w w' off m Hw. cbn in *. unfold wal_replay_from, file_contents. by rewrite Hw.
  - intros j w rs [Hr _]. by apply wal_log_replays.
  - intros j. split; [by right|done].
  - intros j rs off [Hc Ho]. unfold streamoff_max in Ho.
    destruct Hc as [->|[-> _]]; [split; [apply size_of_nonneg|]|]; cbn in *; lia.
  - intros j w rs r [Hr Hq] Hok. cbn in Hq. unfold journal_write. cbn [journal_set journal_delete wal_journal].
    replace (match rec_op r with _ => _ end) with (member (append_record host r))
      by (unfold append_record; by destruct (rec_op r)).
    eapply (member_kept _ j w rs
      (λ _ j' w', ends_kept j j' ∧ journal_log j' w' (rs ++ [r]))
      (λ _ j' w', ends_kept j j' ∧ (journal_log j' w' rs ∨
         ∃ seen, (seen = [] ∨ seen = [r]) ∧ journal_replays j' w' rs seen))); [|done|].
    + intros w0. apply confined_append.
    + eapply wp_mono; [by apply wal_write_law| |]; cbn beta; intros ? [j' w']; done.
  - intros j w rs [Hr Hq].
    eapply (member_kept _ j w rs
      (λ n j' w', ends_kept j j' ∧ journal_log j' w' rs ∧ journal_end j' rs n)
      (λ _ j' w', ends_kept j j' ∧ journal_replays j' w' rs [])); [|done|].
    + intros w0. apply confined_offset.
    + eapply wp_mono; [by apply wal_offset_law| |]; cbn beta; intros ? [j' w']; done.
  - intros j w rs [Hr Hq].
    eapply (member_kept _ j w rs (λ _ j' w', journal_log j' w' [])
      (λ _ j' w', ends_kept j j' ∧ journal_replays j' w' rs [] ∨ journal_replays j' w' [] [])); [|done|].
    + intros w0. apply confined_clear.
    + eapply wp_mono; [by eapply wal_clear_law| |]; cbn beta; intros ? [j' w']; done.
  - intros j w rs [Hr Hq].
    eapply wp_mono; [eapply (member_kept _ j w rs (λ _ j' w', journal_log j' w' []) (λ _ j' w', True)); [|done|]| |].
    + intros w0. apply confined_clear.
    + eapply wp_mono; [by eapply wal_clear_law| |]; cbn beta; intros ? [j' w']; done.
    + done.
    + by intros e s' [? _].
Qed.

End implementation.
