(* ===== verification/WalReopen.v ===== *)
(** * Opening a log again

    The constructor of [WriteAheadLog] on the file that an earlier object left: a
    log that it stands for again, or one whose last write was interrupted, which
    [ReplayFromAndTruncate] repairs first. *)

From S2P Require Import Prelude Machine BinaryIO Crc WalFormat WalReplay WalLog WalDurability.
From S2P Require Import WalMaintenance Journal.

Section reopen.
  Context (host : endianness).

(** ** The constructor on the file of a log *)

Lemma v2_image_nil rs :
  records_fit host V2 rs → log_image host V2 rs = [] → rs = [].
Proof.
  intros [Hfit _] Hnil. destruct rs as [|r rs]; [done|]. inversion Hfit as [|? ? Hr _]; subst.
  pose proof (v2_frame_not_portable host 1 r (log_frames host false (1 + 1) rs) Hr) as H.
  unfold log_image in Hnil. cbn [format_header is_v3 app log_frames] in Hnil. by rewrite Hnil in H.
Qed.

Lemma log_image_nil fmt rs :
  records_fit host fmt rs → log_image host fmt rs = [] → fmt = V2 ∧ rs = [].
Proof.
  destruct fmt as [|g]; [intros; split; [done|by apply v2_image_nil]|].
  intros _ H%(f_equal size_of). unfold log_image in H. rewrite size_of_app, size_of_header in H.
  pose proof (size_of_nonneg (log_frames host true 1 rs)). unfold kHeaderLength in H. cbn [is_v3] in H.
  change (size_of []) with 0 in H. lia.
Qed.

(** Offsets of prefixes of [rs] in one format are offsets of them in the other. *)
Definition same_ends (fmt fmt' : log_format) (rs : list ParsedRecord) : Prop :=
  ∀ off rs1 rs2, rs = rs1 ++ rs2 → covers host fmt off rs1 → covers host fmt' off rs1.

(** An empty file is taken for a new log. *)
Lemma same_ends_new fmt g : same_ends fmt (V3 g) [].
Proof.
  intros off rs1 rs2 Heq. destruct (app_eq_nil _ _ (eq_sym Heq)) as [-> _].
  intros [->|?]; [|by right]. destruct fmt; [by right|by left].
Qed.

Lemma same_ends_kind fmt fmt' rs : is_v3 fmt' = is_v3 fmt → same_ends fmt fmt' rs.
Proof.
  intros Hk off rs1 rs2 _ [->| ?]; [left|by right].
  unfold log_image. by rewrite !size_of_app, !size_of_header, Hk.
Qed.

(** The fields for a file that begins like a header and is none. *)
Definition unreadable_format : wal_format :=
  {| legacy_v2_ := false; header_pending_ := false; format_valid_ := false;
     needs_recovery_ := false; generation_ := 0; next_sequence_ := 1 |}.

Lemma inspect_short content :
  looks_portable content = true → content ≠ [] → size_of content < kHeaderLength →
  inspect_file host content = Ok unreadable_format .
Proof.
  intros Hp Hne Hsz. unfold inspect_file, inspect_seen. cbn [default from_option id]; cbv zeta; destruct (prefix_there content Hne) as [-> ->].
  cbn [negb andb]. rewrite Hp. pose proof (short_no_header content 1 Hsz) as Hs.
  destruct (if _ =? 4 then _ else _) as [valid g]. cbn in Hs. by subst valid.
Qed.

Lemma torn_reads fmt rs content tail status :
  records_fit host fmt rs → content = log_image host fmt rs ++ tail → opens_as fmt content →
  (status = CleanEof ↔ tail = []) →
  (∀ offset rs2 last, stops_with host fmt offset rs2 last tail status) →
  reads_as host fmt content rs tail status.
Proof.
  intros Hfit Hc Hopen Hcl Hstop. split_and!; [done..|]. intros store. subst content.
  pose proof (ReplayFromDetailed_opened host fmt [] rs tail status store 0) as H.
  cbn [app length] in H. rewrite last_after_full in H. apply H; try done. by right.
Qed.

(** What the constructor finds after an interrupted write. *)
Lemma inspect_torn fmt rs content :
  torn_image host fmt rs content → format_ok fmt → records_fit host fmt rs →
  match inspect_file host content with
  | Ok f =>
      (∃ tail, format_describes host f content rs tail ∧ same_ends fmt (wal_fmt f) rs) ∨
      (rs = [] ∧ f = unreadable_format ∧
       ∀ store, ∃ result, ReplayFromDetailed host (Some content) 0 store = Ok (result, store) ∧
         replay_status result = InvalidHeader ∧ last_good_offset result = 0)
  | Exn _ => is_v3 fmt = true ∧ Z.of_nat (length rs) = u64_max
  end.
Proof.
  intros Ht Hok Hfit. destruct (decide (content = [])) as [->|Hne].
  { assert (rs = []) as ->.
    { destruct Ht as [(tail & status & Hc & _)|[? _]]; [|done].
      symmetry in Hc. apply app_eq_nil in Hc as [Hc _]. by eapply log_image_nil. }
    left. exists []. split; [apply format_describes_empty|apply same_ends_new]. }
  destruct Ht as [(tail & status & Hc & Hopen & Hcl & Hstop)|(-> & Hp & Hsz)].
  - pose proof (torn_reads _ _ _ _ _ Hfit Hc Hopen Hcl Hstop) as Hr.
    rewrite (inspect_reads _ _ _ _ _ _ Hr Hne). destruct (_ && _) eqn:Hx.
    + apply andb_true_iff in Hx as [? ?%Z.eqb_eq]. done.
    + left. exists tail. rewrite wal_fmt_inspected. split; [|by apply same_ends_kind].
      eapply inspected_describes; [done..|]. by eapply fit_sequence.
  - rewrite inspect_short by done. right. split; [done|]. split; [done|]. intros store.
    destruct (replay_short_header host content 0 store) as (result & Hr & _ & Hst & Hg); [done..|].
    by exists result.
Qed.

(** On a log that was written to its end it finds the log. *)
Lemma inspect_image s rs :
  let f := format (wal s) in
  wal_ready host s rs →
  ∃ f', inspect_file host (wal_image host f rs) = Ok f' ∧
        format_describes host f' (wal_image host f rs) rs [] ∧ same_ends (wal_fmt f) (wal_fmt f') rs.
Proof.
  intros f Hr. pose proof (ready_format_ok _ _ _ Hr) as Hok. pose proof (ready_fit _ _ _ Hr) as Hfit.
  fold f in Hok, Hfit. destruct (decide (wal_image host f rs = [])) as [Hnil|Hne].
  - assert (rs = []) as ->.
    { unfold wal_image in Hnil. destruct (negb _ && _) eqn:Hb; [|by eapply log_image_nil].
      apply andb_true_iff in Hb as [Hl%negb_true_iff Hp]. by apply (ready_pending _ _ _ Hr). }
    rewrite Hnil. eexists. split; [done|]. split; [apply format_describes_empty|apply same_ends_new].
  - assert (wal_image host f rs = log_image host (wal_fmt f) rs) as Himg
      by (unfold wal_image in *; by destruct (negb _ && _)).
    rewrite Himg in *. exists (inspected (wal_fmt f) rs []).
    assert (reads_as host (wal_fmt f) (log_image host (wal_fmt f) rs) rs [] CleanEof) as Hreads.
    { apply torn_reads; try done; [by rewrite app_nil_r|].
      rewrite <-(app_nil_r (log_image _ _ _)). apply opens_as_image; auto. }
    assert (is_v3 (wal_fmt f) = true → Z.of_nat (length rs) + 1 < 2 ^ 64) as Hlt.
    { intros Hv. rewrite is_v3_wal_fmt in Hv. apply negb_true_iff in Hv. by apply (ready_sequence _ _ _ Hr). }
    rewrite (inspect_reads _ _ _ _ _ _ Hreads Hne), wal_fmt_inspected. split; [|split].
    + destruct (is_v3 (wal_fmt f)); [|done]. specialize (Hlt eq_refl). unfold u64_max.
      by destruct (Z.eqb_spec (Z.of_nat (length rs)) (2 ^ 64 - 1)); [lia|].
    + by eapply inspected_describes.
    + by apply same_ends_kind.
Qed.

(** ** Opening *)

(** The constructor changes no file that is there. *)
Lemma open_wal_keeps c w0 :
  is_Some (files w0 !! path_ c) → keeps (λ w, files w = files w0) (open_wal host c).
Proof.
  intros [x Hx].
  assert (∀ f, (∀ w, files w = files w0 → files (f w) = files w0) →
    keeps (λ w, files w = files w0) (attempt f)) as Ha.
  { intros f Hf w Hw. unfold attempt. wp_step. apply wp_draw. intros [|n e] rest; wp_steps; [by apply Hf|done]. }
  assert (keeps (λ w, files w = files w0) (fs_call id)) as Hcall.
  { intros w Hw. apply wp_fs_call_id. by intros o rest. }
  unfold open_wal, open_wal_seeing, ofs_open_app, fs_file_size, sync_wal_directory, sync_parent_directory, of_res.
  repeat first [keeps_step | apply Ha; intros w Hw; cbn; rewrite ?Hw | exact Hcall | progress case_match]; try done.
  rewrite Hx. by apply insert_id.
Qed.

Lemma wp_open c w content (Q : WriteAheadLog → world → Prop) E :
  file_contents (path_ c) w = Some content → 0 ≤ max_batch_ c →
  (∀ f w', inspect_file host content = Ok f → 0 < max_batch_ c ≤ 4096 → files w' = files w →
     Q (opened_wal c f) w') →
  (∀ e w', files w' = files w → E e w') → wp (open_wal host c) Q E w.
Proof.
  intros Hc Hmb HQ HE. assert (is_Some (files w !! path_ c)) as Hex.
  { unfold file_contents in Hc. by destruct (files w !! path_ c). }
  eapply wp_mono; [eapply (wp_keeps (λ w', files w' = files w)); [by apply open_wal_keeps|done|]| |].
  - apply (wp_open_wal host c w (λ o _, ∃ f, inspect_file host content = Ok f ∧ 0 < max_batch_ c ≤ 4096 ∧
      o = opened_wal c f) (λ _ _, True)); [|done|done].
    rewrite Hc. intros f w' Hf Hb _. by exists f.
  - cbn beta. intros o w' [(f & Hf & Hb & ->) Hw']. by apply HQ.
  - cbn beta. intros e w' [_ Hw']. by apply HE.
Qed.

Lemma opened_holds c f w content rs tail :
  0 < max_batch_ c ≤ 4096 → file_contents (path_ c) w = Some content →
  format_describes host f content rs tail → wal_holds host (WalState (opened_wal c f) w) rs tail.
Proof. intros Hb Hc Hd. split; try done. by exists content. Qed.

(** The object of the file of a log stands for that log again. *)
Lemma open_ready s rs c w :
  wal_ready host s rs → path_ c = path_ (config (wal s)) → 0 ≤ max_batch_ c →
  file_contents (path_ c) w = file_contents (path_ c) (os s) →
  wp (open_wal host c)
    (λ o w', files w' = files w ∧ config o = c ∧ sync_fd_ o = bool_decide (policy_ c ≠ Buffered) ∧
       queue_ (queue o) = [] ∧ wal_ready host (WalState o w') rs ∧
       same_ends (wal_fmt (format (wal s))) (wal_fmt (format o)) rs)
    (λ _ w', files w' = files w) w.
Proof.
  intros Hr Hpath Hmb Hw. set (f := format (wal s)).
  assert (file_contents (path_ c) w = Some (wal_image host f rs)) as Hc
    by (rewrite Hw, Hpath; apply (ready_file _ _ _ Hr)).
  destruct (inspect_image s rs Hr) as (f' & Hins & Hd & Hends).
  eapply wp_open; [done..| |done]. intros f2 w' Hf Hb Hw'. fold f in Hins. rewrite Hins in Hf. injection Hf as <-.
  split_and!; try done. apply wal_holds_ready, (opened_holds _ _ _ (wal_image host f rs)); [done| |done].
  rewrite <-Hc. unfold file_contents. by rewrite Hw'.
Qed.

(** Without failures the constructor returns. *)
Lemma open_returns c w :
  script w = [] → 0 < max_batch_ c ≤ 4096 →
  let found := inspect_file host (default [] (file_contents (path_ c) w)) in
  wp (open_wal host c) (λ _ w', script w' = [] ∧ ∃ f, found = Ok f) (λ e _, found = Exn e) w.
Proof.
  intros Hs Hb found. unfold open_wal, open_wal_seeing, ofs_open_app. do 2 wp_step. apply wp_attempt_ok; [done|]. wp_step.
  pose proof (file_contents_create (path_ c) w) as Hc.
  assert (script (create_if_missing (path_ c) w) = []) as Hs1 by done.
  generalize dependent (create_if_missing (path_ c) w). intros w1 Hc Hs1.
  replace ((max_batch_ c =? 0) || (4096 <? max_batch_ c)) with false by lia.
  cbn [ofs_is_open ofs_opened negb]. unfold wp, bind at 1 2, ret at 1 2.
  match goal with |- match ?m w1 with _ => _ end =>
    change (wp m (λ _ w', script w' = [] ∧ ∃ f, found = Ok f) (λ e _, found = Exn e) w1) end.
  wp_step. unfold fs_file_size. wp_step. apply wp_attempt_ok; [done|]. wp_step. change (id w1) with w1.
  rewrite Hc. cbn [fmap option_fmap option_map]. do 2 wp_step. rewrite Hc. cbn [from_option id seen]. fold (inspect_file host (default [] (file_contents (path_ c) w))). fold found.
  destruct found as [f|e]; cbn [of_res]; [|by wp_step]. assert (∃ f', Ok f = Ok f') as Hf by eauto.
  do 3 wp_step. case_bool_decide; [|by wp_steps]. wp_step. apply wp_fs_call_ok; [done|].
  unfold sync_wal_directory, sync_parent_directory. wp_step. apply wp_fs_call_ok; [done|].
  wp_step. apply wp_fs_call_ok; [done|]. by wp_steps.
Qed.

(** ** Recovery touches no other file *)

Section confined.
  Context (path : bytes) (w0 : world).
  Local Abbreviation C := (wal_confined path w0).

Lemma confined_on_wal f :
  (∀ w, config (f w) = config w ∧ output_ (f w) = output_ w) → keeps C (on_wal f).
Proof. intros Hf s Hs. apply wp_on_wal. by apply confined_fields. Qed.

Lemma confined_truncated_format n : keeps C (truncated_format host n).
Proof.
  unfold truncated_format, the_path, of_res.
  repeat first [keeps_step | apply confined_on_wal; by intros].
Qed.

Lemma confined_sync_unless_buffered : keeps C sync_unless_buffered.
Proof. unfold sync_unless_buffered. repeat first [keeps_step | apply confined_sync]. Qed.

Lemma confined_on_os {A} (m : M world A) : keeps (untouched [path] w0) m → keeps C (on_os m).
Proof.
  intros Hm s (Hu & Hc). apply wp_on_os. eapply wp_mono; [by apply Hm|..]; by intros ? w' Hw'.
Qed.

Lemma untouched_attempt f :
  (∀ w, untouched [path] w (f w)) → keeps (untouched [path] w0) (attempt f).
Proof.
  intros Hf w Hw. unfold attempt. wp_step. apply wp_draw. intros [|n e] rest; wp_steps; [|done].
  etrans; [exact Hw|]. apply (Hf (with_script rest w)).
Qed.

Lemma untouched_resize n : keeps (untouched [path] w0) (fs_resize_file path n).
Proof.
  unfold fs_resize_file. repeat first [keeps_step | apply untouched_attempt; intros; apply untouched_alter].
Qed.

Lemma confined_TruncateTo n : keeps C (TruncateTo host n).
Proof.
  intros s Hs. unfold TruncateTo. apply wp_keeps_bind; [apply confined_hook|done|clear s Hs; intros [] s Hs].
  wal_step. wal_step. apply wp_keeps_bind; [destruct (_ && _); by intros ?|done|clear s Hs; intros [] s Hs].
  apply wp_keeps_bind; [apply confined_close|done|clear s Hs; intros [] s Hs].
  wal_step. wal_step. destruct (Hs) as (_ & -> & _).
  apply wp_keeps_bind; [|done|clear s Hs; intros size s Hs; revert s Hs].
  { apply confined_on_os. unfold fs_exists_size. repeat first [keeps_step | by apply untouched_attempt]. }
  match goal with |- ∀ s, _ → wp ?m _ _ s => change (keeps C m) end.
  repeat first [apply confined_reopen | apply confined_truncated_format | apply confined_sync_unless_buffered
    | apply confined_on_wal; by intros | apply confined_on_os, untouched_resize
    | keeps_step].
Qed.

Lemma confined_recovery n m : keeps C (ReplayFromAndTruncate host n m).
Proof.
  unfold ReplayFromAndTruncate, ReplayFromAndTruncate_seeing, the_path, of_res.
  repeat first [apply confined_TruncateTo | keeps_step].
Qed.

End confined.

(** ** Opening and repairing *)

(** The log is opened and repaired before anything else is done with it. *)
Definition open_repaired (c : wal_config) : M world WriteAheadLog :=
  let! log := open_wal host c in
  inside (WalState log) os wal (ReplayFromAndTruncate host 0 ∅).

(** After an interrupted write the object stands for the records that the file still
    has, whatever the failures on the way. *)
Lemma wp_open_repaired c fmt rs w content (Q : WriteAheadLog → world → Prop) E :
  file_contents (path_ c) w = Some content → torn_image host fmt rs content → format_ok fmt →
  records_fit host fmt rs → 0 ≤ max_batch_ c →
  (∀ o w', config o = c → sync_fd_ o = bool_decide (policy_ c ≠ Buffered) → queue_ (queue o) = [] →
     wal_ready host (WalState o w') rs → same_ends fmt (wal_fmt (format o)) rs →
     untouched [path_ c] w w' →
     (policy_ c ≠ Buffered → file_durable (path_ c) w → file_durable (path_ c) w') → Q o w') →
  (∀ e w', untouched [path_ c] w w' → E e w') →
  wp (open_repaired c) Q E w.
Proof.
  intros Hc Ht Hok Hfit Hmb HQ HE. unfold open_repaired. wp_step.
  eapply wp_open; [exact Hc|done| |].
  2: { intros e w1 Hw1. apply HE. intros p _. by rewrite Hw1. }
  intros f w1 Hins Hb Hw1. wp_step.
  assert (file_contents (path_ c) w1 = Some content) as Hc1
    by (rewrite <-Hc; unfold file_contents; by rewrite Hw1).
  assert (untouched [path_ c] w w1) as Hu1 by (intros p _; by rewrite Hw1).
  set (s1 := WalState (opened_wal c f) w1).
  assert (wp (ReplayFromAndTruncate host 0 ∅) (λ _ s', 
      (s' = s1 ∨ wal_repaired host s1 rs s') ∧ wal_ready host s' rs ∧
      same_ends fmt (wal_fmt (format (wal s'))) rs) (λ _ _, True) s1) as Hrec.
  { pose proof (inspect_torn _ _ _ Ht Hok Hfit) as Hi. rewrite Hins in Hi.
    destruct Hi as [(tail & Hd & He)|(-> & -> & Hbad)].
    - apply (wp_recovery host s1 rs tail); [by eapply opened_holds| |done].
      intros _ s' _ _ _ [[-> ->]|Hr] _.
      + split_and!; [by left| |done]. by apply wal_holds_ready, (opened_holds _ _ _ content).
      + split_and!; [by right|by apply Hr|]. intros off rs1 rs2 Heq Hcov.
        eapply covers_same_kind; [|by eapply He]. rewrite !is_v3_wal_fmt. by rewrite (repaired_legacy _ _ _ _ Hr).
    - destruct (Hbad ∅) as (result & Hr & Hst & Hg). unfold ReplayFromAndTruncate, ReplayFromAndTruncate_seeing; cbn [seen]. do 5 wal_step.
      cbn [s1 wal os opened_wal config] in *. rewrite Hc1, Hr. cbn [of_res]. wal_step. cbn [fst]. rewrite Hst.
      rewrite bool_decide_false by done. cbn [negb]. wal_step. rewrite Hg. apply (wp_TruncateTo_start host s1 content); try done.
      intros s' Hr' _. wal_step. split_and!; [by right|by apply Hr'|].
      pose proof (repaired_legacy _ _ _ _ Hr') as Hl. unfold wal_fmt. rewrite Hl. apply same_ends_new. }
  eapply wp_mono; [eapply wp_keeps; [apply (confined_recovery (path_ c) w)|done|exact Hrec]| |]; cbn beta.
  - intros _ s' [(Hs' & Hr & He) (Hu & _)]. destruct s' as [o w']. cbn [wal os] in *. apply HQ; try done.
    1-3: destruct Hs' as [[= -> _]|[_ Hrc Hrq Hrf _ _]]; [done|]; cbn in Hrc, Hrq, Hrf; by rewrite ?Hrc, ?Hrq, ?Hrf.
    intros Hpol (x & Hx & Hsy). destruct Hs' as [[= _ ->]|Hr']; [by exists x; rewrite Hw1|].
    apply (repaired_durable _ _ _ _ Hr'); cbn; [done|by apply bool_decide_true].
  - intros e s' [_ (Hu & _)]. by apply HE.
Qed.

(** Without failures it returns, unless the log has no number left for a record. *)
Lemma wp_sync_unless_buffered_ok s (Q : unit → wal_state → Prop) E :
  script (os s) = [] → (∀ s', Q tt s') → wp sync_unless_buffered Q E s.
Proof.
  intros Hs HQ. unfold sync_unless_buffered. do 2 wal_step. wal_step; [|apply HQ].
  unfold SyncLocked. do 2 wal_step. destruct (sync_fd_ (wal s)); cbn [negb]; [|wal_step; apply HQ].
  do 4 wal_step. unfold wp, fs_fdatasync_loop. rewrite Hs. cbn. apply HQ.
Qed.

Lemma wp_TruncateTo_ok s content n (Q : unit → wal_state → Prop) E :
  let path := path_ (config (wal s)) in
  script (os s) = [] → output_ (wal s) = ofs_opened path → file_contents path (os s) = Some content →
  n ≤ size_of content →
  negb (legacy_v2_ (format (wal s))) && (n =? 0) && (generation_ (format (wal s)) =? u64_max) = false →
  (∀ w', script w' = [] → file_contents path w' = Some (take (Z.to_nat n) content) →
     wp (truncated_format host n ;;; on_wal (λ w, set_format (set_recovered (format w)) w) ;;;
         sync_unless_buffered) Q E (WalState (set_output (ofs_opened path) (wal s)) w')) →
  wp (TruncateTo host n) Q E s.
Proof.
  intros path Hs Ho Hfile Hn Hx HQ. unfold TruncateTo. wal_step. unfold call_fault_hook.
  do 2 wal_step. apply wp_on_os, wp_hook_ok; [done|]. do 3 wal_step. cbn [wal]. rewrite Hx. do 2 wal_step.
  apply wp_close_output; [cbn; by rewrite Ho|]. intros o _. cbn [wal os]. do 4 wal_step.
  unfold fs_exists_size. wal_step. apply wp_attempt_ok; [done|]. wal_step. cbn [wal os id].
  change (path_ (config (set_output o (wal s)))) with path. rewrite Hfile. cbn [fmap option_fmap option_map default from_option id].
  destruct (Z.ltb_spec (size_of content) n); [lia|]. do 4 wal_step. unfold fs_resize_file. do 2 wp_step.
  cbn [wal os]. rewrite bool_decide_true by (by eexists). cbn [negb]. apply wp_attempt_ok; [done|]. cbn [wal os negb]. do 2 wal_step.
  pose proof (file_contents_resize path (Z.to_nat n) (os s) _ Hfile) as Hcut.
  assert (script (with_files (alter (update_contents (take (Z.to_nat n))) path) (os s)) = []) as Hs1 by done.
  revert Hcut Hs1. generalize (with_files (alter (update_contents (take (Z.to_nat n))) path) (os s)).
  intros w1 Hcut Hs1. unfold reopen_output, ofs_open_app. wal_step. wal_step. wal_step. wal_step. wal_step.
  wal_step. apply wp_attempt_ok; [done|].
  do 5 wal_step; cbn [wal os] in *; [done|]. apply HQ; [done|].
  pose proof (file_contents_create path w1) as Hc. rewrite Hcut in Hc. exact Hc.
Qed.

Lemma wp_TruncateTo_log_ok s rs tail :
  wal_holds host s rs tail → tail ≠ [] → script (os s) = [] →
  wp (TruncateTo host (size_of (log_image host (wal_fmt (format (wal s))) rs))) (λ _ _, True) (λ _ _, False) s.
Proof.
  intros Hh Hne Hs. destruct (holds_image _ _ _ _ Hh Hne) as [Hfile _].
  destruct Hh as [Ho _ _ (content & _ & [_ _ Hfit Hg Hseq _ _ _ _])].
  set (f := format (wal s)) in *. set (image := log_image host (wal_fmt f) rs) in *.
  assert (take (Z.to_nat (size_of image)) (image ++ tail) = image) as Hcut
    by (unfold size_of; by rewrite Nat2Z.id, take_app_length).
  apply (wp_TruncateTo_ok s (image ++ tail)); try done.
  - rewrite size_of_app. pose proof (size_of_nonneg tail). lia.
  - destruct (Z.eqb_spec (size_of image) 0) as [H0|]; [|by rewrite andb_false_r].
    fold f. destruct (legacy_v2_ f) eqn:Hl; [done|exfalso].
    destruct (log_image_nil (wal_fmt f) rs Hfit) as [Hf _]; [apply nil_length_inv, Nat2Z.inj; exact H0|].
    unfold wal_fmt in Hf. by rewrite Hl in Hf.
  - rewrite Hcut. intros w2 Hs2 Hw2. wal_step.
    match goal with |- wp _ _ _ ?t => apply (wp_truncated_format host t rs) end; [done| |done|by apply Hseq|].
    { cbn. fold f. unfold wal_fmt. destruct (legacy_v2_ f) eqn:Hl; [done|by apply Hg]. }
    intros n _. do 2 wal_step. by apply wp_sync_unless_buffered_ok.
Qed.

Lemma open_repaired_returns c fmt rs w content :
  script w = [] → 0 < max_batch_ c ≤ 4096 → file_contents (path_ c) w = Some content →
  torn_image host fmt rs content → format_ok fmt → records_fit host fmt rs →
  wp (open_repaired c) (λ _ _, True) (λ e _, e = runtime_error (str "WAL sequence is exhausted")) w.
Proof.
  intros Hs Hb Hc Ht Hok Hfit. unfold open_repaired. wp_step.
  assert (Hmb : 0 ≤ max_batch_ c) by lia.
  eapply wp_mono; [apply wp_and; [by apply open_returns|eapply (wp_open c w content
    (λ o w', ∃ f, inspect_file host content = Ok f ∧ o = opened_wal c f ∧ files w' = files w) (λ _ _, True));
    [done|done| |done]]| |].
  - intros f w' Hf _ Hw'. by exists f.
  - cbn beta. intros o w1 [[Hs1 _] (f & Hins & -> & Hw1)]. wp_step.
    assert (file_contents (path_ c) w1 = Some content) as Hc1
      by (rewrite <-Hc; unfold file_contents; by rewrite Hw1).
    unfold ReplayFromAndTruncate, ReplayFromAndTruncate_seeing; cbn [seen]. do 5 wal_step. cbn [wal os opened_wal config] in *. rewrite Hc1.
    pose proof (inspect_torn _ _ _ Ht Hok Hfit) as Hi. rewrite Hins in Hi.
    destruct Hi as [(tail & Hd & _)|(-> & -> & Hbad)].
    + assert (wal_holds host (WalState (opened_wal c f) w1) rs tail) as Hh by (by eapply opened_holds).
      destruct (describes_replay _ _ _ _ _ Hd ∅) as (result & Hr & Hcl & Hg & _).
      rewrite Hr. cbn [of_res]. wal_step. cbn [fst].
      destruct (decide (tail = [])) as [->|Hne]; [rewrite bool_decide_true by tauto; by wal_step|].
      rewrite bool_decide_false by tauto. cbn [negb]. wal_step. rewrite Hg by done.
      eapply wp_mono; [by eapply wp_TruncateTo_log_ok|by intros; wal_step|done].
    + destruct (Hbad ∅) as (result & Hr & Hst & Hg). rewrite Hr. cbn [of_res]. wal_step. cbn [fst].
      rewrite Hst, bool_decide_false by done. cbn [negb]. wal_step. rewrite Hg.
      apply (wp_TruncateTo_ok _ content); try done; [apply size_of_nonneg|].
      intros w2 Hs2 Hw2. unfold truncated_format. do 3 wal_step. cbn [wal set_output format opened_wal].
      change (legacy_v2_ unreadable_format) with false. change (0 =? 0) with true. cbv iota.
      do 3 wal_step. by apply wp_sync_unless_buffered_ok; [|intros; wal_step].
  - cbn beta. intros e w1 [He _]. pose proof (inspect_file_spec host content) as Hspec.
    rewrite Hc in He. cbn [from_option id] in He. by rewrite He in Hspec.
Qed.

End reopen.
