(* ===== verification/KVStore.v ===== *)
(** * The sharded store: class [KVStore] of [include/store/kv_store.h] and
    [src/store/kv_store.cpp]

    The state of the store and every member function, one call at a time. The
    refinement of the shards to a single map is in [StoreSharding], the agreement of
    memory, log and snapshot in [StorePersistence], the interleaving of calls in
    [Checkpointing] and, lock by lock, in [StoreCalls]. *)

From S2P Require Import Prelude Machine BinaryIO Crc WalFormat WalReplay SnapshotFile Journal.

(** ** State *)

Definition kShardCount : Z := 64.
Definition kSnapshotInterval : Z := 1000.

(** [shards_]: the [data] of each shard. *)
Record KVStore (W : Type) := {
  shards_ : list (gmap bytes bytes);
  wal_ : option W;
  snapshot_ : option Snapshot;
  writes_since_snapshot_ : Z;
  checkpoint_requested_ : bool;
  checkpoint_active_ : bool;
  checkpoint_stopping_ : bool;
  checkpoint_epoch_ : Z;
  checkpoint_error_ : option exn
}.
Arguments shards_ {W}. Arguments wal_ {W}. Arguments snapshot_ {W}.
Arguments writes_since_snapshot_ {W}. Arguments checkpoint_requested_ {W}.
Arguments checkpoint_active_ {W}. Arguments checkpoint_stopping_ {W}.
Arguments checkpoint_epoch_ {W}. Arguments checkpoint_error_ {W}.

Record store_state (W : Type) := StoreState { kv : KVStore W; kv_os : world }.
Arguments StoreState {W}. Arguments kv {W}. Arguments kv_os {W}.

Section setters.
  Context {W : Type}.
  Implicit Types (s : KVStore W).

Definition set_shards (d : list (gmap bytes bytes)) s : KVStore W :=
  {| shards_ := d; wal_ := wal_ s; snapshot_ := snapshot_ s;
     writes_since_snapshot_ := writes_since_snapshot_ s;
     checkpoint_requested_ := checkpoint_requested_ s; checkpoint_active_ := checkpoint_active_ s;
     checkpoint_stopping_ := checkpoint_stopping_ s; checkpoint_epoch_ := checkpoint_epoch_ s;
     checkpoint_error_ := checkpoint_error_ s |}.
Definition set_wal (j : option W) s : KVStore W :=
  {| shards_ := shards_ s; wal_ := j; snapshot_ := snapshot_ s;
     writes_since_snapshot_ := writes_since_snapshot_ s;
     checkpoint_requested_ := checkpoint_requested_ s; checkpoint_active_ := checkpoint_active_ s;
     checkpoint_stopping_ := checkpoint_stopping_ s; checkpoint_epoch_ := checkpoint_epoch_ s;
     checkpoint_error_ := checkpoint_error_ s |}.
Definition set_writes (n : Z) s : KVStore W :=
  {| shards_ := shards_ s; wal_ := wal_ s; snapshot_ := snapshot_ s; writes_since_snapshot_ := n;
     checkpoint_requested_ := checkpoint_requested_ s; checkpoint_active_ := checkpoint_active_ s;
     checkpoint_stopping_ := checkpoint_stopping_ s; checkpoint_epoch_ := checkpoint_epoch_ s;
     checkpoint_error_ := checkpoint_error_ s |}.
(** The fields guarded by [checkpoint_mutex_]. *)
Definition set_checkpoint (requested active stopping : bool) (epoch : Z) (error : option exn) s
    : KVStore W :=
  {| shards_ := shards_ s; wal_ := wal_ s; snapshot_ := snapshot_ s;
     writes_since_snapshot_ := writes_since_snapshot_ s;
     checkpoint_requested_ := requested; checkpoint_active_ := active;
     checkpoint_stopping_ := stopping; checkpoint_epoch_ := epoch; checkpoint_error_ := error |}.

End setters.

Section lifting.
  Context {W : Type}.

Definition on_kv (f : KVStore W → KVStore W) : M (store_state W) unit :=
  modify (λ s, StoreState (f (kv s)) (kv_os s)).
Definition on_machine {A} (m : M world A) : M (store_state W) A :=
  zoom kv_os (λ w s, StoreState (kv s) w) m.
Definition store_res {A} (r : res A) : M (store_state W) A :=
  match r with Ok a => ret a | Exn e => throw e end.
(** A call through [wal_], when it is not null. *)
Definition on_wal_ptr {A} (null : A) (m : M (W * world) A) : M (store_state W) A :=
  λ s, match wal_ (kv s) with
       | None => (Ok null, s)
       | Some j => let (r, jw) := m (j, kv_os s) in
                   (r, StoreState (set_wal (Some jw.1) (kv s)) jw.2)
       end.

End lifting.

(** ** The member functions *)

Section operations.
  Context {W : Type} `{Journal W} (host : endianness).
  (** [std::hash<std::string>] of the standard library in use. *)
  Context (hash : bytes → Z).
  (** The order in which a map with these entries is iterated. *)
  Context (iterate : gmap bytes bytes → list (bytes * bytes)).

Definition ShardIndex (key : bytes) : nat := Z.to_nat (Z.land (hash key) (kShardCount - 1)).

Definition shard_at (i : nat) (shards : list (gmap bytes bytes)) : gmap bytes bytes :=
  default ∅ (shards !! i).

(** [result.insert(begin, end)] keeps what [result] has. *)
Definition CollectDataLocked (s : KVStore W) : gmap bytes bytes :=
  foldl (λ result data, result ∪ data) ∅ (shards_ s).

(** [shards_[ShardIndex(key)].data.insert(entry)]. *)
Definition insert_in_shard (shards : list (gmap bytes bytes)) (entry : bytes * bytes)
    : list (gmap bytes bytes) :=
  alter (λ data, match data !! entry.1 with
                 | Some _ => data
                 | None => <[entry.1 := entry.2]> data
                 end) (ShardIndex entry.1) shards.

Definition ReplaceDataLocked (data : gmap bytes bytes) (s : KVStore W) : KVStore W :=
  set_shards (foldl insert_in_shard ((λ _, ∅) <$> shards_ s) (iterate data)) s.

(** The constructors without and with persistence. *)
Definition new_store (wal : option W) (snapshot : option Snapshot) : KVStore W :=
  {| shards_ := replicate (Z.to_nat kShardCount) ∅; wal_ := wal; snapshot_ := snapshot;
     writes_since_snapshot_ := 0; checkpoint_requested_ := false; checkpoint_active_ := false;
     checkpoint_stopping_ := false; checkpoint_epoch_ := 0; checkpoint_error_ := None |}.

Definition CheckCheckpointError : M (store_state W) unit :=
  let! s := gets kv in
  match snapshot_ s with
  | None => ret tt
  | Some _ => match checkpoint_error_ s with Some e => throw e | None => ret tt end
  end.

Definition ScheduleCheckpoint : M (store_state W) unit :=
  on_kv (λ s, set_checkpoint true (checkpoint_active_ s) (checkpoint_stopping_ s)
                (checkpoint_epoch_ s) (checkpoint_error_ s) s).

Definition CancelPendingCheckpoint : M (store_state W) unit :=
  on_kv (λ s, set_checkpoint false (checkpoint_active_ s) (checkpoint_stopping_ s)
                (u64 (checkpoint_epoch_ s + 1)) (checkpoint_error_ s) s).

(** [checkpoint_due = ++writes_since_snapshot_ == kSnapshotInterval], and the
    schedule. *)
Definition count_write : M (store_state W) unit :=
  let! s := gets kv in
  match snapshot_ s with
  | None => ret tt
  | Some _ =>
      let n := u64 (writes_since_snapshot_ s + 1) in
      on_kv (set_writes n) ;;;
      when (n =? kSnapshotInterval) ScheduleCheckpoint
  end.

Definition Set_ (key value : bytes) : M (store_state W) unit :=
  CheckCheckpointError ;;;
  on_wal_ptr tt (journal_set key value) ;;;
  on_kv (λ s, set_shards (alter (insert key value) (ShardIndex key) (shards_ s)) s) ;;;
  count_write.

Definition Get (key : bytes) : M (store_state W) (option bytes) :=
  gets (λ s, shard_at (ShardIndex key) (shards_ (kv s)) !! key).

Definition Delete (key : bytes) : M (store_state W) bool :=
  CheckCheckpointError ;;;
  on_wal_ptr tt (journal_delete key) ;;;
  let! erased := gets (λ s, bool_decide (is_Some (shard_at (ShardIndex key) (shards_ (kv s)) !! key))) in
  on_kv (λ s, set_shards (alter (delete key) (ShardIndex key) (shards_ s)) s) ;;;
  count_write ;;;
  ret erased.

Definition Contains (key : bytes) : M (store_state W) bool :=
  gets (λ s, bool_decide (is_Some (shard_at (ShardIndex key) (shards_ (kv s)) !! key))).

Definition Size : M (store_state W) Z :=
  gets (λ s, foldl (λ size data, size + Z.of_nat (base.size data)) 0 (shards_ (kv s))).

Definition ClearStore : M (store_state W) unit :=
  on_kv (λ s, set_shards ((λ _, ∅) <$> shards_ s) s) ;;;
  on_kv (set_writes 0).

Definition with_snapshot {A} (null : A) (m : Snapshot → M (store_state W) A) : M (store_state W) A :=
  let! s := gets kv in
  match snapshot_ s with None => ret null | Some snap => m snap end.

Definition ClearPersistence : M (store_state W) unit :=
  CancelPendingCheckpoint ;;;
  on_wal_ptr tt journal_clear ;;;
  with_snapshot tt (λ snap, on_machine (ClearSnapshot snap)) ;;;
  on_kv (set_writes 0).

Definition SaveSnapshotLocked : M (store_state W) bool :=
  with_snapshot false (λ snap,
    let! wal_offset := on_wal_ptr 0 journal_offset in
    let! s := gets kv in
    on_machine (SaveVerified host snap (iterate (CollectDataLocked s)) wal_offset) ;;;
    on_kv (set_writes 0) ;;;
    ret true).

Definition SaveSnapshot : M (store_state W) bool :=
  CancelPendingCheckpoint ;;; SaveSnapshotLocked.

Definition CompactPersistenceLocked : M (store_state W) bool :=
  with_snapshot false (λ snap,
    let! s := gets kv in
    on_machine (SaveVerified host snap (iterate (CollectDataLocked s)) 0) ;;;
    on_wal_ptr tt journal_rotate ;;;
    on_kv (set_writes 0) ;;;
    ret true).

Definition CompactPersistence : M (store_state W) bool :=
  CancelPendingCheckpoint ;;; CompactPersistenceLocked.

Definition LoadSnapshot (snapshot : Snapshot) : M (store_state W) SnapshotLoadResult :=
  CancelPendingCheckpoint ;;;
  let! file := gets (λ s, file_contents (snapshot_path snapshot) (kv_os s)) in
  let (r, data) := Load host file ∅ in
  let! result := store_res r in
  on_kv (ReplaceDataLocked data) ;;;
  ret result.

Definition ReplayFromWal (wal : W) (offset : Z) : M (store_state W) Z :=
  let! s := gets kv in
  let! w := gets kv_os in
  let! replayed := store_res (journal_replay_from wal w offset (CollectDataLocked s)) in
  on_kv (ReplaceDataLocked replayed.2) ;;;
  ret replayed.1.

(** Copies and moves. [moved_from] is what a move leaves in the shards of the
    source, which the standard does not specify. *)
Definition copy_store (other : KVStore W) : res (KVStore W) :=
  match snapshot_ other with
  | Some _ => Exn (logic_error (str "cannot copy a store with background checkpointing"))
  | None =>
      Ok (set_writes (writes_since_snapshot_ other)
            (ReplaceDataLocked (CollectDataLocked other) (new_store (wal_ other) (snapshot_ other))))
  end.

Definition assign_copy (self other : KVStore W) : res (KVStore W) :=
  match snapshot_ self, snapshot_ other with
  | None, None =>
      let self := ReplaceDataLocked (CollectDataLocked other) self in
      Ok (set_writes (writes_since_snapshot_ other) (set_wal (wal_ other) self))
  | _, _ => Exn (logic_error (str "cannot copy a store with background checkpointing"))
  end.

Definition move_store (moved_from : list (gmap bytes bytes)) (other : KVStore W)
    : res (KVStore W * KVStore W) :=
  match snapshot_ other with
  | Some _ => Exn (logic_error (str "cannot move a store with background checkpointing"))
  | None =>
      Ok (set_writes (writes_since_snapshot_ other)
            (set_shards (shards_ other) (new_store (wal_ other) (snapshot_ other))),
          set_writes 0 (set_wal None (set_shards moved_from other)))
  end.

Definition assign_move (moved_from : list (gmap bytes bytes)) (self other : KVStore W)
    : res (KVStore W * KVStore W) :=
  match snapshot_ self, snapshot_ other with
  | None, None =>
      Ok (set_writes (writes_since_snapshot_ other)
            (set_wal (wal_ other) (set_shards (shards_ other) self)),
          set_writes 0 (set_wal None (set_shards moved_from other)))
  | _, _ => Exn (logic_error (str "cannot move a store with background checkpointing"))
  end.

End operations.
