(* ===== verification/StoreSharding.v ===== *)
(** * The shards refine one map

    The invariant of the shards, and what every member function of [KVStore]
    does to the map they represent, without any assumption on the log. *)

From S2P Require Import Prelude Machine BinaryIO Crc WalFormat WalReplay SnapshotFile Journal.
From S2P Require Import KVStore.

(** ** The map the shards represent *)

Section sharding.
  Context {W : Type} `{Journal W} (host : endianness).
  Context (hash : bytes → Z) (iterate : gmap bytes bytes → list (bytes * bytes)).
  Context (iterate_spec : ∀ m, iterate m ≡ₚ map_to_list m).
  Implicit Types (l : list (gmap bytes bytes)) (s : KVStore W) (t : store_state W).
  Local Abbreviation index := (ShardIndex hash).

(** 64 shards, and every key in the one its hash selects. *)
Definition shards_ok l : Prop :=
  length l = Z.to_nat kShardCount ∧
  ∀ i d k, l !! i = Some d → is_Some (d !! k) → index k = i.

Definition store_ok s : Prop := shards_ok (shards_ s).

(** [CollectDataLocked] is the abstraction function. *)
Definition all_data l : gmap bytes bytes := foldl (λ result data, result ∪ data) ∅ l.
Definition contents_of s : gmap bytes bytes := all_data (shards_ s).

Lemma CollectDataLocked_contents s : CollectDataLocked s = contents_of s.
Proof. done. Qed.

Lemma index_lt k : (index k < Z.to_nat kShardCount)%nat.
Proof.
  unfold ShardIndex, kShardCount. change (64 - 1) with (Z.ones 6). rewrite Z.land_ones by lia.
  pose proof (Z.mod_pos_bound (hash k) (2 ^ 6)). lia.
Qed.

Lemma foldl_union_lookup k : ∀ l m i,
  (∀ j d, l !! j = Some d → j ≠ i → d !! k = None) →
  foldl (λ result data, result ∪ data) m l !! k = (m !! k) ∪ (shard_at i l !! k).
Proof.
  induction l as [|d l IH]; intros m i Hl; cbn [foldl].
  { unfold shard_at. rewrite lookup_nil. cbn. by rewrite lookup_empty, (right_id_L None (∪)). }
  destruct i as [|i].
  - rewrite (IH _ (length l)); [|intros j d' Hj _; by apply (Hl (S j) d')].
    unfold shard_at. rewrite lookup_ge_None_2 by done. cbn.
    by rewrite lookup_empty, lookup_union, (right_id_L None (∪)).
  - rewrite (IH _ i); [|intros j d' Hj Hne; apply (Hl (S j) d'); [done|lia]].
    rewrite lookup_union. rewrite (Hl O d) by done. by rewrite (right_id_L None (∪)).
Qed.

(** A lookup in the map is a lookup in one shard. *)
Lemma all_data_lookup l k : shards_ok l → all_data l !! k = shard_at (index k) l !! k.
Proof.
  intros [_ Hk]. unfold all_data. rewrite (foldl_union_lookup k l ∅ (index k)).
  - by rewrite lookup_empty, (left_id_L None (∪)).
  - intros j d Hj Hne. apply eq_None_not_Some. intros Hs. apply Hne. symmetry. by apply (Hk j d k).
Qed.

Lemma shard_exists l k : shards_ok l → ∃ d, l !! index k = Some d.
Proof. intros [Hlen _]. apply lookup_lt_is_Some_2. rewrite Hlen. apply index_lt. Qed.

Lemma shards_ok_alter l k f :
  shards_ok l → (∀ d k', is_Some (f d !! k') → k' = k ∨ is_Some (d !! k')) →
  shards_ok (alter f (index k) l).
Proof.
  intros [Hlen Hk] Hf. split; [by rewrite length_alter|]. intros i d k' Hi Hs.
  destruct (decide (i = index k)) as [->|Hne].
  - rewrite list_lookup_alter_eq in Hi. destruct (l !! index k) as [d0|] eqn:E; [|done].
    injection Hi as <-. destruct (Hf _ _ Hs) as [->|Hs']; [done|]. by apply (Hk _ d0).
  - rewrite list_lookup_alter_ne in Hi by done. by apply (Hk i d).
Qed.

Lemma all_data_alter l k f k' :
  shards_ok l → (∀ d k', is_Some (f d !! k') → k' = k ∨ is_Some (d !! k')) →
  (∀ d, k' ≠ k → f d !! k' = d !! k') →
  all_data (alter f (index k) l) !! k'
  = if decide (k' = k) then f (shard_at (index k) l) !! k else all_data l !! k'.
Proof.
  intros Hok Hf Hne. rewrite all_data_lookup by (by apply shards_ok_alter).
  rewrite all_data_lookup by done. unfold shard_at.
  destruct (shard_exists l k Hok) as [d Hd]. case_decide as Hk.
  - subst k'. by rewrite list_lookup_alter_eq, Hd.
  - destruct (decide (index k' = index k)) as [Hi|Hi].
    + rewrite Hi, list_lookup_alter_eq, Hd. cbn. by apply Hne.
    + by rewrite list_lookup_alter_ne.
Qed.

Lemma insert_keys (k v : bytes) (d : gmap bytes bytes) k' :
  is_Some (<[k:=v]> d !! k') → k' = k ∨ is_Some (d !! k').
Proof. destruct (decide (k' = k)); [by left|]. rewrite lookup_insert_ne by done. by right. Qed.

Lemma delete_keys (k : bytes) (d : gmap bytes bytes) k' :
  is_Some (delete k d !! k') → k' = k ∨ is_Some (d !! k').
Proof. destruct (decide (k' = k)); [by left|]. rewrite lookup_delete_ne by done. by right. Qed.

Lemma all_data_insert l k v :
  shards_ok l → all_data (alter (insert k v) (index k) l) = <[k := v]> (all_data l).
Proof.
  intros Hok. apply map_eq. intros k'. rewrite all_data_alter; [|done|intros ? ?; apply insert_keys|].
  - case_decide as Hk; [subst k'; by rewrite !lookup_insert_eq|by rewrite lookup_insert_ne].
  - intros d Hk. by rewrite lookup_insert_ne.
Qed.

Lemma all_data_delete l k :
  shards_ok l → all_data (alter (delete k) (index k) l) = delete k (all_data l).
Proof.
  intros Hok. apply map_eq. intros k'. rewrite all_data_alter; [|done|intros ? ?; apply delete_keys|].
  - case_decide as Hk; [subst k'; by rewrite !lookup_delete_eq|by rewrite lookup_delete_ne].
  - intros d Hk. by rewrite lookup_delete_ne.
Qed.

(** ** Rebuilding the shards from a map *)

Lemma insert_in_shard_ok l e :
  shards_ok l →
  shards_ok (insert_in_shard hash l e) ∧
  all_data (insert_in_shard hash l e) = all_data l ∪ {[ e.1 := e.2 ]}.
Proof.
  destruct e as [k v]. intros Hok. unfold insert_in_shard. cbn [fst snd].
  set (f := λ data : gmap bytes bytes, match data !! k with Some _ => data | None => <[k:=v]> data end).
  assert (∀ d k', is_Some (f d !! k') → k' = k ∨ is_Some (d !! k')) as Hf.
  { intros d k'. unfold f. destruct (d !! k); [auto|]. apply insert_keys. }
  split; [by apply shards_ok_alter|]. apply map_eq. intros k'.
  rewrite all_data_alter; [|done..|].
  - rewrite lookup_union. case_decide as Hk.
    + subst k'. rewrite lookup_singleton_eq. rewrite (all_data_lookup l k Hok).
      unfold f. destruct (shard_at (index k) l !! k) eqn:E; [rewrite E; done|]. by rewrite lookup_insert_eq.
    + rewrite lookup_singleton_ne by done. by rewrite (right_id_L None (∪)).
  - intros d Hk. unfold f. destruct (d !! k); [done|]. by rewrite lookup_insert_ne.
Qed.

Lemma foldl_insert_in_shard es : ∀ l, shards_ok l →
  shards_ok (foldl (insert_in_shard hash) l es) ∧
  all_data (foldl (insert_in_shard hash) l es) = all_data l ∪ list_to_map es.
Proof.
  induction es as [|[k v] es IH]; intros l Hok; cbn [foldl list_to_map].
  { split; [done|]. cbn. by rewrite (right_id_L ∅ (∪)). }
  destruct (insert_in_shard_ok l (k, v) Hok) as [Hok' Hd]. destruct (IH _ Hok') as [Hok2 Hd2].
  split; [done|]. rewrite Hd2, Hd, <-(assoc_L (∪)). cbn [fst snd]. f_equal.
  symmetry. apply insert_union_singleton_l.
Qed.

Lemma shards_ok_empty l : length l = Z.to_nat kShardCount → shards_ok ((λ _, ∅) <$> l).
Proof.
  intros Hl. split; [by rewrite length_fmap|]. intros i d k Hi [v Hv].
  rewrite list_lookup_fmap in Hi. destruct (l !! i); [|done]. injection Hi as <-. by rewrite lookup_empty in Hv.
Qed.

Lemma all_data_empty l : all_data ((λ _, ∅) <$> l) = ∅.
Proof.
  unfold all_data. induction l as [|d l IH]; cbn [fmap list_fmap foldl]; [done|].
  by rewrite (left_id_L ∅ (∪)).
Qed.

Lemma list_to_map_iterate (m : gmap bytes bytes) : list_to_map (iterate m) = m.
Proof.
  rewrite <-(list_to_map_to_list m) at 2. apply list_to_map_proper; [|apply iterate_spec].
  rewrite iterate_spec. apply NoDup_fst_map_to_list.
Qed.

Lemma iterate_NoDup m : NoDup (iterate m).*1.
Proof. rewrite iterate_spec. apply NoDup_fst_map_to_list. Qed.

Lemma ReplaceDataLocked_ok s data :
  length (shards_ s) = Z.to_nat kShardCount →
  store_ok (ReplaceDataLocked hash iterate data s) ∧
  contents_of (ReplaceDataLocked hash iterate data s) = data.
Proof.
  intros Hl. unfold ReplaceDataLocked, store_ok, contents_of. cbn [shards_ set_shards].
  destruct (foldl_insert_in_shard (iterate data) _ (shards_ok_empty _ Hl)) as [Hok Hd].
  split; [done|]. rewrite Hd, all_data_empty, (left_id_L ∅ (∪)). apply list_to_map_iterate.
Qed.

Lemma new_store_ok (wal : option W) snap :
  store_ok (new_store wal snap) ∧ contents_of (new_store wal snap) = ∅.
Proof.
  unfold store_ok, contents_of. cbn [shards_ new_store].
  replace (replicate (Z.to_nat kShardCount) (∅ : gmap bytes bytes))
    with ((λ _ : gmap bytes bytes, ∅ : gmap bytes bytes)
            <$> replicate (Z.to_nat kShardCount) (∅ : gmap bytes bytes))
    by (by rewrite fmap_replicate).
  split; [apply shards_ok_empty; by rewrite length_replicate|apply all_data_empty].
Qed.

(** ** Size *)

Lemma size_general l : ∀ base m n,
  (∀ i d k, l !! i = Some d → is_Some (d !! k) → index k = (base + i)%nat) →
  (∀ k, is_Some (m !! k) → (index k < base)%nat) → n = Z.of_nat (base.size m) →
  foldl (λ size data, size + Z.of_nat (base.size data)) n l
  = Z.of_nat (base.size (foldl (λ result data, result ∪ data) m l)).
Proof.
  induction l as [|d l IH]; intros base m n Hl Hm ->; cbn [foldl]; [done|].
  apply (IH (S base)).
  - intros i d' k Hi Hs. rewrite (Hl (S i) d' k Hi Hs). lia.
  - intros k. rewrite lookup_union_is_Some. intros [Hk|Hk]; [specialize (Hm k Hk); lia|].
    rewrite (Hl O d k eq_refl Hk). lia.
  - rewrite map_size_disj_union; [lia|]. apply map_disjoint_spec. intros k x y Hx Hy.
    assert (index k < base)%nat by (apply Hm; eauto).
    assert (index k = base + 0)%nat by (apply (Hl O d); eauto). lia.
Qed.


Lemma size_contents s :
  store_ok s → foldl (λ size data, size + Z.of_nat (base.size data)) 0 (shards_ s)
               = Z.of_nat (base.size (contents_of s)).
Proof.
  intros [_ Hk]. apply (size_general _ O); [intros i d k Hi Hs; by rewrite (Hk i d k)| |].
  - intros k. rewrite lookup_empty. by intros [? ?].
  - by rewrite map_size_empty.
Qed.

(** ** Running members *)

(** The same persistent parts. *)
Record same_persistence t t' : Prop := {
  same_wal : wal_ (kv t') = wal_ (kv t);
  same_snapshot : snapshot_ (kv t') = snapshot_ (kv t);
  same_os : kv_os t' = kv_os t
}.

#[export] Instance same_persistence_preorder : PreOrder same_persistence.
Proof. split; [by split|]. intros t1 t2 t3 [] []. split; congruence. Qed.

Lemma wp_CheckCheckpointError t (Q : unit → store_state W → Prop) E :
  Q tt t → (∀ e, checkpoint_error_ (kv t) = Some e → E e t) → wp CheckCheckpointError Q E t.
Proof.
  intros HQ HE. unfold CheckCheckpointError. do 2 wp_step. destruct (snapshot_ (kv t)); [|by wp_step].
  destruct (checkpoint_error_ (kv t)) eqn:He; wp_step; auto.
Qed.

Lemma wp_count_write t (Q : unit → store_state W → Prop) E :
  (∀ t', shards_ (kv t') = shards_ (kv t) → same_persistence t t' → Q tt t') → wp count_write Q E t.
Proof.
  intros HQ. unfold count_write, ScheduleCheckpoint, on_kv. do 2 wp_step. destruct (snapshot_ (kv t)) eqn:Hs; [|wp_step; by apply HQ].
  do 2 wp_step. wp_step; [apply wp_modify|]; apply HQ; done.
Qed.

(** A call of the log changes the log and the machine only. *)
Record only_wal t t' : Prop := {
  only_wal_kv : kv t' = set_wal (wal_ (kv t')) (kv t)
}.

Lemma set_wal_id s : set_wal (wal_ s) s = s.
Proof. by destruct s. Qed.

Lemma wp_on_wal_ptr {A} (null : A) (m : M (W * world) A) t (Q : A → store_state W → Prop) E :
  (wal_ (kv t) = None → Q null t) →
  (∀ j, wal_ (kv t) = Some j →
     wp m (λ a jw, Q a (StoreState (set_wal (Some jw.1) (kv t)) jw.2))
       (λ e jw, E e (StoreState (set_wal (Some jw.1) (kv t)) jw.2)) (j, kv_os t)) →
  wp (on_wal_ptr null m) Q E t.
Proof.
  intros HN HJ. unfold wp, on_wal_ptr in *. destruct (wal_ (kv t)) as [j|]; [|by apply HN].
  specialize (HJ j eq_refl). by destruct (m (j, kv_os t)) as [[] [? ?]].
Qed.

Lemma wp_on_wal_ptr_shards {A} (null : A) (m : M (W * world) A) t (Q : A → store_state W → Prop) E :
  (∀ a t', only_wal t t' → Q a t') → (∀ e t', only_wal t t' → E e t') → wp (on_wal_ptr null m) Q E t.
Proof.
  intros HQ HE. apply wp_on_wal_ptr.
  - intros _. apply HQ. split. by rewrite set_wal_id.
  - intros j _. unfold wp. destruct (m (j, kv_os t)) as [[a|e] jw]; [apply HQ|apply HE]; done.
Qed.

Lemma wp_Set_ t k v (Q : unit → store_state W → Prop) E :
  (∀ e, checkpoint_error_ (kv t) = Some e → E e t) →
  wp (on_wal_ptr tt (journal_set k v))
    (λ _ t', ∀ t'', shards_ (kv t'') = alter (insert k v) (index k) (shards_ (kv t')) →
                    same_persistence t' t'' → Q tt t'') E t →
  wp (Set_ hash k v) Q E t.
Proof.
  intros HE Hm. unfold Set_, on_kv. wp_step. apply wp_CheckCheckpointError; [|done].
  wp_step. eapply wp_mono; [exact Hm| |done]. cbn beta. intros _ t' HQ. do 2 wp_step.
  apply wp_count_write. intros t'' Hsh [Hw Hs Ho]. by apply HQ.
Qed.

Lemma wp_Delete t k (Q : bool → store_state W → Prop) E :
  (∀ e, checkpoint_error_ (kv t) = Some e → E e t) →
  wp (on_wal_ptr tt (journal_delete k))
    (λ _ t', ∀ t'', shards_ (kv t'') = alter (delete k) (index k) (shards_ (kv t')) →
       same_persistence t' t'' →
       Q (bool_decide (is_Some (shard_at (index k) (shards_ (kv t')) !! k))) t'') E t →
  wp (Delete hash k) Q E t.
Proof.
  intros HE Hm. unfold Delete, on_kv. wp_step. apply wp_CheckCheckpointError; [|done].
  wp_step. eapply wp_mono; [exact Hm| |done]. cbn beta. intros _ t' HQ. do 4 wp_step. wp_step.
  apply wp_count_write. intros t'' Hsh [Hw Hs Ho]. wp_step. by apply HQ.
Qed.

(** ** The refinement *)

(** What [Set] and [Delete] leave alone. *)
Definition same_snapshot_ptr t t' : Prop := snapshot_ (kv t') = snapshot_ (kv t).

Lemma wp_Set_refines t k v :
  store_ok (kv t) →
  wp (Set_ hash k v)
    (λ _ t', store_ok (kv t') ∧ contents_of (kv t') = <[k := v]> (contents_of (kv t)) ∧ same_snapshot_ptr t t')
    (λ _ t', shards_ (kv t') = shards_ (kv t) ∧ same_snapshot_ptr t t') t.
Proof.
  intros Hok. apply wp_Set_; [done|]. apply wp_on_wal_ptr_shards.
  - intros _ t' [Ht'] t'' Hsh [_ Hs _]. unfold store_ok, contents_of, same_snapshot_ptr.
    rewrite Hs, Hsh, Ht'. cbn [shards_ set_wal snapshot_].
    split_and!; [apply shards_ok_alter; [done|intros ? ?; apply insert_keys]|by apply all_data_insert|done].
  - intros e t' [Ht']. unfold same_snapshot_ptr. by rewrite Ht'.
Qed.

Lemma wp_Delete_refines t k :
  store_ok (kv t) →
  wp (Delete hash k)
    (λ erased t', store_ok (kv t') ∧ contents_of (kv t') = delete k (contents_of (kv t)) ∧
                  erased = bool_decide (is_Some (contents_of (kv t) !! k)) ∧ same_snapshot_ptr t t')
    (λ _ t', shards_ (kv t') = shards_ (kv t) ∧ same_snapshot_ptr t t') t.
Proof.
  intros Hok. apply wp_Delete; [done|]. apply wp_on_wal_ptr_shards.
  - intros _ t' [Ht'] t'' Hsh [_ Hs _]. unfold store_ok, contents_of, same_snapshot_ptr.
    rewrite Hs, Hsh, Ht'. cbn [shards_ set_wal snapshot_].
    split_and!; [apply shards_ok_alter; [done|intros ? ?; apply delete_keys]|by apply all_data_delete| |done].
    by rewrite all_data_lookup.
  - intros e t' [Ht']. unfold same_snapshot_ptr. by rewrite Ht'.
Qed.

Lemma Get_contents t k : store_ok (kv t) → Get hash k t = (Ok (contents_of (kv t) !! k), t).
Proof. intros Hok. unfold Get, gets. by rewrite <-all_data_lookup. Qed.

Lemma Size_contents t : store_ok (kv t) → Size t = (Ok (Z.of_nat (base.size (contents_of (kv t)))), t).
Proof. intros Hok. unfold Size, gets. by rewrite size_contents. Qed.

(** C27: [Set] and [Delete] refine insertion into and deletion from one map,
    whatever the hash function, the log and the failures: on success the map of
    all shards is the old one with the key written or removed, [Delete] tells
    whether the key was there, and every key stays in the shard of its hash; on
    failure no shard has changed. *)
Theorem writes_refine_map t k v :
  store_ok (kv t) →
  wp (Set_ hash k v)
    (λ _ t', store_ok (kv t') ∧ contents_of (kv t') = <[k := v]> (contents_of (kv t)))
    (λ _ t', shards_ (kv t') = shards_ (kv t)) t ∧
  wp (Delete hash k)
    (λ erased t', store_ok (kv t') ∧ contents_of (kv t') = delete k (contents_of (kv t)) ∧
                  erased = bool_decide (is_Some (contents_of (kv t) !! k)))
    (λ _ t', shards_ (kv t') = shards_ (kv t)) t.
Proof.
  intros Hok. split.
  - eapply wp_mono; [by apply wp_Set_refines| |]; cbn beta; [intros _ t' (? & ? & _)|intros e t' [? _]]; done.
  - eapply wp_mono; [by apply wp_Delete_refines| |]; cbn beta;
      [intros b t' (? & ? & ? & _)|intros e t' [? _]]; done.
Qed.

(** The reading members refine the map: [Get] and [Contains] are its
    lookup, [Size] the number of its keys; collecting all shards gives the map,
    and rebuilding the shards from any map, in any order of iteration, gives a
    store of exactly that map with every key in the shard of its hash. *)
Theorem reads_refine_map t k data :
  store_ok (kv t) →
  Get hash k t = (Ok (contents_of (kv t) !! k), t) ∧
  Contains hash k t = (Ok (bool_decide (is_Some (contents_of (kv t) !! k))), t) ∧
  Size t = (Ok (Z.of_nat (base.size (contents_of (kv t)))), t) ∧
  CollectDataLocked (kv t) = contents_of (kv t) ∧
  store_ok (ReplaceDataLocked hash iterate data (kv t)) ∧
  CollectDataLocked (ReplaceDataLocked hash iterate data (kv t)) = data.
Proof.
  intros Hok. unfold Get, Contains, Size, gets. rewrite size_contents by done.
  assert (contents_of (kv t) !! k = shard_at (index k) (shards_ (kv t)) !! k) as ->
    by (by apply all_data_lookup).
  destruct (ReplaceDataLocked_ok (kv t) data) as [H1 H2]; [apply Hok|]. done.
Qed.

(** Copying and moving stores. Without snapshots a copy, constructed or
    assigned, is a store of the same map and the same log, with every key in the
    shard of its hash, and a move transfers map, log and write count and leaves the
    source without a log; with a snapshot on either side all four refuse, since
    the checkpoint thread is bound to the object. *)
Theorem copies_and_moves moved (self other : KVStore W) :
  store_ok self → store_ok other →
  (snapshot_ other = None →
   (∃ s, copy_store hash iterate other = Ok s ∧ store_ok s ∧ contents_of s = contents_of other ∧
         wal_ s = wal_ other ∧ writes_since_snapshot_ s = writes_since_snapshot_ other) ∧
   (∃ s rest, move_store moved other = Ok (s, rest) ∧ store_ok s ∧ contents_of s = contents_of other ∧
              wal_ s = wal_ other ∧ wal_ rest = None ∧ writes_since_snapshot_ rest = 0)) ∧
  (snapshot_ self = None → snapshot_ other = None →
   (∃ s, assign_copy hash iterate self other = Ok s ∧ store_ok s ∧ contents_of s = contents_of other ∧
         wal_ s = wal_ other) ∧
   (∃ s rest, assign_move moved self other = Ok (s, rest) ∧ store_ok s ∧ contents_of s = contents_of other ∧
              wal_ s = wal_ other ∧ wal_ rest = None)) ∧
  (is_Some (snapshot_ other) →
   (∃ e, copy_store hash iterate other = Exn e) ∧ (∃ e, assign_copy hash iterate self other = Exn e) ∧
   (∃ e, move_store moved other = Exn e) ∧ ∃ e, assign_move moved self other = Exn e).
Proof.
  intros Hself Hother. unfold copy_store, move_store, assign_copy, assign_move. split; [|split].
  - intros Hs. rewrite Hs. split.
    + destruct (ReplaceDataLocked_ok (new_store (wal_ other) None) (CollectDataLocked other)) as [H1 H2];
        [apply length_replicate|]. by eexists.
    + by eexists _, _.
  - intros Hs Ho. rewrite Hs, Ho. split.
    + destruct (ReplaceDataLocked_ok self (CollectDataLocked other)) as [H1 H2]; [apply Hself|]. by eexists.
    + by eexists _, _.
  - intros [snap Hs]. rewrite Hs. split_and!; try by eexists. all: destruct (snapshot_ self); by eexists.
Qed.

End sharding.
