(* ===== verification/StoreLocks.v ===== *)
(** * The locks of the store

    What the member functions of [src/store/kv_store.cpp] do with their mutexes,
    one acquisition, release or access at a time, and what follows from the
    order of acquisition: no deadlock, no data race, termination. The programs
    of the member functions are in [StoreCalls]. *)

From Stdlib Require Import Wellfounded.
From S2P Require Import Prelude Machine BinaryIO Crc WalFormat WalReplay SnapshotFile Journal KVStore.

(** ** Locks and guarded data *)

(** [std::shared_lock] and [std::unique_lock]. *)
Inductive mode := Shared | Exclusive.

#[global] Instance mode_eq_dec : EqDecision mode.
Proof. solve_decision. Defined.

(** [WalMutex] is [io_mutex_] of the log. *)
Inductive store_lock :=
| SnapshotMutex | AdminMutex | ShardMutex (i : nat) | CheckpointMutex | WalMutex.

#[global] Instance store_lock_eq_dec : EqDecision store_lock.
Proof. solve_decision. Defined.

Definition encode_lock (l : store_lock) : nat :=
  match l with
  | SnapshotMutex => 0 | AdminMutex => 1 | CheckpointMutex => 2 | WalMutex => 3 | ShardMutex i => 4 + i
  end%nat.
Definition decode_lock (n : nat) : option store_lock :=
  match n with
  | 0 => Some SnapshotMutex | 1 => Some AdminMutex | 2 => Some CheckpointMutex | 3 => Some WalMutex
  | S (S (S (S i))) => Some (ShardMutex i)
  end%nat.

#[global] Instance store_lock_countable : Countable store_lock.
Proof. by refine (inj_countable encode_lock decode_lock _); intros []. Defined.

(** The order in which locks are taken while others are held. *)
Definition lock_rank (l : store_lock) : nat :=
  match l with
  | SnapshotMutex => 0 | AdminMutex => 1 | ShardMutex i => 2 + i | CheckpointMutex => 66 | WalMutex => 67
  end%nat.

Definition is_shard (l : store_lock) : bool := match l with ShardMutex _ => true | _ => false end.

(** The locks a thread holds. *)
Abbreviation held := (gmap store_lock mode).

(** Shared data other than the shards: the fields guarded by
    [checkpoint_mutex_], the stream and file of the log, the format fields of
    the log, the snapshot files. *)
Inductive location := CheckpointFields | WalFile | WalFields | SnapshotFiles.

Definition holds_some_shard (h : held) : Prop :=
  ∃ i, (i < Z.to_nat kShardCount)%nat ∧ h !! ShardMutex i = Some Exclusive.
Definition holds_shards (h : held) : Prop :=
  ∀ i, (i < Z.to_nat kShardCount)%nat → h !! ShardMutex i = Some Exclusive.

(** The locks under which the program accesses a location. The log is appended
    to under [io_mutex_] by a thread that holds a shard, and replayed under all
    shards without [io_mutex_]; its format fields are read by an append outside
    [io_mutex_] and written under all shards. *)
Definition permits (x : location) (m : mode) (h : held) : Prop :=
  match x with
  | CheckpointFields => h !! CheckpointMutex = Some Exclusive
  | SnapshotFiles => h !! SnapshotMutex = Some Exclusive
  | WalFile => h !! WalMutex = Some Exclusive ∧ holds_some_shard h ∨ holds_shards h
  | WalFields => m = Shared ∧ holds_some_shard h ∨ holds_shards h
  end.

Definition permits_shard (i : nat) (m : mode) (h : held) : Prop :=
  h !! ShardMutex i = Some Exclusive ∨ m = Shared ∧ h !! ShardMutex i = Some Shared.

(** ** Programs of calls *)

(** What a call reports. *)
Inductive reply :=
| Threw | Done | Answer (b : bool) | Value (v : option bytes) | Count (n : Z) | Captured (m : gmap bytes bytes).

(** A shard is read or modified as a whole; what follows depends on what was
    found. Other data is only touched: its contents are in the other models. *)
Inductive prog :=
| Return (r : reply)
| Acquire (l : store_lock) (m : mode) (p : prog)
| Release (l : store_lock) (p : prog)
| Touch (x : location) (m : mode) (p : prog)
| Access (i : nat) (m : mode) (f : gmap bytes bytes → gmap bytes bytes) (next : gmap bytes bytes → prog).

(** A call that runs alone. *)
Fixpoint run_alone (p : prog) (shards : list (gmap bytes bytes)) : list (gmap bytes bytes) * reply :=
  match p with
  | Return r => (shards, r)
  | Acquire _ _ p | Release _ p | Touch _ _ p => run_alone p shards
  | Access i _ f next => run_alone (next (shard_at i shards)) (alter f i shards)
  end.

(** A program keeps to the discipline: locks are taken in the order of their
    ranks, data is accessed under its locks, no shard is locked after a shard was
    accessed ([working]), and everything is released at the end. *)
Fixpoint disciplined (working : bool) (h : held) (p : prog) : Prop :=
  match p with
  | Return _ => h = ∅
  | Acquire l m p =>
      (∀ l', is_Some (h !! l') → lock_rank l' < lock_rank l)%nat ∧ (lock_rank l < 68)%nat ∧
      (working = true → is_shard l = false) ∧ disciplined working (<[l := m]> h) p
  | Release l p => is_Some (h !! l) ∧ disciplined working (delete l h) p
  | Touch x m p => permits x m h ∧ disciplined working h p
  | Access i m f next =>
      permits_shard i m h ∧ (m = Shared → ∀ d, f d = d) ∧ ∀ d, disciplined true h (next d)
  end.

(** ** Threads *)

Record thread := Thread { th_held : held; th_code : prog }.

Record system := System { sys_shards : list (gmap bytes bytes); sys_threads : gmap nat thread }.

Definition set_thread (t : nat) (th : thread) (s : system) : system :=
  System (sys_shards s) (<[t := th]> (sys_threads s)).

(** No other thread holds the lock in a conflicting mode. *)
Definition grantable (s : system) (t : nat) (l : store_lock) (m : mode) : Prop :=
  map_Forall (λ t' th, t' ≠ t → match th_held th !! l with
                                | Some m' => m = Shared ∧ m' = Shared
                                | None => True
                                end) (sys_threads s).

#[global] Instance grantable_dec s t l m : Decision (grantable s t l m).
Proof. unfold grantable. apply map_Forall_dec. intros t' th. destruct (th_held th !! l); apply _. Defined.

(** One step of one thread. *)
Inductive advances (t : nat) (s : system) : system → Prop :=
| advance_acquire h l m p :
    sys_threads s !! t = Some (Thread h (Acquire l m p)) → grantable s t l m →
    advances t s (set_thread t (Thread (<[l := m]> h) p) s)
| advance_release h l p :
    sys_threads s !! t = Some (Thread h (Release l p)) →
    advances t s (set_thread t (Thread (delete l h) p) s)
| advance_touch h x m p :
    sys_threads s !! t = Some (Thread h (Touch x m p)) →
    advances t s (set_thread t (Thread h p) s)
| advance_access h i m f next :
    sys_threads s !! t = Some (Thread h (Access i m f next)) →
    advances t s (System (alter f i (sys_shards s))
                    (<[t := Thread h (next (shard_at i (sys_shards s)))]> (sys_threads s))).

(** The call returns, and its thread is free for another. *)
Inductive answers (t : nat) (r : reply) (s : system) : system → Prop :=
| answer h : sys_threads s !! t = Some (Thread h (Return r)) →
    answers t r s (System (sys_shards s) (delete t (sys_threads s))).

Inductive begins (t : nat) (p : prog) (s : system) : system → Prop :=
| begin : sys_threads s !! t = None → begins t p s (set_thread t (Thread ∅ p) s).

(** What the calls in progress do by themselves. *)
Definition proceeds (s s' : system) : Prop := ∃ t, advances t s s' ∨ ∃ r, answers t r s s'.

(** A thread of a schedule goes on, if it can. *)
Definition advance_thread (t : nat) (s : system) : option system :=
  match sys_threads s !! t with
  | Some (Thread h (Acquire l m p)) =>
      if decide (grantable s t l m) then Some (set_thread t (Thread (<[l := m]> h) p) s) else None
  | Some (Thread h (Release l p)) => Some (set_thread t (Thread (delete l h) p) s)
  | Some (Thread h (Touch x m p)) => Some (set_thread t (Thread h p) s)
  | Some (Thread h (Access i m f next)) =>
      Some (System (alter f i (sys_shards s))
              (<[t := Thread h (next (shard_at i (sys_shards s)))]> (sys_threads s)))
  | _ => None
  end.

Lemma advance_thread_advances t s s' : advance_thread t s = Some s' ↔ advances t s s'.
Proof.
  unfold advance_thread. split.
  - destruct (sys_threads s !! t) as [[h [r|l m p|l p|x m p|i m f next]]|] eqn:Ht; try done;
      [case_decide as Hg; [|done]|..]; intros [= <-].
    + by apply (advance_acquire t s h).
    + by apply (advance_release t s h).
    + by apply (advance_touch t s h x m).
    + by apply (advance_access t s h i m f).
  - intros [h l m p Ht Hg|h l p Ht|h x m p Ht|h i m f next Ht]; rewrite Ht; [by rewrite decide_True|done..].
Qed.

(** ** The invariant *)

Record orderly (s : system) : Prop := {
  orderly_threads : ∀ t th, sys_threads s !! t = Some th →
    ∃ working, disciplined working (th_held th) (th_code th);
  orderly_locks : ∀ t1 t2 th1 th2 l m1 m2, t1 ≠ t2 →
    sys_threads s !! t1 = Some th1 → sys_threads s !! t2 = Some th2 →
    th_held th1 !! l = Some m1 → th_held th2 !! l = Some m2 → m1 = Shared ∧ m2 = Shared
}.

(** A thread that changes keeps the invariant when it keeps the discipline and
    every lock it has now is an old one or was grantable. *)
Lemma orderly_update s t th h p shards working :
  orderly s → disciplined working h p →
  (∀ l m, h !! l = Some m → sys_threads s !! t = Some th ∧ th_held th !! l = Some m ∨ grantable s t l m) →
  orderly (System shards (<[t := Thread h p]> (sys_threads s))).
Proof.
  intros [Hth Hlk] Hd Hh.
  assert (∀ t2 th2 l m m2, t ≠ t2 → sys_threads s !! t2 = Some th2 → h !! l = Some m →
          th_held th2 !! l = Some m2 → m = Shared ∧ m2 = Shared) as Hnew.
  { intros t2 th2 l m m2 Hne H2 Hm Hm2. destruct (Hh l m Hm) as [[H1 Ho]|Hg].
    - by apply (Hlk t t2 th th2 l m m2).
    - specialize (Hg t2 th2 H2 ltac:(done)). cbn in Hg. by rewrite Hm2 in Hg. }
  split; cbn [sys_threads].
  - intros t' th' [[<- <-]|[_ H']]%lookup_insert_Some; [by exists working|by apply (Hth t')].
  - intros t1 t2 th1 th2 l m1 m2 Hne [[<- <-]|[Hn1 H1]]%lookup_insert_Some [[<- <-]|[Hn2 H2]]%lookup_insert_Some;
      cbn [th_held]; intros Hm1 Hm2; [done|eauto| |by apply (Hlk t1 t2 th1 th2 l)].
    destruct (Hnew t1 th1 l m2 m1); auto.
Qed.

Lemma orderly_begins t p s s' : orderly s → disciplined false ∅ p → begins t p s s' → orderly s'.
Proof.
  intros Ho Hd [Hn]. apply (orderly_update s t (Thread ∅ p) ∅ p _ false); [done..|].
  intros l m Hm. by rewrite lookup_empty in Hm.
Qed.

Lemma orderly_advances t s s' : orderly s → advances t s s' → orderly s'.
Proof.
  intros Ho Hs. destruct Hs as [h l m p Ht Hg|h l p Ht|h x m p Ht|h i m f next Ht];
    destruct (orderly_threads s Ho _ _ Ht) as [working Hd]; cbn in Hd.
  - apply (orderly_update s t (Thread h (Acquire l m p)) _ _ _ working); [done|by apply Hd|].
    intros l' m' [[<- <-]|[_ Hm]]%lookup_insert_Some; auto.
  - apply (orderly_update s t (Thread h (Release l p)) _ _ _ working); [done|by apply Hd|].
    intros l' m' [_ Hm]%lookup_delete_Some; auto.
  - apply (orderly_update s t (Thread h (Touch x m p)) _ _ _ working); [done|by apply Hd|auto].
  - apply (orderly_update s t (Thread h (Access i m f next)) _ _ _ true); [done|by apply Hd|auto].
Qed.

Lemma orderly_answers t r s s' : orderly s → answers t r s s' → orderly s'.
Proof.
  intros [Hth Hlk] [h Ht]. split; cbn [sys_threads].
  - intros t' th' [_ H']%lookup_delete_Some. by apply (Hth t').
  - intros t1 t2 th1 th2 l m1 m2 Hne [_ H1]%lookup_delete_Some [_ H2]%lookup_delete_Some.
    by apply (Hlk t1 t2 th1 th2).
Qed.

(** ** No data race *)

(** What a thread is about to do to shared data. *)
Inductive target := OnShard (i : nat) | OnData (x : location).

Definition about_to (th : thread) (x : target) (m : mode) : Prop :=
  match th_code th with
  | Access i m' _ _ => x = OnShard i ∧ m = m'
  | Touch y m' _ => x = OnData y ∧ m = m'
  | _ => False
  end.

Definition conflict (h1 h2 : held) : Prop :=
  ∃ l m1 m2, h1 !! l = Some m1 ∧ h2 !! l = Some m2 ∧ (m1 = Exclusive ∨ m2 = Exclusive).

Lemma conflict_sym h1 h2 : conflict h1 h2 → conflict h2 h1.
Proof. intros (l & m1 & m2 & H1 & H2 & H). exists l, m2, m1. tauto. Qed.

Lemma conflict_exclusive h1 h2 l :
  h1 !! l = Some Exclusive → is_Some (h2 !! l) → conflict h1 h2.
Proof. intros H1 [m2 H2]. exists l, Exclusive, m2. auto. Qed.

Lemma conflict_shards h1 h2 : holds_shards h1 → holds_some_shard h2 ∨ holds_shards h2 → conflict h1 h2.
Proof.
  intros H1 [(i & Hi & H2)|H2].
  - apply (conflict_exclusive _ _ (ShardMutex i)); eauto.
  - assert (0 < Z.to_nat kShardCount)%nat by (unfold kShardCount; lia).
    apply (conflict_exclusive _ _ (ShardMutex 0)); eauto.
Qed.

(** Two threads that may access the same data, one of them to modify it, hold a
    lock in conflicting modes. *)
Lemma permits_conflict x m h1 h2 :
  permits x Exclusive h1 → permits x m h2 → conflict h1 h2.
Proof.
  destruct x; cbn; intros H1 H2.
  - eapply conflict_exclusive; eauto.
  - destruct H1 as [[H1 Hs]|H1].
    + destruct H2 as [[H2 _]|H2]; [eapply conflict_exclusive; eauto|].
      apply conflict_sym, conflict_shards; auto.
    + apply conflict_shards; tauto.
  - destruct H1 as [[? _]|H1]; [done|]. apply conflict_shards; tauto.
  - eapply conflict_exclusive; eauto.
Qed.

Lemma permits_shard_conflict i m h1 h2 :
  permits_shard i Exclusive h1 → permits_shard i m h2 → conflict h1 h2.
Proof.
  intros [H1|[? _]] H2; [|done]. eapply conflict_exclusive; [done|].
  destruct H2 as [H2|[_ H2]]; eauto.
Qed.

Lemma orderly_no_conflict s t1 t2 th1 th2 :
  orderly s → t1 ≠ t2 → sys_threads s !! t1 = Some th1 → sys_threads s !! t2 = Some th2 →
  conflict (th_held th1) (th_held th2) → False.
Proof.
  intros Ho Hne H1 H2 (l & m1 & m2 & Hm1 & Hm2 & Hx).
  destruct (orderly_locks s Ho t1 t2 th1 th2 l m1 m2); try done. subst. by destruct Hx.
Qed.

Lemma orderly_no_race s t1 t2 th1 th2 x m :
  orderly s → t1 ≠ t2 → sys_threads s !! t1 = Some th1 → sys_threads s !! t2 = Some th2 →
  about_to th1 x Exclusive → about_to th2 x m → False.
Proof.
  intros Ho Hne H1 H2 Ha1 Ha2. apply (orderly_no_conflict s t1 t2 th1 th2 Ho Hne H1 H2).
  destruct (orderly_threads s Ho _ _ H1) as [w1 Hd1], (orderly_threads s Ho _ _ H2) as [w2 Hd2].
  destruct th1 as [h1 []], th2 as [h2 []]; cbn in *; destruct_and?; simplify_eq; try done.
  - by eapply permits_conflict.
  - by eapply permits_shard_conflict.
Qed.

(** ** No deadlock *)

Definition wants (s : system) (t : nat) (l : store_lock) (m : mode) : Prop :=
  ∃ h p, sys_threads s !! t = Some (Thread h (Acquire l m p)).

(** The thread can go on, even when a shared acquisition gives way to every
    thread that waits for the lock exclusively. *)
Definition runnable (s : system) (t : nat) : Prop :=
  ∃ h p, sys_threads s !! t = Some (Thread h p) ∧
    match p with
    | Acquire l m _ => grantable s t l m ∧ (m = Shared → ∀ t', ¬ wants s t' l Exclusive)
    | _ => True
    end.

(** The thread waits for [l] exclusively. *)
Definition waits_exclusively (l : store_lock) (th : thread) : bool :=
  match th_code th with Acquire l' Exclusive _ => bool_decide (l' = l) | _ => false end.

Lemma waits_exclusively_spec l th :
  waits_exclusively l th = true ↔ ∃ h p, th = Thread h (Acquire l Exclusive p).
Proof.
  split; [|intros (h & p & ->); by apply bool_decide_eq_true].
  destruct th as [h [|l' [] p| | |]]; try done. intros ->%bool_decide_eq_true. eauto.
Qed.

Lemma not_grantable s t l m :
  ¬ grantable s t l m → ∃ t' th, t' ≠ t ∧ sys_threads s !! t' = Some th ∧ is_Some (th_held th !! l).
Proof.
  intros (t' & th & Ht & Hn)%map_not_Forall; [|intros t' th; destruct (th_held th !! l); apply _].
  exists t', th. destruct (th_held th !! l) as [m'|] eqn:E; [|by destruct Hn].
  split; [intros ->; by apply Hn|eauto].
Qed.

(** A thread that holds a lock can go on or waits for a lock of higher rank. *)
Lemma holder_waits_higher s t th l :
  orderly s → sys_threads s !! t = Some th → is_Some (th_held th !! l) →
  runnable s t ∨ ∃ l' m, wants s t l' m ∧ (lock_rank l < lock_rank l' < 68)%nat.
Proof.
  intros Ho Ht Hl. destruct (orderly_threads s Ho _ _ Ht) as [w Hd]. destruct th as [h p].
  destruct p as [r|l' m p|l' p|x m p|i m f next]; [by left; exists h, (Return r)| |by left; eexists h, _..].
  right. exists l', m. destruct Hd as (Hr & Hb & _). split; [by exists h, p|]. split; [by apply Hr|done].
Qed.

Lemma wants_rank s t l m : orderly s → wants s t l m → (lock_rank l < 68)%nat.
Proof. intros Ho (h & p & Ht). destruct (orderly_threads s Ho _ _ Ht) as [w Hd]. apply Hd. Qed.

(** Whoever waits for a lock is held up by a thread that can go on. *)
Lemma waiting_makes_progress s :
  orderly s → ∀ n t l m, wants s t l m → (68 - lock_rank l <= n)%nat → ∃ t', runnable s t'.
Proof.
  intros Ho. induction n as [n IH] using lt_wf_ind. intros t l m Hw Hn.
  assert (∀ t2 m2, wants s t2 l m2 → ¬ grantable s t2 l m2 → ∃ t', runnable s t') as Hheld.
  { intros t2 m2 Hw2 (t3 & th3 & Hne & H3 & Hl)%not_grantable.
    destruct (holder_waits_higher s t3 th3 l Ho H3 Hl) as [Hr|(l' & m' & Hw' & Hrank)]; [eauto|].
    apply (IH (68 - lock_rank l')%nat ltac:(lia) t3 l' m' Hw'). lia. }
  pose proof Hw as (h & p & Ht).
  destruct (decide (grantable s t l m)) as [Hg|Hg]; [|by eapply Hheld].
  destruct m; [|exists t, h, (Acquire l Exclusive p); repeat split; [done..|discriminate]].
  destruct (decide (map_Forall (λ _ th, waits_exclusively l th = false) (sys_threads s))) as [Hall|Hn2].
  - exists t, h, (Acquire l Shared p). repeat split; [done..|]. intros _ t' (h' & p' & Ht').
    specialize (Hall t' _ Ht'). by apply bool_decide_eq_false in Hall.
  - apply map_not_Forall in Hn2 as (t2 & th2 & H2 & Hx); [|intros; apply _].
    apply not_false_is_true, waits_exclusively_spec in Hx as (h2 & p2 & ->).
    assert (wants s t2 l Exclusive) as Hw2 by (by exists h2, p2).
    destruct (decide (grantable s t2 l Exclusive)) as [Hg2|Hg2]; [|by eapply Hheld].
    exists t2, h2, (Acquire l Exclusive p2). repeat split; [done..|discriminate].
Qed.

Lemma orderly_runnable s : orderly s → sys_threads s ≠ ∅ → ∃ t, runnable s t.
Proof.
  intros Ho (t & [h p] & Ht)%map_choose. destruct p as [r|l m p|l p|x m p|i m f next];
    [by exists t, h, (Return r)| |by eexists t, h, _..].
  by apply (waiting_makes_progress s Ho (68 - lock_rank l) t l m); [exists h, p|].
Qed.

Lemma runnable_proceeds s t : runnable s t → ∃ s', proceeds s s'.
Proof.
  intros (h & p & Ht & Hp). destruct p as [r|l m p|l p|x m p|i m f next]; eexists; exists t.
  - right. exists r. by econstructor.
  - left. by eapply advance_acquire; [|apply Hp].
  - left. by eapply advance_release.
  - left. by eapply advance_touch.
  - left. by eapply advance_access.
Qed.

(** ** Termination *)

(** [follows p' p]: [p'] is what is left of [p] after its first instruction. *)
Inductive follows : prog → prog → Prop :=
| follows_acquire l m p : follows p (Acquire l m p)
| follows_release l p : follows p (Release l p)
| follows_touch x m p : follows p (Touch x m p)
| follows_access i m f next d : follows (next d) (Access i m f next).

Lemma follows_wf : well_founded follows.
Proof. intros p. induction p; constructor; intros p' Hp; inversion Hp; subst; auto. Qed.

(** What [proceeds] does to the threads. *)
Abbreviation shrinks := (map_shrinks (λ th' th, follows (th_code th') (th_code th))).

Lemma proceeds_shrinks s s' : proceeds s s' → shrinks (sys_threads s') (sys_threads s).
Proof.
  intros [t [Hs|[r Hs]]].
  - destruct Hs as [h l m p Ht _|h l p Ht|h x m p Ht|h i m f next Ht];
      eexists t, _; (split; [exact Ht|]); right; eexists; (split; [|reflexivity]); constructor.
  - destruct Hs as [h Ht]. eexists t, _. split; [exact Ht|]. by left.
Qed.

Lemma proceeds_wf : well_founded (flip proceeds).
Proof.
  apply (wf_incl _ _ (λ s' s, shrinks (sys_threads s') (sys_threads s))).
  - intros s' s. apply proceeds_shrinks.
  - apply (wf_inverse_image _ _ shrinks sys_threads), map_shrinks_wf.
    apply (wf_inverse_image _ _ follows th_code), follows_wf.
Qed.
