(* ===== verification/StoreCalls.v ===== *)
(** * What the member functions do with their locks

    Each member function of [KVStore] but [WaitForCheckpoints], which waits for a
    condition and is in [CheckpointSignals], and each round of [CheckpointLoop], in
    [src/store/kv_store.cpp], as a program of [StoreLocks]: every acquisition and
    release, every shard that is read or modified, every call of the log, the
    snapshot and the checkpoint fields. What such a call does when it runs alone is
    compared with one step on a map; how it finds the other data is an argument,
    so that every outcome is covered. *)

From S2P Require Import Prelude Machine BinaryIO Crc WalFormat WalReplay SnapshotFile Journal.
From S2P Require Import KVStore StoreSharding StoreLocks.

(** ** Calls *)

(** How a call of the log ends: an append may be refused before [io_mutex_] is
    taken. *)
Inductive wal_outcome := WalDone | WalRefuses | WalFails.

(** What a call finds besides the shards. *)
Record fortune := {
  checkpoint_failed : bool;
  checkpoint_due : bool;
  checkpoint_cancelled : bool;
  wal_outcome_ : wal_outcome;
  snapshot_throws : bool
}.

(** [LoadSnapshot] comes with the entries of the file, [ReplayFromWal] with the
    effect of its records. *)
Inductive call :=
| CallSet (key value : bytes)
| CallGet (key : bytes)
| CallDelete (key : bytes)
| CallContains (key : bytes)
| CallSize
| CallClear
| CallClearPersistence
| CallSaveSnapshot
| CallCompactPersistence
| CallLoadSnapshot (data : gmap bytes bytes)
| CallReplayFromWal (replay : gmap bytes bytes → gmap bytes bytes * Z)
| CheckpointRound.

Section programs.
  Context (hash : bytes → Z) (iterate : gmap bytes bytes → list (bytes * bytes)).
  (** Whether [wal_] and [snapshot_] are not null. *)
  Context (has_wal has_snapshot : bool).
  Local Abbreviation index := (ShardIndex hash).
  Implicit Types (o : fortune) (p : prog) (h : held) (working : bool) (i : nat).

(** ** Programs *)

Definition all_shards : list nat := seq 0 (Z.to_nat kShardCount).

Definition lock_shards (m : mode) (ids : list nat) (p : prog) : prog :=
  foldr (λ i p, Acquire (ShardMutex i) m p) p ids.
Definition unlock_shards (ids : list nat) (p : prog) : prog :=
  foldr (λ i p, Release (ShardMutex i) p) p ids.

(** The loops over the shards of [CollectDataLocked], [Size] and [Clear], and over
    the entries of [ReplaceDataLocked]. *)
Fixpoint collect (ids : list nat) (result : gmap bytes bytes) (k : gmap bytes bytes → prog) : prog :=
  match ids with
  | [] => k result
  | i :: ids => Access i Shared (λ d, d) (λ d, collect ids (result ∪ d) k)
  end.
Fixpoint count (ids : list nat) (size : Z) (k : Z → prog) : prog :=
  match ids with
  | [] => k size
  | i :: ids => Access i Shared (λ d, d) (λ d, count ids (size + Z.of_nat (base.size d)) k)
  end.
Definition clear_shards (ids : list nat) (p : prog) : prog :=
  foldr (λ i p, Access i Exclusive (λ _, ∅) (λ _, p)) p ids.
Definition put_if_absent (entry : bytes * bytes) (data : gmap bytes bytes) : gmap bytes bytes :=
  match data !! entry.1 with Some _ => data | None => <[entry.1 := entry.2]> data end.
Definition insert_entries (es : list (bytes * bytes)) (p : prog) : prog :=
  foldr (λ e p, Access (index e.1) Exclusive (put_if_absent e) (λ _, p)) p es.
Definition replace_data (data : gmap bytes bytes) (p : prog) : prog :=
  clear_shards all_shards (insert_entries (iterate data) p).

(** [ScheduleCheckpoint], [CancelPendingCheckpoint] and the critical sections of
    [CheckpointLoop]. *)
Definition touch_checkpoint (m : mode) (p : prog) : prog :=
  Acquire CheckpointMutex Exclusive (Touch CheckpointFields m (Release CheckpointMutex p)).

Definition check_error o p : prog :=
  if has_snapshot then
    touch_checkpoint Shared (if checkpoint_failed o then Return Threw else p)
  else p.

Definition schedule_if_due o p : prog :=
  if has_snapshot && checkpoint_due o then touch_checkpoint Exclusive p else p.

(** [AppendSet] and [AppendDelete]. *)
Definition append_wal o (failed p : prog) : prog :=
  if has_wal then
    Touch WalFields Shared
      match wal_outcome_ o with
      | WalRefuses => failed
      | WalFails => Acquire WalMutex Exclusive (Touch WalFile Exclusive (Release WalMutex failed))
      | WalDone => Acquire WalMutex Exclusive (Touch WalFile Exclusive (Release WalMutex p))
      end
  else p.

(** [CurrentOffset], and [Clear] which also sets the format. *)
Definition under_wal_mutex o (body : prog → prog) (failed p : prog) : prog :=
  if has_wal then
    Acquire WalMutex Exclusive (body (Release WalMutex
      match wal_outcome_ o with WalDone => p | _ => failed end))
  else p.
Definition wal_current_offset o : prog → prog → prog :=
  under_wal_mutex o (Touch WalFile Exclusive).
Definition wal_clear o : prog → prog → prog :=
  under_wal_mutex o (λ p, Touch WalFile Exclusive (Touch WalFields Exclusive p)).

Definition touch_snapshot o (m : mode) (failed p : prog) : prog :=
  Touch SnapshotFiles m (if snapshot_throws o then failed else p).

(** The shape of the administrative calls; a body ends by leaving with a reply. *)
Definition with_all_shards (m : mode) (body : (reply → prog) → prog) (leave : reply → prog) : prog :=
  lock_shards m all_shards (body (λ r, unlock_shards all_shards (leave r))).
Definition with_admin (body : (reply → prog) → prog) (leave : reply → prog) : prog :=
  Acquire AdminMutex Exclusive (with_all_shards Exclusive body (λ r, Release AdminMutex (leave r))).
Definition with_snapshot_mutex (body : (reply → prog) → prog) : prog :=
  Acquire SnapshotMutex Exclusive (touch_checkpoint Exclusive
    (with_admin body (λ r, Release SnapshotMutex (Return r)))).

(** One round of [CheckpointLoop]: the capture is kept while the shards are
    released and the snapshot is published. *)
Definition checkpoint_program o : prog :=
  let finish r := touch_checkpoint Exclusive (Return r) in
  let leave (failed : bool) r :=
    Release SnapshotMutex (if failed then touch_checkpoint Exclusive (finish r) else finish r) in
  touch_checkpoint Exclusive (Acquire SnapshotMutex Exclusive (touch_checkpoint Shared
    (if checkpoint_cancelled o then leave false Done
     else
       Acquire AdminMutex Exclusive (lock_shards Exclusive all_shards (collect all_shards ∅ (λ data,
         wal_current_offset o
           (unlock_shards all_shards (Release AdminMutex (leave true Threw)))
           (unlock_shards all_shards (Release AdminMutex
              (touch_snapshot o Exclusive (leave true Threw) (leave false (Captured data))))))))))).

Definition program (c : call) o : prog :=
  match c with
  | CallSet key value =>
      let i := index key in
      check_error o (Acquire (ShardMutex i) Exclusive
        (append_wal o (Release (ShardMutex i) (Return Threw))
           (Access i Exclusive (insert key value) (λ _,
              schedule_if_due o (Release (ShardMutex i) (Return Done))))))
  | CallGet key =>
      let i := index key in
      Acquire (ShardMutex i) Shared (Access i Shared (λ d, d) (λ d,
        Release (ShardMutex i) (Return (Value (d !! key)))))
  | CallDelete key =>
      let i := index key in
      check_error o (Acquire (ShardMutex i) Exclusive
        (append_wal o (Release (ShardMutex i) (Return Threw))
           (Access i Exclusive (delete key) (λ d,
              schedule_if_due o (Release (ShardMutex i) (Return (Answer (bool_decide (is_Some (d !! key))))))))))
  | CallContains key =>
      let i := index key in
      Acquire (ShardMutex i) Shared (Access i Shared (λ d, d) (λ d,
        Release (ShardMutex i) (Return (Answer (bool_decide (is_Some (d !! key)))))))
  | CallSize => with_all_shards Shared (λ leave, count all_shards 0 (λ n, leave (Count n))) Return
  | CallClear => with_admin (λ leave, clear_shards all_shards (leave Done)) Return
  | CallClearPersistence =>
      with_snapshot_mutex (λ leave,
        wal_clear o (leave Threw)
          (if has_snapshot then touch_snapshot o Exclusive (leave Threw) (leave Done) else leave Done))
  | CallSaveSnapshot =>
      with_snapshot_mutex (λ leave,
        if has_snapshot then
          wal_current_offset o (leave Threw) (collect all_shards ∅ (λ _,
            touch_snapshot o Exclusive (leave Threw) (leave (Answer true))))
        else leave (Answer false))
  | CallCompactPersistence =>
      with_snapshot_mutex (λ leave,
        if has_snapshot then
          collect all_shards ∅ (λ _, touch_snapshot o Exclusive (leave Threw)
            (wal_clear o (leave Threw) (leave (Answer true))))
        else leave (Answer false))
  | CallLoadSnapshot data =>
      with_snapshot_mutex (λ leave,
        touch_snapshot o Shared (leave Threw) (replace_data data (leave Done)))
  | CallReplayFromWal replay =>
      with_admin (λ leave, collect all_shards ∅ (λ data, Touch WalFile Shared
        match wal_outcome_ o with
        | WalDone => replace_data (replay data).1 (leave (Count (replay data).2))
        | _ => leave Threw
        end)) Return
  | CheckpointRound => checkpoint_program o
  end.

(** ** The calls on one map *)

Definition wal_throws o : bool := has_wal && match wal_outcome_ o with WalDone => false | _ => true end.

Definition write_refused o : bool := has_snapshot && checkpoint_failed o || wal_throws o.

Definition atomic (c : call) o (m : gmap bytes bytes) : gmap bytes bytes * reply :=
  match c with
  | CallSet key value => if write_refused o then (m, Threw) else (<[key := value]> m, Done)
  | CallGet key => (m, Value (m !! key))
  | CallDelete key =>
      if write_refused o then (m, Threw) else (delete key m, Answer (bool_decide (is_Some (m !! key))))
  | CallContains key => (m, Answer (bool_decide (is_Some (m !! key))))
  | CallSize => (m, Count (Z.of_nat (base.size m)))
  | CallClear => (∅, Done)
  | CallClearPersistence => (m, if wal_throws o || has_snapshot && snapshot_throws o then Threw else Done)
  | CallSaveSnapshot | CallCompactPersistence =>
      (m, if has_snapshot then if wal_throws o || snapshot_throws o then Threw else Answer true
          else Answer false)
  | CallLoadSnapshot data => if snapshot_throws o then (m, Threw) else (data, Done)
  | CallReplayFromWal replay =>
      match wal_outcome_ o with
      | WalDone => ((replay m).1, Count (replay m).2)
      | _ => (m, Threw)
      end
  | CheckpointRound =>
      (m, if checkpoint_cancelled o then Done
          else if wal_throws o || snapshot_throws o then Threw else Captured m)
  end.

(** ** Running alone *)

Lemma run_lock_shards m p shards ids : run_alone (lock_shards m ids p) shards = run_alone p shards.
Proof. induction ids; done. Qed.

Lemma run_unlock_shards p shards ids : run_alone (unlock_shards ids p) shards = run_alone p shards.
Proof. induction ids; done. Qed.

Lemma shard_at_middle (l1 l2 : list (gmap bytes bytes)) d : shard_at (length l1) (l1 ++ d :: l2) = d.
Proof. unfold shard_at. by rewrite list_lookup_middle. Qed.

Lemma alter_same (i : nat) (shards : list (gmap bytes bytes)) : alter (λ d, d) i shards = shards.
Proof. apply list_alter_id. done. Qed.

(** A loop that visits the shards in order. *)
Lemma run_collect (k : gmap bytes bytes → prog) (l1 l2 : list (gmap bytes bytes)) : ∀ result,
  run_alone (collect (seq (length l1) (length l2)) result k) (l1 ++ l2)
  = run_alone (k (foldl (λ result data, result ∪ data) result l2)) (l1 ++ l2).
Proof.
  revert l1. induction l2 as [|d l2 IH]; intros l1 result; cbn; [done|].
  rewrite shard_at_middle, alter_same. specialize (IH (l1 ++ [d]) (result ∪ d)).
  by rewrite length_app, Nat.add_1_r, <-(assoc_L (++)) in IH.
Qed.

Lemma run_count (k : Z → prog) (l1 l2 : list (gmap bytes bytes)) : ∀ n,
  run_alone (count (seq (length l1) (length l2)) n k) (l1 ++ l2)
  = run_alone (k (foldl (λ size data, size + Z.of_nat (base.size data)) n l2)) (l1 ++ l2).
Proof.
  revert l1. induction l2 as [|d l2 IH]; intros l1 n; cbn; [done|].
  rewrite shard_at_middle, alter_same. specialize (IH (l1 ++ [d]) (n + Z.of_nat (base.size d))).
  by rewrite length_app, Nat.add_1_r, <-(assoc_L (++)) in IH.
Qed.

Lemma run_clear_shards p (l1 l2 : list (gmap bytes bytes)) :
  run_alone (clear_shards (seq (length l1) (length l2)) p) (l1 ++ l2)
  = run_alone p (l1 ++ ((λ _, ∅) <$> l2)).
Proof.
  revert l1. induction l2 as [|d l2 IH]; intros l1; cbn; [done|].
  rewrite <-(Nat.add_0_r (length l1)), alter_app_r, Nat.add_0_r. cbn.
  specialize (IH (l1 ++ [∅])). by rewrite length_app, Nat.add_1_r, <-!(assoc_L (++)) in IH.
Qed.

Lemma run_insert_entries p es : ∀ shards,
  run_alone (insert_entries es p) shards = run_alone p (foldl (insert_in_shard hash) shards es).
Proof. induction es as [|e es IH]; intros shards; [done|]. apply IH. Qed.

Section run.
  Context (iterate_spec : ∀ m, iterate m ≡ₚ map_to_list m).
  Context (shards : list (gmap bytes bytes)) (Hlen : length shards = Z.to_nat kShardCount).

Lemma run_collect_all (k : gmap bytes bytes → prog) :
  run_alone (collect all_shards ∅ k) shards = run_alone (k (all_data shards)) shards.
Proof. unfold all_shards. rewrite <-Hlen. apply (run_collect k [] shards). Qed.

Lemma run_count_all (k : Z → prog) :
  run_alone (count all_shards 0 k) shards
  = run_alone (k (foldl (λ size data, size + Z.of_nat (base.size data)) 0 shards)) shards.
Proof. unfold all_shards. rewrite <-Hlen. apply (run_count k [] shards). Qed.

Lemma run_clear_all p : run_alone (clear_shards all_shards p) shards = run_alone p ((λ _, ∅) <$> shards).
Proof. unfold all_shards. rewrite <-Hlen. apply (run_clear_shards p [] shards). Qed.

(** [ReplaceDataLocked], which leaves shards in order that hold the new data. *)
Lemma run_replace_data data p :
  ∃ shards', run_alone (replace_data data p) shards = run_alone p shards' ∧
             shards_ok hash shards' ∧ all_data shards' = data.
Proof.
  unfold replace_data. rewrite run_clear_all, run_insert_entries. eexists. split; [done|].
  destruct (foldl_insert_in_shard hash (iterate data) _ (shards_ok_empty hash shards Hlen)) as [Hok Hd].
  split; [done|]. rewrite Hd, all_data_empty, (left_id_L ∅ (∪)). by apply list_to_map_iterate.
Qed.

Lemma run_count_map (k : Z → prog) :
  shards_ok hash shards →
  run_alone (count all_shards 0 k) shards
  = run_alone (k (Z.of_nat (base.size (all_data shards)))) shards.
Proof.
  intros [_ Hk]. rewrite run_count_all. do 2 f_equal. apply (size_general hash _ O).
  - intros i d key Hi Hs. by rewrite (Hk i d key).
  - intros key. rewrite lookup_empty. by intros [? ?].
  - by rewrite map_size_empty.
Qed.

End run.

(** The shards hold a map, and a call that runs alone does to it what [atomic]
    does. *)
Definition performs (p : prog) (effect : gmap bytes bytes → gmap bytes bytes * reply) : Prop :=
  ∀ shards, shards_ok hash shards →
    shards_ok hash (run_alone p shards).1 ∧
    (all_data (run_alone p shards).1, (run_alone p shards).2) = effect (all_data shards).

Lemma run_check_error o p shards :
  run_alone (check_error o p) shards
  = if has_snapshot && checkpoint_failed o then (shards, Threw) else run_alone p shards.
Proof. unfold check_error. destruct has_snapshot, (checkpoint_failed o); done. Qed.

Lemma run_schedule_if_due o p shards : run_alone (schedule_if_due o p) shards = run_alone p shards.
Proof. unfold schedule_if_due. by destruct (has_snapshot && _). Qed.

Lemma run_append_wal o failed p shards :
  run_alone (append_wal o failed p) shards = run_alone (if wal_throws o then failed else p) shards.
Proof. unfold append_wal, wal_throws. by destruct has_wal, (wal_outcome_ o). Qed.

Lemma run_wal_current_offset o failed p shards :
  run_alone (wal_current_offset o failed p) shards = run_alone (if wal_throws o then failed else p) shards.
Proof. unfold wal_current_offset, under_wal_mutex, wal_throws. by destruct has_wal, (wal_outcome_ o). Qed.

Lemma run_wal_clear o failed p shards :
  run_alone (wal_clear o failed p) shards = run_alone (if wal_throws o then failed else p) shards.
Proof. unfold wal_clear, under_wal_mutex, wal_throws. by destruct has_wal, (wal_outcome_ o). Qed.

Lemma run_touch_snapshot o m failed p shards :
  run_alone (touch_snapshot o m failed p) shards = run_alone (if snapshot_throws o then failed else p) shards.
Proof. done. Qed.

Lemma run_with_all_shards m body leave shards :
  run_alone (with_all_shards m body leave) shards
  = run_alone (body (λ r, unlock_shards all_shards (leave r))) shards.
Proof. apply run_lock_shards. Qed.

Lemma run_with_snapshot_mutex body shards :
  run_alone (with_snapshot_mutex body) shards
  = run_alone (body (λ r, unlock_shards all_shards (Release AdminMutex (Release SnapshotMutex (Return r))))) shards.
Proof. unfold with_snapshot_mutex, with_admin. cbn [touch_checkpoint run_alone]. apply run_with_all_shards. Qed.

(** A write: the log, then the shard of its key. *)
Lemma performs_write o (key : bytes) (f g : gmap bytes bytes → gmap bytes bytes) (r : gmap bytes bytes → reply) shards :
  shards_ok hash shards →
  shards_ok hash (alter f (index key) shards) →
  all_data (alter f (index key) shards) = g (all_data shards) →
  r (shard_at (index key) shards) = r (all_data shards) →
  let p := check_error o (Acquire (ShardMutex (index key)) Exclusive
    (append_wal o (Release (ShardMutex (index key)) (Return Threw))
       (Access (index key) Exclusive f (λ d,
          schedule_if_due o (Release (ShardMutex (index key)) (Return (r d))))))) in
  shards_ok hash (run_alone p shards).1 ∧
  (all_data (run_alone p shards).1, (run_alone p shards).2)
  = (if write_refused o then (all_data shards, Threw) else (g (all_data shards), r (all_data shards))).
Proof.
  intros Hok Hok' Hg Hr p. unfold p. rewrite run_check_error. unfold write_refused.
  destruct (has_snapshot && _); [done|]. cbn [run_alone orb].
  rewrite run_append_wal. destruct (wal_throws o); [done|]. cbn [run_alone].
  rewrite run_schedule_if_due. cbn [run_alone fst snd]. by rewrite Hg, Hr.
Qed.

Lemma Set_performs o key value : performs (program (CallSet key value) o) (atomic (CallSet key value) o).
Proof.
  intros shards Hok.
  apply (performs_write o key (insert key value) (insert key value) (λ _, Done)); [done| | |done].
  - apply shards_ok_alter; [done|intros ? ?; apply insert_keys].
  - by apply all_data_insert.
Qed.

Lemma Delete_performs o key : performs (program (CallDelete key) o) (atomic (CallDelete key) o).
Proof.
  intros shards Hok.
  apply (performs_write o key (delete key) (delete key) (λ d, Answer (bool_decide (is_Some (d !! key))))); [done| | |].
  - apply shards_ok_alter; [done|intros ? ?; apply delete_keys].
  - by apply all_data_delete.
  - by rewrite (all_data_lookup hash).
Qed.

(** Calls that keep the map: what they reply. *)
Lemma performs_same p m r shards :
  shards_ok hash shards → run_alone p shards = (shards, r) → all_data shards = m →
  shards_ok hash (run_alone p shards).1 ∧ (all_data (run_alone p shards).1, (run_alone p shards).2) = (m, r).
Proof. intros Hok -> <-. done. Qed.

Lemma ClearPersistence_performs o : performs (program CallClearPersistence o) (atomic CallClearPersistence o).
Proof.
  intros shards Hok. apply performs_same; [done| |done]. cbn [program]. rewrite run_with_snapshot_mutex, run_wal_clear.
  destruct (wal_throws o); [apply run_unlock_shards|]. destruct has_snapshot; [|apply run_unlock_shards].
  rewrite run_touch_snapshot. destruct (snapshot_throws o); apply run_unlock_shards.
Qed.

Lemma SaveSnapshot_performs o : performs (program CallSaveSnapshot o) (atomic CallSaveSnapshot o).
Proof.
  intros shards Hok. apply performs_same; [done| |done]. cbn [program]. rewrite run_with_snapshot_mutex.
  destruct has_snapshot; [|apply run_unlock_shards].
  rewrite run_wal_current_offset. destruct (wal_throws o); [apply run_unlock_shards|].
  rewrite run_collect_all by apply Hok. rewrite run_touch_snapshot.
  destruct (snapshot_throws o); apply run_unlock_shards.
Qed.

Lemma CompactPersistence_performs o :
  performs (program CallCompactPersistence o) (atomic CallCompactPersistence o).
Proof.
  intros shards Hok. apply performs_same; [done| |done]. cbn [program]. rewrite run_with_snapshot_mutex.
  destruct has_snapshot; [|apply run_unlock_shards].
  rewrite run_collect_all by apply Hok. rewrite run_touch_snapshot.
  destruct (snapshot_throws o); [rewrite orb_true_r; apply run_unlock_shards|].
  rewrite run_wal_clear, orb_false_r. destruct (wal_throws o); apply run_unlock_shards.
Qed.

Lemma CheckpointRound_performs o : performs (program CheckpointRound o) (atomic CheckpointRound o).
Proof.
  intros shards Hok. apply performs_same; [done| |done]. cbn [program].
  unfold checkpoint_program. cbn [touch_checkpoint run_alone].
  destruct (checkpoint_cancelled o); [done|]. cbn [run_alone].
  rewrite run_lock_shards, run_collect_all, run_wal_current_offset by apply Hok.
  destruct (wal_throws o); rewrite run_unlock_shards; [done|]. cbn. by destruct (snapshot_throws o).
Qed.

Section replacing.
  Context (iterate_spec : ∀ m, iterate m ≡ₚ map_to_list m).

Lemma LoadSnapshot_performs o data : performs (program (CallLoadSnapshot data) o) (atomic (CallLoadSnapshot data) o).
Proof.
  intros shards Hok. cbn [program atomic]. rewrite run_with_snapshot_mutex, run_touch_snapshot.
  destruct (snapshot_throws o); [by apply performs_same; [|apply run_unlock_shards|]|].
  destruct (run_replace_data iterate_spec shards (proj1 Hok) data (unlock_shards all_shards
    (Release AdminMutex (Release SnapshotMutex (Return Done))))) as (shards' & -> & Hok' & <-).
  by rewrite run_unlock_shards.
Qed.

Lemma ReplayFromWal_performs o replay :
  performs (program (CallReplayFromWal replay) o) (atomic (CallReplayFromWal replay) o).
Proof.
  intros shards Hok. cbn [program atomic]. unfold with_admin. cbn [run_alone].
  rewrite run_with_all_shards, run_collect_all by apply Hok. cbn [run_alone].
  destruct (wal_outcome_ o); [|by apply performs_same; [|apply run_unlock_shards|]..].
  destruct (run_replace_data iterate_spec shards (proj1 Hok) (replay (all_data shards)).1 (unlock_shards all_shards
    (Release AdminMutex (Return (Count (replay (all_data shards)).2))))) as (shards' & -> & Hok' & <-).
  by rewrite run_unlock_shards.
Qed.

(** Every call that runs alone does to the map what [atomic] does. *)
Lemma program_performs c o : performs (program c o) (atomic c o).
Proof.
  destruct c as [key value|key|key|key| | | | | |data|replay|];
    [apply Set_performs| |apply Delete_performs| | | |apply ClearPersistence_performs|apply SaveSnapshot_performs
    |apply CompactPersistence_performs|apply LoadSnapshot_performs|apply ReplayFromWal_performs
    |apply CheckpointRound_performs]; intros shards Hok; cbn [program atomic].
  - apply performs_same; [done| |done]. cbn. by rewrite alter_same, (all_data_lookup hash).
  - apply performs_same; [done| |done]. cbn. by rewrite alter_same, (all_data_lookup hash).
  - apply performs_same; [done| |done]. rewrite run_with_all_shards, run_count_map by (done || apply Hok).
    apply run_unlock_shards.
  - unfold with_admin. cbn [run_alone]. rewrite run_with_all_shards, run_clear_all, run_unlock_shards by apply Hok.
    cbn [run_alone fst snd]. rewrite all_data_empty. split; [|done].
    exact (shards_ok_empty hash shards (proj1 Hok)).
Qed.

End replacing.

(** ** The discipline *)

(** The locks after [lock_shards], and after [unlock_shards]. *)
Definition locked (m : mode) (ids : list nat) (h : held) : held :=
  foldl (λ h i, <[ShardMutex i := m]> h) h ids.
Definition unlocked (ids : list nat) (h : held) : held := foldl (λ h i, delete (ShardMutex i) h) h ids.

Lemma lookup_locked m ids l : ∀ h,
  locked m ids h !! l = if decide (l ∈ ShardMutex <$> ids) then Some m else h !! l.
Proof.
  unfold locked, unlocked. induction ids as [|i ids IH]; intros h; cbn; [done|]. rewrite IH.
  repeat case_decide; [done|set_solver| |].
  - assert (l = ShardMutex i) as -> by set_solver. by rewrite lookup_insert_eq.
  - rewrite lookup_insert_ne by set_solver. done.
Qed.

Lemma lookup_unlocked ids l : ∀ h,
  unlocked ids h !! l = if decide (l ∈ ShardMutex <$> ids) then None else h !! l.
Proof.
  unfold locked, unlocked. induction ids as [|i ids IH]; intros h; cbn; [done|]. rewrite IH.
  repeat case_decide; [done|set_solver| |].
  - assert (l = ShardMutex i) as -> by set_solver. by rewrite lookup_delete_eq.
  - rewrite lookup_delete_ne by set_solver. done.
Qed.

Lemma unlocked_locked m ids h :
  (∀ l, is_Some (h !! l) → l ∉ ShardMutex <$> ids) → unlocked ids (locked m ids h) = h.
Proof.
  intros Hh. apply map_eq. intros l. rewrite lookup_unlocked, lookup_locked.
  case_decide as Hl; [|done]. symmetry. apply eq_None_not_Some. intros Hs. by apply (Hh l Hs).
Qed.

Lemma disciplined_lock_shards m p n : ∀ k h,
  (∀ l, is_Some (h !! l) → (lock_rank l < 2 + k)%nat) → (k + n <= 64)%nat →
  disciplined false (locked m (seq k n) h) p → disciplined false h (lock_shards m (seq k n) p).
Proof.
  induction n as [|n IH]; intros k h Hh Hk Hp; [done|]. cbn.
  split; [apply Hh|]. split; [lia|]. split; [done|]. apply IH; [|lia|done].
  intros l [m' [[<- <-]|[_ Hl]]%lookup_insert_Some]; [cbn; lia|].
  specialize (Hh l (mk_is_Some _ _ Hl)). lia.
Qed.

Lemma disciplined_unlock_shards working p ids : ∀ h,
  (∀ i, i ∈ ids → is_Some (h !! ShardMutex i)) → NoDup ids →
  disciplined working (unlocked ids h) p → disciplined working h (unlock_shards ids p).
Proof.
  induction ids as [|i ids IH]; intros h Hh Hnd Hp; [done|]. apply NoDup_cons in Hnd as [Hi Hnd].
  cbn. split; [apply Hh; set_solver|]. apply IH; [|done|done].
  intros j Hj. rewrite lookup_delete_ne by set_solver. apply Hh. set_solver.
Qed.

(** All shards locked on top of the locks of lower rank. *)
Definition low (h : held) : Prop := ∀ l, is_Some (h !! l) → (lock_rank l < 2)%nat.

Lemma elem_of_all_shards i : i ∈ all_shards ↔ (i < Z.to_nat kShardCount)%nat.
Proof. unfold all_shards. rewrite elem_of_seq. lia. Qed.

Lemma low_locked m h : low h → unlocked all_shards (locked m all_shards h) = h.
Proof.
  intros Hh. apply unlocked_locked. intros l Hl (i & -> & _)%list_elem_of_fmap.
  specialize (Hh _ Hl). cbn in Hh. lia.
Qed.

Lemma locked_shard m h i : (i < Z.to_nat kShardCount)%nat → locked m all_shards h !! ShardMutex i = Some m.
Proof.
  intros Hi. rewrite lookup_locked, decide_True; [done|].
  apply list_elem_of_fmap_2, elem_of_all_shards, Hi.
Qed.

Lemma locked_other m h l : is_shard l = false → locked m all_shards h !! l = h !! l.
Proof.
  intros Hl. rewrite lookup_locked, decide_False; [done|].
  intros (i & -> & _)%list_elem_of_fmap. done.
Qed.

Lemma disciplined_lock_all m p h :
  low h → disciplined false (locked m all_shards h) p → disciplined false h (lock_shards m all_shards p).
Proof. intros Hh Hp. by apply (disciplined_lock_shards m p 64 0 h). Qed.

Lemma disciplined_unlock_all working m p h :
  low h → disciplined working h p →
  disciplined working (locked m all_shards h) (unlock_shards all_shards p).
Proof.
  intros Hh Hp. apply disciplined_unlock_shards.
  - intros i Hi%elem_of_all_shards. rewrite locked_shard by done. eauto.
  - apply NoDup_seq.
  - by rewrite low_locked.
Qed.

Lemma permits_locked m i h :
  (i < Z.to_nat kShardCount)%nat → permits_shard i m (locked m all_shards h).
Proof. intros Hi. unfold permits_shard. rewrite locked_shard by done. destruct m; auto. Qed.

Lemma disciplined_weaken p : ∀ h working, disciplined true h p → disciplined working h p.
Proof.
  induction p as [r|l m p IH|l p IH|x m p IH|i m f next IH]; intros h working; cbn; [done|..|done].
  - intros (? & ? & Hs & ?). repeat split; auto.
  - intros []. auto.
  - intros []. auto.
Qed.

(** All locks held are of rank below [n]. *)
Definition below (n : nat) (h : held) : Prop := ∀ l, is_Some (h !! l) → (lock_rank l < n)%nat.

Lemma below_empty n : below n ∅.
Proof. intros l [m Hl]. by rewrite lookup_empty in Hl. Qed.

Lemma below_insert n l m h : below n h → (lock_rank l < n)%nat → below n (<[l := m]> h).
Proof. intros Hh Hl l' [m' [[<- <-]|[_ H']]%lookup_insert_Some]; [done|]. eauto using mk_is_Some. Qed.

Lemma below_weaken n n' h : below n h → (n <= n')%nat → below n' h.
Proof. intros Hh Hn l Hl. specialize (Hh l Hl). lia. Qed.

Lemma below_locked m h : low h → below 66 (locked m all_shards h).
Proof.
  intros Hh l. rewrite lookup_locked. case_decide as Hl; [|intros H; specialize (Hh l H); lia].
  apply list_elem_of_fmap in Hl as (i & -> & Hi%elem_of_all_shards). unfold kShardCount in Hi. cbn. lia.
Qed.

Lemma release_top l m h : below (lock_rank l) h → delete l (<[l := m]> h) = h.
Proof.
  intros Hh. apply delete_insert_id, eq_None_not_Some. intros Hl. specialize (Hh l Hl). lia.
Qed.

Lemma disciplined_touch_checkpoint working h m p :
  below 66 h → disciplined working h p → disciplined working h (touch_checkpoint m p).
Proof.
  intros Hh Hp. cbn. split; [done|]. split; [lia|]. split; [done|]. split; [apply lookup_insert_eq|].
  split; [rewrite lookup_insert_eq; eauto|]. by rewrite (release_top CheckpointMutex).
Qed.

(** [body] touches the log. *)
Lemma disciplined_under_wal_mutex working h o body failed p :
  below 67 h →
  (∀ p, disciplined working (<[WalMutex := Exclusive]> h) p →
        disciplined working (<[WalMutex := Exclusive]> h) (body p)) →
  disciplined working h failed → disciplined working h p →
  disciplined working h (under_wal_mutex o body failed p).
Proof.
  intros Hh Hb Hf Hp. unfold under_wal_mutex. destruct has_wal; [|done]. cbn.
  split; [done|]. split; [lia|]. split; [done|]. apply Hb. cbn.
  split; [rewrite lookup_insert_eq; eauto|]. rewrite (release_top WalMutex) by done.
  by destruct (wal_outcome_ o).
Qed.

Lemma disciplined_collect working h (ids : list nat) (k : gmap bytes bytes → prog) : ∀ result,
  (∀ i, i ∈ ids → permits_shard i Shared h) → (∀ m, disciplined true h (k m)) →
  disciplined working h (collect ids result k).
Proof.
  clear iterate. revert working. induction ids as [|i ids IH]; intros working result Hids Hk; cbn.
  - by apply disciplined_weaken.
  - split; [apply Hids; set_solver|]. split; [done|]. intros d. apply IH; [set_solver|done].
Qed.

Lemma disciplined_count working h (ids : list nat) (k : Z → prog) : ∀ n,
  (∀ i, i ∈ ids → permits_shard i Shared h) → (∀ n, disciplined true h (k n)) →
  disciplined working h (count ids n k).
Proof.
  revert working. induction ids as [|i ids IH]; intros working n Hids Hk; cbn.
  - by apply disciplined_weaken.
  - split; [apply Hids; set_solver|]. split; [done|]. intros d. apply IH; [set_solver|done].
Qed.

Lemma disciplined_clear_shards working h (ids : list nat) p :
  (∀ i, i ∈ ids → permits_shard i Exclusive h) → disciplined true h p →
  disciplined working h (clear_shards ids p).
Proof.
  revert working. induction ids as [|i ids IH]; intros working Hids Hp; cbn.
  - by apply disciplined_weaken.
  - split; [apply Hids; set_solver|]. split; [done|]. intros _. apply IH; [set_solver|done].
Qed.

Lemma disciplined_insert_entries working h (es : list (bytes * bytes)) p :
  (∀ i, (i < Z.to_nat kShardCount)%nat → permits_shard i Exclusive h) → disciplined true h p →
  disciplined working h (insert_entries es p).
Proof.
  revert working. induction es as [|e es IH]; intros working Hh Hp; cbn.
  - by apply disciplined_weaken.
  - split; [apply Hh, (index_lt hash)|]. split; [done|]. intros _. by apply IH.
Qed.

Lemma disciplined_replace_data working h (data : gmap bytes bytes) p :
  (∀ i, (i < Z.to_nat kShardCount)%nat → permits_shard i Exclusive h) → disciplined true h p →
  disciplined working h (replace_data data p).
Proof.
  intros Hh Hp. apply disciplined_clear_shards; [intros i Hi%elem_of_all_shards; auto|].
  by apply disciplined_insert_entries.
Qed.

(** The calls that lock one shard. *)
Definition one_shard (i : nat) (m : mode) : held := {[ ShardMutex i := m ]}.

Lemma disciplined_lock_one i m p :
  (i < Z.to_nat kShardCount)%nat → disciplined false (one_shard i m) p →
  disciplined false ∅ (Acquire (ShardMutex i) m p).
Proof.
  unfold kShardCount. intros Hi Hp. cbn. split; [intros l [m' Hl]; by rewrite lookup_empty in Hl|].
  split; [lia|]. done.
Qed.

Lemma disciplined_unlock_one working i m p :
  disciplined working ∅ p → disciplined working (one_shard i m) (Release (ShardMutex i) p).
Proof.
  intros Hp. cbn. unfold one_shard. split; [rewrite lookup_singleton_eq; eauto|].
  by rewrite delete_singleton_eq.
Qed.

Lemma one_shard_permits i m : permits_shard i m (one_shard i m).
Proof. unfold permits_shard, one_shard. rewrite lookup_singleton_eq. destruct m; auto. Qed.

Lemma one_shard_below i m : (i < Z.to_nat kShardCount)%nat → below 66 (one_shard i m).
Proof.
  unfold kShardCount. intros Hi l. unfold one_shard. intros [m' [<- <-]%lookup_singleton_Some]. cbn. lia.
Qed.

Lemma disciplined_check_error o p : disciplined false ∅ p → disciplined false ∅ (check_error o p).
Proof.
  intros Hp. unfold check_error. destruct has_snapshot; [|done].
  apply disciplined_touch_checkpoint; [apply below_empty|]. by destruct (checkpoint_failed o).
Qed.

Lemma disciplined_schedule_if_due working i o p :
  (i < Z.to_nat kShardCount)%nat → disciplined working (one_shard i Exclusive) p →
  disciplined working (one_shard i Exclusive) (schedule_if_due o p).
Proof.
  intros Hi Hp. unfold schedule_if_due. destruct (has_snapshot && _); [|done].
  apply disciplined_touch_checkpoint; [by apply one_shard_below|done].
Qed.

Lemma disciplined_append_wal i o failed p :
  (i < Z.to_nat kShardCount)%nat →
  disciplined false (one_shard i Exclusive) failed → disciplined false (one_shard i Exclusive) p →
  disciplined false (one_shard i Exclusive) (append_wal o failed p).
Proof.
  intros Hi Hf Hp.
  assert (holds_some_shard (one_shard i Exclusive)) as Hs by (exists i; split; [done|apply lookup_singleton_eq]).
  assert (∀ q, disciplined false (one_shard i Exclusive) q →
               disciplined false (one_shard i Exclusive)
                 (Acquire WalMutex Exclusive (Touch WalFile Exclusive (Release WalMutex q)))) as Hw.
  { intros q Hq. pose proof (one_shard_below i Exclusive Hi) as Hb.
    assert (below 67 (one_shard i Exclusive)) as Hb' by (eapply below_weaken; [done|lia]).
    cbn. split; [done|]. split; [lia|]. split; [done|]. split.
    - left. split; [apply lookup_insert_eq|]. exists i. split; [done|].
      rewrite lookup_insert_ne by done. apply lookup_singleton_eq.
    - split; [rewrite lookup_insert_eq; eauto|]. by rewrite (release_top WalMutex). }
  unfold append_wal. destruct has_wal; [|done]. split; [by left|].
  destruct (wal_outcome_ o); auto.
Qed.

Lemma disciplined_write o (key : bytes) (f : gmap bytes bytes → gmap bytes bytes) (r : gmap bytes bytes → reply) :
  disciplined false ∅
    (check_error o (Acquire (ShardMutex (index key)) Exclusive
      (append_wal o (Release (ShardMutex (index key)) (Return Threw))
         (Access (index key) Exclusive f (λ d,
            schedule_if_due o (Release (ShardMutex (index key)) (Return (r d)))))))).
Proof.
  pose proof (index_lt hash key) as Hi.
  apply disciplined_check_error, disciplined_lock_one; [done|].
  apply disciplined_append_wal; [done|by apply disciplined_unlock_one|].
  split; [apply one_shard_permits|]. split; [done|]. intros d.
  apply disciplined_schedule_if_due; [done|]. by apply disciplined_unlock_one.
Qed.

Lemma disciplined_read (key : bytes) (r : gmap bytes bytes → reply) :
  disciplined false ∅
    (Acquire (ShardMutex (index key)) Shared (Access (index key) Shared (λ d, d) (λ d,
      Release (ShardMutex (index key)) (Return (r d))))).
Proof.
  apply disciplined_lock_one; [apply index_lt|]. split; [apply one_shard_permits|]. split; [done|].
  intros d. by apply disciplined_unlock_one.
Qed.

(** The calls that lock all shards. A body may leave at any point. *)
Lemma disciplined_with_all_shards m h body leave :
  low h → (∀ working r, disciplined working h (leave r)) →
  (∀ exit, (∀ working r, disciplined working (locked m all_shards h) (exit r)) →
           disciplined false (locked m all_shards h) (body exit)) →
  disciplined false h (with_all_shards m body leave).
Proof.
  intros Hh Hl Hb. apply disciplined_lock_all; [done|]. apply Hb. intros working r.
  by apply disciplined_unlock_all.
Qed.

(** The locks of the administrative calls. *)
Local Abbreviation admin_locks h := (locked Exclusive all_shards (<[AdminMutex := Exclusive]> h)).

Lemma disciplined_with_admin h body leave :
  below 1 h → (∀ working r, disciplined working h (leave r)) →
  (∀ exit, (∀ working r, disciplined working (admin_locks h) (exit r)) →
           disciplined false (admin_locks h) (body exit)) →
  disciplined false h (with_admin body leave).
Proof.
  intros Hh Hl Hb. split; [done|]. split; [cbn; lia|]. split; [done|].
  apply disciplined_with_all_shards; [|intros working r|done].
  - apply (below_insert 2); [apply (below_weaken 1); [done|lia]|cbn; lia].
  - split; [rewrite lookup_insert_eq; eauto|]. by rewrite (release_top AdminMutex).
Qed.

Definition snapshot_lock : held := {[ SnapshotMutex := Exclusive ]}.

Lemma snapshot_lock_below n : (0 < n)%nat → below n snapshot_lock.
Proof. unfold snapshot_lock. intros Hn l [m [<- <-]%lookup_singleton_Some]. done. Qed.

Lemma disciplined_with_snapshot_mutex body :
  (∀ exit, (∀ working r, disciplined working (admin_locks snapshot_lock) (exit r)) →
           disciplined false (admin_locks snapshot_lock) (body exit)) →
  disciplined false ∅ (with_snapshot_mutex body).
Proof.
  intros Hb. split; [intros l Hl; exfalso; by apply (below_empty 0 l) in Hl; lia|].
  split; [cbn; lia|]. split; [done|].
  apply disciplined_touch_checkpoint; [by apply (snapshot_lock_below 66); lia|].
  apply disciplined_with_admin; [apply snapshot_lock_below; lia|intros working r|done].
  split; [rewrite lookup_insert_eq; eauto|]. by rewrite (release_top SnapshotMutex) by apply below_empty.
Qed.

(** What the administrative calls may do while they hold their locks. *)
Section admin.
  Context (h : held) (Hh : below 1 h).

Lemma admin_low : low (<[AdminMutex := Exclusive]> h).
Proof. apply (below_insert 2); [apply (below_weaken 1); [done|lia]|cbn; lia]. Qed.

Lemma admin_shards i : (i < Z.to_nat kShardCount)%nat → admin_locks h !! ShardMutex i = Some Exclusive.
Proof. intros Hi. by apply locked_shard. Qed.

Lemma admin_permits i m : (i < Z.to_nat kShardCount)%nat → permits_shard i m (admin_locks h).
Proof. intros Hi. left. by apply admin_shards. Qed.

Lemma admin_below : below 66 (admin_locks h).
Proof. apply below_locked, admin_low. Qed.

Lemma disciplined_admin_collect working (k : gmap bytes bytes → prog) :
  (∀ m, disciplined true (admin_locks h) (k m)) →
  disciplined working (admin_locks h) (collect all_shards ∅ k).
Proof. intros Hk. apply disciplined_collect; [|done]. intros i Hi%elem_of_all_shards. by apply admin_permits. Qed.

Lemma disciplined_admin_replace working (data : gmap bytes bytes) p :
  disciplined true (admin_locks h) p → disciplined working (admin_locks h) (replace_data data p).
Proof. intros Hp. apply disciplined_replace_data; [|done]. intros i. apply admin_permits. Qed.

Lemma disciplined_admin_wal working o body failed p :
  (∀ p, disciplined working (<[WalMutex := Exclusive]> (admin_locks h)) p →
        disciplined working (<[WalMutex := Exclusive]> (admin_locks h)) (body p)) →
  disciplined working (admin_locks h) failed → disciplined working (admin_locks h) p →
  disciplined working (admin_locks h) (under_wal_mutex o body failed p).
Proof. apply disciplined_under_wal_mutex. apply (below_weaken 66); [apply admin_below|lia]. Qed.

Lemma admin_holds_shards (m : mode) : holds_shards (<[WalMutex := m]> (admin_locks h)).
Proof. intros i Hi. rewrite lookup_insert_ne by done. by apply admin_shards. Qed.

Lemma disciplined_admin_offset working o failed p :
  disciplined working (admin_locks h) failed → disciplined working (admin_locks h) p →
  disciplined working (admin_locks h) (wal_current_offset o failed p).
Proof. apply disciplined_admin_wal. intros q Hq. split; [right; apply admin_holds_shards|done]. Qed.

Lemma disciplined_admin_clear working o failed p :
  disciplined working (admin_locks h) failed → disciplined working (admin_locks h) p →
  disciplined working (admin_locks h) (wal_clear o failed p).
Proof. apply disciplined_admin_wal. intros q Hq. by split; [|split]; [right; apply admin_holds_shards..|]. Qed.

End admin.

Lemma disciplined_touch_snapshot working h o m failed p :
  h !! SnapshotMutex = Some Exclusive → disciplined working h failed → disciplined working h p →
  disciplined working h (touch_snapshot o m failed p).
Proof. intros Hh Hf Hp. split; [done|]. by destruct (snapshot_throws o). Qed.

Lemma admin_snapshot_lock : admin_locks snapshot_lock !! SnapshotMutex = Some Exclusive.
Proof.
  rewrite locked_other, lookup_insert_ne by done. apply lookup_singleton_eq.
Qed.

Lemma disciplined_checkpoint o : disciplined false ∅ (checkpoint_program o).
Proof.
  assert (∀ working m p, disciplined working ∅ p → disciplined working ∅ (touch_checkpoint m p)) as Hte
    by (intros; by apply disciplined_touch_checkpoint; [apply below_empty|]).
  assert (∀ working p, disciplined working ∅ p → disciplined working snapshot_lock (Release SnapshotMutex p)) as Hrel.
  { intros working p Hp. split; [unfold snapshot_lock; rewrite lookup_singleton_eq; eauto|].
    unfold snapshot_lock. by rewrite delete_singleton_eq. }
  assert (∀ (failed working : bool) r, disciplined working snapshot_lock
    (Release SnapshotMutex (if failed then touch_checkpoint Exclusive (touch_checkpoint Exclusive (Return r))
                            else touch_checkpoint Exclusive (Return r)))) as Hleave.
  { intros failed working r. apply Hrel. destruct failed; [apply Hte, Hte|apply Hte]; reflexivity. }
  assert (∀ working p, disciplined working snapshot_lock p →
    disciplined working (admin_locks snapshot_lock) (unlock_shards all_shards (Release AdminMutex p))) as Hun.
  { intros working p Hp. apply disciplined_unlock_all; [apply admin_low, snapshot_lock_below; lia|].
    split; [rewrite lookup_insert_eq; eauto|]. rewrite release_top; [done|].
    apply snapshot_lock_below. cbn. lia. }
  unfold checkpoint_program. apply Hte. split; [intros l [m Hl]; by rewrite lookup_empty in Hl|].
  split; [cbn; lia|]. split; [done|].
  apply disciplined_touch_checkpoint; [apply (snapshot_lock_below 66); lia|].
  destruct (checkpoint_cancelled o); [apply (Hleave false)|].
  split; [apply (snapshot_lock_below 1); lia|]. split; [cbn; lia|]. split; [done|].
  apply disciplined_lock_all; [apply admin_low, snapshot_lock_below; lia|].
  apply disciplined_admin_collect. intros data.
  apply disciplined_admin_offset; [apply snapshot_lock_below; lia|apply Hun, (Hleave true)|].
  apply Hun, disciplined_touch_snapshot; [apply lookup_singleton_eq|apply (Hleave true)|apply (Hleave false)].
Qed.

(** Every call keeps to the discipline. *)
Lemma program_disciplined c o : disciplined false ∅ (program c o).
Proof.
  assert (below 1 snapshot_lock) as Hsnap by (apply snapshot_lock_below; lia).
  pose proof admin_snapshot_lock as Hs.
  destruct c as [key value|key|key|key| | | | | |data|replay|]; cbn [program].
  - apply (disciplined_write o key _ (λ _, Done)).
  - apply (disciplined_read key (λ d, Value (d !! key))).
  - apply (disciplined_write o key _ (λ d, Answer _)).
  - apply (disciplined_read key (λ d, Answer _)).
  - apply disciplined_with_all_shards; [apply below_empty|done|]. intros exit Hexit.
    apply disciplined_count; [|auto]. intros i Hi%elem_of_all_shards. by apply permits_locked.
  - apply disciplined_with_admin; [apply below_empty|done|]. intros exit Hexit.
    apply disciplined_clear_shards; [|auto]. intros i Hi%elem_of_all_shards. by apply admin_permits.
  - apply disciplined_with_snapshot_mutex. intros exit Hexit. apply disciplined_admin_clear; [done..|].
    destruct has_snapshot; [|done]. by apply disciplined_touch_snapshot.
  - apply disciplined_with_snapshot_mutex. intros exit Hexit. destruct has_snapshot; [|done].
    apply disciplined_admin_offset; [done..|]. apply disciplined_admin_collect. intros _.
    by apply disciplined_touch_snapshot.
  - apply disciplined_with_snapshot_mutex. intros exit Hexit. destruct has_snapshot; [|done].
    apply disciplined_admin_collect. intros _. apply disciplined_touch_snapshot; [done..|].
    by apply disciplined_admin_clear.
  - apply disciplined_with_snapshot_mutex. intros exit Hexit. apply disciplined_touch_snapshot; [done..|].
    by apply disciplined_admin_replace.
  - apply disciplined_with_admin; [apply below_empty|done|]. intros exit Hexit.
    apply disciplined_admin_collect. intros m. split; [right; intros i; apply admin_shards|].
    destruct (wal_outcome_ o); [|done..]. by apply disciplined_admin_replace.
  - apply disciplined_checkpoint.
Qed.

End programs.
