(* ===== verification/StoreAssignment.v ===== *)
(** * Stores that are copied, moved and assigned to

    The constructors and assignment operators of [src/store/kv_store.cpp] that take
    another store, with their locks, among the other calls of any number of stores.
    An assignment locks [mutex_] of both stores with [std::lock], which takes both
    or waits with neither, and then the shards of the assigned store before those
    of the other. The programs of the calls on one store are those of [StoreCalls];
    here they run on a store and a log, and stores may share a log. *)

From Stdlib Require Import Wellfounded.
From S2P Require Import Prelude Machine BinaryIO Crc WalFormat WalReplay SnapshotFile Journal KVStore StoreSharding.
From S2P Require Import StoreLocks StoreCalls.

(** ** Programs on several stores *)

(** A lock of a store; [WalMutex] is numbered by the log. *)
Abbreviation place := (nat * store_lock)%type.
Abbreviation holding := (gmap place mode).

(** Several locks at once is [std::lock]. *)
Inductive mprog :=
| MReturn (r : reply)
| MAcquire (ls : list (place * mode)) (p : mprog)
| MRelease (l : place) (p : mprog)
| MAccess (s i : nat) (m : mode) (f : gmap bytes bytes → gmap bytes bytes) (next : gmap bytes bytes → mprog).

Definition place_of (s g : nat) (l : store_lock) : place :=
  match l with WalMutex => (g, WalMutex) | _ => (s, l) end.

(** A call of store [s] that uses the log [g]. *)
Fixpoint on (s g : nat) (p : prog) : mprog :=
  match p with
  | Return r => MReturn r
  | Acquire l m p => MAcquire [(place_of s g l, m)] (on s g p)
  | Release l p => MRelease (place_of s g l) (on s g p)
  | Touch _ _ p => on s g p
  | Access i m f next => MAccess s i m f (λ d, on s g (next d))
  end.

(** A call that runs alone. *)
Fixpoint mrun_alone (p : mprog) (stores : gmap nat (list (gmap bytes bytes)))
    : gmap nat (list (gmap bytes bytes)) * reply :=
  match p with
  | MReturn r => (stores, r)
  | MAcquire _ p | MRelease _ p => mrun_alone p stores
  | MAccess s i _ f next =>
      mrun_alone (next (shard_at i (default [] (stores !! s)))) (alter (alter f i) s stores)
  end.

Section programs.
  Context (hash : bytes → Z) (iterate : gmap bytes bytes → list (bytes * bytes)).
  (** Whether [snapshot_] of one of the stores is not null. *)
  Context (has_snapshot : bool).
  (** What a move leaves in a shard. *)
  Context (moved_from : nat → gmap bytes bytes).
  Implicit Types (p : mprog) (ids : list nat).

Definition lock_all (s : nat) (m : mode) p : mprog :=
  foldr (λ i p, MAcquire [((s, ShardMutex i), m)] p) p all_shards.
Definition unlock_all (s : nat) p : mprog :=
  foldr (λ i p, MRelease (s, ShardMutex i) p) p all_shards.

Fixpoint collect_from (s : nat) ids (result : gmap bytes bytes) (k : gmap bytes bytes → mprog) : mprog :=
  match ids with
  | [] => k result
  | i :: ids => MAccess s i Shared (λ d, d) (λ d, collect_from s ids (result ∪ d) k)
  end.
Definition replace_in (s : nat) (data : gmap bytes bytes) p : mprog :=
  foldr (λ i p, MAccess s i Exclusive (λ _, ∅) (λ _, p))
    (foldr (λ e p, MAccess s (ShardIndex hash e.1) Exclusive (put_if_absent e) (λ _, p)) p (iterate data))
    all_shards.
(** [shards_[i].data = std::move(other.shards_[i].data)] for each [i]. *)
Definition move_shards (self other : nat) p : mprog :=
  foldr (λ i p, MAccess other i Exclusive (λ _, moved_from i) (λ d,
                MAccess self i Exclusive (λ _, d) (λ _, p))) p all_shards.

(** [std::lock], the shards of [self] and of [other], the work, and the releases
    in the reverse order. *)
Definition with_both (self other : nat) (m : mode) (body : mprog → mprog) : mprog :=
  let leave r := unlock_all other (unlock_all self
                   (MRelease (other, AdminMutex) (MRelease (self, AdminMutex) (MReturn r)))) in
  MAcquire [((self, AdminMutex), Exclusive); ((other, AdminMutex), m)]
    (lock_all self Exclusive (lock_all other m
       (if has_snapshot then leave Threw else body (leave Done)))).

Definition assign_copy_program (self other : nat) : mprog :=
  if bool_decide (self = other) then MReturn Done
  else with_both self other Shared (λ leave,
         collect_from other all_shards ∅ (λ data, replace_in self data leave)).
Definition assign_move_program (self other : nat) : mprog :=
  if bool_decide (self = other) then MReturn Done
  else with_both self other Exclusive (λ leave, move_shards self other leave).

(** The constructors lock the other store only: nobody knows the new one. *)
Definition copy_program : prog :=
  Acquire AdminMutex Shared (lock_shards Shared all_shards
    (let leave r := unlock_shards all_shards (Release AdminMutex (Return r)) in
     if has_snapshot then leave Threw else collect all_shards ∅ (λ data, leave (Captured data)))).
Fixpoint take_shards ids (taken : list (gmap bytes bytes)) (k : list (gmap bytes bytes) → prog) : prog :=
  match ids with
  | [] => k taken
  | i :: ids => Access i Exclusive (λ _, moved_from i) (λ d, take_shards ids (taken ++ [d]) k)
  end.
Definition move_program : prog :=
  Acquire AdminMutex Exclusive (lock_shards Exclusive all_shards
    (let leave r := unlock_shards all_shards (Release AdminMutex (Return r)) in
     if has_snapshot then leave Threw
     else take_shards all_shards [] (λ taken, leave (Captured (foldl (λ m d, m ∪ d) ∅ taken))))).

End programs.

(** ** Threads *)

(** A thread runs a call of one store, or an assignment. *)
Inductive role := OfStore (s g : nat) | Assigns (self other : nat).

Record mthread := MThread { m_role : role; m_held : holding; m_code : mprog }.

Record world_of_stores := Stores {
  m_stores : gmap nat (list (gmap bytes bytes));
  m_threads : gmap nat mthread
}.

Definition set_mthread (t : nat) (th : mthread) (u : world_of_stores) : world_of_stores :=
  Stores (m_stores u) (<[t := th]> (m_threads u)).

(** No other thread holds the lock in a conflicting mode. *)
Definition free_for (u : world_of_stores) (t : nat) (l : place) (m : mode) : Prop :=
  map_Forall (λ t' th, t' ≠ t → match m_held th !! l with
                                | Some m' => m = Shared ∧ m' = Shared
                                | None => True
                                end) (m_threads u).

#[global] Instance free_for_dec u t l m : Decision (free_for u t l m).
Proof. unfold free_for. apply map_Forall_dec. intros t' th. destruct (m_held th !! l); apply _. Defined.

Definition take_locks (ls : list (place * mode)) (h : holding) : holding :=
  foldl (λ h l, <[l.1 := l.2]> h) h ls.

Inductive m_advances (t : nat) (u : world_of_stores) : world_of_stores → Prop :=
| m_acquire ro h ls p :
    m_threads u !! t = Some (MThread ro h (MAcquire ls p)) →
    Forall (λ l, free_for u t l.1 l.2) ls →
    m_advances t u (set_mthread t (MThread ro (take_locks ls h) p) u)
| m_release ro h l p :
    m_threads u !! t = Some (MThread ro h (MRelease l p)) →
    m_advances t u (set_mthread t (MThread ro (delete l h) p) u)
| m_access ro h s i m f next :
    m_threads u !! t = Some (MThread ro h (MAccess s i m f next)) →
    m_advances t u (Stores (alter (alter f i) s (m_stores u))
      (<[t := MThread ro h (next (shard_at i (default [] (m_stores u !! s))))]> (m_threads u))).

Inductive m_answers (t : nat) (r : reply) (u : world_of_stores) : world_of_stores → Prop :=
| m_answer ro h : m_threads u !! t = Some (MThread ro h (MReturn r)) →
    m_answers t r u (Stores (m_stores u) (delete t (m_threads u))).

Definition m_proceeds (u u' : world_of_stores) : Prop :=
  ∃ t, m_advances t u u' ∨ ∃ r, m_answers t r u u'.

(** A thread of a schedule goes on, if it can. *)
Definition m_advance_thread (t : nat) (u : world_of_stores) : option world_of_stores :=
  match m_threads u !! t with
  | Some (MThread ro h (MAcquire ls p)) =>
      if decide (Forall (λ l, free_for u t l.1 l.2) ls)
      then Some (set_mthread t (MThread ro (take_locks ls h) p) u) else None
  | Some (MThread ro h (MRelease l p)) => Some (set_mthread t (MThread ro (delete l h) p) u)
  | Some (MThread ro h (MAccess s i m f next)) =>
      Some (Stores (alter (alter f i) s (m_stores u))
              (<[t := MThread ro h (next (shard_at i (default [] (m_stores u !! s))))]> (m_threads u)))
  | _ => None
  end.

Lemma m_advance_thread_advances t u u' : m_advance_thread t u = Some u' ↔ m_advances t u u'.
Proof.
  unfold m_advance_thread. split.
  - destruct (m_threads u !! t) as [[ro h [r|ls p|l p|s i m f next]]|] eqn:Ht; try done;
      [case_decide as Hg; [|done]|..]; intros [= <-].
    + by apply (m_acquire t u ro h).
    + by apply (m_release t u ro h).
    + by apply (m_access t u ro h s i m f).
  - intros [ro h ls p Ht Hg|ro h l p Ht|ro h s i m f next Ht]; rewrite Ht; [by rewrite decide_True|done..].
Qed.

(** ** The discipline of an assignment *)

(** The order in which an assignment takes its locks. *)
Definition assign_rank (self : nat) (l : place) : nat :=
  match l.2 with
  | AdminMutex => 1
  | ShardMutex i => if bool_decide (l.1 = self) then 2 + i else 66 + i
  | _ => 200
  end%nat.

(** The lock of the shard in a mode that permits the access. *)
Definition m_permits (s i : nat) (m : mode) (h : holding) : Prop :=
  h !! (s, ShardMutex i) = Some Exclusive ∨ m = Shared ∧ h !! (s, ShardMutex i) = Some Shared.

(** It holds locks of its two stores only, and [mutex_] of both. *)
Record assign_holds (self other : nat) (h : holding) : Prop := {
  holds_self : h !! (self, AdminMutex) = Some Exclusive;
  holds_other : is_Some (h !! (other, AdminMutex));
  holds_only l : is_Some (h !! l) →
    (l.1 = self ∨ l.1 = other) ∧ ∀ i, l.2 = ShardMutex i → (i < Z.to_nat kShardCount)%nat
}.

(** As in [disciplined], no lock is taken after a shard was accessed. *)
Fixpoint assigning (self other : nat) (working : bool) (h : holding) (p : mprog) : Prop :=
  match p with
  | MReturn _ => h = ∅
  | MAcquire ls p =>
      working = false ∧
      (h = ∅ ∧ (∃ m, ls = [((self, AdminMutex), Exclusive); ((other, AdminMutex), m)]) ∨
       assign_holds self other h ∧
       ∃ s i m, ls = [((s, ShardMutex i), m)] ∧ (s = self ∨ s = other) ∧ (i < Z.to_nat kShardCount)%nat ∧
         ∀ l, is_Some (h !! l) → (assign_rank self l < assign_rank self (s, ShardMutex i))%nat) ∧
      assigning self other working (take_locks ls h) p
  | MRelease l p => is_Some (h !! l) ∧ assigning self other working (delete l h) p
  | MAccess s i m f next =>
      m_permits s i m h ∧ (m = Shared → ∀ d, f d = d) ∧ ∀ d, assigning self other true h (next d)
  end.

(** A thread keeps to the discipline of its role. *)
Definition behaves (th : mthread) : Prop :=
  match m_role th with
  | OfStore s g => ∃ working h p, m_held th = kmap (place_of s g) h ∧ m_code th = on s g p ∧
                                  disciplined working h p
  | Assigns self other => self ≠ other ∧ ∃ working, assigning self other working (m_held th) (m_code th)
  end.

Record well_behaved (u : world_of_stores) : Prop := {
  wb_threads t th : m_threads u !! t = Some th → behaves th;
  wb_locks t1 t2 th1 th2 l m1 m2 :
    t1 ≠ t2 → m_threads u !! t1 = Some th1 → m_threads u !! t2 = Some th2 →
    m_held th1 !! l = Some m1 → m_held th2 !! l = Some m2 → m1 = Shared ∧ m2 = Shared
}.

#[global] Instance place_of_inj s g : Inj (=) (=) (place_of s g).
Proof. intros [] []; cbn; congruence. Qed.

Lemma permits_on s g i m (h : held) :
  permits_shard i m h → m_permits s i m (kmap (place_of s g) h).
Proof.
  assert (∀ m', h !! ShardMutex i = Some m' → (kmap (place_of s g) h : holding) !! (s, ShardMutex i) = Some m') as Hk.
  { intros m' Hm. change (s, ShardMutex i) with (place_of s g (ShardMutex i)). by rewrite (lookup_kmap (place_of s g)). }
  intros [H|[-> H]]; [left|right]; auto.
Qed.

(** Every instruction of [on s g p] is one of [p], but touching other data. *)
Lemma on_acquire s g p : ∀ working h ls q,
  on s g p = MAcquire ls q → disciplined working h p →
  ∃ l m p', ls = [(place_of s g l, m)] ∧ q = on s g p' ∧
    (∀ l', is_Some (h !! l') → lock_rank l' < lock_rank l)%nat ∧ (lock_rank l < 68)%nat ∧
    disciplined working (<[l := m]> h) p'.
Proof.
  induction p as [r|l m p IH|l p IH|x m p IH|i m f next IH]; intros working h ls q; cbn; try done.
  - intros [= <- <-] (Hr & Hb & _ & Hd). by exists l, m, p.
  - intros Hq [_ Hd]. by apply IH.
Qed.

Lemma on_release s g p : ∀ working h l q,
  on s g p = MRelease l q → disciplined working h p →
  ∃ l' p', l = place_of s g l' ∧ q = on s g p' ∧ disciplined working (delete l' h) p'.
Proof.
  induction p as [r|l m p IH|l p IH|x m p IH|i m f next IH]; intros working h l0 q; cbn; try done.
  - intros [= <- <-] [_ Hd]. by exists l, p.
  - intros Hq [_ Hd]. by apply IH.
Qed.

Lemma on_access s g p : ∀ working h s' i m f next,
  on s g p = MAccess s' i m f next → disciplined working h p →
  s' = s ∧ permits_shard i m h ∧ ∀ d, ∃ p', next d = on s g p' ∧ disciplined true h p'.
Proof.
  induction p as [r|l m p IH|l p IH|x m p IH|i m f next IH]; intros working h s' i' m' f' next'; cbn; try done.
  - intros Hq [_ Hd]. exact (IH _ _ _ _ _ _ _ Hq Hd).
  - intros [= <- <- <- <- <-] (Hp & _ & Hd). split; [done|]. split; [done|]. intros d. by exists (next d).
Qed.

(** ** The invariant *)

Lemma lookup_take_locks ls l : ∀ h m,
  take_locks ls h !! l = Some m → h !! l = Some m ∨ (l, m) ∈ ls.
Proof.
  induction ls as [|[l' m'] ls IH]; intros h m; cbn; [auto|]. intros Hm.
  destruct (IH _ _ Hm) as [[[-> ->]|[_ ?]]%lookup_insert_Some|?]; [right; left|by left|by right; right].
Qed.

Lemma well_behaved_update u t ro h p stores :
  well_behaved u → behaves (MThread ro h p) →
  (∀ l m, h !! l = Some m →
     (∃ th, m_threads u !! t = Some th ∧ m_held th !! l = Some m) ∨ free_for u t l m) →
  well_behaved (Stores stores (<[t := MThread ro h p]> (m_threads u))).
Proof.
  intros [Hth Hlk] Hb Hh.
  assert (∀ t2 th2 l m m2, t ≠ t2 → m_threads u !! t2 = Some th2 → h !! l = Some m →
          m_held th2 !! l = Some m2 → m = Shared ∧ m2 = Shared) as Hnew.
  { intros t2 th2 l m m2 Hne H2 Hm Hm2. destruct (Hh l m Hm) as [(th & H1 & Ho)|Hg].
    - by apply (Hlk t t2 th th2 l m m2).
    - specialize (Hg t2 th2 H2 ltac:(done)). cbn in Hg. by rewrite Hm2 in Hg. }
  split; cbn [m_threads].
  - intros t' th' [[<- <-]|[_ H']]%lookup_insert_Some; [done|by apply (Hth t')].
  - intros t1 t2 th1 th2 l m1 m2 Hne [[<- <-]|[Hn1 H1]]%lookup_insert_Some [[<- <-]|[Hn2 H2]]%lookup_insert_Some;
      cbn [m_held]; intros Hm1 Hm2; [done|eauto| |by apply (Hlk t1 t2 th1 th2 l)].
    destruct (Hnew t1 th1 l m2 m1); auto.
Qed.

Lemma behaves_acquire ro h ls p :
  behaves (MThread ro h (MAcquire ls p)) → behaves (MThread ro (take_locks ls h) p).
Proof.
  unfold behaves. destruct ro as [s g|self other]; cbn [m_role m_held m_code].
  - intros (w & h0 & p0 & -> & Hp & Hd).
    destruct (on_acquire s g p0 w h0 ls p) as (l & m & p' & -> & -> & _ & _ & Hd'); [done..|].
    exists w, (<[l := m]> h0), p'. split_and!; [|done|done]. cbn. by rewrite (kmap_insert (place_of s g)).
  - intros (Hne & w & Hd). split; [done|]. exists w. apply Hd.
Qed.

Lemma behaves_release ro h l p :
  behaves (MThread ro h (MRelease l p)) → behaves (MThread ro (delete l h) p).
Proof.
  unfold behaves. destruct ro as [s g|self other]; cbn [m_role m_held m_code].
  - intros (w & h0 & p0 & -> & Hp & Hd).
    destruct (on_release s g p0 w h0 l p) as (l' & p' & -> & -> & Hd'); [done..|].
    exists w, (delete l' h0), p'. split_and!; [|done|done]. by rewrite (kmap_delete (place_of s g)).
  - intros (Hne & w & Hd). split; [done|]. exists w. apply Hd.
Qed.

Lemma behaves_access ro h s i m f next d :
  behaves (MThread ro h (MAccess s i m f next)) → behaves (MThread ro h (next d)).
Proof.
  unfold behaves. destruct ro as [s0 g|self other]; cbn [m_role m_held m_code].
  - intros (w & h0 & p0 & -> & Hp & Hd).
    destruct (on_access s0 g p0 w h0 s i m f next) as (-> & _ & Hn); [done..|].
    destruct (Hn d) as (p' & -> & Hd'). by exists true, h0, p'.
  - intros (Hne & w & Hd). split; [done|]. exists true. apply Hd.
Qed.

Lemma well_behaved_advances t u u' : well_behaved u → m_advances t u u' → well_behaved u'.
Proof.
  intros Hu Hs. destruct Hs as [ro h ls p Ht Hg|ro h l p Ht|ro h s i m f next Ht];
    pose proof (wb_threads u Hu _ _ Ht) as Hb.
  - apply (well_behaved_update u t); [done|by apply behaves_acquire|].
    intros l m [Hm|Hin]%lookup_take_locks; [left; eauto|right].
    rewrite Forall_forall in Hg. by apply (Hg (l, m)).
  - apply (well_behaved_update u t); [done|by apply behaves_release|].
    intros l' m' [_ Hm]%lookup_delete_Some. left; eauto.
  - apply (well_behaved_update u t); [done|by eapply behaves_access|]. intros l' m' Hm. left; eauto.
Qed.

Lemma well_behaved_answers t r u u' : well_behaved u → m_answers t r u u' → well_behaved u'.
Proof.
  intros [Hth Hlk] [ro h Ht]. split; cbn [m_threads].
  - intros t' th' [_ H']%lookup_delete_Some. by apply (Hth t').
  - intros t1 t2 th1 th2 l m1 m2 Hne [_ H1]%lookup_delete_Some [_ H2]%lookup_delete_Some.
    by apply (Hlk t1 t2 th1 th2).
Qed.

Lemma well_behaved_proceeds u u' : well_behaved u → m_proceeds u u' → well_behaved u'.
Proof. intros Hu [t [Hs|[r Hs]]]; [by eapply well_behaved_advances|by eapply well_behaved_answers]. Qed.

(** ** No deadlock *)

Definition m_wants (u : world_of_stores) (t : nat) (ls : list (place * mode)) : Prop :=
  ∃ ro h p, m_threads u !! t = Some (MThread ro h (MAcquire ls p)).

(** The thread can go on, even when a shared acquisition gives way to a thread that
    waits for the lock exclusively. *)
Definition m_runnable (u : world_of_stores) (t : nat) : Prop :=
  ∃ ro h p, m_threads u !! t = Some (MThread ro h p) ∧
    match p with
    | MAcquire ls _ =>
        Forall (λ l, free_for u t l.1 l.2) ls ∧
        ∀ l, ls = [(l, Shared)] → ∀ t', ¬ m_wants u t' [(l, Exclusive)]
    | _ => True
    end.

(** A store that an assignment reads from: its shards are locked after those of
    the store that is assigned to. *)
Definition reads_from (s : nat) (th : mthread) : bool :=
  match m_role th with
  | Assigns _ other => bool_decide (other = s ∧ is_Some (m_held th !! (s, AdminMutex)))
  | _ => false
  end.

(** The order of all locks at one moment. *)
Definition m_rank (u : world_of_stores) (l : place) : nat :=
  match l.2 with
  | SnapshotMutex => 0
  | AdminMutex => 1
  | ShardMutex i =>
      if decide ((i < Z.to_nat kShardCount)%nat ∧ map_Forall (λ _ th, reads_from l.1 th = false) (m_threads u))
      then 2 + i else 66 + i
  | CheckpointMutex => 130
  | WalMutex => 131
  end%nat.

Lemma m_rank_single u s g l l' :
  (lock_rank l < lock_rank l')%nat → (lock_rank l' < 68)%nat →
  (m_rank u (place_of s g l) < m_rank u (place_of s g l') < 140)%nat.
Proof.
  intros H H'. unfold m_rank, kShardCount in *.
  destruct l, l'; cbn in *; try destruct (decide _) as [[]|]; try destruct (decide _) as [[]|]; try lia.
  all: exfalso; match goal with H : ¬ _ |- _ => apply H end; split; [lia|done].
Qed.

(** For the holder of both [mutex_] the order is its own. *)
Lemma m_rank_assign u t self other h p s i :
  well_behaved u → m_threads u !! t = Some (MThread (Assigns self other) h p) → self ≠ other →
  assign_holds self other h → (i < Z.to_nat kShardCount)%nat → s = self ∨ s = other →
  m_rank u (s, ShardMutex i) = assign_rank self (s, ShardMutex i).
Proof.
  intros Hu Ht Hne [Hself Hother _] Hi Hs. unfold m_rank, assign_rank. cbn.
  destruct (decide (s = self)) as [->|Hs'].
  - rewrite bool_decide_true by done. rewrite decide_True; [done|]. split; [done|].
    intros t' th' Ht'. unfold reads_from. destruct (m_role th') as [|a b] eqn:Hro; [done|].
    apply bool_decide_eq_false. intros [-> [m Hm]]. destruct (decide (t = t')) as [<-|Htt].
    + rewrite Ht in Ht'. injection Ht' as <-. cbn in Hro. congruence.
    + by destruct (wb_locks u Hu t t' _ _ _ _ _ Htt Ht Ht' Hself Hm).
  - destruct Hs as [?| ->]; [done|]. rewrite bool_decide_false by done.
    rewrite decide_False; [done|]. intros [_ Hall]. specialize (Hall t _ Ht).
    unfold reads_from in Hall. cbn in Hall. by apply bool_decide_eq_false in Hall; destruct Hall.
Qed.

Lemma not_free_for u t l m :
  ¬ free_for u t l m → ∃ t' th, t' ≠ t ∧ m_threads u !! t' = Some th ∧ is_Some (m_held th !! l).
Proof.
  intros (t' & th & Ht & Hn)%map_not_Forall; [|intros t' th; destruct (m_held th !! l); apply _].
  exists t', th. destruct (m_held th !! l) as [m'|] eqn:E; [|by destruct Hn].
  split; [intros ->; by apply Hn|eauto].
Qed.

(** The thread waits for [l] alone, exclusively. *)
Definition m_waits_exclusively (l : place) (th : mthread) : bool :=
  match m_code th with MAcquire ls _ => bool_decide (ls = [(l, Exclusive)]) | _ => false end.

Lemma m_waits_exclusively_spec l th :
  m_waits_exclusively l th = true ↔ ∃ ro h p, th = MThread ro h (MAcquire [(l, Exclusive)] p).
Proof.
  split; [|intros (ro & h & p & ->); by apply bool_decide_eq_true].
  destruct th as [ro h [|ls p| |]]; try done. intros ->%bool_decide_eq_true. eauto.
Qed.

Lemma m_holder_waits_higher u t th l :
  well_behaved u → m_threads u !! t = Some th → is_Some (m_held th !! l) →
  m_runnable u t ∨ ∃ l' m, m_wants u t [(l', m)] ∧ (m_rank u l < m_rank u l' < 140)%nat.
Proof.
  intros Hu Ht Hl. pose proof (wb_threads u Hu _ _ Ht) as Hb. destruct th as [ro h p]. cbn in Hl.
  destruct p as [r|ls p|l' p|s i m f next]; [by left; eexists ro, h, _| |by left; eexists ro, h, _..].
  right. unfold behaves in Hb. destruct ro as [s g|self other]; cbn [m_role m_held m_code] in Hb.
  - destruct Hb as (w & h0 & p0 & -> & Hp & Hd).
    destruct (on_acquire s g p0 w h0 ls p) as (l' & m & p' & -> & -> & Hr & Hmax & _); [done..|].
    apply (lookup_kmap_is_Some (place_of s g)) in Hl as (l0 & -> & Hl0).
    exists (place_of s g l'), m. split; [by eexists _, _, _|]. apply m_rank_single; auto.
  - destruct Hb as (Hne & wk & _ & Hacq & _). destruct Hacq as [[-> _]|(Hh & s & i & m & -> & Hs & Hi & Hr)].
    { rewrite lookup_empty in Hl. by destruct Hl. }
    exists (s, ShardMutex i), m. split; [by eexists _, _, _|].
    pose proof (Hr l Hl) as Hlt. destruct (holds_only _ _ _ Hh l Hl) as [Hol Hil].
    rewrite (m_rank_assign u t self other h _ s i Hu Ht) by done.
    assert (assign_rank self (s, ShardMutex i) < 140)%nat as Hmax
      by (cbn; case_bool_decide; unfold kShardCount in *; lia).
    split; [|done]. destruct l as [s0 l0]. cbn in Hol, Hil.
    destruct l0 as [| |j| |]; [cbn in Hlt; exfalso; clear -Hlt Hmax; cbn in Hmax; lia|exact Hlt| |cbn in *; lia..].
    by rewrite (m_rank_assign u t self other h _ s0 j Hu Ht) by auto.
Qed.

(** Whoever waits for a lock that is held is held up by a thread that can go on. *)
Lemma m_waiting_makes_progress u :
  well_behaved u → ∀ n t l m, m_wants u t [(l, m)] → (140 - m_rank u l <= n)%nat → ∃ t', m_runnable u t'.
Proof.
  intros Hu. induction n as [n IH] using lt_wf_ind. intros t l m Hw Hn.
  assert (∀ t2 m2, m_wants u t2 [(l, m2)] → ¬ free_for u t2 l m2 → ∃ t', m_runnable u t') as Hheld.
  { intros t2 m2 Hw2 (t3 & th3 & Hne & H3 & Hl)%not_free_for.
    destruct (m_holder_waits_higher u t3 th3 l Hu H3 Hl) as [Hr|(l' & m' & Hw' & Hrank)]; [eauto|].
    apply (IH (140 - m_rank u l')%nat ltac:(lia) t3 l' m' Hw'). lia. }
  pose proof Hw as (ro & h & p & Ht).
  destruct (decide (free_for u t l m)) as [Hg|Hg]; [|by eapply Hheld].
  destruct (decide (map_Forall (λ _ th, m_waits_exclusively l th = false) (m_threads u))) as [Hall|Hn2].
  - exists t, ro, h, (MAcquire [(l, m)] p). split; [done|]. split; [by apply Forall_singleton|].
    intros l' [= <- ->] t' (ro' & h' & p' & Ht'). specialize (Hall t' _ Ht'). cbn in Hall.
    by apply bool_decide_eq_false in Hall.
  - apply map_not_Forall in Hn2 as (t2 & th2 & H2 & Hx); [|intros; apply _].
    apply not_false_is_true, m_waits_exclusively_spec in Hx as (ro2 & h2 & p2 & ->).
    assert (m_wants u t2 [(l, Exclusive)]) as Hw2 by (by exists ro2, h2, p2).
    destruct (decide (free_for u t2 l Exclusive)) as [Hg2|Hg2]; [|by eapply Hheld].
    exists t2, ro2, h2, (MAcquire [(l, Exclusive)] p2). split; [done|]. split; [by apply Forall_singleton|].
    by intros l' [= _ ?].
Qed.

Lemma well_behaved_runnable u : well_behaved u → m_threads u ≠ ∅ → ∃ t, m_runnable u t.
Proof.
  intros Hu (t & [ro h p] & Ht)%map_choose. destruct p as [r|ls p|l p|s i m f next];
    [by eexists t, ro, h, _| |by eexists t, ro, h, _..].
  destruct (decide (Forall (λ l, free_for u t l.1 l.2) ls)) as [Hg|Hg].
  - destruct ls as [|[l m] [|l2 ls]].
    + exists t, ro, h, (MAcquire [] p). by repeat split.
    + apply (m_waiting_makes_progress u Hu (140 - m_rank u l) t l m); [by eexists _, _, _|done].
    + exists t, ro, h, (MAcquire ((l, m) :: l2 :: ls) p). by repeat split.
  - apply not_Forall_Exists, Exists_exists in Hg as ([l m] & _ & Hl); [|intros ?; apply _].
    apply not_free_for in Hl as (t3 & th3 & Hne & H3 & Hl).
    destruct (m_holder_waits_higher u t3 th3 l Hu H3 Hl) as [Hr|(l' & m' & Hw' & _)]; [eauto|].
    by apply (m_waiting_makes_progress u Hu (140 - m_rank u l') t3 l' m').
Qed.

Lemma m_runnable_proceeds u t : m_runnable u t → ∃ u', m_proceeds u u'.
Proof.
  intros (ro & h & p & Ht & Hp). destruct p as [r|ls p|l p|s i m f next]; eexists; exists t.
  - right. exists r. by econstructor.
  - left. by eapply m_acquire; [|apply Hp].
  - left. by eapply m_release.
  - left. by eapply m_access.
Qed.

(** ** Termination *)

Inductive m_follows : mprog → mprog → Prop :=
| m_follows_acquire ls p : m_follows p (MAcquire ls p)
| m_follows_release l p : m_follows p (MRelease l p)
| m_follows_access s i m f next d : m_follows (next d) (MAccess s i m f next).

Lemma m_follows_wf : well_founded m_follows.
Proof. intros p. induction p; constructor; intros p' Hp; inversion Hp; subst; auto. Qed.

Local Abbreviation m_shrinks := (map_shrinks (λ th' th, m_follows (m_code th') (m_code th))).

Lemma m_proceeds_shrinks u u' : m_proceeds u u' → m_shrinks (m_threads u') (m_threads u).
Proof.
  intros [t [Hs|[r Hs]]].
  - destruct Hs as [ro h ls p Ht _|ro h l p Ht|ro h s i m f next Ht];
      eexists t, _; (split; [exact Ht|]); right; eexists; (split; [|reflexivity]); constructor.
  - destruct Hs as [ro h Ht]. eexists t, _. split; [exact Ht|]. by left.
Qed.

Lemma m_proceeds_wf : well_founded (flip m_proceeds).
Proof.
  apply (wf_incl _ _ (λ u' u, m_shrinks (m_threads u') (m_threads u))).
  - intros u' u. apply m_proceeds_shrinks.
  - apply (wf_inverse_image _ _ m_shrinks m_threads), map_shrinks_wf.
    apply (wf_inverse_image _ _ m_follows m_code), m_follows_wf.
Qed.

(** ** The programs of the assignments keep to their discipline *)

(** The locks after [lock_all], and after [unlock_all]. *)
Definition m_locked (s : nat) (m : mode) (ids : list nat) (h : holding) : holding :=
  foldl (λ h i, <[(s, ShardMutex i) := m]> h) h ids.
Definition m_unlocked (s : nat) (ids : list nat) (h : holding) : holding :=
  foldl (λ h i, delete (s, ShardMutex i) h) h ids.

Local Abbreviation shards_of s ids := ((λ i, (s, ShardMutex i)) <$> ids).

Lemma lookup_m_locked s m ids l : ∀ h,
  m_locked s m ids h !! l = if decide (l ∈ shards_of s ids) then Some m else h !! l.
Proof.
  unfold m_locked. induction ids as [|i ids IH]; intros h; cbn; [done|]. rewrite IH.
  repeat case_decide; [done|set_solver| |].
  - assert (l = (s, ShardMutex i)) as -> by set_solver. by rewrite lookup_insert_eq.
  - rewrite lookup_insert_ne by set_solver. done.
Qed.

Lemma lookup_m_unlocked s ids l : ∀ h,
  m_unlocked s ids h !! l = if decide (l ∈ shards_of s ids) then None else h !! l.
Proof.
  unfold m_unlocked. induction ids as [|i ids IH]; intros h; cbn; [done|]. rewrite IH.
  repeat case_decide; [done|set_solver| |].
  - assert (l = (s, ShardMutex i)) as -> by set_solver. by rewrite lookup_delete_eq.
  - rewrite lookup_delete_ne by set_solver. done.
Qed.

Lemma m_unlocked_locked s m ids h :
  (∀ i, h !! (s, ShardMutex i) = None) → m_unlocked s ids (m_locked s m ids h) = h.
Proof.
  intros Hh. apply map_eq. intros l. rewrite lookup_m_unlocked, lookup_m_locked.
  case_decide as Hl; [|done]. apply list_elem_of_fmap in Hl as (i & -> & _). by rewrite Hh.
Qed.

Lemma m_locked_shard s m h i :
  (i < Z.to_nat kShardCount)%nat → m_locked s m all_shards h !! (s, ShardMutex i) = Some m.
Proof.
  intros Hi. rewrite lookup_m_locked, decide_True; [done|].
  apply list_elem_of_fmap. exists i. split; [done|]. by apply elem_of_all_shards.
Qed.

Lemma m_locked_other s s' m ids h i : s ≠ s' → m_locked s m ids h !! (s', ShardMutex i) = h !! (s', ShardMutex i).
Proof.
  intros Hs. rewrite lookup_m_locked, decide_False; [done|]. intros (j & [= ? ?] & _)%list_elem_of_fmap. done.
Qed.

Section discipline.
  Context (self other : nat) (Hne : self ≠ other).

(** The rank of the first shard of a store. *)
Local Abbreviation first_rank s := (if bool_decide (s = self) then 2 else 66)%nat.

Lemma assign_holds_shard h s i m :
  assign_holds self other h → s = self ∨ s = other → (i < Z.to_nat kShardCount)%nat →
  assign_holds self other (<[(s, ShardMutex i) := m]> h).
Proof.
  intros [Hself Hother Honly] Hs Hi. split; [by rewrite lookup_insert_ne..|].
  intros l [m' [[<- <-]|[_ Hl]]%lookup_insert_Some]; [|eauto].
  split; [done|]. by intros j [= <-].
Qed.

Lemma assigning_lock_from s m p : s = self ∨ s = other → ∀ n k h,
  assign_holds self other h → (∀ l, is_Some (h !! l) → (assign_rank self l < first_rank s + k)%nat) →
  (k + n <= Z.to_nat kShardCount)%nat → assigning self other false (m_locked s m (seq k n) h) p →
  assigning self other false h (foldr (λ i p, MAcquire [((s, ShardMutex i), m)] p) p (seq k n)).
Proof.
  intros Hs. induction n as [|n IH]; intros k h Hh Hr Hk Hp; [done|].
  assert (assign_rank self (s, ShardMutex k) = first_rank s + k)%nat as Hrk
    by (unfold assign_rank; cbn; by case_bool_decide).
  assert (k < Z.to_nat kShardCount)%nat as Hlt by lia.
  cbn [seq foldr assigning]. split; [done|]. split.
  - right. split; [done|]. exists s, k, m. rewrite Hrk. auto.
  - apply IH; [by apply assign_holds_shard| |lia|exact Hp]. cbn [take_locks foldl fst snd].
    intros l [m' [[<- <-]|[_ Hl]]%lookup_insert_Some]; [lia|].
    specialize (Hr l (mk_is_Some _ _ Hl)). lia.
Qed.

Lemma assigning_lock_all s m p h :
  s = self ∨ s = other → assign_holds self other h →
  (∀ l, is_Some (h !! l) → (assign_rank self l < first_rank s)%nat) →
  assigning self other false (m_locked s m all_shards h) p → assigning self other false h (lock_all s m p).
Proof.
  intros Hs Hh Hr Hp. apply (assigning_lock_from s m p Hs _ O h); [done| |lia|done].
  intros l Hl. rewrite Nat.add_0_r. by apply Hr.
Qed.

Lemma assigning_unlock working s p ids : ∀ h,
  (∀ i, i ∈ ids → is_Some (h !! (s, ShardMutex i))) → NoDup ids →
  assigning self other working (m_unlocked s ids h) p →
  assigning self other working h (foldr (λ i p, MRelease (s, ShardMutex i) p) p ids).
Proof.
  induction ids as [|i ids IH]; intros h Hh Hnd Hp; [done|]. apply NoDup_cons in Hnd as [Hi Hnd].
  cbn. split; [apply Hh; set_solver|]. apply IH; [|done|done].
  intros j Hj. rewrite lookup_delete_ne by set_solver. apply Hh. set_solver.
Qed.

Lemma assigning_unlock_all working s m p h :
  (∀ i, h !! (s, ShardMutex i) = None) → assigning self other working h p →
  assigning self other working (m_locked s m all_shards h) (unlock_all s p).
Proof.
  intros Hh Hp. apply assigning_unlock.
  - intros i Hi%elem_of_all_shards. rewrite m_locked_shard by done. eauto.
  - apply NoDup_seq.
  - by rewrite m_unlocked_locked.
Qed.

(** What an assignment holds after [std::lock], and with all shards. *)
Definition both_mutexes (m : mode) : holding :=
  <[(other, AdminMutex) := m]> {[ (self, AdminMutex) := Exclusive ]}.
Definition both_locked (m : mode) : holding :=
  m_locked other m all_shards (m_locked self Exclusive all_shards (both_mutexes m)).

Lemma both_mutexes_none m s i : both_mutexes m !! (s, ShardMutex i) = None.
Proof. unfold both_mutexes. by rewrite lookup_insert_ne, lookup_singleton_ne. Qed.

Lemma both_mutexes_inv m l : is_Some (both_mutexes m !! l) → l = (self, AdminMutex) ∨ l = (other, AdminMutex).
Proof.
  unfold both_mutexes. intros [m' [[<- _]|[_ [<- _]%lookup_singleton_Some]]%lookup_insert_Some]; auto.
Qed.

Lemma both_mutexes_holds m : assign_holds self other (both_mutexes m).
Proof.
  unfold both_mutexes. split.
  - rewrite lookup_insert_ne by congruence. apply lookup_singleton_eq.
  - rewrite lookup_insert_eq. eauto.
  - intros l [-> | ->]%both_mutexes_inv; (split; [auto|done]).
Qed.

Lemma m_locked_holds s m ids h :
  s = self ∨ s = other → (∀ i, i ∈ ids → (i < Z.to_nat kShardCount)%nat) →
  assign_holds self other h → assign_holds self other (m_locked s m ids h).
Proof.
  intros Hs. unfold m_locked. revert h. induction ids as [|i ids IH]; intros h Hi Hh; [done|].
  apply IH; [set_solver|]. apply assign_holds_shard; [done..|]. apply Hi. set_solver.
Qed.

Lemma assigning_leave working m r :
  assigning self other working (both_locked m)
    (unlock_all other (unlock_all self
       (MRelease (other, AdminMutex) (MRelease (self, AdminMutex) (MReturn r))))).
Proof.
  unfold both_locked. apply assigning_unlock_all.
  - intros i. by rewrite m_locked_other, both_mutexes_none.
  - apply assigning_unlock_all; [apply both_mutexes_none|]. unfold both_mutexes. cbn.
    split; [rewrite lookup_insert_eq; eauto|]. rewrite delete_insert_id by (apply lookup_singleton_ne; congruence).
    split; [rewrite lookup_singleton_eq; eauto|]. apply delete_singleton_eq.
Qed.

Lemma assigning_with_both has_snapshot m body :
  (∀ leave, (∀ working, assigning self other working (both_locked m) leave) →
            assigning self other false (both_locked m) (body leave)) →
  assigning self other false ∅ (with_both has_snapshot self other m body).
Proof.
  intros Hb. cbn [with_both assigning]. split; [done|]. split; [left; eauto|]. change (take_locks _ _) with (both_mutexes m).
  assert (∀ i, i ∈ all_shards → (i < Z.to_nat kShardCount)%nat) as Hall by (intros i; apply elem_of_all_shards).
  pose proof (both_mutexes_holds m) as Hh.
  apply assigning_lock_all; [by left|done| |].
  { intros l [-> | ->]%both_mutexes_inv; rewrite bool_decide_true by done; cbn; lia. }
  apply assigning_lock_all; [by right|by apply m_locked_holds; auto| |].
  - intros l [m' Hl]. rewrite bool_decide_false by congruence. rewrite lookup_m_locked in Hl.
    case_decide as Hin.
    + apply list_elem_of_fmap in Hin as (i & -> & Hi%Hall). unfold assign_rank. cbn.
      rewrite bool_decide_true by done. unfold kShardCount in Hi. lia.
    + destruct (both_mutexes_inv m l) as [-> | ->]; [eauto|cbn; lia..].
  - change (m_locked other m _ _) with (both_locked m).
    destruct has_snapshot; [apply assigning_leave|]. apply Hb. intros working. apply assigning_leave.
Qed.

Lemma both_locked_other m i : (i < Z.to_nat kShardCount)%nat → both_locked m !! (other, ShardMutex i) = Some m.
Proof. apply m_locked_shard. Qed.

Lemma both_locked_self m i : (i < Z.to_nat kShardCount)%nat → both_locked m !! (self, ShardMutex i) = Some Exclusive.
Proof. intros Hi. unfold both_locked. rewrite m_locked_other by congruence. by apply m_locked_shard. Qed.

Lemma assigning_collect_from working h ids : ∀ result (k : gmap bytes bytes → mprog),
  (∀ i, i ∈ ids → h !! (other, ShardMutex i) = Some Shared) → (∀ working d, assigning self other working h (k d)) →
  assigning self other working h (collect_from other ids result k).
Proof.
  revert working. induction ids as [|i ids IH]; intros working result k Hi Hk; [apply Hk|]. cbn. split; [|split; [done|]].
  - right. split; [done|]. apply Hi. set_solver.
  - intros d. apply IH; [|done]. intros j Hj. apply Hi. set_solver.
Qed.

Lemma assigning_replace_in hash iterate working h data p :
  (∀ i, (i < Z.to_nat kShardCount)%nat → h !! (self, ShardMutex i) = Some Exclusive) →
  (∀ working, assigning self other working h p) → assigning self other working h (replace_in hash iterate self data p).
Proof.
  intros Hs Hp. unfold replace_in. revert working.
  assert (∀ working, assigning self other working h (foldr (λ e p, MAccess self (ShardIndex hash e.1) Exclusive (put_if_absent e) (λ _, p))
                                    p (iterate data))) as Hi.
  { induction (iterate data) as [|e es IH]; intros working; [done|]. split; [|split; [done|]; by intros _].
    left. apply Hs, index_lt. }
  assert (∀ i, i ∈ all_shards → (i < Z.to_nat kShardCount)%nat) as Hall by (intros i; apply elem_of_all_shards).
  revert Hall. induction all_shards as [|i ids IH]; intros Hall working; [by auto|]. cbn. split; [|split; [done|]].
  - left. apply Hs, Hall. set_solver.
  - intros _. apply IH. intros j Hj. apply Hall. set_solver.
Qed.

Lemma assigning_move_shards moved_from working h p :
  (∀ s i, s = self ∨ s = other → (i < Z.to_nat kShardCount)%nat → h !! (s, ShardMutex i) = Some Exclusive) →
  (∀ working, assigning self other working h p) →
  assigning self other working h (move_shards moved_from self other p).
Proof.
  intros Hs Hp. unfold move_shards. revert working.
  assert (∀ i, i ∈ all_shards → (i < Z.to_nat kShardCount)%nat) as Hall by (intros i; apply elem_of_all_shards).
  revert Hall. induction all_shards as [|i ids IH]; intros Hall working; [by auto|].
  assert (i < Z.to_nat kShardCount)%nat as Hi by (apply Hall; set_solver).
  cbn. split; [left; by apply Hs; auto|]. split; [done|]. intros d.
  split; [left; by apply Hs; auto|]. split; [done|]. intros _.
  apply IH. intros j Hj. apply Hall. set_solver.
Qed.

Lemma assign_copy_assigning hash iterate has_snapshot :
  assigning self other false ∅ (assign_copy_program hash iterate has_snapshot self other).
Proof.
  unfold assign_copy_program. rewrite bool_decide_false by done. apply assigning_with_both. intros leave Hleave.
  apply assigning_collect_from; [intros i Hi%elem_of_all_shards; by apply both_locked_other|]. intros working data.
  apply assigning_replace_in; [|done]. intros i. apply both_locked_self.
Qed.

Lemma assign_move_assigning moved_from has_snapshot :
  assigning self other false ∅ (assign_move_program has_snapshot moved_from self other).
Proof.
  unfold assign_move_program. rewrite bool_decide_false by done. apply assigning_with_both. intros leave Hleave.
  apply assigning_move_shards; [|done]. intros s i [-> | ->]; [apply both_locked_self|apply both_locked_other].
Qed.

End discipline.

(** ** The constructors keep to the discipline of the other calls *)

Lemma disciplined_take_shards (moved_from : nat → gmap bytes bytes) (working : bool) (h : held) (ids : list nat) (k : list (gmap bytes bytes) → prog) : ∀ taken,
  (∀ i, i ∈ ids → permits_shard i Exclusive h) → (∀ ds, disciplined true h (k ds)) →
  disciplined working h (take_shards moved_from ids taken k).
Proof.
  revert working. induction ids as [|i ids IH]; intros working taken Hids Hk; cbn.
  - by apply disciplined_weaken.
  - split; [apply Hids; set_solver|]. split; [done|]. intros d. apply IH; [set_solver|done].
Qed.

(** [mutex_] and all shards of one store, in one mode. *)
Lemma disciplined_one_store m body :
  let h := locked m all_shards {[ AdminMutex := m ]} in
  (∀ leave, (∀ working r, disciplined working h (leave r)) → disciplined false h (body leave)) →
  disciplined false ∅ (Acquire AdminMutex m (lock_shards m all_shards
    (body (λ r, unlock_shards all_shards (Release AdminMutex (Return r)))))).
Proof.
  intros h Hb. split; [intros l [m' Hl]; by rewrite lookup_empty in Hl|]. split; [cbn; lia|]. split; [done|].
  assert (low {[ AdminMutex := m ]}) as Hlow by (intros l [m' [<- <-]%lookup_singleton_Some]; cbn; lia).
  apply disciplined_lock_all; [done|]. apply Hb. intros working r. apply disciplined_unlock_all; [done|].
  split; [rewrite lookup_singleton_eq; eauto|]. apply delete_singleton_eq.
Qed.

Lemma copy_program_disciplined has_snapshot : disciplined false ∅ (copy_program has_snapshot).
Proof.
  apply (disciplined_one_store Shared (λ leave, if has_snapshot then leave Threw
    else collect all_shards ∅ (λ data, leave (Captured data)))).
  intros leave Hl. destruct has_snapshot; [apply Hl|]. apply disciplined_collect; [|intros data; apply Hl].
  intros i Hi%elem_of_all_shards. by apply permits_locked.
Qed.

Lemma move_program_disciplined has_snapshot moved_from : disciplined false ∅ (move_program has_snapshot moved_from).
Proof.
  apply (disciplined_one_store Exclusive (λ leave, if has_snapshot then leave Threw
    else take_shards moved_from all_shards [] (λ taken, leave (Captured (foldl (λ m d, m ∪ d) ∅ taken))))).
  intros leave Hl. destruct has_snapshot; [apply Hl|]. apply disciplined_take_shards; [|intros taken; apply Hl].
  intros i Hi%elem_of_all_shards. by apply permits_locked.
Qed.

(** ** Stores in use *)

(** A call of a member function comes with the log in use and whether there is one.
    The constructors are calls of the store they read. *)
Inductive store_call :=
| OnStore (s g : nat) (has_wal : bool) (c : call)
| CopyOf (s : nat)
| MoveOf (s : nat)
| AssignCopy (self other : nat)
| AssignMove (self other : nat).

Definition role_of_assignment (self other : nat) : role :=
  if bool_decide (self = other) then OfStore self self else Assigns self other.
Definition role_of (c : store_call) : role :=
  match c with
  | OnStore s g _ _ => OfStore s g
  | CopyOf s | MoveOf s => OfStore s s
  | AssignCopy self other | AssignMove self other => role_of_assignment self other
  end.

Section stores.
  Context (hash : bytes → Z) (iterate : gmap bytes bytes → list (bytes * bytes)).
  (** Whether [snapshot_] of a store is not null; nothing that succeeds changes it. *)
  Context (has_snapshot : nat → bool).
  Context (moved_from : nat → gmap bytes bytes).

(** The program of a call, and the role in which a thread runs it. An assignment
    of a store to itself locks nothing. *)
Definition store_program (c : store_call) (o : fortune) : mprog :=
  match c with
  | OnStore s g has_wal c => on s g (program hash iterate has_wal (has_snapshot s) c o)
  | CopyOf s => on s s (copy_program (has_snapshot s))
  | MoveOf s => on s s (move_program (has_snapshot s) moved_from)
  | AssignCopy self other =>
      assign_copy_program hash iterate (has_snapshot self || has_snapshot other) self other
  | AssignMove self other =>
      assign_move_program (has_snapshot self || has_snapshot other) moved_from self other
  end.

Inductive m_begins (t : nat) (c : store_call) (o : fortune) (u : world_of_stores) : world_of_stores → Prop :=
| m_begin : m_threads u !! t = None →
    m_begins t c o u (set_mthread t (MThread (role_of c) ∅ (store_program c o)) u).

Definition m_step (u u' : world_of_stores) : Prop := (∃ t c o, m_begins t c o u u') ∨ m_proceeds u u'.

Lemma on_behaves s g p : disciplined false ∅ p → behaves (MThread (OfStore s g) ∅ (on s g p)).
Proof. intros Hp. exists false, ∅, p. split; [|done]. by rewrite (kmap_empty (place_of s g)). Qed.

Lemma store_program_behaves c o : behaves (MThread (role_of c) ∅ (store_program c o)).
Proof.
  destruct c as [s g w c|s|s|self other|self other]; cbn [role_of store_program].
  - apply on_behaves, program_disciplined.
  - apply on_behaves, copy_program_disciplined.
  - apply on_behaves, move_program_disciplined.
  - unfold role_of_assignment. case_bool_decide as Heq.
    + unfold assign_copy_program. rewrite bool_decide_true by done. by apply (on_behaves self self (Return Done)).
    + split; [done|]. exists false. by apply assign_copy_assigning.
  - unfold role_of_assignment. case_bool_decide as Heq.
    + unfold assign_move_program. rewrite bool_decide_true by done. by apply (on_behaves self self (Return Done)).
    + split; [done|]. exists false. by apply assign_move_assigning.
Qed.

Lemma well_behaved_step u u' : well_behaved u → m_step u u' → well_behaved u'.
Proof.
  intros Hu [(t & c & o & [Hn])|Hs]; [|by eapply well_behaved_proceeds].
  apply well_behaved_update; [done|by apply store_program_behaves|]. intros l m Hl. by rewrite lookup_empty in Hl.
Qed.

Lemma well_behaved_reachable stores u : rtc m_step (Stores stores ∅) u → well_behaved u.
Proof.
  assert (well_behaved (Stores stores ∅)) as Hw by (split; cbn [m_threads]; intros *; by rewrite lookup_empty).
  intros Hr. revert Hw. induction Hr; eauto using well_behaved_step.
Qed.

(** C13: No deadlock among the calls of several stores, assignments in both
    directions included: whatever calls threads have begun, as long as one is in
    progress some thread can go on, the calls in progress cannot go on forever by
    themselves, and all of them return. *)
Theorem assignments_never_deadlock stores u :
  rtc m_step (Stores stores ∅) u →
  (m_threads u ≠ ∅ → ∃ t, m_runnable u t) ∧ Acc (flip m_proceeds) u ∧
  ∃ u', rtc m_proceeds u u' ∧ m_threads u' = ∅.
Proof.
  intros Hr. pose proof (well_behaved_reachable _ _ Hr) as Hu.
  split; [by apply well_behaved_runnable|]. split; [apply m_proceeds_wf|].
  clear Hr. induction (m_proceeds_wf u) as [u _ IH].
  destruct (decide (m_threads u = ∅)) as [He|He]; [by exists u|].
  destruct (well_behaved_runnable u Hu He) as [t Hr]. destruct (m_runnable_proceeds u t Hr) as [u1 Hu1].
  destruct (IH u1 Hu1) as (u' & Hu' & He'); [by eapply well_behaved_proceeds|].
  exists u'. split; [by eapply rtc_l|done].
Qed.

(** A thread about to access a shard holds its lock. *)
Lemma behaves_permits ro h s i m f next :
  behaves (MThread ro h (MAccess s i m f next)) → m_permits s i m h.
Proof.
  unfold behaves. destruct ro as [s0 g|self other]; cbn [m_role m_held m_code].
  - intros (w & h0 & p0 & -> & Hp & Hd).
    destruct (on_access s0 g p0 w h0 s i m f next) as (-> & Hperm & _); [done..|]. by apply permits_on.
  - by intros (_ & w & H & _).
Qed.

(** No data race on the shards of several stores: two threads are never
    about to access the same shard of the same store with one of them about to
    modify it, even while the store is assigned to, copied or moved from. *)
Theorem assignments_never_race stores u t1 t2 ro1 ro2 h1 h2 s i m f1 f2 next1 next2 :
  rtc m_step (Stores stores ∅) u → t1 ≠ t2 →
  m_threads u !! t1 = Some (MThread ro1 h1 (MAccess s i Exclusive f1 next1)) →
  ¬ (m_threads u !! t2 = Some (MThread ro2 h2 (MAccess s i m f2 next2))).
Proof.
  intros Hu%well_behaved_reachable Hne H1 H2.
  destruct (behaves_permits _ _ _ _ _ _ _ (wb_threads u Hu _ _ H1)) as [Hh1|[? _]]; [|done].
  destruct (behaves_permits _ _ _ _ _ _ _ (wb_threads u Hu _ _ H2)) as [Hh2|[_ Hh2]];
    by destruct (wb_locks u Hu t1 t2 _ _ _ _ _ Hne H1 H2 Hh1 Hh2).
Qed.

End stores.
