(* ===== verification/AssignmentEffect.v ===== *)
(** * Copies, moves and assignments that run alone

    What the programs of [StoreAssignment] leave in the shards of the stores when no
    other call runs: what the constructors and assignments of whole stores in
    [KVStore] compute. *)

From S2P Require Import Prelude Machine BinaryIO Crc WalFormat WalReplay SnapshotFile Journal KVStore StoreSharding.
From S2P Require Import StoreLocks StoreCalls StoreAssignment.

(** ** Loops over the shards *)

(** A loop that modifies each element of a list. *)
Lemma foldl_alter_seq {A} (g : nat → A → A) n : ∀ k (l : list A) j,
  foldl (λ l i, alter (g i) i l) l (seq k n) !! j
  = if decide (k <= j < k + n)%nat then g j <$> l !! j else l !! j.
Proof.
  induction n as [|n IH]; intros k l j; cbn; [by rewrite decide_False by lia|].
  rewrite IH. destruct (decide (k = j)) as [<-|Hne].
  - rewrite decide_False, decide_True by lia. apply list_lookup_alter_eq.
  - rewrite !list_lookup_alter_ne by done. repeat case_decide; (done || lia).
Qed.

Lemma foldl_alter_all {A} (g : nat → A → A) (l : list A) :
  length l = Z.to_nat kShardCount → foldl (λ l i, alter (g i) i l) l all_shards = imap g l.
Proof.
  intros Hl. apply list_eq. intros j. unfold all_shards. rewrite foldl_alter_seq, list_lookup_imap, <-Hl.
  case_decide as Hj; [done|]. by rewrite lookup_ge_None_2 by lia.
Qed.

Lemma imap_shards (la lb : list (gmap bytes bytes)) :
  length la = length lb → imap (λ i _, shard_at i lb) la = lb.
Proof.
  intros Hl. apply list_eq. intros i. rewrite list_lookup_imap. unfold shard_at.
  destruct (lb !! i) as [d|] eqn:Hi.
  - destruct (lookup_lt_is_Some_2 la i) as [x ->]; [rewrite Hl; by eapply lookup_lt_Some|done].
  - rewrite lookup_ge_None_2; [done|]. rewrite Hl. by apply lookup_ge_None.
Qed.

Section alone.
  Context {W : Type}.
  Context (hash : bytes → Z) (iterate : gmap bytes bytes → list (bytes * bytes)).
  Context (moved_from : nat → gmap bytes bytes).
  Implicit Types (s self other : nat) (m : mode) (p : mprog) (ids : list nat) (a b : KVStore W) (stores : gmap nat (list (gmap bytes bytes))).

Lemma mrun_lock_all s m p stores : mrun_alone (lock_all s m p) stores = mrun_alone p stores.
Proof. unfold lock_all. by induction all_shards. Qed.

Lemma mrun_unlock_all s p stores : mrun_alone (unlock_all s p) stores = mrun_alone p stores.
Proof. unfold unlock_all. by induction all_shards. Qed.

(** A body that ends by leaving with what it was given. *)
Lemma mrun_with_both (has_snapshot : bool) self other m body stores stores' :
  (∀ leave, mrun_alone (body leave) stores = mrun_alone leave stores') →
  mrun_alone (with_both has_snapshot self other m body) stores
  = if has_snapshot then (stores, Threw) else (stores', Done).
Proof.
  intros Hb. unfold with_both. cbn [mrun_alone]. rewrite !mrun_lock_all.
  destruct has_snapshot; [|rewrite Hb]; by rewrite !mrun_unlock_all.
Qed.

Lemma mrun_collect_from s (k : gmap bytes bytes → mprog) stores (l2 : list (gmap bytes bytes)) : ∀ l1 (result : gmap bytes bytes),
  stores !! s = Some (l1 ++ l2) →
  mrun_alone (collect_from s (seq (length l1) (length l2)) result k) stores
  = mrun_alone (k (foldl (λ result data, result ∪ data) result l2)) stores.
Proof.
  induction l2 as [|d l2 IH]; intros l1 result Hs; cbn; [done|].
  rewrite Hs. cbn. rewrite shard_at_middle, alter_id by (intros; apply alter_same).
  specialize (IH (l1 ++ [d]) (result ∪ d)). rewrite length_app, Nat.add_1_r, <-(assoc_L (++)) in IH. by apply IH.
Qed.

(** A loop that only writes. *)
Lemma mrun_writes {A} s (f : A → gmap bytes bytes → gmap bytes bytes) (idx : A → nat) p xs : ∀ l stores,
  stores !! s = Some l →
  mrun_alone (foldr (λ x p, MAccess s (idx x) Exclusive (f x) (λ _, p)) p xs) stores
  = mrun_alone p (<[s := foldl (λ l x, alter (f x) (idx x) l) l xs]> stores).
Proof.
  induction xs as [|x xs IH]; intros l stores Hs; cbn.
  - by rewrite insert_id.
  - rewrite (IH (alter (f x) (idx x) l)) by (by rewrite lookup_alter_eq, Hs).
    f_equal. apply map_eq. intros s'. destruct (decide (s = s')) as [<-|Hne].
    + by rewrite !lookup_insert_eq.
    + by rewrite !lookup_insert_ne, lookup_alter_ne.
Qed.

Lemma mrun_replace_in s data p l stores :
  stores !! s = Some l → length l = Z.to_nat kShardCount →
  mrun_alone (replace_in hash iterate s data p) stores
  = mrun_alone p (<[s := foldl (insert_in_shard hash) ((λ _, ∅) <$> l) (iterate data)]> stores).
Proof.
  intros Hs Hl. unfold replace_in. rewrite (mrun_writes s (λ _ _, ∅) (λ i, i) _ all_shards l) by done.
  rewrite foldl_alter_all by done. rewrite (mrun_writes s put_if_absent (λ e, ShardIndex hash e.1) p _ _)
    by apply lookup_insert_eq.
  rewrite insert_insert_eq. f_equal. f_equal. f_equal. apply imap_const.
Qed.

Lemma mrun_move_shards self other p ids : self ≠ other → ∀ la lb stores,
  stores !! self = Some la → stores !! other = Some lb → NoDup ids →
  mrun_alone (foldr (λ i p, MAccess other i Exclusive (λ _, moved_from i) (λ d,
                            MAccess self i Exclusive (λ _, d) (λ _, p))) p ids) stores
  = mrun_alone p (<[other := foldl (λ l i, alter (λ _, moved_from i) i l) lb ids]>
                  (<[self := foldl (λ l i, alter (λ _, shard_at i lb) i l) la ids]> stores)).
Proof.
  intros Hne. induction ids as [|i ids IH]; intros la lb stores Ha Hb Hnd; cbn.
  - by rewrite (insert_id stores), insert_id.
  - apply NoDup_cons in Hnd as [Hi Hnd]. rewrite Hb. cbn.
    erewrite IH; [|by rewrite lookup_alter_eq, lookup_alter_ne, Ha by done
                  |by rewrite lookup_alter_ne, lookup_alter_eq, Hb by done|done].
    f_equal. apply map_eq. intros s. destruct (decide (other = s)) as [<-|Hs].
    { by rewrite !lookup_insert_eq. }
    rewrite !(lookup_insert_ne _ other) by done. destruct (decide (self = s)) as [<-|Hs'].
    + rewrite !lookup_insert_eq. f_equal. cbn. generalize (alter (λ _, shard_at i lb) i la).
      clear -Hi. induction ids as [|j ids IH]; intros l; cbn; [done|].
      apply not_elem_of_cons in Hi as [Hij Hi]. rewrite IH by done. do 2 f_equal.
      unfold shard_at. by rewrite list_lookup_alter_ne.
    + by rewrite !lookup_insert_ne, !lookup_alter_ne.
Qed.

(** The assignments of one store to another, on their shards. *)
Lemma mrun_assign_copy (has_snapshot : bool) self other (la lb : list (gmap bytes bytes)) stores :
  self ≠ other → stores !! self = Some la → stores !! other = Some lb →
  length la = Z.to_nat kShardCount → length lb = Z.to_nat kShardCount →
  mrun_alone (assign_copy_program hash iterate has_snapshot self other) stores
  = if has_snapshot then (stores, Threw)
    else (<[self := foldl (insert_in_shard hash) ((λ _, ∅) <$> la) (iterate (all_data lb))]> stores, Done).
Proof.
  intros Hne Ha Hb Hla Hlb. unfold assign_copy_program. rewrite bool_decide_false by done.
  apply mrun_with_both. intros leave. unfold all_shards. rewrite <-Hlb.
  rewrite (mrun_collect_from other _ stores lb []) by done. by apply mrun_replace_in.
Qed.

Lemma mrun_assign_move (has_snapshot : bool) self other (la lb : list (gmap bytes bytes)) stores :
  self ≠ other → stores !! self = Some la → stores !! other = Some lb →
  length la = Z.to_nat kShardCount → length lb = Z.to_nat kShardCount →
  mrun_alone (assign_move_program has_snapshot moved_from self other) stores
  = if has_snapshot then (stores, Threw)
    else (<[other := imap (λ i _, moved_from i) lb]> (<[self := lb]> stores), Done).
Proof.
  intros Hne Ha Hb Hla Hlb. unfold assign_move_program. rewrite bool_decide_false by done.
  apply mrun_with_both. intros leave.
  unfold move_shards. rewrite (mrun_move_shards self other leave _ Hne la lb) by (done || apply NoDup_seq).
  rewrite (foldl_alter_all (λ i _, moved_from i)), (foldl_alter_all (λ i _, shard_at i lb)) by done.
  rewrite imap_shards; [done|]. by rewrite Hla, Hlb.
Qed.

Lemma alter_middle {A} (f : A → A) (l1 l2 : list A) x : alter f (length l1) (l1 ++ x :: l2) = l1 ++ f x :: l2.
Proof. by rewrite <-(Nat.add_0_r (length l1)), alter_app_r. Qed.

Lemma run_take_shards (k : list (gmap bytes bytes) → prog) (l2 : list (gmap bytes bytes)) : ∀ (l1 taken : list (gmap bytes bytes)),
  run_alone (take_shards moved_from (seq (length l1) (length l2)) taken k) (l1 ++ l2)
  = run_alone (k (taken ++ l2)) (foldl (λ l i, alter (λ _, moved_from i) i l) (l1 ++ l2) (seq (length l1) (length l2))).
Proof.
  induction l2 as [|d l2 IH]; intros l1 taken; cbn; [by rewrite !app_nil_r|].
  rewrite shard_at_middle, alter_middle.
  specialize (IH (l1 ++ [moved_from (length l1)]) (taken ++ [d])).
  rewrite length_app, Nat.add_1_r, <-!(assoc_L (++)) in IH. apply IH.
Qed.

(** The constructors, on the shards of the store they read. *)
Lemma run_copy_program (has_snapshot : bool) (l : list (gmap bytes bytes)) :
  length l = Z.to_nat kShardCount →
  run_alone (copy_program has_snapshot) l = (l, if has_snapshot then Threw else Captured (all_data l)).
Proof.
  intros Hl. unfold copy_program. cbn [run_alone]. rewrite run_lock_shards.
  destruct has_snapshot; [|rewrite run_collect_all by done]; apply run_unlock_shards.
Qed.

Lemma run_move_program (has_snapshot : bool) (l : list (gmap bytes bytes)) :
  length l = Z.to_nat kShardCount →
  run_alone (move_program has_snapshot moved_from) l
  = if has_snapshot then (l, Threw) else (imap (λ i _, moved_from i) l, Captured (all_data l)).
Proof.
  intros Hl. unfold move_program. cbn [run_alone]. rewrite run_lock_shards.
  destruct has_snapshot; [apply run_unlock_shards|].
  unfold all_shards. rewrite <-Hl. rewrite (run_take_shards _ l []), run_unlock_shards. cbn [app run_alone length].
  rewrite Hl. f_equal. by apply (foldl_alter_all (λ i _, moved_from i)).
Qed.

(** Whether a store refuses to be copied or moved. *)
Definition checkpoints a : bool := bool_decide (is_Some (snapshot_ a)).

(** The assignments are, shard by shard and lock by lock, the assignments of
    whole stores: run alone they leave in the shards of both stores what
    [assign_copy] and [assign_move] compute, and throw, with both stores as they
    were, when these throw. *)
Theorem assignments_run_alone self other a b stores :
  self ≠ other → stores !! self = Some (shards_ a) → stores !! other = Some (shards_ b) →
  length (shards_ a) = Z.to_nat kShardCount → length (shards_ b) = Z.to_nat kShardCount →
  mrun_alone (assign_copy_program hash iterate (checkpoints a || checkpoints b) self other) stores
  = match assign_copy hash iterate a b with
    | Ok a' => (<[self := shards_ a']> stores, Done)
    | Exn _ => (stores, Threw)
    end ∧
  mrun_alone (assign_move_program (checkpoints a || checkpoints b) moved_from self other) stores
  = match assign_move (imap (λ i _, moved_from i) (shards_ b)) a b with
    | Ok (a', b') => (<[other := shards_ b']> (<[self := shards_ a']> stores), Done)
    | Exn _ => (stores, Threw)
    end.
Proof.
  intros Hne Ha Hb Hla Hlb. rewrite (mrun_assign_copy _ self other (shards_ a) (shards_ b)) by done.
  rewrite (mrun_assign_move _ self other (shards_ a) (shards_ b)) by done.
  unfold assign_copy, assign_move, checkpoints. by destruct (snapshot_ a), (snapshot_ b).
Qed.

(** The constructors that take a store leave it, and build from it, what
    [copy_store] and [move_store] do when no other call runs. *)
Theorem constructors_run_alone b (Hiterate : ∀ data, iterate data ≡ₚ map_to_list data) :
  store_ok hash b →
  run_alone (copy_program (checkpoints b)) (shards_ b)
  = match copy_store hash iterate b with
    | Ok c => (shards_ b, Captured (contents_of c))
    | Exn _ => (shards_ b, Threw)
    end ∧
  run_alone (move_program (checkpoints b) moved_from) (shards_ b)
  = match move_store (imap (λ i _, moved_from i) (shards_ b)) b with
    | Ok (c, b') => (shards_ b', Captured (contents_of c))
    | Exn _ => (shards_ b, Threw)
    end.
Proof.
  intros [Hl _]. rewrite run_copy_program, run_move_program by done. unfold copy_store, move_store, checkpoints.
  destruct (snapshot_ b); [done|]. split; [|done].
  destruct (ReplaceDataLocked_ok hash iterate Hiterate (new_store (wal_ b) None) (CollectDataLocked b)) as [_ Hc];
    [done|].
  unfold contents_of in *. cbn [shards_ set_writes]. by rewrite Hc.
Qed.

End alone.
