(* ===== verification/Linearizability.v ===== *)
(** * Calls of several threads take effect one at a time

    Any number of threads call the member functions of any number of stores, each
    by the programs of [StoreCalls] and [StoreAssignment], while stores are copied,
    moved and assigned to each other. Every call takes effect at one moment between
    its invocation and its response: the stores implement maps whose operations are
    atomic. The reason is that no call locks a shard after it accessed one. *)

From S2P Require Import Prelude Machine BinaryIO Crc WalFormat WalReplay SnapshotFile Journal.
From S2P Require Import KVStore StoreSharding StoreLocks StoreCalls StoreAssignment AssignmentEffect.

(** ** Histories *)

Inductive event {C : Type} := Invoke (t : nat) (c : C) | Respond (t : nat) (r : reply).
Arguments event : clear implicits.

(** A run, with the invocations and responses in it. *)
Inductive execution {S E} (step : option E → S → S → Prop) : S → list E → S → Prop :=
| execution_nil s : execution step s [] s
| execution_silent s1 s2 es s3 :
    step None s1 s2 → execution step s2 es s3 → execution step s1 es s3
| execution_event s1 e s2 es s3 :
    step (Some e) s1 s2 → execution step s2 es s3 → execution step s1 (e :: es) s3.

Lemma execution_app {S E} (step : option E → S → S → Prop) s1 es1 s2 es2 s3 :
  execution step s1 es1 s2 → execution step s2 es2 s3 → execution step s1 (es1 ++ es2) s3.
Proof.
  intros H1 H2. induction H1; cbn; [done|eapply execution_silent; eauto|eapply execution_event; eauto].
Qed.

(** ** Shards and their locks *)

Abbreviation memory := (gmap nat (list (gmap bytes bytes))).

(** The shard [x.2] of the store [x.1], and its lock. *)
Definition cell (stores : memory) (x : nat * nat) : option (gmap bytes bytes) := stores !! x.1 ≫= (.!! x.2).
Definition lock_of (x : nat * nat) : place := (x.1, ShardMutex x.2).

#[global] Instance lock_of_inj : Inj (=) (=) lock_of.
Proof. intros [] [] [= -> ->]. done. Qed.

Lemma shard_at_cell stores s i : shard_at i (default [] (stores !! s)) = default ∅ (cell stores (s, i)).
Proof. unfold cell, shard_at. cbn. by destruct (stores !! s). Qed.

Lemma cell_access f s i stores x :
  cell (alter (alter f i) s stores) x = if decide (x = (s, i)) then f <$> cell stores x else cell stores x.
Proof.
  destruct x as [s' i']. unfold cell. cbn. case_decide as Hx.
  - injection Hx as -> ->. rewrite lookup_alter_eq. destruct (stores !! s) as [l|]; [|done]. apply list_lookup_alter_eq.
  - destruct (decide (s' = s)) as [->|Hne]; [|by rewrite lookup_alter_ne].
    rewrite lookup_alter_eq. destruct (stores !! s) as [l|]; [|done]. cbn.
    apply list_lookup_alter_ne. congruence.
Qed.

Lemma memory_eq (stores stores' : memory) :
  dom stores = dom stores' → (∀ x, cell stores x = cell stores' x) → stores = stores'.
Proof.
  intros Hd Hc. apply map_eq. intros s. pose proof (λ i, Hc (s, i)) as Hs. unfold cell in Hs. cbn in Hs.
  assert (is_Some (stores !! s) ↔ is_Some (stores' !! s)) as Hdom by (by rewrite <-!elem_of_dom, Hd).
  destruct (stores !! s) as [l|], (stores' !! s) as [l'|]; cbn in Hs.
  - f_equal. by apply list_eq.
  - destruct Hdom as [[? ?] _]; [eauto|done].
  - destruct Hdom as [_ [? ?]]; [eauto|done].
  - done.
Qed.

(** ** Two phases *)

(** Shards are accessed under their locks, and none is locked after an access
    ([working]). *)
Fixpoint two_phase (working : bool) (h : holding) (p : mprog) : Prop :=
  match p with
  | MReturn _ => h = ∅
  | MAcquire ls p =>
      (working = true → Forall (λ l, is_shard l.1.2 = false) ls) ∧ two_phase working (take_locks ls h) p
  | MRelease l p => two_phase working (delete l h) p
  | MAccess s i m f next =>
      m_permits s i m h ∧ (m = Shared → ∀ d, f d = d) ∧ ∀ d, two_phase true h (next d)
  end.

Lemma take_locks_other ls x : ∀ h,
  Forall (λ l, is_shard l.1.2 = false) ls → take_locks ls h !! lock_of x = h !! lock_of x.
Proof.
  unfold take_locks. induction ls as [|[[s l] m] ls IH]; intros h Hls; cbn; [done|].
  apply Forall_cons in Hls as [Hl Hls]. rewrite IH by done.
  rewrite lookup_insert_ne; [done|]. intros [= _ ->]. done.
Qed.

Lemma disciplined_two_phase s g p : ∀ working h,
  disciplined working h p → two_phase working (kmap (place_of s g) h) (on s g p).
Proof.
  induction p as [r|l m p IH|l p IH|x m p IH|i m f next IH]; intros working h; cbn.
  - intros ->. apply (kmap_empty (place_of s g)).
  - intros (_ & _ & Hw & Hd). split.
    + intros ->. apply Forall_singleton. specialize (Hw eq_refl). by destruct l.
    + rewrite <-(kmap_insert (place_of s g)). by apply IH.
  - intros [_ Hd]. rewrite <-(kmap_delete (place_of s g)). by apply IH.
  - intros [_ Hd]. by apply IH.
  - intros (Hp & Hf & Hd). split; [by apply permits_on|]. split; [done|]. intros d. by apply IH.
Qed.

Lemma assigning_two_phase self other p : ∀ working h,
  assigning self other working h p → two_phase working h p.
Proof.
  induction p as [r|ls p IH|l p IH|s i m f next IH]; intros working h; cbn; [done|..].
  - intros (-> & _ & Hd). split; [done|by apply IH].
  - intros [_ Hd]. by apply IH.
  - intros (Hp & Hf & Hd). split; [done|]. split; [done|]. intros d. by apply IH.
Qed.

(** A shard that is not held exclusively is not changed by an access. *)
Lemma access_frame (h : holding) s i m f stores x :
  m_permits s i m h → (m = Shared → ∀ d, f d = d) → h !! lock_of x ≠ Some Exclusive →
  cell (alter (alter f i) s stores) x = cell stores x.
Proof.
  intros Hp Hf Hx. rewrite cell_access. case_decide as Heq; [subst x|done].
  destruct Hp as [Hp|[-> _]]; [done|]. destruct (cell stores (s, i)); cbn; [|done]. by rewrite Hf.
Qed.

Lemma mrun_frame p : ∀ h x stores,
  two_phase true h p → h !! lock_of x ≠ Some Exclusive → cell (mrun_alone p stores).1 x = cell stores x.
Proof.
  induction p as [r|ls p IH|l p IH|s i m f next IH]; intros h x stores Hd Hx; cbn in *; [done|..].
  - destruct Hd as [Hl Hd]. apply (IH _ _ _ Hd). by rewrite take_locks_other by auto.
  - apply (IH (delete l h)); [done|]. by intros [_ ?]%lookup_delete_Some.
  - destruct Hd as (Hp & Hf & Hd). rewrite (IH _ h) by done. by apply (access_frame h s i m).
Qed.

Definition same_held (h : holding) (stores stores' : memory) : Prop :=
  ∀ x, is_Some (h !! lock_of x) → cell stores x = cell stores' x.

Lemma permits_held s i m h : m_permits s i m h → is_Some (h !! lock_of (s, i)).
Proof. unfold lock_of. cbn. intros [->|[_ ->]]; eauto. Qed.

Lemma same_held_access h f i s stores stores' :
  same_held h stores stores' → same_held h (alter (alter f i) s stores) (alter (alter f i) s stores').
Proof. intros Hs x Hx. rewrite !cell_access. case_decide; [f_equal|]; by apply Hs. Qed.

(** What is left of a working program depends on, and changes, what it holds. *)
Lemma mrun_footprint p : ∀ h stores stores',
  two_phase true h p → same_held h stores stores' →
  (mrun_alone p stores).2 = (mrun_alone p stores').2 ∧
  same_held h (mrun_alone p stores).1 (mrun_alone p stores').1.
Proof.
  induction p as [r|ls p IH|l p IH|s i m f next IH]; intros h stores stores' Hd Hs; cbn in *; [done|..].
  - destruct Hd as [Hl Hd]. specialize (Hl eq_refl).
    destruct (IH _ stores stores' Hd) as [Hr Hp].
    { intros x. rewrite take_locks_other by done. apply Hs. }
    split; [done|]. intros x. rewrite <-(take_locks_other ls x h Hl). apply Hp.
  - destruct (IH _ stores stores' Hd) as [Hr Hp].
    { intros x [m [_ Hx]%lookup_delete_Some]. eauto. }
    split; [done|]. intros x Hx. destruct (decide (l = lock_of x)) as [->|Hne].
    + rewrite !(mrun_frame p _ x _ Hd) by by rewrite lookup_delete_eq. by apply Hs.
    + apply Hp. by rewrite lookup_delete_ne.
  - destruct Hd as (Hp & Hf & Hd). pose proof (permits_held _ _ _ _ Hp) as Hx.
    rewrite !shard_at_cell, (Hs _ Hx). apply IH; [apply Hd|]. by apply same_held_access.
Qed.

(** ** The calls on maps *)

(** Where a call is between its invocation and its response. *)
Inductive status {C : Type} := Invoked (c : C) | Performed (r : reply).
Arguments status : clear implicits.

Definition stores_of (c : store_call) : list nat :=
  match c with
  | OnStore s _ _ _ | CopyOf s | MoveOf s => [s]
  | AssignCopy self other | AssignMove self other => [self; other]
  end.

Section stores.
  Context (hash : bytes → Z) (iterate : gmap bytes bytes → list (bytes * bytes)).
  Context (iterate_spec : ∀ m, iterate m ≡ₚ map_to_list m).
  Context (has_snapshot : nat → bool).
  Context (moved_from : nat → gmap bytes bytes).
  (** What a move leaves in a shard has keys of that shard, if any. *)
  Context (moved_from_ok : ∀ i k, is_Some (moved_from i !! k) → ShardIndex hash k = i).
  Implicit Types (s g i : nat) (stores : memory) (o : fortune) (maps : gmap nat (gmap bytes bytes)).

(** What a store that was moved from holds. *)
Definition left_behind : gmap bytes bytes := all_data (moved_from <$> all_shards).

Definition map_of maps (s : nat) : gmap bytes bytes := default ∅ (maps !! s).

Definition store_atomic (c : store_call) (o : fortune) maps : gmap nat (gmap bytes bytes) * reply :=
  match c with
  | OnStore s _ has_wal c =>
      let (m, r) := atomic has_wal (has_snapshot s) c o (map_of maps s) in (<[s := m]> maps, r)
  | CopyOf s => (maps, if has_snapshot s then Threw else Captured (map_of maps s))
  | MoveOf s =>
      if has_snapshot s then (maps, Threw) else (<[s := left_behind]> maps, Captured (map_of maps s))
  | AssignCopy self other =>
      if bool_decide (self = other) then (maps, Done)
      else if has_snapshot self || has_snapshot other then (maps, Threw)
      else (<[self := map_of maps other]> maps, Done)
  | AssignMove self other =>
      if bool_decide (self = other) then (maps, Done)
      else if has_snapshot self || has_snapshot other then (maps, Threw)
      else (<[other := left_behind]> (<[self := map_of maps other]> maps), Done)
  end.

(** Every store has its shards in order. *)
Definition stores_ok stores : Prop := map_Forall (λ _ l, shards_ok hash l) stores.
Definition maps_of stores : gmap nat (gmap bytes bytes) := all_data <$> stores.

(** A call that runs alone does to the maps what [effect] does. *)
Definition m_performs (needs : list nat) (p : mprog) (effect : gmap nat (gmap bytes bytes) → gmap nat (gmap bytes bytes) * reply) : Prop :=
  ∀ stores, stores_ok stores → (∀ s, s ∈ needs → is_Some (stores !! s)) →
    stores_ok (mrun_alone p stores).1 ∧ dom (mrun_alone p stores).1 = dom stores ∧
    (maps_of (mrun_alone p stores).1, (mrun_alone p stores).2) = effect (maps_of stores).

Lemma map_of_maps_of stores s l : stores !! s = Some l → map_of (maps_of stores) s = all_data l.
Proof. intros Hs. unfold map_of, maps_of. by rewrite lookup_fmap, Hs. Qed.

Lemma mrun_on s g (p : prog) : ∀ stores l, stores !! s = Some l →
  mrun_alone (on s g p) stores = (<[s := (run_alone p l).1]> stores, (run_alone p l).2).
Proof.
  induction p as [r|l m p IH|l p IH|x m p IH|i m f next IH]; intros stores l0 Hl; cbn;
    [by rewrite insert_id|by apply IH..|].
  rewrite Hl. cbn. rewrite (IH _ _ (alter f i l0)) by (by rewrite lookup_alter_eq, Hl).
  f_equal. apply map_eq. intros s'. destruct (decide (s = s')) as [<-|Hne].
  - by rewrite !lookup_insert_eq.
  - by rewrite !lookup_insert_ne, lookup_alter_ne.
Qed.

(** A call on one store. *)
Lemma m_performs_on s g (p : prog) (effect : gmap bytes bytes → gmap bytes bytes * reply) :
  performs hash p effect →
  m_performs [s] (on s g p) (λ maps, let (m, r) := effect (map_of maps s) in (<[s := m]> maps, r)).
Proof.
  intros Hp stores Hok Hs. destruct (Hs s) as [l Hl]; [by left|].
  destruct (Hp l) as [Hok' Heq]; [by apply (Hok s)|].
  rewrite (mrun_on s g p stores l Hl), (map_of_maps_of stores s l Hl), <-Heq. cbn [fst snd].
  split; [by apply map_Forall_insert_2|]. split; [|unfold maps_of; by rewrite fmap_insert].
  apply dom_insert_lookup_L. eauto.
Qed.

Lemma shards_ok_moved_from : shards_ok hash (moved_from <$> all_shards).
Proof.
  split; [done|]. intros i d k Hi Hk. rewrite list_lookup_fmap in Hi.
  destruct (all_shards !! i) as [j|] eqn:Hj; [|done]. injection Hi as <-.
  unfold all_shards in Hj. apply lookup_seq in Hj as [-> _]. by apply moved_from_ok.
Qed.

Lemma imap_moved_from (l : list (gmap bytes bytes)) :
  length l = Z.to_nat kShardCount → imap (λ i _, moved_from i) l = moved_from <$> all_shards.
Proof.
  intros Hl. rewrite <-(foldl_alter_all (λ i _, moved_from i)) by done.
  apply list_eq. intros i. unfold all_shards at 1. rewrite foldl_alter_seq, list_lookup_fmap.
  unfold all_shards. case_decide as Hi.
  - rewrite lookup_seq_lt by lia. cbn. destruct (lookup_lt_is_Some_2 l i) as [d ->]; [lia|done].
  - rewrite lookup_seq_ge by lia. cbn. apply lookup_ge_None. lia.
Qed.

(** The calls that run alone do to the maps what [store_atomic] does. *)
Lemma copy_program_performs (refuses : bool) :
  performs hash (copy_program refuses) (λ m, (m, if refuses then Threw else Captured m)).
Proof. intros l Hl. by rewrite run_copy_program by apply Hl. Qed.

Lemma move_program_performs (refuses : bool) :
  performs hash (move_program refuses moved_from) (λ m, if refuses then (m, Threw) else (left_behind, Captured m)).
Proof.
  intros l Hl. rewrite run_move_program by apply Hl. destruct refuses; [done|]. cbn [fst snd].
  rewrite imap_moved_from by apply Hl. split; [apply shards_ok_moved_from|done].
Qed.

Lemma assign_itself_performs self p : p = MReturn Done → m_performs [self; self] p (λ maps, (maps, Done)).
Proof. by intros -> stores Hok _. Qed.

Lemma assign_copy_performs (refuses : bool) self other :
  m_performs [self; other] (assign_copy_program hash iterate refuses self other)
    (λ maps, if bool_decide (self = other) then (maps, Done)
             else if refuses then (maps, Threw) else (<[self := map_of maps other]> maps, Done)).
Proof.
  case_bool_decide as Heq.
  { subst other. apply assign_itself_performs. unfold assign_copy_program. by rewrite bool_decide_true. }
  intros stores Hok Hs. destruct (Hs self) as [la Ha]; [by left|]. destruct (Hs other) as [lb Hb]; [by right; left|].
  pose proof (Hok _ _ Ha) as Hoka. pose proof (Hok _ _ Hb) as Hokb.
  rewrite (mrun_assign_copy hash iterate refuses self other la lb) by (done || apply Hoka || apply Hokb).
  destruct refuses; [done|]. cbn [fst snd].
  destruct (foldl_insert_in_shard hash (iterate (all_data lb)) _ (shards_ok_empty hash la (proj1 Hoka))) as [Hn Hd].
  split; [by apply map_Forall_insert_2|]. split; [apply dom_insert_lookup_L; eauto|].
  rewrite (map_of_maps_of stores other lb Hb). unfold maps_of.
  rewrite fmap_insert, Hd, all_data_empty, (left_id_L ∅ (∪)). by rewrite list_to_map_iterate.
Qed.

Lemma assign_move_performs (refuses : bool) self other :
  m_performs [self; other] (assign_move_program refuses moved_from self other)
    (λ maps, if bool_decide (self = other) then (maps, Done)
             else if refuses then (maps, Threw)
             else (<[other := left_behind]> (<[self := map_of maps other]> maps), Done)).
Proof.
  case_bool_decide as Heq.
  { subst other. apply assign_itself_performs. unfold assign_move_program. by rewrite bool_decide_true. }
  intros stores Hok Hs. destruct (Hs self) as [la Ha]; [by left|]. destruct (Hs other) as [lb Hb]; [by right; left|].
  pose proof (Hok _ _ Ha) as Hoka. pose proof (Hok _ _ Hb) as Hokb.
  rewrite (mrun_assign_move moved_from refuses self other la lb) by (done || apply Hoka || apply Hokb).
  destruct refuses; [done|]. cbn [fst snd]. rewrite imap_moved_from by apply Hokb.
  split; [apply map_Forall_insert_2; [apply shards_ok_moved_from|by apply map_Forall_insert_2]|]. split.
  - rewrite !dom_insert_L. assert (self ∈ dom stores ∧ other ∈ dom stores) as [? ?] by (rewrite !elem_of_dom; eauto).
    set_solver.
  - rewrite (map_of_maps_of stores other lb Hb). unfold maps_of. by rewrite !fmap_insert.
Qed.

Local Abbreviation program_of := (store_program hash iterate has_snapshot moved_from).

Lemma store_program_performs c o : m_performs (stores_of c) (program_of c o) (store_atomic c o).
Proof.
  destruct c as [s g w c|s|s|self other|self other]; cbn [stores_of store_program store_atomic].
  - by apply m_performs_on, program_performs.
  - intros stores Hok Hs. destruct (m_performs_on s s _ _ (copy_program_performs (has_snapshot s)) stores Hok Hs)
      as (Hok' & Hd & Heq). split; [done|]. split; [done|]. rewrite Heq. cbn. f_equal. apply insert_id.
    destruct (Hs s) as [l Hl]; [by left|]. unfold map_of, maps_of. by rewrite !lookup_fmap, Hl.
  - intros stores Hok Hs. destruct (m_performs_on s s _ _ (move_program_performs (has_snapshot s)) stores Hok Hs)
      as (Hok' & Hd & Heq). split; [done|]. split; [done|]. rewrite Heq. cbn.
    destruct (has_snapshot s); [|done]. f_equal. apply insert_id.
    destruct (Hs s) as [l Hl]; [by left|]. unfold map_of, maps_of. by rewrite !lookup_fmap, Hl.
  - apply assign_copy_performs.
  - apply assign_move_performs.
Qed.

Lemma store_program_two_phase c o : two_phase false ∅ (program_of c o).
Proof.
  assert (∀ s g p, disciplined false ∅ p → two_phase false ∅ (on s g p)) as Hon.
  { intros s g p Hp. rewrite <-(kmap_empty (place_of s g)). by apply disciplined_two_phase. }
  destruct c as [s g w c|s|s|self other|self other]; cbn [store_program].
  - apply Hon, program_disciplined.
  - apply Hon, copy_program_disciplined.
  - apply Hon, move_program_disciplined.
  - destruct (decide (self = other)) as [Heq|Hne].
    + unfold assign_copy_program. by rewrite bool_decide_true.
    + by apply (assigning_two_phase self other), assign_copy_assigning.
  - destruct (decide (self = other)) as [Heq|Hne].
    + unfold assign_move_program. by rewrite bool_decide_true.
    + by apply (assigning_two_phase self other), assign_move_assigning.
Qed.

(** ** The stores and the atomic maps *)

(** The threads with their locks, calling stores that exist. What a call finds
    besides the shards is open. *)
Inductive stores_step : option (event store_call) → world_of_stores → world_of_stores → Prop :=
| store_invoked t c o u u' :
    (∀ s, s ∈ stores_of c → is_Some (m_stores u !! s)) →
    m_begins hash iterate has_snapshot moved_from t c o u u' → stores_step (Some (Invoke t c)) u u'
| store_responds t r u u' : m_answers t r u u' → stores_step (Some (Respond t r)) u u'
| store_advances t u u' : m_advances t u u' → stores_step None u u'.

Record objects := Objects { obj_maps : gmap nat (gmap bytes bytes); obj_calls : gmap nat (status store_call) }.

(** An operation is performed as a whole, some time after it was invoked. *)
Inductive objects_step : option (event store_call) → objects → objects → Prop :=
| objects_invoked t c a :
    obj_calls a !! t = None →
    objects_step (Some (Invoke t c)) a (Objects (obj_maps a) (<[t := Invoked c]> (obj_calls a)))
| objects_performs t c o a :
    obj_calls a !! t = Some (Invoked c) →
    objects_step None a (Objects (store_atomic c o (obj_maps a)).1
                           (<[t := Performed (store_atomic c o (obj_maps a)).2]> (obj_calls a)))
| objects_responds t r a :
    obj_calls a !! t = Some (Performed r) →
    objects_step (Some (Respond t r)) a (Objects (obj_maps a) (delete t (obj_calls a))).

(** ** The simulation *)

Implicit Types (u : world_of_stores) (a : objects) (t : nat) (x : nat * nat) (h : holding) (r : reply).

(** [stores] is the memory, [ideal] what it would be if every call that has
    accessed a shard had finished. *)
Definition thread_simulates (stores ideal : memory) (th : mthread) (st : status store_call) : Prop :=
  match st with
  | Invoked c => ∃ o, two_phase false (m_held th) (m_code th) ∧
                      m_performs (stores_of c) (m_code th) (store_atomic c o) ∧
                      ∀ s, s ∈ stores_of c → is_Some (ideal !! s)
  | Performed r =>
      two_phase true (m_held th) (m_code th) ∧ (mrun_alone (m_code th) stores).2 = r ∧
      ∀ x, m_held th !! lock_of x = Some Exclusive → cell (mrun_alone (m_code th) stores).1 x = cell ideal x
  end.

(** [x] is not being modified. *)
Definition settled (ths : gmap nat mthread) (sts : gmap nat (status store_call)) x : Prop :=
  ∀ t th r, ths !! t = Some th → sts !! t = Some (Performed r) → m_held th !! lock_of x ≠ Some Exclusive.

Record simulates u a (ideal : memory) : Prop := {
  sim_behaved : well_behaved u;
  sim_ok : stores_ok ideal;
  sim_dom : dom (m_stores u) = dom ideal;
  sim_maps : maps_of ideal = obj_maps a;
  sim_idle : ∀ t, m_threads u !! t = None ↔ obj_calls a !! t = None;
  sim_threads : ∀ t th st, m_threads u !! t = Some th → obj_calls a !! t = Some st →
                           thread_simulates (m_stores u) ideal th st;
  sim_settled : ∀ x, settled (m_threads u) (obj_calls a) x → cell (m_stores u) x = cell ideal x
}.

Definition simulated u a : Prop := ∃ ideal, simulates u a ideal.

Lemma sim_status u a ideal t th :
  simulates u a ideal → m_threads u !! t = Some th → ∃ st, obj_calls a !! t = Some st.
Proof.
  intros Hsim Ht. destruct (obj_calls a !! t) as [st|] eqn:Hst; [eauto|].
  apply (sim_idle _ _ _ Hsim) in Hst. congruence.
Qed.

(** What a thread holds is settled, as far as the other threads go. *)
Lemma held_settled u a ideal t th c x :
  simulates u a ideal → m_threads u !! t = Some th → obj_calls a !! t = Some (Invoked c) →
  is_Some (m_held th !! lock_of x) → cell (m_stores u) x = cell ideal x.
Proof.
  intros Hsim Ht Hst [m Hm]. apply (sim_settled _ _ _ Hsim). intros t2 th2 r H2 Hst2 Hx.
  destruct (decide (t = t2)) as [->|Hne]; [congruence|].
  destruct (wb_locks u (sim_behaved _ _ _ Hsim) t t2 th th2 (lock_of x) m Exclusive); done.
Qed.

(** Another thread does not notice a change of shards it does not hold. *)
Lemma thread_simulates_frame stores stores' ideal ideal' th st :
  (∀ x, is_Some (m_held th !! lock_of x) → cell stores x = cell stores' x) →
  (∀ x, m_held th !! lock_of x = Some Exclusive → cell ideal x = cell ideal' x) →
  dom ideal = dom ideal' →
  thread_simulates stores ideal th st → thread_simulates stores' ideal' th st.
Proof.
  intros Hs Hi Hd. destruct st as [c|r].
  - intros (o & H2 & Hp & Hn). exists o. split; [done|]. split; [done|]. intros s Hin.
    rewrite <-elem_of_dom, <-Hd, elem_of_dom. by apply Hn.
  - intros (H2 & Hr & Hp). split; [done|].
    destruct (mrun_footprint _ _ _ _ H2 Hs) as [Hr' Hp']. split; [by rewrite <-Hr'|].
    intros x Hx. rewrite <-(Hp' x) by (rewrite Hx; eauto). rewrite <-Hi by done. by apply Hp.
Qed.

(** Two threads do not hold a shard that one of them holds exclusively. *)
Lemma exclusive_alone u t1 t2 th1 th2 x :
  well_behaved u → t1 ≠ t2 → m_threads u !! t1 = Some th1 → m_threads u !! t2 = Some th2 →
  m_held th1 !! lock_of x = Some Exclusive → m_held th2 !! lock_of x = None.
Proof.
  intros Ho Hne H1 H2 Hx. destruct (m_held th2 !! lock_of x) as [m|] eqn:Hm; [|done].
  by destruct (wb_locks u Ho t1 t2 th1 th2 (lock_of x) Exclusive m) as [? _].
Qed.

(** A thread goes on: it changed what it held exclusively, if anything. *)
Lemma simulates_update u a ideal t th stores' th' ideal' st' :
  simulates u a ideal → m_threads u !! t = Some th →
  well_behaved (Stores stores' (<[t := th']> (m_threads u))) → stores_ok ideal' →
  dom stores' = dom (m_stores u) → dom ideal' = dom ideal →
  thread_simulates stores' ideal' th' st' →
  (∀ x, m_held th !! lock_of x ≠ Some Exclusive →
        cell (m_stores u) x = cell stores' x ∧ cell ideal x = cell ideal' x) →
  (∀ x, m_held th !! lock_of x = Some Exclusive →
        (∀ r, st' = Performed r → m_held th' !! lock_of x ≠ Some Exclusive) →
        cell stores' x = cell ideal' x) →
  simulates (Stores stores' (<[t := th']> (m_threads u)))
    (Objects (maps_of ideal') (<[t := st']> (obj_calls a))) ideal'.
Proof.
  intros Hsim Ht Ho Hok Hdm Hdi Hth Hsame Hheld. split; cbn [m_threads m_stores obj_maps obj_calls]; [done..| |done| | |].
  - rewrite Hdm, Hdi. apply Hsim.
  - intros t2. destruct (decide (t = t2)) as [->|Hne]; [by rewrite !lookup_insert_eq|].
    rewrite !lookup_insert_ne by done. apply (sim_idle _ _ _ Hsim).
  - intros t2 th2 st2. destruct (decide (t = t2)) as [->|Hne].
    { rewrite !lookup_insert_eq. by intros [= <-] [= <-]. }
    rewrite !lookup_insert_ne by done. intros H2 Hst2.
    apply (thread_simulates_frame (m_stores u) stores' ideal ideal'); [| |done|by apply (sim_threads _ _ _ Hsim t2)].
    + intros x Hi. apply Hsame. intros Hx.
      rewrite (exclusive_alone u t t2 th th2 x) in Hi; [by destruct Hi|apply Hsim|done..].
    + intros x Hi. apply Hsame. intros Hx.
      rewrite (exclusive_alone u t t2 th th2 x) in Hi; [done|apply Hsim|done..].
  - intros x Hset. destruct (decide (m_held th !! lock_of x = Some Exclusive)) as [Hx|Hx].
    + apply Hheld; [done|]. intros r ->. apply (Hset t th' r); by rewrite lookup_insert_eq.
    + destruct (Hsame x Hx) as [<- <-]. apply (sim_settled _ _ _ Hsim).
      intros t2 th2 r H2 Hst2. destruct (decide (t = t2)) as [->|Hne]; [by simplify_eq|].
      apply (Hset t2 th2 r); by rewrite lookup_insert_ne.
Qed.

Lemma objects_id a st t ideal :
  maps_of ideal = obj_maps a → obj_calls a !! t = Some st →
  Objects (maps_of ideal) (<[t := st]> (obj_calls a)) = a.
Proof. intros -> Hst. rewrite insert_id by done. by destruct a. Qed.

(** A step that leaves the memory alone, by a thread whose status stays. *)
Lemma simulates_stutter u a ideal t th th' st :
  simulates u a ideal → m_threads u !! t = Some th → obj_calls a !! t = Some st →
  well_behaved (set_mthread t th' u) → thread_simulates (m_stores u) ideal th' st →
  (∀ r x, st = Performed r → m_held th !! lock_of x = Some Exclusive →
          m_held th' !! lock_of x ≠ Some Exclusive → cell (m_stores u) x = cell ideal x) →
  simulated (set_mthread t th' u) a.
Proof.
  intros Hsim Ht Hst Ho Hth Hheld. exists ideal.
  rewrite <-(objects_id a st t ideal) by (try done; apply Hsim).
  apply (simulates_update u a ideal t th); try done; [apply Hsim|].
  intros x Hx Hn. destruct st as [c|r]; [|by eauto].
  apply (held_settled u a ideal t th c); [done..|]. rewrite Hx. eauto.
Qed.

Lemma simulates_acquire u a ideal t ro h ls p :
  simulates u a ideal → m_threads u !! t = Some (MThread ro h (MAcquire ls p)) →
  well_behaved (set_mthread t (MThread ro (take_locks ls h) p) u) →
  simulated (set_mthread t (MThread ro (take_locks ls h) p) u) a.
Proof.
  intros Hsim Ht Ho. destruct (sim_status _ _ _ _ _ Hsim Ht) as [st Hst].
  pose proof (sim_threads _ _ _ Hsim _ _ _ Ht Hst) as Hth.
  apply (simulates_stutter u a ideal t _ _ st Hsim Ht Hst Ho); cbn.
  - destruct st as [c|r]; cbn in *.
    + destruct Hth as (o & [_ H2] & Hp). by exists o.
    + destruct Hth as ([Hl H2] & Hr & Hp). split; [done|]. split; [done|].
      intros x. rewrite take_locks_other by auto. apply Hp.
  - intros r x -> Hx Hn. destruct Hth as ([Hl _] & _). destruct Hn. by rewrite take_locks_other by auto.
Qed.

Lemma simulates_release u a ideal t ro h l p :
  simulates u a ideal → m_threads u !! t = Some (MThread ro h (MRelease l p)) →
  well_behaved (set_mthread t (MThread ro (delete l h) p) u) →
  simulated (set_mthread t (MThread ro (delete l h) p) u) a.
Proof.
  intros Hsim Ht Ho. destruct (sim_status _ _ _ _ _ Hsim Ht) as [st Hst].
  pose proof (sim_threads _ _ _ Hsim _ _ _ Ht Hst) as Hth.
  apply (simulates_stutter u a ideal t _ _ st Hsim Ht Hst Ho); cbn.
  - destruct st as [c|r]; [done|]. destruct Hth as (H2 & Hr & Hp). split; [done|]. split; [done|].
    cbn [m_held]. intros x [_ Hx]%lookup_delete_Some. by apply Hp.
  - intros r x -> Hx Hn. destruct Hth as (H2 & _ & Hp). rewrite <-(Hp x Hx).
    symmetry. by apply (mrun_frame p (delete l h)).
Qed.

(** The first access of a call performs the operation. *)
Lemma simulates_perform u a ideal t ro h s i m f next c :
  simulates u a ideal → m_threads u !! t = Some (MThread ro h (MAccess s i m f next)) →
  obj_calls a !! t = Some (Invoked c) →
  let d := shard_at i (default [] (m_stores u !! s)) in
  let u' := Stores (alter (alter f i) s (m_stores u)) (<[t := MThread ro h (next d)]> (m_threads u)) in
  well_behaved u' → ∃ a', objects_step None a a' ∧ simulated u' a'.
Proof.
  intros Hsim Ht Hst d u' Ho. pose proof (sim_threads _ _ _ Hsim _ _ _ Ht Hst) as (o & H2 & Hp & Hn).
  cbn [m_held m_code] in *. pose proof H2 as (Hi & Hf & Hd).
  destruct (Hp ideal (sim_ok _ _ _ Hsim) Hn) as (Hok & Hdom & Heq). rewrite (sim_maps _ _ _ Hsim) in Heq.
  exists (Objects (store_atomic c o (obj_maps a)).1 (<[t := Performed (store_atomic c o (obj_maps a)).2]> (obj_calls a))).
  split; [by apply objects_performs|]. exists (mrun_alone (MAccess s i m f next) ideal).1.
  rewrite <-Heq. cbn [fst snd].
  assert (same_held h (m_stores u) ideal) as Hsh
    by (intros x Hx; by apply (held_settled u a ideal t _ c x Hsim Ht)).
  assert (shard_at i (default [] (ideal !! s)) = d) as Hat.
  { unfold d. rewrite !shard_at_cell. by rewrite (Hsh (s, i)) by by eapply permits_held. }
  cbn [mrun_alone] in *. rewrite Hat in *.
  destruct (mrun_footprint _ h _ _ (Hd d) (same_held_access h f i s _ _ Hsh)) as [Hr Hfoot].
  apply (simulates_update u a ideal t _ _ _ _ _ Hsim Ht Ho Hok); [apply dom_alter_L|done|..].
  - split; [apply Hd|]. split; [done|]. intros x Hx. apply Hfoot. cbn in Hx. rewrite Hx. eauto.
  - intros x Hx. cbn in Hx. split; [by rewrite (access_frame h s i m)|].
    rewrite (mrun_frame _ h) by (try apply Hd; done). by rewrite (access_frame h s i m).
  - intros x Hx Hnx. by destruct (Hnx _ eq_refl).
Qed.

Lemma simulates_work u a ideal t ro h s i m f next r :
  simulates u a ideal → m_threads u !! t = Some (MThread ro h (MAccess s i m f next)) →
  obj_calls a !! t = Some (Performed r) →
  let d := shard_at i (default [] (m_stores u !! s)) in
  let u' := Stores (alter (alter f i) s (m_stores u)) (<[t := MThread ro h (next d)]> (m_threads u)) in
  well_behaved u' → simulated u' a.
Proof.
  intros Hsim Ht Hst d u' Ho. pose proof (sim_threads _ _ _ Hsim _ _ _ Ht Hst) as ((Hi & Hf & Hd) & Hr & Hp).
  exists ideal. rewrite <-(objects_id a (Performed r) t ideal) by (try done; apply Hsim).
  apply (simulates_update u a ideal t _ _ _ _ _ Hsim Ht Ho); [apply Hsim|apply dom_alter_L|done|..].
  - split; [apply Hd|]. done.
  - intros x Hx. split; [|done]. by rewrite (access_frame h s i m).
  - intros x Hx Hnx. by destruct (Hnx _ eq_refl).
Qed.

Lemma simulates_advance u a t u' :
  simulated u a → m_advances t u u' → ∃ a', execution objects_step a [] a' ∧ simulated u' a'.
Proof.
  intros [ideal Hsim] Hs. pose proof (well_behaved_advances t u u' (sim_behaved _ _ _ Hsim) Hs) as Ho'.
  destruct Hs as [ro h ls p Ht Hg|ro h l p Ht|ro h s i m f next Ht].
  - exists a. split; [constructor|]. by eapply simulates_acquire.
  - exists a. split; [constructor|]. by eapply simulates_release.
  - destruct (sim_status _ _ _ _ _ Hsim Ht) as [[c|r] Hst].
    + destruct (simulates_perform u a ideal t ro h s i m f next c) as (a' & Ha & Hs'); [done..|].
      exists a'. split; [|done]. eapply execution_silent; [done|constructor].
    + exists a. split; [constructor|]. by eapply simulates_work.
Qed.

(** A call that reached its end without an access performs its operation when it
    responds. *)
Lemma sim_ready u a ideal t ro h r :
  simulates u a ideal → m_threads u !! t = Some (MThread ro h (MReturn r)) →
  ∃ a', execution objects_step a [] a' ∧ simulates u a' ideal ∧ obj_calls a' !! t = Some (Performed r).
Proof.
  intros Hsim Ht. destruct (sim_status _ _ _ _ _ Hsim Ht) as [[c|r'] Hst].
  - destruct (sim_threads _ _ _ Hsim _ _ _ Ht Hst) as (o & H2 & Hp & Hn). cbn in H2. subst h.
    destruct (Hp ideal (sim_ok _ _ _ Hsim) Hn) as (_ & _ & Heq). cbn [mrun_alone fst snd m_code] in Heq.
    pose proof (sim_maps _ _ _ Hsim) as Hmap.
    exists (Objects (maps_of ideal) (<[t := Performed r]> (obj_calls a))). split; [|split].
    + eapply execution_silent; [|constructor].
      pose proof (objects_performs t c o a Hst) as Hperf. rewrite <-Hmap, <-Heq in Hperf. exact Hperf.
    + assert (Stores (m_stores u) (<[t := MThread ro ∅ (MReturn r)]> (m_threads u)) = u) as Hu
        by (rewrite insert_id by done; by destruct u).
      rewrite <-Hu at 1. apply (simulates_update u a ideal t _ _ _ _ _ Hsim Ht); try done.
      * rewrite Hu. apply Hsim.
      * apply Hsim.
    + apply lookup_insert_eq.
  - destruct (sim_threads _ _ _ Hsim _ _ _ Ht Hst) as (_ & Hr & _). cbn in Hr. subst r'.
    exists a. split; [constructor|]. by split.
Qed.

Lemma simulates_answer u a t r u' :
  simulated u a → m_answers t r u u' →
  ∃ a', execution objects_step a [Respond t r] a' ∧ simulated u' a'.
Proof.
  intros [ideal Hsim] Hs. pose proof (well_behaved_answers t r u u' (sim_behaved _ _ _ Hsim) Hs) as Ho'.
  destruct Hs as [ro h Ht]. destruct (sim_ready u a ideal t ro h r Hsim Ht) as (a1 & Hrun & Hsim1 & Hst).
  pose proof (sim_threads _ _ _ Hsim1 _ _ _ Ht Hst) as (H2 & _ & _). cbn in H2. subst h.
  exists (Objects (obj_maps a1) (delete t (obj_calls a1))). split.
  - apply (execution_app _ a [] a1 [Respond t r]); [done|].
    eapply execution_event; [by apply objects_responds|constructor].
  - exists ideal. split; cbn [m_threads m_stores obj_maps obj_calls]; [done|apply Hsim1..| | |].
    + intros t2. rewrite !lookup_delete_None. pose proof (sim_idle _ _ _ Hsim1 t2). tauto.
    + intros t2 th st [_ H3]%lookup_delete_Some [_ Hst2]%lookup_delete_Some.
      by apply (sim_threads _ _ _ Hsim1 t2).
    + intros x Hset. apply (sim_settled _ _ _ Hsim1). intros t2 th r2 H3 Hst2.
      destruct (decide (t = t2)) as [->|Hne]; [by simplify_eq|].
      apply (Hset t2 th r2); by rewrite lookup_delete_ne.
Qed.

Lemma simulates_begin u a t c o u' :
  simulated u a → (∀ s, s ∈ stores_of c → is_Some (m_stores u !! s)) →
  m_begins hash iterate has_snapshot moved_from t c o u u' →
  ∃ a', execution objects_step a [Invoke t c] a' ∧ simulated u' a'.
Proof.
  intros [ideal Hsim] Hex Hs.
  assert (well_behaved u') as Ho'
    by (apply (well_behaved_step hash iterate has_snapshot moved_from u); [apply Hsim|left; eauto]).
  destruct Hs as [Hn]. pose proof (proj1 (sim_idle _ _ _ Hsim t) Hn) as Hna.
  exists (Objects (obj_maps a) (<[t := Invoked c]> (obj_calls a))). split.
  { eapply execution_event; [by apply objects_invoked|constructor]. }
  exists ideal. split; cbn [m_threads m_stores obj_maps obj_calls set_mthread]; [done|apply Hsim..| | |].
  - intros t2. rewrite !lookup_insert_None. pose proof (sim_idle _ _ _ Hsim t2). tauto.
  - intros t2 th st [[<- <-]|[Hne H2]]%lookup_insert_Some.
    + rewrite lookup_insert_eq. intros [= <-]. exists o. split; [apply store_program_two_phase|].
      split; [apply store_program_performs|]. intros s Hin. rewrite <-elem_of_dom, <-(sim_dom _ _ _ Hsim), elem_of_dom.
      by apply Hex.
    + rewrite lookup_insert_ne by done. by apply (sim_threads _ _ _ Hsim t2).
  - intros x Hset. apply (sim_settled _ _ _ Hsim). intros t2 th r2 H2 Hst2.
    assert (t ≠ t2) by (intros ->; congruence).
    apply (Hset t2 th r2); by rewrite lookup_insert_ne.
Qed.

Lemma simulates_execution u es u' :
  execution stores_step u es u' → ∀ a, simulated u a →
  ∃ a', execution objects_step a es a' ∧ simulated u' a'.
Proof.
  intros Hrun. induction Hrun as [u|u1 u2 es u3 Hs _ IH|u1 e u2 es u3 Hs _ IH]; intros a Ha.
  - exists a. by split; [constructor|].
  - assert (∃ a', execution objects_step a [] a' ∧ simulated u2 a') as (a2 & Hr2 & Ha2)
      by (inversion Hs; subst; by eapply simulates_advance).
    destruct (IH a2 Ha2) as (a3 & Hr3 & Ha3). exists a3. split; [|done]. by apply (execution_app _ a [] a2 es).
  - assert (∃ a', execution objects_step a [e] a' ∧ simulated u2 a') as (a2 & Hr2 & Ha2)
      by (inversion Hs; subst; [by eapply simulates_begin|by eapply simulates_answer]).
    destruct (IH a2 Ha2) as (a3 & Hr3 & Ha3). exists a3. split; [|done]. by apply (execution_app _ a [e] a2 es).
Qed.

(** Stores that nobody is calling. *)
Lemma idle_simulated stores :
  stores_ok stores → simulated (Stores stores ∅) (Objects (maps_of stores) ∅).
Proof.
  intros Hok. exists stores. split; cbn; [split; cbn| | | | | |]; try done.
  all: intros *; by rewrite lookup_empty.
Qed.

(** What [stores_are_atomic] and the case of a single store rest on. *)
Lemma stores_simulated stores es u :
  stores_ok stores → execution stores_step (Stores stores ∅) es u →
  ∃ a, execution objects_step (Objects (maps_of stores) ∅) es a ∧
       (m_threads u = ∅ → stores_ok (m_stores u) ∧ maps_of (m_stores u) = obj_maps a).
Proof.
  intros Hok Hrun. destruct (simulates_execution _ _ _ Hrun _ (idle_simulated stores Hok))
    as (a & Ha & ideal & Hsim). exists a. split; [done|]. intros Hrest.
  assert (m_stores u = ideal) as ->; [|split; apply Hsim].
  apply memory_eq; [apply Hsim|]. intros x. apply (sim_settled _ _ _ Hsim). intros t th r Ht.
  by rewrite Hrest, lookup_empty in Ht.
Qed.

(** C4: Any number of stores is linearizable, assignments included. Whatever
    threads do with the member functions of the stores, and however they copy, move
    and assign stores, every history of invocations and responses is a history of
    maps, one for each store, whose operations take effect at a single moment
    between invocation and response: an assignment replaces one map by another at
    once, and no call sees a part of it. When no call is in progress, the shards
    hold exactly those maps. *)
Theorem stores_are_atomic stores es u :
  stores_ok stores → execution stores_step (Stores stores ∅) es u →
  ∃ a, execution objects_step (Objects (maps_of stores) ∅) es a ∧
       (m_threads u = ∅ → stores_ok (m_stores u) ∧ maps_of (m_stores u) = obj_maps a).
Proof. apply stores_simulated. Qed.

End stores.
