(* ===== verification/StoreAtomicity.v ===== *)
(** * One store and its threads

    Any number of threads call the member functions of a [KVStore] while its
    checkpoint thread runs, each by the programs of [StoreCalls]. Every call takes
    effect at one moment between its invocation and its response: the store
    implements a map whose operations are atomic, which is the case of a single
    store in [Linearizability]. No two threads race, none waits forever. *)

From S2P Require Import Prelude Machine BinaryIO Crc WalFormat WalReplay SnapshotFile Journal.
From S2P Require Import KVStore StoreSharding StoreLocks StoreCalls StoreAssignment Linearizability.

Section atomicity.
  Context (hash : bytes → Z) (iterate : gmap bytes bytes → list (bytes * bytes)).
  Context (iterate_spec : ∀ m, iterate m ≡ₚ map_to_list m).
  Context (has_wal has_snapshot : bool).
  Local Abbreviation program := (program hash iterate has_wal has_snapshot).
  Local Abbreviation atomic := (atomic has_wal has_snapshot).
  Local Abbreviation shards_ok := (shards_ok hash).
  Implicit Types (s : system) (t : nat) (c : call) (o : fortune) (r : reply).

(** The threads with their locks. What a call finds besides the shards is open. *)
Inductive calls_step : option (event call) → system → system → Prop :=
| call_invoked t c o s s' : begins t (program c o) s s' → calls_step (Some (Invoke t c)) s s'
| call_responds t r s s' : answers t r s s' → calls_step (Some (Respond t r)) s s'
| call_advances t s s' : advances t s s' → calls_step None s s'.

(** ** The atomic map *)

Record object := Object { obj_map : gmap bytes bytes; obj_status : gmap nat (status call) }.

(** An operation is performed as a whole, some time after it was invoked. *)
Inductive object_step : option (event call) → object → object → Prop :=
| object_invoked t c a :
    obj_status a !! t = None →
    object_step (Some (Invoke t c)) a (Object (obj_map a) (<[t := Invoked c]> (obj_status a)))
| object_performs t c o a :
    obj_status a !! t = Some (Invoked c) →
    object_step None a (Object (atomic c o (obj_map a)).1
                          (<[t := Performed (atomic c o (obj_map a)).2]> (obj_status a)))
| object_responds t r a :
    obj_status a !! t = Some (Performed r) →
    object_step (Some (Respond t r)) a (Object (obj_map a) (delete t (obj_status a))).

(** ** The store as the only one *)

Definition single_thread (th : thread) : mthread :=
  MThread (OfStore 0 0) (kmap (place_of 0 0) (th_held th)) (on 0 0 (th_code th)).
Definition single s : world_of_stores :=
  Stores {[ 0%nat := sys_shards s ]} (single_thread <$> sys_threads s).

Definition single_call c : store_call := OnStore 0 0 has_wal c.
Definition single_event (e : event call) : event store_call :=
  match e with Invoke t c => Invoke t (single_call c) | Respond t r => Respond t r end.
Definition single_status (st : status call) : status store_call :=
  match st with Invoked c => Invoked (single_call c) | Performed r => Performed r end.
Definition single_object (a : object) : objects :=
  Objects {[ 0%nat := obj_map a ]} (single_status <$> obj_status a).

Local Abbreviation stores_step := (stores_step hash iterate (λ _, has_snapshot) (λ _, ∅)).
Local Abbreviation objects_step := (objects_step (λ _, has_snapshot) (λ _, ∅)).

Lemma single_thread_fresh (p : prog) : single_thread (Thread ∅ p) = MThread (OfStore 0 0) ∅ (on 0 0 p).
Proof. unfold single_thread. cbn. by rewrite (kmap_empty (place_of 0 0)). Qed.

Lemma single_thread_acquired h l m (p : prog) :
  single_thread (Thread (<[l := m]> h) p)
  = MThread (OfStore 0 0) (take_locks [(place_of 0 0 l, m)] (kmap (place_of 0 0) h)) (on 0 0 p).
Proof. unfold single_thread. cbn. by rewrite (kmap_insert (place_of 0 0)). Qed.

Lemma single_thread_released h l (p : prog) :
  single_thread (Thread (delete l h) p)
  = MThread (OfStore 0 0) (delete (place_of 0 0 l) (kmap (place_of 0 0) h)) (on 0 0 p).
Proof. unfold single_thread. cbn. by rewrite (kmap_delete (place_of 0 0)). Qed.

Lemma single_lookup s t th : sys_threads s !! t = Some th → m_threads (single s) !! t = Some (single_thread th).
Proof. intros Ht. cbn. by rewrite lookup_fmap, Ht. Qed.

Lemma single_free s t l m : grantable s t l m → free_for (single s) t (place_of 0 0 l) m.
Proof.
  intros Hg t' th' Ht Hne. cbn in Ht. apply lookup_fmap_Some in Ht as (th & <- & Ht).
  cbn [single_thread m_held]. rewrite (lookup_kmap (place_of 0 0)). by apply (Hg t' th).
Qed.

(** Touching other data is no step there. *)
Lemma single_step e s s' :
  calls_step e s s' → stores_step (single_event <$> e) (single s) (single s') ∨ e = None ∧ single s' = single s.
Proof.
  intros [t c o s1 s2 [Hn]|t r s1 s2 [h Ht]|t s1 s2 [h l m p Ht Hg|h l p Ht|h x m p Ht|h i m f next Ht]];
    try apply single_lookup in Ht as Ht'; unfold single, set_thread; cbn [sys_shards sys_threads];
    rewrite ?fmap_insert, ?fmap_delete.
  - left. apply (store_invoked _ _ _ _ t (single_call c) o).
    { intros s0 Hs. apply list_elem_of_singleton in Hs as ->. cbn [m_stores]. rewrite lookup_singleton_eq. eauto. }
    rewrite single_thread_fresh. apply (m_begin hash iterate (λ _, has_snapshot) (λ _, ∅) t (single_call c) o (single s1)).
    cbn. by rewrite lookup_fmap, Hn.
  - left. apply store_responds. by apply (m_answer t r (single s1) (OfStore 0 0) (kmap (place_of 0 0) h)).
  - left. apply (store_advances _ _ _ _ t). rewrite single_thread_acquired.
    apply (m_acquire t (single s1)); [done|]. apply Forall_singleton. by apply single_free.
  - left. apply (store_advances _ _ _ _ t). rewrite single_thread_released. by apply (m_release t (single s1)).
  - right. split; [done|]. f_equal. apply insert_id. exact Ht'.
  - left. apply (store_advances _ _ _ _ t).
    pose proof (m_access t (single s1) _ _ _ _ _ _ _ Ht') as Ha. cbn [single m_stores m_threads] in Ha.
    by rewrite alter_singleton_eq, lookup_singleton_eq in Ha.
Qed.

Lemma single_execution s es s' :
  execution calls_step s es s' → execution stores_step (single s) (single_event <$> es) (single s').
Proof.
  intros Hrun. induction Hrun as [s|s1 s2 es s3 Hs _ IH|s1 e s2 es s3 Hs _ IH]; cbn.
  - constructor.
  - destruct (single_step _ _ _ Hs) as [Hs'|[_ <-]]; [by eapply execution_silent|done].
  - destruct (single_step _ _ _ Hs) as [Hs'|[? _]]; [by eapply execution_event|done].
Qed.

Lemma store_atomic_single c o (m : gmap bytes bytes) :
  store_atomic (λ _, has_snapshot) (λ _, ∅) (single_call c) o {[ 0%nat := m ]}
  = ({[ 0%nat := (atomic c o m).1 ]}, (atomic c o m).2).
Proof.
  unfold store_atomic, single_call, map_of. rewrite lookup_singleton_eq. cbn.
  destruct (atomic c o m) as [m' r] eqn:E. by rewrite insert_singleton_eq.
Qed.

(** Every step of the maps with a single one is a step of that one. *)
Lemma single_object_step e a b :
  objects_step (single_event <$> e) (single_object a) b → ∃ a', object_step e a a' ∧ b = single_object a'.
Proof.
  intros Hs. inversion Hs as [t c a1 Hn He|t c o a1 Hst He|t r a1 Hst He]; subst.
  - cbn in Hn. destruct e as [[t' c'|]|]; try done. injection He as -> ->. rewrite lookup_fmap, fmap_None in Hn.
    eexists. split; [by apply object_invoked|]. unfold single_object. cbn. by rewrite fmap_insert.
  - destruct e; [done|]. cbn in Hst. apply lookup_fmap_Some in Hst as ([c'|] & Hc & Hst); [|done]. injection Hc as <-.
    eexists. split; [by apply (object_performs t c' o)|].
    cbn [single_object obj_maps obj_calls]. rewrite store_atomic_single. unfold single_object. cbn. by rewrite fmap_insert.
  - destruct e as [[|t' r']|]; try done. injection He as -> ->. cbn in Hst.
    apply lookup_fmap_Some in Hst as ([|r2] & Hr & Hst); [done|]. injection Hr as ->.
    eexists. split; [by apply object_responds|]. unfold single_object. cbn. by rewrite fmap_delete.
Qed.

Lemma single_object_execution x es b :
  execution objects_step x es b → ∀ a es', x = single_object a → es = single_event <$> es' →
  ∃ a', execution object_step a es' a' ∧ b = single_object a'.
Proof.
  intros Hrun. induction Hrun as [x|x1 x2 es x3 Hs _ IH|x1 e x2 es x3 Hs _ IH]; intros a es' -> Hes.
  - destruct es' as [|e es']; [|done]. exists a. split; [constructor|done].
  - destruct (single_object_step None a x2 Hs) as (a2 & Ha2 & ->).
    destruct (IH a2 es' eq_refl Hes) as (a3 & Ha3 & ->). exists a3. split; [by eapply execution_silent|done].
  - destruct es' as [|e' es']; [done|]. injection Hes as -> ->.
    destruct (single_object_step (Some e') a x2 Hs) as (a2 & Ha2 & ->).
    destruct (IH a2 es' eq_refl eq_refl) as (a3 & Ha3 & ->). exists a3. split; [by eapply execution_event|done].
Qed.

(** A store that nobody is calling. *)
Definition at_rest (shards : list (gmap bytes bytes)) : system := System shards ∅.

Lemma execution_orderly shards es s : execution calls_step (at_rest shards) es s → orderly s.
Proof.
  assert (orderly (at_rest shards)) as Ho by (split; cbn; intros *; by rewrite lookup_empty).
  assert (∀ e s1 s2, calls_step e s1 s2 → orderly s1 → orderly s2) as Hstep.
  { intros e s1 s2 [t c o s3 s4 Hs|t r s3 s4 Hs|t s3 s4 Hs] H1.
    - eapply orderly_begins; [done| |done]. apply program_disciplined.
    - by eapply orderly_answers.
    - by eapply orderly_advances. }
  intros Hrun. revert Ho. induction Hrun; eauto.
Qed.

(** ** The properties *)

(** C3: The store is linearizable. Whatever the threads and the checkpoint thread
    do with the member functions, every history of invocations and responses is a
    history of a map whose operations take effect at a single moment between
    invocation and response. When no call is in progress, the shards hold exactly
    that map. *)
Theorem calls_are_atomic shards es s :
  shards_ok shards → execution calls_step (at_rest shards) es s →
  ∃ a, execution object_step (Object (all_data shards) ∅) es a ∧
       (sys_threads s = ∅ → shards_ok (sys_shards s) ∧ all_data (sys_shards s) = obj_map a).
Proof.
  intros Hok Hrun. apply single_execution in Hrun.
  assert (∀ i k, is_Some ((∅ : gmap bytes bytes) !! k) → ShardIndex hash k = i) as Hmoved
    by (intros i k [v Hv]; by rewrite lookup_empty in Hv).
  destruct (stores_simulated hash iterate iterate_spec (λ _, has_snapshot) (λ _, ∅) Hmoved _ _ _
              (proj2 (map_Forall_singleton (λ _, shards_ok) 0%nat _) Hok) Hrun) as (b & Hb & Hrest).
  unfold maps_of in Hb. cbn [single at_rest sys_shards] in Hb. rewrite map_fmap_singleton in Hb.
  destruct (single_object_execution _ _ _ Hb (Object (all_data shards) ∅) es) as (a & Ha & ->); [|done|].
  { unfold single_object. cbn [obj_map obj_status]. by rewrite fmap_empty. }
  exists a. split; [done|]. intros Hidle. destruct Hrest as [Hok' Heq].
  { cbn. by rewrite Hidle, fmap_empty. }
  split; [apply (Hok' 0%nat); apply lookup_singleton_eq|]. unfold maps_of in Heq. cbn [single m_stores] in Heq.
  rewrite map_fmap_singleton in Heq. apply (f_equal (.!! 0%nat)) in Heq. cbn [single_object obj_maps] in Heq.
  rewrite !lookup_singleton_eq in Heq. by injection Heq.
Qed.

(** C12: No deadlock, and no call runs forever: as long as a call is in progress
    some thread can go on, even when a waiting writer makes new readers of its lock
    wait; the calls in progress cannot go on forever by themselves; and so all of
    them return. [WaitForCheckpoints], which waits for more than locks, is not among
    the calls; [CheckpointSignals] has it. *)
Theorem every_call_returns shards es s :
  execution calls_step (at_rest shards) es s →
  (sys_threads s ≠ ∅ → ∃ t, runnable s t) ∧ Acc (flip proceeds) s ∧
  ∃ s', rtc proceeds s s' ∧ sys_threads s' = ∅.
Proof.
  intros Hrun. pose proof (execution_orderly _ _ _ Hrun) as Ho.
  split; [by apply orderly_runnable|]. split; [apply proceeds_wf|].
  clear Hrun. induction (proceeds_wf s) as [s _ IH].
  destruct (decide (sys_threads s = ∅)) as [He|He]; [by exists s|].
  destruct (orderly_runnable s Ho He) as [t Hr]. destruct (runnable_proceeds s t Hr) as [s1 Hs1].
  destruct (IH s1 Hs1) as (s' & Hs' & He').
  { destruct Hs1 as [t1 [Ha|[r Ha]]]; [by eapply orderly_advances|by eapply orderly_answers]. }
  exists s'. split; [by eapply rtc_l|done].
Qed.

(** C20: No data race: two threads are never both about to access the same shard,
    the log's file, its format fields, the snapshot files or the checkpoint fields
    with one of them about to modify it; so the format fields of the log are safe
    although appends read them without [io_mutex_]. *)
Theorem no_data_race shards es s t1 t2 th1 th2 x m :
  execution calls_step (at_rest shards) es s →
  sys_threads s !! t1 = Some th1 → sys_threads s !! t2 = Some th2 → t1 ≠ t2 →
  ¬ (about_to th1 x Exclusive ∧ about_to th2 x m).
Proof.
  intros Hrun H1 H2 Hne [Ha1 Ha2]. apply (orderly_no_race s t1 t2 th1 th2 x m); [|done..].
  by eapply execution_orderly.
Qed.

End atomicity.
