(* ===== verification/StorePersistence.v ===== *)
(** * Memory, log and snapshot agree

    What a restart of the program would recover, after every member function of
    [KVStore] and every failure inside it. Proved against the interface of
    [Journal]. *)

From S2P Require Import Prelude Machine BinaryIO Crc WalFormat WalReplay SnapshotFile Journal.
From S2P Require Import KVStore StoreSharding.

Section persistence.
  Context {W : Type} `{JournalLaws W} (host : endianness).
  Context (hash : bytes → Z) (iterate : gmap bytes bytes → list (bytes * bytes)).
  Context (iterate_spec : ∀ m, iterate m ≡ₚ map_to_list m).
  Implicit Types (t : store_state W) (j : W) (w : world) (snap : Snapshot) (m : gmap bytes bytes).

(** ** What a restart recovers *)

(** The snapshot, then the log from the offset the snapshot covers. *)
Definition recover j snap w : res (gmap bytes bytes) :=
  match Load host (file_contents (snapshot_path snap) w) ∅ with
  | (Exn e, _) => Exn e
  | (Ok r, base) =>
      match journal_replay_from j w (wal_offset r) base with
      | Exn e => Exn e
      | Ok (_, m) => Ok m
      end
  end.

(** The files of the log and of the snapshot are different files. *)
Definition separate j snap : Prop := journal_path j ∉ snapshot_files snap.

(** The snapshot on disk is [base] and covers the records [rs1] of the log, whose
    effect [base] has. *)
Definition snapshot_covers j snap w (rs1 : list ParsedRecord) (base : gmap bytes bytes) : Prop :=
  ∃ r base0, Load host (file_contents (snapshot_path snap) w) ∅ = (Ok r, base) ∧
             journal_end j rs1 (wal_offset r) ∧ base = apply_records rs1 base0.

Lemma covers_recovers j snap w rs1 rs2 seen base :
  snapshot_covers j snap w rs1 base → journal_replays j w (rs1 ++ rs2) seen →
  recover j snap w = Ok (apply_records (rs2 ++ seen) base).
Proof.
  intros (r & base0 & Hl & He & _) Hr. unfold recover. rewrite Hl.
  by rewrite (Hr (wal_offset r) rs1 rs2).
Qed.

Lemma covers_frame j j' snap w w' rs1 base :
  snapshot_covers j snap w rs1 base → ends_kept j j' →
  files w' !! snapshot_path snap = files w !! snapshot_path snap → snapshot_covers j' snap w' rs1 base.
Proof.
  intros (r & base0 & Hl & He & Hb) Hk Hf. exists r, base0. split_and!; [|by apply Hk|done].
  unfold file_contents in *. by rewrite Hf.
Qed.

Lemma separate_snapshot j snap w w' :
  separate j snap → untouched [journal_path j] w w' →
  files w' !! snapshot_path snap = files w !! snapshot_path snap.
Proof.
  intros Hs Hu. apply Hu. rewrite list_elem_of_singleton. intros Heq. apply Hs. rewrite <-Heq. left.
Qed.

(** ** The agreement *)

(** Memory is what a restart recovers, and the log takes appends. *)
Record agree t j snap (rs1 rs2 : list ParsedRecord) (base : gmap bytes bytes) : Prop := {
  agree_ok : store_ok hash (kv t);
  agree_wal : wal_ (kv t) = Some j;
  agree_snapshot : snapshot_ (kv t) = Some snap;
  agree_separate : separate j snap;
  agree_log : journal_log j (kv_os t) (rs1 ++ rs2);
  agree_covers : snapshot_covers j snap (kv_os t) rs1 base;
  agree_contents : contents_of (kv t) = apply_records rs2 base
}.

Definition persistent t : Prop := ∃ j snap rs1 rs2 base, agree t j snap rs1 rs2 base.

(** A restart recovers [m]. *)
Definition recovers t m : Prop :=
  ∃ j snap, wal_ (kv t) = Some j ∧ snapshot_ (kv t) = Some snap ∧ recover j snap (kv_os t) = Ok m.

Lemma agree_recovers t j snap rs1 rs2 base :
  agree t j snap rs1 rs2 base → recovers t (contents_of (kv t)).
Proof.
  intros []. exists j, snap. split_and!; [done..|]. rewrite agree_contents0.
  rewrite (covers_recovers j snap _ rs1 rs2 [] base); [by rewrite app_nil_r|done|].
  by apply journal_log_replays.
Qed.

Lemma persistent_recovers t : persistent t → recovers t (contents_of (kv t)).
Proof. intros (j & snap & rs1 & rs2 & base & Ha). by eapply agree_recovers. Qed.

(** A call of the log, seen from the store. *)
Lemma wp_log_write t j snap rs1 rs2 base r (Q : unit → store_state W → Prop) E :
  agree t j snap rs1 rs2 base → record_ok r →
  (∀ j' w', let t' := StoreState (set_wal (Some j') (kv t)) w' in
     separate j' snap → journal_log j' w' (rs1 ++ rs2 ++ [r]) → snapshot_covers j' snap w' rs1 base →
     Q tt t') →
  (∀ e t', shards_ (kv t') = shards_ (kv t) →
     recovers t' (contents_of (kv t)) ∨ recovers t' (apply_record r (contents_of (kv t))) → E e t') →
  wp (on_wal_ptr tt (journal_write r)) Q E t.
Proof.
  intros [Hok Hw Hs Hsep Hlog Hcov Hcon] Hr HQ HE. apply wp_on_wal_ptr; [by rewrite Hw|].
  intros j0 Hj. rewrite Hw in Hj. injection Hj as <-.
  eapply wp_mono; [by apply journal_write_law| |]; cbn beta.
  - intros [] [j' w'] ([Hp Hf] & Hk & Hlog'). cbn [fst snd] in *. apply HQ.
    + unfold separate. by rewrite Hp.
    + by rewrite <-app_assoc in Hlog'.
    + eapply covers_frame; [done..|]. by eapply separate_snapshot.
  - intros e [j' w'] ([Hp Hf] & Hk & Hout). cbn [fst snd] in *. apply HE; [done|].
    assert (snapshot_covers j' snap w' rs1 base) as Hcov'.
    { eapply covers_frame; [done..|]. by eapply separate_snapshot. }
    assert (∀ seen, journal_replays j' w' (rs1 ++ rs2) seen →
              recovers (StoreState (set_wal (Some j') (kv t)) w')
                (apply_records seen (contents_of (kv t)))) as Hrec.
    { intros seen Hseen. exists j', snap. split_and!; [done..|]. cbn [kv_os].
      rewrite (covers_recovers _ _ _ rs1 rs2 seen base) by done.
      rewrite Hcon. unfold apply_records. by rewrite foldl_app. }
    destruct Hout as [Hl|(seen & [->| ->] & Hseen)].
    + left. apply (Hrec []). by apply journal_log_replays.
    + left. by apply (Hrec []).
    + right. by apply (Hrec [r]).
Qed.

Lemma recovers_same t t' m : same_persistence t t' → recovers t m → recovers t' m.
Proof. intros [] (j & snap & ? & ? & ?). exists j, snap. by rewrite same_wal, same_snapshot, same_os. Qed.

Lemma agree_same t t' j snap rs1 rs2 base :
  shards_ (kv t') = shards_ (kv t) → same_persistence t t' →
  agree t j snap rs1 rs2 base → agree t' j snap rs1 rs2 base.
Proof.
  intros Hsh [Hw Hs Ho] []. split; unfold store_ok, contents_of in *; by rewrite ?Hsh, ?Hw, ?Hs, ?Ho.
Qed.

(** [Set] and [Delete], by the record that they log. *)
Definition write (r : ParsedRecord) : M (store_state W) unit :=
  match rec_op r with
  | WalOp_Set => Set_ hash (rec_key r) (rec_value r)
  | WalOp_Delete => Delete hash (rec_key r) ;;; ret tt
  end.

Definition record_of_set (k v : bytes) : ParsedRecord :=
  {| rec_op := WalOp_Set; rec_key := k; rec_value := v |}.
Definition record_of_delete (k : bytes) : ParsedRecord :=
  {| rec_op := WalOp_Delete; rec_key := k; rec_value := [] |}.

(** The log first, then the shard. *)
Lemma wp_write t r (Q : unit → store_state W → Prop) E :
  store_ok hash (kv t) → (∀ e, E e t) →
  wp (on_wal_ptr tt (journal_write r))
    (λ _ t', ∀ t'', store_ok hash (kv t'') → same_persistence t' t'' →
       contents_of (kv t'') = apply_record r (contents_of (kv t)) → Q tt t'') E t →
  wp (write r) Q E t.
Proof.
  intros Hok HE Hm.
  assert (wp (on_wal_ptr tt (journal_write r)) (λ _, only_wal t) (λ _ _, True) t) as Honly
    by (by apply wp_on_wal_ptr_shards).
  pose proof (wp_and _ _ _ _ _ _ Hm Honly) as Hm'. clear Hm Honly.
  unfold write. destruct r as [[] k v]; cbn [rec_op rec_key rec_value]; [|wp_step].
  - apply wp_Set_; [by auto|]. eapply wp_mono; [exact Hm'| |by intros ? ? []]. cbn beta.
    intros [] t' [HQ [Ht']] t'' Hsh Hsame. rewrite Ht' in Hsh. cbn [shards_ set_wal] in Hsh.
    apply HQ; [|done|]; unfold contents_of, store_ok; rewrite Hsh.
    + apply shards_ok_alter; [done|intros ? ?; apply insert_keys].
    + by apply all_data_insert.
  - apply wp_Delete; [by auto|]. eapply wp_mono; [exact Hm'| |by intros ? ? []]. cbn beta.
    intros [] t' [HQ [Ht']] t'' Hsh Hsame. rewrite Ht' in Hsh. cbn [shards_ set_wal] in Hsh.
    wp_step. apply HQ; [|done|]; unfold contents_of, store_ok; rewrite Hsh.
    + apply shards_ok_alter; [done|intros ? ?; apply delete_keys].
    + by apply all_data_delete.
Qed.

Lemma write_agrees t j snap rs1 rs2 base r :
  agree t j snap rs1 rs2 base → record_ok r →
  wp (write r)
    (λ _ t', contents_of (kv t') = apply_record r (contents_of (kv t)) ∧
             ∃ j', agree t' j' snap rs1 (rs2 ++ [r]) base)
    (λ _ t', contents_of (kv t') = contents_of (kv t) ∧
             (recovers t' (contents_of (kv t)) ∨ recovers t' (apply_record r (contents_of (kv t))))) t.
Proof.
  intros Ha Hr. pose proof (agree_recovers _ _ _ _ _ _ Ha). apply wp_write; [apply Ha|by auto|].
  eapply wp_log_write; [done..| |].
  - intros j' w' t' Hsep Hlog Hcov t'' Hok [Hw Hs Ho] Hc. split; [done|]. exists j'.
    split; rewrite ?Hw, ?Hs, ?Ho; try done; [apply Ha|].
    by rewrite Hc, (agree_contents _ _ _ _ _ _ Ha), apply_records_snoc.
  - intros e t' Hsh Hout. unfold contents_of at 1. by rewrite Hsh.
Qed.

Lemma write_recoverable t r :
  persistent t → record_ok r →
  wp (write r)
    (λ _ t', persistent t' ∧ contents_of (kv t') = apply_record r (contents_of (kv t)) ∧
             recovers t' (contents_of (kv t')))
    (λ _ t', contents_of (kv t') = contents_of (kv t) ∧
             (recovers t' (contents_of (kv t)) ∨ recovers t' (apply_record r (contents_of (kv t))))) t.
Proof.
  intros (j & snap & rs1 & rs2 & base & Ha) Hr.
  eapply wp_mono; [by apply (write_agrees _ _ _ _ _ _ r Ha)| |done]. intros [] t' [Hc [j' Ha']].
  split_and!; [by exists j', snap, rs1, (rs2 ++ [r]), base|done|by eapply agree_recovers].
Qed.

(** C5: [Set] and [Delete] with a log and a snapshot: on success memory has
    the change and is again exactly what a restart recovers; on failure memory
    is unchanged and a restart recovers memory as it is, or with the change that
    was refused (a record whose write was cut off by the failure may be there). *)
Theorem writes_stay_recoverable t k v :
  persistent t →
  wp (Set_ hash k v)
    (λ _ t', persistent t' ∧ contents_of (kv t') = <[k := v]> (contents_of (kv t)) ∧
             recovers t' (contents_of (kv t')))
    (λ _ t', contents_of (kv t') = contents_of (kv t) ∧
             (recovers t' (contents_of (kv t)) ∨ recovers t' (<[k := v]> (contents_of (kv t))))) t ∧
  wp (Delete hash k)
    (λ _ t', persistent t' ∧ contents_of (kv t') = delete k (contents_of (kv t)) ∧
             recovers t' (contents_of (kv t')))
    (λ _ t', contents_of (kv t') = contents_of (kv t) ∧
             (recovers t' (contents_of (kv t)) ∨ recovers t' (delete k (contents_of (kv t))))) t.
Proof.
  intros Hp. split; [by apply (write_recoverable t (record_of_set k v))|].
  by apply wp_ignore, (write_recoverable t (record_of_delete k)).
Qed.

(** ** Saving and compacting *)

(** The snapshot format can hold the map. *)
Definition savable m : Prop :=
  map_Forall (λ k v, entry_readable (k, v)) m ∧ Z.of_nat (base.size m) ≤ u32_max.

Lemma savable_loads m off m0 :
  savable m → 0 ≤ off < 2 ^ 64 →
  Load host (Some (snapshot_image host (iterate m) off)) m0
  = (Ok {| loaded := true; entry_count := Z.of_nat (length (iterate m)); wal_offset := off |}, m).
Proof.
  intros [Hr Hn] Hoff. rewrite Load_image; [by rewrite list_to_map_iterate|by apply iterate_NoDup| |done|].
  - rewrite iterate_spec. apply Forall_forall. intros [k v] Hin%elem_of_map_to_list. by apply (Hr k v).
  - by rewrite iterate_spec, length_map_to_list.
Qed.

Lemma only_snapshot_wal snap j w w' :
  separate j snap → untouched (snapshot_files snap) w w' →
  files w' !! journal_path j = files w !! journal_path j.
Proof. intros Hs Hu. by apply Hu. Qed.

(** A published snapshot covers the log up to its offset. *)
Lemma published_covers j snap w m off rs1 :
  savable m → 0 ≤ off < 2 ^ 64 → published host snap (iterate m) off w →
  journal_end j rs1 off → (∃ base0, m = apply_records rs1 base0) →
  snapshot_covers j snap w rs1 m.
Proof.
  intros Hm Hoff Hp He [base0 Hb]. eexists _, base0. rewrite (published_contents _ _ _ _ _ Hp).
  by rewrite savable_loads.
Qed.

(** Memory is the effect of the whole log on something. *)
Lemma agree_whole_log t j snap rs1 rs2 base :
  agree t j snap rs1 rs2 base → ∃ base0, contents_of (kv t) = apply_records (rs1 ++ rs2) base0.
Proof.
  intros [_ _ _ _ _ (r & base0 & _ & _ & ->) ->]. exists base0. by rewrite apply_records_app.
Qed.

(** Replaying the whole log on top of memory changes nothing. *)
Lemma agree_replay_all t j snap rs1 rs2 base :
  agree t j snap rs1 rs2 base →
  apply_records (rs1 ++ rs2) (contents_of (kv t)) = contents_of (kv t).
Proof. intros [base0 ->]%agree_whole_log. apply apply_records_idemp. Qed.

Lemma wp_on_machine {A} (m : M world A) t (Q : A → store_state W → Prop) E :
  wp m (λ a w, Q a (StoreState (kv t) w)) (λ e w, E e (StoreState (kv t) w)) (kv_os t) →
  wp (on_machine m) Q E t.
Proof. intros Hm. apply wp_zoom. exact Hm. Qed.

(** The offset of the end of the log. *)
Lemma wp_current_offset t j snap rs1 rs2 base (Q : Z → store_state W → Prop) E :
  agree t j snap rs1 rs2 base →
  (∀ n j' w', let t' := StoreState (set_wal (Some j') (kv t)) w' in
     agree t' j' snap rs1 rs2 base → journal_end j' (rs1 ++ rs2) n → Q n t') →
  (∀ e t', shards_ (kv t') = shards_ (kv t) → recovers t' (contents_of (kv t)) → E e t') →
  wp (on_wal_ptr 0 journal_offset) Q E t.
Proof.
  intros [Hok Hw Hs Hsep Hlog Hcov Hcon] HQ HE. apply wp_on_wal_ptr; [by rewrite Hw|].
  intros j0 Hj. rewrite Hw in Hj. injection Hj as <-.
  eapply wp_mono; [by apply journal_offset_law| |]; cbn beta.
  - intros n [j' w'] ([Hp Hf] & Hk & Hlog' & He). cbn [fst snd] in *. apply HQ; [|done].
    split; try done; [unfold separate; by rewrite Hp|].
    eapply covers_frame; [done..|]. by eapply separate_snapshot.
  - intros e [j' w'] ([Hp Hf] & Hk & Hrep). cbn [fst snd] in *. apply HE; [done|].
    exists j', snap. split_and!; [done..|]. cbn [kv_os].
    rewrite (covers_recovers _ _ _ rs1 rs2 [] base); [by rewrite app_nil_r, Hcon| |done].
    eapply covers_frame; [done..|]. by eapply separate_snapshot.
Qed.

(** A member under the locks: on success memory is what it was and is agreed on
    again; after a failure a restart still recovers it. *)
Definition recoverable_call (m : M (store_state W) bool) (rotated : bool) : Prop :=
  ∀ u j snap rs1 rs2 base,
  agree u j snap rs1 rs2 base → savable (contents_of (kv u)) →
  wp m
    (λ b t', b = true ∧ contents_of (kv t') = contents_of (kv u) ∧
             ∃ j snap rs, (rotated → rs = []) ∧ agree t' j snap rs [] (contents_of (kv u)))
    (λ _ t', contents_of (kv t') = contents_of (kv u) ∧ recovers t' (contents_of (kv u)))
    u.

(** Publishing the effect of a part of the log, with the end of that part. *)
Lemma wp_publish t j snap rs1 rs2 base rsa rsb data base0 off (Q : unit → store_state W → Prop) E :
  agree t j snap rs1 rs2 base → savable data → rs1 ++ rs2 = rsa ++ rsb → journal_end j rsa off →
  data = apply_records rsa base0 → contents_of (kv t) = apply_records rsb data →
  (∀ w2, agree (StoreState (kv t) w2) j snap rsa rsb data →
         published host snap (iterate data) off w2 → Q tt (StoreState (kv t) w2)) →
  (∀ e w2, persistent (StoreState (kv t) w2) → E e (StoreState (kv t) w2)) →
  wp (on_machine (SaveVerified host snap (iterate data) off)) Q E t.
Proof.
  intros Ha Hsav Heq He Hd Hm HQ HE. apply wp_on_machine.
  assert (∀ w2, untouched (snapshot_files snap) (kv_os t) w2 → journal_log j w2 (rs1 ++ rs2)) as Hframe.
  { intros w2 H2. eapply journal_frame; [apply (agree_log _ _ _ _ _ _ Ha)|].
    by apply (only_snapshot_wal snap), H2; apply Ha. }
  assert (∀ w2, untouched (snapshot_files snap) (kv_os t) w2 → published host snap (iterate data) off w2 →
            agree (StoreState (kv t) w2) j snap rsa rsb data) as Hnew.
  { intros w2 H2 Hp. destruct Ha as [Hok Hw Hs Hsep Hlog Hcov Hcon].
    split; try done; cbn [kv_os]; [rewrite <-Heq; by apply Hframe|].
    apply (published_covers _ _ _ _ off); [done|by eapply journal_end_range|done|done|by exists base0]. }
  apply wp_SaveVerified; [by auto|]. intros e w2 H2 [Hp|Hold]; apply HE.
  - eexists _, _, _, _, _. by apply (Hnew w2 H2 Hp).
  - assert (agree (StoreState (kv t) w2) j snap rs1 rs2 base) as Hold'.
    { destruct Ha as [Hok Hw Hs Hsep Hlog Hcov Hcon]. split; try done; [by apply Hframe|].
      eapply covers_frame; [done|by intros ? ?|done]. }
    by eexists _, _, _, _, _.
Qed.

(** Publishing memory and the end of the log. *)
Lemma wp_publish_all t j snap rs1 rs2 base off (Q : unit → store_state W → Prop) E :
  agree t j snap rs1 rs2 base → savable (contents_of (kv t)) → journal_end j (rs1 ++ rs2) off →
  (∀ w2, agree (StoreState (kv t) w2) j snap (rs1 ++ rs2) [] (contents_of (kv t)) →
         Q tt (StoreState (kv t) w2)) →
  (∀ e w2, persistent (StoreState (kv t) w2) → E e (StoreState (kv t) w2)) →
  wp (on_machine (SaveVerified host snap (iterate (contents_of (kv t))) off)) Q E t.
Proof.
  intros Ha Hsav He HQ HE. destruct (agree_whole_log _ _ _ _ _ _ Ha) as [base0 Hb].
  eapply (wp_publish t j snap rs1 rs2 base _ [] _ base0); try done; [by rewrite app_nil_r|]. auto.
Qed.

Lemma wp_SaveSnapshotLocked : recoverable_call (SaveSnapshotLocked host iterate) false.
Proof.
  intros u j snap rs1 rs2 base Hu Hsav. unfold SaveSnapshotLocked, with_snapshot, on_kv. do 2 wp_step.
  rewrite (agree_snapshot _ _ _ _ _ _ Hu). wp_step. eapply wp_current_offset; [exact Hu| |].
  2: { intros e t' Hsh Hr. split; [|done]. unfold contents_of. by rewrite Hsh. }
  intros n j' w' t1 Ha' He. do 3 wp_step. eapply (wp_publish_all t1); [done..| |].
  2: { intros e w2 Hp. split; [done|exact (persistent_recovers _ Hp)]. }
  intros w2 Hnew. do 3 wp_step. split_and!; [done..|]. exists j', snap, (rs1 ++ rs2). split; [done|].
  by destruct Hnew; split.
Qed.

Lemma wp_CompactPersistenceLocked : recoverable_call (CompactPersistenceLocked host iterate) true.
Proof.
  intros u j snap rs1 rs2 base Hu Hsav. unfold CompactPersistenceLocked, with_snapshot, on_kv. do 2 wp_step.
  pose proof (agree_replay_all _ _ _ _ _ _ Hu) as Hidem.
  rewrite (agree_snapshot _ _ _ _ _ _ Hu). do 3 wp_step.
  eapply (wp_publish u j snap rs1 rs2 base [] (rs1 ++ rs2) _ (contents_of (kv u)));
    [done|done|done|apply journal_start|done|done| |].
  2: { intros e w2 Hp. split; [done|exact (persistent_recovers _ Hp)]. }
  intros w2 [Hok Hw Hs Hsep Hlog Hcov _] Hp.
  wp_step. apply wp_on_wal_ptr; [by cbn in *; rewrite Hw|].
  intros j0 Hj. cbn [kv kv_os] in *. rewrite Hw in Hj. injection Hj as <-.
  eapply wp_mono; [by apply journal_rotate_law| |]; cbn beta.
  - intros [] [j' w'] ([Hpath Hf] & Hlog'). cbn [fst snd] in *. do 3 wp_step.
    split_and!; [done..|]. exists j', snap, []. split; [done|]. split; try done.
    + unfold separate. by rewrite Hpath.
    + destruct Hcov as (r & base0 & Hl & He & Hb). cbn [kv_os] in *.
      pose proof (published_contents _ _ _ _ _ Hp) as Hpc.
      exists {| loaded := true; entry_count := Z.of_nat (length (iterate (contents_of (kv u))));
                wal_offset := 0 |}, (contents_of (kv u)).
      split_and!; [|apply journal_start|done].
      unfold file_contents in *. rewrite (separate_snapshot j snap w2 w'), Hpc by done.
      by apply savable_loads.
  - intros e [j' w'] ([Hpath Hf] & Hout). cbn [fst snd] in *. split; [done|].
    assert (files w' !! snapshot_path snap = files w2 !! snapshot_path snap) as Hsame
      by (by eapply separate_snapshot).
    exists j', snap. split_and!; [done..|]. cbn [kv_os].
    destruct Hout as [[Hk Hrep]|Hrep].
    + rewrite (covers_recovers _ _ _ [] (rs1 ++ rs2) [] (contents_of (kv u)));
        [by rewrite app_nil_r, Hidem|by eapply covers_frame|done].
    + pose proof (published_contents _ _ _ _ _ Hp) as Hpc. unfold file_contents in Hpc.
      unfold recover, file_contents. rewrite Hsame, Hpc. rewrite savable_loads by done. cbn [wal_offset].
      rewrite (Hrep 0 [] []); [done|done|apply journal_start].
Qed.

(** Cancelling a pending checkpoint first changes nothing of this. *)
Lemma recoverable_cancel (m : M (store_state W) bool) rotated t :
  recoverable_call m rotated → persistent t → savable (contents_of (kv t)) →
  wp (CancelPendingCheckpoint ;;; m)
    (λ b t', b = true ∧ contents_of (kv t') = contents_of (kv t) ∧
             ∃ j snap rs, (rotated → rs = []) ∧ agree t' j snap rs [] (contents_of (kv t)))
    (λ _ t', contents_of (kv t') = contents_of (kv t) ∧ recovers t' (contents_of (kv t)))
    t.
Proof.
  intros Hm (j & snap & rs1 & rs2 & base & Ha) Hsav. unfold CancelPendingCheckpoint, on_kv. do 2 wp_step.
  match goal with |- wp _ _ _ ?u => refine (Hm u j snap rs1 rs2 base _ Hsav) end.
  by destruct Ha; split.
Qed.

(** [SaveSnapshot]: on success memory is unchanged, and a restart recovers
    it from the snapshot alone and the end of the log; on any failure, before or
    after the new snapshot replaced the old one, memory is unchanged and a
    restart still recovers it. *)
Theorem save_snapshot_recoverable t :
  persistent t → savable (contents_of (kv t)) →
  wp (SaveSnapshot host iterate)
    (λ b t', b = true ∧ contents_of (kv t') = contents_of (kv t) ∧
             ∃ j snap rs, agree t' j snap rs [] (contents_of (kv t)))
    (λ _ t', contents_of (kv t') = contents_of (kv t) ∧ recovers t' (contents_of (kv t)))
    t.
Proof.
  intros Hp Hsav. eapply wp_mono; [by apply (recoverable_cancel _ _ t wp_SaveSnapshotLocked)| |done].
  intros b t' (Hb & Hc & j & snap & rs & _ & Ha). eauto 6.
Qed.

(** C14: [CompactPersistence] never puts the data at risk: at whatever point it
    fails, before the snapshot is replaced, between that and the rotation of the
    log, or inside the rotation, memory is unchanged and a restart recovers it;
    on success the log is empty and the snapshot alone is memory. *)
Theorem compaction_recoverable t :
  persistent t → savable (contents_of (kv t)) →
  wp (CompactPersistence host iterate)
    (λ b t', b = true ∧ contents_of (kv t') = contents_of (kv t) ∧
             ∃ j snap, agree t' j snap [] [] (contents_of (kv t)))
    (λ _ t', contents_of (kv t') = contents_of (kv t) ∧ recovers t' (contents_of (kv t)))
    t.
Proof.
  intros Hp Hsav. eapply wp_mono; [by apply (recoverable_cancel _ _ t wp_CompactPersistenceLocked)| |done].
  intros b t' (Hb & Hc & j & snap & rs & Hrs & Ha). rewrite Hrs in Ha by done. eauto 6.
Qed.

(** The two ways to clear are independent. After [ClearPersistence] returns,
    memory is unchanged and a restart recovers the empty map; after [Clear] memory
    is empty and a restart recovers what memory was. *)
Theorem clear_persistence_empties t :
  persistent t →
  wp (ClearPersistence)
    (λ _ t', contents_of (kv t') = contents_of (kv t) ∧ recovers t' ∅)
    (λ _ t', contents_of (kv t') = contents_of (kv t)) t ∧
  wp ClearStore
    (λ _ t', store_ok hash (kv t') ∧ contents_of (kv t') = ∅ ∧ recovers t' (contents_of (kv t)))
    (λ _ _, False) t.
Proof.
  intros (j & snap & rs1 & rs2 & base & Ha). split.
  2: { unfold ClearStore, on_kv. wp_steps. pose proof (agree_recovers _ _ _ _ _ _ Ha) as Hrec.
       destruct Ha as [Hok Hw Hs Hsep Hlog Hcov Hcon].
       split; [by apply shards_ok_empty, Hok|]. split; [apply all_data_empty|].
       by apply (recovers_same t). }
  destruct Ha as [Hok Hw Hs Hsep Hlog Hcov Hcon].
  unfold ClearPersistence, CancelPendingCheckpoint, with_snapshot, on_kv. do 3 wp_step.
  apply wp_on_wal_ptr; cbn [kv wal_ set_checkpoint kv_os]; [by rewrite Hw|].
  intros j0 Hj. rewrite Hw in Hj. injection Hj as <-.
  eapply wp_mono; [by eapply journal_clear_law| |]; cbn beta; [|done].
  intros [] [j' w'] ([Hpath Hf] & Hlog'). cbn [fst snd] in *. do 3 wp_step.
  cbn [kv snapshot_ set_wal set_checkpoint]. rewrite Hs. apply wp_on_machine.
  apply wp_ClearSnapshot; cbn [kv_os]; [|done].
  intros w2 H2 Hnone. wp_step. split; [done|]. exists j', snap. split_and!; [done..|]. cbn [kv_os].
  unfold recover, file_contents. rewrite Hnone. cbn [Load fmap option_fmap option_map].
  assert (journal_log j' w2 []) as Hlog2.
  { eapply journal_frame; [exact Hlog'|]. apply (only_snapshot_wal snap); [|done].
    unfold separate. by rewrite Hpath. }
  cbn. by rewrite (journal_log_replays _ _ _ Hlog2 0 [] []); [|done|apply journal_start].
Qed.

(** ** Starting up *)

Lemma wp_LoadSnapshot t snap (Q : SnapshotLoadResult → store_state W → Prop) E :
  length (shards_ (kv t)) = Z.to_nat kShardCount →
  (∀ r base t', Load host (file_contents (snapshot_path snap) (kv_os t)) ∅ = (Ok r, base) →
     store_ok hash (kv t') → contents_of (kv t') = base → same_persistence t t' → Q r t') →
  (∀ e base t', Load host (file_contents (snapshot_path snap) (kv_os t)) ∅ = (Exn e, base) →
     same_persistence t t' → shards_ (kv t') = shards_ (kv t) → E e t') →
  wp (LoadSnapshot host hash iterate snap) Q E t.
Proof.
  intros Hlen HQ HE. unfold LoadSnapshot, CancelPendingCheckpoint, on_kv. wp_steps. cbn [kv_os].
  destruct (Load host _ ∅) as [[r|e] base] eqn:Hload; unfold store_res; wp_steps; [|by eapply HE].
  cbn [kv kv_os]. match goal with |- context [ReplaceDataLocked hash iterate base ?s0] => set (s1 := s0) end.
  destruct (ReplaceDataLocked_ok hash iterate iterate_spec s1 base Hlen) as [Hok Hcon].
  by apply (HQ r base).
Qed.

Lemma wp_ReplayFromWal t j off (Q : Z → store_state W → Prop) E :
  store_ok hash (kv t) →
  (∀ n m t', journal_replay_from j (kv_os t) off (contents_of (kv t)) = Ok (n, m) →
     store_ok hash (kv t') → contents_of (kv t') = m → same_persistence t t' → Q n t') →
  (∀ e, journal_replay_from j (kv_os t) off (contents_of (kv t)) = Exn e → E e t) →
  wp (ReplayFromWal hash iterate j off) Q E t.
Proof.
  intros Hok HQ HE. unfold ReplayFromWal, on_kv. wp_steps. rewrite CollectDataLocked_contents.
  destruct (journal_replay_from j (kv_os t) off _) as [[n m]|e] eqn:Hrep; unfold store_res; wp_steps; [|by apply HE].
  destruct (ReplaceDataLocked_ok hash iterate iterate_spec (kv t) m (proj1 Hok)) as [Hok2 Hcon2].
  by apply (HQ n m).
Qed.

(** Starting up. On a new store, [LoadSnapshot] followed by
    [ReplayFromWal] from the offset that the snapshot reports makes memory exactly
    what is recoverable from the files, every key in the shard of its hash; when
    the files are damaged beyond that, both report it by an exception. *)
Theorem startup_recovers j snap w :
  wp (let! r := LoadSnapshot host hash iterate snap in ReplayFromWal hash iterate j (wal_offset r))
    (λ _ t', store_ok hash (kv t') ∧ recover j snap w = Ok (contents_of (kv t')) ∧ kv_os t' = w)
    (λ e t', recover j snap w = Exn e ∧ kv_os t' = w)
    (StoreState (new_store (Some j) (Some snap)) w).
Proof.
  wp_step. apply wp_LoadSnapshot; [apply length_replicate| |].
  - intros r base t Hload Hok Hcon [_ _ Ho]. cbn [kv_os] in *. unfold recover.
    apply wp_ReplayFromWal; [done| |]; rewrite Hload, Hcon, Ho.
    + intros n m t' Hrep Hok' Hcon' [_ _ Ho']. rewrite Hrep, Hcon', Ho'. done.
    + intros e Hrep. by rewrite Hrep.
  - intros e base t Hload [_ _ Ho] _. cbn [kv_os] in *. unfold recover. by rewrite Hload.
Qed.

End persistence.
