(* ===== verification/StoreDurability.v ===== *)
(** * What a power failure leaves of the store

    The files after a power failure, what the log promises about it, and the
    theorem about whole runs: under the policies that synchronize, a restart after
    a power failure recovers what memory was. *)

From S2P Require Import Prelude Machine BinaryIO Crc WalFormat WalReplay WalLog WalDurability.
From S2P Require Import WalMaintenance SnapshotFile Journal KVStore StoreSharding StorePersistence.

(** ** Power failures *)

(** Of bytes appended since the last synchronization some prefix survives; a file
    emptied since then is empty or as it was. Other changes of synchronized bytes
    may leave anything. What is there afterwards is on the disk. *)
Record file_survives (x y : file) : Prop := {
  survives_synced : synced y = contents y;
  survives_append : synced x `prefix_of` contents x →
    synced x `prefix_of` contents y ∧ contents y `prefix_of` contents x;
  survives_truncate : contents x = [] → contents y = [] ∨ contents y = synced x
}.

(** Names are what they were: creations, removals and renames are taken to be on
    the disk once they are done. *)
Definition power_failure (w w' : world) : Prop :=
  ∀ p, option_Forall2 file_survives (files w !! p) (files w' !! p).

Lemma survives_durable x y : synced x = contents x → file_survives x y → contents y = contents x.
Proof.
  intros Hs [_ Ha _]. destruct Ha as [Hxy Hyx]; [by rewrite Hs|]. rewrite Hs in Hxy.
  apply prefix_length_eq; [done|]. by apply prefix_length.
Qed.

Lemma power_failure_file p w w' x :
  power_failure w w' → files w !! p = Some x → ∃ y, files w' !! p = Some y ∧ file_survives x y.
Proof. intros Hw Hx. specialize (Hw p). rewrite Hx in Hw. inversion Hw; eauto. Qed.

Lemma power_failure_durable p w w' :
  file_durable p w → power_failure w w' → file_contents p w' = file_contents p w.
Proof.
  intros (x & Hx & Hs) Hw. destruct (power_failure_file _ _ _ _ Hw Hx) as (y & Hy & Hsv).
  unfold file_contents. rewrite Hx, Hy. cbn. f_equal. by apply survives_durable.
Qed.

(** What survived is on the disk. *)
Lemma power_failure_on_disk p w w' c :
  power_failure w w' → file_contents p w' = Some c → file_durable p w'.
Proof.
  intros Hw Hc. unfold file_contents in Hc. destruct (files w' !! p) as [y|] eqn:Hy; [|done].
  exists y. split; [done|]. specialize (Hw p). rewrite Hy in Hw. inversion Hw as [x ? Hsv Hx|]; subst.
  apply Hsv.
Qed.

Lemma power_failure_synced p w w' :
  file_durable p w → power_failure w w' → file_durable p w'.
Proof.
  intros (x & Hx & _) Hw. destruct (power_failure_file _ _ _ _ Hw Hx) as (y & Hy & [Hs _ _]). by exists y.
Qed.

Lemma power_failure_absent p w w' :
  files w !! p = None → power_failure w w' → file_contents p w' = None.
Proof. intros Hx Hw. specialize (Hw p). rewrite Hx in Hw. unfold file_contents. by inversion Hw. Qed.

(** A log whose old bytes are synchronized keeps them and a prefix of the new. *)
Lemma power_failure_torn p image extra w w' :
  durable_prefix p image w → file_torn p image extra w → power_failure w w' →
  file_torn p image extra w'.
Proof.
  intros (x & Hx & Hd & Hs) [n Hn] Hw. destruct (power_failure_file _ _ _ _ Hw Hx) as (y & Hy & [_ Ha _]).
  destruct (Ha Hs) as [Hxy Hyx]. unfold file_contents in Hn. rewrite Hx in Hn. injection Hn as Hn.
  destruct (transitivity Hd Hxy) as [z Hz]. rewrite Hz, Hn in Hyx. apply prefix_app_inv in Hyx as [z' Hz'].
  exists (length z `min` n)%nat. unfold file_contents. rewrite Hy. cbn. rewrite Hz. do 2 f_equal.
  pose proof (f_equal (take (length z)) Hz') as H. rewrite take_app_length, take_take in H. by rewrite H.
Qed.

(** ** What the log promises about it *)

(** [journal_hard j w]: the log synchronizes what it acknowledges, and its file is
    synchronized. [journal_mends j w off rs1 rs2]: the file holds [rs1] up to [off],
    [rs2] from there on and at most an interrupted write after them, and is
    synchronized: recovery makes a log of it. *)
Class JournalDurable (W : Type) := {
  journal_hard : W → world → Prop;
  journal_mends : W → world → Z → list ParsedRecord → list ParsedRecord → Prop
}.

(** So it is from the end of any prefix of [rs], for the rest of it and then [seen]. *)
Definition journal_mended {W} `{JournalSpec W, JournalDurable W} (j : W) (w : world)
    (rs seen : list ParsedRecord) : Prop :=
  ∀ off rs1 rs2, rs = rs1 ++ rs2 → journal_end j rs1 off → journal_mends j w off rs1 (rs2 ++ seen).

Class JournalDurableLaws (W : Type) `{JournalLaws W, JournalDurable W} := {
  hard_frame j w w' :
    journal_hard j w → files w' !! journal_path j = files w !! journal_path j → journal_hard j w';
  hard_survives j w w' off m :
    journal_hard j w → power_failure w w' →
    journal_replay_from j w' off m = journal_replay_from j w off m;
  hard_mends j w w' rs :
    journal_log j w rs → journal_hard j w → power_failure w w' → journal_mended j w' rs [];
  mends_replays j w off rs1 rs2 m :
    journal_mends j w off rs1 rs2 →
    journal_replay_from j w off m = Ok (Z.of_nat (length rs2), apply_records rs2 m);
  hard_write_law j w rs r :
    journal_log j w rs → journal_hard j w → record_ok r →
    wp (journal_write r)
      (λ _ s', journal_hard s'.1 s'.2)
      (λ _ s', ∀ w', power_failure s'.2 w' →
               ∃ seen, (seen = [] ∨ seen = [r]) ∧ journal_mended s'.1 w' rs seen)
      (j, w);
  hard_offset_law j w rs :
    journal_log j w rs → journal_hard j w →
    wp journal_offset
      (λ _ s', journal_hard s'.1 s'.2)
      (λ _ s', journal_hard s'.1 s'.2 ∧ ∀ w', power_failure s'.2 w' → journal_mended s'.1 w' rs [])
      (j, w);
  hard_rotate_law j w rs :
    journal_log j w rs → journal_hard j w →
    wp journal_rotate
      (λ _ s', journal_hard s'.1 s'.2)
      (λ _ s', ∀ w', power_failure s'.2 w' →
               ∃ seen, (seen = rs ∨ seen = []) ∧ journal_mends s'.1 w' 0 [] seen)
      (j, w)
}.

(** ** The write-ahead log keeps the promise *)

Section implementation.
  Context (host : endianness).
  #[local] Hint Extern 0 (Journal WriteAheadLog) => exact (wal_journal host) : typeclass_instances.
  #[local] Hint Extern 0 (JournalSpec WriteAheadLog) => exact (wal_journal_spec host) : typeclass_instances.
  #[local] Hint Extern 0 (JournalLaws WriteAheadLog) => exact (wal_journal_laws host) : typeclass_instances.

(** Hard is the log under [Sync] or [GroupCommit], with the descriptor that is
    synchronized. *)
#[global] Instance wal_durable_journal : JournalDurable WriteAheadLog := {|
  journal_hard j w :=
    policy_ (config j) ≠ Buffered ∧ sync_fd_ j = true ∧ file_durable (path_ (config j)) w;
  journal_mends j w off rs1 rs2 :=
    file_durable (path_ (config j)) w ∧ off ≤ streamoff_max ∧
    ∃ fmt content, format_ok fmt ∧ records_fit host fmt (rs1 ++ rs2) ∧
      file_contents (path_ (config j)) w = Some content ∧
      torn_image host fmt (rs1 ++ rs2) content ∧ covers host fmt off rs1
|}.

Lemma wal_mends_replays j w off rs1 rs m :
  journal_mends j w off rs1 rs → wal_replay_from host j w off m = Ok (Z.of_nat (length rs), apply_records rs m).
Proof.
  intros (_ & Hoff & fmt & content & Hok & Hfit & Hc & Ht & Hcov).
  unfold wal_replay_from, ReplayFrom. rewrite Hc.
  destruct (torn_image_replays host fmt rs1 rs content off m) as (result & Hr & Hn); [done..|].
  cbn in *. rewrite Hr. by rewrite Hn.
Qed.

Lemma wal_mended j w f rs seen content :
  file_contents (path_ (config j)) w = Some content → file_durable (path_ (config j)) w →
  legacy_v2_ f = legacy_v2_ (format j) → format_ok (wal_fmt f) → records_fit host (wal_fmt f) (rs ++ seen) →
  torn_image host (wal_fmt f) (rs ++ seen) content → journal_mended j w rs seen.
Proof.
  intros Hc Hd Hl Hok Hfit Ht off rs1 rs2 -> [Hcov Hoff]. rewrite <-app_assoc in *.
  split; [done|]. split; [done|]. exists (wal_fmt f), content. split_and!; try done.
  eapply covers_same_kind; [|exact Hcov]. by rewrite !is_v3_wal_fmt, Hl.
Qed.

Lemma wal_hard_mends j w w' j' w0 rs :
  wal_ready host (WalState j w) rs → file_contents (path_ (config j)) w0 = file_contents (path_ (config j)) w →
  file_durable (path_ (config j)) w0 → power_failure w0 w' →
  config j' = config j → legacy_v2_ (format j') = legacy_v2_ (format j) → journal_mended j' w' rs [].
Proof.
  intros Hr Hw Hd Hw' Hc Hl. pose proof (power_failure_durable _ _ _ Hd Hw') as Hsame.
  apply (wal_mended j' w' (format j) rs [] (wal_image host (format j) rs)); rewrite ?app_nil_r, ?Hc, ?Hl; try done.
  - rewrite Hsame, Hw. apply (ready_file _ _ _ Hr).
  - by eapply power_failure_synced.
  - by apply (ready_format_ok _ _ _ Hr).
  - by apply (ready_fit _ _ _ Hr).
  - apply (ready_torn _ _ _ Hr).
Qed.

Lemma wal_hard_write_law j w rs r :
  wal_ready host (WalState j w) rs → queue_ (queue j) = [] → journal_hard j w → record_ok r →
  wp (append_record host r)
    (λ _ s', journal_hard (wal s') (os s'))
    (λ _ s', ∀ w', power_failure (os s') w' →
             ∃ seen, (seen = [] ∨ seen = [r]) ∧ journal_mended (wal s') w' rs seen)
    (WalState j w).
Proof.
  intros Hr Hq (Hpol & Hfd & Hdur) Hok. set (s := WalState j w) in *.
  pose proof (ready_file _ _ _ Hr) as Hfile.
  pose proof (file_durable_prefix _ _ _ Hfile Hdur) as Hpre.
  eapply wp_mono; [eapply wp_keeps; [apply append_keeps_prefix|exact Hpre|]| |].
  - apply (wp_append_record host s rs r (λ _ s', journal_hard (wal s') (os s'))
      (λ e s', s' = s ∨ append_failed host s rs [r] e s' ∧
               records_fit host (wal_fmt (format j)) (rs ++ [r])));
      [done..| |by auto|].
    + intros s' _ [_ Hc Hs _ Hd] _. unfold journal_hard, wal_durable_journal. rewrite Hc, Hs.
      split_and!; [done..|]. rewrite <-Hc. apply Hd; [done|]. by rewrite Hs.
    + intros e s' Hfit Hf. right. split; [done|]. by apply (ready_snoc_fit _ _ _ _ Hr).
  - by intros [] s' [? _].
  - cbn beta. intros e s' [[->|[Hf Hfit]] Hkeep] w' Hw'.
    + exists []. split; [by left|]. exact (wal_hard_mends j w w' j w rs Hr eq_refl Hdur Hw' eq_refl eq_refl).
    + destruct Hf as [_ Hc Hl Hfile']. pose proof (power_failure_torn _ _ _ _ _ Hkeep Hfile' Hw') as Ht.
      destruct (torn_image_file host (path_ (config j)) (format j) rs [r] w') as (k & content & Hcon & Hti);
        [apply Hr|by apply (ready_format_ok _ _ _ Hr)|done|done|].
      exists (take k [r]). split; [destruct k as [|k]; [by left|right; by destruct k]|].
      apply (wal_mended _ _ (format j) _ _ content); rewrite ?Hc, ?Hl; try done.
      * by eapply power_failure_on_disk.
      * by apply (ready_format_ok _ _ _ Hr).
      * by apply records_fit_prefix.
Qed.

(** While the log is being cleared, its file holds all of [c] or nothing, and so
    does what is synchronized. *)
Section clearing.
  Context (path c : bytes).

Definition clearing_file (w : world) : Prop :=
  ∃ x, files w !! path = Some x ∧
       (contents x = c ∧ synced x = c ∨ contents x = [] ∧ (synced x = c ∨ synced x = [])).

Definition clearing (s : wal_state) : Prop :=
  path_ (config (wal s)) = path ∧ ofs_buffer (output_ (wal s)) = [] ∧ clearing_file (os s).

Lemma clearing_power_failure w w' :
  clearing_file w → power_failure w w' →
  file_contents path w' = Some c ∨ file_contents path w' = Some [].
Proof.
  intros (x & Hx & Hc) Hw. destruct (power_failure_file _ _ _ _ Hw Hx) as (y & Hy & Hsv).
  unfold file_contents. rewrite Hy. cbn. destruct Hc as [[Hc Hs]|[Hc Hs]].
  - left. rewrite (survives_durable x y); congruence.
  - destruct (survives_truncate _ _ Hsv Hc) as [->| ->]; [by right|]. destruct Hs as [->| ->]; auto.
Qed.

Lemma clearing_update f w :
  clearing_file w →
  (∀ x, (contents (f x) = contents x ∨ contents (f x) = []) ∧ synced (f x) = synced x ∨ f x = mark_synced x) →
  clearing_file (with_files (alter f path) w).
Proof.
  intros (x & Hx & Hc) Hf. exists (f x). cbn. rewrite lookup_alter_eq, Hx. split; [done|].
  destruct (Hf x) as [[[->| ->] ->]| ->]; cbn; naive_solver.
Qed.

Lemma clearing_hook p : keeps clearing (call_fault_hook p).
Proof. intros s (Hp & Hb & Hf). by apply wp_call_fault_hook; intros rest. Qed.

Lemma wp_flush_empty o w (Q : ofstream → world → Prop) E :
  ofs_buffer o = [] → Q o w → wp (ofs_flush o) Q E w.
Proof. intros Hb HQ. unfold ofs_flush. rewrite Hb, bool_decide_true, andb_false_r by done. by wp_step. Qed.

Lemma clearing_close : keeps clearing close_output.
Proof.
  intros s (Hp & Hb & Hf). unfold close_output, ofs_close. do 4 wal_step. wal_step.
  apply wp_flush_empty; [done|]. by wal_steps.
Qed.

Lemma clearing_create w : clearing_file w → clearing_file (create_if_missing path w).
Proof.
  intros (x & Hx & Hc). exists x. cbn. by rewrite lookup_insert_eq, Hx.
Qed.

Lemma clearing_truncate w : clearing_file w → clearing_file (create_truncated path w).
Proof.
  intros (x & Hx & Hc). eexists. cbn. rewrite lookup_insert_eq, Hx. split; [done|]. cbn. naive_solver.
Qed.

Lemma clearing_reopen : keeps clearing reopen_output.
Proof.
  intros s (Hp & Hb & Hf). unfold reopen_output. do 3 wal_step. wal_step. rewrite Hp.
  unfold ofs_open_app, attempt. do 2 wal_step. apply wp_draw.
  intros [|n e] rest; wal_steps; (split; [done|split; [done|]]); try done; by apply clearing_create.
Qed.

Lemma clearing_sync : keeps clearing SyncLocked.
Proof.
  intros s (Hp & Hb & Hf). unfold SyncLocked. do 2 wal_step. destruct (sync_fd_ (wal s)); [|by wal_step].
  cbn [negb]. do 4 wal_step. unfold fs_fdatasync_loop, wp. rewrite Hp.
  destruct (fdatasync_retry (script (os s))) as [[e|] rest]; [done|].
  split; [done|]. split; [done|]. cbn. apply (clearing_update mark_synced (with_script rest (os s))); auto.
Qed.

Lemma clearing_clear : keeps clearing Clear.
Proof.
  intros s Hs. unfold Clear. apply wp_keeps_bind; [apply clearing_hook|done|clear s Hs; intros [] s Hs].
  do 2 wal_step. apply wp_keeps_bind; [destruct (_ =? _); by intros ?|done|clear s Hs; intros [] s Hs].
  apply wp_keeps_bind; [apply clearing_close|done|clear s Hs; intros [] s (Hp & Hb & Hf)].
  do 2 wal_step. wal_step. wal_step. rewrite Hp. unfold ofs_open_trunc, attempt. do 2 wal_step.
  apply wp_draw. intros [|n e] rest; wal_steps; cbn [ofs_is_open ofs_opened ofs_closed negb] in *; try done.
  apply wp_flush_empty; [done|]. wal_step. cbn [ofs_good ofs_opened negb]. wal_step.
  apply wp_keeps_bind; [apply clearing_reopen|by split_and!; [..|apply clearing_truncate]|intros [] s3 Hs3].
  wal_step. wal_step. unfold sync_unless_buffered. do 2 wal_step. cbn [wal].
  destruct (bool_decide _); [by apply clearing_sync|exact Hs3].
Qed.

End clearing.

Lemma hard_files j j' w w' :
  journal_hard j w → config j' = config j → sync_fd_ j' = sync_fd_ j →
  files w' !! path_ (config j) = files w !! path_ (config j) → journal_hard j' w'.
Proof.
  intros (Hpol & Hfd & x & Hx & Hs) Hc Hf Hw. unfold journal_hard, wal_durable_journal. rewrite Hc, Hf.
  split_and!; [done..|]. exists x. by rewrite Hw.
Qed.

Lemma wal_hard_offset_law j w rs :
  wal_ready host (WalState j w) rs → journal_hard j w →
  wp CurrentOffset (λ _ s', journal_hard (wal s') (os s'))
    (λ _ s', journal_hard (wal s') (os s') ∧
             ∀ w', power_failure (os s') w' → journal_mended (wal s') w' rs [])
    (WalState j w).
Proof.
  intros Hr Hh. apply (wp_CurrentOffset host _ rs); [done|intros w' Hw' _|intros e o w' Hw']; cbn [wal os] in *.
  - eapply hard_files; [exact Hh|done|done|by rewrite Hw'].
  - assert (journal_hard (set_output o j) w') as Hh' by (eapply hard_files; [exact Hh|done|done|by rewrite Hw']).
    split; [done|]. intros w2 Hw2. apply (wal_hard_mends j w w2 _ w'); try done; [|apply Hh'].
    unfold file_contents. by rewrite Hw'.
Qed.

Lemma wal_hard_rotate_law j w rs :
  wal_ready host (WalState j w) rs → journal_hard j w →
  wp Clear
    (λ _ s', journal_hard (wal s') (os s'))
    (λ _ s', ∀ w', power_failure (os s') w' →
             ∃ seen, (seen = rs ∨ seen = []) ∧ journal_mends (wal s') w' 0 [] seen)
    (WalState j w).
Proof.
  intros Hr (Hpol & Hfd & Hdur). pose proof Hr as [Ho Hf Hb _ _ _ Hg _ _ Hfile Hleg].
  cbn [wal os] in *. pose proof Hdur as (x & Hx & Hs).
  assert (contents x = wal_image host (format j) rs) as Hcx.
  { unfold file_contents in Hfile. cbn in Hfile. rewrite Hx in Hfile. by injection Hfile. }
  eapply wp_mono; [eapply (wp_keeps (clearing (path_ (config j)) (contents x))); [apply clearing_clear| |]| |].
  - split_and!; cbn in *; [done|by rewrite Ho|]. exists x. auto.
  - apply (wp_Clear host _ (λ _ s', journal_hard (wal s') (os s')) (λ _ s', config (wal s') = config j));
      [cbn in *; by rewrite Ho|done..| | |auto].
    + cbn in *. destruct (legacy_v2_ (format j)); [rewrite Hleg by done; lia|]. specialize (Hg eq_refl). lia.
    + intros s' [Hr' Hc _ Hfd' _ _ Hd]. unfold journal_hard, wal_durable_journal. rewrite Hc, Hfd'.
      split_and!; [done..|]. rewrite <-Hc. apply Hd; [done|]. by rewrite Hfd'.
  - by intros [] s' [? _].
  - cbn beta. intros e s' [Hc (_ & _ & Hclear)] w' Hw'.
    pose proof (clearing_power_failure _ _ _ _ Hclear Hw') as Hcon.
    assert (file_durable (path_ (config (wal s'))) w') as Hd.
    { rewrite Hc. destruct Hcon; by eapply power_failure_on_disk. }
    destruct Hcon as [Hcon|Hcon]; [exists rs|exists []]; (split; [auto|split; [done|split; [done|]]]).
    + exists (wal_fmt (format j)), (contents x). rewrite Hc. split_and!; [| |done| |by right].
      * by apply (ready_format_ok _ _ _ Hr).
      * by apply (ready_fit _ _ _ Hr).
      * rewrite Hcx. by apply (ready_torn _ _ _ Hr).
    + exists V2, []. rewrite Hc. split_and!; [done|by split|done|apply torn_image_nil|by right].
Qed.

#[global] Instance wal_durable_laws : JournalDurableLaws WriteAheadLog.
Proof.
  split.
  - intros j w w' Hh Hw. by apply (hard_files j j w w').
  - intros j w w' off m (_ & _ & Hd) Hw. cbn. unfold wal_replay_from.
    by rewrite (power_failure_durable (path_ (config j)) w w').
  - intros j w w' rs [Hr _] (_ & _ & Hd) Hw. exact (wal_hard_mends j w w' j w rs Hr eq_refl Hd Hw eq_refl eq_refl).
  - intros j w off rs1 rs2 m. apply wal_mends_replays.
  - intros j w rs r [Hr Hq] Hh Hok. unfold journal_write. cbn [journal_set journal_delete wal_journal].
    replace (match rec_op r with _ => _ end) with (member (append_record host r))
      by (unfold append_record; by destruct (rec_op r)).
    apply wp_member. by apply wal_hard_write_law.
  - intros j w rs [Hr Hq] Hh. apply wp_member. by apply (wal_hard_offset_law j w rs).
  - intros j w rs [Hr Hq] Hh. apply wp_member. by apply (wal_hard_rotate_law j w rs).
Qed.

End implementation.

(** ** The store *)

(** The calls that change what is stored, or where. *)
Inductive update :=
| USet (key value : bytes)
| UDelete (key : bytes)
| USaveSnapshot
| UCompactPersistence.

Definition update_effect (m : gmap bytes bytes) (u : update) : gmap bytes bytes :=
  match u with
  | USet key value => <[key := value]> m
  | UDelete key => delete key m
  | USaveSnapshot | UCompactPersistence => m
  end.

Section power.
  Context {W : Type} `{JournalDurableLaws W} (host : endianness).
  Context (hash : bytes → Z) (iterate : gmap bytes bytes → list (bytes * bytes)).
  Context (iterate_spec : ∀ m, iterate m ≡ₚ map_to_list m).
  Implicit Types (t : store_state W) (j : W) (w : world) (snap : Snapshot) (m : gmap bytes bytes).

Definition run_update (u : update) : M (store_state W) unit :=
  match u with
  | USet key value => Set_ hash key value
  | UDelete key => Delete hash key ;;; ret tt
  | USaveSnapshot => SaveSnapshot host iterate ;;; ret tt
  | UCompactPersistence => CompactPersistence host iterate ;;; ret tt
  end.

(** One after the other, until one of them throws. *)
Fixpoint run_updates (us : list update) : M (store_state W) unit :=
  match us with [] => ret tt | u :: us => run_update u ;;; run_updates us end.

(** The snapshot format can hold what the saves among [us] save. *)
Fixpoint saves_fit m (us : list update) : Prop :=
  match us with
  | [] => True
  | u :: us =>
      match u with USaveSnapshot | UCompactPersistence => savable m | _ => True end ∧
      saves_fit (update_effect m u) us
  end.

Definition snapshot_hard snap w : Prop :=
  files w !! snapshot_path snap = None ∨ file_durable (snapshot_path snap) w.

(** Everything a restart reads is synchronized. *)
Definition hardened t : Prop :=
  ∃ j snap, wal_ (kv t) = Some j ∧ snapshot_ (kv t) = Some snap ∧ separate j snap ∧
            journal_hard j (kv_os t) ∧ snapshot_hard snap (kv_os t).

(** After a power failure now, a restart recovers one of [ms]. *)
Definition survives t (ms : list (gmap bytes bytes)) : Prop :=
  ∀ w', power_failure (kv_os t) w' → ∃ m, m ∈ ms ∧ recovers host (StoreState (kv t) w') m.

(** The snapshot and the log in the files make [m], once the log is repaired. *)
Definition repairable t m : Prop :=
  ∃ j snap r base base0 rs1 rs2,
    wal_ (kv t) = Some j ∧ snapshot_ (kv t) = Some snap ∧ separate j snap ∧ snapshot_hard snap (kv_os t) ∧
    Load host (file_contents (snapshot_path snap) (kv_os t)) ∅ = (Ok r, base) ∧ base = apply_records rs1 base0 ∧
    journal_mends j (kv_os t) (wal_offset r) rs1 rs2 ∧ m = apply_records rs2 base.

(** After a power failure now, a restart recovers one of [ms], as it is and after
    repairing the log. *)
Definition leaves t (ms : list (gmap bytes bytes)) : Prop :=
  ∀ w', power_failure (kv_os t) w' → ∃ m, m ∈ ms ∧ repairable (StoreState (kv t) w') m.

Lemma repairable_recovers t m : repairable t m → recovers host t m.
Proof.
  intros (j & snap & r & base & base0 & rs1 & rs2 & Hj & Hs & _ & _ & Hl & _ & Hm & ->). exists j, snap. split_and!; [done..|].
  unfold recover. rewrite Hl. by rewrite (mends_replays j _ _ rs1 rs2).
Qed.

Lemma leaves_survives t ms : leaves t ms → survives t ms.
Proof. intros Hl w' Hw'. destruct (Hl w' Hw') as (m & Hm & Hr%repairable_recovers). by exists m. Qed.

Lemma leaves_weaken t ms ms' : ms ⊆ ms' → leaves t ms → leaves t ms'.
Proof. intros Hms Hl w' Hw'. destruct (Hl w' Hw') as (m & Hm & Hr). exists m. auto. Qed.

Lemma snapshot_hard_frame snap w w' :
  files w' !! snapshot_path snap = files w !! snapshot_path snap → snapshot_hard snap w → snapshot_hard snap w'.
Proof. intros Hw [?|(x & ? & ?)]; [left|right; exists x]; by rewrite Hw. Qed.

Lemma snapshot_hard_contents snap w w' :
  snapshot_hard snap w → power_failure w w' →
  file_contents (snapshot_path snap) w' = file_contents (snapshot_path snap) w.
Proof.
  intros [Hn|Hd] Hw; [|by apply power_failure_durable].
  rewrite (power_failure_absent _ _ _ Hn Hw). unfold file_contents. by rewrite Hn.
Qed.

Lemma published_hard snap es off w : published host snap es off w → snapshot_hard snap w.
Proof. intros Hp. right. eexists. split; [exact Hp|done]. Qed.

Lemma snapshot_hard_survives snap w w' : snapshot_hard snap w → power_failure w w' → snapshot_hard snap w'.
Proof.
  intros [Hn|Hd] Hw; [left|right; by eapply power_failure_synced].
  specialize (Hw (snapshot_path snap)). rewrite Hn in Hw. by inversion Hw.
Qed.

Lemma covers_survives j snap w w' rs1 base :
  snapshot_covers host j snap w rs1 base → snapshot_hard snap w → power_failure w w' →
  snapshot_covers host j snap w' rs1 base.
Proof.
  intros (r & base0 & Hl & He & Hb) Hh Hw. exists r, base0. split_and!; [|done..].
  by rewrite (snapshot_hard_contents snap w w').
Qed.

(** What is left when the snapshot covers [rs1] and the log goes on from there. *)
Lemma covers_repairable t j snap w' rs1 rs2 seen base :
  wal_ (kv t) = Some j → snapshot_ (kv t) = Some snap → separate j snap → snapshot_hard snap (kv_os t) →
  snapshot_covers host j snap (kv_os t) rs1 base → power_failure (kv_os t) w' →
  journal_mended j w' (rs1 ++ rs2) seen →
  repairable (StoreState (kv t) w') (apply_records (rs2 ++ seen) base).
Proof.
  intros Hj Hs Hsep Hh Hcov Hw Hm. pose proof (covers_survives _ _ _ _ _ _ Hcov Hh Hw) as (r & base0 & Hl & He & Hb).
  exists j, snap, r, base, base0, rs1, (rs2 ++ seen). split_and!; try done; [by eapply snapshot_hard_survives|].
  by apply (Hm (wal_offset r) rs1 rs2).
Qed.

(** A power failure takes nothing from a hardened store. *)
Lemma agree_leaves t j snap rs1 rs2 base :
  agree host hash t j snap rs1 rs2 base → hardened t → leaves t [contents_of (kv t)].
Proof.
  intros Ha (j' & snap' & Hj' & Hs' & _ & Hh & Hsn) w' Hw'. destruct Ha as [Hok Hw Hs Hsep Hlog Hcov Hcon].
  rewrite Hw in Hj'. injection Hj' as <-. rewrite Hs in Hs'. injection Hs' as <-.
  exists (contents_of (kv t)). split; [left|]. rewrite Hcon, <-(app_nil_r rs2).
  eapply covers_repairable; [done..|]. by eapply hard_mends.
Qed.

Lemma hardened_survives t m ms : hardened t → recovers host t m → m ∈ ms → survives t ms.
Proof.
  intros (j & snap & Hj & Hs & _ & Hh & Hsn) (j' & snap' & Hj' & Hs' & Hrec) Hm w' Hw'.
  rewrite Hj in Hj'. injection Hj' as <-. rewrite Hs in Hs'. injection Hs' as <-.
  exists m. split; [done|]. exists j, snap. split_and!; [done..|]. rewrite <-Hrec. unfold recover. cbn [kv_os].
  rewrite (snapshot_hard_contents snap (kv_os t) w') by done.
  destruct (Load _ _ _) as [[r|e] base]; [|done]. by rewrite (hard_survives j (kv_os t) w').
Qed.

Lemma hardened_parts t j snap :
  wal_ (kv t) = Some j → snapshot_ (kv t) = Some snap → hardened t →
  journal_hard j (kv_os t) ∧ snapshot_hard snap (kv_os t).
Proof.
  intros Hw Hs (j' & snap' & Hw' & Hs' & _ & Hj & Hsn).
  rewrite Hw in Hw'. injection Hw' as <-. rewrite Hs in Hs'. by injection Hs' as <-.
Qed.

(** Logging one more record, when the snapshot and the log hold [m]. *)
Lemma log_write_hard t j snap rs1 rs2 base m r :
  wal_ (kv t) = Some j → snapshot_ (kv t) = Some snap → separate j snap →
  journal_log j (kv_os t) (rs1 ++ rs2) → snapshot_covers host j snap (kv_os t) rs1 base →
  m = apply_records rs2 base → hardened t → record_ok r →
  wp (on_wal_ptr tt (journal_write r)) (λ _, hardened)
    (λ _ t', leaves t' [m; apply_record r m]) t.
Proof.
  intros Hw Hs Hsep Hlog Hcov Hcon Hh Hr. destruct (hardened_parts _ _ _ Hw Hs Hh) as [Hj Hsn].
  apply wp_on_wal_ptr; [by rewrite Hw|]. intros j0 Hj0. rewrite Hw in Hj0. injection Hj0 as <-.
  eapply wp_mono; [apply wp_and; [by apply journal_write_law|by apply (hard_write_law j _ (rs1 ++ rs2))]| |];
    cbn beta.
  - intros [] [j' w'] [([Hp Hf] & _ & _) Hj']. exists j', snap. cbn in *.
    split_and!; [done|done|unfold separate; by rewrite Hp|done|].
    eapply snapshot_hard_frame; [|done]. by eapply separate_snapshot.
  - intros e [j' w'] [([Hp Hf] & Hk & _) Hfail] w2 Hw2. cbn [fst snd kv_os kv] in *.
    destruct (Hfail w2 Hw2) as (seen & Hseen & Hm).
    assert (files w' !! snapshot_path snap = files (kv_os t) !! snapshot_path snap) as Hsame
      by (by eapply separate_snapshot).
    exists (apply_records seen m). split.
    + destruct Hseen as [->| ->]; [left|right; left].
    + rewrite Hcon, <-apply_records_app.
      apply (covers_repairable (StoreState (set_wal (Some j') (kv t)) w') j' snap w2 rs1); try done;
        [unfold separate; by rewrite Hp|by eapply snapshot_hard_frame|by eapply covers_frame].
Qed.

Lemma hardened_same t t' : same_persistence t t' → hardened t → hardened t'.
Proof. intros [Hw Hs Ho] (j & snap & ?). exists j, snap. by rewrite Hw, Hs, Ho. Qed.

Lemma write_hard t j snap rs1 rs2 base r :
  agree host hash t j snap rs1 rs2 base → hardened t → record_ok r →
  wp (write hash r) (λ _, hardened)
    (λ _ t', leaves t' [contents_of (kv t); apply_record r (contents_of (kv t))]) t.
Proof.
  intros Ha Hh Hr. apply wp_write; [apply Ha| |].
  { intros e. eapply leaves_weaken; [|by eapply agree_leaves]. set_solver. }
  destruct Ha. eapply wp_mono; [by eapply log_write_hard| |done].
  intros [] t' Hh' t'' _ Hsame _. by eapply hardened_same.
Qed.

(** Publishing a snapshot, whatever comes of it. *)
Lemma wp_save_hard t j snap es off (Q : unit → store_state W → Prop) E :
  snapshot_ (kv t) = Some snap → wal_ (kv t) = Some j → separate j snap → hardened t →
  (∀ w', let t' := StoreState (kv t) w' in
     hardened t' → journal_hard j w' → untouched (snapshot_files snap) (kv_os t) w' →
     published host snap es off w' → Q tt t') →
  (∀ e w', hardened (StoreState (kv t) w') → E e (StoreState (kv t) w')) →
  wp (on_machine (SaveVerified host snap es off)) Q E t.
Proof.
  intros Hs Hw Hsep Hh HQ HE. destruct (hardened_parts _ _ _ Hw Hs Hh) as [Hj Hsn]. apply wp_on_machine.
  assert (∀ w', untouched (snapshot_files snap) (kv_os t) w' → snapshot_hard snap w' →
            hardened (StoreState (kv t) w') ∧ journal_hard j w') as Hstep.
  { intros w' Hu Hsn'. assert (journal_hard j w') as Hj'
      by (eapply hard_frame; [exact Hj|by apply (only_snapshot_wal snap)]).
    split; [|done]. by exists j, snap. }
  apply wp_SaveVerified.
  - intros w' Hu Hp _. destruct (Hstep w' Hu (published_hard _ _ _ _ Hp)). by apply HQ.
  - intros e w' Hu Hout. apply HE, Hstep; [done|].
    destruct Hout as [Hp|Hsame]; [by eapply published_hard|by eapply snapshot_hard_frame].
Qed.

(** Reading the end of the log, whatever comes of it. *)
Lemma offset_hard t j snap rs1 rs2 base :
  agree host hash t j snap rs1 rs2 base → hardened t →
  wp (on_wal_ptr 0 journal_offset) (λ _, hardened) (λ _ t', hardened t' ∧ leaves t' [contents_of (kv t)]) t.
Proof.
  intros [Hok Hw Hs Hsep Hlog Hcov Hcon] Hh. destruct (hardened_parts _ _ _ Hw Hs Hh) as [Hj Hsn].
  apply wp_on_wal_ptr; [by rewrite Hw|]. intros j0 Hj0. rewrite Hw in Hj0. injection Hj0 as <-.
  assert (∀ j' w', journal_kept j j' (kv_os t) w' → separate j' snap ∧ snapshot_hard snap w' ∧
            files w' !! snapshot_path snap = files (kv_os t) !! snapshot_path snap) as Hnew.
  { intros j' w' [Hp Hf]. assert (files w' !! snapshot_path snap = files (kv_os t) !! snapshot_path snap)
      by (by apply (separate_snapshot j)).
    split_and!; [unfold separate; by rewrite Hp|by eapply snapshot_hard_frame|done]. }
  eapply wp_mono; [apply wp_and; [by apply journal_offset_law|by eapply hard_offset_law]| |]; cbn beta.
  - intros n [j' w'] [(Hk & _) Hj']. destruct (Hnew j' w' Hk) as (? & ? & _). by exists j', snap.
  - intros e [j' w'] [(Hk & Hends & _) [Hj' Hm]]. destruct (Hnew j' w' Hk) as (Hsep' & Hsn' & Hsame).
    cbn [fst snd] in *. split; [by exists j', snap|]. intros w2 Hw2. eexists. split; [left|].
    rewrite Hcon, <-(app_nil_r rs2).
    apply (covers_repairable (StoreState (set_wal (Some j') (kv t)) w') j' snap w2 rs1); try done;
      [by eapply covers_frame|by apply Hm].
Qed.

(** What is durable before and after an update. *)
Record durable_store t : Prop := {
  durable_persistent : persistent host hash t;
  durable_hardened : hardened t
}.

Lemma durable_leaves t : durable_store t → leaves t [contents_of (kv t)].
Proof. intros [(j & snap & rs1 & rs2 & base & Ha) Hh]. by eapply agree_leaves. Qed.

(** Publishing the effect of a part of the log: a failure leaves memory. *)
Lemma wp_save_all t j snap rs1 rs2 base rsa rsb data base0 off :
  agree host hash t j snap rs1 rs2 base → hardened t → savable data → rs1 ++ rs2 = rsa ++ rsb →
  journal_end j rsa off → data = apply_records rsa base0 → contents_of (kv t) = apply_records rsb data →
  wp (on_machine (SaveVerified host snap (iterate data) off))
    (λ _ t', ∃ w', t' = StoreState (kv t) w' ∧ hardened t' ∧ published host snap (iterate data) off w' ∧
                   untouched (snapshot_files snap) (kv_os t) w')
    (λ _ t', leaves t' [contents_of (kv t)]) t.
Proof.
  intros Ha Hh Hsav Heq He Hd Hm. pose proof Ha as [Hok Hw Hs Hsep _ _ _].
  eapply wp_mono; [apply wp_and; [apply (wp_save_hard t j snap (iterate data) off
    (λ _ t', ∃ w', t' = StoreState (kv t) w' ∧ hardened t' ∧ published host snap (iterate data) off w' ∧
                   untouched (snapshot_files snap) (kv_os t) w') (λ _, hardened)); try done|
    eapply (wp_publish host hash iterate iterate_spec t j snap rs1 rs2 base rsa rsb data base0 off (λ _ _, True)
      (λ _ t', persistent host hash t' ∧ contents_of (kv t') = contents_of (kv t))); done]| |]; cbn beta.
  - intros w' t' Hh' _ Hu Hp. by exists w'.
  - by intros [] t' [? _].
  - intros e t' [Hh' [Hp' <-]]. by apply durable_leaves.
Qed.

Lemma save_hard t j snap rs1 rs2 base :
  agree host hash t j snap rs1 rs2 base → hardened t → savable (contents_of (kv t)) →
  wp (SaveSnapshotLocked host iterate) (λ _, hardened) (λ _ t', leaves t' [contents_of (kv t)]) t.
Proof.
  intros Ha Hh Hsav. pose proof (agree_snapshot _ _ _ _ _ _ _ _ Ha) as Hs.
  unfold SaveSnapshotLocked, with_snapshot, on_kv. do 2 wp_step. rewrite Hs. wp_step.
  eapply wp_mono; [apply wp_and; [by eapply offset_hard|apply (wp_current_offset host hash t j snap rs1 rs2 base
    (λ n t', contents_of (kv t') = contents_of (kv t) ∧ ∃ j', agree host hash t' j' snap rs1 rs2 base ∧
       journal_end j' (rs1 ++ rs2) n) (λ _ _, True)); [done| |done]]| |].
  - intros n j' w' t' Ha' He. split; [done|]. by exists j'.
  - cbn beta. intros n t1 [Hh1 (Hc & j' & Ha1 & He)]. rewrite <-Hc in *.
    destruct (agree_whole_log _ _ _ _ _ _ _ _ Ha1) as [base0 Hb]. do 3 wp_step.
    eapply wp_mono; [eapply (wp_save_all t1 j' snap rs1 rs2 base _ []); try done; by rewrite app_nil_r| |done].
    cbn beta. intros [] t2 (w2 & -> & Hh2 & _). do 3 wp_step. by eapply hardened_same; [|exact Hh2].
  - cbn beta. by intros e t' [[_ ?] _].
Qed.

Lemma compact_hard t j snap rs1 rs2 base :
  agree host hash t j snap rs1 rs2 base → hardened t → savable (contents_of (kv t)) →
  wp (CompactPersistenceLocked host iterate) (λ _, hardened) (λ _ t', leaves t' [contents_of (kv t)]) t.
Proof.
  intros Ha Hh Hsav. pose proof (agree_replay_all _ _ _ _ _ _ _ _ Ha) as Hidem.
  pose proof Ha as [Hok Hw Hs Hsep Hlog Hcov Hcon].
  unfold CompactPersistenceLocked, with_snapshot, on_kv. do 2 wp_step. rewrite Hs. do 3 wp_step.
  eapply wp_mono; [by apply (wp_save_all t j snap rs1 rs2 base [] (rs1 ++ rs2) _ (contents_of (kv t)) 0);
    try done; apply journal_start| |done].
  cbn beta. intros [] t2 (w2 & -> & Hh2 & Hp2 & Hu2). wp_step.
  apply wp_on_wal_ptr; [by cbn; rewrite Hw|]. intros j0 Hj0. cbn [kv kv_os] in *.
  rewrite Hw in Hj0. injection Hj0 as <-. destruct (hardened_parts (StoreState (kv t) w2) j snap Hw Hs Hh2) as [Hj2 _].
  assert (journal_log j w2 (rs1 ++ rs2)) as Hlog2
    by (eapply journal_frame; [exact Hlog|by apply (only_snapshot_wal snap)]).
  eapply wp_mono; [apply wp_and; [by eapply journal_rotate_law|by eapply hard_rotate_law]| |]; cbn beta;
    [intros [] [j' w'] [([Hp Hf] & _) Hj']|intros e [j' w'] [([Hp Hf] & _) Hfail]]; cbn [fst snd] in *;
    assert (separate j' snap) as Hsep' by (unfold separate; by rewrite Hp);
    assert (published host snap (iterate (contents_of (kv t))) 0 w') as Hp'
      by (unfold published; by rewrite (separate_snapshot j snap w2 w')).
  - do 3 wp_step. exists j', snap. split_and!; [done..|]. by eapply published_hard.
  - intros w3 Hw3. cbn [kv_os] in Hw3. destruct (Hfail w3 Hw3) as (seen & Hseen & Hm).
    exists (contents_of (kv t)). split; [left|].
    eexists j', snap, _, _, _, [], seen. split_and!; [done..| | |done| |]; cbn [kv_os].
    + eapply snapshot_hard_survives; [by eapply published_hard|done].
    + rewrite (snapshot_hard_contents snap w' w3), (published_contents _ _ _ _ _ Hp') by
        (first [done|by eapply published_hard]).
      by apply (savable_loads host iterate iterate_spec).
    + exact Hm.
    + destruct Hseen as [->| ->]; [by rewrite Hidem|done].
Qed.

(** Cancelling a pending checkpoint first changes nothing of this. *)
Lemma cancel_hard (m : M (store_state W) bool) t (E : exn → store_state W → Prop) :
  hardened t → (∀ t', same_persistence t t' → shards_ (kv t') = shards_ (kv t) → hardened t' →
                wp m (λ _, hardened) E t') →
  wp (CancelPendingCheckpoint ;;; m) (λ _, hardened) E t.
Proof.
  intros Hh Hm. unfold CancelPendingCheckpoint, on_kv. do 2 wp_step.
  apply Hm; [by split|done|]. by eapply hardened_same; [|exact Hh].
Qed.

Lemma durable_survives t : durable_store t → survives t [contents_of (kv t)].
Proof. intros Ht. by apply leaves_survives, durable_leaves. Qed.

Lemma write_durable t r :
  durable_store t → record_ok r →
  wp (write hash r)
    (λ _ t', durable_store t' ∧ contents_of (kv t') = apply_record r (contents_of (kv t)))
    (λ _ t', contents_of (kv t') = contents_of (kv t) ∧
             leaves t' [contents_of (kv t); apply_record r (contents_of (kv t))]) t.
Proof.
  intros [(j & snap & rs1 & rs2 & base & Ha) Hh] Hr.
  eapply wp_mono; [apply wp_and; [by eapply write_agrees|by eapply write_hard]| |]; cbn beta.
  - intros [] t' [[Hc [j' Ha']] Hh']. split; [|done]. split; [|done].
    by exists j', snap, rs1, (rs2 ++ [r]), base.
  - by intros e t' [[Hc _] Hsv].
Qed.

(** A member under the locks, with the cancellation before it. *)
Lemma recoverable_durable (m : M (store_state W) bool) (rotated : bool) t :
  recoverable_call host hash m rotated →
  (∀ t' j snap rs1 rs2 base, agree host hash t' j snap rs1 rs2 base → hardened t' → savable (contents_of (kv t')) →
     wp m (λ _, hardened) (λ _ t2, leaves t2 [contents_of (kv t')]) t') →
  durable_store t → savable (contents_of (kv t)) →
  wp (CancelPendingCheckpoint ;;; m)
    (λ _ t', durable_store t' ∧ contents_of (kv t') = contents_of (kv t))
    (λ _ t', contents_of (kv t') = contents_of (kv t) ∧ leaves t' [contents_of (kv t)]) t.
Proof.
  intros Hm Hhard [Hp Hh] Hsav. pose proof Hp as (j & snap & rs1 & rs2 & base & Ha).
  eapply wp_mono; [apply wp_and; [by apply (recoverable_cancel host hash m rotated t)|]| |].
  - apply (cancel_hard m t (λ _ t', leaves t' [contents_of (kv t)])); [done|].
    intros t' Hsame Hsh Hh'. assert (contents_of (kv t') = contents_of (kv t)) as Hc
      by (unfold contents_of; by rewrite Hsh).
    rewrite <-Hc. eapply Hhard; [by eapply agree_same; [| |exact Ha]|done|by rewrite Hc].
  - cbn beta. intros b t' [(_ & Hc & j' & snap' & rs & _ & Ha') Hh']. split; [|done]. split; [|done].
    rewrite <-Hc in Ha'. by exists j', snap', rs, [], (contents_of (kv t')).
  - cbn beta. by intros e t' [[Hc _] Hl].
Qed.

(** One update. *)
Lemma update_durable t u :
  durable_store t → saves_fit (contents_of (kv t)) [u] →
  wp (run_update u)
    (λ _ t', durable_store t' ∧ contents_of (kv t') = update_effect (contents_of (kv t)) u)
    (λ _ t', contents_of (kv t') = contents_of (kv t) ∧
             leaves t' [contents_of (kv t); update_effect (contents_of (kv t)) u]) t.
Proof.
  intros Ht [Hsav _].
  assert (∀ t' m, leaves t' [m] → leaves t' [m; m]) as Hweak
    by (intros t' m; apply leaves_weaken; set_solver).
  destruct u as [k v|k| |]; cbn [run_update update_effect].
  - by apply (write_durable t (record_of_set k v)).
  - by apply (write_durable t (record_of_delete k)).
  - wp_step. eapply wp_mono; [apply (recoverable_durable _ false);
      [by apply (wp_SaveSnapshotLocked host hash iterate)|apply save_hard|done..]| |]; cbn beta; [intros b t' ?; by wp_step|naive_solver].
  - wp_step. eapply wp_mono; [apply (recoverable_durable _ true);
      [by apply (wp_CompactPersistenceLocked host hash iterate)|apply compact_hard|done..]| |]; cbn beta; [intros b t' ?; by wp_step|naive_solver].
Qed.

Lemma run_updates_durable us : ∀ t,
  durable_store t → saves_fit (contents_of (kv t)) us →
  wp (run_updates us)
    (λ _ t', durable_store t' ∧ contents_of (kv t') = foldl update_effect (contents_of (kv t)) us ∧
             leaves t' [contents_of (kv t')])
    (λ _ t', ∃ done u rest, us = done ++ u :: rest ∧
             contents_of (kv t') = foldl update_effect (contents_of (kv t)) done ∧
             leaves t' [contents_of (kv t'); update_effect (contents_of (kv t')) u]) t.
Proof.
  induction us as [|u us IH]; intros t Ht Hfit; cbn [run_updates].
  - wp_step. split_and!; [done..|]. by apply durable_leaves.
  - destruct Hfit as [Hu Hus]. wp_step. eapply wp_mono; [by apply (update_durable t u)| |]; cbn beta.
    + intros [] t1 [Ht1 Hc1]. eapply wp_mono; [apply IH; [done|by rewrite Hc1]| |]; cbn beta; rewrite Hc1.
      * done.
      * intros e t' (ok & u' & rest & -> & Hc & Hsv). by exists (u :: ok), u', rest.
    + intros e t' [Hc Hsv]. exists [], u, us. split_and!; [done..|]. by rewrite Hc.
Qed.

(** C9: The whole store against power failures, under [Sync] and [GroupCommit].
    From a state in which everything a restart reads is synchronized, run any
    sequence of [Set], [Delete], [SaveSnapshot] and [CompactPersistence], under any
    pattern of failures. If every call returns, memory has all the changes in order,
    and whatever a power failure then takes, a restart recovers exactly memory. If a
    call throws, memory has the changes of the calls before it, and after a power
    failure at that point a restart recovers memory, or memory and the change that
    the call refused. *)
Theorem store_survives_power_failure us t :
  durable_store t → saves_fit (contents_of (kv t)) us →
  wp (run_updates us)
    (λ _ t', durable_store t' ∧ contents_of (kv t') = foldl update_effect (contents_of (kv t)) us ∧
             survives t' [contents_of (kv t')])
    (λ _ t', ∃ done u rest, us = done ++ u :: rest ∧
             contents_of (kv t') = foldl update_effect (contents_of (kv t)) done ∧
             survives t' [contents_of (kv t'); update_effect (contents_of (kv t')) u]) t.
Proof.
  intros Ht Hfit. eapply wp_mono; [by apply run_updates_durable| |]; cbn beta.
  - intros [] t' (Ht' & Hc & Hl%leaves_survives). done.
  - intros e t' (ok & u & rest & Hus & Hc & Hl%leaves_survives). by exists ok, u, rest.
Qed.

End power.
