(* ===== verification/Restart.v ===== *)
(** * Restarting after a power failure

    A store that everything was synchronized of, or a call that threw, then a power
    failure, and the start of the program on the files that are left: the constructor
    of the log, its repair, the loading of the snapshot and the replay, with any
    configuration that synchronizes. *)

From S2P Require Import Prelude Machine BinaryIO Crc WalFormat WalReplay WalLog WalDurability.
From S2P Require Import WalMaintenance SnapshotFile Journal KVStore StoreSharding StorePersistence StoreDurability WalReopen.

(** ** Starting *)

Section restart.
  Context (host : endianness).
  Context (hash : bytes → Z) (iterate : gmap bytes bytes → list (bytes * bytes)).
  Context (iterate_spec : ∀ m, iterate m ≡ₚ map_to_list m).
  #[local] Hint Extern 0 (Journal WriteAheadLog) => exact (wal_journal host) : typeclass_instances.
  #[local] Hint Extern 0 (JournalSpec WriteAheadLog) => exact (wal_journal_spec host) : typeclass_instances.
  #[local] Hint Extern 0 (JournalLaws WriteAheadLog) => exact (wal_journal_laws host) : typeclass_instances.
  #[local] Hint Extern 0 (JournalDurable WriteAheadLog) => exact (wal_durable_journal host) : typeclass_instances.
  #[local] Hint Extern 0 (JournalDurableLaws WriteAheadLog) => exact (wal_durable_laws host) : typeclass_instances.
  Implicit Types (t : store_state WriteAheadLog).

(** A new store on a log loads the snapshot and replays the log. *)
Definition start_on (log : WriteAheadLog) (snap : Snapshot) : M world (KVStore WriteAheadLog) :=
  inside (StoreState (new_store (Some log) (Some snap))) kv_os kv
    (let! loaded := LoadSnapshot host hash iterate snap in
     ReplayFromWal hash iterate log (wal_offset loaded)).

(** The log is opened as it is. *)
Definition start (c : wal_config) (snap : Snapshot) : M world (KVStore WriteAheadLog) :=
  let! log := open_wal host c in start_on log snap.

(** The log is repaired before the store uses it. *)
Definition start_repaired (c : wal_config) (snap : Snapshot) : M world (KVStore WriteAheadLog) :=
  let! log := open_repaired host c in start_on log snap.

(** Loading and replaying on the files that a log and a snapshot agree on. *)
Lemma wp_start_on o snap w rs1 rs2 base (Q : KVStore WriteAheadLog → world → Prop) E :
  separate o snap → journal_log o w (rs1 ++ rs2) → snapshot_covers host o snap w rs1 base →
  (∀ s, agree host hash (StoreState s w) o snap rs1 rs2 base → Q s w) →
  wp (start_on o snap) Q E w.
Proof.
  intros Hsep Hlog Hcov HQ. pose proof Hcov as (r & base0 & Hl & He & Hb). unfold start_on.
  do 2 wp_step. apply (wp_LoadSnapshot host hash iterate iterate_spec); cbn [kv kv_os]; [apply length_replicate| |].
  2: { intros e b t' Hload. rewrite Hl in Hload. discriminate. }
  intros r' base' t1 Hload Hok Hc [Hw Hs Ho]. rewrite Hl in Hload. injection Hload as <- <-. cbn in Hw, Hs, Ho.
  pose proof (journal_log_replays o w _ Hlog (wal_offset r) rs1 rs2 base eq_refl He) as Hrep.
  rewrite app_nil_r in Hrep.
  apply (wp_ReplayFromWal hash iterate iterate_spec); [done| |]; rewrite Hc, Ho, Hrep; [|done].
  intros n m t2 [= <- <-] Hok2 Hc2 [Hw2 Hs2 Ho2]. rewrite Ho in Ho2. destruct t2 as [s w2]. cbn [kv kv_os] in *.
  subst w2. apply HQ. split; cbn [kv kv_os]; rewrite ?Hw2, ?Hs2, ?Hw, ?Hs; done.
Qed.

(** The store that is started is durable again. *)
Lemma start_on_durable o snap w rs1 rs2 base (E : exn → world → Prop) :
  separate o snap → journal_log o w (rs1 ++ rs2) → snapshot_covers host o snap w rs1 base →
  journal_hard o w → snapshot_hard snap w →
  wp (start_on o snap)
    (λ s w2, durable_store host hash (StoreState s w2) ∧ contents_of s = apply_records rs2 base) E w.
Proof.
  intros Hsep Hlog Hcov Hh Hsn. eapply wp_start_on; [done..|]. intros s Ha.
  split; [|exact (agree_contents _ _ _ _ _ _ _ _ Ha)].
  split; [by exists o, snap, rs1, rs2, base|]. exists o, snap. by split_and!; try apply Ha.
Qed.

Lemma restart_durable t w' c snap j (E : exn → world → Prop) :
  durable_store host hash t → wal_ (kv t) = Some j → snapshot_ (kv t) = Some snap →
  power_failure (kv_os t) w' →
  path_ c = path_ (config j) → policy_ c ≠ Buffered → 0 ≤ max_batch_ c →
  wp (open_wal host c) (λ _ _, True) E w' →
  wp (start c snap)
    (λ s w2, durable_store host hash (StoreState s w2) ∧ contents_of s = contents_of (kv t)) E w'.
Proof.
  intros [(j0 & snap0 & rs1 & rs2 & base & Ha) Hh] Hj Hs Hw' Hpath Hpol Hmb Hopen.
  destruct Ha as [Hok Hj' Hs' Hsep [Hr Hq] Hcov Hcon]. rewrite Hj in Hj'. injection Hj' as <-.
  rewrite Hs in Hs'. injection Hs' as <-.
  destruct (hardened_parts _ _ _ Hj Hs Hh) as [(_ & _ & Hdur) Hsn].
  pose proof (power_failure_durable _ _ _ Hdur Hw') as Hfile.
  pose proof (power_failure_synced _ _ _ Hdur Hw') as (y & Hy & Hsy).
  unfold start. wp_step.
  eapply wp_mono; [apply wp_and; [exact Hopen|
    apply (open_ready host (WalState j (kv_os t)) (rs1 ++ rs2) c w'); try done; rewrite ?Hpath]| |];
    cbn [wal os]; [exact Hfile| |by intros e w2 [? _]].
  cbn beta. intros o w2 [_ (Hfs & Hc & Hfd & Hq2 & Hr2 & Hends)]. rewrite Hcon.
  apply (start_on_durable o snap w2 rs1).
  - unfold separate. cbn. by rewrite Hc, Hpath.
  - by split.
  - pose proof (covers_survives _ _ _ _ _ _ _ Hcov Hsn Hw') as (r & base0 & Hl & [He Hmax] & Hb).
    exists r, base0. split_and!; [|split; [by eapply Hends|done]|done].
    rewrite <-Hl. unfold file_contents. by rewrite Hfs.
  - split; [by rewrite Hc|]. split; [by rewrite Hfd, bool_decide_true|].
    exists y. by rewrite Hc, Hfs, Hpath.
  - apply (snapshot_hard_frame snap w'); [by rewrite Hfs|]. by eapply snapshot_hard_survives.
Qed.

(** On files that a failed call left, after the repair. *)
Lemma restart_repaired t m c snap j (E : exn → world → Prop) :
  repairable host t m → wal_ (kv t) = Some j → snapshot_ (kv t) = Some snap →
  path_ c = path_ (config j) → policy_ c ≠ Buffered → 0 ≤ max_batch_ c →
  wp (open_repaired host c) (λ _ _, True) E (kv_os t) →
  wp (start_repaired c snap)
    (λ s w2, durable_store host hash (StoreState s w2) ∧ contents_of s = m) E (kv_os t).
Proof.
  intros (j0 & snap0 & r & base & base0 & rs1 & rs2 & Hj' & Hs' & Hsep & Hsn & Hl & Hb & Hm & ->) Hj Hs
    Hpath Hpol Hmb Hopen.
  rewrite Hj in Hj'. injection Hj' as <-. rewrite Hs in Hs'. injection Hs' as <-.
  destruct Hm as (Hd & Hoff & fmt & content & Hok & Hfit & Hc & Ht & Hcov). rewrite <-Hpath in *.
  unfold start_repaired. wp_step. eapply wp_mono; [apply wp_and; [exact Hopen|
    apply (wp_open_repaired host c fmt (rs1 ++ rs2) (kv_os t) content (λ o w2, config o = c ∧
      journal_hard o w2 ∧ journal_log o w2 (rs1 ++ rs2) ∧ same_ends host fmt (wal_fmt (format o)) (rs1 ++ rs2) ∧
      untouched [path_ c] (kv_os t) w2) (λ _ _, True)); try done]| |by intros e w2 [? _]].
  - intros o w2 Hco Hfd Hq Hr He Hu Hd2. split_and!; try done.
    split; [by rewrite Hco|]. split; [by rewrite Hfd, bool_decide_true|]. rewrite Hco. by apply Hd2.
  - cbn beta. intros o w2 [_ (Hco & Hh & Hlog & He & Hu)].
    assert (separate o snap) as Hsep' by (unfold separate in *; cbn in *; by rewrite Hco, Hpath).
    assert (files w2 !! snapshot_path snap = files (kv_os t) !! snapshot_path snap) as Hsame.
    { apply (separate_snapshot o); [done|]. cbn. by rewrite Hco. }
    apply (start_on_durable o snap w2 rs1 rs2 base); try done; [|by eapply snapshot_hard_frame].
    exists r, base0. split_and!; [|split; [by eapply He|done]|done].
    rewrite <-Hl. unfold file_contents. by rewrite Hsame.
Qed.

(** ** Sessions *)

(** The same log under a configuration that synchronizes, and the same snapshot. *)
Record restarts t (c : wal_config) (snap : Snapshot) : Prop := {
  restarts_log : ∃ j, wal_ (kv t) = Some j ∧ path_ c = path_ (config j);
  restarts_snapshot : snapshot_ (kv t) = Some snap;
  restarts_policy : policy_ c ≠ Buffered;
  restarts_batch : 0 ≤ max_batch_ c
}.

(** Updates that all return, a power failure, a start on what is left, and so on.
    The outcomes of later calls are whatever the world after the failure says. *)
Inductive lives : store_state WriteAheadLog → store_state WriteAheadLog → list update → Prop :=
| lives_on t us t' :
    run_updates host hash iterate us t = (Ok tt, t') → lives t t' us
| lives_again t us t1 w c snap s w2 t' us' :
    run_updates host hash iterate us t = (Ok tt, t1) →
    power_failure (kv_os t1) w → restarts t1 c snap → start c snap w = (Ok s, w2) →
    lives (StoreState s w2) t' us' → lives t t' (us ++ us').

Lemma saves_fit_app m us us' :
  saves_fit m (us ++ us') ↔ saves_fit m us ∧ saves_fit (foldl update_effect m us) us'.
Proof.
  revert m. induction us as [|u us IH]; intros m; cbn [app saves_fit foldl]; [tauto|]. rewrite IH. tauto.
Qed.

Lemma lives_durable t t' us :
  durable_store host hash t → saves_fit (contents_of (kv t)) us → lives t t' us →
  durable_store host hash t' ∧ contents_of (kv t') = foldl update_effect (contents_of (kv t)) us.
Proof.
  intros Ht Hfit Hl. revert Ht Hfit.
  induction Hl as [t us t' Hrun|t us t1 w c snap s w2 t' us' Hrun Hw [(j & Hj & Hpath) Hs Hpol Hmb] Hstart _ IH];
    intros Ht Hfit.
  - pose proof (run_updates_durable host hash iterate iterate_spec us t Ht Hfit) as Hwp.
    destruct (wp_ok _ _ _ _ _ _ Hwp Hrun) as (Ht' & Hc & _). done.
  - apply saves_fit_app in Hfit as [Hfit Hfit'].
    pose proof (run_updates_durable host hash iterate iterate_spec us t Ht Hfit) as Hwp.
    destruct (wp_ok _ _ _ _ _ _ Hwp Hrun) as (Ht1 & Hc1 & _).
    assert (wp (open_wal host c) (λ _ _, True) (λ _ _, True) w) as Hopen
      by (unfold wp; by destruct (open_wal host c w) as [[] ?]).
    pose proof (restart_durable t1 w c snap j _ Ht1 Hj Hs Hw Hpath Hpol Hmb Hopen) as Hwp2.
    destruct (wp_ok _ _ _ _ _ _ Hwp2 Hstart) as [Ht2 Hc2].
    destruct IH as [Ht' Hc']; [done|by cbn [kv]; rewrite Hc2, Hc1|].
    split; [done|]. cbn [kv] in Hc'. by rewrite Hc', Hc2, Hc1, foldl_app.
Qed.

(** After a power failure the program can start again. *)
Lemma start_returns t w c snap :
  durable_store host hash t → power_failure (kv_os t) w → restarts t c snap →
  script w = [] → 0 < max_batch_ c ≤ 4096 → ∃ s w2, start c snap w = (Ok s, w2).
Proof.
  intros Ht Hw [(j & Hj & Hpath) Hs Hpol Hmb] Hscript Hb.
  pose proof Ht as [(j0 & snap0 & rs1 & rs2 & base & Ha) Hh].
  pose proof Ha as [_ Hj' _ _ [Hr _] _ _]. rewrite Hj in Hj'. injection Hj' as <-.
  destruct (hardened_parts _ _ _ Hj Hs Hh) as [(_ & _ & Hdur) _].
  assert (wp (open_wal host c) (λ _ _, True) (λ _ _, False) w) as Hopen.
  { assert (file_contents (path_ c) w = Some (wal_image host (format j) (rs1 ++ rs2))) as Hc.
    { rewrite Hpath, (power_failure_durable _ _ _ Hdur Hw). apply (ready_file _ _ _ Hr). }
    destruct (inspect_image host _ _ Hr) as (f & Hins & _). cbn [wal] in Hins.
    eapply wp_mono; [by apply open_returns|done|]. cbn beta. intros e w2. rewrite Hc. cbn [from_option id].
    by rewrite Hins. }
  pose proof (restart_durable t w c snap j _ Ht Hj Hs Hw Hpath Hpol Hmb Hopen) as Hwp.
  unfold wp in Hwp. destruct (start c snap w) as [[s|e] w2]; [by exists s, w2|done].
Qed.

(** The store over its life, under [Sync] and [GroupCommit]. Sessions of
    any number of [Set], [Delete], [SaveSnapshot] and [CompactPersistence] that
    return, each ended by a power failure and followed by a start on whatever it
    left, add up: memory is what all updates of all sessions make of the first map,
    in order, and the store is again one that survives the next power failure. The
    start never meets a log that it cannot read: without input/output errors it
    always returns. *)
Theorem sessions_add_up t t' us :
  durable_store host hash t → saves_fit (contents_of (kv t)) us → lives t t' us →
  durable_store host hash t' ∧
  contents_of (kv t') = foldl update_effect (contents_of (kv t)) us ∧
  ∀ w c snap, power_failure (kv_os t') w → restarts t' c snap → script w = [] →
    0 < max_batch_ c ≤ 4096 → ∃ s w2, start c snap w = (Ok s, w2).
Proof.
  intros Ht Hfit Hl. destruct (lives_durable t t' us Ht Hfit Hl) as [Ht' Hc].
  split; [done|]. split; [done|]. intros w c snap. by apply start_returns.
Qed.

(** ** Sessions that end in a failure *)

(** The calls of one life of the process: those that returned and the one that threw, if any. *)
Record lifetime := Lifetime { life_returned : list update; life_threw : option update }.

Definition ran t (σ : lifetime) t1 : Prop :=
  ∃ t0, run_updates host hash iterate (life_returned σ) t = (Ok tt, t0) ∧
  match life_threw σ with
  | None => t1 = t0
  | Some u => ∃ e, run_update host hash iterate u t0 = (Exn e, t1)
  end.

(** After a failure the log is repaired; without one it need not be. *)
Definition starts (σ : lifetime) (c : wal_config) (snap : Snapshot) (w : world)
    (s : KVStore WriteAheadLog) (w2 : world) : Prop :=
  start_repaired c snap w = (Ok s, w2) ∨ life_threw σ = None ∧ start c snap w = (Ok s, w2).

(** Sessions, each ended by a power failure and followed by a start. *)
Inductive through : store_state WriteAheadLog → list lifetime → store_state WriteAheadLog → Prop :=
| through_none t : through t [] t
| through_session t σ t1 w c snap s w2 ss t' :
    ran t σ t1 → power_failure (kv_os t1) w → restarts t1 c snap → starts σ c snap w s w2 →
    through (StoreState s w2) ss t' → through t (σ :: ss) t'.

(** The updates in effect: all that returned, in order, and any of those that threw. *)
Inductive kept : list lifetime → list update → Prop :=
| kept_none : kept [] []
| kept_returned σ ss vs : kept ss vs → kept (σ :: ss) (life_returned σ ++ vs)
| kept_threw σ u ss vs :
    life_threw σ = Some u → kept ss vs → kept (σ :: ss) (life_returned σ ++ u :: vs).

Lemma kept_total ss : ∃ vs, kept ss vs.
Proof. induction ss as [|σ ss [vs IH]]; [by exists []; constructor|]. eexists. by apply kept_returned. Qed.

(** What a session leaves for the next start. *)
Lemma ran_leaves t σ t1 :
  durable_store host hash t → (∀ vs, kept [σ] vs → saves_fit (contents_of (kv t)) vs) → ran t σ t1 →
  (life_threw σ = None → durable_store host hash t1 ∧
     contents_of (kv t1) = foldl update_effect (contents_of (kv t)) (life_returned σ)) ∧
  ∀ w, power_failure (kv_os t1) w → ∃ vs, kept [σ] vs ∧
    repairable host (StoreState (kv t1) w) (foldl update_effect (contents_of (kv t)) vs).
Proof.
  intros Ht Hfit (t0 & Hrun & Hend).
  assert (kept [σ] (life_returned σ ++ [])) as Hkept by (apply kept_returned; constructor).
  pose proof (Hfit _ Hkept) as Hfit0. rewrite app_nil_r in Hkept, Hfit0.
  destruct (wp_ok _ _ _ _ _ _ (run_updates_durable host hash iterate iterate_spec _ t Ht Hfit0) Hrun)
    as (Ht0 & Hc0 & Hl0).
  destruct (life_threw σ) as [u|] eqn:Hu.
  - split; [done|]. destruct Hend as [e Hthrow].
    assert (kept [σ] (life_returned σ ++ [u])) as Hkept' by (apply kept_threw; [done|constructor]).
    destruct (proj1 (saves_fit_app _ _ _) (Hfit _ Hkept')) as [_ Hfitu]. rewrite <-Hc0 in Hfitu.
    destruct (wp_exn _ _ _ _ _ _ (update_durable host hash iterate iterate_spec t0 u Ht0 Hfitu) Hthrow)
      as [Hc1 Hl1].
    intros w Hw. destruct (Hl1 w Hw) as (m & Hm & Hr). rewrite !elem_of_cons, elem_of_nil, Hc0 in Hm.
    destruct Hm as [->|[->|[]]]; [by exists (life_returned σ)|].
    exists (life_returned σ ++ [u]). by rewrite foldl_app.
  - subst t1. split; [done|]. intros w Hw. destruct (Hl0 w Hw) as (m & Hm & Hr).
    apply list_elem_of_singleton in Hm as ->. exists (life_returned σ). by rewrite <-Hc0.
Qed.

(** One session and the start after it. *)
Lemma session_durable t σ t1 w c snap s w2 :
  durable_store host hash t → (∀ vs, kept [σ] vs → saves_fit (contents_of (kv t)) vs) → ran t σ t1 →
  power_failure (kv_os t1) w → restarts t1 c snap → starts σ c snap w s w2 →
  durable_store host hash (StoreState s w2) ∧
  ∃ vs, kept [σ] vs ∧ contents_of s = foldl update_effect (contents_of (kv t)) vs.
Proof.
  intros Ht Hfit Hran Hw [(j & Hj & Hpath) Hs Hpol Hmb] Hstart.
  destruct (ran_leaves t σ t1 Ht Hfit Hran) as [Hret Hleft].
  assert (∀ A (m : M world A), wp m (λ _ _, True) (λ _ _, True) w) as Hany
    by (intros A m; unfold wp; by destruct (m w) as [[] ?]).
  destruct Hstart as [Hstart|[Hnone Hstart]].
  - destruct (Hleft w Hw) as (vs & Hk & Hr).
    pose proof (restart_repaired (StoreState (kv t1) w) _ c snap j (λ _ _, True) Hr Hj Hs Hpath Hpol Hmb (Hany _ _))
      as Hwp.
    destruct (wp_ok _ _ _ _ _ _ Hwp Hstart) as [Ht2 Hc2]. split; [done|]. by exists vs.
  - destruct (Hret Hnone) as [Ht1 Hc1].
    pose proof (restart_durable t1 w c snap j (λ _ _, True) Ht1 Hj Hs Hw Hpath Hpol Hmb (Hany _ _)) as Hwp.
    destruct (wp_ok _ _ _ _ _ _ Hwp Hstart) as [Ht2 Hc2]. split; [done|].
    exists (life_returned σ ++ []). split; [apply kept_returned; constructor|]. by rewrite Hc2, Hc1, app_nil_r.
Qed.

Lemma kept_cons σ ss vs : kept (σ :: ss) vs ↔ ∃ us ws, vs = us ++ ws ∧ kept [σ] us ∧ kept ss ws.
Proof.
  split.
  - intros Hk. inversion Hk as [|? ? ws Hws|? u ? ws Hu Hws]; subst.
    + eexists (life_returned σ ++ []), ws. rewrite app_nil_r. split_and!; [done| |done].
      rewrite <-(app_nil_r (life_returned σ)). apply kept_returned. constructor.
    + eexists (life_returned σ ++ [u]), ws. rewrite <-app_assoc. split_and!; [done| |done].
      apply kept_threw; [done|constructor].
  - intros (us & ws & -> & Hus & Hws). inversion Hus as [|? ? ws' Hn|? u ? ws' Hu Hn]; subst; inversion Hn; subst.
    + rewrite app_nil_r. by apply kept_returned.
    + rewrite <-app_assoc. by apply kept_threw.
Qed.

Lemma through_durable t ss t' :
  durable_store host hash t → (∀ vs, kept ss vs → saves_fit (contents_of (kv t)) vs) → through t ss t' →
  durable_store host hash t' ∧
  ∃ vs, kept ss vs ∧ contents_of (kv t') = foldl update_effect (contents_of (kv t)) vs.
Proof.
  intros Ht Hfit Hthr. revert Ht Hfit.
  induction Hthr as [t|t σ t1 w c snap s w2 ss t' Hran Hw Hre Hstart _ IH]; intros Ht Hfit.
  { split; [done|]. exists []. split; [constructor|done]. }
  destruct (session_durable t σ t1 w c snap s w2) as (Ht2 & us & Hus & Hc2); [done| |done..|].
  { intros us Hus. destruct (kept_total ss) as [ws Hws].
    apply (saves_fit_app _ us ws), Hfit, kept_cons. by exists us, ws. }
  destruct IH as (Ht' & ws & Hws & Hc'); [done| |].
  { intros ws Hws. cbn [kv]. rewrite Hc2. apply saves_fit_app, Hfit, kept_cons. by exists us, ws. }
  split; [done|]. exists (us ++ ws). split; [apply kept_cons; by exists us, ws|].
  rewrite foldl_app, <-Hc2. exact Hc'.
Qed.

(** The start with the repair returns when nothing fails, up to the last number a
    log can give. *)
Lemma start_repaired_returns t m w c snap :
  repairable host (StoreState (kv t) w) m → restarts t c snap → script w = [] → 0 < max_batch_ c ≤ 4096 →
  ∃ w2, (∃ s, start_repaired c snap w = (Ok s, w2)) ∨
        start_repaired c snap w = (Exn (runtime_error (str "WAL sequence is exhausted")), w2).
Proof.
  intros Hr [(j & Hj & Hpath) Hs Hpol Hmb] Hscript Hb.
  pose proof Hr as (j0 & _ & r & _ & _ & rs1 & rs2 & Hj' & _ & _ & _ & _ & _ & Hm & _).
  cbn [kv] in Hj'. rewrite Hj in Hj'. injection Hj' as <-.
  destruct Hm as (_ & _ & fmt & content & Hok & Hfit & Hc & Ht & _). cbn [kv_os] in Hc. rewrite <-Hpath in Hc.
  pose proof (open_repaired_returns host c fmt _ w content Hscript Hb Hc Ht Hok Hfit) as Hopen.
  pose proof (restart_repaired (StoreState (kv t) w) m c snap j _ Hr Hj Hs Hpath Hpol Hmb Hopen) as Hwp.
  unfold wp in Hwp. cbn [kv_os] in Hwp. destruct (start_repaired c snap w) as [[s|e] w2]; exists w2; [left; by exists s|].
  right. by rewrite Hwp.
Qed.

(** C8: The store over many lives of the process, under [Sync] and [GroupCommit].
    Every life ends in a power failure, some of them right after a call that threw, at
    whatever point of its work it did; the next start repairs the log first, which it
    can leave out after a life in which nothing threw. Then memory is always what the
    calls that returned make of the first map, in order, with each call that threw
    either in effect as a whole or not at all; the store is again one that survives
    the next failure; and without input/output errors the start with the repair
    returns, or refuses a log whose sequence numbers are used up. *)
Theorem failed_sessions_add_up t t' ss :
  durable_store host hash t → (∀ vs, kept ss vs → saves_fit (contents_of (kv t)) vs) → through t ss t' →
  durable_store host hash t' ∧
  (∃ vs, kept ss vs ∧ contents_of (kv t') = foldl update_effect (contents_of (kv t)) vs) ∧
  ∀ σ t1 w c snap, ran t' σ t1 → (∀ vs, kept [σ] vs → saves_fit (contents_of (kv t')) vs) →
    power_failure (kv_os t1) w → restarts t1 c snap → script w = [] → 0 < max_batch_ c ≤ 4096 →
    ∃ w2, (∃ s, start_repaired c snap w = (Ok s, w2)) ∨
          start_repaired c snap w = (Exn (runtime_error (str "WAL sequence is exhausted")), w2).
Proof.
  intros Ht Hfit Hthr. destruct (through_durable t ss t' Ht Hfit Hthr) as [Ht' Hc].
  split; [done|]. split; [done|]. intros σ t1 w c snap Hran Hfit' Hw Hre Hscript Hb.
  destruct (ran_leaves t' σ t1 Ht' Hfit' Hran) as [_ Hleft]. destruct (Hleft w Hw) as (vs & _ & Hr).
  by eapply start_repaired_returns.
Qed.

End restart.
