(* ===== verification/RecoveryHazards.v ===== *)
(** * Recoveries that miss data without an error

    What the offset stored in a snapshot does when the log it refers to is gone:
    the state that [ClearPersistence] leaves when it fails, or when the machine
    stops, between emptying the log and removing the snapshot. And what becomes of a
    compacted store whose snapshot cannot be opened. *)

From S2P Require Import Prelude Machine BinaryIO Crc WalFormat WalReplay WalLog WalDurability.
From S2P Require Import WalMaintenance SnapshotFile Journal KVStore StoreSharding StorePersistence.

Section hazards.
  Context (host : endianness).
  Context (hash : bytes → Z) (iterate : gmap bytes bytes → list (bytes * bytes)).
  Context (iterate_spec : ∀ m, iterate m ≡ₚ map_to_list m).
#[local] Instance hazards_journal : Journal WriteAheadLog := wal_journal host.
#[local] Instance hazards_journal_spec : JournalSpec WriteAheadLog := wal_journal_spec host.
#[local] Instance hazards_journal_laws : JournalLaws WriteAheadLog := wal_journal_laws host.

(** A log that ends at or before the offset contributes nothing to a recovery. *)
Lemma short_log_ignored (j : WriteAheadLog) w rs off n m :
  journal_log j w rs → rs ≠ [] → journal_end j rs n → kHeaderLength ≤ off ≤ streamoff_max → n ≤ off →
  journal_replay_from j w off m = Ok (0, m).
Proof.
  intros [Hr _] Hne [[Hn|[_ ?]] _] Hoff Hle; [|done]. cbn in *. unfold wal_replay_from.
  pose proof (ready_file _ _ _ Hr) as Hfile. cbn in Hfile. rewrite Hfile.
  assert (wal_image host (format j) rs = log_image host (wal_fmt (format j)) rs) as Himg.
  { unfold wal_image. destruct (negb _ && _) eqn:Hp; [|done]. exfalso.
    apply andb_true_iff in Hp as [Hl%negb_true_iff Hp]. apply Hne. by apply (ready_pending _ _ _ Hr). }
  rewrite Himg. unfold ReplayFrom.
  erewrite (replay_past_end _ _ _ _ (wal_fmt (format j))); [done| |done|by rewrite <-Hn].
  rewrite <-(app_nil_r (log_image _ _ _)). apply opens_as_image.
  - by apply (ready_format_ok _ _ _ Hr).
  - by apply (ready_fit _ _ _ Hr).
  - right. by left.
Qed.

(** C39: the hazard of a stale snapshot. If a snapshot's offset is at or beyond
    the end of the log, as it is after [ClearPersistence] emptied the log and
    failed to remove the snapshot, then a [Set] is acknowledged, memory has it, and
    yet a restart recovers only the old snapshot: the record lies before the
    offset and is skipped without an error. *)
Theorem stale_snapshot_hides_writes t j snap rs r base k v n :
  store_ok hash (kv t) → wal_ (kv t) = Some j → snapshot_ (kv t) = Some snap → separate j snap →
  journal_log j (kv_os t) rs →
  Load host (file_contents (snapshot_path snap) (kv_os t)) ∅ = (Ok r, base) →
  kHeaderLength ≤ wal_offset r ≤ streamoff_max →
  journal_end j (rs ++ [{| rec_op := WalOp_Set; rec_key := k; rec_value := v |}]) n → n ≤ wal_offset r →
  wp (Set_ hash k v)
    (λ _ t', contents_of (kv t') = <[k := v]> (contents_of (kv t)) ∧ recovers host t' base)
    (λ _ _, True) t.
Proof.
  intros Hok Hw Hs Hsep Hlog Hload Hoff Hend Hn. apply wp_Set_; [done|].
  apply wp_on_wal_ptr; [by rewrite Hw|]. intros j0 Hj. rewrite Hw in Hj. injection Hj as <-.
  eapply wp_mono; [by apply (journal_write_law j (kv_os t) rs {| rec_op := WalOp_Set; rec_key := k; rec_value := v |})| |done].
  cbn beta. intros [] [j' w'] ([Hp Hf] & Hk & Hlog') t'' Hsh [Hpw Hps Hpo].
  cbn [fst snd kv kv_os shards_ set_wal wal_ snapshot_] in *.
  split; [unfold contents_of; rewrite Hsh; by apply all_data_insert|].
  exists j', snap. split_and!; [done|congruence|]. rewrite Hpo. unfold recover.
  unfold file_contents in *. rewrite (separate_snapshot j snap (kv_os t) w'), Hload by done.
  rewrite (short_log_ignored j' w' _ (wal_offset r) n base Hlog'); [done| |by apply Hk|done|done].
  by destruct rs.
Qed.

(** After a compaction the snapshot alone is memory. If it cannot be opened, the load
    reports that there is none and the replay finds an empty log: a restart begins
    with an empty store and no error. *)
Theorem unread_snapshot_forgets t :
  persistent host hash t → savable (contents_of (kv t)) →
  wp (CompactPersistence host iterate)
    (λ _ t', ∃ j snap, wal_ (kv t') = Some j ∧ snapshot_ (kv t') = Some snap ∧
       Load host (seen Unopened (file_contents (snapshot_path snap) (kv_os t'))) ∅ = (Ok not_loaded, ∅) ∧
       journal_replay_from j (kv_os t') (wal_offset not_loaded) ∅ = Ok (0, ∅))
    (λ _ _, True) t.
Proof.
  intros Hp Hsav.
  eapply wp_mono; [by apply (recoverable_cancel host hash _ _ t (wp_CompactPersistenceLocked host hash iterate iterate_spec))| |done].
  intros b t' (_ & _ & j & snap & rs & Hrs & Ha). rewrite Hrs in Ha by done. exists j, snap.
  split_and!; [apply Ha|apply Ha|done|].
  apply (journal_log_replays j _ _ (agree_log _ _ _ _ _ _ _ _ Ha) _ [] []); [done|]. apply journal_start.
Qed.

End hazards.
