(* ===== verification/Checkpointing.v ===== *)
(** * Background checkpoints among foreground calls

    [CheckpointLoop] of [src/store/kv_store.cpp] and the locks: the checkpoint
    thread captures the data and the end of the log under all shard locks,
    releases them, and publishes the snapshot while foreground writes go on.
    A step of the relation is what runs under one set of locks. A write is two
    steps, the log and then the shard, with the lock of its shard held between
    them; so writes of different shards may reach memory in another order than
    the log. Publication touches the snapshot files only, no other step does, so
    it is one step. *)

From S2P Require Import Prelude Machine BinaryIO Crc WalFormat WalReplay SnapshotFile Journal.
From S2P Require Import KVStore StoreSharding StorePersistence.

Section checkpointing.
  Context {W : Type} `{JournalLaws W} (host : endianness).
  Context (hash : bytes → Z) (iterate : gmap bytes bytes → list (bytes * bytes)).
  Context (iterate_spec : ∀ m, iterate m ≡ₚ map_to_list m).
  Implicit Types (t : store_state W) (j : W) (w : world) (snap : Snapshot) (m : gmap bytes bytes).
  Local Abbreviation index := (ShardIndex hash).

(** ** The parts of the loop *)

(** The first critical section: the request is taken. *)
Definition take_request : M (store_state W) Z :=
  let! s := gets kv in
  on_kv (λ s, set_checkpoint false true (checkpoint_stopping_ s) (checkpoint_epoch_ s)
                (checkpoint_error_ s) s) ;;;
  ret (checkpoint_epoch_ s).

(** Whether the request was cancelled since. *)
Definition request_cancelled (epoch : Z) : M (store_state W) bool :=
  gets (λ t, negb (epoch =? checkpoint_epoch_ (kv t))).

(** Under all shard locks. *)
Definition capture : M (store_state W) (gmap bytes bytes * Z) :=
  let! s := gets kv in
  let data := CollectDataLocked s in
  let! wal_offset := on_wal_ptr 0 journal_offset in
  on_kv (set_writes 0) ;;;
  ret (data, wal_offset).

Definition publish (data : gmap bytes bytes) (wal_offset : Z) : M (store_state W) unit :=
  with_snapshot tt (λ snap, on_machine (SaveVerified host snap (iterate data) wal_offset)).

(** The handler. *)
Definition record_checkpoint_error (e : exn) : M (store_state W) unit :=
  on_kv (λ s, set_checkpoint false (checkpoint_active_ s) (checkpoint_stopping_ s)
                (checkpoint_epoch_ s) (Some e) s).

Definition finish_checkpoint : M (store_state W) unit :=
  on_kv (λ s, set_checkpoint (checkpoint_requested_ s) false (checkpoint_stopping_ s)
                (checkpoint_epoch_ s) (checkpoint_error_ s) s).

(** One turn of [CheckpointLoop] in which nothing else runs. *)
Definition checkpoint_round : M (store_state W) unit :=
  let! epoch := take_request in
  catch
    (let! cancelled := request_cancelled epoch in
     if cancelled then ret tt
     else let! captured := capture in publish captured.1 captured.2)
    record_checkpoint_error ;;;
  finish_checkpoint.

(** What the thread does when it holds [checkpoint_mutex_]. *)
Inductive wake_up := Blocks | Returns | Takes.
Definition loop_wakes (s : KVStore W) : wake_up :=
  if negb (checkpoint_stopping_ s || checkpoint_requested_ s) then Blocks
  else if checkpoint_stopping_ s && negb (checkpoint_requested_ s) then Returns
  else Takes.

(** [CheckpointLoop] for at most [fuel] turns; whether it returned. *)
Fixpoint CheckpointLoop (fuel : nat) : M (store_state W) bool :=
  match fuel with
  | O => ret false
  | S fuel =>
      let! s := gets kv in
      match loop_wakes s with
      | Blocks => ret false
      | Returns => ret true
      | Takes => checkpoint_round ;;; CheckpointLoop fuel
      end
  end.

(** The destructor; the thread exists when there is a snapshot. The result is
    whether the thread can be joined. *)
Definition destroy (fuel : nat) : M (store_state W) bool :=
  let! s := gets kv in
  match snapshot_ s with
  | None => ret true
  | Some _ =>
      on_kv (λ s, set_checkpoint (checkpoint_requested_ s) (checkpoint_active_ s) true
                    (checkpoint_epoch_ s) (checkpoint_error_ s) s) ;;;
      CheckpointLoop fuel
  end.

(** [WaitForCheckpoints], when there is nothing left to wait for. *)
Definition WaitForCheckpoints : M (store_state W) unit :=
  let! s := gets kv in
  match snapshot_ s with
  | None => ret tt
  | Some _ => match checkpoint_error_ s with Some e => throw e | None => ret tt end
  end.

(** ** The step relation *)

Inductive loop_phase :=
| Sleeping
| Requested (epoch : Z)
| Deciding (epoch : Z)
| Publishing (data : gmap bytes bytes) (wal_offset : Z)
| Finishing.

(** Who holds [snapshot_mutex_]. *)
Inductive snapshot_owner := Nobody | CheckpointThread | Caller.

(** The store; the writes that are in the log but not yet in memory, each with
    its shard locked; the checkpoint thread; the owner of [snapshot_mutex_]. *)
Record run := Run {
  run_store : store_state W;
  run_inflight : list ParsedRecord;
  run_phase : loop_phase;
  run_owner : snapshot_owner
}.

Definition shard_free (key : bytes) (inflight : list ParsedRecord) : Prop :=
  Forall (λ r, index (rec_key r) ≠ index key) inflight.

(** The rest of a write once it is logged: the shard, and the bookkeeping. *)
Definition store_in_memory (r : ParsedRecord) : M (store_state W) unit :=
  on_kv (λ s, set_shards
    (alter (apply_record r) (index (rec_key r)) (shards_ s)) s).
Definition apply_in_memory (r : ParsedRecord) : M (store_state W) unit :=
  store_in_memory r ;;; count_write.

(** The calls that take [snapshot_mutex_] and then every shard lock. *)
Inductive admin_call := CallSave | CallCompact.
Definition run_admin (c : admin_call) : M (store_state W) bool :=
  match c with
  | CallSave => SaveSnapshotLocked host iterate
  | CallCompact => CompactPersistenceLocked host iterate
  end.

Inductive step : run → run → Prop :=
| step_log t l ph o r t' :
    shard_free (rec_key r) l → record_ok r →
    on_wal_ptr tt (journal_write r) t = (Ok tt, t') →
    step (Run t l ph o) (Run t' (l ++ [r]) ph o)
| step_apply t l1 r l2 ph o t' :
    apply_in_memory r t = (Ok tt, t') →
    step (Run t (l1 ++ r :: l2) ph o) (Run t' (l1 ++ l2) ph o)
| step_begin_admin t l ph :
    step (Run t l ph Nobody)
      (Run (StoreState (set_checkpoint false (checkpoint_active_ (kv t)) (checkpoint_stopping_ (kv t))
              (u64 (checkpoint_epoch_ (kv t) + 1)) (checkpoint_error_ (kv t)) (kv t)) (kv_os t)) l ph Caller)
| step_admin t ph c b t' :
    run_admin c t = (Ok b, t') →
    step (Run t [] ph Caller) (Run t' [] ph Nobody)
| step_take t l o epoch t' :
    checkpoint_requested_ (kv t) = true → take_request t = (Ok epoch, t') →
    step (Run t l Sleeping o) (Run t' l (Requested epoch) o)
| step_lock t l epoch :
    step (Run t l (Requested epoch) Nobody) (Run t l (Deciding epoch) CheckpointThread)
| step_cancelled t l epoch :
    request_cancelled epoch t = (Ok true, t) →
    step (Run t l (Deciding epoch) CheckpointThread) (Run t l Finishing Nobody)
| step_capture t epoch data off t' :
    request_cancelled epoch t = (Ok false, t) → capture t = (Ok (data, off), t') →
    step (Run t [] (Deciding epoch) CheckpointThread) (Run t' [] (Publishing data off) CheckpointThread)
| step_publish t l data off t' :
    publish data off t = (Ok tt, t') →
    step (Run t l (Publishing data off) CheckpointThread) (Run t' l Finishing Nobody)
| step_publish_fails t l data off e t1 t' :
    publish data off t = (Exn e, t1) → record_checkpoint_error e t1 = (Ok tt, t') →
    step (Run t l (Publishing data off) CheckpointThread) (Run t' l Finishing Nobody)
| step_finish t l o t' :
    finish_checkpoint t = (Ok tt, t') →
    step (Run t l Finishing o) (Run t' l Sleeping o).

(** ** Writes of different shards commute *)

Lemma apply_record_comm r1 r2 m :
  rec_key r1 ≠ rec_key r2 → apply_record r1 (apply_record r2 m) = apply_record r2 (apply_record r1 m).
Proof.
  intros Hk. unfold apply_record. destruct (rec_op r1), (rec_op r2).
  - by apply insert_insert_ne.
  - by rewrite delete_insert_ne.
  - by rewrite delete_insert_ne.
  - apply delete_delete.
Qed.

Lemma apply_records_pull l1 r l2 m :
  Forall (λ r', rec_key r' ≠ rec_key r) l1 →
  apply_records (l1 ++ r :: l2) m = apply_records (l1 ++ l2) (apply_record r m).
Proof.
  intros Hl. revert m. induction Hl as [|r' l1 Hr' _ IH]; intros m; [done|].
  cbn [app]. unfold apply_records in *. cbn [foldl]. rewrite IH. f_equal. by apply apply_record_comm.
Qed.

(** The writes in flight hold the locks of different shards. *)
Definition locks_held (l : list ParsedRecord) : Prop := NoDup ((λ r, index (rec_key r)) <$> l).

Lemma locks_held_snoc l r : locks_held l → shard_free (rec_key r) l → locks_held (l ++ [r]).
Proof.
  intros Hl Hr. unfold locks_held. rewrite fmap_app. apply NoDup_app. split_and!; [done| |apply NoDup_singleton].
  intros i (r' & -> & Hin)%list_elem_of_fmap. cbn. rewrite list_elem_of_singleton. intros Heq.
  unfold shard_free in Hr. rewrite Forall_forall in Hr. by apply (Hr r').
Qed.

Lemma locks_held_remove l1 r l2 :
  locks_held (l1 ++ r :: l2) → locks_held (l1 ++ l2) ∧ Forall (λ r', rec_key r' ≠ rec_key r) l1.
Proof.
  unfold locks_held. rewrite !fmap_app, fmap_cons. intros (Hl1 & Hd & [Hr Hl2]%NoDup_cons)%NoDup_app. split.
  - apply NoDup_app. split_and!; [done| |done]. intros i Hi Hi2. apply (Hd i Hi). by right.
  - apply Forall_forall. intros r' Hin Heq. apply (Hd (index (rec_key r))); [|left].
    apply list_elem_of_fmap. exists r'. by rewrite Heq.
Qed.

Lemma locks_held_free l k m :
  shard_free k l → apply_records l m !! k = m !! k.
Proof.
  intros Hl. revert m. induction Hl as [|r l Hr _ IH]; intros m; [done|].
  unfold apply_records in *. cbn [foldl]. rewrite IH. unfold apply_record.
  assert (rec_key r ≠ k) by congruence. destruct (rec_op r); [by rewrite lookup_insert_ne|by rewrite lookup_delete_ne].
Qed.

(** ** The invariant *)

(** Memory once the writes in flight have arrived. *)
Definition pending_contents (u : run) : gmap bytes bytes :=
  apply_records (run_inflight u) (contents_of (kv (run_store u))).

(** A captured map is the effect of a part of the log, whose end was captured with
    it, and the rest of the log leads from it to memory. *)
Definition captured_at j (rs : list ParsedRecord) (data : gmap bytes bytes) (off : Z)
    (m : gmap bytes bytes) : Prop :=
  ∃ rsa rsb base0, rs = rsa ++ rsb ∧ journal_end j rsa off ∧
    data = apply_records rsa base0 ∧ m = apply_records rsb data.

Definition phase_ok j (rs : list ParsedRecord) (m : gmap bytes bytes) (ph : loop_phase)
    (o : snapshot_owner) : Prop :=
  match ph with
  | Publishing data off => o = CheckpointThread ∧ savable data ∧ captured_at j rs data off m
  | Deciding _ => o = CheckpointThread
  | _ => o ≠ CheckpointThread
  end.

Record run_agrees (u : run) j snap (rs1 rs2 : list ParsedRecord) (base : gmap bytes bytes) : Prop := {
  run_ok : store_ok hash (kv (run_store u));
  run_wal : wal_ (kv (run_store u)) = Some j;
  run_snapshot : snapshot_ (kv (run_store u)) = Some snap;
  run_separate : separate j snap;
  run_log : journal_log j (kv_os (run_store u)) (rs1 ++ rs2);
  run_covers : snapshot_covers host j snap (kv_os (run_store u)) rs1 base;
  run_contents : pending_contents u = apply_records rs2 base;
  run_locks : locks_held (run_inflight u);
  run_phase_ok : phase_ok j (rs1 ++ rs2) (pending_contents u) (run_phase u) (run_owner u)
}.

Definition run_inv (u : run) : Prop := ∃ j snap rs1 rs2 base, run_agrees u j snap rs1 rs2 base.

Lemma run_inv_recovers u : run_inv u → recovers host (run_store u) (pending_contents u).
Proof.
  intros (j & snap & rs1 & rs2 & base & [Hok Hw Hs Hsep Hlog Hcov Hcon _ _]). exists j, snap. split_and!; [done..|].
  rewrite Hcon, (covers_recovers host j snap _ rs1 rs2 [] base); [by rewrite app_nil_r|done|].
  by apply journal_log_replays.
Qed.

(** With nothing in flight this is the agreement of [StorePersistence]. *)
Lemma run_agrees_idle t ph o j snap rs1 rs2 base :
  run_agrees (Run t [] ph o) j snap rs1 rs2 base ↔
  agree host hash t j snap rs1 rs2 base ∧ phase_ok j (rs1 ++ rs2) (contents_of (kv t)) ph o.
Proof.
  split; [intros []; split; [by split|done]|]. intros [[] Hp]. split; try done. apply NoDup_nil_2.
Qed.

(** A step of the bookkeeping only. *)
Lemma run_inv_same t l ph o t' ph' o' :
  shards_ (kv t') = shards_ (kv t) → same_persistence t t' →
  (∀ j rs m, phase_ok j rs m ph o → phase_ok j rs m ph' o') →
  run_inv (Run t l ph o) → run_inv (Run t' l ph' o').
Proof.
  intros Hsh [Hw Hs Ho] Hph (j & snap & rs1 & rs2 & base & []). exists j, snap, rs1, rs2, base.
  cbn in *. unfold pending_contents in *. cbn in *.
  split; unfold store_ok, contents_of in *; cbn; unfold pending_contents, contents_of; cbn;
    rewrite ?Hsh, ?Hw, ?Hs, ?Ho; auto.
Qed.

Lemma inv_log t l ph o r t' :
  run_inv (Run t l ph o) → shard_free (rec_key r) l → record_ok r →
  on_wal_ptr tt (journal_write r) t = (Ok tt, t') → run_inv (Run t' (l ++ [r]) ph o).
Proof.
  intros (j & snap & rs1 & rs2 & base & [Hok Hw Hs Hsep Hlog Hcov Hcon Hlk Hph]) Hfree Hr Hrun.
  cbn [run_store run_inflight run_phase run_owner] in *.
  assert (wp (on_wal_ptr tt (journal_write r)) (λ _ t', run_inv (Run t' (l ++ [r]) ph o)) (λ _ _, True) t)
    as Hwp; [|exact (wp_ok _ _ _ _ _ _ Hwp Hrun)].
  apply wp_on_wal_ptr; [by rewrite Hw|]. intros j0 Hj. rewrite Hw in Hj. injection Hj as <-.
  eapply wp_mono; [by apply journal_write_law| |done]; cbn beta.
  intros [] [j' w'] ([Hp Hf] & Hk & Hlog'). cbn [fst snd] in *.
  assert (pending_contents (Run (StoreState (set_wal (Some j') (kv t)) w') (l ++ [r]) ph o)
          = apply_record r (pending_contents (Run t l ph o))) as Hpend.
  { apply apply_records_snoc. }
  exists j', snap, rs1, (rs2 ++ [r]), base. split; cbn [run_store run_inflight run_phase run_owner]; try done.
  - unfold separate. by rewrite Hp.
  - by rewrite app_assoc.
  - eapply covers_frame; [done..|]. by eapply separate_snapshot.
  - by rewrite Hpend, Hcon, apply_records_snoc.
  - by apply locks_held_snoc.
  - rewrite Hpend, app_assoc. destruct ph as [| | |data off|]; try done.
    destruct Hph as (-> & Hsav & rsa & rsb & base0 & Heq & He & Hd & Hm). split; [done|]. split; [done|].
    exists rsa, (rsb ++ [r]), base0. split_and!; [by rewrite Heq, app_assoc|by apply Hk|done|].
    by rewrite Hm, apply_records_snoc.
Qed.

Lemma apply_in_memory_spec r t t' :
  store_ok hash (kv t) → apply_in_memory r t = (Ok tt, t') →
  store_ok hash (kv t') ∧ contents_of (kv t') = apply_record r (contents_of (kv t)) ∧ same_persistence t t'.
Proof.
  intros Hok Hrun.
  assert (wp (apply_in_memory r) (λ _ t', store_ok hash (kv t') ∧
            contents_of (kv t') = apply_record r (contents_of (kv t)) ∧ same_persistence t t') (λ _ _, True) t)
    as Hwp; [|exact (wp_ok _ _ _ _ _ _ Hwp Hrun)].
  unfold apply_in_memory, store_in_memory, on_kv. do 2 wp_step. apply wp_count_write. intros t2 Hsh [Hw Hs Ho].
  unfold store_ok, contents_of. rewrite Hsh. cbn [kv shards_ set_shards]. unfold apply_record.
  destruct (rec_op r); (split_and!; [apply shards_ok_alter; [done|intros ? ?]| |by split]).
  - apply insert_keys.
  - by apply all_data_insert.
  - apply delete_keys.
  - by apply all_data_delete.
Qed.

Lemma inv_apply t l1 r l2 ph o t' :
  run_inv (Run t (l1 ++ r :: l2) ph o) → apply_in_memory r t = (Ok tt, t') →
  run_inv (Run t' (l1 ++ l2) ph o).
Proof.
  intros (j & snap & rs1 & rs2 & base & [Hok Hw Hs Hsep Hlog Hcov Hcon Hlk Hph]) Hrun.
  cbn [run_store run_inflight run_phase run_owner] in *.
  destruct (apply_in_memory_spec _ _ _ Hok Hrun) as (Hok' & Hcon' & [Hw' Hs' Ho']).
  destruct (locks_held_remove _ _ _ Hlk) as [Hlk' Hne].
  assert (pending_contents (Run t' (l1 ++ l2) ph o) = pending_contents (Run t (l1 ++ r :: l2) ph o)) as Hpend.
  { unfold pending_contents. cbn [run_store run_inflight]. by rewrite Hcon', apply_records_pull. }
  exists j, snap, rs1, rs2, base. split; cbn [run_store run_inflight run_phase run_owner];
    by rewrite ?Hw', ?Hs', ?Ho', ?Hpend.
Qed.

(** Publication, whatever its outcome. *)
Lemma inv_publish t l data off t' t'' x :
  run_inv (Run t l (Publishing data off) CheckpointThread) → publish data off t = (x, t') →
  shards_ (kv t'') = shards_ (kv t') → same_persistence t' t'' → run_inv (Run t'' l Finishing Nobody).
Proof.
  intros Hinv Hrun Hsh Hsame. eapply (run_inv_same t' l Finishing Nobody); [done..|].
  destruct Hinv as (j & snap & rs1 & rs2 & base & [Hok Hw Hs Hsep Hlog Hcov Hcon Hlk Hph]).
  cbn [run_store run_inflight run_phase run_owner] in *.
  assert (wp (publish data off) (λ _ t', run_inv (Run t' l Finishing Nobody))
            (λ _ t', run_inv (Run t' l Finishing Nobody)) t) as Hwp.
  2: { unfold wp in Hwp. rewrite Hrun in Hwp. by destruct x. }
  clear Hsh Hsame t'' Hrun. unfold publish, with_snapshot. do 2 wp_step. rewrite Hs.
  destruct Hph as (_ & Hsav & rsa & rsb & base0 & Heq & He & Hd & Hm).
  apply wp_on_machine.
  assert (∀ w2, untouched (snapshot_files snap) (kv_os t) w2 → journal_log j w2 (rs1 ++ rs2)) as Hframe.
  { intros w2 H2. eapply journal_frame; [done|]. by apply (only_snapshot_wal snap). }
  assert (∀ w2, untouched (snapshot_files snap) (kv_os t) w2 → published host snap (iterate data) off w2 →
            run_inv (Run (StoreState (kv t) w2) l Finishing Nobody)) as Hnew.
  { intros w2 H2 Hp. exists j, snap, rsa, rsb, data. split; try done; cbn [run_store kv_os].
    - rewrite <-Heq. by apply Hframe.
    - eapply published_covers; [done|done|by eapply journal_end_range|done|done|by exists base0]. }
  apply wp_SaveVerified; [by auto|]. intros e w2 H2 [Hp|Hold]; [by apply Hnew|].
  exists j, snap, rs1, rs2, base. split; try done; cbn [run_store kv_os]; [by apply Hframe|].
  eapply covers_frame; [done|by intros ? ?|done].
Qed.

Lemma inv_capture t epoch data off t' :
  run_inv (Run t [] (Deciding epoch) CheckpointThread) → savable (contents_of (kv t)) →
  capture t = (Ok (data, off), t') → run_inv (Run t' [] (Publishing data off) CheckpointThread).
Proof.
  intros (j & snap & rs1 & rs2 & base & [Ha _]%run_agrees_idle) Hsav Hrun.
  assert (wp capture (λ r t', run_inv (Run t' [] (Publishing r.1 r.2) CheckpointThread)) (λ _ _, True) t)
    as Hwp; [|exact (wp_ok _ _ _ _ _ _ Hwp Hrun)].
  unfold capture, on_kv. do 3 wp_step. eapply wp_current_offset; [exact Ha| |done].
  intros n j' w' t1 Ha' He. do 3 wp_step. cbn [fst snd].
  exists j', snap, rs1, rs2, base. apply run_agrees_idle. split.
  { eapply agree_same; [| |exact Ha']; [done|by split]. }
  split; [done|]. split; [done|].
  destruct (agree_whole_log _ _ _ _ _ _ _ _ Ha) as [base0 Hb].
  exists (rs1 ++ rs2), [], base0. by rewrite app_nil_r.
Qed.

Lemma inv_admin t ph c b t' :
  run_inv (Run t [] ph Caller) → savable (contents_of (kv t)) →
  run_admin c t = (Ok b, t') → run_inv (Run t' [] ph Nobody).
Proof.
  intros (j & snap & rs1 & rs2 & base & [Ha Hph]%run_agrees_idle) Hsav Hrun.
  assert (persistent host hash t) as Hp by (by exists j, snap, rs1, rs2, base).
  assert (recoverable_call host hash (run_admin c) (match c with CallSave => false | CallCompact => true end))
    as Hcall by (destruct c; [by apply wp_SaveSnapshotLocked|by apply wp_CompactPersistenceLocked]).
  destruct (wp_ok _ _ _ _ _ _ (Hcall _ _ _ _ _ _ Ha Hsav) Hrun) as (_ & Hc & j' & snap' & rs & _ & Ha').
  exists j', snap', rs, [], (contents_of (kv t)). apply run_agrees_idle. split; [done|].
  by destruct ph; try (destruct Hph; done).
Qed.

Lemma request_cancelled_true epoch t : request_cancelled epoch t = (Ok true, t) → epoch ≠ checkpoint_epoch_ (kv t).
Proof. unfold request_cancelled, gets. intros [= Hb]. by apply negb_true_iff, Z.eqb_neq in Hb. Qed.

Lemma run_inv_step u u' : run_inv u → savable (contents_of (kv (run_store u))) → step u u' → run_inv u'.
Proof.
  intros Hinv Hsav Hstep. destruct Hstep as [t l ph o r t' Hfree Hr Hrun|t l1 r l2 ph o t' Hrun|t l ph
    |t ph c b t' Hrun|t l o epoch t' _ Hrun|t l epoch|t l epoch _|t epoch data off t' _ Hrun
    |t l data off t' Hrun|t l data off e t1 t' Hrun Hrec|t l o t' Hrun]; cbn [run_store] in Hsav.
  - by eapply inv_log.
  - by eapply inv_apply.
  - eapply (run_inv_same t); [done|by split| |done]. intros j rs m. destruct ph; [done..|by intros [? _]|done].
  - by eapply inv_admin.
  - unfold take_request, on_kv, bind, gets, modify, ret in Hrun. injection Hrun as <- <-.
    by eapply (run_inv_same t); [done|by split| |done].
  - by eapply (run_inv_same t); [done|by split| |done].
  - by eapply (run_inv_same t); [done|by split| |done].
  - by eapply inv_capture.
  - by eapply inv_publish.
  - unfold record_checkpoint_error, on_kv, modify in Hrec. injection Hrec as <-.
    by eapply inv_publish; [done|done| |by split].
  - unfold finish_checkpoint, on_kv, modify in Hrun. injection Hrun as <-.
    by eapply (run_inv_same t); [done|by split| |done].
Qed.

(** Steps while memory fits the snapshot format. *)
Definition allowed (u u' : run) : Prop := savable (contents_of (kv (run_store u))) ∧ step u u'.

Lemma run_inv_reachable u u' : run_inv u → rtc allowed u u' → run_inv u'.
Proof. intros Hinv Hrtc. induction Hrtc as [|u u1 u2 [Hsav Hstep]]; [done|]. by eauto using run_inv_step. Qed.

Lemma persistent_inv t : persistent host hash t → run_inv (Run t [] Sleeping Nobody).
Proof. intros (j & snap & rs1 & rs2 & base & Ha). exists j, snap, rs1, rs2, base. by apply run_agrees_idle. Qed.

(** C2: background checkpoints. Interleave, in any order the locks allow,
    writes of different shards (reaching memory in another order than the log),
    snapshots, compactions, and the turns of the checkpoint thread, which
    captures under all locks and publishes, or fails to, while writes go on and
    after a request may have been cancelled. At every moment a restart recovers
    memory with the logged writes in flight applied; a key whose shard is not
    locked by a write reads from memory as a restart would recover it; and when
    nothing is in flight and no publication is pending, memory, log and snapshot
    agree as in the sequential store. *)
Theorem checkpoint_interleavings t u :
  persistent host hash t → rtc allowed (Run t [] Sleeping Nobody) u →
  recovers host (run_store u) (pending_contents u) ∧
  (∀ k, shard_free k (run_inflight u) →
        contents_of (kv (run_store u)) !! k = pending_contents u !! k) ∧
  (run_inflight u = [] → persistent host hash (run_store u)).
Proof.
  intros Hp Hu. assert (run_inv u) as Hinv by (by eapply run_inv_reachable, Hu; apply persistent_inv).
  split_and!.
  - by apply run_inv_recovers.
  - intros k Hk. symmetry. by apply locks_held_free.
  - intros Hl. destruct Hinv as (j & snap & rs1 & rs2 & base & Ha), u as [t' l ph o]. cbn in *. subst l.
    apply run_agrees_idle in Ha as [Ha _]. by exists j, snap, rs1, rs2, base.
Qed.

(** A call that fails, and the record it was writing. *)
Inductive fails : run → store_state W → option ParsedRecord → Prop :=
| fails_write t l ph o r e t' :
    record_ok r → on_wal_ptr tt (journal_write r) t = (Exn e, t') →
    fails (Run t l ph o) t' (Some r)
| fails_admin t ph c e t' :
    run_admin c t = (Exn e, t') → fails (Run t [] ph Caller) t' None
| fails_capture t epoch e t' :
    capture t = (Exn e, t') → fails (Run t [] (Deciding epoch) CheckpointThread) t' None.

Lemma fails_write_recovers t l ph o r e t' :
  run_inv (Run t l ph o) → record_ok r → on_wal_ptr tt (journal_write r) t = (Exn e, t') →
  shards_ (kv t') = shards_ (kv t) ∧
  (recovers host t' (pending_contents (Run t l ph o)) ∨
   recovers host t' (apply_record r (pending_contents (Run t l ph o)))).
Proof.
  intros (j & snap & rs1 & rs2 & base & [Hok Hw Hs Hsep Hlog Hcov Hcon Hlk Hph]) Hr Hrun.
  set (m := pending_contents (Run t l ph o)) in *. cbn [run_store run_inflight run_phase run_owner] in *.
  assert (wp (on_wal_ptr tt (journal_write r)) (λ _ _, True)
            (λ _ t', shards_ (kv t') = shards_ (kv t) ∧
               (recovers host t' m ∨ recovers host t' (apply_record r m))) t)
    as Hwp; [|exact (wp_exn _ _ _ _ _ _ Hwp Hrun)].
  apply wp_on_wal_ptr; [by rewrite Hw|]. intros j0 Hj. rewrite Hw in Hj. injection Hj as <-.
  eapply wp_mono; [by apply journal_write_law|done|]; cbn beta.
  intros e' [j' w'] ([Hp Hf] & Hk & Hout). cbn [fst snd] in *. split; [done|].
  assert (snapshot_covers host j' snap w' rs1 base) as Hcov'.
  { eapply covers_frame; [done..|]. by eapply separate_snapshot. }
  assert (∀ seen, journal_replays j' w' (rs1 ++ rs2) seen →
            recovers host (StoreState (set_wal (Some j') (kv t)) w') (apply_records seen m)) as Hrec.
  { intros seen Hseen. exists j', snap. split_and!; [done..|]. cbn [kv_os].
    rewrite (covers_recovers host _ _ _ rs1 rs2 seen base) by done.
    by rewrite Hcon, apply_records_app. }
  destruct Hout as [Hl|(seen & [->| ->] & Hseen)].
  - left. apply (Hrec []). by apply journal_log_replays.
  - left. by apply (Hrec []).
  - right. by apply (Hrec [r]).
Qed.

Lemma fails_recovers u t' r :
  run_inv u → savable (contents_of (kv (run_store u))) → fails u t' r →
  contents_of (kv t') = contents_of (kv (run_store u)) ∧
  (recovers host t' (pending_contents u) ∨
   ∃ r0, r = Some r0 ∧ recovers host t' (apply_record r0 (pending_contents u))).
Proof.
  intros Hinv Hsav Hfail. destruct Hfail as [t0 l ph o r e t' Hr Hrun|t0 ph c e t' Hrun|t0 epoch e t' Hrun].
  - destruct (fails_write_recovers _ _ _ _ _ _ _ Hinv Hr Hrun) as [Hsh Hrec].
    unfold contents_of at 1 2. cbn. rewrite Hsh. split; [done|]. destruct Hrec; eauto.
  - destruct Hinv as (j & snap & rs1 & rs2 & base & [Ha _]%run_agrees_idle).
    assert (recoverable_call host hash (run_admin c) (match c with CallSave => false | CallCompact => true end))
      as Hcall by (destruct c; [by apply wp_SaveSnapshotLocked|by apply wp_CompactPersistenceLocked]).
    destruct (wp_exn _ _ _ _ _ _ (Hcall _ _ _ _ _ _ Ha Hsav) Hrun) as [Hc Hrec]. by split; [|left].
  - destruct Hinv as (j & snap & rs1 & rs2 & base & [Ha _]%run_agrees_idle).
    assert (wp capture (λ _ _, True) (λ _ t', contents_of (kv t') = contents_of (kv t0) ∧
              recovers host t' (contents_of (kv t0))) t0) as Hwp.
    { unfold capture, on_kv. do 3 wp_step. eapply wp_current_offset; [exact Ha|by intros; wp_steps|].
      intros e' t1 Hsh Hrec. split; [|done]. unfold contents_of. by rewrite Hsh. }
    destruct (wp_exn _ _ _ _ _ _ Hwp Hrun) as [Hc Hrec]. by split; [|left].
Qed.

(** Failures among interleavings. Whatever call fails in a reachable
    state, a write at the log, a snapshot or compaction at any point, or the
    checkpoint thread while it reads the offset of the log: memory is unchanged,
    and a restart recovers memory with the writes in flight, at most plus the
    write that failed. *)
Theorem interleaved_failures t u t' r :
  persistent host hash t → rtc allowed (Run t [] Sleeping Nobody) u →
  savable (contents_of (kv (run_store u))) → fails u t' r →
  contents_of (kv t') = contents_of (kv (run_store u)) ∧
  (recovers host t' (pending_contents u) ∨
   ∃ r0, r = Some r0 ∧ recovers host t' (apply_record r0 (pending_contents u))).
Proof. intros Hp Hu. apply fails_recovers. by eapply run_inv_reachable, Hu; apply persistent_inv. Qed.

(** ** One turn of the loop *)

(** After a round that nothing interrupts: either the snapshot is memory and covers
    the whole log, or the error is recorded. *)
Record round_done (t t' : store_state W) : Prop := {
  done_snapshot : snapshot_ (kv t') = snapshot_ (kv t);
  done_contents : contents_of (kv t') = contents_of (kv t);
  done_idle : checkpoint_requested_ (kv t') = false ∧ checkpoint_active_ (kv t') = false;
  done_stopping : checkpoint_stopping_ (kv t') = checkpoint_stopping_ (kv t);
  done_recovers : recovers host t' (contents_of (kv t));
  done_outcome :
    (checkpoint_error_ (kv t') = checkpoint_error_ (kv t) ∧ writes_since_snapshot_ (kv t') = 0 ∧
     ∃ j snap rs, agree host hash t' j snap rs [] (contents_of (kv t))) ∨
    is_Some (checkpoint_error_ (kv t'))
}.

(** The fields that the checkpoint itself leaves alone. *)
Definition same_flags t t' : Prop :=
  snapshot_ (kv t') = snapshot_ (kv t) ∧ contents_of (kv t') = contents_of (kv t) ∧
  checkpoint_requested_ (kv t') = checkpoint_requested_ (kv t) ∧
  checkpoint_stopping_ (kv t') = checkpoint_stopping_ (kv t) ∧
  checkpoint_error_ (kv t') = checkpoint_error_ (kv t).

Lemma keeps_flags_wal {A} t0 (null : A) (m : M (W * world) A) : keeps (same_flags t0) (on_wal_ptr null m).
Proof.
  intros t Ht. apply wp_on_wal_ptr_shards; intros ? t' [Hk]; unfold same_flags, contents_of in *;
    rewrite Hk; by destruct t as [[] ?].
Qed.

Lemma keeps_flags_machine {A} t0 (m : M world A) : keeps (same_flags t0) (on_machine m).
Proof. intros t Ht. apply wp_on_machine. unfold wp. by destruct (m (kv_os t)) as [[] ?]. Qed.

Lemma wp_capture_publish t j snap rs1 rs2 base :
  agree host hash t j snap rs1 rs2 base → savable (contents_of (kv t)) →
  wp (let! captured := capture in publish captured.1 captured.2)
    (λ _ t', (writes_since_snapshot_ (kv t') = 0 ∧
              ∃ j' snap' rs, agree host hash t' j' snap' rs [] (contents_of (kv t))) ∧ same_flags t t')
    (λ _ t', recovers host t' (contents_of (kv t)) ∧ same_flags t t') t.
Proof.
  intros Ha Hsav. apply wp_keeps; [|by unfold same_flags|].
  { unfold capture, publish, with_snapshot, on_kv.
    repeat first [keeps_step | apply keeps_flags_wal | apply keeps_flags_machine | by apply keeps_modify]. }
  assert (persistent host hash t) as Hp by (by exists j, snap, rs1, rs2, base).
  wp_step. unfold capture, on_kv. do 3 wp_step. eapply wp_current_offset; [exact Ha| |done].
  intros n j' w' t1 Ha' He. do 3 wp_step. cbn [fst snd].
  unfold publish, with_snapshot. do 2 wp_step.
  match goal with |- wp _ _ _ ?x => set (u := x) end.
  assert (agree host hash u j' snap rs1 rs2 base) as Hu by (eapply agree_same; [| |exact Ha']; [done|by split]).
  rewrite (agree_snapshot _ _ _ _ _ _ _ _ Hu). eapply (wp_publish_all _ _ _ iterate_spec u); [done..| |by intros e w2 Hpub%persistent_recovers].
  intros w2 Hnew. split; [done|]. by exists j', snap, (rs1 ++ rs2).
Qed.

Lemma wp_checkpoint_round t (E : exn → store_state W → Prop) :
  persistent host hash t → savable (contents_of (kv t)) →
  wp checkpoint_round (λ _ t', round_done t t') E t.
Proof.
  intros (j & snap & rs1 & rs2 & base & Ha) Hsav.
  unfold checkpoint_round, take_request, on_kv. do 6 wp_step.
  match goal with |- wp _ _ _ ?x => set (u := x) end.
  assert (agree host hash u j snap rs1 rs2 base) as Hu by (eapply agree_same; [| |exact Ha]; [done|by split]).
  do 3 wp_step. unfold request_cancelled. wp_step. cbn [u kv checkpoint_epoch_ set_checkpoint].
  rewrite Z.eqb_refl. cbn [negb]. fold u.
  eapply wp_mono; [by eapply wp_capture_publish| |]; cbn beta; unfold finish_checkpoint, record_checkpoint_error, on_kv.
  - intros [] t' [[Hn (j' & snap' & rs & Ha')] (Hs & Hc & Hr & Hst & He)]. wp_step.
    assert (∀ s', shards_ (kv s') = shards_ (kv t') → same_persistence t' s' →
                  agree host hash s' j' snap' rs [] (contents_of (kv t))) as Hsame
      by (intros s' Hsh Hp; by eapply agree_same).
    split; try done.
    + apply (recovers_same host t'); [by split|].
      assert (recovers host t' (contents_of (kv t'))) as Hr2 by (eapply agree_recovers; by apply (Hsame t')).
      by rewrite Hc in Hr2.
    + left. split_and!; [done..|]. exists j', snap', rs. by apply Hsame.
  - intros e t' [Hrec (Hs & Hc & Hr & Hst & He)]. do 2 wp_step. split; try done.
    right. by eexists.
Qed.

(** The loop never throws: [CheckpointLoop] catches everything. *)
Lemma checkpoint_round_no_throw t : wp checkpoint_round (λ _ _, True) (λ _ _, False) t.
Proof.
  unfold checkpoint_round, take_request, on_kv. do 7 wp_step. apply wp_catch.
  eapply wp_mono with (Q := λ _ _, True) (E := λ _ _, True); cbn beta.
  - unfold wp. by destruct (_ : res unit * store_state W) as [[] ?].
  - done.
  - done.
Qed.

Lemma destroy_no_throw n t : wp (destroy n) (λ _ _, True) (λ _ _, False) t.
Proof.
  unfold destroy, on_kv. do 2 wp_step. destruct (snapshot_ (kv t)); [|done]. do 2 wp_step.
  match goal with |- wp _ _ _ ?x => generalize x end. clear t. induction n as [|n IH]; intros t; [done|].
  cbn [CheckpointLoop]. do 2 wp_step. destruct (loop_wakes (kv t)); [done..|].
  wp_step. eapply wp_mono; [apply checkpoint_round_no_throw| |done]. intros [] t' _. apply IH.
Qed.

(** C30: the destructor terminates: the checkpoint thread serves a pending
    request and then returns, whatever fails, after at most one round; nothing in
    memory changes, a restart recovers it, and if a request was pending then the
    snapshot alone now covers the whole log, unless an error was recorded. *)
Theorem destroy_drains t :
  persistent host hash t → savable (contents_of (kv t)) →
  ∃ t', destroy 2 t = (Ok true, t') ∧ contents_of (kv t') = contents_of (kv t) ∧
        recovers host t' (contents_of (kv t)) ∧
        (checkpoint_requested_ (kv t) = true →
         is_Some (checkpoint_error_ (kv t')) ∨
         ∃ j snap rs, agree host hash t' j snap rs [] (contents_of (kv t))).
Proof.
  intros (j & snap & rs1 & rs2 & base & Ha) Hsav.
  assert (wp (destroy 2) (λ b t', b = true ∧ contents_of (kv t') = contents_of (kv t) ∧
        recovers host t' (contents_of (kv t)) ∧
        (checkpoint_requested_ (kv t) = true →
         is_Some (checkpoint_error_ (kv t')) ∨
         ∃ j snap rs, agree host hash t' j snap rs [] (contents_of (kv t)))) (λ _ _, False) t) as Hwp.
  2: { unfold wp in Hwp. destruct (destroy 2 t) as [[b|] t']; [|done]. destruct Hwp as (-> & ?). eauto. }
  unfold destroy, on_kv. do 2 wp_step. rewrite (agree_snapshot _ _ _ _ _ _ _ _ Ha). do 2 wp_step.
  match goal with |- wp _ _ _ ?x => set (u := x) end.
  assert (agree host hash u j snap rs1 rs2 base) as Hu by (eapply agree_same; [| |exact Ha]; [done|by split]).
  cbn [CheckpointLoop]. do 2 wp_step. unfold loop_wakes at 1. cbn [u kv checkpoint_stopping_ checkpoint_requested_ set_checkpoint orb andb negb].
  fold u. destruct (checkpoint_requested_ (kv t)) eqn:Hreq; cbn [negb].
  - wp_step. eapply wp_mono; [apply (wp_checkpoint_round u (λ _ _, False)); [by exists j, snap, rs1, rs2, base|done]| |done].
    cbn beta. intros [] t' [Hs Hc [Hr Hact] Hst Hrec Hout]. do 2 wp_step. unfold loop_wakes.
    change (checkpoint_stopping_ (kv u)) with true in Hst. rewrite Hst, Hr. cbn [orb andb negb]. wp_step. split_and!; [done..|]. intros _. destruct Hout as [(_ & _ & ?)|?]; auto.
  - wp_step. split_and!; [done..| |done]. by eapply (agree_recovers _ _ u), Hu.
Qed.

(** ** Errors and missed requests *)

(** Once the checkpoint thread has recorded an error, every [Set], [Delete]
    and [WaitForCheckpoints] reports that error and does nothing; reads go on. *)
Theorem checkpoint_error_blocks t k v e snap :
  snapshot_ (kv t) = Some snap → checkpoint_error_ (kv t) = Some e →
  Set_ hash k v t = (Exn e, t) ∧ Delete hash k t = (Exn e, t) ∧ WaitForCheckpoints t = (Exn e, t) ∧
  Get hash k t = (Ok (shard_at (index k) (shards_ (kv t)) !! k), t).
Proof.
  intros Hs He. unfold Set_, Delete, CheckCheckpointError, WaitForCheckpoints, bind, gets.
  by rewrite Hs, He.
Qed.

(** The bookkeeping of [n] successful writes in a row. *)
Fixpoint count_writes (n : nat) : M (store_state W) unit :=
  match n with O => ret tt | S n => count_write ;;; count_writes n end.

Lemma count_write_spec t snap (Q : unit → store_state W → Prop) E :
  snapshot_ (kv t) = Some snap → 0 ≤ writes_since_snapshot_ (kv t) < u64_max →
  (∀ t', snapshot_ (kv t') = Some snap →
     writes_since_snapshot_ (kv t') = writes_since_snapshot_ (kv t) + 1 →
     checkpoint_requested_ (kv t') =
       checkpoint_requested_ (kv t) || (writes_since_snapshot_ (kv t) =? kSnapshotInterval - 1) → Q tt t') →
  wp count_write Q E t.
Proof.
  intros Hs Hn HQ. unfold count_write, ScheduleCheckpoint, on_kv. do 2 wp_step. rewrite Hs.
  assert (u64 (writes_since_snapshot_ (kv t) + 1) = writes_since_snapshot_ (kv t) + 1) as Hu.
  { unfold u64, u64_max in *. by rewrite Z.mod_small by lia. }
  rewrite Hu. do 2 wp_step. unfold kSnapshotInterval in *. wp_step; [wp_step|]; apply HQ; try done; cbn;
    destruct (checkpoint_requested_ (kv t)); zbool.
Qed.

(** The same for calls of [Set] and [Delete] that return. *)
Fixpoint write_all (rs : list ParsedRecord) : M (store_state W) unit :=
  match rs with [] => ret tt | r :: rs => write hash r ;;; write_all rs end.

Lemma wp_write_counts r t snap (Q : unit → store_state W → Prop) (E : exn → store_state W → Prop) :
  snapshot_ (kv t) = Some snap → 0 ≤ writes_since_snapshot_ (kv t) < u64_max →
  (∀ t', snapshot_ (kv t') = Some snap →
     writes_since_snapshot_ (kv t') = writes_since_snapshot_ (kv t) + 1 →
     checkpoint_requested_ (kv t') =
       checkpoint_requested_ (kv t) || (writes_since_snapshot_ (kv t) =? kSnapshotInterval - 1) → Q tt t') →
  (∀ e t', E e t') → wp (write hash r) Q E t.
Proof.
  intros Hs Hn HQ HE.
  assert (∀ A (k : M (store_state W) A) Q', (wp k Q' E t) → wp (CheckCheckpointError ;;; k) Q' E t) as Hcheck.
  { intros A k Q' Hk. unfold CheckCheckpointError. do 3 wp_step. rewrite Hs.
    destruct (checkpoint_error_ (kv t)); [by wp_step|exact Hk]. }
  unfold write. destruct (rec_op r); [|wp_step]; unfold Set_, Delete; apply Hcheck; wp_step;
    (apply wp_on_wal_ptr_shards; [intros [] t1 [Hk]|by intros]); unfold on_kv.
  - do 2 wp_step. apply (count_write_spec _ snap); cbn [kv set_shards]; rewrite Hk; cbn; [done..|exact HQ].
  - do 5 wp_step. apply (count_write_spec _ snap); cbn [kv set_shards]; rewrite Hk; cbn; [done..|].
    intros t2 Hs2 Hn2 Hr2. wp_steps. by apply HQ.
Qed.

(** C31: the trigger of automatic checkpoints, exactly: of [n] writes in a row
    the one that brings the counter to 1000 requests a checkpoint, and no other
    does; so it is for the bookkeeping of a write and for calls of [Set] and [Delete]
    that return. So a counter that is at 1000 or above when its request is cancelled,
    as [LoadSnapshot] does, whether it succeeds or not, without resetting the
    counter, requests no other checkpoint until something resets it. *)
Theorem checkpoint_trigger t snap n from :
  snapshot_ (kv t) = Some snap → 0 ≤ writes_since_snapshot_ (kv t) →
  writes_since_snapshot_ (kv t) + Z.of_nat n ≤ u64_max →
  wp (count_writes n)
    (λ _ t', checkpoint_requested_ (kv t') =
       checkpoint_requested_ (kv t) ||
       ((writes_since_snapshot_ (kv t) <? kSnapshotInterval) &&
        (kSnapshotInterval <=? writes_since_snapshot_ (kv t) + Z.of_nat n)))
    (λ _ _, False) t ∧
  (kSnapshotInterval ≤ writes_since_snapshot_ (kv t) →
   wp (catch (LoadSnapshot host hash iterate from ;;; ret tt) (λ _, ret tt) ;;; count_writes n)
     (λ _ t', checkpoint_requested_ (kv t') = false) (λ _ _, False) t) ∧
  (∀ rs, length rs = n →
   wp (write_all rs)
     (λ _ t', checkpoint_requested_ (kv t') =
        checkpoint_requested_ (kv t) ||
        ((writes_since_snapshot_ (kv t) <? kSnapshotInterval) &&
         (kSnapshotInterval <=? writes_since_snapshot_ (kv t) + Z.of_nat n)))
     (λ _ _, True) t).
Proof.
  assert (∀ n t, snapshot_ (kv t) = Some snap → 0 ≤ writes_since_snapshot_ (kv t) →
    writes_since_snapshot_ (kv t) + Z.of_nat n ≤ u64_max →
    wp (count_writes n)
      (λ _ t', checkpoint_requested_ (kv t') =
         checkpoint_requested_ (kv t) ||
         ((writes_since_snapshot_ (kv t) <? kSnapshotInterval) &&
          (kSnapshotInterval <=? writes_since_snapshot_ (kv t) + Z.of_nat n)))
      (λ _ _, False) t) as Hcount.
  { clear t n. induction n as [|n IH]; intros t Hs H0' Hn; cbn [count_writes].
    - wp_step. destruct (checkpoint_requested_ (kv t)); zbool.
    - wp_step. eapply count_write_spec; [done|lia|]. intros t1 Hs1 Hn1 Hr1.
      eapply wp_mono; [apply IH; [done|lia..]| |done]. cbn beta. intros [] t' ->.
      rewrite Hr1, Hn1. destruct (checkpoint_requested_ (kv t)); unfold kSnapshotInterval; zbool. }
  intros Hs H0' Hn. split; [by apply Hcount|]. split.
  2: { clear Hcount. intros rs Hlen. revert t n Hs H0' Hn Hlen.
    induction rs as [|r rs IH]; intros t n Hs H0' Hn <-; cbn [write_all length] in *.
    - wp_step. destruct (checkpoint_requested_ (kv t)); zbool.
    - wp_step. apply (wp_write_counts _ _ snap); [done|lia| |done]. intros t1 Hs1 Hn1 Hr1.
      eapply wp_mono; [by apply (IH t1 (length rs)); [|lia..|]| |done]. cbn beta. intros [] t' ->.
      rewrite Hr1, Hn1. destruct (checkpoint_requested_ (kv t)); unfold kSnapshotInterval; zbool. }
  intros Hge.
  assert (∀ t1, snapshot_ (kv t1) = snapshot_ (kv t) →
            writes_since_snapshot_ (kv t1) = writes_since_snapshot_ (kv t) →
            checkpoint_requested_ (kv t1) = false →
            wp (count_writes n) (λ _ t', checkpoint_requested_ (kv t') = false) (λ _ _, False) t1) as Hrest.
  { intros t1 Hs1 Hn1 Hr1. eapply wp_mono; [apply Hcount; [by rewrite Hs1|lia..]| |done].
    cbn beta. intros [] t' ->. rewrite Hr1, Hn1. zbool. }
  unfold LoadSnapshot, CancelPendingCheckpoint, on_kv. do 7 wp_step.
  destruct (Load host _ ∅) as [[r|e] data]; unfold store_res; wp_steps; by apply Hrest.
Qed.

End checkpointing.
