(* ===== verification/CheckpointDurability.v ===== *)
(** * Power failures among background checkpoints

    The interleavings of [Checkpointing], and what a power failure leaves at any
    moment of them: the synchronization of log and snapshot is an invariant of
    the steps. *)

From S2P Require Import Prelude Machine BinaryIO Crc WalFormat WalReplay SnapshotFile Journal.
From S2P Require Import KVStore StoreSharding StorePersistence StoreDurability Checkpointing.

Section power.
  Context {W : Type} `{JournalDurableLaws W} (host : endianness).
  Context (hash : bytes → Z) (iterate : gmap bytes bytes → list (bytes * bytes)).
  Context (iterate_spec : ∀ m, iterate m ≡ₚ map_to_list m).
  Implicit Types (t : store_state W) (j : W) (w : world) (snap : Snapshot) (m : gmap bytes bytes).
  Local Abbreviation run_inv := (run_inv host hash).
  Local Abbreviation step := (step host hash iterate).
  Local Abbreviation allowed := (allowed host hash iterate).

(** ** The parts of the loop *)

Lemma capture_hard t j snap rs1 rs2 base :
  agree host hash t j snap rs1 rs2 base → hardened t →
  wp capture (λ _, hardened)
    (λ _ t', contents_of (kv t') = contents_of (kv t) ∧ leaves host t' [contents_of (kv t)]) t.
Proof.
  intros Ha Hh. pose proof Ha as [Hok Hw Hs Hsep Hlog Hcov Hcon].
  unfold capture, on_kv. do 3 wp_step.
  assert (wp (on_wal_ptr 0 journal_offset) (λ _ _, True)
    (λ _ t', contents_of (kv t') = contents_of (kv t)) t) as Hmem.
  { eapply wp_current_offset; [exact Ha|done|]. intros e t' Hsh Hr. unfold contents_of. by rewrite Hsh. }
  eapply wp_mono; [apply wp_and; [by eapply offset_hard|exact Hmem]| |]; cbn beta.
  - intros n t1 [Hh1 _]. do 3 wp_step. by eapply hardened_same; [|exact Hh1].
  - by intros e t' [[_ ?] ?].
Qed.

Lemma publish_hard t l data off :
  run_inv (Run t l (Publishing data off) CheckpointThread) → hardened t →
  wp (publish host iterate data off) (λ _, hardened) (λ _, hardened) t.
Proof.
  intros (j & snap & rs1 & rs2 & base & [Hok Hw Hs Hsep Hlog Hcov Hcon Hlk Hph]) Hh.
  cbn [run_store] in *. unfold publish, with_snapshot. do 2 wp_step. rewrite Hs.
  by eapply wp_save_hard; [done..| |auto].
Qed.

Lemma admin_hard t ph c :
  run_inv (Run t [] ph Caller) → savable (contents_of (kv t)) → hardened t →
  wp (run_admin host iterate c) (λ _, hardened)
    (λ _ t', contents_of (kv t') = contents_of (kv t) ∧ leaves host t' [contents_of (kv t)]) t.
Proof.
  intros (j & snap & rs1 & rs2 & base & [Ha _]%run_agrees_idle) Hsav Hh.
  assert (∀ (m : M (store_state W) bool) (rotated : bool), recoverable_call host hash m rotated →
    wp m (λ _, hardened) (λ _ t', leaves host t' [contents_of (kv t)]) t →
    wp m (λ _, hardened) (λ _ t', contents_of (kv t') = contents_of (kv t) ∧ leaves host t' [contents_of (kv t)]) t)
    as Hboth.
  { intros m rotated Hm Hl. eapply wp_mono; [apply wp_and; [by apply (Hm _ _ _ _ _ _ Ha)|exact Hl]| |]; cbn beta.
    - by intros b t' [_ ?].
    - by intros e t' [[? _] ?]. }
  destruct c; cbn [run_admin].
  - apply (Hboth _ false); [by apply (wp_SaveSnapshotLocked host hash iterate)|by eapply save_hard].
  - apply (Hboth _ true); [by apply (wp_CompactPersistenceLocked host hash iterate)|by eapply compact_hard].
Qed.

Lemma inflight_log_hard t l ph o r :
  run_inv (Run t l ph o) → hardened t → record_ok r →
  wp (on_wal_ptr tt (journal_write r)) (λ _, hardened)
    (λ _ t', contents_of (kv t') = contents_of (kv t) ∧
             leaves host t' [pending_contents (Run t l ph o);
                          apply_record r (pending_contents (Run t l ph o))]) t.
Proof.
  intros (j & snap & rs1 & rs2 & base & [Hok Hw Hs Hsep Hlog Hcov Hcon Hlk Hph]) Hh Hr.
  cbn [run_store] in *.
  assert (wp (on_wal_ptr tt (journal_write r)) (λ _, only_wal t) (λ _, only_wal t) t) as Honly
    by (by apply wp_on_wal_ptr_shards).
  eapply wp_mono; [apply wp_and; [exact Honly|by eapply log_write_hard]| |]; cbn beta.
  - by intros [] t' [_ ?].
  - intros e t' [[Hk] Hsv]. split; [by rewrite Hk|done].
Qed.

(** ** The invariant *)

Lemma hardened_step u u' :
  run_inv u → savable (contents_of (kv (run_store u))) → step u u' →
  hardened (run_store u) → hardened (run_store u').
Proof.
  intros Hinv Hsav Hstep Hh. destruct Hstep as [t l ph o r t' Hfree Hr Hrun|t l1 r l2 ph o t' Hrun|t l ph
    |t ph c b t' Hrun|t l o epoch t' _ Hrun|t l epoch|t l epoch _|t epoch data off t' _ Hrun
    |t l data off t' Hrun|t l data off e t1 t' Hrun Hrec|t l o t' Hrun]; cbn [run_store] in *; try done.
  - exact (wp_ok _ _ _ _ _ _ (inflight_log_hard _ _ _ _ _ Hinv Hh Hr) Hrun).
  - destruct Hinv as (j & snap & rs1 & rs2 & base & Ha).
    destruct (apply_in_memory_spec _ _ _ _ (run_ok _ _ _ _ _ _ _ _ Ha) Hrun) as (_ & _ & Hsame).
    by eapply hardened_same.
  - exact (wp_ok _ _ _ _ _ _ (admin_hard _ _ _ Hinv Hsav Hh) Hrun).
  - unfold take_request, on_kv, bind, gets, modify, ret in Hrun. injection Hrun as <- <-. exact Hh.
  - destruct Hinv as (j & snap & rs1 & rs2 & base & [Ha _]%run_agrees_idle).
    exact (wp_ok _ _ _ _ _ _ (capture_hard _ _ _ _ _ _ Ha Hh) Hrun).
  - exact (wp_ok _ _ _ _ _ _ (publish_hard _ _ _ _ Hinv Hh) Hrun).
  - unfold record_checkpoint_error, on_kv, modify in Hrec. injection Hrec as <-.
    eapply hardened_same; [|exact (wp_exn _ _ _ _ _ _ (publish_hard _ _ _ _ Hinv Hh) Hrun)]. by split.
  - unfold finish_checkpoint, on_kv, modify in Hrun. injection Hrun as <-. exact Hh.
Qed.

Lemma hardened_reachable u u' :
  run_inv u → hardened (run_store u) → rtc allowed u u' → run_inv u' ∧ hardened (run_store u').
Proof.
  intros Hinv Hh Hrtc. induction Hrtc as [|u u1 u2 [Hsav Hstep]]; [done|].
  eauto using run_inv_step, hardened_step.
Qed.

(** What a failing call was writing. *)
Definition refused (m : gmap bytes bytes) (r : option ParsedRecord) : list (gmap bytes bytes) :=
  match r with Some r => [m; apply_record r m] | None => [m] end.

(** From any state of the invariant. *)
Lemma hardened_fails u t' r :
  run_inv u → hardened (run_store u) → savable (contents_of (kv (run_store u))) → fails host iterate u t' r →
  contents_of (kv t') = contents_of (kv (run_store u)) ∧ survives host t' (refused (pending_contents u) r).
Proof.
  intros Hinv Hhu Hsav Hfail.
  enough (contents_of (kv t') = contents_of (kv (run_store u)) ∧ leaves host t' (refused (pending_contents u) r))
    as [? ?%leaves_survives] by done.
  destruct Hfail as [t0 l ph o r e t' Hr Hrun|t0 ph c e t' Hrun|t0 epoch e t' Hrun]; cbn [run_store] in *.
  - exact (wp_exn _ _ _ _ _ _ (inflight_log_hard _ _ _ _ _ Hinv Hhu Hr) Hrun).
  - exact (wp_exn _ _ _ _ _ _ (admin_hard _ _ _ Hinv Hsav Hhu) Hrun).
  - destruct Hinv as (j & snap & rs1 & rs2 & base & [Ha _]%run_agrees_idle).
    exact (wp_exn _ _ _ _ _ _ (capture_hard _ _ _ _ _ _ Ha Hhu) Hrun).
Qed.

Lemma hardened_now u :
  run_inv u → hardened (run_store u) → survives host (run_store u) [pending_contents u].
Proof. intros Hinv Hhu. eapply hardened_survives; [done|by eapply run_inv_recovers|left]. Qed.

(** C7: Power failures among concurrent calls, under [Sync] and [GroupCommit].
    Start in a state in which everything a restart reads is synchronized, and
    interleave in any order the locks allow writes of different shards, snapshots,
    compactions and the turns of the checkpoint thread. At every moment, also while
    a checkpoint is being published, a restart after a power failure recovers
    exactly memory with the logged writes in flight applied. If a call fails there,
    memory is unchanged, and a restart after a power failure recovers the same, at
    most plus the write that failed. *)
Theorem interleavings_survive_power_failure t u :
  durable_store host hash t → rtc allowed (Run t [] Sleeping Nobody) u →
  survives host (run_store u) [pending_contents u] ∧
  ∀ t' r, savable (contents_of (kv (run_store u))) → fails host iterate u t' r →
    contents_of (kv t') = contents_of (kv (run_store u)) ∧
    survives host t' (refused (pending_contents u) r).
Proof.
  intros [Hp Hh] Hu.
  destruct (hardened_reachable (Run t [] Sleeping Nobody) u) as [Hinv Hhu]; [by apply persistent_inv|done..|].
  split; [by apply hardened_now|]. intros t' r. by apply hardened_fails.
Qed.

End power.
