(* ===== verification/CheckpointLocks.v ===== *)
(** * The locks behind the steps of [Checkpointing]

    [Set], [Delete], [Get], the snapshot calls and the rounds of [CheckpointLoop] of
    [src/store/kv_store.cpp] as programs that take and release the mutexes of the
    store and, between that, act on the log, memory and the files, for any number of
    threads. Every execution of them is one of the step relation of
    [Checkpointing]: its conditions, that a write needs its shard, a capture all
    shards, and that publications exclude administrative calls, are what the mutexes
    ensure. So its theorems hold of the threads with their locks. *)

From S2P Require Import Prelude Machine BinaryIO Crc WalFormat WalReplay SnapshotFile Journal.
From S2P Require Import KVStore StoreSharding StoreLocks StoreCalls StorePersistence StoreDurability Checkpointing CheckpointDurability.

Section locks.
  Context {W : Type} `{JournalLaws W} (host : endianness).
  Context (hash : bytes → Z) (iterate : gmap bytes bytes → list (bytes * bytes)).
  Context (iterate_spec : ∀ m, iterate m ≡ₚ map_to_list m).
  Implicit Types (t : nat) (st : store_state W) (h : held).
  Local Abbreviation index := (ShardIndex hash).
  Local Abbreviation run := (@run W).
  Local Abbreviation run_inv := (run_inv host hash).
  Local Abbreviation allowed := (allowed host hash iterate).

(** ** Programs *)

(** What is done between acquiring and releasing: an access to the fields guarded by
    [checkpoint_mutex_], a call of the log, which takes [io_mutex_] for itself, an
    access to a shard, the atomic counter, the snapshot files. *)
Inductive action :=
| CheckError
| Append (r : ParsedRecord)
| Store (r : ParsedRecord)
| CountWrite
| Schedule
| Read (key : bytes)
| Cancel
| Admin (c : admin_call)
| TakeRequest
| AskCancelled (epoch : Z)
| Capture
| Publish (data : gmap bytes bytes) (wal_offset : Z)
| RecordError (e : exn)
| Finish.

Definition result (a : action) : Type :=
  match a with
  | CountWrite | Admin _ | AskCancelled _ => bool
  | Read _ => option bytes
  | TakeRequest => option Z
  | Capture => gmap bytes bytes * Z
  | _ => unit
  end.

(** [++writes_since_snapshot_ == kSnapshotInterval]. *)
Definition count_due : M (store_state W) bool :=
  let! s := gets kv in
  match snapshot_ s with
  | None => ret false
  | Some _ =>
      let n := u64 (writes_since_snapshot_ s + 1) in
      on_kv (set_writes n) ;;; ret (n =? kSnapshotInterval)
  end.

(** The condition of the wait in [CheckpointLoop], and the request if there is one. *)
Definition take_if_requested : M (store_state W) (option Z) :=
  let! s := gets kv in
  match loop_wakes s with
  | Takes => let! epoch := take_request in ret (Some epoch)
  | _ => ret None
  end.

Definition perform (a : action) : M (store_state W) (result a) :=
  match a with
  | CheckError => CheckCheckpointError
  | Append r => on_wal_ptr tt (journal_write r)
  | Store r => store_in_memory hash r
  | CountWrite => count_due
  | Schedule => ScheduleCheckpoint
  | Read key => Get hash key
  | Cancel => CancelPendingCheckpoint
  | Admin c => run_admin host iterate c
  | TakeRequest => take_if_requested
  | AskCancelled epoch => request_cancelled epoch
  | Capture => capture
  | Publish data off => publish host iterate data off
  | RecordError e => record_checkpoint_error e
  | Finish => finish_checkpoint
  end.

Inductive code :=
| Stop
| Lock (l : store_lock) (m : mode) (c : code)
| Unlock (l : store_lock) (c : code)
| Do (a : action) (k : res (result a) → code).

Definition under_checkpoint_mutex (a : action) (k : res (result a) → code) : code :=
  Lock CheckpointMutex Exclusive (Do a (λ r, Unlock CheckpointMutex (k r))).

(** [LockAllShardsExclusive], and the destructors of its locks. *)
Definition lock_every (c : code) : code := foldr (λ i c, Lock (ShardMutex i) Exclusive c) c all_shards.
Definition unlock_every (c : code) : code := foldr (λ i c, Unlock (ShardMutex i) c) c all_shards.

(** [Set] and [Delete], by the record that they log. *)
Definition write_code (r : ParsedRecord) : code :=
  let shard := ShardMutex (index (rec_key r)) in
  under_checkpoint_mutex CheckError (λ checked,
    match checked with
    | Exn _ => Stop
    | Ok _ =>
        Lock shard Exclusive (Do (Append r) (λ logged,
          match logged with
          | Exn _ => Unlock shard Stop
          | Ok _ =>
              Do (Store r) (λ _, Do CountWrite (λ due,
                match due with
                | Ok true => under_checkpoint_mutex Schedule (λ _, Unlock shard Stop)
                | _ => Unlock shard Stop
                end))
          end))
    end).

Definition get_code (key : bytes) : code :=
  let shard := ShardMutex (index key) in
  Lock shard Shared (Do (Read key) (λ _, Unlock shard Stop)).

(** [SaveSnapshot] and [CompactPersistence]. *)
Definition admin_code (c : admin_call) : code :=
  Lock SnapshotMutex Exclusive (under_checkpoint_mutex Cancel (λ _,
    Lock AdminMutex Exclusive (lock_every (Do (Admin c) (λ _,
      unlock_every (Unlock AdminMutex (Unlock SnapshotMutex Stop))))))).

(** One turn of [CheckpointLoop]; one that finds no request goes on waiting. An
    exception releases [snapshot_mutex_] before it is caught. *)
Definition round_code : code :=
  let finish := under_checkpoint_mutex Finish (λ _, Stop) in
  let leave := Unlock SnapshotMutex finish in
  let failed e := Unlock SnapshotMutex (under_checkpoint_mutex (RecordError e) (λ _, finish)) in
  under_checkpoint_mutex TakeRequest (λ taken,
    match taken with
    | Ok (Some epoch) =>
        Lock SnapshotMutex Exclusive (under_checkpoint_mutex (AskCancelled epoch) (λ cancelled,
          match cancelled with
          | Ok false =>
              Lock AdminMutex Exclusive (lock_every (Do Capture (λ captured,
                unlock_every (Unlock AdminMutex
                  match captured with
                  | Ok (data, off) =>
                      Do (Publish data off) (λ published,
                        match published with Ok _ => leave | Exn e => failed e end)
                  | Exn e => failed e
                  end))))
          | _ => leave
          end))
    | _ => Stop
    end).

Inductive locked_call := Write (r : ParsedRecord) | ReadKey (key : bytes) | Administer (c : admin_call) | Round.

Definition code_of (c : locked_call) : code :=
  match c with
  | Write r => write_code r
  | ReadKey key => get_code key
  | Administer c => admin_code c
  | Round => round_code
  end.

(** ** Threads *)

(** How far a thread is with what must not be forgotten: a record that is in the log
    and not yet in memory; a capture that is not yet published. *)
Inductive stage := Idle | Logged (r : ParsedRecord) | Captured (data : gmap bytes bytes) (off : Z).

Definition next_stage (g : stage) (a : action) : res (result a) → stage :=
  match a with
  | Append r => λ o, match o with Ok _ => Logged r | Exn _ => g end
  | Store _ | Publish _ _ => λ _, Idle
  | Capture => λ o, match o with Ok x => Captured x.1 x.2 | Exn _ => g end
  | _ => λ _, g
  end.

Record lthread := LThread { lt_held : held; lt_code : code; lt_stage : stage }.
Record lsystem := LSystem { lk_store : store_state W; lk_threads : gmap nat lthread }.

Definition set_lthread t (th : lthread) (s : lsystem) : lsystem := LSystem (lk_store s) (<[t := th]> (lk_threads s)).

(** No other thread holds the lock in a conflicting mode. *)
Definition lock_free (s : lsystem) t (l : store_lock) (m : mode) : Prop :=
  ∀ t' th m', t' ≠ t → lk_threads s !! t' = Some th → lt_held th !! l = Some m' → m = Shared ∧ m' = Shared.

(** A call that throws after which the store is not in use any more in the theorems
    about interleavings: at the log, in an administrative call, in a capture. What it
    was writing. *)
Definition throws (a : action) : res (result a) → option (option ParsedRecord) :=
  match a with
  | Append r => λ o, match o with Exn _ => Some (Some r) | Ok _ => None end
  | Admin _ | Capture => λ o, match o with Exn _ => Some None | Ok _ => None end
  | _ => λ _, None
  end.

Inductive moves t (s : lsystem) : option (option ParsedRecord) → lsystem → Prop :=
| moves_lock h l m c g :
    lk_threads s !! t = Some (LThread h (Lock l m c) g) → lock_free s t l m →
    moves t s None (set_lthread t (LThread (<[l := m]> h) c g) s)
| moves_unlock h l c g :
    lk_threads s !! t = Some (LThread h (Unlock l c) g) →
    moves t s None (set_lthread t (LThread (delete l h) c g) s)
| moves_do h a k g r st :
    lk_threads s !! t = Some (LThread h (Do a k) g) → perform a (lk_store s) = (r, st) →
    moves t s (throws a r) (LSystem st (<[t := LThread h (k r) (next_stage g a r)]> (lk_threads s)))
| moves_stop h g :
    lk_threads s !! t = Some (LThread h Stop g) →
    moves t s None (LSystem (lk_store s) (delete t (lk_threads s)))
| moves_begin c :
    lk_threads s !! t = None → (∀ r, c = Write r → record_ok r) →
    moves t s None (set_lthread t (LThread ∅ (code_of c) Idle) s).

(** Moves while memory fits the snapshot format. *)
Definition goes_on (s s' : lsystem) : Prop :=
  savable (contents_of (kv (lk_store s))) ∧ ∃ t, moves t s None s'.

(** ** The discipline of the programs *)

Definition keeps_lock (g : stage) h : Prop :=
  match g with
  | Idle => True
  | Logged r => h !! ShardMutex (index (rec_key r)) = Some Exclusive
  | Captured _ _ => h !! SnapshotMutex = Some Exclusive
  end.

(** The locks under which an action is performed. *)
Definition may (g : stage) h (a : action) : Prop :=
  match a with
  | Append r => g = Idle ∧ h !! ShardMutex (index (rec_key r)) = Some Exclusive ∧ record_ok r
  | Store r => g = Logged r
  | Read key => g = Idle ∧ is_Some (h !! ShardMutex (index key))
  | Admin _ | Capture => g = Idle ∧ holds_shards h ∧ h !! SnapshotMutex = Some Exclusive
  | Publish data off => g = Captured data off
  | _ => True
  end.

Fixpoint guarded (g : stage) h (c : code) : Prop :=
  match c with
  | Stop => h = ∅ ∧ g = Idle
  | Lock l m c => keeps_lock g (<[l := m]> h) ∧ guarded g (<[l := m]> h) c
  | Unlock l c => keeps_lock g (delete l h) ∧ guarded g (delete l h) c
  | Do a k => may g h a ∧ ∀ r, throws a r = None → guarded (next_stage g a r) h (k r)
  end.

Lemma guarded_lock_every h c : guarded Idle (locked Exclusive all_shards h) c → guarded Idle h (lock_every c).
Proof.
  unfold lock_every, locked. revert h. induction all_shards as [|i ids IH]; intros h Hc; [done|].
  split; [done|]. by apply IH.
Qed.

Lemma guarded_unlock_every g h c :
  (∀ r, g ≠ Logged r) → keeps_lock g h → guarded g (unlocked all_shards h) c → guarded g h (unlock_every c).
Proof.
  unfold unlock_every, unlocked. intros Hg. revert h. induction all_shards as [|i ids IH]; intros h Hk Hc; [done|].
  assert (keeps_lock g (delete (ShardMutex i) h)) as Hk'
    by (destruct g as [|r|data off]; [done|by destruct (Hg r)|]; cbn in *; by rewrite lookup_delete_ne).
  split; [done|]. by apply IH.
Qed.

Lemma guarded_checkpoint a k h :
  h !! CheckpointMutex = None → (∀ g h, may g h a) → (∀ r g, next_stage g a r = g) → (∀ r, throws a r = None) →
  (∀ r, guarded Idle h (k r)) → guarded Idle h (under_checkpoint_mutex a k).
Proof.
  intros Hh Hmay Hnext Hthrows Hk. split; [done|]. split; [apply Hmay|]. intros r _. rewrite Hnext.
  split; [done|]. by rewrite delete_insert_id.
Qed.

Lemma all_locked_holds h : holds_shards (locked Exclusive all_shards h).
Proof. intros i Hi. by apply locked_shard. Qed.

(** What an administrative call holds, before and with the shards. *)
Definition admin_held : held := <[AdminMutex := Exclusive]> {[ SnapshotMutex := Exclusive ]}.

Lemma admin_unlocked : unlocked all_shards (locked Exclusive all_shards admin_held) = admin_held.
Proof.
  apply unlocked_locked. unfold admin_held. intros l [m [[<- _]|[_ [<- _]%lookup_singleton_Some]]%lookup_insert_Some];
    by intros (i & ? & _)%list_elem_of_fmap.
Qed.

Lemma admin_snapshot : locked Exclusive all_shards admin_held !! SnapshotMutex = Some Exclusive.
Proof. by rewrite locked_other. Qed.

Lemma write_guarded r : record_ok r → guarded Idle ∅ (write_code r).
Proof.
  intros Hr. apply guarded_checkpoint; [done..|]. intros [[]|e]; [|done]. split; [done|].
  set (h := <[ShardMutex (index (rec_key r)) := Exclusive]> (∅ : held)).
  assert (h !! ShardMutex (index (rec_key r)) = Some Exclusive) as Hh by apply lookup_insert_eq.
  assert (delete (ShardMutex (index (rec_key r))) h = ∅) as Hd by (by apply delete_insert_id).
  assert (guarded Idle h (Unlock (ShardMutex (index (rec_key r))) Stop)) as Hleave by (by split).
  split; [done|]. intros [[]|e] Ho; [|done]. split; [done|]. intros o _. split; [done|].
  intros [[]|e] _; [|done..]. apply guarded_checkpoint; try done. unfold h. by rewrite lookup_insert_ne.
Qed.

Lemma get_guarded key : guarded Idle ∅ (get_code key).
Proof.
  split; [done|]. split; [split; [done|]; rewrite lookup_insert_eq; eauto|]. intros o _. split; [done|].
  split; [by apply delete_insert_id|done].
Qed.

Lemma admin_guarded c : guarded Idle ∅ (admin_code c).
Proof.
  split; [done|]. apply guarded_checkpoint; [done..|]. intros _. split; [done|].
  change (insert AdminMutex Exclusive _) with admin_held.
  apply guarded_lock_every. split; [split_and!; [done|apply all_locked_holds|apply admin_snapshot]|].
  intros o _. apply guarded_unlock_every; [done..|]. rewrite admin_unlocked. by vm_compute.
Qed.

Lemma round_guarded : guarded Idle ∅ round_code.
Proof.
  unfold round_code. apply guarded_checkpoint; [done..|]. intros [[epoch|]|e]; [|done..]. split; [done|].
  set (finish := under_checkpoint_mutex Finish (λ _, Stop)).
  assert (guarded Idle ∅ finish) as Hfinish by (by apply guarded_checkpoint).
  assert (delete SnapshotMutex {[ SnapshotMutex := Exclusive ]} = (∅ : held)) as Hd by apply delete_singleton_eq.
  assert (∀ e, guarded Idle ∅ (under_checkpoint_mutex (RecordError e) (λ _, finish))) as Hfailed
    by (intros e; by apply guarded_checkpoint).
  apply guarded_checkpoint; [done..|]. intros [[]|e]; [by split; rewrite ?Hd| |by split; rewrite ?Hd].
  split; [done|]. change (insert AdminMutex Exclusive _) with admin_held.
  apply guarded_lock_every. split; [split_and!; [done|apply all_locked_holds|apply admin_snapshot]|].
  intros [[data off]|e]; [intros _|done]. cbn [next_stage fst snd].
  apply guarded_unlock_every; [done|apply admin_snapshot|]. rewrite admin_unlocked.
  assert (delete AdminMutex admin_held = {[ SnapshotMutex := Exclusive ]}) as Ha by (by apply delete_insert_id).
  split; rewrite Ha; [by apply lookup_singleton_eq|]. split; [done|]. intros [[]|e] _; (split; [done|]); by rewrite Hd.
Qed.

Lemma code_guarded c : (∀ r, c = Write r → record_ok r) → guarded Idle ∅ (code_of c).
Proof.
  intros Hc. destruct c; [by apply write_guarded, Hc|apply get_guarded|apply admin_guarded|apply round_guarded].
Qed.

(** ** Well-formed threads *)

Record well_locked (s : lsystem) : Prop := {
  wl_threads : ∀ t th, lk_threads s !! t = Some th →
    guarded (lt_stage th) (lt_held th) (lt_code th) ∧ keeps_lock (lt_stage th) (lt_held th);
  wl_locks : ∀ t1 t2 th1 th2 l m1 m2, t1 ≠ t2 → lk_threads s !! t1 = Some th1 → lk_threads s !! t2 = Some th2 →
    lt_held th1 !! l = Some m1 → lt_held th2 !! l = Some m2 → m1 = Shared ∧ m2 = Shared
}.

(** A thread that changes: every lock it has now is an old one or was free. *)
Lemma well_locked_update s t h c g st :
  well_locked s → guarded g h c → keeps_lock g h →
  (∀ l m, h !! l = Some m → lock_free s t l m ∨
          ∃ th, lk_threads s !! t = Some th ∧ lt_held th !! l = Some m) →
  well_locked (LSystem st (<[t := LThread h c g]> (lk_threads s))).
Proof.
  intros [Hth Hlk] Hg Hk Hh.
  assert (∀ t2 th2 l m m2, t2 ≠ t → lk_threads s !! t2 = Some th2 → h !! l = Some m →
          lt_held th2 !! l = Some m2 → m = Shared ∧ m2 = Shared) as Hnew.
  { intros t2 th2 l m m2 Hne H2 Hm Hm2. destruct (Hh l m Hm) as [Hf|(th & Ht & Ho)].
    - by apply (Hf t2 th2).
    - by apply (Hlk t t2 th th2 l). }
  split; cbn [lk_threads].
  - by intros t' th' [[<- <-]|[_ H']]%lookup_insert_Some; [|apply (Hth t')].
  - intros t1 t2 th1 th2 l m1 m2 Hne [[<- <-]|[Hn1 H1']]%lookup_insert_Some [[<- <-]|[Hn2 H2']]%lookup_insert_Some;
      cbn [lt_held]; intros Hm1 Hm2; [done|by eapply Hnew| |by apply (Hlk t1 t2 th1 th2 l)].
    destruct (Hnew t1 th1 l m2 m1); auto.
Qed.

Lemma well_locked_moves s t s' : well_locked s → moves t s None s' → well_locked s'.
Proof.
  intros Hw Hm. remember None as failed eqn:Hf. destruct Hm as [h l m c g Ht Hfree|h l c g Ht|h a k g r st Ht Hrun|h g Ht|c Ht Hc].
  - destruct (wl_threads s Hw _ _ Ht) as [[Hk Hg] _]. apply well_locked_update; [done..|].
    intros l' m' [[<- <-]|[_ Hm]]%lookup_insert_Some; [by left|right; eauto].
  - destruct (wl_threads s Hw _ _ Ht) as [[Hk Hg] _]. apply well_locked_update; [done..|].
    intros l' m' [_ Hm]%lookup_delete_Some. right; eauto.
  - destruct (wl_threads s Hw _ _ Ht) as [[Hmay Hg] Hk]. cbn in *. apply well_locked_update; [done|by apply Hg| |eauto].
    destruct a; cbn in *; destruct_and?; subst; try done; by destruct r.
  - destruct Hw as [Hth Hlk]. split; cbn [lk_threads].
    + intros t' th' [_ H']%lookup_delete_Some. by apply (Hth t').
    + intros t1 t2 th1 th2 l m1 m2 Hne [_ H1']%lookup_delete_Some [_ H2']%lookup_delete_Some. by apply (Hlk t1 t2 th1 th2).
  - apply well_locked_update; [done|by apply code_guarded|done|]. intros l m Hl. by rewrite lookup_empty in Hl.
Qed.

(** Two threads do not both hold a lock, one of them exclusively. *)
Lemma exclusive_thread s t1 t2 th1 th2 l :
  well_locked s → lk_threads s !! t1 = Some th1 → lk_threads s !! t2 = Some th2 →
  lt_held th1 !! l = Some Exclusive → is_Some (lt_held th2 !! l) → t1 = t2.
Proof.
  intros Hw H1' H2' Hl1 [m2 Hl2]. destruct (decide (t1 = t2)) as [|Hne]; [done|].
  by destruct (wl_locks s Hw t1 t2 th1 th2 l Exclusive m2 Hne H1' H2' Hl1 Hl2).
Qed.

(** ** The steps of [Checkpointing] *)

(** Changes of the flags and of the counter. *)
Definition flags_only st st' : Prop := shards_ (kv st') = shards_ (kv st) ∧ same_persistence st st'.

Inductive refined : run → run → Prop :=
| refined_step u u' : allowed u u' → refined u u'
| refined_flags st st' l ph o : flags_only st st' → refined (Run st l ph o) (Run st' l ph o).

Definition stage_of (s : lsystem) t : stage :=
  match lk_threads s !! t with Some th => lt_stage th | None => Idle end.

(** The run that threads amount to: the logged records in the order of the log; a
    capture, if a thread has one. *)
Definition logged_by (s : lsystem) (ls : list (nat * ParsedRecord)) : Prop :=
  NoDup ls.*1 ∧ ∀ t r, (t, r) ∈ ls ↔ stage_of s t = Logged r.

Definition captured_by (s : lsystem) (ph : loop_phase) (o : snapshot_owner) : Prop :=
  match ph with
  | Sleeping => o = Nobody ∧ ∀ t data off, stage_of s t ≠ Captured data off
  | Publishing data off => o = CheckpointThread ∧ ∃ t, stage_of s t = Captured data off
  | _ => False
  end.

Definition amounts_to (s : lsystem) (u : run) : Prop :=
  run_store u = lk_store s ∧ captured_by s (run_phase u) (run_owner u) ∧
  ∃ ls, logged_by s ls ∧ run_inflight u = ls.*2.

Lemma amounts_same s s' st' l ph o :
  (∀ t, stage_of s' t = stage_of s t) → lk_store s' = st' →
  amounts_to s (Run (lk_store s) l ph o) → amounts_to s' (Run st' l ph o).
Proof.
  intros Hst <- (_ & Hc & ls & [Hnd Hls] & Hl). cbn in *. split; [done|]. split; cbn.
  - destruct ph; try done; [destruct Hc as [-> Hc]|destruct Hc as [-> [t Ht]]]; (split; [done|]).
    + intros t. by rewrite Hst.
    + exists t. by rewrite Hst.
  - exists ls. split; [split; [done|]|done]. intros t r. by rewrite Hst.
Qed.

Lemma stage_of_insert s t th st t' :
  stage_of (LSystem st (<[t := th]> (lk_threads s))) t' = if decide (t' = t) then lt_stage th else stage_of s t'.
Proof.
  unfold stage_of. cbn [lk_threads]. case_decide; [subst; by rewrite lookup_insert_eq|by rewrite lookup_insert_ne].
Qed.

Lemma stage_of_here s t h c g : lk_threads s !! t = Some (LThread h c g) → stage_of s t = g.
Proof. intros Ht. unfold stage_of. by rewrite Ht. Qed.

(** A thread with something to remember holds the lock that goes with it. *)
Lemma stage_held s t :
  well_locked s → stage_of s t ≠ Idle →
  ∃ th, lk_threads s !! t = Some th ∧ keeps_lock (stage_of s t) (lt_held th).
Proof.
  intros Hw. unfold stage_of. destruct (lk_threads s !! t) as [th|] eqn:Ht; [|done]. intros _.
  exists th. split; [done|]. by apply (wl_threads s Hw t th).
Qed.

Lemma logged_alone s t h c key :
  well_locked s → lk_threads s !! t = Some (LThread h c Idle) →
  is_Some (h !! ShardMutex (index key)) → ∀ ls, logged_by s ls → shard_free hash key ls.*2.
Proof.
  intros Hw Ht Hh ls [_ Hls]. apply Forall_forall. intros r' ([t' r''] & -> & Hin)%list_elem_of_fmap. cbn [snd].
  apply Hls in Hin. destruct (stage_held s t' Hw) as (th & Ht' & Hk); [by rewrite Hin|]. rewrite Hin in Hk. cbn in Hk.
  intros Heq. rewrite Heq in Hk.
  assert (t' = t) as -> by (eapply (exclusive_thread s t' t); done).
  by rewrite (stage_of_here _ _ _ _ _ Ht) in Hin.
Qed.

(** A thread that holds all shards finds no write between log and memory. *)
Lemma shards_settled s t h c :
  well_locked s → lk_threads s !! t = Some (LThread h c Idle) → holds_shards h → ∀ ls, logged_by s ls → ls = [].
Proof.
  intros Hw Ht Hh ls Hls. destruct ls as [|[t' r] ls]; [done|exfalso].
  assert (shard_free hash (rec_key r) ((t', r) :: ls).*2) as Hf
    by (eapply logged_alone; [done|done|by rewrite (Hh _ (index_lt _ _))|done]).
  inversion Hf as [|? ? Hne _]. by apply Hne.
Qed.

(** A thread that holds [snapshot_mutex_] is the one with the capture, if there is one. *)
Lemma captured_here s t h c g t' data off :
  well_locked s → lk_threads s !! t = Some (LThread h c g) → h !! SnapshotMutex = Some Exclusive →
  stage_of s t' = Captured data off → t' = t ∧ g = Captured data off.
Proof.
  intros Hw Ht Hh Hst. destruct (stage_held s t' Hw) as (th & Ht' & Hk); [by rewrite Hst|]. rewrite Hst in Hk. cbn in Hk.
  assert (t' = t) as -> by (eapply (exclusive_thread s t' t); [done..| |]; eauto).
  split; [done|]. by rewrite (stage_of_here _ _ _ _ _ Ht) in Hst.
Qed.

Lemma captured_none s t h c ph o :
  well_locked s → lk_threads s !! t = Some (LThread h c Idle) → h !! SnapshotMutex = Some Exclusive →
  captured_by s ph o → ph = Sleeping ∧ o = Nobody.
Proof.
  intros Hw Ht Hh Hc. destruct ph as [| | |data off|]; try done; [by destruct Hc|].
  destruct Hc as [_ [t' Hst]]. by destruct (captured_here _ _ _ _ _ _ _ _ Hw Ht Hh Hst).
Qed.

(** ** What the actions are steps of *)

#[local] Instance flags_only_preorder : PreOrder flags_only.
Proof.
  split; [by split|]. intros s1 s2 s3 [Ha [? ? ?]] [Hb [? ? ?]]. split; [congruence|]. split; congruence.
Qed.

Lemma flags_only_sym st st' : flags_only st st' → flags_only st' st.
Proof. intros [Hs []]. by split. Qed.

Lemma flags_contents st st' : flags_only st st' → contents_of (kv st') = contents_of (kv st).
Proof. intros [Hs _]. unfold contents_of. by rewrite Hs. Qed.

Definition bookkeeping (a : action) : bool :=
  match a with Append _ | Store _ | Admin _ | Capture | Publish _ _ => false | _ => true end.

Lemma bookkeeping_flags a r st st' : bookkeeping a = true → perform a st = (r, st') → flags_only st st'.
Proof.
  destruct a as [| | | | | | | | | | | | |]; try done; intros _; cbn [perform result] in *.
  - unfold CheckCheckpointError, bind, gets, ret, throw. repeat case_match; intros [= _ <-]; simplify_eq; done.
  - unfold count_due, bind, gets, ret, on_kv, modify. repeat case_match; simplify_eq; intros [= _ <-]; by split.
  - intros [= _ <-]. by split.
  - intros [= _ <-]. done.
  - intros [= _ <-]. by split.
  - unfold take_if_requested, take_request, bind, gets, ret, on_kv, modify.
    repeat case_match; simplify_eq; intros [= _ <-]; by split.
  - intros [= _ <-]. done.
  - intros [= _ <-]. by split.
  - intros [= _ <-]. by split.
Qed.

(** The system after an action of thread [t]. *)
Local Abbreviation after s t st h c g := (LSystem st (<[t := LThread h c g]> (lk_threads s))).

Lemma captured_frame s t st h c g ph o :
  (∀ data off, stage_of s t ≠ Captured data off) → (∀ data off, g ≠ Captured data off) →
  captured_by s ph o → captured_by (after s t st h c g) ph o.
Proof.
  intros Hold Hnew Hc. destruct ph as [| | |data off|]; try done.
  - destruct Hc as [-> Hc]. split; [done|]. intros t'. rewrite stage_of_insert. by case_decide.
  - destruct Hc as [-> [t' Ht']]. split; [done|]. exists t'. rewrite stage_of_insert. case_decide; [|done].
    subst. by destruct (Hold data off).
Qed.

Lemma logged_frame s t st h c g ls :
  (∀ r, stage_of s t ≠ Logged r) → (∀ r, g ≠ Logged r) → logged_by s ls → logged_by (after s t st h c g) ls.
Proof.
  intros Hold Hnew [Hnd Hls]. split; [done|]. intros t' r. rewrite stage_of_insert, Hls. case_decide; [subst|done].
  split; [by intros ?%Hold|by intros ?%Hnew].
Qed.

Lemma refine_append s t h r (k : res (result (Append r)) → code) st u :
  well_locked s → savable (contents_of (kv (lk_store s))) →
  lk_threads s !! t = Some (LThread h (Do (Append r) k) Idle) →
  h !! ShardMutex (index (rec_key r)) = Some Exclusive → record_ok r →
  perform (Append r) (lk_store s) = (Ok tt, st) → amounts_to s u →
  ∃ u', rtc refined u u' ∧ amounts_to (after s t st h (k (Ok tt)) (Logged r)) u'.
Proof.
  intros Hw Hsav Ht Hh Hr Hrun (Hst & Hc & ls & Hls & Hl). destruct u as [st0 l ph o]. cbn in *. subst st0 l.
  pose proof (stage_of_here _ _ _ _ _ Ht) as Hidle.
  exists (Run st (ls.*2 ++ [r]) ph o). split.
  - apply rtc_once, refined_step. split; [done|]. apply step_log; [|done|exact Hrun].
    by eapply logged_alone; [done|done|rewrite Hh|done].
  - split; [done|]. split; [by apply captured_frame; rewrite ?Hidle|]. exists (ls ++ [(t, r)]).
    split; [|by rewrite fmap_app]. destruct Hls as [Hnd Hls]. split.
    + rewrite fmap_app. apply NoDup_app. split_and!; [done| |apply NoDup_singleton].
      intros t' ([t1 r1] & -> & Hin)%list_elem_of_fmap. cbn. rewrite list_elem_of_singleton. intros ->.
      apply Hls in Hin. by rewrite Hidle in Hin.
    + intros t' r'. rewrite stage_of_insert, elem_of_app, list_elem_of_singleton, Hls. cbn [lt_stage].
      case_decide; [subst|naive_solver]. rewrite Hidle. naive_solver.
Qed.

Lemma refine_store s t h r (k : res (result (Store r)) → code) (x : res unit) st u :
  savable (contents_of (kv (lk_store s))) →
  lk_threads s !! t = Some (LThread h (Do (Store r) k) (Logged r)) →
  perform (Store r) (lk_store s) = (x, st) → amounts_to s u →
  ∃ u', rtc refined u u' ∧ amounts_to (after s t st h (k x) Idle) u'.
Proof.
  intros Hsav Ht Hrun (Hst & Hc & ls & [Hnd Hls] & Hl). destruct u as [st0 l ph o]. cbn in *. subst st0 l.
  pose proof (stage_of_here _ _ _ _ _ Ht) as Hlogged.
  destruct (list_elem_of_split ls (t, r)) as (l1 & l2 & ->); [by apply Hls|].
  assert (∃ st1, apply_in_memory hash r (lk_store s) = (Ok tt, st1) ∧ flags_only st1 st) as (st1 & Happ & Hf).
  { unfold apply_in_memory. unfold bind at 1. rewrite Hrun. unfold store_in_memory, on_kv, modify in Hrun.
    injection Hrun as <- <-. unfold count_write, ScheduleCheckpoint, on_kv, bind, gets, modify, when, ret.
    repeat case_match; simplify_eq; eexists; (split; [done|]); by split. }
  exists (Run st (l1.*2 ++ l2.*2) ph o). split.
  - eapply rtc_l; [apply refined_step|apply rtc_once, (refined_flags st1 st), Hf].
    split; [done|]. rewrite fmap_app. by apply step_apply.
  - split; [done|]. split; [by apply captured_frame; rewrite ?Hlogged|]. exists (l1 ++ l2).
    split; [|by rewrite fmap_app]. rewrite fmap_app in Hnd. apply NoDup_app in Hnd as (Hn1 & Hd & [Hn3 Hn2]%NoDup_cons).
    assert (∀ r', (t, r') ∉ l1 ++ l2) as Hgone.
    { intros r' [Hin|Hin]%elem_of_app; apply (list_elem_of_fmap_2 fst) in Hin; [|done]. apply (Hd t Hin). left. }
    split.
    + rewrite fmap_app. apply NoDup_app. split_and!; [done| |done]. intros t' Hin Hin2. apply (Hd t' Hin). by right.
    + intros t' r'. rewrite stage_of_insert. cbn [lt_stage]. case_decide as Heq; [subst; by split; [intros ?%Hgone|]|].
      rewrite <-Hls, !elem_of_app, elem_of_cons. naive_solver.
Qed.

Lemma refine_admin s t h a (k : res (result (Admin a)) → code) (b : bool) st u :
  well_locked s → savable (contents_of (kv (lk_store s))) →
  lk_threads s !! t = Some (LThread h (Do (Admin a) k) Idle) → holds_shards h →
  h !! SnapshotMutex = Some Exclusive → perform (Admin a) (lk_store s) = (Ok b, st) → amounts_to s u →
  ∃ u', rtc refined u u' ∧ amounts_to (after s t st h (k (Ok b)) Idle) u'.
Proof.
  intros Hw Hsav Ht Hsh Hsn Hrun (Hst & Hc & ls & Hls & Hl). destruct u as [st0 l ph o]. cbn in *. subst st0 l.
  pose proof (stage_of_here _ _ _ _ _ Ht) as Hidle.
  pose proof (shards_settled _ _ _ _ Hw Ht Hsh _ Hls) as ->.
  destruct (captured_none _ _ _ _ _ _ Hw Ht Hsn Hc) as [-> ->].
  exists (Run st [] Sleeping Nobody). split.
  - eapply rtc_l; [apply refined_step; split; [exact Hsav|apply step_begin_admin]|].
    eapply rtc_l; [apply (refined_flags _ (lk_store s)); by split|].
    apply rtc_once, refined_step. split; [exact Hsav|]. by eapply step_admin.
  - split; [done|]. split; [by apply captured_frame; rewrite ?Hidle|]. exists [].
    split; [by apply logged_frame; rewrite ?Hidle|done].
Qed.

Lemma refine_capture s t h (k : res (result Capture) → code) data off st u :
  well_locked s → savable (contents_of (kv (lk_store s))) →
  lk_threads s !! t = Some (LThread h (Do Capture k) Idle) → holds_shards h →
  h !! SnapshotMutex = Some Exclusive → perform Capture (lk_store s) = (Ok (data, off), st) → amounts_to s u →
  ∃ u', rtc refined u u' ∧ amounts_to (after s t st h (k (Ok (data, off))) (Captured data off)) u'.
Proof.
  intros Hw Hsav Ht Hsh Hsn Hrun (Hst & Hc & ls & Hls & Hl). destruct u as [st0 l ph o]. cbn in *. subst st0 l.
  pose proof (stage_of_here _ _ _ _ _ Ht) as Hidle.
  pose proof (shards_settled _ _ _ _ Hw Ht Hsh _ Hls) as ->.
  destruct (captured_none _ _ _ _ _ _ Hw Ht Hsn Hc) as [-> ->].
  set (st0 := lk_store s) in *. set (epoch := checkpoint_epoch_ (kv st0)).
  set (requested := StoreState (set_checkpoint true (checkpoint_active_ (kv st0)) (checkpoint_stopping_ (kv st0))
    epoch (checkpoint_error_ (kv st0)) (kv st0)) (kv_os st0)).
  assert (request_cancelled epoch st0 = (Ok false, st0)) as Hgo
    by (unfold request_cancelled, gets; by rewrite Z.eqb_refl).
  exists (Run st [] (Publishing data off) CheckpointThread). split.
  - eapply rtc_l; [apply (refined_flags _ requested); by split|].
    eapply rtc_l; [apply refined_step; split; [exact Hsav|by apply (step_take _ _ _ _ _ _ epoch)]|].
    eapply rtc_l; [apply refined_step; split; [exact Hsav|apply step_lock]|].
    eapply rtc_l; [apply (refined_flags _ st0); by split|].
    apply rtc_once, refined_step. split; [exact Hsav|]. by eapply step_capture.
  - split; [done|]. split.
    + split; [done|]. exists t. rewrite stage_of_insert. by rewrite decide_True.
    + exists []. split; [by apply logged_frame; rewrite ?Hidle|done].
Qed.

Lemma publish_memory data off st x st' : publish host iterate data off st = (x, st') → kv st' = kv st.
Proof.
  unfold publish, with_snapshot, on_machine, zoom, bind, gets, ret. intros Hrun.
  repeat case_match; by simplify_eq.
Qed.

Lemma refine_publish s t h data off (k : res (result (Publish data off)) → code) (x : res unit) st u :
  well_locked s → savable (contents_of (kv (lk_store s))) →
  lk_threads s !! t = Some (LThread h (Do (Publish data off) k) (Captured data off)) →
  h !! SnapshotMutex = Some Exclusive →
  perform (Publish data off) (lk_store s) = (x, st) → amounts_to s u →
  ∃ u', rtc refined u u' ∧ amounts_to (after s t st h (k x) Idle) u'.
Proof.
  intros Hw Hsav Ht Hsn Hrun (Hst & Hc & ls & Hls & Hl). destruct u as [st0 l ph o]. cbn in *. subst st0 l.
  pose proof (stage_of_here _ _ _ _ _ Ht) as Hcap. pose proof (publish_memory _ _ _ _ _ Hrun) as Hkv.
  assert (ph = Publishing data off ∧ o = CheckpointThread) as [-> ->].
  { destruct ph as [| | |data' off'|]; try done; [by destruct Hc as [_ Hno]; destruct (Hno t data off)|].
    destruct Hc as [-> [t' Ht']]. destruct (captured_here _ _ _ _ _ _ _ _ Hw Ht Hsn Ht') as [_ [= -> ->]]. done. }
  exists (Run st ls.*2 Sleeping Nobody). split.
  - assert (∀ st1, flags_only st st1 →
      rtc refined (Run st1 ls.*2 Finishing Nobody) (Run st ls.*2 Sleeping Nobody)) as Hfinish.
    { intros st1 Hf. destruct (finish_checkpoint st1) as [y st2] eqn:Hfin.
      unfold finish_checkpoint, on_kv, modify in Hfin. injection Hfin as <- Hst2.
      eapply rtc_l; [apply refined_step; split; [|apply (step_finish _ _ _ st1 _ _ st2)]|].
      - cbn [run_store]. by rewrite (flags_contents st), Hkv.
      - by rewrite <-Hst2.
      - apply rtc_once, refined_flags, flags_only_sym. etransitivity; [exact Hf|]. subst st2. by split. }
    destruct x as [[]|e].
    + eapply rtc_l; [apply refined_step; split; [exact Hsav|by eapply step_publish]|]. by apply Hfinish.
    + destruct (record_checkpoint_error e st) as [y st1] eqn:Hrec. pose proof Hrec as Hrec'.
      unfold record_checkpoint_error, on_kv, modify in Hrec'. injection Hrec' as <- Hst1.
      eapply rtc_l; [apply refined_step; split; [exact Hsav|by eapply step_publish_fails]|].
      apply Hfinish. subst st1. by split.
  - split; [done|]. split; [split; [done|]|].
    + intros t' data' off'. rewrite stage_of_insert. case_decide; [done|]. intros Ht'.
      by destruct (captured_here _ _ _ _ _ _ _ _ Hw Ht Hsn Ht').
    + exists ls. split; [|done]. by apply logged_frame; rewrite ?Hcap.
Qed.

(** Every move is a few steps of [Checkpointing], or none. *)
Lemma moves_refine s t s' u :
  well_locked s → savable (contents_of (kv (lk_store s))) → moves t s None s' → amounts_to s u →
  ∃ u', rtc refined u u' ∧ amounts_to s' u'.
Proof.
  intros Hw Hsav Hm Hu. remember None as failed eqn:Hf. pose proof Hu as [Hst _].
  destruct u as [st0 l ph o]. cbn in Hst. subst st0.
  assert (∀ st1 s1, flags_only (lk_store s) st1 → lk_store s1 = st1 → (∀ t, stage_of s1 t = stage_of s t) →
    ∃ u', rtc refined (Run (lk_store s) l ph o) u' ∧ amounts_to s1 u') as Hsame.
  { intros st1 s1 Hfl Heq Hstages. exists (Run st1 l ph o). split; [by apply rtc_once, refined_flags|].
    by eapply amounts_same. }
  destruct Hm as [h lk m c g Ht Hfree|h lk c g Ht|h a k g r st Ht Hrun|h g Ht|c Ht Hc].
  - eapply Hsame; [reflexivity|done|]. intros t'. unfold set_lthread. rewrite stage_of_insert.
    case_decide; [subst|done]. by rewrite (stage_of_here _ _ _ _ _ Ht).
  - eapply Hsame; [reflexivity|done|]. intros t'. unfold set_lthread. rewrite stage_of_insert.
    case_decide; [subst|done]. by rewrite (stage_of_here _ _ _ _ _ Ht).
  - destruct (wl_threads s Hw _ _ Ht) as [[Hmay _] Hk]. cbn [lt_stage lt_held lt_code] in *.
    destruct (bookkeeping a) eqn:Hb.
    { apply (Hsame st); [by eapply bookkeeping_flags|done|]. intros t'. rewrite stage_of_insert.
      case_decide; [subst|done]. rewrite (stage_of_here _ _ _ _ _ Ht). by destruct a. }
    destruct a as [|r0|r0| | | | |c| | | |data off| |]; try done; cbn [may throws next_stage] in *.
    + destruct Hmay as (-> & Hh & Hr0). destruct r as [[]|e]; [|done]. by eapply refine_append.
    + subst g. by eapply refine_store.
    + destruct Hmay as (-> & Hh & Hsn). destruct r as [b|e]; [|done]. by eapply refine_admin.
    + destruct Hmay as (-> & Hh & Hsn). destruct r as [[data off]|e]; [|done]. by eapply refine_capture.
    + subst g. by eapply refine_publish.
  - eapply Hsame; [reflexivity|done|]. intros t'. unfold stage_of. cbn [lk_threads].
    destruct (decide (t' = t)) as [->|Hne]; [|by rewrite lookup_delete_ne].
    rewrite lookup_delete_eq, Ht. cbn. by destruct (wl_threads s Hw _ _ Ht) as [[_ Hg] _].
  - eapply Hsame; [reflexivity|done|]. intros t'. unfold set_lthread. rewrite stage_of_insert.
    case_decide; [subst|done]. unfold stage_of. by rewrite Ht.
Qed.

Lemma refined_inv u u' : run_inv u → rtc refined u u' → run_inv u'.
Proof.
  intros Hinv Hr. induction Hr as [|u u1 u2 [u0 u0' [Hsav Hstep]|st st' l ph o [Hsh Hp]] _ IH]; [done|..]; apply IH.
  - by eapply run_inv_step.
  - by eapply run_inv_same.
Qed.

(** The threads start when the store is at rest. *)
Lemma starts_well st : well_locked (LSystem st ∅) ∧ amounts_to (LSystem st ∅) (Run st [] Sleeping Nobody).
Proof.
  split; [done|]. split; [done|]. split; [done|]. exists []. split; [|done]. split; [apply NoDup_nil_2|].
  intros t r. by split; [intros ?%elem_of_nil|].
Qed.

Lemma reachable_refines st s :
  rtc goes_on (LSystem st ∅) s →
  well_locked s ∧ ∃ u, rtc refined (Run st [] Sleeping Nobody) u ∧ amounts_to s u.
Proof.
  intros Hs. destruct (starts_well st) as [Hw Hu].
  assert (∃ u, rtc refined (Run st [] Sleeping Nobody) u ∧ amounts_to (LSystem st ∅) u) as Hex by eauto using rtc_refl.
  clear Hu. revert Hw Hex. generalize (Run st [] Sleeping Nobody) as u0.
  induction Hs as [|s s1 s2 [Hsav [t Hm]] _ IH]; intros u0 Hw Hex; [done|].
  apply IH; [by eapply well_locked_moves|]. destruct Hex as (u & Hr & Hu).
  destruct (moves_refine _ _ _ _ Hw Hsav Hm Hu) as (u' & Hr' & Hu'). exists u'. split; [by etransitivity|done].
Qed.

(** ** What the threads keep *)

(** Memory once the logged writes have arrived. *)
Definition settled (s : lsystem) (ls : list (nat * ParsedRecord)) : gmap bytes bytes :=
  apply_records ls.*2 (contents_of (kv (lk_store s))).

Lemma locked_run st s :
  persistent host hash st → rtc goes_on (LSystem st ∅) s →
  well_locked s ∧ ∃ ls ph o, logged_by s ls ∧ captured_by s ph o ∧ run_inv (Run (lk_store s) ls.*2 ph o).
Proof.
  intros Hp Hs. destruct (reachable_refines st s Hs) as (Hw & [st' l ph o] & Hr & Hst & Hc & ls & Hls & Hl).
  cbn in *. subst st' l. split; [done|]. exists ls, ph, o. split_and!; [done..|].
  by eapply refined_inv, Hr; apply persistent_inv.
Qed.

Lemma read_settled s t h key k g ls ph o :
  well_locked s → logged_by s ls → run_inv (Run (lk_store s) ls.*2 ph o) →
  lk_threads s !! t = Some (LThread h (Do (Read key) k) g) →
  perform (Read key) (lk_store s) = (Ok (settled s ls !! key), lk_store s).
Proof.
  intros Hw Hls (j & snap & rs1 & rs2 & base & Ha) Ht.
  destruct (wl_threads s Hw _ _ Ht) as [[[Hidle Hh] _] _]. cbn [lt_stage lt_held] in *. subst g.
  cbn [perform]. rewrite (Get_contents hash) by apply (run_ok _ _ _ _ _ _ _ _ Ha). unfold settled.
  rewrite (locks_held_free hash _ key); [done|]. by eapply logged_alone.
Qed.

(** A move that throws is a failure of [Checkpointing]. *)
Lemma throws_fails s t s' r ls ph o :
  well_locked s → logged_by s ls → captured_by s ph o → run_inv (Run (lk_store s) ls.*2 ph o) →
  moves t s (Some r) s' →
  ∃ ph' o', run_inv (Run (lk_store s) ls.*2 ph' o') ∧
            fails host iterate (Run (lk_store s) ls.*2 ph' o') (lk_store s') r.
Proof.
  intros Hw Hls Hc Hinv Hm. remember (Some r) as failed eqn:Hf.
  destruct Hm as [h lk m c g Ht Hfree|h lk c g Ht|h a k g x st Ht Hrun|h g Ht|c Ht Hok]; try done.
  destruct (wl_threads s Hw _ _ Ht) as [[Hmay _] _]. cbn [lt_stage lt_held lt_code lk_store] in *.
  assert (∀ ph' o', ph = Sleeping → (∀ j rs m, phase_ok j rs m Sleeping o → phase_ok j rs m ph' o') →
            run_inv (Run (lk_store s) ls.*2 ph' o')) as Hphase.
  { intros ph' o' -> Hph. by eapply run_inv_same, Hinv. }
  destruct a as [|r0|r0| | | | |c| | | |data off| |]; try done; destruct x as [x|e]; try done;
    cbn [may throws] in *; injection Hf as <-.
  - exists ph, o. split; [done|]. eapply fails_write; [apply Hmay|exact Hrun].
  - destruct Hmay as (-> & Hh & Hsn). destruct (captured_none _ _ _ _ _ _ Hw Ht Hsn Hc) as [Hs _].
    exists Sleeping, Caller. split; [by apply Hphase|].
    rewrite (shards_settled _ _ _ _ Hw Ht Hh _ Hls). by eapply fails_admin.
  - destruct Hmay as (-> & Hh & Hsn). destruct (captured_none _ _ _ _ _ _ Hw Ht Hsn Hc) as [Hs _].
    exists (Deciding 0), CheckpointThread. split; [by apply Hphase|].
    rewrite (shards_settled _ _ _ _ Hw Ht Hh _ Hls). by eapply fails_capture.
Qed.

(** C6: Any number of threads run [Set], [Delete], [Get], [SaveSnapshot],
    [CompactPersistence] and rounds of [CheckpointLoop], each as the sequence of
    acquisitions, releases and actions that the code makes, and are switched anywhere
    between them. At every moment a restart recovers memory together with the writes
    that are in the log and not yet in memory; a [Get] that is about to read returns
    what a restart would recover for its key; when no write is between log and memory
    then log, snapshot and memory agree. If the log refuses a write then, or an
    administrative call or the capture of a checkpoint throws, memory is unchanged, and
    a restart recovers the same, at most plus the write that was refused. *)
Theorem locked_calls_stay_recoverable st s :
  persistent host hash st → rtc goes_on (LSystem st ∅) s →
  ∃ ls, logged_by s ls ∧
    recovers host (lk_store s) (settled s ls) ∧
    (∀ t h key k g, lk_threads s !! t = Some (LThread h (Do (Read key) k) g) →
       perform (Read key) (lk_store s) = (Ok (settled s ls !! key), lk_store s)) ∧
    (ls = [] → persistent host hash (lk_store s)) ∧
    ∀ t r s', savable (contents_of (kv (lk_store s))) → moves t s (Some r) s' →
      contents_of (kv (lk_store s')) = contents_of (kv (lk_store s)) ∧
      (recovers host (lk_store s') (settled s ls) ∨
       ∃ r0, r = Some r0 ∧ recovers host (lk_store s') (apply_record r0 (settled s ls))).
Proof.
  intros Hp Hs. destruct (locked_run st s Hp Hs) as (Hw & ls & ph & o & Hls & Hc & Hinv).
  exists ls. split_and!; [done| | | |].
  - by apply (run_inv_recovers host hash _ Hinv).
  - intros t h key k g Ht. by eapply read_settled.
  - intros ->. destruct Hinv as (j & snap & rs1 & rs2 & base & [Ha _]%run_agrees_idle). by exists j, snap, rs1, rs2, base.
  - intros t r s' Hsav Hm. destruct (throws_fails _ _ _ _ _ _ _ Hw Hls Hc Hinv Hm) as (ph' & o' & Hinv' & Hf).
    exact (fails_recovers _ _ _ iterate_spec _ _ _ Hinv' Hsav Hf).
Qed.

End locks.

(** ** Power failures *)

Section power.
  Context {W : Type} `{JournalDurableLaws W} (host : endianness).
  Context (hash : bytes → Z) (iterate : gmap bytes bytes → list (bytes * bytes)).
  Context (iterate_spec : ∀ m, iterate m ≡ₚ map_to_list m).
  Implicit Types (st : store_state W) (t : nat).
  Local Abbreviation run := (@run W).

Lemma refined_hardened (u u' : run) :
  run_inv host hash u → hardened (run_store u) → rtc (refined host hash iterate) u u' →
  run_inv host hash u' ∧ hardened (run_store u').
Proof.
  intros Hinv Hh Hr. induction Hr as [|u u1 u2 [u0 u0' [Hsav Hstep]|st st' l ph o [Hsh Hp]] _ IH]; [done|..]; apply IH.
  - by eapply run_inv_step.
  - by eapply hardened_step.
  - by eapply run_inv_same.
  - by eapply hardened_same.
Qed.

(** The same under [Sync] and [GroupCommit] when the power fails. *)
Theorem locked_calls_survive_power_failure st s :
  durable_store host hash st → rtc (goes_on host hash iterate) (LSystem st ∅) s →
  ∃ ls, logged_by s ls ∧ survives host (lk_store s) [settled s ls] ∧
    ∀ t r s', savable (contents_of (kv (lk_store s))) → moves host hash iterate t s (Some r) s' →
      contents_of (kv (lk_store s')) = contents_of (kv (lk_store s)) ∧
      survives host (lk_store s') (refused (settled s ls) r).
Proof.
  intros [Hp Hh] Hs.
  destruct (reachable_refines host hash iterate st s Hs) as (Hw & [st' l ph o] & Hr & Hst & Hc & ls & Hls & Hl).
  cbn in *. subst st' l. apply persistent_inv in Hp.
  destruct (refined_hardened _ _ Hp Hh Hr) as [Hinv Hhu]. exists ls. split_and!; [done| |].
  - exact (hardened_now host hash _ Hinv Hhu).
  - intros t r s' Hsav Hm.
    destruct (throws_fails host hash iterate _ _ _ _ _ _ _ Hw Hls Hc Hinv Hm) as (ph' & o' & Hinv' & Hf).
    exact (hardened_fails _ _ _ iterate_spec _ _ _ Hinv' Hhu Hsav Hf).
Qed.

End power.
