(* ===== verification/CheckpointSignals.v ===== *)
(** * Requests, waiters and the condition variable

    The signalling of the checkpoint thread in [src/store/kv_store.cpp]:
    [ScheduleCheckpoint], [CancelPendingCheckpoint], [WaitForCheckpoints] and the
    two critical sections of [CheckpointLoop] share one condition variable. A step
    is what runs under [checkpoint_mutex_], or the notification that follows it.
    Destruction is left to [Checkpointing]: nobody may wait during it. *)

From S2P Require Import Prelude.

(** ** States *)

(** Where the checkpoint thread is: in the wait set; about to test its predicate;
    between the two critical sections; about to call [notify_all]. *)
Inductive loop_at := LoopBlocked | LoopReady | LoopWorking | LoopNotifies.

#[global] Instance loop_at_eq_dec : EqDecision loop_at.
Proof. solve_decision. Defined.

(** The flags, the thread, and the callers of [WaitForCheckpoints]: those in the
    wait set, and those about to test their predicate. *)
Record signals := Signals {
  sig_requested : bool;
  sig_active : bool;
  sig_loop : loop_at;
  sig_waiting : nat;
  sig_woken : nat
}.

(** The thread starts by testing its predicate. *)
Definition signals_init : signals := Signals false false LoopReady 0 0.

(** The predicate of [WaitForCheckpoints]. *)
Definition may_return (s : signals) : bool := negb (sig_requested s) && negb (sig_active s).

(** [notify_one] picks any thread of the wait set. *)
Inductive notify_one : signals → signals → Prop :=
| notify_nobody r a l w :
    l ≠ LoopBlocked → notify_one (Signals r a l 0 w) (Signals r a l 0 w)
| notify_loop r a n w :
    notify_one (Signals r a LoopBlocked n w) (Signals r a LoopReady n w)
| notify_waiter r a l n w :
    notify_one (Signals r a l (S n) w) (Signals r a l n (S w)).

(** ** Steps *)

(** The threads that are already inside: they go on by themselves. *)
Inductive internal : signals → signals → Prop :=
| loop_takes a n w :
    internal (Signals true a LoopReady n w) (Signals false true LoopWorking n w)
| loop_waits a n w :
    internal (Signals false a LoopReady n w) (Signals false a LoopBlocked n w)
| loop_done r a n w :
    internal (Signals r a LoopWorking n w) (Signals r false LoopNotifies n w)
| loop_notifies r a n w :
    internal (Signals r a LoopNotifies n w) (Signals r a LoopReady 0 (n + w))
| waiter_returns r a l n w :
    may_return (Signals r a l n w) = true →
    internal (Signals r a l n (S w)) (Signals r a l n w)
| waiter_waits r a l n w :
    may_return (Signals r a l n w) = false →
    internal (Signals r a l n (S w)) (Signals r a l (S n) w).

(** What calls bring. A failed checkpoint drops the request while it is active. *)
Inductive outside (cancel : bool) : signals → signals → Prop :=
| call_schedule s s' :
    notify_one (Signals true (sig_active s) (sig_loop s) (sig_waiting s) (sig_woken s)) s' →
    outside cancel s s'
| call_wait r a l n w : outside cancel (Signals r a l n w) (Signals r a l n (S w))
| call_fails r a n w : outside cancel (Signals r a LoopWorking n w) (Signals false a LoopWorking n w)
| call_cancel r a l n w :
    cancel = true → outside cancel (Signals r a l n w) (Signals false a l n w)
| wakes_spuriously r a l n w : outside cancel (Signals r a l (S n) w) (Signals r a l n (S w))
| loop_wakes_spuriously r a n w :
    outside cancel (Signals r a LoopBlocked n w) (Signals r a LoopReady n w).

Definition signal_step (cancel : bool) (s s' : signals) : Prop := internal s s' ∨ outside cancel s s'.

(** ** Without cancellation no wake-up is lost *)

Record signals_ok (s : signals) : Prop := {
  ok_active : sig_active s = match sig_loop s with LoopWorking => true | _ => false end;
  ok_blocked : sig_loop s = LoopBlocked → sig_requested s = false;
  ok_waiting : (0 < sig_waiting s)%nat →
    sig_requested s = true ∨ sig_active s = true ∨ sig_loop s = LoopNotifies
}.

Lemma signals_ok_step s s' : signals_ok s → signal_step false s s' → signals_ok s'.
Proof.
  intros [Ha Hb Hw] [Hs|Hs].
  - destruct Hs as [a n w|a n w|r a n w|r a n w|r a l n w Hp|r a l n w Hp]; cbn in *; subst; split; cbn;
      auto; try lia; try done.
    + intros Hn. by destruct (Hw Hn) as [?|[?|?]].
    + intros _. unfold may_return in Hp. cbn in Hp. destruct r; [by left|]. destruct l; auto; done.
  - destruct Hs as [[r a l n w] s' Hn|r a l n w|r a n w|r a l n w Hc|r a l n w|r a n w]; cbn in *; try done.
    + inversion Hn; subst; split; cbn in *; auto; try lia; try done.
      intros ->. assert (r = false) as -> by auto. by destruct Hw as [?|[?|?]]; [lia|..].
    + subst; split; cbn; auto.
    + split; cbn; auto.
    + subst. assert (r = false) as -> by auto. split; cbn; auto.
      intros Hn. by destruct (Hw Hn) as [?|[?|?]].
Qed.

Lemma signals_reachable_ok s : rtc (signal_step false) signals_init s → signals_ok s.
Proof.
  intros Hr. assert (∀ s0, signals_ok s0 → rtc (signal_step false) s0 s → signals_ok s) as Hgen.
  { intros s0 H0 H1. induction H1 as [|s0 s1 s2 Hs _ IH]; [done|]. by eauto using signals_ok_step. }
  eapply Hgen, Hr. split; cbn; [done|done|lia].
Qed.

(** ** Everybody comes back *)

(** The rounds of the loop that are left. *)
Definition loop_rank (s : signals) : nat :=
  match sig_loop s with
  | LoopBlocked => 0
  | LoopReady => 1
  | LoopNotifies => 2
  | LoopWorking => 3
  end + (if sig_requested s then 3 else 0).
Definition callers (s : signals) : nat := sig_waiting s + sig_woken s.
Definition signals_measure (s : signals) : nat :=
  loop_rank s * (2 * callers s + 1) + 2 * sig_woken s + sig_waiting s.

Lemma internal_decreases s s' :
  signals_ok s → internal s s' → (signals_measure s' < signals_measure s)%nat.
Proof.
  intros [Ha Hb Hw] Hs. unfold signals_measure, loop_rank, callers.
  destruct Hs as [a n w|a n w|r a n w|r a n w|r a l n w Hp|r a l n w Hp]; cbn in *;
    try (destruct r); try (destruct l); lia.
Qed.

(** In a state where the threads have nothing left to do, nobody waits. *)
Lemma internal_quiet s :
  signals_ok s → (∀ s', ¬ internal s s') → callers s = 0%nat ∧ sig_requested s = false.
Proof.
  destruct s as [r a l n w]. intros [Ha Hb Hw] Hq. cbn in *. unfold callers. cbn.
  assert (l = LoopBlocked) as ->.
  { destruct l; [done|..]; exfalso.
    - destruct r; eapply Hq; econstructor.
    - eapply Hq; econstructor.
    - eapply Hq; econstructor. }
  split; [|by apply Hb]. assert (w = O) as ->.
  { destruct w as [|w]; [done|]. exfalso.
    destruct (may_return (Signals r a LoopBlocked n w)) eqn:Hp; eapply Hq; by econstructor. }
  destruct n as [|n]; [done|]. subst a. rewrite Hb in Hw by done. by destruct Hw as [?|[?|?]]; [lia|..].
Qed.

(** C28: [WaitForCheckpoints] and the request signal cannot hang without
    cancellations: in every reachable state, whatever notifications went to whom
    and however often threads woke spuriously, the threads inside can take only
    finitely many more steps by themselves, and when none of them has a step left
    then every waiter has returned and no request is pending. *)
Theorem waiters_return s :
  rtc (signal_step false) signals_init s →
  sn internal s ∧
  (∀ s', rtc internal s s' → (∀ s'', ¬ internal s' s'') → callers s' = 0%nat ∧ sig_requested s' = false).
Proof.
  intros Hok%signals_reachable_ok. split.
  - remember (signals_measure s) as n eqn:Hn. revert s Hok Hn.
    induction n as [n IH] using lt_wf_ind. intros s Hok ->. constructor. intros s' Hs.
    eapply IH; [by apply internal_decreases|by apply (signals_ok_step s); [|left]|done].
  - intros s' Hr. apply internal_quiet. induction Hr as [|s1 s2 s3 Hs _ IH]; [done|].
    apply IH. by apply (signals_ok_step s1); [|left].
Qed.

(** C29: cancellation loses wake-ups. A cancelled request leaves a caller of
    [WaitForCheckpoints] in the wait set although it may return, with no thread
    left to wake it, because [CancelPendingCheckpoint] does not notify; and the
    [notify_one] of the next request may go to that caller, which waits again,
    while the checkpoint thread sleeps on with the request pending. *)
Theorem cancellation_loses_wakeups :
  ∃ s, rtc (signal_step true) signals_init s ∧
    may_return s = true ∧ sig_waiting s = 1%nat ∧ (∀ s', ¬ internal s s') ∧
    ∃ s1 s2, outside true s s1 ∧ rtc internal s1 s2 ∧
      sig_requested s2 = true ∧ sig_loop s2 = LoopBlocked ∧ ∀ s', ¬ internal s2 s'.
Proof.
  exists (Signals false false LoopBlocked 1 0). split; [|split; [done|split; [done|split]]].
  - eapply rtc_l; [left; apply loop_waits|].
    eapply rtc_l; [right; apply call_schedule, notify_loop|]. cbn.
    eapply rtc_l; [right; apply call_wait|].
    eapply rtc_l; [left; by apply waiter_waits|].
    eapply rtc_l; [right; by apply call_cancel|].
    eapply rtc_l; [left; apply loop_waits|]. apply rtc_refl.
  - intros s' Hs. inversion Hs.
  - exists (Signals true false LoopBlocked 0 1), (Signals true false LoopBlocked 1 0).
    split; [apply call_schedule, notify_waiter|]. split; [eapply rtc_l; [by apply waiter_waits|apply rtc_refl]|].
    split_and!; [done..|]. intros s' Hs. inversion Hs.
Qed.
