(* ===== verification/StringUtils.v ===== *)
(** * Text helpers: [src/common/string_utils.cpp]

    [Trim], [SplitWhitespaceView] and [ToUpper], with their loops over indices,
    and their specifications. *)

From S2P Require Import Prelude.

(** ** The functions *)

(** [std::isspace] and [std::toupper] of the C locale. *)
Definition isspace (b : byte) : bool :=
  let z := byte_val b in (z =? 32) || ((9 <=? z) && (z <=? 13)).

Definition toupper (b : byte) : byte :=
  let z := byte_val b in if (97 <=? z) && (z <=? 122) then byte_of_Z (z - 32) else b.

(** [while (index < input.size() && p(input[index])) ++index]. *)
Fixpoint scan (p : byte → bool) (fuel index : nat) (input : bytes) : nat :=
  match fuel with
  | O => index
  | S fuel =>
      match input !! index with
      | Some b => if p b then scan p fuel (S index) input else index
      | None => index
      end
  end.

(** [while (end > begin && isspace(input[end - 1])) --end]. *)
Fixpoint scan_back (begin_ end_ : nat) (input : bytes) : nat :=
  match end_ with
  | O => O
  | S e =>
      if (begin_ <? S e)%nat then
        match input !! e with
        | Some b => if isspace b then scan_back begin_ e input else S e
        | None => S e
        end
      else S e
  end.

Definition substr (off n : nat) (input : bytes) : bytes := take n (drop off input).

Definition Trim (input : bytes) : bytes :=
  let begin_ := scan isspace (length input) 0 input in
  let end_ := scan_back begin_ (length input) input in
  substr begin_ (end_ - begin_) input.

(** The outer loop. *)
Fixpoint split_loop (fuel index : nat) (tokens : list bytes) (input : bytes) : list bytes :=
  match fuel with
  | O => tokens
  | S fuel =>
      if (index <? length input)%nat then
        let begin_ := scan isspace (length input) index input in
        let index := scan (λ b, negb (isspace b)) (length input) begin_ input in
        let tokens :=
          if (begin_ <? index)%nat then tokens ++ [substr begin_ (index - begin_) input] else tokens in
        split_loop fuel index tokens input
      else tokens
  end.

Definition SplitWhitespaceView (input : bytes) : list bytes :=
  split_loop (length input) 0 [] input.

Definition ToUpper (input : bytes) : bytes := toupper <$> input.

(** ** Reference definitions *)

(** The longest prefix of bytes with the property, and the rest. *)
Fixpoint span (p : byte → bool) (l : bytes) : bytes * bytes :=
  match l with
  | [] => ([], [])
  | b :: l' => if p b then let (a, r) := span p l' in (b :: a, r) else ([], l)
  end.

(** The words of a text, by structural recursion: the word that starts here, if
    one does, and the others. *)
Fixpoint words_from (l : bytes) : bytes * list bytes :=
  match l with
  | [] => ([], [])
  | b :: l =>
      let (w, ws) := words_from l in
      if isspace b then ([], if bool_decide (w = []) then ws else w :: ws)
      else (b :: w, ws)
  end.
Definition words (l : bytes) : list bytes :=
  let (w, ws) := words_from l in if bool_decide (w = []) then ws else w :: ws.

Definition is_token (w : bytes) : Prop := w ≠ [] ∧ Forall (λ b, isspace b = false) w.
Definition blank (l : bytes) : Prop := Forall (λ b, isspace b = true) l.

(** ** Scanning *)

Lemma span_app p l : l = (span p l).1 ++ (span p l).2.
Proof.
  induction l as [|b l IH]; [done|]. cbn. destruct (p b); [|done].
  destruct (span p l) as [a r]. cbn in *. by rewrite IH at 1.
Qed.

Lemma span_all p l : Forall (λ b, p b = true) (span p l).1.
Proof.
  induction l as [|b l IH]; [constructor|]. cbn. destruct (p b) eqn:E; [|constructor].
  destruct (span p l) as [a r]. by constructor.
Qed.

Lemma span_stop p l : match (span p l).2 with [] => True | b :: _ => p b = false end.
Proof.
  induction l as [|b l IH]; [done|]. cbn. destruct (p b) eqn:E; [|done].
  by destruct (span p l) as [a r].
Qed.

Lemma scan_span p : ∀ fuel index input,
  (length input ≤ fuel + index)%nat → 
  scan p fuel index input = (index + length (span p (drop index input)).1)%nat.
Proof.
  induction fuel as [|fuel IH]; intros index input Hl; cbn [scan].
  { rewrite drop_ge by lia. cbn. lia. }
  destruct (input !! index) as [b|] eqn:E.
  - rewrite (drop_S _ _ _ E). cbn [span]. destruct (p b); [|cbn; lia].
    rewrite IH by lia. destruct (span p (drop (S index) input)) as [a r]. cbn. lia.
  - apply lookup_ge_None in E. rewrite drop_ge by done. cbn. lia.
Qed.

Lemma scan_back_spec : ∀ end_ begin_ input, (end_ ≤ length input)%nat → (begin_ ≤ end_)%nat →
  let e := scan_back begin_ end_ input in
  (begin_ ≤ e ≤ end_)%nat ∧ blank (substr e (end_ - e) input) ∧
  (begin_ < e → ∃ b, input !! pred e = Some b ∧ isspace b = false)%nat.
Proof.
  induction end_ as [|e IH]; intros begin_ input Hl Hb; cbn [scan_back].
  { split_and!; [lia|lia| |lia]. unfold substr. cbn. constructor. }
  assert (∀ n, blank (substr n (n - n) input)) as Hnil
    by (intros n; unfold substr; rewrite Nat.sub_diag; constructor).
  destruct (Nat.ltb_spec begin_ (S e)); [|split_and!; [lia|lia|apply Hnil|lia]].
  destruct (lookup_lt_is_Some_2 input e) as [b E]; [lia|]. rewrite E.
  destruct (isspace b) eqn:Hs.
  - destruct (IH begin_ input) as (He & Hbl & Hend); [lia..|]. cbn zeta in *.
    set (x := scan_back begin_ e input) in *. split_and!; [lia|lia| |done].
    unfold substr. replace (S e - x)%nat with ((e - x) + 1)%nat by lia.
    rewrite <-take_take_drop. apply Forall_app. split; [exact Hbl|].
    rewrite drop_drop. replace (x + (e - x))%nat with e by lia. rewrite (drop_S _ _ _ E). cbn.
    by repeat constructor.
  - split_and!; [lia|lia|apply Hnil|]. intros _. by exists b.
Qed.

(** ** Words *)

Lemma words_blank a l : blank a → words (a ++ l) = words l.
Proof.
  intros Ha. induction Ha as [|b a Hb _ IH]; [done|]. rewrite <-IH. unfold words. cbn [app words_from].
  destruct (words_from (a ++ l)) as [w ws]. by rewrite Hb.
Qed.

Lemma words_from_stop l :
  match l with [] => True | b :: _ => isspace b = true end → words_from l = ([], words l).
Proof.
  destruct l as [|b l]; [done|]. intros Hb. unfold words. cbn [words_from].
  destruct (words_from l) as [w ws]. by rewrite Hb.
Qed.

Lemma words_token a l :
  is_token a → match l with [] => True | b :: _ => isspace b = true end → words (a ++ l) = a :: words l.
Proof.
  intros [Hne Ha] Hl. assert (words_from (a ++ l) = (a, words l)) as Hw.
  { clear Hne. induction Ha as [|b a Hb _ IH]; [by apply words_from_stop|]. cbn [app words_from].
    by rewrite IH, Hb. }
  unfold words at 1. by rewrite Hw, bool_decide_false.
Qed.

Lemma words_are_tokens l : Forall is_token (words l).
Proof.
  assert (Forall (λ b, isspace b = false) (words_from l).1 ∧ Forall is_token (words_from l).2) as [H1 H2].
  { induction l as [|b l [IH1 IH2]]; [by split; constructor|]. cbn [words_from].
    destruct (words_from l) as [w ws]. cbn [fst snd] in *. destruct (isspace b) eqn:Hb; cbn [fst snd].
    - split; [constructor|]. case_bool_decide; [done|]. by constructor.
    - split; [by constructor|done]. }
  unfold words. destruct (words_from l) as [w ws]. case_bool_decide; [done|]. by constructor.
Qed.

(** Nothing but blanks is lost. *)
Lemma words_concat l : concat (words l) = filter (λ b, isspace b = false) l.
Proof.
  assert ((words_from l).1 ++ concat (words_from l).2 = filter (λ b, isspace b = false) l) as Hl.
  { induction l as [|b l IH]; [done|]. cbn [words_from]. destruct (words_from l) as [w ws].
    cbn [fst snd] in *. destruct (isspace b) eqn:Hb; cbn [fst snd].
    - rewrite filter_cons_False by congruence. rewrite <-IH. by case_bool_decide; subst.
    - rewrite filter_cons_True by done. cbn. by rewrite IH. }
  rewrite <-Hl. unfold words. destruct (words_from l) as [w ws]. by case_bool_decide; subst.
Qed.

Lemma split_loop_words : ∀ fuel index tokens input,
  (length input ≤ fuel + index)%nat → (index ≤ length input)%nat →
  split_loop fuel index tokens input = tokens ++ words (drop index input).
Proof.
  induction fuel as [|fuel IH]; intros index tokens input Hf Hi; cbn [split_loop].
  { rewrite drop_ge by lia. by rewrite app_nil_r. }
  destruct (Nat.ltb_spec index (length input)) as [Hlt|]; [|rewrite drop_ge by lia; by rewrite app_nil_r].
  rewrite (scan_span isspace) by lia.
  pose proof (span_app isspace (drop index input)) as H1.
  pose proof (span_all isspace (drop index input)) as Hb1.
  pose proof (span_stop isspace (drop index input)) as Hs1.
  destruct (span isspace (drop index input)) as [a r]. cbn [fst snd] in *.
  set (begin_ := (index + length a)%nat).
  assert (drop begin_ input = r) as Hr by (unfold begin_; by rewrite <-drop_drop, H1, drop_app_length).
  assert (length input - index = length a + length r)%nat as Hlen
    by (rewrite <-length_drop, H1, length_app; done).
  rewrite (scan_span (λ b, negb (isspace b))) by lia. rewrite Hr.
  pose proof (span_app (λ b, negb (isspace b)) r) as H2.
  pose proof (span_all (λ b, negb (isspace b)) r) as Hb2.
  pose proof (span_stop (λ b, negb (isspace b)) r) as Hs2.
  destruct (span (λ b, negb (isspace b)) r) as [t r2]. cbn [fst snd] in *.
  assert (length r = length t + length r2)%nat as Hlen2 by (rewrite H2, length_app; done).
  rewrite H1, words_blank by done.
  assert (drop (begin_ + length t) input = r2) as Hr2 by (by rewrite <-drop_drop, Hr, H2, drop_app_length).
  destruct (Nat.ltb_spec begin_ (begin_ + length t)) as [Ht|Ht].
  - rewrite IH by lia. rewrite Hr2. replace (begin_ + length t - begin_)%nat with (length t) by lia.
    unfold substr. rewrite Hr, H2, take_app_length. rewrite words_token.
    + by rewrite <-app_assoc.
    + split; [by intros ->; cbn in Ht; lia|]. eapply Forall_impl; [exact Hb2|]. by intros b ?%negb_true_iff.
    + destruct r2; [done|]. by apply negb_false_iff.
  - assert (t = []) as -> by (apply nil_length_inv; lia). destruct r as [|b r].
    + rewrite IH by (unfold begin_; lia). rewrite Hr2. cbn in H2. by subst r2.
    + cbn in H2. subst r2. by rewrite Hs1 in Hs2.
Qed.

(** C35: [SplitWhitespaceView], with its index arithmetic, is the list of words
    of the text: every token is non-empty and free of white space, the tokens in
    order are the text without its white space, and a text made of tokens
    separated by white space is split into exactly those tokens. *)
Theorem split_is_words input a t rest :
  SplitWhitespaceView input = words input ∧ Forall is_token (SplitWhitespaceView input) ∧
  concat (SplitWhitespaceView input) = filter (λ b, isspace b = false) input ∧
  (blank a → is_token t → match rest with [] => True | b :: _ => isspace b = true end →
   SplitWhitespaceView (a ++ t ++ rest) = t :: SplitWhitespaceView rest).
Proof.
  assert (∀ l, SplitWhitespaceView l = words l) as Hw.
  { intros l. unfold SplitWhitespaceView. rewrite split_loop_words by lia. done. }
  rewrite !Hw. split_and!; [done|apply words_are_tokens|apply words_concat|].
  intros Ha Ht Hr. by rewrite words_blank, words_token.
Qed.

(** ** Trimming *)

Lemma Trim_parts input :
  ∃ pre post, input = pre ++ Trim input ++ post ∧ blank pre ∧ blank post ∧
    (Trim input ≠ [] → ∃ b l, Trim input = b :: l ∧ isspace b = false) ∧
    (Trim input ≠ [] → ∃ l b, Trim input = l ++ [b] ∧ isspace b = false).
Proof.
  unfold Trim. rewrite scan_span by lia. change (drop 0 input) with input. rewrite Nat.add_0_l.
  pose proof (span_app isspace input) as H1.
  pose proof (span_all isspace input) as Hb1.
  pose proof (span_stop isspace input) as Hs1.
  destruct (span isspace input) as [a r]. cbn [fst snd] in *.
  assert (length input = length a + length r)%nat as Hlen by (rewrite H1, length_app; done).
  destruct (scan_back_spec (length input) (length a) input) as (He & Hbl & Hend); [lia..|].
  set (e := scan_back (length a) (length input) input) in *.
  assert (substr (length a) (e - length a) input = take (e - length a) r) as Hsub
    by (unfold substr; rewrite H1 at 1; by rewrite drop_app_length).
  assert (substr e (length input - e) input = drop (e - length a) r) as Hpost.
  { unfold substr. rewrite H1 at 2. rewrite drop_app_ge by lia. rewrite take_ge; [done|].
    rewrite length_drop. lia. }
  rewrite Hsub. exists a, (drop (e - length a) r). split_and!.
  - by rewrite take_drop.
  - done.
  - by rewrite <-Hpost.
  - intros Hne. destruct r as [|b r]; [by rewrite take_nil in Hne|].
    destruct (e - length a)%nat as [|n]; [done|]. by exists b, (take n r).
  - intros Hne. assert (length a < e)%nat as Hlt.
    { destruct (e - length a)%nat eqn:E; [by rewrite take_0 in Hne|lia]. }
    destruct (Hend Hlt) as (b & Hb & Hs). exists (take (pred (e - length a)) r), b. split; [|done].
    replace (e - length a)%nat with (S (pred (e - length a))) at 1 by lia. apply take_S_r.
    rewrite H1 in Hb. rewrite lookup_app_r in Hb by lia. rewrite <-Hb. f_equal. lia.
Qed.

(** The edges of a trimmed text. *)
Definition trimmed (l : bytes) : Prop :=
  l = [] ∨ ((∃ b l', l = b :: l' ∧ isspace b = false) ∧ ∃ l' b, l = l' ++ [b] ∧ isspace b = false).

Lemma blank_app_inj a1 a2 b1 b2 l1 l2 :
  blank a1 → blank a2 → isspace b1 = false → isspace b2 = false →
  a1 ++ b1 :: l1 = a2 ++ b2 :: l2 → a1 = a2 ∧ b1 :: l1 = b2 :: l2.
Proof.
  intros Ha1 Ha2 Hb1 Hb2. revert a2 Ha2. induction Ha1 as [|x a1 Hx _ IH]; intros a2 Ha2 Heq;
    destruct Ha2 as [|y a2 Hy Ha2]; cbn in *; simplify_eq; [done|congruence..|].
  by destruct (IH a2) as [-> ?].
Qed.

Lemma trimmed_unique p1 c1 q1 p2 c2 q2 :
  blank p1 → blank q1 → blank p2 → blank q2 → trimmed c1 → trimmed c2 →
  p1 ++ c1 ++ q1 = p2 ++ c2 ++ q2 → c1 = c2.
Proof.
  assert (∀ p c q l, blank l → trimmed c → p ++ c ++ q = l → c = []) as Hempty.
  { intros p c q l Hl [->|[(b & c' & -> & Hb) _]] Heq; [done|]. subst l. apply Forall_app in Hl as [_ Hl].
    cbn in Hl. apply Forall_cons in Hl as [? _]. congruence. }
  intros Hp1 Hq1 Hp2 Hq2 H1 H2 Heq.
  destruct H1 as [->|[(b1 & t1 & E1 & Hb1) (i1 & e1 & F1 & He1)]].
  { symmetry. apply (Hempty p2 c2 q2 (p1 ++ q1)); [by apply Forall_app|done|done]. }
  destruct H2 as [->|[(b2 & t2 & E2 & Hb2) (i2 & e2 & F2 & He2)]].
  { apply (Hempty p1 c1 q1 (p2 ++ q2)); [by apply Forall_app| |done]. right. split; eauto. }
  assert (c1 ++ q1 = c2 ++ q2) as Hcq.
  { rewrite E1, E2 in *. cbn [app] in *. by destruct (blank_app_inj p1 p2 b1 b2 (t1 ++ q1) (t2 ++ q2)). }
  assert (∀ (i : bytes) e q, reverse ((i ++ [e]) ++ q) = reverse q ++ e :: reverse i) as Hrev.
  { intros i e q. by rewrite !reverse_app, reverse_singleton. }
  apply (f_equal reverse) in Hcq. rewrite F1, F2, !Hrev in Hcq.
  destruct (blank_app_inj (reverse q1) (reverse q2) e1 e2 (reverse i1) (reverse i2)) as [_ Hi];
    [by apply Forall_reverse|by apply Forall_reverse|done..|].
  rewrite F1, F2. by simplify_eq.
Qed.

Lemma Trim_trimmed input : trimmed (Trim input).
Proof.
  destruct (Trim_parts input) as (pre & post & _ & _ & _ & Hb & He). unfold trimmed.
  destruct (decide (Trim input = [])); [by left|right; auto].
Qed.

Lemma Trim_id l : trimmed l → Trim l = l.
Proof.
  intros Hl. destruct (Trim_parts l) as (pre & post & Heq & Hpre & Hpost & _).
  symmetry. apply (trimmed_unique [] l [] pre (Trim l) post);
    [constructor..|done|done|done|apply Trim_trimmed|].
  by rewrite <-Heq, app_nil_r.
Qed.

Lemma words_trailing_blank l a : blank a → words (l ++ a) = words l.
Proof.
  intros Ha. assert (words_from (l ++ a) = words_from l) as Hw; [|unfold words; by rewrite Hw].
  induction l as [|b l IH]; cbn [app words_from]; [|by rewrite IH].
  rewrite words_from_stop by (by destruct Ha). by rewrite <-(app_nil_r a), words_blank.
Qed.

(** [Trim] removes exactly the white space around the text: what it takes
    off at both ends is blank, and what is left neither begins nor ends with white
    space; a text that is already trimmed is unchanged, and splitting a text and
    splitting the trimmed text give the same words. *)
Theorem trim_removes_outer_blanks input :
  (∃ pre post, input = pre ++ Trim input ++ post ∧ blank pre ∧ blank post) ∧
  (Trim input ≠ [] → ∃ b l, Trim input = b :: l ∧ isspace b = false) ∧
  (Trim input ≠ [] → ∃ l b, Trim input = l ++ [b] ∧ isspace b = false) ∧
  Trim (Trim input) = Trim input ∧
  SplitWhitespaceView (Trim input) = SplitWhitespaceView input.
Proof.
  destruct (Trim_parts input) as (pre & post & Heq & Hpre & Hpost & Hb & He).
  split; [by exists pre, post|]. split; [done|]. split; [done|]. split.
  - apply Trim_id, Trim_trimmed.
  - unfold SplitWhitespaceView. rewrite !split_loop_words by lia. change (drop 0 ?l) with l. cbn [app].
    rewrite Heq at 2. by rewrite words_blank, words_trailing_blank.
Qed.

Lemma Trim_nil input : Trim input = [] ↔ words input = [].
Proof.
  destruct (Trim_parts input) as (pre & post & Heq & Hpre & Hpost & Hb & He). rewrite Heq at 2.
  rewrite words_blank, words_trailing_blank by done. split; [by intros ->|]. intros Hw.
  pose proof (words_concat (Trim input)) as Hc. rewrite Hw in Hc. cbn in Hc.
  destruct (decide (Trim input = [])) as [|Hne]; [done|]. destruct (Hb Hne) as (b & l & Hl & Hs).
  rewrite Hl in Hc. by rewrite filter_cons_True in Hc.
Qed.

(** ** Upper case *)

Lemma toupper_idemp b : toupper (toupper b) = toupper b.
Proof. by destruct b. Qed.

Lemma toupper_isspace b : isspace (toupper b) = isspace b.
Proof. by destruct b. Qed.

Lemma ToUpper_idemp l : ToUpper (ToUpper l) = ToUpper l.
Proof. unfold ToUpper. rewrite <-list_fmap_compose. apply list_fmap_ext. intros ? b _. apply toupper_idemp. Qed.
