(* ===== verification/CommandParser.v ===== *)
(** * The command parser: [src/parser/cli_parser.cpp] and
    [include/parser/cli_parser.h] *)

From S2P Require Import Prelude StringUtils.

(** ** Commands *)

Inductive CommandType :=
| kInvalid | kSet | kGet | kDel | kClearPersistence | kCompactPersistence | kInfo | kHelp | kExit.

#[global] Instance CommandType_eq_dec : EqDecision CommandType.
Proof. solve_decision. Defined.

Record Command := {
  type : CommandType;
  key : bytes;
  value : bytes;
  error_message : bytes
}.

#[global] Instance Command_eq_dec : EqDecision Command.
Proof. solve_decision. Defined.

Definition IsValid (c : Command) : bool := negb (bool_decide (type c = kInvalid)).

(** A command of a type, with a key and a value. *)
Definition make_command (t : CommandType) (k v : bytes) : Command :=
  {| type := t; key := k; value := v; error_message := [] |}.

Definition MakeInvalidCommand (message : bytes) : Command :=
  {| type := kInvalid; key := []; value := []; error_message := message |}.

(** ** The parser *)

(** The loop of [JoinTokens]: [tokens] are those from [index] on. *)
Fixpoint join_loop (begin_index index : nat) (tokens : list bytes) (joined : bytes) : bytes :=
  match tokens with
  | [] => joined
  | t :: tokens =>
      let joined := if (begin_index <? index)%nat then joined ++ str " " else joined in
      join_loop begin_index (S index) tokens (joined ++ t)
  end.

Definition JoinTokens (tokens : list bytes) (begin_index : nat) : bytes :=
  join_loop begin_index begin_index (drop begin_index tokens) [].

(** [tokens[i]]. *)
Definition token_at (i : nat) (tokens : list bytes) : bytes := default [] (tokens !! i).

Definition Parse (input : bytes) : Command :=
  let trimmed := Trim input in
  if bool_decide (trimmed = []) then MakeInvalidCommand (str "empty command") else
  let tokens := SplitWhitespaceView trimmed in
  let verb := ToUpper (token_at 0 tokens) in
  let size := length tokens in
  let verb_is s := bool_decide (verb = str s) in
  if verb_is "SET"%string then
    if (size <? 3)%nat then MakeInvalidCommand (str "usage: SET <key> <value>")
    else make_command kSet (token_at 1 tokens) (JoinTokens tokens 2)
  else if verb_is "GET"%string then
    if negb (size =? 2)%nat then MakeInvalidCommand (str "usage: GET <key>")
    else make_command kGet (token_at 1 tokens) []
  else if verb_is "DEL"%string || verb_is "DELETE"%string then
    if negb (size =? 2)%nat then MakeInvalidCommand (str "usage: DELETE <key>")
    else make_command kDel (token_at 1 tokens) []
  else if verb_is "CLEAR_PERSISTENCE"%string || verb_is "CLEAR-PERSISTENCE"%string then
    if negb (size =? 1)%nat then MakeInvalidCommand (str "usage: CLEAR PERSISTENCE")
    else make_command kClearPersistence [] []
  else if verb_is "CLEAR"%string then
    if negb (size =? 2)%nat || negb (bool_decide (ToUpper (token_at 1 tokens) = str "PERSISTENCE"))
    then MakeInvalidCommand (str "usage: CLEAR PERSISTENCE")
    else make_command kClearPersistence [] []
  else if verb_is "COMPACT"%string || verb_is "SNAPSHOT"%string then
    if negb (size =? 1)%nat then MakeInvalidCommand (str "usage: COMPACT")
    else make_command kCompactPersistence [] []
  else if verb_is "INFO"%string || verb_is "VERSION"%string || verb_is "STATUS"%string then
    if negb (size =? 1)%nat then MakeInvalidCommand (str "usage: INFO")
    else make_command kInfo [] []
  else if verb_is "HELP"%string then make_command kHelp [] []
  else if verb_is "EXIT"%string || verb_is "QUIT"%string then make_command kExit [] []
  else MakeInvalidCommand (str "unknown command").

(** ** Joining and splitting *)

Lemma join_loop_app b i tokens joined :
  join_loop b i tokens joined = joined ++ join_loop b i tokens [].
Proof.
  revert i joined. induction tokens as [|t ts IH]; intros i joined; cbn [join_loop]; [by rewrite app_nil_r|].
  rewrite IH. symmetry. rewrite IH. destruct (b <? i)%nat; by rewrite <-!app_assoc.
Qed.

(** A value that survives the parser: words separated by single spaces. *)
Definition single_spaced (v : bytes) : Prop := v ≠ [] ∧ JoinTokens (words v) 0 = v.

Lemma words_token_end t : is_token t → words t = [t].
Proof. intros Ht. rewrite <-(app_nil_r t) at 1. by rewrite words_token. Qed.

Lemma words_join_more b i ts :
  (b < i)%nat → Forall is_token ts →
  words (join_loop b i ts []) = ts ∧ match join_loop b i ts [] with [] => True | c :: _ => isspace c = true end.
Proof.
  intros Hlt Hts. revert i Hlt. induction Hts as [|t ts Ht Hts IH]; intros i Hlt; [done|].
  cbn [join_loop]. destruct (Nat.ltb_spec b i); [|lia]. rewrite join_loop_app. split; [|done].
  destruct (IH (S i)) as [Hw Hs]; [lia|]. rewrite <-app_assoc. cbn [app].
  rewrite (words_blank (str " ")) by (by repeat constructor). by rewrite words_token, Hw.
Qed.

Lemma words_join ts : Forall is_token ts → words (JoinTokens ts 0) = ts.
Proof.
  intros Hts. destruct Hts as [|t ts Ht Hts]; [done|]. unfold JoinTokens. cbn [drop join_loop].
  cbn [Nat.ltb Nat.leb]. rewrite join_loop_app. cbn [app].
  destruct (words_join_more 0 1 ts) as [Hw Hs]; [lia|done|]. by rewrite words_token, Hw.
Qed.

Lemma join_loop_shift b i k ts acc : join_loop (b + k) (i + k) ts acc = join_loop b i ts acc.
Proof.
  revert i acc. induction ts as [|t ts IH]; intros i acc; cbn [join_loop]; [done|].
  replace (b + k <? i + k)%nat with (b <? i)%nat by (destruct (Nat.ltb_spec b i), (Nat.ltb_spec (b + k) (i + k)); lia).
  apply (IH (S i)).
Qed.

Lemma JoinTokens_drop n ts : JoinTokens ts n = JoinTokens (drop n ts) 0.
Proof. unfold JoinTokens. apply (join_loop_shift 0 0). Qed.

Lemma JoinTokens_nonempty ts : Forall is_token ts → ts ≠ [] → JoinTokens ts 0 ≠ [].
Proof. intros Hts Hne Hj. apply Hne. by rewrite <-(words_join ts Hts), Hj. Qed.

(** ** What the parser does *)

(** The dispatch on the tokens. *)
Lemma Parse_words input :
  SplitWhitespaceView (Trim input) = words input ∧ bool_decide (Trim input = []) = bool_decide (words input = []).
Proof.
  split; [|apply bool_decide_ext, Trim_nil].
  destruct (Trim_parts input) as (pre & post & Heq & Hpre & Hpost & _).
  unfold SplitWhitespaceView. rewrite split_loop_words by lia. change (drop 0 ?l) with l. cbn [app].
  rewrite Heq at 2. by rewrite words_blank, words_trailing_blank.
Qed.

Lemma Parse_ext i i' v v' ts :
  words i = v :: ts → words i' = v' :: ts → ToUpper v = ToUpper v' → Parse i = Parse i'.
Proof.
  intros Hi Hi' Hv. destruct (Parse_words i) as [Hs Ht], (Parse_words i') as [Hs' Ht'].
  unfold Parse. rewrite Ht, Ht', Hs, Hs', Hi, Hi'. rewrite !bool_decide_false by done.
  change (token_at 0 (v :: ts)) with v. change (token_at 0 (v' :: ts)) with v'. rewrite Hv.
  assert (∀ n, token_at (S n) (v :: ts) = token_at (S n) (v' :: ts)) as Ht1 by done.
  rewrite !Ht1. cbn [length]. by rewrite !(JoinTokens_drop 2).
Qed.

(** The fields a command of each type has. *)
Definition well_formed (c : Command) : Prop :=
  match type c with
  | kInvalid => key c = [] ∧ value c = [] ∧ error_message c ≠ []
  | kSet => is_token (key c) ∧ single_spaced (value c) ∧ error_message c = []
  | kGet | kDel => is_token (key c) ∧ value c = [] ∧ error_message c = []
  | _ => key c = [] ∧ value c = [] ∧ error_message c = []
  end.

(** One way to type a command. *)
Definition render (c : Command) : bytes :=
  match type c with
  | kInvalid => []
  | kSet => str "SET " ++ key c ++ str " " ++ value c
  | kGet => str "GET " ++ key c
  | kDel => str "DELETE " ++ key c
  | kClearPersistence => str "CLEAR PERSISTENCE"
  | kCompactPersistence => str "COMPACT"
  | kInfo => str "INFO"
  | kHelp => str "HELP"
  | kExit => str "EXIT"
  end.

Lemma token_at_token i ts : Forall is_token ts → (i < length ts)%nat → is_token (token_at i ts).
Proof.
  intros Hts Hi. destruct (lookup_lt_is_Some_2 _ _ Hi) as [t Ht]. unfold token_at. rewrite Ht.
  by eapply Forall_lookup_1.
Qed.

Lemma single_spaced_join ts : Forall is_token ts → ts ≠ [] → single_spaced (JoinTokens ts 0).
Proof. intros Hts Hne. split; [by apply JoinTokens_nonempty|by rewrite words_join]. Qed.

Lemma well_formed_invalid m : m ≠ [] → well_formed (MakeInvalidCommand m).
Proof. done. Qed.

Lemma if_cases {A} (P : A → Prop) (b : bool) x y :
  (b = true → P x) → (b = false → P y) → P (if b then x else y).
Proof. destruct b; auto. Qed.

(** C34: every line parses to a command whose fields are as its type requires: an
    invalid command carries a message and nothing else; the key of a [SET], [GET]
    or [DEL] is one non-empty word; the value of a [SET] is its words joined by
    single spaces, never empty. The parse depends only on the words of the line,
    and not on the case of the verb. *)
Theorem parse_well_formed input :
  well_formed (Parse input) ∧
  (∀ input', words input' = words input → Parse input' = Parse input) ∧
  (∀ input' v v' ts, words input = v :: ts → words input' = v' :: ts → ToUpper v = ToUpper v' →
     Parse input' = Parse input).
Proof.
  destruct (Parse_words input) as [Hs Ht]. pose proof (words_are_tokens input) as Htok. split_and!.
  - unfold Parse. rewrite Ht, Hs. repeat apply if_cases; intros;
      try (by apply well_formed_invalid); try done; cbn; split_and!; try done.
    all: repeat match goal with
                | Hx : (_ <? _)%nat = false |- _ => apply Nat.ltb_ge in Hx
                | Hx : negb (_ =? _)%nat = false |- _ => apply negb_false_iff, Nat.eqb_eq in Hx
                end.
    + apply token_at_token; [done|lia].
    + rewrite JoinTokens_drop. apply single_spaced_join; [by apply Forall_drop|].
      intros Hd%(f_equal length). rewrite length_drop in Hd. cbn in Hd. lia.
    + apply token_at_token; [done|lia].
    + apply token_at_token; [done|lia].
  - intros input' Hw. destruct (Parse_words input') as [Hs' Ht'].
    unfold Parse. by rewrite Ht, Ht', Hs, Hs', Hw.
  - intros input' v v' ts H1 H2 Hv. by eapply Parse_ext.
Qed.

(** A verb, a space, and the rest of the line. *)
Lemma words_verb verb rest :
  is_token (str verb) → words (str verb ++ str " " ++ rest) = str verb :: words rest.
Proof. intros Hv. rewrite words_token by done. f_equal. by rewrite words_blank by (by repeat constructor). Qed.

(** The tokens of a line, as the parser sees them. *)
Lemma Parse_tokens input ts (P : Command → Prop) :
  words input = ts → ts ≠ [] →
  (Trim input ≠ [] → SplitWhitespaceView (Trim input) = ts → P (Parse input)) → P (Parse input).
Proof.
  intros Hw Hne HP. destruct (Parse_words input) as [Hs Ht]. apply HP; [|by rewrite Hs].
  intros Htr. apply Hne. by rewrite <-Hw, <-Trim_nil.
Qed.

(** C33: a valid command is recovered from the line that spells it. *)
Theorem parse_render c : well_formed c → IsValid c = true → Parse (render c) = c.
Proof.
  destruct c as [t k v e]. unfold well_formed, IsValid, render. cbn [type key value error_message].
  destruct t; intros Hc Hv; try done; try (destruct Hc as (-> & -> & ->); vm_compute; reflexivity).
  - destruct Hc as (Hk & [Hne Hj] & ->).
    eapply (Parse_tokens _ (str "SET" :: k :: words v)); [|done|intros Htr Hs].
    { change (str "SET ") with (str "SET" ++ str " "). rewrite <-!app_assoc.
      rewrite words_verb by (by split; [|repeat constructor]). f_equal.
      rewrite words_token by done. f_equal. by rewrite words_blank by (by repeat constructor). }
    unfold Parse. rewrite Hs, bool_decide_false by done.
    destruct (words v) as [|w ws] eqn:Ewv; [by cbn in Hj; congruence|].
    rewrite JoinTokens_drop. cbn [drop]. rewrite Hj. reflexivity.
  - destruct Hc as (Hk & -> & ->). eapply (Parse_tokens _ [str "GET"; k]); [|done|intros Htr Hs].
    { change (str "GET ") with (str "GET" ++ str " "). rewrite <-!app_assoc.
      rewrite words_verb by (by split; [|repeat constructor]). f_equal. by apply words_token_end. }
    unfold Parse. by rewrite Hs, bool_decide_false.
  - destruct Hc as (Hk & -> & ->). eapply (Parse_tokens _ [str "DELETE"; k]); [|done|intros Htr Hs].
    { change (str "DELETE ") with (str "DELETE" ++ str " "). rewrite <-!app_assoc.
      rewrite words_verb by (by split; [|repeat constructor]). f_equal. by apply words_token_end. }
    unfold Parse. by rewrite Hs, bool_decide_false.
Qed.
