(* ===== verification/Server.v ===== *)
(** * The command loop: [src/server/cli_server.cpp] and
    [include/server/cli_server.h]

    The read-evaluate-print loop over an input text, and its refinement to a
    dialogue about one map. *)

From stdpp Require Import pretty.
From S2P Require Import Prelude Machine BinaryIO StringUtils CommandParser Journal SnapshotFile.
From S2P Require Import KVStore StoreSharding.

Section server.
  Context {W : Type} `{Journal W} (host : endianness).
  Context (hash : bytes → Z) (iterate : gmap bytes bytes → list (bytes * bytes)).
  (** The text of a [std::system_error]: the standard library composes it. *)
  Context (system_error_what : Z → bytes → bytes).
  (** [kProjectVersion], a macro that the build defines. *)
  Context (kProjectVersion : bytes).

Definition kConcurrencyModel : bytes :=
  str "64 shards: per-shard reader/writer locks; independent keys proceed concurrently".

(** ** State *)

(** The store, what was written to the output stream, and the flag [running]. *)
Record session := Session {
  ses_store : store_state W;
  ses_out : bytes;
  ses_running : bool
}.

Definition on_store {A} (m : M (store_state W) A) : M session A :=
  zoom ses_store (λ t s, Session t (ses_out s) (ses_running s)) m.
Definition emit (text : bytes) : M session unit :=
  modify (λ s, Session (ses_store s) (ses_out s ++ text) (ses_running s)).
Definition stop_running : M session unit :=
  modify (λ s, Session (ses_store s) (ses_out s) false).

Definition newline : bytes := [Byte.x0a].
Definition decimal (n : Z) : bytes := str (pretty n).

(** [error.what()] of an exception derived from [std::exception]; a fault hook may
    throw anything else. *)
Definition what (e : exn) : option bytes :=
  match e with
  | runtime_error m | invalid_argument m | logic_error m => Some m
  | system_error code m => Some (system_error_what code m)
  | hook_exception => None
  end.

(** ** The member functions *)

Definition PrintHelp : M session unit :=
  emit (str "Concurrent KV Store v" ++ kProjectVersion ++ newline) ;;;
  emit (str "Commands:" ++ newline) ;;;
  emit (str "  SET <key> <value>" ++ newline) ;;;
  emit (str "  GET <key>" ++ newline) ;;;
  emit (str "  DEL|DELETE <key>" ++ newline) ;;;
  emit (str "  COMPACT|SNAPSHOT" ++ newline) ;;;
  emit (str "  CLEAR PERSISTENCE" ++ newline) ;;;
  emit (str "  INFO|VERSION|STATUS" ++ newline) ;;;
  emit (str "  HELP" ++ newline) ;;;
  emit (str "  EXIT" ++ newline) ;;;
  emit (str "Concurrency: " ++ kConcurrencyModel ++ newline).

Definition PrintInfo : M session unit :=
  emit (str "Concurrent KV Store v" ++ kProjectVersion ++ newline) ;;;
  let! size := on_store Size in
  emit (str "entries: " ++ decimal size ++ newline) ;;;
  emit (str "concurrency: " ++ kConcurrencyModel ++ newline) ;;;
  emit (str "durability: default WAL is buffered (not crash-durable); "
        ++ str "Sync and GroupCommit require fdatasync before acknowledgement" ++ newline).

(** The body of the [try]. *)
Definition dispatch (c : Command) : M session unit :=
  match type c with
  | kSet =>
      on_store (Set_ hash (key c) (value c)) ;;;
      emit (str "OK" ++ newline)
  | kGet =>
      let! value := on_store (Get hash (key c)) in
      emit (default (str "(nil)") value ++ newline)
  | kDel =>
      let! erased := on_store (Delete hash (key c)) in
      emit (str (if erased then "1" else "0") ++ newline)
  | kClearPersistence =>
      on_store ClearPersistence ;;;
      emit (str "OK persistence cleared" ++ newline)
  | kCompactPersistence =>
      let! done := on_store (CompactPersistence host iterate) in
      if done : bool then emit (str "OK snapshot compacted" ++ newline)
      else emit (str "ERR snapshot persistence is not configured" ++ newline)
  | kInfo => PrintInfo
  | kHelp => PrintHelp
  | kExit => emit (str "Bye" ++ newline) ;;; stop_running
  | kInvalid => emit (str "ERR invalid command" ++ newline)
  end.

Definition error_reply (message : bytes) : bytes := str "ERR " ++ message ++ newline.

Definition Execute (c : Command) : M session unit :=
  if negb (IsValid c) then emit (error_reply (error_message c))
  else catch (dispatch c) (λ e, match what e with
                                | Some message => emit (error_reply message)
                                | None => throw e
                                end).

(** [std::getline]: the line and what is left of the input. *)
Definition getline (input : bytes) : option (bytes * bytes) :=
  match input with
  | [] => None
  | _ => let (line, rest) := span (λ b, negb (bool_decide (b = Byte.x0a))) input in
         Some (line, tail rest)
  end.

Definition prompt : bytes := str "kv-store> ".

(** The loop, for at most [fuel] turns; whether it came to an end. *)
Fixpoint Run (fuel : nat) (input : bytes) : M session bool :=
  match fuel with
  | O => ret false
  | S fuel =>
      let! running := gets ses_running in
      if negb running then ret true
      else
        emit prompt ;;;
        match getline input with
        | None => emit newline ;;; ret true
        | Some (line, rest) => Execute (Parse line) ;;; Run fuel rest
        end
  end.

(** ** The dialogue *)

Definition help_text : bytes :=
  str "Concurrent KV Store v" ++ kProjectVersion ++ newline ++
  str "Commands:" ++ newline ++ str "  SET <key> <value>" ++ newline ++
  str "  GET <key>" ++ newline ++ str "  DEL|DELETE <key>" ++ newline ++
  str "  COMPACT|SNAPSHOT" ++ newline ++ str "  CLEAR PERSISTENCE" ++ newline ++
  str "  INFO|VERSION|STATUS" ++ newline ++ str "  HELP" ++ newline ++ str "  EXIT" ++ newline ++
  str "Concurrency: " ++ kConcurrencyModel ++ newline.

Definition info_text (m : gmap bytes bytes) : bytes :=
  str "Concurrent KV Store v" ++ kProjectVersion ++ newline ++
  str "entries: " ++ decimal (Z.of_nat (base.size m)) ++ newline ++
  str "concurrency: " ++ kConcurrencyModel ++ newline ++
  str "durability: default WAL is buffered (not crash-durable); " ++
  str "Sync and GroupCommit require fdatasync before acknowledgement" ++ newline.

(** What a command answers and does, as a function of the map. *)
Definition answer (snapshots : bool) (m : gmap bytes bytes) (c : Command)
    : bytes * gmap bytes bytes * bool :=
  match type c with
  | kSet => (str "OK" ++ newline, <[key c := value c]> m, true)
  | kGet => (default (str "(nil)") (m !! key c) ++ newline, m, true)
  | kDel => (str (if bool_decide (is_Some (m !! key c)) then "1" else "0") ++ newline, delete (key c) m, true)
  | kClearPersistence => (str "OK persistence cleared" ++ newline, m, true)
  | kCompactPersistence =>
      ((if snapshots then str "OK snapshot compacted"
        else str "ERR snapshot persistence is not configured") ++ newline, m, true)
  | kInfo => (info_text m, m, true)
  | kHelp => (help_text, m, true)
  | kExit => (str "Bye" ++ newline, m, false)
  | kInvalid => (error_reply (error_message c), m, true)
  end.

(** The commands that use the log or the snapshot, which may fail. *)
Definition fallible (c : Command) : bool :=
  match type c with
  | kSet | kDel | kClearPersistence | kCompactPersistence => true
  | _ => false
  end.

(** The answer, or the report of a failure that changed nothing. *)
Definition answers (snapshots : bool) m c (reply : bytes) m' (running : bool) : Prop :=
  (reply, m', running) = answer snapshots m c ∨
  fallible c = true ∧ ∃ e message, what e = Some message ∧ reply = error_reply message ∧ m' = m ∧ running = true.

(** From the prompt on. *)
Inductive dialogue (snapshots : bool) : bytes → gmap bytes bytes → bytes → gmap bytes bytes → Prop :=
| dialogue_eof input m :
    getline input = None → dialogue snapshots input m (prompt ++ newline) m
| dialogue_exit input line rest m reply m' :
    getline input = Some (line, rest) → answers snapshots m (Parse line) reply m' false →
    dialogue snapshots input m (prompt ++ reply) m'
| dialogue_more input line rest m reply m' out m'' :
    getline input = Some (line, rest) → answers snapshots m (Parse line) reply m' true →
    dialogue snapshots rest m' out m'' →
    dialogue snapshots input m (prompt ++ reply ++ out) m''.

(** ** Calls of the store that keep the map *)

Section same_map.
  Context (t0 : store_state W).

Definition same_map (t : store_state W) : Prop :=
  shards_ (kv t) = shards_ (kv t0) ∧ snapshot_ (kv t) = snapshot_ (kv t0).

Lemma same_map_wal {A} (null : A) (m : M (W * world) A) : keeps same_map (on_wal_ptr null m).
Proof.
  intros t Ht. apply wp_on_wal_ptr_shards; intros ? t' [Hk]; unfold same_map in *; rewrite Hk; exact Ht.
Qed.

Lemma same_map_machine {A} (m : M world A) : keeps same_map (on_machine m).
Proof. intros t Ht. apply wp_zoom. unfold wp. by destruct (m (kv_os t)) as [[] ?]. Qed.

Lemma same_map_kv f :
  (∀ s, shards_ (f s) = shards_ s ∧ snapshot_ (f s) = snapshot_ s) → keeps same_map (on_kv f).
Proof.
  intros Hf. apply keeps_modify. intros t [Hs Hn]. destruct (Hf (kv t)). split; cbn; congruence.
Qed.

Lemma same_map_ClearPersistence : keeps same_map ClearPersistence.
Proof.
  unfold ClearPersistence, CancelPendingCheckpoint, with_snapshot.
  repeat first [keeps_step | apply same_map_wal | apply same_map_machine | by apply same_map_kv].
Qed.

Lemma same_map_Compact : keeps same_map (CompactPersistence host iterate).
Proof.
  unfold CompactPersistence, CompactPersistenceLocked, CancelPendingCheckpoint, with_snapshot.
  repeat first [keeps_step | apply same_map_wal | apply same_map_machine | by apply same_map_kv].
Qed.

End same_map.

(** Whether the compaction could be done. *)
Lemma wp_Compact_result t :
  wp (CompactPersistence host iterate)
    (λ b _, b = bool_decide (is_Some (snapshot_ (kv t)))) (λ _ _, True) t.
Proof.
  unfold CompactPersistence, CompactPersistenceLocked, CancelPendingCheckpoint, with_snapshot, on_kv.
  do 4 wp_step. cbn [kv snapshot_ set_checkpoint]. destruct (snapshot_ (kv t)) as [snap|]; [|by wp_step].
  do 3 wp_step. unfold on_machine. wp_step. unfold wp at 1. destruct (SaveVerified _ _ _ _ _) as [[]]; [|done].
  wp_step. apply wp_on_wal_ptr_shards; [|done]. intros ? ? _. by wp_steps.
Qed.

(** ** One command *)

Lemma wp_on_store {A} (m : M (store_state W) A) s (Q : A → session → Prop) E :
  wp m (λ a t, Q a (Session t (ses_out s) (ses_running s)))
    (λ e t, E e (Session t (ses_out s) (ses_running s))) (ses_store s) →
  wp (on_store m) Q E s.
Proof. intros Hm. by apply wp_zoom. Qed.

Lemma wp_emit text s (Q : unit → session → Prop) E :
  Q tt (Session (ses_store s) (ses_out s ++ text) (ses_running s)) → wp (emit text) Q E s.
Proof. done. Qed.

(** Runs a sequence of writes, keeping the state in normal form. *)
Ltac emit_steps :=
  repeat (first [apply wp_emit | wp_step; apply wp_emit]; cbn [ses_store ses_out ses_running]).

(** The invariant of a session. *)
Definition serving (snapshots : bool) (m : gmap bytes bytes) (s : session) : Prop :=
  store_ok hash (kv (ses_store s)) ∧ contents_of (kv (ses_store s)) = m ∧
  snapshots = bool_decide (is_Some (snapshot_ (kv (ses_store s)))).

Lemma serving_same snapshots m s t out running :
  serving snapshots m s → same_map (ses_store s) t → serving snapshots m (Session t out running).
Proof.
  intros (Hok & Hm & Hs) [Ht Hsn]. unfold serving, store_ok, contents_of in *. cbn. by rewrite Ht, Hsn.
Qed.

Lemma wp_dispatch snapshots m c s :
  serving snapshots m s → ses_running s = true → IsValid c = true →
  wp (dispatch c)
    (λ _ s', ∃ reply m' running, (reply, m', running) = answer snapshots m c ∧
       serving snapshots m' s' ∧ ses_running s' = running ∧ ses_out s' = ses_out s ++ reply)
    (λ _ s', fallible c = true ∧ serving snapshots m s' ∧ ses_running s' = true ∧ ses_out s' = ses_out s) s.
Proof.
  intros Hser Hrun Hvalid. pose proof Hser as (Hok & Hm & Hsnap). unfold dispatch, answer, fallible.
  destruct (type c) eqn:Htype.
  - unfold IsValid in Hvalid. by rewrite Htype in Hvalid.
  - wp_step. apply wp_on_store. eapply wp_mono; [by apply wp_Set_refines| |]; cbn beta.
    + intros [] t (Hok' & Hm' & Hs'). apply wp_emit. eexists _, _, _. split_and!; [done| |done|done].
      split; [done|]. split; [cbn; congruence|]. cbn. by rewrite Hs'.
    + intros e t [Ht Hs']. split; [done|]. split; [|done]. by eapply serving_same.
  - wp_step. apply wp_on_store. unfold wp at 1. rewrite Get_contents by done. apply wp_emit.
    eexists _, _, _. split_and!; [by rewrite <-Hm|by eapply serving_same|done|done].
  - wp_step. apply wp_on_store. eapply wp_mono; [by apply wp_Delete_refines| |]; cbn beta.
    + intros b t (Hok' & Hm' & -> & Hs'). apply wp_emit. eexists _, _, _. rewrite Hm in *.
      split_and!; [done| |done|done]. split; [done|]. split; [cbn; congruence|]. cbn. by rewrite Hs'.
    + intros e t [Ht Hs']. split; [done|]. split; [|done]. by eapply serving_same.
  - wp_step. apply wp_on_store. eapply wp_mono; [by apply (same_map_ClearPersistence (ses_store s))| |]; cbn beta.
    + intros [] t Ht. apply wp_emit. eexists _, _, _. split_and!; [done| |done|done]. by eapply serving_same.
    + intros e t Ht. split; [done|]. split; [|done]. by eapply serving_same.
  - wp_step. apply wp_on_store.
    eapply wp_mono; [apply (wp_keeps (same_map (ses_store s))); [apply same_map_Compact|done|apply wp_Compact_result]| |];
      cbn beta.
    + intros b t [-> Ht]. rewrite <-Hsnap.
      destruct snapshots; apply wp_emit; eexists _, _, _;
        (split_and!; [done|by eapply serving_same|done|done]).
    + intros e t [_ Ht]. split; [done|]. split; [|done]. by eapply serving_same.
  - unfold PrintInfo. wp_step. apply wp_emit. wp_step. apply wp_on_store. unfold wp at 1.
    cbn [ses_store]. rewrite (Size_contents hash) by done. emit_steps. eexists _, _, _. split_and!; [done|by eapply serving_same|done|].
    cbn [ses_out]. unfold info_text. rewrite Hm. by rewrite <-!app_assoc.
  - unfold PrintHelp. emit_steps. eexists _, _, _. split_and!; [done|by eapply serving_same|done|].
    cbn [ses_out]. unfold help_text. by rewrite <-!app_assoc.
  - wp_step. apply wp_emit. unfold stop_running. wp_step. eexists _, _, _.
    split_and!; [done|by eapply serving_same|done|done].
Qed.

Lemma wp_Execute snapshots m c s :
  serving snapshots m s → ses_running s = true →
  wp (Execute c)
    (λ _ s', ∃ reply m' running, answers snapshots m c reply m' running ∧
       serving snapshots m' s' ∧ ses_running s' = running ∧ ses_out s' = ses_out s ++ reply)
    (λ e s', what e = None ∧ serving snapshots m s' ∧ ses_out s' = ses_out s) s.
Proof.
  intros Hser Hrun. unfold Execute. destruct (IsValid c) eqn:Hv; cbn [negb].
  - wp_step. eapply wp_mono; [by apply wp_dispatch| |]; cbn beta.
    + intros [] s' (reply & m' & running & Ha & Hrest). exists reply, m', running. by split; [left|].
    + intros e s' (Hfall & Hser' & Hrun' & Hout). destruct (what e) as [message|] eqn:Hw; [|by wp_step].
      apply wp_emit. exists (error_reply message), m, true. split_and!; [right; split; [done|by exists e, message]|done|done|].
      cbn [ses_out]. by rewrite Hout.
  - apply wp_emit. eexists _, m, true. split_and!; [|done..]. left. unfold answer, IsValid in *.
    apply negb_false_iff, bool_decide_eq_true in Hv. by rewrite Hv.
Qed.

(** ** The loop *)

Lemma getline_shorter input line rest :
  getline input = Some (line, rest) → (length rest < length input)%nat.
Proof.
  destruct input as [|b input]; [done|]. unfold getline.
  pose proof (span_app (λ b, negb (bool_decide (b = Byte.x0a))) (b :: input)) as Hs.
  destruct (span _ (b :: input)) as [l r]. cbn [fst snd] in Hs. intros [= <- <-].
  apply (f_equal length) in Hs. rewrite length_app in Hs. cbn [length] in *.
  destruct r; cbn [tail length] in *; lia.
Qed.

Lemma wp_Run snapshots : ∀ fuel input m s,
  serving snapshots m s → ses_running s = true → (length input < fuel)%nat →
  wp (Run fuel input)
    (λ b s', b = true ∧ ∃ out m', dialogue snapshots input m out m' ∧ serving snapshots m' s' ∧
             ses_out s' = ses_out s ++ out)
    (λ e _, what e = None) s.
Proof.
  induction fuel as [|fuel IH]; intros input m s Hser Hrun Hf; [lia|]. cbn [Run].
  do 2 wp_step. rewrite Hrun. cbn [negb]. wp_step. apply wp_emit.
  destruct (getline input) as [[line rest]|] eqn:Hline.
  - wp_step. eapply wp_mono; [by apply (wp_Execute snapshots m)| |]; cbn beta; [|by intros e s' [? _]].
    intros [] s' (reply & m' & running & Ha & Hser' & Hrun' & Hout). cbn [ses_out ses_store] in *.
    apply getline_shorter in Hline as Hlt. destruct running.
    + eapply wp_mono; [apply (IH rest m'); [done..|lia]| |done]. cbn beta.
      intros b s'' (-> & out & m'' & Hd & Hser'' & Hout''). split; [done|].
      exists (prompt ++ reply ++ out), m''. split_and!; [by eapply dialogue_more|done|].
      by rewrite Hout'', Hout, <-!app_assoc.
    + destruct fuel as [|fuel]; [lia|]. cbn [Run]. do 2 wp_step. rewrite Hrun'. cbn [negb]. wp_step.
      split; [done|]. exists (prompt ++ reply), m'. split_and!; [by eapply dialogue_exit|done|].
      by rewrite Hout, <-app_assoc.
  - wp_step. apply wp_emit. wp_step. split; [done|]. exists (prompt ++ newline), m.
    split_and!; [by apply dialogue_eof|done|]. cbn. by rewrite <-app_assoc.
Qed.

(** C32: the command loop terminates on every input, and what it prints is a
    dialogue about one map: each line is answered by what [Set], [Get], [Delete]
    and the others mean for the map, or, if it uses the log or the snapshot, by an
    [ERR] line for a failure, which leaves the map as it was and the loop running; it
    ends at [EXIT] or at the end of the input. The only exceptions that leave it are not derived from
    [std::exception]. *)
Theorem run_is_a_dialogue input snapshots m s :
  serving snapshots m s → ses_running s = true →
  wp (Run (S (length input)) input)
    (λ b s', b = true ∧ ∃ out m', dialogue snapshots input m out m' ∧ serving snapshots m' s' ∧
             ses_out s' = ses_out s ++ out)
    (λ e _, what e = None) s.
Proof. intros Hser Hrun. by apply wp_Run; [..|lia]. Qed.

(** Without persistence the store has nothing that can fail. *)
Lemma dispatch_no_failure c s :
  wal_ (kv (ses_store s)) = None → snapshot_ (kv (ses_store s)) = None →
  wp (dispatch c) (λ _ _, True) (λ _ _, False) s.
Proof.
  intros Hw Hs. assert (CheckCheckpointError (ses_store s) = (Ok tt, ses_store s)) as Hcheck.
  { unfold CheckCheckpointError, bind, gets. by rewrite Hs. }
  unfold dispatch. destruct (type c); unfold PrintInfo, PrintHelp; emit_steps; try done.
  all: wp_step; apply wp_on_store.
  - unfold Set_. wp_step. unfold wp at 1. rewrite Hcheck. wp_step. unfold wp at 1, on_wal_ptr. rewrite Hw.
    unfold on_kv. do 2 wp_step. unfold count_write. do 2 wp_step. cbn. rewrite Hs. by emit_steps.
  - unfold Delete. wp_step. unfold wp at 1. rewrite Hcheck. wp_step. unfold wp at 1, on_wal_ptr. rewrite Hw.
    unfold on_kv. do 4 wp_step. wp_step. unfold count_write. do 2 wp_step. cbn. rewrite Hs. do 2 wp_step. by emit_steps.
  - unfold ClearPersistence, CancelPendingCheckpoint, with_snapshot, on_kv. do 3 wp_step.
    unfold wp at 1, on_wal_ptr. cbn [kv wal_ set_checkpoint]. rewrite Hw. do 3 wp_step.
    cbn [kv snapshot_ set_checkpoint]. rewrite Hs. do 2 wp_step. by emit_steps.
  - unfold CompactPersistence, CancelPendingCheckpoint, CompactPersistenceLocked, with_snapshot, on_kv.
    do 4 wp_step. cbn [kv snapshot_ set_checkpoint]. rewrite Hs. wp_step. by emit_steps.
Qed.

(** One command on a store, whatever its log and snapshot do: exactly one
    reply is written, and the map afterwards is the one the reply speaks of; in a
    store without persistence the reply never is an error report, so the loop is
    exactly the map. *)
Theorem execute_answers c snapshots m s :
  serving snapshots m s → ses_running s = true →
  wp (Execute c)
    (λ _ s', ∃ reply m' running, answers snapshots m c reply m' running ∧
       serving snapshots m' s' ∧ ses_running s' = running ∧ ses_out s' = ses_out s ++ reply)
    (λ e _, what e = None) s ∧
  (wal_ (kv (ses_store s)) = None → snapshot_ (kv (ses_store s)) = None →
   wp (Execute c)
     (λ _ s', (ses_out s', contents_of (kv (ses_store s')), ses_running s')
              = let '(reply, m', running) := answer snapshots m c in (ses_out s ++ reply, m', running))
     (λ _ _, False) s).
Proof.
  intros Hser Hrun. split.
  { eapply wp_mono; [by apply (wp_Execute snapshots m)|done|]. by intros e s' [? _]. }
  intros Hw Hs. unfold Execute. destruct (IsValid c) eqn:Hv; cbn [negb].
  - wp_step. eapply wp_mono; [apply wp_and; [by apply wp_dispatch|by apply dispatch_no_failure]| |]; cbn beta.
    + intros [] s' [(reply & m' & running & <- & (_ & <- & _) & Hr & Ho) _]. by rewrite Hr, Ho.
    + by intros e s' [_ ?].
  - apply wp_emit. destruct Hser as (_ & <- & _). unfold answer, IsValid in *.
    apply negb_false_iff, bool_decide_eq_true in Hv. rewrite Hv. cbn. by rewrite Hrun.
Qed.

End server.
