(* ===== verification/MainProgram.v ===== *)
(** * The program: [src/main.cpp]

    The wiring of the components, and what a whole run of the program does. *)

From S2P Require Import Prelude Machine BinaryIO Crc WalFormat WalReplay WalLog WalDurability.
From S2P Require Import WalMaintenance SnapshotFile Journal KVStore StoreSharding StorePersistence.
From S2P Require Import Checkpointing StringUtils CommandParser Server.

Section main.
  Context (host : endianness).
  Context (hash : bytes → Z) (iterate : gmap bytes bytes → list (bytes * bytes)).
  Context (iterate_spec : ∀ m, iterate m ≡ₚ map_to_list m).
  Context (system_error_what : Z → bytes → bytes) (kProjectVersion : bytes).

(** The store runs on the write-ahead log. *)
#[local] Instance main_journal : Journal WriteAheadLog := wal_journal host.
#[local] Instance main_journal_spec : JournalSpec WriteAheadLog := wal_journal_spec host.
#[local] Instance main_journal_laws : JournalLaws WriteAheadLog := wal_journal_laws host.

(** The default arguments of the constructors. *)
Definition default_wal_config : wal_config :=
  {| path_ := str "kv_store.wal"; policy_ := Buffered; max_batch_ := 32; max_delay_us_ := 20;
     fault_hook_ := false |}.
Definition default_snapshot : Snapshot :=
  {| snapshot_path := str "kv_store.snapshot"; snapshot_fault_hook := false |}.

(** What the process writes, and the machine. *)
Record process := Process { cout : bytes; cerr : bytes; machine : world }.

Definition say (text : bytes) : M process unit :=
  modify (λ p, Process (cout p ++ text) (cerr p) (machine p)).
Definition complain (text : bytes) : M process unit :=
  modify (λ p, Process (cout p) (cerr p ++ text) (machine p)).
Definition on_process {A} (m : M world A) : M process A :=
  zoom machine (λ w p, Process (cout p) (cerr p) w) m.

(** The scope of the store: it is local, so its state is made here; its output
    goes to [cout]. The result is the log, which outlives it. *)
Definition with_store (s0 : KVStore WriteAheadLog) (m : M (session (W := WriteAheadLog)) unit)
    : M process (option WriteAheadLog) :=
  λ p, let (r, s) := m (Session (StoreState s0 (machine p)) (cout p) true) in
       let p' := Process (ses_out s) (cerr p) (kv_os (ses_store s)) in
       match r with Ok _ => (Ok (wal_ (kv (ses_store s))), p') | Exn e => (Exn e, p') end.

(** Loading, the loop, and the destructor of the store. *)
Definition serve (wal : WriteAheadLog) (input : bytes) : M (session (W := WriteAheadLog)) unit :=
  emit (str "Loading snapshot..." ++ newline) ;;;
  let! snapshot_result := on_store (LoadSnapshot host hash iterate default_snapshot) in
  emit (str "Loaded " ++ decimal (entry_count snapshot_result) ++ str " snapshot entrie(s)" ++ newline) ;;;
  emit (str "Replaying WAL..." ++ newline) ;;;
  let! recovered_operations :=
    on_store (ReplayFromWal hash iterate wal (wal_offset snapshot_result)) in
  emit (str "Recovered " ++ decimal recovered_operations ++ str " operation(s)" ++ newline) ;;;
  let! ended :=
    Run host hash iterate system_error_what kProjectVersion (S (length input)) input in
  let! joined := on_store (destroy host iterate 2) in
  ret tt.

(** The destructor of the log. *)
Definition close_log (wal : option WriteAheadLog) : M process unit :=
  match wal with
  | None => ret tt
  | Some j => on_process (zoom (λ w, WalState j w) (λ s _, os s) close_wal)
  end.

(** [main]. The result is the exit status; an exception that leaves it ends the
    process. *)
Definition main (argc : Z) (program : bytes) (input : bytes) : M process Z :=
  if 1 <? argc then
    complain (str "usage: " ++ program ++ newline) ;;; ret 1
  else
    say (str "Concurrent KV Store v" ++ kProjectVersion ++ newline) ;;;
    say (str "Concurrency: " ++ kConcurrencyModel ++ newline) ;;;
    let! wal := on_process (open_wal host default_wal_config) in
    let! wal := with_store (new_store (Some wal) (Some default_snapshot)) (serve wal input) in
    close_log wal ;;;
    ret 0.

(** ** A run of the program *)

Definition banner : bytes :=
  str "Concurrent KV Store v" ++ kProjectVersion ++ newline ++
  str "Concurrency: " ++ kConcurrencyModel ++ newline.

Definition startup_report (entries operations : Z) : bytes :=
  str "Loading snapshot..." ++ newline ++
  str "Loaded " ++ decimal entries ++ str " snapshot entrie(s)" ++ newline ++
  str "Replaying WAL..." ++ newline ++
  str "Recovered " ++ decimal operations ++ str " operation(s)" ++ newline.

(** What a restart on the files of [w] recovers, and the counts that are
    reported. *)
Definition recovered_from (wal : WriteAheadLog) (w : world) (entries operations : Z)
    (m : gmap bytes bytes) : Prop :=
  ∃ r base, Load host (file_contents (snapshot_path default_snapshot) w) ∅ = (Ok r, base) ∧
    entries = entry_count r ∧ wal_replay_from host wal w (wal_offset r) base = Ok (operations, m).

Local Abbreviation Dialogue := (dialogue system_error_what kProjectVersion true).
Local Abbreviation What := (what system_error_what).

Lemma wp_serve wal input w out :
  wp (serve wal input)
    (λ _ s', ∃ entries operations m text m',
       recovered_from wal w entries operations m ∧ Dialogue input m text m' ∧
       ses_out s' = out ++ startup_report entries operations ++ text)
    (λ e _, recover host wal default_snapshot w = Exn e ∨ What e = None)
    (Session (StoreState (new_store (Some wal) (Some default_snapshot)) w) out true).
Proof.
  unfold serve. wp_step. apply wp_emit. wp_step. apply wp_on_store. cbn [ses_store ses_out ses_running].
  apply (wp_LoadSnapshot host hash iterate iterate_spec); [apply length_replicate| |].
  2: { intros e base t Hload _ _. left. cbn [kv_os] in Hload. unfold recover. by rewrite Hload. }
  intros r base t Hload Hok Hcon [Hw Hs Ho]. cbn [kv kv_os wal_ snapshot_ new_store] in *.
  wp_step. apply wp_emit. wp_step. apply wp_emit. wp_step. apply wp_on_store.
  cbn [ses_store ses_out ses_running].
  apply (wp_ReplayFromWal hash iterate iterate_spec); [done| |]; rewrite Hcon, Ho.
  2: { intros e Hrep. left. unfold recover. rewrite Hload. by rewrite Hrep. }
  intros n m t' Hrep Hok' Hcon' [Hw' Hs' Ho'].
  wp_step. apply wp_emit. cbn [ses_store ses_out ses_running]. wp_step.
  match goal with |- wp _ _ _ ?x => set (s0 := x) end.
  assert (serving hash true m s0) as Hser.
  { split; [done|]. split; [done|]. cbn. by rewrite Hs', Hs. }
  eapply wp_mono; [apply (wp_Run host hash iterate system_error_what kProjectVersion true);
                   [exact Hser|done|lia]| |]; cbn beta; [|by auto].
  intros b s' (_ & text & m' & Hd & _ & Hout). wp_step. apply wp_on_store.
  eapply wp_mono; [apply destroy_no_throw| |done]. cbn beta. intros joined t'' _. wp_step.
  exists (entry_count r), n, m, text, m'. split_and!; [by exists r, base|done|].
  cbn [ses_out]. rewrite Hout. cbn [s0 ses_out]. unfold startup_report. by rewrite <-!app_assoc.
Qed.

(** The destructor of the log never throws. *)
Lemma writer_turn_no_throw s : wp writer_turn (λ _ _, True) (λ _ _, False) s.
Proof.
  unfold writer_turn, form_batch. do 3 wal_step. destruct (take_batch _ _ _ _) as [batch rest].
  wal_step. wal_step. wal_step. unfold commit_batch. wal_step. wal_step. unfold fail_queue.
  eapply wp_mono with (Q := λ _ _, True) (E := λ _ _, True); cbn beta.
  - unfold wp. by destruct (_ : res _ * wal_state) as [[] ?].
  - intros o s' _. by wal_steps.
  - intros e s' _. by wal_steps.
Qed.

Lemma close_wal_no_throw s : wp close_wal (λ _ _, True) (λ _ _, False) s.
Proof.
  unfold close_wal. do 4 wal_step. wal_step.
  assert (∀ n x, wp (drain_queue n) (λ _ _, True) (λ _ _, False) x) as Hdrain.
  { induction n as [|n IH]; intros x; [done|]. cbn [drain_queue]. do 2 wal_step.
    destruct (queue_ _); [done|]. wal_step.
    eapply wp_mono; [apply writer_turn_no_throw| |done]. intros [] x' _; [apply IH|done]. }
  eapply wp_mono; [apply Hdrain| |done]. intros [] s' _. wal_step. wal_step. do 3 wal_step. wal_step.
  unfold ofs_close. wal_step. apply wp_flush_confined. intros o w _ _. by wal_steps.
Qed.

(** C1: a run of the program. With an argument it prints the usage and returns
    1 without touching the machine. Otherwise it opens the log, and prints the
    banner, the counts of what it loaded and replayed, and a dialogue about
    exactly the map that the snapshot and the log on disk hold, to the end of the
    input or [EXIT], and returns 0. An exception leaves it only when the log cannot
    be opened or the files cannot be loaded. *)
Theorem main_serves_what_the_files_hold argc program input p :
  wp (main argc program input)
    (λ status p',
       (1 < argc ∧ status = 1 ∧ p' = Process (cout p) (cerr p ++ str "usage: " ++ program ++ newline) (machine p)) ∨
       (argc ≤ 1 ∧ status = 0 ∧ cerr p' = cerr p ∧
        ∃ wal w entries operations m text m',
          open_wal host default_wal_config (machine p) = (Ok wal, w) ∧
          recovered_from wal w entries operations m ∧ Dialogue input m text m' ∧
          cout p' = cout p ++ banner ++ startup_report entries operations ++ text))
    (λ e _,
       (∃ w, open_wal host default_wal_config (machine p) = (Exn e, w)) ∨
       (∃ wal w, open_wal host default_wal_config (machine p) = (Ok wal, w) ∧
                 recover host wal default_snapshot w = Exn e) ∨
       What e = None)
    p.
Proof.
  unfold main, complain, say. destruct (Z.ltb_spec 1 argc); wp_steps; [by left|].
  unfold on_process. wp_step. cbn [machine cout cerr]. unfold wp at 1.
  destruct (open_wal host default_wal_config (machine p)) as [[wal|e] w] eqn:Hopen; [|left; by exists w].
  wp_step. unfold with_store, wp at 1. cbn [machine cout cerr].
  pose proof (wp_serve wal input w (cout p ++ banner)) as Hserve. unfold banner in Hserve.
  rewrite <-!app_assoc in *. unfold wp in Hserve.
  destruct (serve wal input _) as [[[]|e] s'].
  2: { right. destruct Hserve as [Hr|Hn]; [left; by exists wal, w|by right]. }
  destruct Hserve as (entries & operations & m & text & m' & Hrec & Hd & Hout).
  wp_step. assert (wp (close_log (wal_ (kv (ses_store s'))))
    (λ _ p', cout p' = ses_out s' ∧ cerr p' = cerr p) (λ _ _, False)
    (Process (ses_out s') (cerr p) (kv_os (ses_store s')))) as Hclose.
  { unfold close_log, on_process. destruct (wal_ _) as [j|]; [|done]. wp_step. wp_step.
    by eapply wp_mono; [apply close_wal_no_throw| |]. }
  eapply wp_mono; [exact Hclose| |done]. cbn beta. intros [] p' [Hc He]. wp_step. right.
  split; [lia|]. split; [done|]. split; [done|].
  exists wal, w, entries, operations, m, text, m'. split_and!; [done..|].
  rewrite Hc, Hout. unfold banner. by rewrite <-!app_assoc.
Qed.

End main.
