(* ===== verification/TornLog.v ===== *)
(** * A run of the program on a torn log

    [main] of [src/main.cpp] replays the log without repairing it. What the command
    loop of [src/server/cli_server.cpp] does when a crash cut the last record short:
    which commands are refused, for how long, and which command ends it. *)

From S2P Require Import Prelude Machine BinaryIO Crc WalFormat WalReplay WalLog WalDurability.
From S2P Require Import WalMaintenance SnapshotFile Journal KVStore StoreSharding StorePersistence.
From S2P Require Import Checkpointing StringUtils CommandParser Server MainProgram.

Section torn.
  Context (host : endianness).
  Context (hash : bytes → Z) (iterate : gmap bytes bytes → list (bytes * bytes)).
  Context (iterate_spec : ∀ m, iterate m ≡ₚ map_to_list m).
  Context (system_error_what : Z → bytes → bytes) (kProjectVersion : bytes).
  Implicit Types (t : store_state WriteAheadLog) (j : WriteAheadLog) (c : Command).

#[local] Instance torn_journal : Journal WriteAheadLog := wal_journal host.
#[local] Instance torn_journal_spec : JournalSpec WriteAheadLog := wal_journal_spec host.
#[local] Instance torn_journal_laws : JournalLaws WriteAheadLog := wal_journal_laws host.
Local Abbreviation Dispatch := (dispatch host hash iterate kProjectVersion).
Local Abbreviation Exec := (Execute host hash iterate system_error_what kProjectVersion).
Local Abbreviation Loop := (Run host hash iterate system_error_what kProjectVersion).

(** ** The log refuses *)

Definition recovery_message : bytes := str "WAL requires recovery before append".

(** Why a write is refused: the log waits for recovery, or the record is too large
    for any log. *)
Definition refusal (r : ParsedRecord) (message : bytes) : Prop :=
  message = recovery_message ∨ kMaxRecordLength < record_size true r.

Lemma append_refused r s :
  record_ok r → failure_ (wal s) = None → needs_recovery_ (format (wal s)) = true →
  wp (append_record host r) (λ _ _, False)
    (λ e s', s' = s ∧ ∃ message, e = runtime_error message ∧ refusal r message) s.
Proof.
  intros Hok Hf Hn. set (message := recovery_message).
  assert (check_appendable s = (Exn (runtime_error message), s)) as Hc.
  { unfold check_appendable, bind, gets. rewrite Hf, Hn. by rewrite orb_true_r. }
  assert (∀ payload, (∃ e, PrepareFrame host (legacy_v2_ (format (wal s))) payload = Exn (runtime_error e)) ∨
            wp (AppendPayload host payload) (λ _ _, False) (λ e s', s' = s ∧ e = runtime_error message) s) as Hpay.
  { intros payload. destruct (PrepareFrame host (legacy_v2_ (format (wal s))) payload) as [frame|e] eqn:Hp.
    - right. unfold AppendPayload. do 2 wal_step. rewrite Hp. cbn [of_res]. do 2 wal_step.
      case_bool_decide; [|unfold enqueue]; repeat wal_step; unfold wp; by rewrite Hc.
    - left. unfold PrepareFrame, checked_record_length in Hp. destruct (_ <? _); [|done]. injection Hp as <-. eauto. }
  assert (wp (append_record host r) (λ _ _, False)
            (λ e s', s' = s ∧ (e = runtime_error message ∨ kMaxRecordLength < record_size true r)) s) as Hwhy.
  { apply (wp_append_record_payload host r s); [done| |].
    - intros Hfit. destruct (prepare_record _ _ _ Hfit) as [frame Hframe]. rewrite negb_involutive in Hframe.
      destruct (Hpay (payload_of host (negb (legacy_v2_ (format (wal s)))) r)) as [[e He]|Hp]; [by rewrite Hframe in He|].
      eapply wp_mono; [exact Hp|done|]. intros e s' [-> ->]. by split; [|left].
    - intros e He. split; [done|right]. unfold record_size, seq_size in *. destruct (negb _); lia. }
  assert (wp (append_record host r) (λ _ _, True) (λ e _, ∃ m, e = runtime_error m) s) as Hkind.
  { assert (∀ payload, wp (AppendPayload host payload) (λ _ _, True) (λ e _, ∃ m, e = runtime_error m) s) as Hpay'.
    { intros payload. destruct (Hpay payload) as [[e He]|Hp].
      2: { eapply wp_mono; [exact Hp|done|]. intros e s' [_ ->]. eauto. }
      unfold AppendPayload. do 2 wal_step. rewrite He. cbn [of_res]. do 2 wal_step. eauto. }
    unfold append_record, AppendSet, AppendDelete, CheckedSize, checked_record_length.
    destruct (rec_op r); repeat (first [apply Hpay' | wp_step; eauto | case_match]; cbn [of_res]). }
  eapply wp_mono; [exact (wp_and _ _ _ _ _ _ Hwhy Hkind)|by intros a s' [[] _]|]. cbn beta.
  intros e s' [[-> Hor] [m ->]]. split; [done|]. exists m. split; [done|].
  destruct Hor as [[= ->]|Hlarge]; [by left|by right].
Qed.

(** ** The store refuses *)

(** A store on a log that waits for recovery. *)
Record torn_store t : Prop := {
  torn_ok : store_ok hash (kv t);
  torn_snapshot : snapshot_ (kv t) = Some default_snapshot;
  torn_error : checkpoint_error_ (kv t) = None;
  torn_log : ∃ j, wal_ (kv t) = Some j ∧ failure_ j = None ∧ needs_recovery_ (format j) = true
}.

Lemma torn_write_refused t r :
  torn_store t → record_ok r →
  ∃ message, on_wal_ptr tt (journal_write r) t = (Exn (runtime_error message), t) ∧ refusal r message.
Proof.
  intros [_ _ _ (j & Hw & Hf & Hn)] Hok. unfold on_wal_ptr. rewrite Hw.
  assert (journal_write r (j, kv_os t) = member (append_record host r) (j, kv_os t)) as ->
    by (unfold journal_write, append_record; by destruct (rec_op r)).
  unfold member, zoom. cbn [fst snd].
  pose proof (append_refused r (WalState j (kv_os t)) Hok Hf Hn) as Happ. unfold wp in Happ.
  destruct (append_record host r (WalState j (kv_os t))) as [[a|e] s']; [done|].
  destruct Happ as [-> (message & -> & Hm)]. exists message. split; [|done].
  destruct t as [[] w]. cbn in *. by subst.
Qed.

(** The record of a command. *)
Definition record_of c : ParsedRecord :=
  match type c with
  | kSet => {| rec_op := WalOp_Set; rec_key := key c; rec_value := value c |}
  | _ => {| rec_op := WalOp_Delete; rec_key := key c; rec_value := [] |}
  end.

Lemma torn_calls_refused t c :
  torn_store t → ∃ message, refusal (record_of c) message ∧
  match type c with
  | kSet => Set_ hash (key c) (value c) t = (Exn (runtime_error message), t)
  | _ => Delete hash (key c) t = (Exn (runtime_error message), t)
  end.
Proof.
  intros Ht. destruct (torn_write_refused t (record_of c) Ht) as (message & Hw & Hm).
  { unfold record_ok, record_of. by destruct (type c). }
  exists message. split; [done|].
  assert (CheckCheckpointError t = (Ok tt, t)) as Hc.
  { unfold CheckCheckpointError, bind, gets. by rewrite (torn_snapshot t Ht), (torn_error t Ht). }
  unfold record_of, journal_write in Hw.
  destruct (type c); cbn [rec_op rec_key rec_value] in Hw; unfold Set_, Delete, bind; by rewrite Hc, Hw.
Qed.

(** ** The command loop *)

(** What each command answers while the map is [m]; nothing else happens. *)
Definition torn_answer (m : gmap bytes bytes) c (reply : bytes) : Prop :=
  match type c with
  | kSet | kDel => ∃ message, reply = error_reply message ∧ refusal (record_of c) message
  | _ => reply = (answer kProjectVersion true m c).1.1
  end.

Definition quiet_command c : Prop := type c ≠ kCompactPersistence ∧ type c ≠ kClearPersistence.

Lemma torn_execute t c s :
  torn_store t → quiet_command c → ses_store s = t → ses_running s = true →
  ∃ reply, torn_answer (contents_of (kv t)) c reply ∧
    Exec c s = (Ok tt, Session t (ses_out s ++ reply) (negb (bool_decide (type c = kExit)))).
Proof.
  intros Ht [Hnc Hncl] <- Hrun. destruct s as [t out running]. cbn in Hrun |- *. subst running.
  destruct (torn_calls_refused t c Ht) as (message & Hm & Hcall).
  unfold Execute, torn_answer. destruct (IsValid c) eqn:Hv; unfold IsValid in Hv.
  2: { apply negb_false_iff, bool_decide_eq_true in Hv. unfold answer. rewrite Hv. eexists. by split. }
  unfold catch, dispatch. cbn [negb]. unfold answer. destruct (type c) eqn:Hty; try done.
  - exists (error_reply message). split; [eauto|]. unfold bind, on_store, zoom. cbn [ses_store]. by rewrite Hcall.
  - eexists. split; [done|]. unfold bind, on_store, zoom. cbn [ses_store].
    by rewrite Get_contents by apply Ht.
  - exists (error_reply message). split; [eauto|]. unfold bind, on_store, zoom. cbn [ses_store]. by rewrite Hcall.
  - eexists. split; [done|]. unfold PrintInfo, bind, on_store, zoom, emit, modify. cbn [ses_store ses_out ses_running].
    rewrite (Size_contents hash) by apply Ht. cbn [ses_store ses_out ses_running]. unfold info_text. by rewrite <-!app_assoc.
  - eexists. split; [done|]. unfold PrintHelp, bind, emit, modify. cbn [ses_store ses_out ses_running].
    unfold help_text. by rewrite <-!app_assoc.
  - eexists. by split.
Qed.

(** Input whose commands, up to [EXIT], neither compact nor clear. *)
Inductive quiet : bytes → Prop :=
| quiet_eof input : getline input = None → quiet input
| quiet_exit input line rest :
    getline input = Some (line, rest) → type (Parse line) = kExit → quiet input
| quiet_line input line rest :
    getline input = Some (line, rest) → quiet_command (Parse line) → quiet rest → quiet input.

(** The dialogue about a map that nothing changes. *)
Inductive refusing (m : gmap bytes bytes) : bytes → bytes → Prop :=
| refusing_eof input : getline input = None → refusing m input (prompt ++ newline)
| refusing_exit input line rest reply :
    getline input = Some (line, rest) → type (Parse line) = kExit → torn_answer m (Parse line) reply →
    refusing m input (prompt ++ reply)
| refusing_line input line rest reply out :
    getline input = Some (line, rest) → type (Parse line) ≠ kExit → torn_answer m (Parse line) reply →
    refusing m rest out → refusing m input (prompt ++ reply ++ out).

Lemma torn_run t : torn_store t → ∀ fuel input s,
  ses_store s = t → ses_running s = true → quiet input → (length input < fuel)%nat →
  ∃ out running, refusing (contents_of (kv t)) input out ∧
    Loop fuel input s = (Ok true, Session t (ses_out s ++ out) running).
Proof.
  intros Ht. induction fuel as [|fuel IH]; intros input s Hs Hrun Hq Hf; [lia|].
  cbn [Run]. unfold bind at 1, gets. rewrite Hrun. cbn [negb]. unfold bind at 1, emit at 1, modify. rewrite Hs.
  destruct (getline input) as [[line rest]|] eqn:Hline.
  2: { exists (prompt ++ newline), (ses_running s). split; [by constructor|]. unfold bind, emit, modify, ret. cbn.
       by rewrite <-app_assoc, Hrun. }
  assert (quiet_command (Parse line) ∧ (type (Parse line) ≠ kExit → quiet rest)) as [Hc Hrest].
  { destruct Hq as [input Hq|input line' rest' Hq Hex|input line' rest' Hq Hqc Hqr]; simplify_eq; [|done].
    split; [by split; rewrite Hex|done]. }
  destruct (torn_execute t (Parse line) (Session t (ses_out s ++ prompt) (ses_running s)) Ht Hc eq_refl Hrun)
    as (reply & Ha & Hex). unfold bind at 1. rewrite Hex. cbn [ses_out].
  apply getline_shorter in Hline as Hlt. case_bool_decide as Hexit; cbn [negb].
  - destruct fuel as [|fuel]; [lia|]. exists (prompt ++ reply), false. split; [by eapply refusing_exit|].
    cbn. by rewrite <-app_assoc.
  - destruct (IH rest (Session t ((ses_out s ++ prompt) ++ reply) true)) as (out & running & Ho & Hr); [done..|by apply Hrest|lia|].
    exists (prompt ++ reply ++ out), running. split; [by eapply refusing_line|]. rewrite Hr. cbn. by rewrite <-!app_assoc.
Qed.

(** ** What ends it *)

(** [Clear] and [Rotate] empty a log whatever state it is in. *)
Lemma torn_clear j w rs tail :
  wal_holds host (WalState j w) rs tail → queue_ (queue j) = [] →
  wp (member Clear) (λ _ s', journal_kept j s'.1 w s'.2 ∧ journal_log s'.1 s'.2 []) (λ _ _, True) (j, w).
Proof.
  intros [Ho Hf Hb (content & Hfile & Hd)] Hq. cbn [wal os] in *. apply wp_member.
  assert (wal_confined (path_ (config j)) w (WalState j w)) as HC
    by (split; [done|split; [done|cbn; by rewrite Ho]]).
  assert (wp Clear (λ _ s', wal_cleared host (WalState j w) s') (λ _ _, True) (WalState j w)) as Hclear.
  { apply (wp_Clear host); cbn [wal]; [by rewrite Ho|done|done| |done|done].
    destruct (legacy_v2_ (format j)) eqn:Hl.
    - rewrite (describes_legacy _ _ _ _ _ Hd Hl). lia.
    - pose proof (describes_generation _ _ _ _ _ Hd Hl). lia. }
  eapply wp_mono; [exact (wp_keeps _ _ _ _ _ (confined_clear _ w) HC Hclear)| |done]; cbn beta.
  intros [] s' [[Hr Hc Hqq _ _ _ _] (Hu & Hp & _)]. split; [by split|].
  split; [by destruct s'|]. cbn in *. by rewrite Hqq.
Qed.

Lemma torn_clear_persistence t j rs tail :
  wal_ (kv t) = Some j → snapshot_ (kv t) = Some default_snapshot → separate j default_snapshot →
  wal_holds host (WalState j (kv_os t)) rs tail → queue_ (queue j) = [] →
  wp ClearPersistence
    (λ _ t', shards_ (kv t') = shards_ (kv t) ∧
             ∃ j', wal_ (kv t') = Some j' ∧ journal_log j' (kv_os t') []) (λ _ _, True) t.
Proof.
  intros Hw Hs Hsep Hh Hq. unfold ClearPersistence, CancelPendingCheckpoint, with_snapshot, on_kv. do 3 wp_step.
  apply wp_on_wal_ptr; [by cbn; rewrite Hw|]. intros j0 Hj. cbn in Hj. rewrite Hw in Hj. injection Hj as <-.
  eapply wp_mono; [by eapply torn_clear| |done]; cbn beta. intros [] [j' w'] [[Hp Hf] Hlog]. cbn [fst snd] in *.
  do 3 wp_step. cbn [kv snapshot_ set_wal set_checkpoint]. rewrite Hs. apply wp_on_machine. cbn [kv_os].
  apply wp_ClearSnapshot; [|done]. intros w2 Hu _. wp_step. split; [done|]. exists j'. split; [done|].
  eapply journal_frame; [exact Hlog|]. apply (only_snapshot_wal default_snapshot); [|exact Hu]. unfold separate. by rewrite Hp.
Qed.

Lemma torn_compact t j rs tail :
  store_ok hash (kv t) → wal_ (kv t) = Some j → snapshot_ (kv t) = Some default_snapshot →
  separate j default_snapshot → wal_holds host (WalState j (kv_os t)) rs tail → queue_ (queue j) = [] →
  savable (contents_of (kv t)) →
  wp (CompactPersistence host iterate)
    (λ _ t', contents_of (kv t') = contents_of (kv t) ∧ persistent host hash t') (λ _ _, True) t.
Proof.
  intros Hok Hw Hs Hsep [Ho Hf Hb (content & Hfile & Hd)] Hq Hsav.
  unfold CompactPersistence, CompactPersistenceLocked, CancelPendingCheckpoint, with_snapshot, on_kv. do 4 wp_step.
  cbn [kv snapshot_ set_checkpoint]. rewrite Hs. do 3 wp_step. apply wp_on_machine. cbn [kv_os].
  apply wp_SaveVerified; [|done]. intros w2 Hu Hpub _.
  wp_step. apply wp_on_wal_ptr; [by cbn; rewrite Hw|]. intros j0 Hj. cbn in Hj. rewrite Hw in Hj. injection Hj as <-.
  assert (wal_holds host (WalState j w2) rs tail) as Hh2.
  { split; [done..|]. exists content. split; [|done]. cbn [wal os] in *. rewrite <-Hfile. unfold file_contents.
    by rewrite (only_snapshot_wal default_snapshot j (kv_os t) w2 Hsep Hu : files w2 !! path_ (config j) = _). }
  eapply wp_mono; [by eapply torn_clear| |done]; cbn beta. intros [] [j' w'] [[Hp Hfr] Hlog]. cbn [fst snd] in *.
  do 3 wp_step. split; [done|]. exists j', default_snapshot, [], [], (contents_of (kv t)). split; try done.
  - unfold separate. by rewrite Hp.
  - eapply (published_covers host iterate iterate_spec _ _ _ _ 0);
      [done|lia| |apply journal_start|by exists (contents_of (kv t))].
    unfold published. cbn [kv_os]. by rewrite (separate_snapshot j default_snapshot w2 w' Hsep Hfr).
Qed.

(** ** A run on a torn log *)

Lemma starts_without_error (wal : WriteAheadLog) :
  keeps (λ t, checkpoint_error_ (kv t) = None)
    (let! r := LoadSnapshot host hash iterate default_snapshot in ReplayFromWal hash iterate wal (wal_offset r)).
Proof.
  unfold LoadSnapshot, CancelPendingCheckpoint, ReplayFromWal, store_res.
  repeat first [keeps_step | by apply keeps_modify | by apply keeps_modify; intros s; cbn].
Qed.

(** C38: [main] replays without repairing: after a crash that cut the last record
    short, the program starts with everything before it. From then on every [SET] and
    every [DELETE] is answered with an error, because the log waits for a recovery that
    nothing calls, and nothing changes in memory or in a file: a command loop over any
    input without [COMPACT] and [CLEAR PERSISTENCE] is a dialogue about the map at the
    start, and ends in the state in which it began. These two commands end this, if
    they succeed: a compaction saves the map and empties the log, after which memory,
    log and snapshot agree and writes are durable again; clearing leaves the map and an
    empty log that takes records. *)
Theorem torn_log_refuses_writes wal w rs tail :
  wal_holds host (WalState wal w) rs tail → tail ≠ [] →
  config wal = default_wal_config → queue_ (queue wal) = [] →
  wp (let! r := LoadSnapshot host hash iterate default_snapshot in
      ReplayFromWal hash iterate wal (wal_offset r))
    (λ _ t,
       (∀ input s, ses_store s = t → ses_running s = true → quiet input →
          ∃ out running, refusing (contents_of (kv t)) input out ∧
            Loop (S (length input)) input s = (Ok true, Session t (ses_out s ++ out) running)) ∧
       (savable (contents_of (kv t)) →
          wp (CompactPersistence host iterate)
            (λ _ t', contents_of (kv t') = contents_of (kv t) ∧ persistent host hash t') (λ _ _, True) t) ∧
       wp ClearPersistence
         (λ _ t', contents_of (kv t') = contents_of (kv t) ∧
                  ∃ j, wal_ (kv t') = Some j ∧ journal_log j (kv_os t') []) (λ _ _, True) t)
    (λ _ _, True)
    (StoreState (new_store (Some wal) (Some default_snapshot)) w).
Proof.
  intros Hh Htail Hcfg Hq.
  assert (needs_recovery_ (format wal) = true) as Hn.
  { destruct Hh as [_ _ _ (content & _ & Hd)]. cbn in *. rewrite (describes_recovery _ _ _ _ _ Hd). by rewrite bool_decide_false. }
  assert (separate wal default_snapshot) as Hsep.
  { unfold separate. cbn [journal_path torn_journal_spec wal_journal_spec]. rewrite Hcfg.
    apply (bool_decide_eq_true_1 (_ ∉ _)). vm_compute. reflexivity. }
  set (start := let! r := LoadSnapshot host hash iterate default_snapshot in ReplayFromWal hash iterate wal (wal_offset r)).
  set (t0 := StoreState (new_store (Some wal) (Some default_snapshot)) w).
  assert (wp start (λ _ t, store_ok hash (kv t) ∧ wal_ (kv t) = Some wal ∧
            snapshot_ (kv t) = Some default_snapshot ∧ kv_os t = w) (λ _ _, True) t0) as Hstart.
  { unfold start. wp_step. apply (wp_LoadSnapshot host hash iterate iterate_spec); [apply length_replicate| |done].
    intros r base t _ Hok _ [Hw Hs Ho]. apply (wp_ReplayFromWal hash iterate iterate_spec); [done| |done].
    intros n m t' _ Hok' _ [Hw' Hs' Ho']. cbn in *. split_and!; congruence || done. }
  eapply wp_mono; [exact (wp_keeps _ _ _ _ _ (starts_without_error wal) (eq_refl : checkpoint_error_ (kv t0) = None) Hstart)| |done].
  cbn beta. intros n t [(Hok & Hw & Hs & Ho) He].
  assert (torn_store t) as Ht by (split; try done; exists wal; split_and!; [done|apply Hh|done]).
  rewrite <-Ho in Hh. split_and!.
  - intros input s Hst Hrun Hquiet. apply torn_run; [done..|lia].
  - intros Hsav. by eapply torn_compact.
  - eapply wp_mono; [by eapply torn_clear_persistence| |done]. intros [] t' [Hsh Hj]. split; [|done].
    unfold contents_of. by rewrite Hsh.
Qed.

End torn.
