(* ===== verification/Witnesses.v ===== *)
(** * Concrete instances

    The theorems of the development at concrete inputs at which their hypotheses
    hold, evaluated: a small log, a snapshot, a store, its threads, a session. *)

From S2P Require Import Prelude Machine BinaryIO Crc WalFormat WalReplay WalLog WalDurability.
From S2P Require Import WalMaintenance GroupCommit CommitSignals SnapshotFile ReadFailures Journal KVStore StoreSharding.
From S2P Require Import StoreLocks StoreCalls StoreAssignment AssignmentEffect Linearizability StoreAtomicity StorePersistence StoreDurability Restart RecoveryHazards.
From S2P Require Import Checkpointing CheckpointDurability CheckpointLocks CheckpointSignals StringUtils CommandParser Server MainProgram TornLog.

(** ** The sample objects *)

Definition set_record (k v : string) : ParsedRecord :=
  {| rec_op := WalOp_Set; rec_key := str k; rec_value := str v |}.

Definition sample_path : bytes := str "kv_store.wal".

Definition sample_config (policy : DurabilityPolicy) : wal_config :=
  {| path_ := sample_path; policy_ := policy; max_batch_ := 32; max_delay_us_ := 20; fault_hook_ := false |}.

Definition sample_wal (policy : DurabilityPolicy) : WriteAheadLog :=
  {| config := sample_config policy; output_ := ofs_opened sample_path;
     sync_fd_ := bool_decide (policy ≠ Buffered);
     format := set_header_pending true default_format; stats_ := zero_stats 32;
     queue := {| queue_ := []; stopping_ := false; next_id := 0; completed := ∅ |};
     failure_ := None |}.

Definition sample_os : world := World {[ sample_path := empty_file ]} [].

Definition sample_log (policy : DurabilityPolicy) : wal_state := WalState (sample_wal policy) sample_os.

(** The state after the first record. *)
Definition logged_state (policy : DurabilityPolicy) : wal_state :=
  (append_record LittleEndian (set_record "k" "v") (sample_log policy)).2.

Lemma sample_ready policy : wal_ready LittleEndian (sample_log policy) [].
Proof. by split. Qed.

Lemma sample_fits k v : size_of (record_bytes LittleEndian true 0 (set_record k v)) ≤ kMaxRecordLength →
  records_fit LittleEndian (V3 1) [set_record k v].
Proof. intros Hle. split; [|done]. constructor; [|constructor]. by split. Qed.

Lemma sample_format : format_ok (V3 1).
Proof. done. Qed.

(** ** Replay *)

Lemma replay_complete_witness :
  ReplayFromDetailed LittleEndian (Some (log_image LittleEndian (V3 1) [set_record "k" "v"])) 0 ∅
  = Ok (replay_report (V3 1) 0 [set_record "k" "v"] 1 CleanEof
          (size_of (log_image LittleEndian (V3 1) [set_record "k" "v"])),
        apply_records [set_record "k" "v"] ∅).
Proof. apply (replay_complete LittleEndian (V3 1) [set_record "k" "v"] ∅); [done|by apply sample_fits]. Defined.

Lemma replay_torn_tail_witness :
  ReplayFromDetailed LittleEndian
    (Some (log_image LittleEndian (V3 1) [] ++
           take 9 (record_frame LittleEndian true 1 (set_record "k" "v")))) 0 ∅
  = Ok (replay_report (V3 1) 0 [] 0 PartialRecord (size_of (log_image LittleEndian (V3 1) [])), ∅).
Proof.
  apply (replay_torn_tail LittleEndian (V3 1) [] (set_record "k" "v") 9 ∅);
    [done|by apply sample_fits|by left|vm_compute; lia].
Defined.

(** The key of the record in the log is damaged. *)
Lemma replay_detects_damage_witness :
  let seen := take 13 (record_bytes LittleEndian true 1 (set_record "k" "v")) in
  let unseen := drop 14 (record_bytes LittleEndian true 1 (set_record "k" "v")) in
  ReplayFromDetailed LittleEndian
    (Some (log_image LittleEndian (V3 1) []
           ++ damaged_frame LittleEndian true 1 (set_record "k" "v") (seen ++ str "x" ++ unseen) ++ [])) 0 ∅
  = Ok (replay_report (V3 1) 0 [] 0 ChecksumMismatch (size_of (log_image LittleEndian (V3 1) [])), ∅).
Proof.
  apply (replay_detects_damage LittleEndian (V3 1) [] (set_record "k" "v") _ (str "k") (str "x") _ [] ∅);
    [done|by apply sample_fits|by left|reflexivity|done|cbn; lia|done].
Defined.

Lemma replay_sound_witness :
  ∃ fmt rs tail, log_image LittleEndian (V3 1) [set_record "k" "v"] = log_image LittleEndian fmt rs ++ tail ∧
    apply_records [set_record "k" "v"] ∅ = apply_records rs ∅ ∧ tail = [].
Proof.
  destruct (replay_sound LittleEndian (log_image LittleEndian (V3 1) [set_record "k" "v"]) ∅
              (replay_report (V3 1) 0 [set_record "k" "v"] 1 CleanEof
                 (size_of (log_image LittleEndian (V3 1) [set_record "k" "v"])))
              (apply_records [set_record "k" "v"] ∅)) as (fmt & rs & tail & Hc & _ & _ & Hs & _ & Hcl & _);
    [by apply (ReplayFromDetailed_log LittleEndian (V3 1)); [|by apply sample_fits]|discriminate|].
  exists fmt, rs, tail. split; [done|]. split; [done|]. by apply Hcl.
Defined.

Lemma replay_never_loses_witness :
  ∃ result more,
    ReplayFromDetailed LittleEndian
      (Some (log_image LittleEndian (V3 1) [set_record "k" "v"] ++ str "garbage")) 0 ∅
    = Ok (result, apply_records ([set_record "k" "v"] ++ more) ∅).
Proof.
  destruct (replay_never_loses LittleEndian (V3 1) [set_record "k" "v"] (str "garbage") ∅)
    as (result & more & H & _); [done|by apply sample_fits|by left|]. by exists result, more.
Defined.

(** ** Appending *)

Lemma append_outcome_witness :
  appended LittleEndian (sample_log Sync) [] [set_record "k" "v"] (logged_state Sync).
Proof.
  pose proof (append_outcome LittleEndian (sample_log Sync) [] (set_record "k" "v")
    (sample_ready Sync) eq_refl ltac:(done)) as H. unfold wp in H. unfold logged_state.
  destruct (append_record LittleEndian (set_record "k" "v") (sample_log Sync)) as [[[]|e] s'] eqn:E.
  - apply H.
  - exfalso. apply (f_equal fst) in E. vm_compute in E. discriminate E.
Defined.

(** The write of the frame fails after three bytes. *)
Definition failing_log : wal_state :=
  WalState (sample_wal Sync) (with_script [IoOk; IoFail 3 5] sample_os).

Lemma append_crash_atomic_witness :
  let s' := (append_record LittleEndian (set_record "k" "v") failing_log).2 in
  ∃ result seen, replay_file LittleEndian s' ∅ = Ok (result, apply_records ([] ++ seen) ∅) ∧
    (seen = [] ∨ seen = [set_record "k" "v"]).
Proof.
  assert (wal_ready LittleEndian failing_log []) as Hr by (by split).
  pose proof (append_crash_atomic LittleEndian failing_log [] (set_record "k" "v") ∅ Hr eq_refl ltac:(done)) as H.
  unfold wp in H. destruct (append_record LittleEndian (set_record "k" "v") failing_log) as [[[]|e] s'] eqn:E.
  - exfalso. apply (f_equal fst) in E. vm_compute in E. discriminate E.
  - exact H.
Defined.

Lemma sample_durable policy :
  durable_prefix sample_path (wal_image LittleEndian (format (sample_wal policy)) []) sample_os.
Proof. exists empty_file. by split. Qed.

Lemma acknowledged_records_survive_witness :
  wp (append_all LittleEndian [set_record "a" "1"; set_record "b" "2"])
    (λ acked s', ∀ content, after_power_loss (path_ (config (wal s'))) (os s') content →
       ∃ result more, ReplayDetailed LittleEndian (Some content) ∅
                      = Ok (result, apply_records ([] ++ acked ++ more) ∅))
    (λ _ _, False) (sample_log Sync).
Proof.
  eapply wp_mono; [apply (acknowledged_records_survive LittleEndian (sample_log Sync) []
    [set_record "a" "1"; set_record "b" "2"] ∅ (sample_ready Sync))| |done].
  - done.
  - done.
  - done.
  - apply sample_durable.
  - by repeat constructor.
  - cbn beta. intros acked s' [_ Hall]. exact Hall.
Defined.

(** ** Opening, clearing, repairing *)

Lemma open_describes_file_witness :
  wp (open_wal LittleEndian (sample_config Sync))
    (λ o w', file_contents sample_path w' = Some (str "old")) (λ _ _, True)
    (World {[ sample_path := File (str "old") [] ]} []).
Proof.
  eapply wp_mono; [apply (open_describes_file LittleEndian (sample_config Sync)
    (World {[ sample_path := File (str "old") [] ]} [])); done| |done].
  intros o w' [H _]. exact H.
Defined.

(** The process has no descriptor left for reading. *)
Definition unread_os : world :=
  World {[ sample_path := File (log_image LittleEndian (V3 1) [set_record "k" "v"]) [] ]} [].
Definition unread_log : res WriteAheadLog * world :=
  open_wal_seeing Unopened Unopened LittleEndian (sample_config Buffered) unread_os.

Lemma unread_log_loses_writes_witness :
  ∃ o s' frame, unread_log.1 = Ok o ∧
    append_record LittleEndian (set_record "a" "b") (WalState o unread_log.2) = (Ok tt, s') ∧
    ∀ store, ∃ result,
      ReplayDetailed LittleEndian (Some (log_image LittleEndian (V3 1) [set_record "k" "v"] ++ frame ++ [])) store
      = Ok (result, apply_records [set_record "k" "v"] store) ∧ replay_status result ≠ CleanEof.
Proof.
  pose proof (unread_log_loses_writes LittleEndian (sample_config Buffered) unread_os 1 [set_record "k" "v"]
    (set_record "a" "b") ltac:(done) eq_refl ltac:(lia)) as H. unfold wp in H. unfold unread_log.
  destruct (open_wal_seeing _ _ _ _ _) as [[o|e] w1] eqn:Eo.
  2: { exfalso. apply (f_equal fst) in Eo. vm_compute in Eo. discriminate Eo. }
  exists o. destruct (append_record LittleEndian (set_record "a" "b") (WalState o w1)) as [[[]|e] s'] eqn:Ea.
  2: { exfalso. apply (f_equal (λ x, (append_record LittleEndian (set_record "a" "b") (WalState match x.1 with Ok o => o | Exn _ => o end x.2)).1)) in Eo.
       cbn [fst snd] in Eo. rewrite Ea in Eo. vm_compute in Eo. discriminate Eo. }
  destruct H as (_ & frame & _ & Hrep); [split; [by repeat constructor|done]|done|vm_compute; reflexivity|done|].
  exists s', frame. split; [done|]. split; [done|]. apply (Hrep []).
Defined.

Lemma clear_starts_generation_witness :
  wp Rotate (λ _ s', wal_cleared LittleEndian (sample_log Sync) s') (λ _ _, True) (sample_log Sync).
Proof.
  eapply wp_mono; [apply (clear_starts_generation LittleEndian (sample_log Sync)); done|done|done].
Defined.

(** A file that ends in the first byte of a frame. *)
Definition torn_content : bytes := log_image LittleEndian (V3 1) [set_record "k" "v"] ++ [Byte.x01].
Definition torn_os : world := World {[ sample_path := File torn_content [] ]} [].
Definition torn_log : WriteAheadLog :=
  match inspect_file LittleEndian torn_content with
  | Ok f => set_format f (sample_wal Buffered)
  | Exn _ => sample_wal Buffered
  end.

Lemma torn_log_holds :
  ∃ rs tail, wal_holds LittleEndian (WalState torn_log torn_os) rs tail ∧ tail ≠ [].
Proof.
  pose proof (inspect_file_spec LittleEndian torn_content) as H. unfold torn_log.
  assert (needs_recovery_ (format torn_log) = true) as Hn by (vm_compute; reflexivity).
  assert (format_valid_ (format torn_log) = true) as Hv by (vm_compute; reflexivity).
  unfold torn_log in Hn, Hv. destruct (inspect_file LittleEndian torn_content) as [f|e]; [|done].
  cbn [format set_format] in *. destruct H as [(rs & tail & Hd)|(Hinv & _)]; [|congruence].
  exists rs, tail. split.
  - split; [done..|]. by exists torn_content.
  - intros ->. pose proof (describes_recovery _ _ _ _ _ Hd) as Hr. rewrite Hn in Hr. by rewrite bool_decide_true in Hr.
Qed.

Lemma recovery_repairs_witness :
  ∃ rs (tail : bytes), tail ≠ [] ∧
    wp (ReplayFromAndTruncate LittleEndian 0 ∅)
      (λ r s', r.2 = apply_records rs ∅ ∧ wal_ready LittleEndian s' rs) (λ _ _, True)
      (WalState torn_log torn_os).
Proof.
  destruct torn_log_holds as (rs & tail & Hh & Hne). exists rs, tail. split; [done|].
  eapply wp_mono; [apply (recovery_repairs LittleEndian (WalState torn_log torn_os) rs tail ∅ Hh)| |done].
  cbn beta. intros r s' (H1 & _ & _ & H2 & _). by split.
Defined.

(** ** Group commit *)

Definition sample_gc : gc_state := GcState (sample_log GroupCommit) Waiting [].

Lemma sample_gc_reachable : gc_reachable LittleEndian [] sample_gc.
Proof.
  exists sample_gc. split; [|apply rtc_refl]. split; [apply sample_ready|]. split_and!; try done.
  exists (format (sample_wal GroupCommit)). split_and!; [done|done|by split|apply sample_durable].
Qed.

(** The frame of a request, its submission, the batch, the write, the answer. *)
Definition sample_frame : bytes :=
  match PrepareFrame LittleEndian false (payload_of LittleEndian true (set_record "k" "v")) with
  | Ok f => f
  | Exn _ => []
  end.
Definition submitted : wal_state := (enqueue sample_frame (sample_log GroupCommit)).2.
Definition formed : wal_state := (form_batch submitted).2.
Definition sample_batch : list Pending := [{| pending_id := 0; pending_frame := sample_frame |}].
Definition written : wal_state := (write_batch sample_batch formed).2.
Definition answered_gc : gc_state :=
  GcState (complete_one {| pending_id := 0; pending_frame := sample_frame |} None written)
    (Completing [] None) [set_record "k" "v"].

Lemma run_eq {S A} (m : M S A) s a : (m s).1 = Ok a → m s = (Ok a, (m s).2).
Proof. destruct (m s) as [r s']. cbn. by intros ->. Qed.

Lemma submitted_reachable : gc_reachable LittleEndian [] (GcState submitted Waiting [set_record "k" "v"]).
Proof.
  destruct sample_gc_reachable as (g0 & H0 & Hr). exists g0. split; [done|].
  eapply rtc_r; [exact Hr|]. apply (gc_submit _ _ _ [] (set_record "k" "v") sample_frame 0).
  - split; [by split|]. vm_compute. reflexivity.
  - apply run_eq. vm_compute. reflexivity.
Qed.

Lemma answered_reachable : gc_reachable LittleEndian [] answered_gc.
Proof.
  destruct submitted_reachable as (g0 & H0 & Hr). exists g0. split; [done|].
  eapply rtc_r; [eapply rtc_r; [eapply rtc_r; [exact Hr|]|]|].
  - apply (gc_form _ _ _ sample_batch); [vm_compute; discriminate|]. apply run_eq. vm_compute. reflexivity.
  - apply gc_write. apply run_eq. vm_compute. reflexivity.
  - apply gc_complete.
Qed.

Lemma group_commit_acknowledges_witness :
  ∃ result more content,
    after_power_loss (path_ (config (wal (gc_wal answered_gc)))) (os (gc_wal answered_gc)) content ∧
    ReplayDetailed LittleEndian (Some content) ∅ = Ok (result, apply_records ([] ++ [set_record "k" "v"] ++ more) ∅).
Proof.
  assert (after_power_loss (path_ (config (wal (gc_wal answered_gc)))) (os (gc_wal answered_gc))
            (from_option synced [] (files (os (gc_wal answered_gc)) !! sample_path))) as Hloss.
  { eexists _, []. split; [vm_compute; reflexivity|]. vm_compute. reflexivity. }
  destruct (group_commit_acknowledges LittleEndian [] answered_gc 0 _ ∅ answered_reachable
              ltac:(vm_compute; reflexivity) Hloss) as (_ & _ & result & more & H).
  eexists result, more, _. split; [exact Hloss|exact H].
Defined.

Lemma group_commit_serves_everyone_witness :
  (∃ g', gc_step LittleEndian (GcState submitted Waiting [set_record "k" "v"]) g' ∧
         gc_sent g' = [set_record "k" "v"]) ∨
  (∀ id, (id < 1)%nat → is_Some (completed (queue (wal submitted)) !! id)).
Proof.
  apply (group_commit_serves_everyone LittleEndian [] (GcState submitted Waiting [set_record "k" "v"])
           submitted_reachable).
Defined.

(** The same request when the write fails. *)
Definition broken_log : wal_state :=
  WalState (sample_wal GroupCommit) (with_script [IoFail 3 5] sample_os).
Definition broken_submitted : wal_state := (enqueue sample_frame broken_log).2.
Definition broken_formed : wal_state := (form_batch broken_submitted).2.
Definition broken_error : exn := runtime_error (str "failed to write WAL header").
Lemma run_exn_eq {S A} (m : M S A) s e : (m s).1 = Exn e → m s = (Exn e, (m s).2).
Proof. destruct (m s) as [r s']. cbn. by intros ->. Qed.

Lemma broken_reachable : gc_reachable LittleEndian [] (GcState broken_formed (Formed sample_batch) [set_record "k" "v"]).
Proof.
  exists (GcState broken_log Waiting []). split.
  { split; [by split|]. split_and!; try done.
    exists (format (sample_wal GroupCommit)). split_and!; [done|done|by split|apply sample_durable]. }
  eapply rtc_l; [|apply rtc_once].
  - apply (gc_submit _ _ _ [] (set_record "k" "v") sample_frame 0); [split; [by split|vm_compute; reflexivity]|].
    apply run_eq. vm_compute. reflexivity.
  - apply (gc_form _ _ _ sample_batch); [vm_compute; discriminate|]. apply run_eq. vm_compute. reflexivity.
Qed.

(** A second request comes while the writer fails, and shares the answer. *)
Definition broken_written : wal_state := (write_batch sample_batch broken_formed).2.
Definition broken_second : wal_state := (enqueue sample_frame broken_written).2.
Definition second_batch : list Pending := [{| pending_id := 1; pending_frame := sample_frame |}].
Definition broken_failed : wal_state := (fail_queue broken_error broken_second).2.
Definition refused_gc : gc_state :=
  GcState (foldl (λ s p, complete_one p (Some broken_error) s) broken_failed (sample_batch ++ second_batch))
    Returned [set_record "k" "v"; set_record "k" "v"].

Lemma refused_run :
  rtc (gc_step LittleEndian) (GcState broken_written (Failing sample_batch broken_error) [set_record "k" "v"]) refused_gc.
Proof.
  eapply rtc_l; [|eapply rtc_l; [|eapply rtc_l; [|eapply rtc_l; [|apply rtc_once]]]].
  - apply (gc_submit _ _ _ [set_record "k" "v"] (set_record "k" "v") sample_frame 1);
      [split; [by split|vm_compute; reflexivity]|]. apply run_eq. vm_compute. reflexivity.
  - apply (gc_fail _ _ _ _ _ second_batch). apply run_eq. vm_compute. reflexivity.
  - apply gc_complete.
  - apply gc_complete.
  - apply gc_return.
Qed.

Lemma group_commit_failure_witness :
  completed (queue (wal (gc_wal refused_gc))) !! 0%nat = Some (Some broken_error) ∧
  completed (queue (wal (gc_wal refused_gc))) !! 1%nat = Some (Some broken_error) ∧
  enqueue sample_frame (gc_wal refused_gc) = (Exn broken_error, gc_wal refused_gc).
Proof.
  destruct (group_commit_failure LittleEndian [] broken_formed sample_batch [set_record "k" "v"] broken_error
              broken_written broken_reachable) as (first & Hids & _ & Hall).
  { apply run_exn_eq. vm_compute. reflexivity. }
  assert (first = 0%nat) as -> by (cbn in Hids; by injection Hids).
  destruct (Hall refused_gc refused_run) as (_ & _ & _ & Hend & Hrefuse). destruct (Hend eq_refl) as [_ Hans].
  split; [apply Hans; cbn; lia|]. split; [apply Hans; cbn; lia|]. by apply Hrefuse.
Defined.

(** ** Snapshots *)

Definition sample_entries : list (bytes * bytes) := [(str "a", str "1"); (str "b", str "2")].

Lemma sample_readable : Forall entry_readable sample_entries.
Proof. by repeat constructor. Qed.

Lemma snapshot_roundtrip_witness :
  Load LittleEndian (Some (snapshot_image LittleEndian sample_entries 26)) ∅
  = (Ok {| loaded := true; entry_count := 2; wal_offset := 26 |}, list_to_map sample_entries).
Proof.
  apply (snapshot_roundtrip LittleEndian sample_entries 26 ∅);
    [|apply sample_readable|lia|done].
  apply (bool_decide_eq_true_1 (NoDup sample_entries.*1)). vm_compute. reflexivity.
Defined.

Lemma partial_reads_invent_nothing_witness :
  ∃ r, Load LittleEndian (Some (take 10 (snapshot_image LittleEndian sample_entries 26))) ∅ = (r, ∅) ∧
       ∃ e, r = Exn e.
Proof.
  destruct (partial_reads_invent_nothing LittleEndian Unopened None ∅ sample_entries 26 10) as (_ & _ & H).
  destruct H as (r & H & Hr); [apply sample_readable|lia|done|vm_compute; lia|].
  exists r. split; [exact H|]. destruct (decide (10 < 4)%nat); [lia|exact Hr].
Defined.

Lemma oversized_value_unloadable_witness :
  let value := replicate (Z.to_nat (kMaxSnapshotFieldLength + 1)) Byte.x00 in
  wp (SaveVerified LittleEndian default_snapshot [(str "k", value)] 0) (λ _ _, False)
    (λ e w', ∀ m, Load LittleEndian (file_contents (snapshot_path default_snapshot) w') m = (Exn e, m))
    (World ∅ []).
Proof.
  intros value. assert (size_of value = kMaxSnapshotFieldLength + 1) as Hv.
  { unfold size_of, value. rewrite length_replicate, Z2Nat.id; unfold kMaxSnapshotFieldLength; lia. }
  eapply wp_mono; [apply (oversized_value_unloadable LittleEndian default_snapshot [] (str "k") value [] 0 (World ∅ []))
    | |].
  - done.
  - constructor.
  - constructor.
  - done.
  - rewrite Hv. unfold kMaxSnapshotFieldLength, u32_max. lia.
  - lia.
  - done.
  - done.
  - cbn beta. intros e w' (_ & _ & H). exact H.
Defined.

(** ** The store *)

#[local] Instance sample_journal : Journal WriteAheadLog := wal_journal LittleEndian.
#[local] Instance sample_journal_spec : JournalSpec WriteAheadLog := wal_journal_spec LittleEndian.
#[local] Instance sample_journal_laws : JournalLaws WriteAheadLog := wal_journal_laws LittleEndian.

(** A hash function, and an order of iteration. *)
Definition sample_hash (key : bytes) : Z := size_of key.
Definition sample_iterate (m : gmap bytes bytes) : list (bytes * bytes) := map_to_list m.

Lemma sample_iterate_spec m : sample_iterate m ≡ₚ map_to_list m.
Proof. done. Qed.

Definition sample_store : store_state WriteAheadLog :=
  StoreState (new_store (Some (sample_wal Buffered)) (Some default_snapshot)) sample_os.

Lemma sample_store_ok : store_ok sample_hash (kv sample_store).
Proof. apply new_store_ok. Qed.

Lemma sample_contents : contents_of (kv sample_store) = ∅.
Proof. apply new_store_ok. exact sample_hash. Qed.

(** Whatever outcomes the machine has in store. *)
Lemma sample_agree script :
  agree LittleEndian sample_hash (StoreState (kv sample_store) (with_script script sample_os))
    (sample_wal Buffered) default_snapshot [] [] ∅.
Proof.
  split; [apply sample_store_ok|done|done| | | |apply sample_contents].
  - apply (bool_decide_eq_true_1 _). vm_compute. reflexivity.
  - split; [by split|done].
  - eexists _, ∅. split; [vm_compute; reflexivity|]. split; [|done]. split; [by right|]. vm_compute. discriminate.
Qed.

Lemma sample_persistent : persistent LittleEndian sample_hash sample_store.
Proof. exists (sample_wal Buffered), default_snapshot, [], [], ∅. apply (sample_agree []). Qed.

Lemma sample_savable : savable (contents_of (kv sample_store)).
Proof. rewrite sample_contents. split; [apply map_Forall_empty|]. rewrite map_size_empty. by vm_compute. Qed.

Lemma writes_refine_map_witness :
  wp (Set_ sample_hash (str "k") (str "v"))
    (λ _ t', contents_of (kv t') = <[str "k" := str "v"]> (contents_of (kv sample_store)))
    (λ _ t', shards_ (kv t') = shards_ (kv sample_store)) sample_store.
Proof.
  destruct (writes_refine_map sample_hash sample_store (str "k") (str "v") sample_store_ok) as [H _].
  eapply wp_mono; [exact H| |done]. intros [] t' [_ Hc]. exact Hc.
Defined.

Lemma reads_refine_map_witness :
  Get sample_hash (str "k") sample_store = (Ok (contents_of (kv sample_store) !! str "k"), sample_store).
Proof.
  apply (reads_refine_map sample_hash sample_iterate sample_iterate_spec sample_store (str "k") ∅ sample_store_ok).
Defined.

Lemma copies_and_moves_witness :
  ∃ e, copy_store sample_hash sample_iterate (kv sample_store) = Exn e.
Proof.
  destruct (copies_and_moves sample_hash sample_iterate sample_iterate_spec [] (kv sample_store) (kv sample_store)
    sample_store_ok sample_store_ok) as (_ & _ & H). apply H. by eexists.
Defined.

Lemma writes_stay_recoverable_witness :
  wp (Set_ sample_hash (str "k") (str "v"))
    (λ _ t', persistent LittleEndian sample_hash t') (λ _ _, True) sample_store.
Proof.
  destruct (writes_stay_recoverable LittleEndian sample_hash sample_store (str "k") (str "v") sample_persistent) as [H _].
  eapply wp_mono; [exact H| |done]. intros [] t' [Hp _]. exact Hp.
Defined.

Lemma save_snapshot_recoverable_witness :
  wp (SaveSnapshot LittleEndian sample_iterate)
    (λ b t', b = true) (λ _ t', recovers LittleEndian t' (contents_of (kv sample_store))) sample_store.
Proof.
  eapply wp_mono; [apply (save_snapshot_recoverable LittleEndian sample_hash sample_iterate sample_iterate_spec
    sample_store sample_persistent sample_savable)| |].
  - intros b t' [H _]. exact H.
  - intros e t' [_ H]. exact H.
Defined.

Lemma compaction_recoverable_witness :
  wp (CompactPersistence LittleEndian sample_iterate)
    (λ b t', b = true) (λ _ t', recovers LittleEndian t' (contents_of (kv sample_store))) sample_store.
Proof.
  eapply wp_mono; [apply (compaction_recoverable LittleEndian sample_hash sample_iterate sample_iterate_spec
    sample_store sample_persistent sample_savable)| |].
  - intros b t' [H _]. exact H.
  - intros e t' [_ H]. exact H.
Defined.

Lemma clear_persistence_empties_witness :
  wp ClearPersistence (λ _ t', recovers LittleEndian t' ∅) (λ _ _, True) sample_store.
Proof.
  destruct (clear_persistence_empties LittleEndian sample_hash sample_store sample_persistent) as [H _].
  eapply wp_mono; [exact H| |done]. intros [] t' [_ Hr]. exact Hr.
Defined.

#[local] Instance sample_journal_durable : JournalDurable WriteAheadLog := wal_durable_journal LittleEndian.
#[local] Instance sample_journal_durable_laws : JournalDurableLaws WriteAheadLog := wal_durable_laws LittleEndian.

(** The same store with a log under [Sync]. *)
Definition sync_store : store_state WriteAheadLog :=
  StoreState (new_store (Some (sample_wal Sync)) (Some default_snapshot)) sample_os.

Lemma sync_store_durable : durable_store LittleEndian sample_hash sync_store.
Proof.
  split.
  - exists (sample_wal Sync), default_snapshot, [], [], ∅.
    split; [apply sample_store_ok|done|done| | | |apply sample_contents].
    + apply (bool_decide_eq_true_1 _). vm_compute. reflexivity.
    + split; [by split|done].
    + eexists _, ∅. split; [vm_compute; reflexivity|]. split; [|done]. split; [by right|]. vm_compute. discriminate.
  - exists (sample_wal Sync), default_snapshot. split; [done|]. split; [done|]. split.
    + apply (bool_decide_eq_true_1 _). vm_compute. reflexivity.
    + split; [|by left]. split; [done|]. split; [done|]. by exists empty_file.
Qed.

Lemma store_survives_power_failure_witness :
  wp (run_updates LittleEndian sample_hash sample_iterate
        [USet (str "k") (str "v"); USaveSnapshot; UDelete (str "k"); UCompactPersistence])
    (λ _ t', contents_of (kv t') = ∅ ∧ survives LittleEndian t' [contents_of (kv t')])
    (λ _ _, True) sync_store.
Proof.
  assert (contents_of (kv sync_store) = ∅) as Hc by apply sample_contents.
  assert (saves_fit (contents_of (kv sync_store))
    [USet (str "k") (str "v"); USaveSnapshot; UDelete (str "k"); UCompactPersistence]) as Hfit.
  { rewrite Hc. cbn [saves_fit update_effect]. split_and!; try done.
    split; [|by vm_compute]. apply map_Forall_insert_2; [|apply map_Forall_empty]. split; by vm_compute. }
  eapply wp_mono; [apply (store_survives_power_failure LittleEndian sample_hash sample_iterate sample_iterate_spec
    _ sync_store sync_store_durable Hfit)| |done].
  intros [] t' (_ & Hm & Hs). split; [|exact Hs]. rewrite Hm, Hc. cbn [foldl update_effect].
  by rewrite delete_insert_id.
Defined.

(** A power failure that finds everything synchronized takes nothing. *)
Lemma power_failure_idle w :
  map_Forall (λ _ x, synced x = contents x) (files w) → power_failure w (with_script [] w).
Proof.
  intros Hall p. cbn. destruct (files w !! p) as [x|] eqn:Hx; constructor.
  specialize (Hall p x Hx). cbn in Hall. split; [done|by rewrite Hall|by left].
Qed.

(** Two sessions with a power failure between them. *)
Definition first_session : store_state WriteAheadLog :=
  (run_updates LittleEndian sample_hash sample_iterate [USet (str "k") (str "v")] sync_store).2.
Definition second_start : res (KVStore WriteAheadLog) * world :=
  start LittleEndian sample_hash sample_iterate (sample_config Sync) default_snapshot
    (with_script [] (kv_os first_session)).
Definition second_session : store_state WriteAheadLog :=
  match second_start with
  | (Ok s, w) => (run_updates LittleEndian sample_hash sample_iterate [USet (str "l") (str "w")] (StoreState s w)).2
  | _ => first_session
  end.

Lemma two_sessions :
  lives LittleEndian sample_hash sample_iterate sync_store second_session
    [USet (str "k") (str "v"); USet (str "l") (str "w")].
Proof.
  destruct second_start as [[s|e] w] eqn:Hstart.
  2: { apply (f_equal fst) in Hstart. vm_compute in Hstart. discriminate Hstart. }
  apply (lives_again LittleEndian sample_hash sample_iterate sync_store [USet (str "k") (str "v")] first_session
    (with_script [] (kv_os first_session)) (sample_config Sync) default_snapshot s w second_session).
  - unfold first_session. apply run_eq. vm_compute. reflexivity.
  - apply power_failure_idle, (bool_decide_eq_true_1 _). vm_compute. reflexivity.
  - split; [eexists; split; [vm_compute; reflexivity|vm_compute; reflexivity]|vm_compute; reflexivity|done|done].
  - exact Hstart.
  - apply lives_on. unfold second_session. rewrite Hstart. apply run_eq.
    pose proof (f_equal (λ x, match x with
      | (Ok s, w) => (run_updates LittleEndian sample_hash sample_iterate [USet (str "l") (str "w")] (StoreState s w)).1
      | _ => Ok tt end) Hstart) as Hrun. cbn beta iota in Hrun. rewrite <-Hrun. vm_compute. reflexivity.
Qed.

Lemma sessions_add_up_witness :
  contents_of (kv second_session) = <[str "l" := str "w"]> {[ str "k" := str "v" ]}.
Proof.
  assert (contents_of (kv sync_store) = ∅) as Hc by apply sample_contents.
  destruct (sessions_add_up LittleEndian sample_hash sample_iterate sample_iterate_spec sync_store second_session
    [USet (str "k") (str "v"); USet (str "l") (str "w")] sync_store_durable) as (_ & H & _);
    [by cbn|exact two_sessions|]. rewrite H, Hc. reflexivity.
Defined.

(** The same store when calls of the system fail. *)
Definition failing_store (outs : list io_outcome) : store_state WriteAheadLog :=
  StoreState (kv sync_store) (with_script outs sample_os).

Lemma failing_store_durable outs : durable_store LittleEndian sample_hash (failing_store outs).
Proof.
  split.
  - exists (sample_wal Sync), default_snapshot, [], [], ∅.
    split; [apply sample_store_ok|done|done| | | |apply sample_contents].
    + apply (bool_decide_eq_true_1 _). vm_compute. reflexivity.
    + split; [by split|done].
    + eexists _, ∅. split; [vm_compute; reflexivity|]. split; [|done]. split; [by right|]. vm_compute. discriminate.
  - exists (sample_wal Sync), default_snapshot. split; [done|]. split; [done|]. split.
    + apply (bool_decide_eq_true_1 _). vm_compute. reflexivity.
    + split; [|by left]. split; [done|]. split; [done|]. by exists empty_file.
Qed.

(** A power failure after the system has written everything back. *)
Definition written_back (w : world) : world := World (mark_synced <$> files w) [].

Lemma power_failure_written_back w :
  map_Forall (λ _ x, synced x `prefix_of` contents x) (files w) → power_failure w (written_back w).
Proof.
  intros Hall p. unfold written_back. cbn. rewrite lookup_fmap.
  destruct (files w !! p) as [x|] eqn:Hx; constructor.
  specialize (Hall p x Hx). cbn in Hall. split; [done|done|by left].
Qed.

(** The second write stops after five bytes of its frame. *)
Definition torn_outcomes : list io_outcome := [IoOk; IoOk; IoOk; IoFail 5 5].
Definition torn_session : lifetime := Lifetime [USet (str "k") (str "v")] (Some (USet (str "l") (str "w"))).
Definition torn_first : store_state WriteAheadLog :=
  (run_updates LittleEndian sample_hash sample_iterate (life_returned torn_session) (failing_store torn_outcomes)).2.
Definition torn_second : store_state WriteAheadLog :=
  (run_update LittleEndian sample_hash sample_iterate (USet (str "l") (str "w")) torn_first).2.
Definition torn_start : res (KVStore WriteAheadLog) * world :=
  start_repaired LittleEndian sample_hash sample_iterate (sample_config Sync) default_snapshot
    (written_back (kv_os torn_second)).

Lemma torn_life :
  match torn_start with
  | (Ok s, w) => through LittleEndian sample_hash sample_iterate (failing_store torn_outcomes) [torn_session] (StoreState s w)
  | _ => False
  end.
Proof.
  destruct torn_start as [[s|e] w] eqn:Hstart.
  2: { apply (f_equal fst) in Hstart. vm_compute in Hstart. discriminate Hstart. }
  eapply (through_session _ _ _ _ _ torn_second (written_back (kv_os torn_second)) (sample_config Sync)
    default_snapshot); [| | |left; exact Hstart|constructor].
  - exists torn_first. split; [unfold torn_first; apply run_eq; vm_compute; reflexivity|].
    exists (runtime_error (str "failed to write WAL frame")). unfold torn_second.
    destruct (run_update _ _ _ _ torn_first) as [r t] eqn:Hrun. apply (f_equal fst) in Hrun. cbn [fst] in Hrun.
    cbn [snd]. f_equal. rewrite <-Hrun. vm_compute. reflexivity.
  - apply power_failure_written_back, (bool_decide_eq_true_1 _). vm_compute. reflexivity.
  - split; [eexists; split; vm_compute; reflexivity|vm_compute; reflexivity|done|done].
Qed.

(** The log that was repaired has no byte of the failed write; the write before it is
    there. *)
Example torn_start_repairs :
  size_of <$> file_contents sample_path (kv_os torn_second) = Some 56 ∧
  size_of <$> file_contents sample_path torn_start.2 = Some 51.
Proof. vm_compute. split; reflexivity. Qed.

Lemma failed_sessions_add_up_witness :
  match torn_start with
  | (Ok s, _) => contents_of s = {[ str "k" := str "v" ]} ∨
                 contents_of s = <[str "l" := str "w"]> {[ str "k" := str "v" ]}
  | _ => False
  end.
Proof.
  pose proof torn_life as Hlife. destruct torn_start as [[s|e] w]; [|done].
  assert (contents_of (kv (failing_store torn_outcomes)) = ∅) as Hc by apply sample_contents.
  destruct (failed_sessions_add_up LittleEndian sample_hash sample_iterate sample_iterate_spec
    (failing_store torn_outcomes) (StoreState s w) [torn_session] (failing_store_durable torn_outcomes))
    as (_ & (vs & Hk & H) & _); [|exact Hlife|].
  - intros vs Hk. inversion Hk as [|? ? ws Hws|? u ? ws Hu Hws]; subst; inversion Hws; subst; [by cbn|].
    injection Hu as <-. by cbn.
  - cbn [kv] in H. rewrite H, Hc. inversion Hk as [|? ? ws Hws|? u ? ws Hu Hws]; subst; inversion Hws; subst;
      [by left|]. injection Hu as <-. by right.
Defined.

(** The log was emptied and the snapshot of its first 100 bytes is still there. *)
Definition stale_os : world :=
  World {[ sample_path := empty_file;
           str "kv_store.snapshot" :=
             File (snapshot_image LittleEndian [(str "old", str "x")] 100) [] ]} [].
Definition stale_store : store_state WriteAheadLog := StoreState (kv sample_store) stale_os.

Lemma stale_snapshot_hides_writes_witness :
  wp (Set_ sample_hash (str "k") (str "v"))
    (λ _ t', contents_of (kv t') !! str "k" = Some (str "v") ∧
             recovers LittleEndian t' {[ str "old" := str "x" ]})
    (λ _ _, True) stale_store.
Proof.
  assert (file_contents (snapshot_path default_snapshot) stale_os
          = Some (snapshot_image LittleEndian [(str "old", str "x")] 100)) as Hfile.
  { unfold file_contents, stale_os. cbn [files]. rewrite lookup_insert_ne by done. by rewrite lookup_singleton_eq. }
  assert (Load LittleEndian (file_contents (snapshot_path default_snapshot) stale_os) ∅
          = (Ok {| loaded := true; entry_count := 1; wal_offset := 100 |}, {[ str "old" := str "x" ]})) as Hload.
  { rewrite Hfile. apply (Load_image LittleEndian [(str "old", str "x")] 100 ∅);
      [apply NoDup_singleton|by repeat constructor|lia|done]. }
  eapply wp_mono; [apply (stale_snapshot_hides_writes LittleEndian sample_hash stale_store (sample_wal Buffered)
    default_snapshot [] {| loaded := true; entry_count := 1; wal_offset := 100 |} {[ str "old" := str "x" ]}
    (str "k") (str "v")
    (size_of (log_image LittleEndian (V3 1) [set_record "k" "v"])) sample_store_ok eq_refl eq_refl)| |done].
  - apply (bool_decide_eq_true_1 _). vm_compute. reflexivity.
  - split; [by split|done].
  - exact Hload.
  - by split.
  - split; [by left|]. vm_compute. discriminate.
  - vm_compute. discriminate.
  - cbn beta. intros [] t' [-> Hr]. split; [apply lookup_insert_eq|exact Hr].
Defined.

(** ** Interleavings *)

Definition start_run : run (W := WriteAheadLog) := Checkpointing.Run sample_store [] Sleeping Nobody.

(** A write has reached the log and not yet memory. *)
Definition in_flight : run (W := WriteAheadLog) :=
  Checkpointing.Run (on_wal_ptr tt (journal_write (set_record "k" "v")) sample_store).2
    [set_record "k" "v"] Sleeping Nobody.

Lemma in_flight_reachable :
  rtc (allowed LittleEndian sample_hash sample_iterate) start_run in_flight.
Proof.
  eapply rtc_l; [|apply rtc_refl]. split; [apply sample_savable|].
  apply (step_log LittleEndian sample_hash sample_iterate sample_store [] Sleeping Nobody (set_record "k" "v"));
    [constructor|done|]. apply run_eq. vm_compute. reflexivity.
Qed.

Lemma checkpoint_interleavings_witness :
  recovers LittleEndian (run_store in_flight) (pending_contents in_flight).
Proof.
  apply (checkpoint_interleavings LittleEndian sample_hash sample_iterate sample_iterate_spec
           sample_store in_flight sample_persistent in_flight_reachable).
Defined.

(** The same under [Sync]. *)
Definition sync_in_flight : run (W := WriteAheadLog) :=
  Checkpointing.Run (on_wal_ptr tt (journal_write (set_record "k" "v")) sync_store).2
    [set_record "k" "v"] Sleeping Nobody.

Lemma sync_in_flight_reachable :
  rtc (allowed LittleEndian sample_hash sample_iterate) (Checkpointing.Run sync_store [] Sleeping Nobody)
    sync_in_flight.
Proof.
  eapply rtc_l; [|apply rtc_refl]. split; [apply sample_savable|].
  apply (step_log LittleEndian sample_hash sample_iterate sync_store [] Sleeping Nobody (set_record "k" "v"));
    [constructor|done|]. apply run_eq. vm_compute. reflexivity.
Qed.

Lemma interleavings_survive_power_failure_witness :
  survives LittleEndian (run_store sync_in_flight) [pending_contents sync_in_flight].
Proof.
  apply (interleavings_survive_power_failure LittleEndian sample_hash sample_iterate sample_iterate_spec
           sync_store sync_in_flight sync_store_durable sync_in_flight_reachable).
Defined.

(** The first write to the file fails. *)
Definition doomed_store : store_state WriteAheadLog :=
  StoreState (kv sample_store) (with_script [IoFail 3 5] sample_os).

Lemma interleaved_failures_witness :
  let t' := (on_wal_ptr tt (journal_write (set_record "k" "v")) doomed_store).2 in
  contents_of (kv t') = contents_of (kv doomed_store).
Proof.
  intros t'. apply (interleaved_failures LittleEndian sample_hash sample_iterate sample_iterate_spec
    doomed_store (Checkpointing.Run doomed_store [] Sleeping Nobody) t' (Some (set_record "k" "v"))).
  - exists (sample_wal Buffered), default_snapshot, [], [], ∅. apply sample_agree.
  - apply rtc_refl.
  - apply sample_savable.
  - apply (fails_write _ _ _ _ _ _ _ (runtime_error (str "failed to write WAL header"))); [done|].
    apply run_exn_eq. vm_compute. reflexivity.
Defined.

(** ** Threads with their locks *)

(** The next state when thread [t] moves. *)
Definition move_thread (t : nat) (s : lsystem (W := WriteAheadLog)) : lsystem :=
  match lk_threads s !! t with
  | Some (LThread h (Lock l m c) g) => set_lthread t (LThread (<[l := m]> h) c g) s
  | Some (LThread h (Unlock l c) g) => set_lthread t (LThread (delete l h) c g) s
  | Some (LThread h (Do a k) g) =>
      let r := perform LittleEndian sample_hash sample_iterate a (lk_store s) in
      LSystem r.2 (<[t := LThread h (k r.1) (next_stage g a r.1)]> (lk_threads s))
  | Some (LThread _ Stop _) => LSystem (lk_store s) (delete t (lk_threads s))
  | None => s
  end.

(** Whether it may: the lock is free of other threads; the action does not throw. *)
Definition can_move (t : nat) (s : lsystem (W := WriteAheadLog)) : bool :=
  match lk_threads s !! t with
  | Some (LThread _ (Lock l m _) _) =>
      bool_decide (map_Forall (λ t' th, t' = t ∨ lt_held th !! l = None) (lk_threads s))
  | Some (LThread _ (Do a _) _) =>
      match throws a (perform LittleEndian sample_hash sample_iterate a (lk_store s)).1 with None => true | Some _ => false end
  | Some _ => true
  | None => false
  end.

Lemma move_thread_moves t s : can_move t s = true → moves LittleEndian sample_hash sample_iterate t s None (move_thread t s).
Proof.
  unfold can_move, move_thread. destruct (lk_threads s !! t) as [[h [|l m c|l c|a k] g]|] eqn:Ht; [..|done].
  - intros _. by eapply moves_stop.
  - intros Hf%bool_decide_eq_true_1. eapply moves_lock; [exact Ht|]. intros t' th m' Hne Ht' Hl.
    destruct (Hf t' th Ht') as [|Hno]; [done|]. by rewrite Hno in Hl.
  - intros _. by eapply moves_unlock.
  - destruct (perform LittleEndian sample_hash sample_iterate a (lk_store s)) as [r st] eqn:Hrun. cbn [fst snd].
    destruct (throws a r) eqn:Hth; [done|]. intros _. rewrite <-Hth. by eapply moves_do.
Qed.

Fixpoint move_all (ts : list nat) (s : lsystem (W := WriteAheadLog)) : lsystem :=
  match ts with [] => s | t :: ts => move_all ts (move_thread t s) end.

(** No shard holds anything on the way. *)
Fixpoint can_move_all (ts : list nat) (s : lsystem (W := WriteAheadLog)) : bool :=
  match ts with
  | [] => true
  | t :: ts => bool_decide (shards_ (kv (lk_store s)) = shards_ (kv sample_store)) && can_move t s && can_move_all ts (move_thread t s)
  end.

Lemma move_all_goes_on ts s :
  can_move_all ts s = true → rtc (goes_on LittleEndian sample_hash sample_iterate) s (move_all ts s).
Proof.
  revert s. induction ts as [|t ts IH]; intros s; cbn [can_move_all move_all]; [reflexivity|].
  intros [[Hs%bool_decide_eq_true_1 Hm]%andb_true_iff Hrest]%andb_true_iff.
  eapply rtc_l; [|by apply IH]. split; [|by exists t; apply move_thread_moves].
  unfold contents_of. rewrite Hs. apply sample_savable.
Qed.

(** Thread 0 sets a key, thread 1 reads another. *)
Definition starting : lsystem (W := WriteAheadLog) :=
  LSystem sample_store
    (<[1%nat := LThread ∅ (code_of sample_hash (ReadKey (str "other"))) Idle]>
       {[ 0%nat := LThread ∅ (code_of sample_hash (Write (set_record "k" "v"))) Idle ]}).

(** The write has its shard and is in the log; the reader has the lock of its own. *)
Definition between : lsystem (W := WriteAheadLog) := move_all [0; 1; 0; 0; 0; 0]%nat starting.

Lemma starting_reachable :
  rtc (goes_on LittleEndian sample_hash sample_iterate) (LSystem sample_store ∅) starting.
Proof.
  set (s0 := LSystem sample_store ∅).
  pose proof (moves_begin LittleEndian sample_hash sample_iterate 0 s0 (Write (set_record "k" "v"))) as H1.
  match type of H1 with _ → _ → moves _ _ _ _ _ _ ?s => set (s1 := s) in H1 end.
  pose proof (moves_begin LittleEndian sample_hash sample_iterate 1 s1 (ReadKey (str "other"))) as H2.
  apply (rtc_l _ _ s1); [|apply rtc_once]; (split; [apply sample_savable|]); [exists 0%nat|exists 1%nat].
  - apply H1; [done|]. by intros r [= <-].
  - by apply H2.
Qed.

Lemma between_reachable :
  rtc (goes_on LittleEndian sample_hash sample_iterate) (LSystem sample_store ∅) between.
Proof. etransitivity; [apply starting_reachable|]. apply move_all_goes_on. vm_compute. reflexivity. Qed.

Lemma between_logged : stage_of between 0 = Logged (set_record "k" "v").
Proof. vm_compute. reflexivity. Qed.

Lemma locked_calls_stay_recoverable_witness :
  ∃ ls, (0%nat, set_record "k" "v") ∈ ls ∧ recovers LittleEndian (lk_store between) (settled between ls).
Proof.
  destruct (locked_calls_stay_recoverable LittleEndian sample_hash sample_iterate sample_iterate_spec
              sample_store between sample_persistent between_reachable) as (ls & [_ Hls] & H & _).
  exists ls. split; [apply Hls, between_logged|exact H].
Defined.

(** ** Signals and single calls *)

Lemma destroy_drains_witness :
  ∃ t', destroy LittleEndian sample_iterate 2 sample_store = (Ok true, t') ∧
        recovers LittleEndian t' (contents_of (kv sample_store)).
Proof.
  destruct (destroy_drains LittleEndian sample_hash sample_iterate sample_iterate_spec sample_store
              sample_persistent sample_savable) as (t' & H1 & _ & H2 & _).
  exists t'. split; [exact H1|exact H2].
Defined.

Lemma checkpoint_trigger_witness :
  wp (count_writes 1000) (λ _ t', checkpoint_requested_ (kv t') = true) (λ _ _, False) sample_store.
Proof.
  destruct (checkpoint_trigger LittleEndian sample_hash sample_iterate sample_store default_snapshot 1000
              default_snapshot) as [H _]; [done|done|done|exact H].
Defined.

(** A caller waits while the checkpoint it waits for is being written. *)
Definition waiting_signals : signals := Signals false true LoopWorking 1 0.

Lemma waiting_reachable : rtc (signal_step false) signals_init waiting_signals.
Proof.
  eapply rtc_l; [right; apply (call_wait false false false LoopReady 0 0)|].
  eapply rtc_l; [right; apply call_schedule; by apply notify_nobody|].
  eapply rtc_l; [left; by apply waiter_waits|]. apply rtc_once. left. apply loop_takes.
Qed.

Lemma waiters_return_witness :
  sn internal waiting_signals ∧
  (∀ s', rtc internal waiting_signals s' → (∀ s'', ¬ internal s' s'') → callers s' = 0%nat ∧ sig_requested s' = false).
Proof. apply (waiters_return waiting_signals), waiting_reachable. Defined.

Definition sample_submitted : commit_signals :=
  CommitSignals [Request false Notifies] [0%nat] WriterSleeps false false false.

Lemma submitters_return_witness :
  sn commit_internal sample_submitted ∧
  (∀ s', rtc commit_internal sample_submitted s' → (∀ s'', ¬ commit_internal s' s'') →
     Forall (λ r, submitter r = Left ∧ complete r = true) (sig_requests s') ∧
     (sig_stopping s' = true → sig_writer s' = WriterGone)).
Proof.
  apply (submitters_return sample_submitted).
  eapply rtc_l; [left; apply writer_sleeps|]. apply rtc_once. right. apply (submit [] [] WriterSleeps false).
Defined.

(** ** Calls of several threads *)

(** A schedule, and its run. *)
Inductive move := Begin (t : nat) (c : call) (o : fortune) | Go (t : nat) | Finish (t : nat).

Fixpoint play (moves : list move) (s : system) : option (list (event call) * system) :=
  match moves with
  | [] => Some ([], s)
  | Begin t c o :: moves =>
      match sys_threads s !! t with
      | None => '(es, s') ← play moves (set_thread t
                    (Thread ∅ (program sample_hash sample_iterate true true c o)) s);
                Some (Invoke t c :: es, s')
      | Some _ => None
      end
  | Go t :: moves => s1 ← advance_thread t s; play moves s1
  | Finish t :: moves =>
      match sys_threads s !! t with
      | Some (Thread h (Return r)) =>
          '(es, s') ← play moves (System (sys_shards s) (delete t (sys_threads s)));
          Some (Respond t r :: es, s')
      | _ => None
      end
  end.

Lemma play_execution moves : ∀ s es s',
  play moves s = Some (es, s') → execution (calls_step sample_hash sample_iterate true true) s es s'.
Proof.
  induction moves as [|[t c o|t|t] moves IH]; intros s es s' H; cbn in H.
  - injection H as <- <-. constructor.
  - destruct (sys_threads s !! t) eqn:Ht; [done|].
    apply bind_Some in H as ([es1 s1] & H & [= <- <-]).
    eapply execution_event; [by eapply (call_invoked _ _ _ _ t c o), begin|by apply IH].
  - apply bind_Some in H as (s1 & Hs1%advance_thread_advances & H).
    eapply execution_silent; [by eapply call_advances|by apply IH].
  - destruct (sys_threads s !! t) as [[h []]|] eqn:Ht; try done.
    apply bind_Some in H as ([es1 s1] & H & [= <- <-]).
    eapply execution_event; [by eapply call_responds, StoreLocks.answer|by apply IH].
Qed.

Definition lucky : fortune := {|
  checkpoint_failed := false; checkpoint_due := true; checkpoint_cancelled := false;
  wal_outcome_ := WalDone; snapshot_throws := false |}.

Definition empty_shards : list (gmap bytes bytes) := replicate 64 ∅.

Lemma empty_shards_ok : shards_ok sample_hash empty_shards.
Proof. apply (shards_ok_empty sample_hash (replicate 64 ∅)). done. Qed.

(** [Size] starts first, waits for the shard that [Set] holds, and counts the new
    entry; a round of the checkpoint thread is in progress at the end. *)
Definition sample_schedule : list move :=
  [Begin 0 CallSize lucky; Begin 1 (CallSet (str "k") (str "v")) lucky]
  ++ replicate 9 (Go 1) ++ [Go 0] ++ replicate 4 (Go 1) ++ [Finish 1]
  ++ replicate 191 (Go 0) ++ [Finish 0; Begin 2 CheckpointRound lucky].

Definition sample_run : list (event call) * system :=
  default ([], at_rest empty_shards) (play sample_schedule (at_rest empty_shards)).

Lemma sample_run_execution :
  execution (calls_step sample_hash sample_iterate true true) (at_rest empty_shards) sample_run.1 sample_run.2.
Proof.
  apply (play_execution sample_schedule). unfold sample_run.
  destruct (play sample_schedule (at_rest empty_shards)) as [[es s]|] eqn:E; [done|].
  apply (f_equal (λ r, bool_decide (is_Some r))) in E. vm_compute in E. done.
Qed.

Lemma calls_are_atomic_witness :
  sample_run.1 = [Invoke 0 CallSize; Invoke 1 (CallSet (str "k") (str "v")); Respond 1 Done;
                  Respond 0 (Count 1); Invoke 2 CheckpointRound] ∧
  ∃ a, execution (object_step true true) (Object (all_data empty_shards) ∅) sample_run.1 a ∧
       (sys_threads sample_run.2 = ∅ →
        shards_ok sample_hash (sys_shards sample_run.2) ∧ all_data (sys_shards sample_run.2) = obj_map a).
Proof.
  split; [vm_compute; reflexivity|].
  apply (calls_are_atomic sample_hash sample_iterate sample_iterate_spec true true empty_shards);
    [apply empty_shards_ok|apply sample_run_execution].
Defined.

Lemma every_call_returns_witness :
  (sys_threads sample_run.2 ≠ ∅ → ∃ t, runnable sample_run.2 t) ∧ Acc (flip proceeds) sample_run.2 ∧
  ∃ s', rtc proceeds sample_run.2 s' ∧ sys_threads s' = ∅.
Proof.
  apply (every_call_returns sample_hash sample_iterate true true empty_shards sample_run.1).
  apply sample_run_execution.
Defined.

(** ** Stores that are assigned to each other *)

Inductive store_move := MBegin (t : nat) (c : store_call) | MGo (t : nat) | MFinish (t : nat).

Local Abbreviation moved := (λ _ : nat, ∅ : gmap bytes bytes).
Local Abbreviation no_snapshots := (λ _ : nat, false).

Fixpoint play_stores (moves : list store_move) (u : world_of_stores)
    : option (list (event store_call) * world_of_stores) :=
  match moves with
  | [] => Some ([], u)
  | MBegin t c :: moves =>
      if decide (m_threads u !! t = None ∧ Forall (λ s, is_Some (m_stores u !! s)) (stores_of c)) then
        '(es, u') ← play_stores moves (set_mthread t (MThread (role_of c) ∅
                      (store_program sample_hash sample_iterate no_snapshots moved c lucky)) u);
        Some (Invoke t c :: es, u')
      else None
  | MGo t :: moves => u1 ← m_advance_thread t u; play_stores moves u1
  | MFinish t :: moves =>
      match m_threads u !! t with
      | Some (MThread ro h (MReturn r)) =>
          '(es, u') ← play_stores moves (Stores (m_stores u) (delete t (m_threads u)));
          Some (Respond t r :: es, u')
      | _ => None
      end
  end.

Local Abbreviation sample_step := (stores_step sample_hash sample_iterate no_snapshots moved).

Lemma play_stores_execution moves : ∀ u es u',
  play_stores moves u = Some (es, u') → execution sample_step u es u'.
Proof.
  induction moves as [|[t c|t|t] moves IH]; intros u es u' H; cbn in H.
  - injection H as <- <-. constructor.
  - case_decide as Ht; [|done]. destruct Ht as [Ht Hs].
    apply bind_Some in H as ([es1 u1] & H & [= <- <-]).
    eapply execution_event; [|by apply IH]. eapply (store_invoked _ _ _ _ t c lucky); [|by constructor].
    by apply Forall_forall.
  - apply bind_Some in H as (u1 & Hu1%m_advance_thread_advances & H).
    eapply execution_silent; [by eapply store_advances|by apply IH].
  - destruct (m_threads u !! t) as [[ro h []]|] eqn:Ht; try done.
    apply bind_Some in H as ([es1 u1] & H & [= <- <-]).
    eapply execution_event; [by eapply store_responds, m_answer|by apply IH].
Qed.

(** The store 1 is copied to the store 0 while a reader of store 0 waits and a move
    in the other direction begins; the reader then finds what was copied. *)
Definition full_shards : list (gmap bytes bytes) :=
  foldl (insert_in_shard sample_hash) empty_shards [(str "k", str "v")].
Definition two_stores : memory := {[ 0%nat := empty_shards; 1%nat := full_shards ]}.
Definition crossing_schedule : list store_move :=
  [MBegin 0 (AssignCopy 0 1)] ++ replicate 65 (MGo 0) ++
  [MBegin 1 (OnStore 0 0 true (CallGet (str "k"))); MBegin 2 (AssignMove 1 0)] ++
  replicate 323 (MGo 0) ++ [MFinish 0] ++ replicate 3 (MGo 1) ++ [MFinish 1; MGo 2; MGo 2].

Definition crossing : list (event store_call) * world_of_stores :=
  default ([], Stores two_stores ∅) (play_stores crossing_schedule (Stores two_stores ∅)).

Lemma crossing_execution : execution sample_step (Stores two_stores ∅) crossing.1 crossing.2.
Proof.
  apply (play_stores_execution crossing_schedule). unfold crossing.
  destruct (play_stores crossing_schedule (Stores two_stores ∅)) as [[es u]|] eqn:E; [done|].
  apply (f_equal (λ r, bool_decide (is_Some r))) in E. vm_compute in E. done.
Qed.

Lemma two_stores_ok : stores_ok sample_hash two_stores.
Proof.
  pose proof empty_shards_ok as Hok. apply map_Forall_insert_2; [done|]. apply map_Forall_singleton.
  by apply (foldl_insert_in_shard sample_hash).
Qed.

Lemma stores_are_atomic_witness :
  crossing.1 = [Invoke 0 (AssignCopy 0 1); Invoke 1 (OnStore 0 0 true (CallGet (str "k"))); Invoke 2 (AssignMove 1 0);
                Respond 0 Done; Respond 1 (Value (Some (str "v")))] ∧
  ∃ a, execution (objects_step no_snapshots moved) (Objects (maps_of two_stores) ∅) crossing.1 a ∧
       (m_threads crossing.2 = ∅ →
        stores_ok sample_hash (m_stores crossing.2) ∧ maps_of (m_stores crossing.2) = obj_maps a).
Proof.
  split; [vm_compute; reflexivity|].
  apply (stores_are_atomic sample_hash sample_iterate sample_iterate_spec no_snapshots moved);
    [by intros i k [v Hv]; rewrite lookup_empty in Hv|apply two_stores_ok|apply crossing_execution].
Defined.

Lemma execution_steps u es u' :
  execution sample_step u es u' → rtc (m_step sample_hash sample_iterate no_snapshots moved) u u'.
Proof.
  assert (∀ e u1 u2, sample_step e u1 u2 → m_step sample_hash sample_iterate no_snapshots moved u1 u2) as Hstep.
  { intros e u1 u2 [t c o u3 u4 _ Hb|t r u3 u4 Ha|t u3 u4 Ha]; [left; by exists t, c, o|right; exists t; eauto..]. }
  intros Hrun. induction Hrun; [constructor|eapply rtc_l; eauto..].
Qed.

Lemma assignments_never_deadlock_witness :
  (m_threads crossing.2 ≠ ∅ → ∃ t, m_runnable crossing.2 t) ∧ Acc (flip m_proceeds) crossing.2 ∧
  ∃ u', rtc m_proceeds crossing.2 u' ∧ m_threads u' = ∅.
Proof.
  apply (assignments_never_deadlock sample_hash sample_iterate no_snapshots moved two_stores).
  apply (execution_steps _ crossing.1), crossing_execution.
Defined.

Definition target_store : KVStore WriteAheadLog := new_store None None.
Definition source_store : KVStore WriteAheadLog :=
  ReplaceDataLocked sample_hash sample_iterate {[ str "k" := str "v" ]} target_store.
Definition both_stores : gmap nat (list (gmap bytes bytes)) :=
  {[ 0%nat := shards_ target_store; 1%nat := shards_ source_store ]}.

Lemma assignments_run_alone_witness :
  mrun_alone (assign_copy_program sample_hash sample_iterate (checkpoints target_store || checkpoints source_store) 0 1)
    both_stores
  = match assign_copy sample_hash sample_iterate target_store source_store with
    | Ok a' => (<[0%nat := shards_ a']> both_stores, Done)
    | Exn _ => (both_stores, Threw)
    end ∧
  mrun_alone (assign_move_program (checkpoints target_store || checkpoints source_store) (λ _, ∅) 0 1) both_stores
  = match assign_move (imap (λ _ _, ∅) (shards_ source_store)) target_store source_store with
    | Ok (a', b') => (<[1%nat := shards_ b']> (<[0%nat := shards_ a']> both_stores), Done)
    | Exn _ => (both_stores, Threw)
    end.
Proof.
  apply (assignments_run_alone sample_hash sample_iterate (λ _, ∅) 0 1 target_store source_store both_stores);
    [done|reflexivity|reflexivity|reflexivity|vm_compute; reflexivity].
Defined.

(** [Set] is about to modify its shard while [Size] waits for it. *)
Definition busy_run : list (event call) * system :=
  default ([], at_rest empty_shards) (play (take 10 sample_schedule ++ [Go 0]) (at_rest empty_shards)).

Lemma busy_run_execution :
  execution (calls_step sample_hash sample_iterate true true) (at_rest empty_shards) busy_run.1 busy_run.2.
Proof.
  apply (play_execution (take 10 sample_schedule ++ [Go 0])). unfold busy_run.
  destruct (play (take 10 sample_schedule ++ [Go 0]) (at_rest empty_shards)) as [[es s]|] eqn:E; [done|].
  apply (f_equal (λ r, bool_decide (is_Some r))) in E. vm_compute in E. done.
Qed.

(** The thread is about to modify the shard. *)
Definition modifies (i : nat) (th : option thread) : bool :=
  match th with Some (Thread _ (Access j Exclusive _ _)) => (i =? j)%nat | _ => false end.

Lemma modifies_about_to i th : modifies i (Some th) = true → about_to th (OnShard i) Exclusive.
Proof. destruct th as [h [| | | |j [] f next]]; try done. by intros ->%Nat.eqb_eq. Qed.

Lemma no_data_race_witness :
  ∃ th0 th1, sys_threads busy_run.2 !! 0%nat = Some th0 ∧ sys_threads busy_run.2 !! 1%nat = Some th1 ∧
    about_to th1 (OnShard 1) Exclusive ∧
    ¬ (about_to th1 (OnShard 1) Exclusive ∧ about_to th0 (OnShard 1) Shared).
Proof.
  assert (bool_decide (is_Some (sys_threads busy_run.2 !! 0%nat)) = true) as [th0 H0]%bool_decide_eq_true
    by (vm_compute; reflexivity).
  assert (modifies 1 (sys_threads busy_run.2 !! 1%nat) = true) as H1 by (vm_compute; reflexivity).
  destruct (sys_threads busy_run.2 !! 1%nat) as [th1|] eqn:H2; [|discriminate H1].
  exists th0, th1. split; [exact H0|]. split; [reflexivity|]. split; [exact (modifies_about_to 1 th1 H1)|].
  exact (no_data_race sample_hash sample_iterate true true empty_shards busy_run.1
           busy_run.2 1 0 th1 th0 (OnShard 1) Shared busy_run_execution H2 H0 (Nat.neq_succ_0 0)).
Defined.

(** ** The command line *)

Lemma parse_render_witness :
  Parse (str "SET key two words") = make_command kSet (str "key") (str "two words").
Proof.
  apply (parse_render (make_command kSet (str "key") (str "two words"))); [|done].
  split; [by split; [|repeat constructor]|]. by split.
Defined.

Definition sample_what (code : Z) (message : bytes) : bytes := message ++ str ": error".

Definition sample_session : session (W := WriteAheadLog) :=
  Session (StoreState (new_store None None) (World ∅ [])) [] true.

Lemma sample_serving : serving sample_hash false ∅ sample_session.
Proof. split; [apply new_store_ok|]. split; [apply new_store_ok; exact sample_hash|done]. Qed.

Lemma run_is_a_dialogue_witness :
  wp (Server.Run LittleEndian sample_hash sample_iterate sample_what (str "1.0")
        (S (length (str "SET a b"))) (str "SET a b"))
    (λ b s', ∃ out m', dialogue sample_what (str "1.0") false (str "SET a b") ∅ out m' ∧ ses_out s' = out)
    (λ e _, what sample_what e = None) sample_session.
Proof.
  eapply wp_mono; [apply (run_is_a_dialogue LittleEndian sample_hash sample_iterate sample_what (str "1.0")
    (str "SET a b") false ∅ sample_session sample_serving eq_refl)| |done].
  intros b s' (_ & out & m' & Hd & _ & Ho). exists out, m'. split; [exact Hd|exact Ho].
Defined.

Lemma main_serves_what_the_files_hold_witness :
  wp (main LittleEndian sample_hash sample_iterate sample_what (str "1.0") 1 (str "kv") (str "GET a"))
    (λ status _, status = 0) (λ _ _, True) (Process [] [] (World ∅ [])).
Proof.
  eapply wp_mono; [apply (main_serves_what_the_files_hold LittleEndian sample_hash sample_iterate
    sample_iterate_spec sample_what (str "1.0") 1 (str "kv") (str "GET a") (Process [] [] (World ∅ [])))| |done].
  intros status p' [(H & _)|(_ & H & _)]; [lia|exact H].
Defined.

Lemma torn_log_refuses_writes_witness :
  wp (let! r := LoadSnapshot LittleEndian sample_hash sample_iterate default_snapshot in
      ReplayFromWal sample_hash sample_iterate torn_log (wal_offset r))
    (λ _ t, ∃ out running,
       refusing (str "1.0") (contents_of (kv t)) (str "SET a b") out ∧
       Run LittleEndian sample_hash sample_iterate sample_what (str "1.0") 8 (str "SET a b") (Session t [] true)
       = (Ok true, Session t out running))
    (λ _ _, True)
    (StoreState (new_store (Some torn_log) (Some default_snapshot)) torn_os).
Proof.
  destruct torn_log_holds as (rs & tail & Hh & Hne).
  eapply wp_mono; [apply (torn_log_refuses_writes LittleEndian sample_hash sample_iterate sample_iterate_spec
    sample_what (str "1.0") torn_log torn_os rs tail Hh Hne); vm_compute; reflexivity| |done].
  cbn beta. intros n t [H _]. apply (H (str "SET a b") (Session t [] true)); [done..|].
  eapply quiet_line; [vm_compute; reflexivity|by split; vm_compute|by apply quiet_eof].
Defined.
